(* ===== verification/_CoqProject ===== *)
-Q . S2P
Prelude.v
Text.v
Hlc.v
Identity.v
Envelope.v
Kv.v
Cron.v
Claim.v
Manifest.v
Quorum.v
DataAudit.v
Observability.v
Store.v
D1.v
QuorumNet.v
Node.v
NodeFacts.v
NodeProps.v
Resource.v
Hostname.v
Queue.v
Smtp.v
Email.v
EmailProps.v
EmailSmtp.v
Script.v
Workflow.v
WorkflowProps.v
WorkflowLease.v
WorkflowTrace.v
WorkflowBind.v
Json.v
FlowGraph.v
FlowLoop.v
Flow.v
FlowProps.v
FlowEnds.v
FlowEval.v
FlowTrace.v
FlowNet.v
Storage.v
Quota.v
R2.v
R2Props.v
R2Bytes.v
R2Sweep.v
R2Trace.v
Pipeline.v
PipelineProps.v
PipelineText.v
PipelineTrace.v
