(* ===== verification/Prelude.v ===== *)
(** * RandallFlare: a verification development

    RandallFlare is a decentralised edge platform: every node runs the same program, operators
    sign what the cluster should run, and the nodes agree by gossip, claims and small
    replicated databases.  The development translates its decision logic, by hand
    and from the sources under [src/], into executable Rocq definitions and proves what makes each part
    correct.  Third-party code is a parameter (a class of operations) with its documented
    behaviour as a class of laws; every theorem that needs laws has a witness that
    instantiates them.

    ** The parts and their files

    - Foundations.  [Prelude] (results, machine integers, sorting, minima, tactics), [Text] (the
      [str] functions of Rust on UTF-8 bytes) and [Json] (the values of serde_json).
    - The core crate, crates/rf-core.  [Hlc] (hlc.rs, hybrid clocks), [Identity] (identity.rs, signatures),
      [Envelope] (envelope.rs), [Kv] (kv.rs, the last-write-wins store), [Cron] (cron.rs), [Claim]
      (claim.rs, one runner per task), [Manifest] (manifest.rs, signed deployments) and
      [Quorum] (quorum.rs, the replicated log of one member).
    - A node, crates/rf.  [DataAudit] (data_audit.rs), [Observability] (observability.rs), [Store]
      (store.rs, what survives a restart), [D1] (d1.rs, the driver of one replicated
      database) and [QuorumNet] (a group of such drivers with a network that loses, repeats and
      reorders, and with crashes), [Node], [NodeFacts] and [NodeProps] (node.rs).
    - What operators sign.  [Resource] (resource.rs, hash-chained platform resources) and [Hostname]
      (hostname.rs and the verified set of node.rs, with its cache interleaved step by step).
    - Mail.  [Smtp] (the vendored SMTP library: parser, state machine, session, connection), [Email],
      [EmailProps] and [EmailSmtp] (email.rs, with the session and the database composed).
    - Services on replicated databases.  [Queue] (queue.rs); [Script], the common semantics of operations that issue
      one SQL statement at a time while others run, fail, lose answers and crash;
      [Workflow], [WorkflowProps], [WorkflowLease], [WorkflowTrace] and [WorkflowBind] (workflow.rs, the
      step functions of runtime.rs, workflowbind.rs); [FlowGraph], [FlowLoop], [Flow], [FlowProps], [FlowEnds],
      [FlowEval], [FlowTrace] and [FlowNet] (flow.rs).
    - Storage.  [Storage] (storage_policy.rs, the locations of objectstore.rs, the buckets of r2.rs), [Quota]
      (quota.rs), [R2] (r2.rs: every statement and operation on objects and uploads, the bytes of all nodes
      and remotes being one map from places to contents), [R2Props], [R2Bytes], [R2Sweep] and [R2Trace];
      [Pipeline], [PipelineProps], [PipelineText] and [PipelineTrace] (pipeline.rs, which stores its batches through
      the operations of [R2], lifted by [Script.lift]).

    ** How the state corresponds

    A struct is a [Record] with its fields, an enum an [Inductive], a [HashMap] or [BTreeMap] a [gmap], and
    where the order of a hash map could matter it is an argument the theorems quantify
    over.  Integers are [Z] at the width of the source: [wadd], [sat_add] and their relatives
    write out wrapping and saturation.  An error is a value of [result]; a panic is a value too where the
    code can reach one.  Clock readings, random identifiers and the answers of other
    programs are arguments or, in [Script], choices of the environment.  A SQL statement is atomic and has a
    constructor with its meaning as a function on the tables; an operation is the
    sequence of statements its function issues.

    ** What the theorems show

    - Agreement: one leader per epoch, logs applied in order and installed by leaders, and what a
      restart keeps ([Quorum], [QuorumNet], [D1], [NodeFacts]).
    - Convergence: the order and repetition of gossip do not matter ([Kv], [Manifest], [Resource],
      [Claim]).
    - Services under every interleaving, failure and crash: leases are exclusive or fenced, nothing is
      stranded, recorded steps are final, and completed work follows from the recorded steps
      ([Queue], [Email], [Workflow], [Flow] and the files after them); object metadata has its bytes, buckets stay
      within their limits, sweeps keep what is referenced ([R2Bytes], [R2Props], [R2Sweep]); accepted events are
      queued or stored ([PipelineProps]).
    - Parsers, validators and guards: exactness against a reference ([Cron], [FlowGraph], [FlowNet]),
      round trips ([Smtp], [Identity], [Envelope], [PipelineText]), termination ([FlowEnds]) and text that cannot leave
      its quotes in SQL ([PipelineText], [R2Props]).
    - Defects: where the code does not do what it means to, a theorem shows the behaviour on the
      model, and the manifest lists it as a finding.

    ** Bounds and fuel

    Recursion that is not structural takes fuel, and a lemma shows the fuel given is enough:
    [Cron.mask_loop] (64 values), [FlowGraph.visit] (one turn per node), [FlowGraph.loop_body] (two turns per edge), the
    schedulers of [Flow] (one turn per node), templates (one turn per character) and subflows
    (the nesting limit); running out is the error [OutOfFuel], which [FlowEnds] shows is never reached.
    Programs of users ([Workflow.run_prog]) take fuel as an argument of the theorems.  The sweep of [R2] takes
    its turns of 500 objects as an argument, over which its theorems quantify; the walk over pages of a listing
    ends with one turn per object.

    ** Not modelled

    Sockets, HTTP servers and clients, files, processes and the consoles around these parts are
    I/O.  Cryptography, SQLite, redb, serde, postcard, gzip and JSONata are third-party code and
    parameters. *)

From Stdlib Require Import ZArith Lia.
From stdpp Require Import prelude gmap sorting strings list.
Open Scope Z_scope.

(** ** Results *)

Inductive result (A E : Type) : Type :=
| Ok (a : A)
| Err (e : E).
Arguments Ok {A E} a.
Arguments Err {A E} e.

Declare Scope rf_scope.
Delimit Scope rf_scope with rf.
Open Scope rf_scope.

(** [let? x := e in k] is Rust's [let x = e?; k]. *)
Notation "'let?' x := e 'in' k" :=
  (match e with Ok x => k | Err err => Err err end)
  (at level 10, x pattern, e at level 100, k at level 200) : rf_scope.

Definition is_ok {A E} (r : result A E) : bool :=
  match r with Ok _ => true | Err _ => false end.

(** ** Machine integers

    An unsigned [w]-bit integer is a [Z]; arithmetic that the source writes
    with [+] and [-] wraps (the release profile of Cargo.toml leaves overflow
    checks off), [saturating_add] and [saturating_sub] clamp. *)

Definition wrap (w x : Z) : Z := x mod 2 ^ w.
Definition wadd (w a b : Z) : Z := wrap w (a + b).
Definition wsub (w a b : Z) : Z := wrap w (a - b).
Definition umax (w : Z) : Z := 2 ^ w - 1.
Definition sat_add (w a b : Z) : Z := Z.min (a + b) (umax w).
Definition sat_sub (a b : Z) : Z := Z.max (a - b) 0.
Definition in_width (w x : Z) : Prop := 0 <= x < 2 ^ w.

Definition u64_max : Z := umax 64.
Definition u32_max : Z := umax 32.

Lemma wrap_small (w x : Z) : 0 <= x < 2 ^ w -> wrap w x = x.
Proof. apply Z.mod_small. Qed.

Lemma wadd_small (w a b : Z) : 0 <= a + b < 2 ^ w -> wadd w a b = a + b.
Proof. apply wrap_small. Qed.

Lemma wsub_small (w a b : Z) : 0 <= a - b < 2 ^ w -> wsub w a b = a - b.
Proof. apply wrap_small. Qed.

Lemma wrap_in_width (w x : Z) : 0 <= w -> in_width w (wrap w x).
Proof. intros Hw. apply Z.mod_pos_bound. lia. Qed.

Lemma wadd_max (w : Z) : 0 <= w -> wadd w (umax w) 1 = 0.
Proof.
  intros Hw. unfold wadd, wrap, umax. replace (2 ^ w - 1 + 1) with (2 ^ w) by lia.
  apply Z_mod_same_full.
Qed.

(** ** Total orders, as the derived [Ord] of the source computes them *)

Class Cmp (A : Type) := cmp : A -> A -> comparison.

Class CmpOk (A : Type) `{Cmp A} : Prop := {
  cmp_eq_iff : forall x y : A, cmp x y = Eq <-> x = y;
  cmp_opp : forall x y : A, cmp y x = CompOpp (cmp x y);
  cmp_lt_trans : forall x y z : A, cmp x y = Lt -> cmp y z = Lt -> cmp x z = Lt
}.

Definition ltb {A} `{Cmp A} (x y : A) : bool :=
  match cmp x y with Lt => true | _ => false end.
Definition leb {A} `{Cmp A} (x y : A) : bool :=
  match cmp x y with Gt => false | _ => true end.
Definition cmp_max {A} `{Cmp A} (x y : A) : A := if leb x y then y else x.
Definition cmp_min {A} `{Cmp A} (x y : A) : A := if leb x y then x else y.

Definition lt_of {A} `{Cmp A} (x y : A) : Prop := cmp x y = Lt.
Definition le_of {A} `{Cmp A} (x y : A) : Prop := cmp x y <> Gt.

Notation "x ≺ y" := (lt_of x y) (at level 70) : rf_scope.
Notation "x ⪯ y" := (le_of x y) (at level 70) : rf_scope.

#[export] Instance lt_of_dec {A} `{Cmp A} : RelDecision (lt_of (A := A)).
Proof. intros x y. unfold lt_of. destruct (cmp x y); first [left; reflexivity | right; discriminate]. Defined.

#[export] Instance le_of_dec {A} `{Cmp A} : RelDecision (le_of (A := A)).
Proof. intros x y. unfold le_of. destruct (cmp x y); first [left; discriminate | right; congruence]. Defined.

Section cmp_facts.
Context {A : Type} `{CmpOk A}.
Implicit Types x y z : A.

Lemma cmp_refl x : cmp x x = Eq.
Proof. by apply cmp_eq_iff. Qed.

Lemma lt_of_irrefl x : ~ x ≺ x.
Proof. unfold lt_of. by rewrite cmp_refl. Qed.

Lemma lt_of_trans x y z : x ≺ y -> y ≺ z -> x ≺ z.
Proof. apply cmp_lt_trans. Qed.

Lemma le_of_refl x : x ⪯ x.
Proof. unfold le_of. by rewrite cmp_refl. Qed.

Lemma le_of_lt_or_eq x y : x ⪯ y <-> x ≺ y \/ x = y.
Proof.
  unfold le_of, lt_of. rewrite <- cmp_eq_iff. destruct (cmp x y); naive_solver.
Qed.

Lemma lt_of_le x y : x ≺ y -> x ⪯ y.
Proof. rewrite le_of_lt_or_eq. auto. Qed.

Lemma le_of_trans x y z : x ⪯ y -> y ⪯ z -> x ⪯ z.
Proof.
  rewrite !le_of_lt_or_eq. intros [?| ->] [?| ->]; eauto using lt_of_trans.
Qed.

Lemma le_lt_of_trans x y z : x ⪯ y -> y ≺ z -> x ≺ z.
Proof. rewrite le_of_lt_or_eq. intros [?| ->] ?; eauto using lt_of_trans. Qed.

Lemma lt_le_of_trans x y z : x ≺ y -> y ⪯ z -> x ≺ z.
Proof. rewrite le_of_lt_or_eq. intros ? [?| <-]; eauto using lt_of_trans. Qed.

Lemma lt_of_not_le x y : x ≺ y <-> ~ y ⪯ x.
Proof.
  unfold lt_of, le_of. rewrite (cmp_opp x y). destruct (cmp x y); simpl; naive_solver.
Qed.

Lemma le_of_not_lt x y : x ⪯ y <-> ~ y ≺ x.
Proof.
  unfold lt_of, le_of. rewrite (cmp_opp y x). destruct (cmp y x); simpl; naive_solver.
Qed.

Lemma le_of_antisym x y : x ⪯ y -> y ⪯ x -> x = y.
Proof.
  rewrite (le_of_lt_or_eq x y). intros [Hlt|?]; [|done].
  intros Hle. by apply lt_of_not_le in Hlt.
Qed.

Lemma le_of_total x y : x ⪯ y \/ y ⪯ x.
Proof.
  destruct (decide (x ⪯ y)) as [?|Hn]; [by left|right].
  apply lt_of_le. by apply lt_of_not_le.
Qed.

Lemma trichotomy x y : x ≺ y \/ x = y \/ y ≺ x.
Proof.
  destruct (decide (y ⪯ x)) as [Hle|Hn].
  - apply le_of_lt_or_eq in Hle as [?| ->]; auto.
  - left. by apply lt_of_not_le.
Qed.

Lemma ltb_lt x y : ltb x y = true <-> x ≺ y.
Proof. unfold ltb, lt_of. destruct (cmp x y); naive_solver. Qed.

Lemma ltb_ge x y : ltb x y = false <-> y ⪯ x.
Proof. rewrite <- not_true_iff_false, ltb_lt. symmetry. apply le_of_not_lt. Qed.

Lemma leb_le x y : leb x y = true <-> x ⪯ y.
Proof. unfold leb, le_of. destruct (cmp x y); naive_solver. Qed.

Lemma leb_gt x y : leb x y = false <-> y ≺ x.
Proof. rewrite <- not_true_iff_false, leb_le. symmetry. apply lt_of_not_le. Qed.

Lemma cmp_max_ub_l x y : x ⪯ cmp_max x y.
Proof. unfold cmp_max. destruct (leb x y) eqn:E; [by apply leb_le|apply le_of_refl]. Qed.

Lemma cmp_max_ub_r x y : y ⪯ cmp_max x y.
Proof.
  unfold cmp_max. destruct (leb x y) eqn:E; [apply le_of_refl|].
  by apply lt_of_le, leb_gt.
Qed.

Lemma cmp_max_cases x y : cmp_max x y = x \/ cmp_max x y = y.
Proof. unfold cmp_max. destruct (leb x y); auto. Qed.

#[export] Instance le_of_Transitive : Transitive (le_of (A := A)).
Proof. intros x y z. apply le_of_trans. Qed.

#[export] Instance le_of_Total : Total (le_of (A := A)).
Proof. intros x y. apply le_of_total. Qed.

#[export] Instance le_of_AntiSymm : AntiSymm eq (le_of (A := A)).
Proof. intros x y. apply le_of_antisym. Qed.

(** Sorting by a total order forgets the order of the input. *)
Lemma merge_sort_perm (l1 l2 : list A) :
  l1 ≡ₚ l2 -> merge_sort le_of l1 = merge_sort le_of l2.
Proof.
  intros Hp. apply (Sorted_unique le_of).
  - apply Sorted_merge_sort, _.
  - apply Sorted_merge_sort, _.
  - by rewrite !merge_sort_Permutation.
Qed.
End cmp_facts.

(** An order pulled back along an injection. *)
Lemma cmp_ok_inj {A B} `{CmpOk B} (f : A -> B) :
  (forall x y, f x = f y -> x = y) -> @CmpOk A (fun x y => cmp (f x) (f y)).
Proof.
  intros Hinj. split.
  - intros x y. transitivity (f x = f y); [exact (cmp_eq_iff (f x) (f y))|].
    split; [apply Hinj|congruence].
  - intros x y. exact (cmp_opp (f x) (f y)).
  - intros x y z. exact (cmp_lt_trans (f x) (f y) (f z)).
Qed.

(** *** Instances: integers, pairs, lists, strings *)

#[export] Instance Z_cmp : Cmp Z := Z.compare.
#[export] Instance Z_cmp_ok : CmpOk Z.
Proof.
  split; unfold cmp, Z_cmp; intros.
  - apply Z.compare_eq_iff.
  - by rewrite Z.compare_antisym.
  - rewrite Z.compare_lt_iff in *. lia.
Qed.

Lemma Z_lt_of (x y : Z) : x ≺ y <-> x < y.
Proof. apply Z.compare_lt_iff. Qed.
Lemma Z_le_of (x y : Z) : x ⪯ y <-> x <= y.
Proof. apply Z.compare_le_iff. Qed.

(** Lexicographic composition, as in [Ordering::then_with]. *)
Definition then_with (a b : comparison) : comparison :=
  match a with Eq => b | _ => a end.

#[export] Instance pair_cmp {A B} `{Cmp A, Cmp B} : Cmp (A * B) :=
  fun p q => then_with (cmp p.1 q.1) (cmp p.2 q.2).

#[export] Instance pair_cmp_ok {A B} `{CmpOk A, CmpOk B} : CmpOk (A * B).
Proof.
  split; unfold cmp, pair_cmp, then_with.
  - intros [x1 x2] [y1 y2]; simpl.
    pose proof (cmp_eq_iff x1 y1). pose proof (cmp_eq_iff x2 y2).
    destruct (cmp x1 y1), (cmp x2 y2); naive_solver.
  - intros [x1 x2] [y1 y2]; simpl. rewrite (cmp_opp x1 y1), (cmp_opp x2 y2).
    by destruct (cmp x1 y1).
  - intros [x1 x2] [y1 y2] [z1 z2]; simpl.
    destruct (cmp x1 y1) eqn:E1, (cmp y1 z1) eqn:E2; try discriminate.
    + apply cmp_eq_iff in E1 as ->. rewrite E2. apply cmp_lt_trans.
    + apply cmp_eq_iff in E1 as ->. by rewrite E2.
    + apply cmp_eq_iff in E2 as ->. by rewrite E1.
    + by rewrite (cmp_lt_trans _ _ _ E1 E2).
Qed.

Fixpoint list_compare {A} `{Cmp A} (l1 l2 : list A) : comparison :=
  match l1, l2 with
  | [], [] => Eq
  | [], _ :: _ => Lt
  | _ :: _, [] => Gt
  | x :: l1', y :: l2' => then_with (cmp x y) (list_compare l1' l2')
  end.

#[export] Instance list_cmp {A} `{Cmp A} : Cmp (list A) := list_compare.

#[export] Instance list_cmp_ok {A} `{CmpOk A} : CmpOk (list A).
Proof.
  split; unfold cmp, list_cmp, then_with.
  - induction x as [|x l1 IH]; intros [|y l2]; simpl; try done.
    specialize (IH l2). pose proof (cmp_eq_iff x y).
    destruct (cmp x y), (list_compare l1 l2); naive_solver.
  - induction x as [|x l1 IH]; intros [|y l2]; simpl; try done.
    rewrite (cmp_opp x y), (IH l2). by destruct (cmp x y).
  - induction x as [|x l1 IH]; intros [|y l2] [|z l3]; simpl; try done.
    specialize (IH l2 l3). unfold then_with in *.
    destruct (cmp x y) eqn:E1, (cmp y z) eqn:E2; try discriminate.
    + apply cmp_eq_iff in E1 as ->. rewrite E2. apply IH.
    + apply cmp_eq_iff in E1 as ->. by rewrite E2.
    + apply cmp_eq_iff in E2 as ->. by rewrite E1.
    + by rewrite (cmp_lt_trans _ _ _ E1 E2).
Qed.

(** ** Bytes and little-endian encodings *)

Abbreviation bytes := (list Z).

Fixpoint le_bytes (n : nat) (x : Z) : bytes :=
  match n with
  | O => []
  | S n' => x mod 256 :: le_bytes n' (x / 256)
  end.

(** [u64::to_le_bytes] and [u32::to_le_bytes]. *)
Definition u64_le (x : Z) : bytes := le_bytes 8 x.
Definition u32_le (x : Z) : bytes := le_bytes 4 x.

Lemma le_bytes_length (n : nat) (x : Z) : length (le_bytes n x) = n.
Proof. revert x. induction n; intros; simpl; auto. Qed.

Lemma le_bytes_inj (n : nat) (x y : Z) :
  0 <= x < 256 ^ Z.of_nat n -> 0 <= y < 256 ^ Z.of_nat n ->
  le_bytes n x = le_bytes n y -> x = y.
Proof.
  revert x y. induction n as [|n IH]; intros x y Hx Hy; simpl.
  - change (256 ^ Z.of_nat 0) with 1 in *. lia.
  - intros [= Hm Hd]. rewrite Nat2Z.inj_succ, Z.pow_succ_r in Hx, Hy by lia.
    assert (x / 256 = y / 256) as Hq.
    { apply IH; [| |done]; split; try (apply Z.div_pos; lia);
        apply Z.div_lt_upper_bound; lia. }
    rewrite (Z.div_mod x 256), (Z.div_mod y 256) by lia. congruence.
Qed.

(** ** Selecting a minimum

    [Iterator::min_by] folds left and keeps the earlier element of a tie. *)

Section min_by.
Context {A K : Type} `{CmpOk K} (key : A -> K).

Fixpoint min_from (best : A) (l : list A) : A :=
  match l with
  | [] => best
  | x :: l' => min_from (if ltb (key x) (key best) then x else best) l'
  end.

Definition min_by_key (l : list A) : option A :=
  match l with
  | [] => None
  | x :: l' => Some (min_from x l')
  end.

Lemma min_from_elem best l : min_from best l = best \/ min_from best l ∈ l.
Proof.
  revert best. induction l as [|x l IH]; intros best; simpl; [by left|].
  destruct (IH (if ltb (key x) (key best) then x else best)) as [->|Hin].
  - destruct (ltb _ _); [right; set_solver|by left].
  - right. set_solver.
Qed.

Lemma min_from_le best l y : y = best \/ y ∈ l -> key (min_from best l) ⪯ key y.
Proof.
  revert best y. induction l as [|x l IH]; intros best y Hy; simpl.
  - destruct Hy as [->|Hy]; [apply le_of_refl|set_solver].
  - destruct (ltb (key x) (key best)) eqn:E.
    + apply ltb_lt in E. destruct Hy as [->|[->|Hy]%elem_of_cons].
      * eapply le_of_trans; [apply (IH x x); by left|by apply lt_of_le].
      * apply IH. by left.
      * apply IH. by right.
    + apply ltb_ge in E. destruct Hy as [->|[->|Hy]%elem_of_cons].
      * apply IH. by left.
      * eapply le_of_trans; [apply (IH best best); by left|done].
      * apply IH. by right.
Qed.

Lemma min_by_key_None l : min_by_key l = None <-> l = [].
Proof. destruct l; naive_solver. Qed.

Lemma min_by_key_Some l x :
  min_by_key l = Some x -> x ∈ l /\ forall y, y ∈ l -> key x ⪯ key y.
Proof.
  destruct l as [|a l]; simpl; [done|]. intros [= <-]. split.
  - destruct (min_from_elem a l) as [->|?]; set_solver.
  - intros y Hy. apply min_from_le. set_solver.
Qed.

(** The key that wins does not depend on the iteration order. *)
Lemma min_by_key_perm l1 l2 :
  l1 ≡ₚ l2 -> key <$> min_by_key l1 = key <$> min_by_key l2.
Proof.
  intros Hp. destruct (min_by_key l1) as [x|] eqn:E1, (min_by_key l2) as [y|] eqn:E2; simpl.
  - apply min_by_key_Some in E1 as [Hx1 Hx2], E2 as [Hy1 Hy2]. f_equal.
    apply le_of_antisym.
    + apply Hx2. by rewrite Hp.
    + apply Hy2. by rewrite <- Hp.
  - apply min_by_key_None in E2 as ->. apply Permutation_nil_r in Hp as ->. done.
  - apply min_by_key_None in E1 as ->. symmetry in Hp. apply Permutation_nil_r in Hp as ->. done.
  - done.
Qed.
End min_by.

Lemma filter_none {A} (P : A -> Prop) `{!forall x, Decision (P x)} (l : list A) :
  (forall x, x ∈ l -> ~ P x) -> filter P l = [].
Proof.
  induction l as [|x l IH]; intros Hn; [done|].
  rewrite filter_cons_False by (apply Hn; set_solver). apply IH. set_solver.
Qed.

(** A left fold whose steps commute does not depend on the order of the list. *)
Lemma foldl_perm {A B} (f : B -> A -> B) (P : A -> Prop) (l1 l2 : list A) (b : B) :
  (forall b x y, P x -> P y -> f (f b x) y = f (f b y) x) ->
  l1 ≡ₚ l2 -> Forall P l1 -> foldl f b l1 = foldl f b l2.
Proof.
  intros Hf Hp. revert b. induction Hp as [|x l1 l2 Hp IH|x y l|l1 l2 l3 Hp1 IH1 Hp2 IH2];
    intros b Hall; [done|..].
  - apply Forall_cons in Hall as [_ Hall]. simpl. by apply IH.
  - apply Forall_cons in Hall as [Hy Hall]. apply Forall_cons in Hall as [Hx Hall]. simpl. by rewrite Hf.
  - rewrite IH1 by done. apply IH2. by rewrite <- Hp1.
Qed.

(** ** Strictly sorted lists *)

Lemma StronglySorted_filter {A} (R : A -> A -> Prop) (P : A -> Prop) `{!forall x, Decision (P x)} (l : list A) :
  StronglySorted R l -> StronglySorted R (filter P l).
Proof.
  induction 1 as [|x l Hl IH Hx]; [constructor|]. destruct (decide (P x)).
  - rewrite filter_cons_True by done. constructor; [done|]. rewrite Forall_forall in *.
    intros y [_ Hy]%list_elem_of_filter. by apply Hx.
  - by rewrite filter_cons_False.
Qed.

(** A strict order lists a set in one way. *)
Lemma StronglySorted_take {A} (R : A -> A -> Prop) (l : list A) k : StronglySorted R l -> StronglySorted R (take k l).
Proof.
  intros H. revert k. induction H as [|x l Hl IH Hf]; intros [|k]; simpl; constructor; [done|]. by apply Forall_take.
Qed.

Lemma StronglySorted_unique_elems {A} (R : A -> A -> Prop) (l l' : list A) :
  (forall x y, R x y -> R y x -> False) ->
  StronglySorted R l -> StronglySorted R l' -> (forall x, x ∈ l <-> x ∈ l') -> l = l'.
Proof.
  intros HR Hs. revert l'. induction Hs as [|x l Hl IH Hx]; intros l' Hs' Hin.
  - destruct l' as [|y l']; [done|]. assert (y ∈ []) as Hy by (apply Hin; set_solver).
    by apply not_elem_of_nil in Hy.
  - rewrite Forall_forall in Hx. destruct Hs' as [|y l' Hl' Hy].
    + assert (x ∈ []) as Hx' by (apply Hin; set_solver). by apply not_elem_of_nil in Hx'.
    + rewrite Forall_forall in Hy. assert (x = y) as <-.
      { assert (x = y \/ x ∈ l') as [|Hxl] by (apply elem_of_cons, Hin; set_solver); [done|].
        assert (y = x \/ y ∈ l) as [|Hyl] by (apply elem_of_cons, Hin; set_solver); [done|].
        destruct (HR x y); auto. }
      f_equal. apply IH; [done|]. intros e. specialize (Hin e). rewrite !elem_of_cons in Hin.
      split; intros He.
      * destruct (proj1 Hin (or_intror He)) as [->|]; [|done]. destruct (HR x x); auto.
      * destruct (proj2 Hin (or_intror He)) as [->|]; [|done]. destruct (HR x x); auto.
Qed.

(** ** Automation *)

Ltac break_match :=
  match goal with
  | |- context [match ?x with _ => _ end] => destruct x eqn:?
  | H : context [match ?x with _ => _ end] |- _ => destruct x eqn:?
  end.

(** Turns boolean comparisons of [Z] and of ordered types into propositions. *)
Ltac to_prop :=
  repeat match goal with
  | H : (_ =? _)%Z = true |- _ => apply Z.eqb_eq in H
  | H : (_ =? _)%Z = false |- _ => apply Z.eqb_neq in H
  | H : (_ <? _)%Z = true |- _ => apply Z.ltb_lt in H
  | H : (_ <? _)%Z = false |- _ => apply Z.ltb_ge in H
  | H : (_ <=? _)%Z = true |- _ => apply Z.leb_le in H
  | H : (_ <=? _)%Z = false |- _ => apply Z.leb_gt in H
  | H : ltb _ _ = true |- _ => apply ltb_lt in H
  | H : ltb _ _ = false |- _ => apply ltb_ge in H
  | H : leb _ _ = true |- _ => apply leb_le in H
  | H : leb _ _ = false |- _ => apply leb_gt in H
  | H : bool_decide _ = true |- _ => apply bool_decide_eq_true in H
  | H : bool_decide _ = false |- _ => apply bool_decide_eq_false in H
  | H : (_ && _)%bool = true |- _ => apply andb_true_iff in H as [? ?]
  | H : (_ || _)%bool = false |- _ => apply orb_false_iff in H as [? ?]
  | H : negb _ = true |- _ => apply negb_true_iff in H
  | H : negb _ = false |- _ => apply negb_false_iff in H
  end.

Create HintDb rf discriminated.
#[export] Hint Resolve le_of_refl lt_of_le cmp_max_ub_l cmp_max_ub_r : rf.
