(* ===== verification/Text.v ===== *)
(** * Text: the [str] operations the sources use

    A Rust [str] is its UTF-8 bytes, a Rocq [string] (one [ascii] per byte).
    The functions here are the standard-library calls of the modelled code:
    [as_bytes], byte-wise [Ord], [split], [split_once], [starts_with],
    [ends_with], [contains], [replace] of one byte, [split_whitespace],
    [trim], and the decimal [FromStr] of the unsigned integers. *)

From Stdlib Require Import ZArith Lia Ascii.
From stdpp Require Import prelude gmap sorting strings list.
From S2P Require Import Prelude.
Open Scope Z_scope.

Definition byte_of (c : ascii) : Z := Z.of_N (N_of_ascii c).

Fixpoint as_bytes (s : string) : bytes :=
  match s with
  | EmptyString => []
  | String c s' => byte_of c :: as_bytes s'
  end.

Definition slen (s : string) : Z := Z.of_nat (String.length s).

Lemma byte_of_range (c : ascii) : 0 <= byte_of c < 256.
Proof. unfold byte_of. pose proof (N_ascii_bounded c). lia. Qed.

Lemma byte_of_inj (c d : ascii) : byte_of c = byte_of d -> c = d.
Proof.
  unfold byte_of. intros E. apply N2Z.inj in E.
  rewrite <- (ascii_N_embedding c), <- (ascii_N_embedding d). by rewrite E.
Qed.

Lemma as_bytes_inj (s t : string) : as_bytes s = as_bytes t -> s = t.
Proof.
  revert t. induction s as [|c s IH]; intros [|d t]; simpl; try done.
  intros [= E1 E2]. apply byte_of_inj in E1 as ->. by rewrite (IH t).
Qed.

Lemma as_bytes_length (s : string) : length (as_bytes s) = String.length s.
Proof. induction s; simpl; auto. Qed.

#[export] Instance string_cmp : Cmp string := fun s t => cmp (as_bytes s) (as_bytes t).

#[export] Instance string_cmp_ok : CmpOk string.
Proof. apply (cmp_ok_inj as_bytes), as_bytes_inj. Qed.

(** ** Searching and splitting *)

Fixpoint contains_byte (c : ascii) (s : string) : bool :=
  match s with
  | EmptyString => false
  | String d s' => bool_decide (d = c) || contains_byte c s'
  end.

Definition starts_with (p s : string) : bool := String.prefix p s.

Definition starts_with_byte (c : ascii) (s : string) : bool :=
  match s with String d _ => bool_decide (d = c) | EmptyString => false end.

Fixpoint ends_with_byte (c : ascii) (s : string) : bool :=
  match s with
  | EmptyString => false
  | String d EmptyString => bool_decide (d = c)
  | String _ s' => ends_with_byte c s'
  end.

Definition is_empty (s : string) : bool :=
  match s with EmptyString => true | _ => false end.

Fixpoint all_bytes (p : ascii -> bool) (s : string) : bool :=
  match s with
  | EmptyString => true
  | String d s' => p d && all_bytes p s'
  end.

(** [str::split(c)]: never empty, one more piece than separators. *)
Fixpoint split (c : ascii) (s : string) : list string :=
  match s with
  | EmptyString => [EmptyString]
  | String d s' =>
      if bool_decide (d = c) then EmptyString :: split c s'
      else match split c s' with
           | p :: ps => String d p :: ps
           | [] => [String d EmptyString]
           end
  end.

(** [str::split_once(c)]: cut at the first separator. *)
Fixpoint split_once (c : ascii) (s : string) : option (string * string) :=
  match s with
  | EmptyString => None
  | String d s' =>
      if bool_decide (d = c) then Some (EmptyString, s')
      else match split_once c s' with
           | Some (a, b) => Some (String d a, b)
           | None => None
           end
  end.

(** [str::replace] with single-byte pattern and replacement. *)
Fixpoint replace_byte (a b : ascii) (s : string) : string :=
  match s with
  | EmptyString => EmptyString
  | String d s' => String (if bool_decide (d = a) then b else d) (replace_byte a b s')
  end.

(** [str::strip_prefix]. *)
Fixpoint strip_prefix (p s : string) : option string :=
  match p, s with
  | EmptyString, _ => Some s
  | String a p', String b s' => if bool_decide (a = b) then strip_prefix p' s' else None
  | String _ _, EmptyString => None
  end.

Lemma contains_byte_app (c : ascii) (a b : string) :
  contains_byte c (a +:+ b) = contains_byte c a || contains_byte c b.
Proof.
  induction a as [|d a IH]; [done|]. change (String d a +:+ b) with (String d (a +:+ b)).
  cbn [contains_byte]. rewrite IH. apply orb_assoc.
Qed.

Lemma strip_prefix_app (p s : string) : strip_prefix p (p +:+ s) = Some s.
Proof. induction p as [|c p IH]; simpl; [by destruct s|]. by rewrite bool_decide_true. Qed.

Fixpoint sdrop (n : nat) (s : string) : string :=
  match n, s with
  | O, _ => s
  | S n', String _ s' => sdrop n' s'
  | S _, EmptyString => EmptyString
  end.

Fixpoint srev_app (s t : string) : string :=
  match s with
  | EmptyString => t
  | String c s' => srev_app s' (String c t)
  end.

Definition srev (s : string) : string := srev_app s EmptyString.

(** ** Whitespace

    Bytes taken by the [White_Space] character at the head of a string, zero
    when there is none: the ASCII ones and the UTF-8 sequences of U+0085,
    U+00A0, U+1680, U+2000..U+200A, U+2028, U+2029, U+202F, U+205F, U+3000. *)
Definition ws_len (s : string) : nat :=
  match as_bytes s with
  | b0 :: rest =>
      if ((9 <=? b0) && (b0 <=? 13))%Z || (b0 =? 32)%Z then 1%nat
      else match rest with
      | b1 :: rest' =>
          if (b0 =? 194)%Z && ((b1 =? 133)%Z || (b1 =? 160)%Z) then 2%nat
          else match rest' with
          | b2 :: _ =>
              if ((b0 =? 225) && (b1 =? 154) && (b2 =? 128))%Z
                 || ((b0 =? 226) && (b1 =? 128)
                     && (((128 <=? b2) && (b2 <=? 138)) || (b2 =? 168) || (b2 =? 169)
                         || (b2 =? 175)))%Z
                 || ((b0 =? 226) && (b1 =? 129) && (b2 =? 159))%Z
                 || ((b0 =? 227) && (b1 =? 128) && (b2 =? 128))%Z
              then 3%nat else 0%nat
          | [] => 0%nat
          end
      | [] => 0%nat
      end
  | [] => 0%nat
  end.

Definition push_token (tok : string) (rest : list string) : list string :=
  match tok with EmptyString => rest | _ => srev tok :: rest end.

(** [split_whitespace], the token being read kept in reverse; every step
    consumes a byte, so the length of the input bounds the recursion. *)
Fixpoint split_ws_go (fuel : nat) (tok s : string) : list string :=
  match fuel with
  | O => push_token tok []
  | S fuel' =>
      match s with
      | EmptyString => push_token tok []
      | String c s' =>
          match ws_len s with
          | O => split_ws_go fuel' (String c tok) s'
          | n => push_token tok (split_ws_go fuel' EmptyString (sdrop n s))
          end
      end
  end.

Definition split_whitespace (s : string) : list string :=
  split_ws_go (String.length s) EmptyString s.

Fixpoint trim_start_go (fuel : nat) (s : string) : string :=
  match fuel with
  | O => s
  | S fuel' => match ws_len s with O => s | n => trim_start_go fuel' (sdrop n s) end
  end.

Definition trim_start (s : string) : string := trim_start_go (String.length s) s.

(** Bytes of the whitespace character that ends a string: the suffix of one,
    two or three bytes that is exactly one [White_Space] character. *)
Definition ws_suffix_len (s : string) : nat :=
  let suffix n := sdrop (String.length s - n) s in
  if bool_decide (ws_len (suffix 1%nat) = 1%nat) && negb (is_empty s) then 1%nat
  else if bool_decide (2 <= String.length s)%nat && bool_decide (ws_len (suffix 2%nat) = 2%nat) then 2%nat
  else if bool_decide (3 <= String.length s)%nat && bool_decide (ws_len (suffix 3%nat) = 3%nat) then 3%nat
  else 0%nat.

Fixpoint stake (n : nat) (s : string) : string :=
  match n, s with
  | S n', String c s' => String c (stake n' s')
  | _, _ => EmptyString
  end.

Fixpoint trim_end_go (fuel : nat) (s : string) : string :=
  match fuel with
  | O => s
  | S fuel' =>
      match ws_suffix_len s with
      | O => s
      | n => trim_end_go fuel' (stake (String.length s - n) s)
      end
  end.

Definition trim_end (s : string) : string := trim_end_go (String.length s) s.

Definition trim (s : string) : string := trim_end (trim_start s).

(** ** Decimal numbers *)

Definition is_ascii_digit (c : ascii) : bool :=
  ((48 <=? byte_of c) && (byte_of c <=? 57))%Z.
Definition is_ascii_lowercase (c : ascii) : bool :=
  ((97 <=? byte_of c) && (byte_of c <=? 122))%Z.
Definition is_ascii_control (c : ascii) : bool :=
  ((byte_of c <=? 31) || (byte_of c =? 127))%Z.

Fixpoint parse_digits (max acc : Z) (s : string) : option Z :=
  match s with
  | EmptyString => Some acc
  | String c s' =>
      if is_ascii_digit c then
        let acc' := acc * 10 + (byte_of c - 48) in
        if (acc' <=? max)%Z then parse_digits max acc' s' else None
      else None
  end.

(** [<uN as FromStr>::from_str]: an optional [+], then at least one digit,
    no overflow. *)
Definition parse_uint (max : Z) (s : string) : option Z :=
  let digits := match s with String "+" s' => s' | _ => s end in
  match digits with
  | EmptyString => None
  | _ => parse_digits max 0 digits
  end.

Definition parse_u32 (s : string) : option Z := parse_uint u32_max s.
Definition parse_u64 (s : string) : option Z := parse_uint u64_max s.

Lemma parse_digits_range (max acc : Z) (s : string) (v : Z) :
  0 <= acc <= max -> parse_digits max acc s = Some v -> 0 <= v <= max.
Proof.
  revert acc. induction s as [|c s IH]; intros acc Hacc; simpl.
  - intros [= <-]. done.
  - unfold is_ascii_digit. destruct (_ && _)%bool eqn:E; [|done]. to_prop.
    destruct (_ <=? max)%Z eqn:E2; [|done]. to_prop. apply IH. lia.
Qed.

Lemma parse_uint_range (max : Z) (s : string) (v : Z) :
  0 <= max -> parse_uint max s = Some v -> 0 <= v <= max.
Proof.
  intros Hmax. unfold parse_uint. set (d := match s with String _ _ => _ | _ => _ end).
  destruct d; [done|]. apply parse_digits_range. lia.
Qed.

Lemma split_nonempty (c : ascii) (s : string) : split c s <> [].
Proof. destruct s as [|d s]; simpl; [done|]. destruct (bool_decide _), (split c s); done. Qed.

(** *** Trimming leaves printable ASCII alone *)

Definition is_graphic (c : ascii) : bool := ((33 <=? byte_of c) && (byte_of c <=? 126))%Z.

Lemma ws_len_graphic (c : ascii) (s : string) :
  is_graphic c = true -> ws_len (String c s) = 0%nat.
Proof.
  unfold is_graphic. intros Hd. to_prop. unfold ws_len. cbn [as_bytes].
  repeat match goal with
  | |- context [(?a <=? ?b)%Z] => destruct (Z.leb_spec a b); [try lia|try lia]
  | |- context [(?a =? ?b)%Z] => destruct (Z.eqb_spec a b); [try lia|try lia]
  end; simpl; repeat (case_match; try done); lia.
Qed.

Lemma all_bytes_sdrop (p : ascii -> bool) (n : nat) (s : string) :
  all_bytes p s = true -> all_bytes p (sdrop n s) = true.
Proof.
  revert s. induction n as [|n IH]; intros [|c s]; simpl; try done.
  intros Hp. to_prop. auto.
Qed.

Lemma all_bytes_impl (p q : ascii -> bool) (s : string) :
  (forall c, p c = true -> q c = true) -> all_bytes p s = true -> all_bytes q s = true.
Proof.
  intros Hpq. induction s as [|c s IH]; simpl; [done|].
  intros Hp. to_prop. rewrite andb_true_iff. auto.
Qed.

Lemma all_bytes_app (p : ascii -> bool) (s t : string) :
  all_bytes p (s +:+ t) = all_bytes p s && all_bytes p t.
Proof. induction s as [|c s IH]; simpl; [done|]. by rewrite IH, andb_assoc. Qed.

Lemma ws_len_all_graphic (s : string) : all_bytes is_graphic s = true -> ws_len s = 0%nat.
Proof. destruct s as [|c s]; simpl; [done|]. intros Hp. to_prop. by apply ws_len_graphic. Qed.

Lemma trim_graphic (s : string) : all_bytes is_graphic s = true -> trim s = s.
Proof.
  intros Hs. unfold trim.
  assert (trim_start s = s) as ->.
  { unfold trim_start. destruct (String.length s); simpl; [done|].
    by rewrite ws_len_all_graphic. }
  unfold trim_end. destruct (String.length s) as [|n] eqn:E; simpl; [done|].
  assert (ws_suffix_len s = 0%nat) as ->; [|done].
  unfold ws_suffix_len.
  rewrite !ws_len_all_graphic by (by apply all_bytes_sdrop).
  rewrite !andb_false_r. done.
Qed.

Example split_whitespace_ex :
  split_whitespace "  */15 9-17  * * 7 " = ["*/15"; "9-17"; "*"; "*"; "7"].
Proof. reflexivity. Qed.
Example split_ex : split "," "1,,2" = ["1"; ""; "2"].
Proof. reflexivity. Qed.
Example trim_ex : trim "  a b	 " = "a b".
Proof. reflexivity. Qed.
Example parse_u32_ex :
  (parse_u32 "+42", parse_u32 "-1", parse_u32 "4294967296", parse_u32 "+")
  = (Some 42, None, None, None).
Proof. reflexivity. Qed.

(** ** Case, UTF-8 and the remaining searches *)

Definition is_ascii_upper (c : ascii) : bool := ((65 <=? byte_of c) && (byte_of c <=? 90))%Z.

Definition is_ascii_alphanumeric (c : ascii) : bool :=
  is_ascii_digit c || is_ascii_lowercase c || is_ascii_upper c.

(** [u8::to_ascii_lowercase]. *)
Definition lower (c : ascii) : ascii := if is_ascii_upper c then ascii_of_N (N_of_ascii c + 32) else c.

Fixpoint to_ascii_lowercase (s : string) : string :=
  match s with
  | EmptyString => EmptyString
  | String c s' => String (lower c) (to_ascii_lowercase s')
  end.

Definition eq_ignore_ascii_case (s t : string) : bool :=
  bool_decide (to_ascii_lowercase s = to_ascii_lowercase t).

(** [str::is_ascii]. *)
Definition is_ascii (s : string) : bool := all_bytes (fun c => (byte_of c <? 128)%Z) s.

Definition between (lo hi : Z) (c : ascii) : bool := ((lo <=? byte_of c) && (byte_of c <=? hi))%Z.

(** Well-formed UTF-8: the byte ranges of the standard, as [str::from_utf8]
    checks them. *)
Fixpoint is_utf8 (s : string) : bool :=
  match s with
  | EmptyString => true
  | String a s1 =>
      if (byte_of a <? 128)%Z then is_utf8 s1
      else match s1 with
      | EmptyString => false
      | String b s2 =>
          if between 194 223 a then between 128 191 b && is_utf8 s2
          else match s2 with
          | EmptyString => false
          | String c s3 =>
              if between 224 239 a then
                (if (byte_of a =? 224)%Z then between 160 191 b
                 else if (byte_of a =? 237)%Z then between 128 159 b else between 128 191 b)
                && between 128 191 c && is_utf8 s3
              else match s3 with
              | EmptyString => false
              | String d s4 =>
                  between 240 244 a
                  && (if (byte_of a =? 240)%Z then between 144 191 b
                      else if (byte_of a =? 244)%Z then between 128 143 b else between 128 191 b)
                  && between 128 191 c && between 128 191 d && is_utf8 s4
              end
          end
      end
  end.

Definition from_utf8 (s : string) : option string := if is_utf8 s then Some s else None.

Lemma is_ascii_utf8 (s : string) : is_ascii s = true -> is_utf8 s = true.
Proof.
  induction s as [|a s IH]; [done|].
  unfold is_ascii in *. cbn [all_bytes is_utf8]. intros [Ha Hs]%andb_prop.
  rewrite Ha. by apply IH.
Qed.

(** [split_ascii_whitespace]: blanks are space, tab, line feed, form feed and
    carriage return. *)
Definition is_ascii_whitespace (c : ascii) : bool :=
  bool_decide (byte_of c ∈ [32; 9; 10; 12; 13]).

Fixpoint split_ascii_ws_go (tok s : string) : list string :=
  match s with
  | EmptyString => push_token tok []
  | String c s' =>
      if is_ascii_whitespace c then push_token tok (split_ascii_ws_go EmptyString s')
      else split_ascii_ws_go (String c tok) s'
  end.

Definition split_ascii_whitespace (s : string) : list string := split_ascii_ws_go EmptyString s.

(** [str::rsplit_once]: the text before and after the last occurrence. *)
Fixpoint rsplit_once (c : ascii) (s : string) : option (string * string) :=
  match s with
  | EmptyString => None
  | String a s' =>
      match rsplit_once c s' with
      | Some (l, r) => Some (String a l, r)
      | None => if bool_decide (a = c) then Some (EmptyString, s') else None
      end
  end.

(** [str::contains] of a text. *)
Fixpoint contains (p s : string) : bool :=
  starts_with p s || match s with EmptyString => false | String _ s' => contains p s' end.

(** The characters of UTF-8 text, and the first of them. *)
Definition is_continuation (c : ascii) : bool := ((128 <=? byte_of c) && (byte_of c <? 192))%Z.
Fixpoint chars (s : string) : list string :=
  match s with
  | EmptyString => []
  | String c s' =>
      match chars s', s' with
      | ch :: rest, String d _ => if is_continuation d then String c ch :: rest else String c EmptyString :: ch :: rest
      | rest, _ => String c EmptyString :: rest
      end
  end.
Fixpoint take_chars (n : nat) (s : string) : string :=
  match s with
  | EmptyString => EmptyString
  | String c s' =>
      if is_continuation c then String c (take_chars n s')
      else match n with O => EmptyString | S n' => String c (take_chars n' s') end
  end.

(** [char::is_control]: U+0000 to U+001F, U+007F to U+009F. *)
Definition is_control (ch : string) : bool :=
  match ch with
  | String c EmptyString => is_ascii_control c
  | String c (String d EmptyString) => ((byte_of c =? 194) && (byte_of d <? 160))%Z
  | _ => false
  end.

(** [str::replace]. *)
Fixpoint replace_go (pat rep : string) (skip : nat) (s : string) : string :=
  match s with
  | EmptyString => EmptyString
  | String c s' =>
      match skip with
      | S k => replace_go pat rep k s'
      | O => if starts_with pat s then rep ++ replace_go pat rep (String.length pat - 1) s' else String c (replace_go pat rep 0 s')
      end
  end.
Definition replace (pat rep s : string) : string := replace_go pat rep 0 s.

(** [str::find] of a text and [str::ends_with]. *)
Fixpoint find_sub (pat s : string) : option nat :=
  if starts_with pat s then Some O else match s with EmptyString => None | String _ s' => S <$> find_sub pat s' end.
Definition ends_with (p s : string) : bool := starts_with (srev p) (srev s).
