(* ===== verification/Hlc.v ===== *)
(** * Hlc: the hybrid logical clock (crates/rf-core/src/hlc.rs)

    [Hlc] is the timestamp with its derived lexicographic order, [Clock] the
    per-node clock state.  [now] and [observe] take the wall time as an
    argument, as the source does; [logical] is a [u32] whose [+ 1] wraps.
    [run] folds a sequence of clock events, which is how the node shell uses
    the clock. *)

From Stdlib Require Import ZArith Lia.
From stdpp Require Import prelude gmap sorting strings list.
From S2P Require Import Prelude.
Open Scope Z_scope.

Record Hlc := mkHlc { wall_ms : Z; logical : Z }.

#[export] Instance Hlc_eq_dec : EqDecision Hlc.
Proof. solve_decision. Defined.

Definition hlc_pair (h : Hlc) : Z * Z := (wall_ms h, logical h).

(** [#[derive(PartialOrd, Ord)]]: lexicographic on the fields in order. *)
#[export] Instance Hlc_cmp : Cmp Hlc := fun a b => cmp (hlc_pair a) (hlc_pair b).

#[export] Instance Hlc_cmp_ok : CmpOk Hlc.
Proof. apply (cmp_ok_inj hlc_pair). intros [] []. unfold hlc_pair. naive_solver. Qed.

#[export] Instance Hlc_countable : Countable Hlc.
Proof.
  refine (inj_countable' (fun h => (wall_ms h, logical h)) (fun p => mkHlc p.1 p.2) _).
  by intros [].
Defined.

Record Clock := mkClock { last : Hlc }.

(** [Clock::new]. *)
Definition new : Clock := mkClock (mkHlc 0 0).

(** [Clock::now]: the new clock and the timestamp it returns. *)
Definition now (c : Clock) (w : Z) : Clock * Hlc :=
  let l :=
    if (w >? wall_ms (last c))%Z then mkHlc w 0
    else mkHlc (wall_ms (last c)) (wadd 32 (logical (last c)) 1) in
  (mkClock l, l).

(** [Clock::observe]. *)
Definition observe (c : Clock) (remote : Hlc) (w : Z) : Clock :=
  let base := cmp_max (last c) remote in
  mkClock
    (if (w >? wall_ms base)%Z then base
     else mkHlc (wall_ms base) (wadd 32 (logical base) 1)).

(** ** Sequences of clock events *)

Inductive event :=
| Now (w : Z)
| Observe (remote : Hlc) (w : Z).

(** The clock after the events and the timestamps it issued, in order. *)
Fixpoint run (c : Clock) (evs : list event) : Clock * list Hlc :=
  match evs with
  | [] => (c, [])
  | Now w :: evs' =>
      let '(c1, t) := now c w in
      let '(c2, ts) := run c1 evs' in (c2, t :: ts)
  | Observe r w :: evs' => run (observe c r w) evs'
  end.

(** ** The order on timestamps *)

Lemma hlc_lt_iff (a b : Hlc) :
  a ≺ b <-> wall_ms a < wall_ms b \/ (wall_ms a = wall_ms b /\ logical a < logical b).
Proof.
  unfold lt_of, cmp, Hlc_cmp, cmp, pair_cmp, then_with, hlc_pair, cmp, Z_cmp; simpl.
  destruct (Z.compare_spec (wall_ms a) (wall_ms b)); rewrite ?Z.compare_lt_iff;
    split; intros; try discriminate; try lia; auto.
Qed.

Lemma hlc_le_iff (a b : Hlc) :
  a ⪯ b <-> wall_ms a < wall_ms b \/ (wall_ms a = wall_ms b /\ logical a <= logical b).
Proof.
  rewrite le_of_not_lt, hlc_lt_iff. lia.
Qed.

(** ** One step *)

Definition logical_below (B : Z) (h : Hlc) : Prop := 0 <= logical h < B.

Lemma now_gt_last (c : Clock) (w : Z) :
  logical_below (2 ^ 32 - 1) (last c) -> last c ≺ (now c w).2.
Proof.
  unfold logical_below, now. simpl. intros Hl. rewrite hlc_lt_iff.
  destruct (w >? _)%Z eqn:E; simpl; [left; lia|].
  right. rewrite wadd_small; lia.
Qed.

Lemma now_last (c : Clock) (w : Z) : last (now c w).1 = (now c w).2.
Proof. done. Qed.

Lemma now_logical (c : Clock) (w B : Z) :
  B < 2 ^ 32 -> logical_below B (last c) -> logical_below (B + 1) (now c w).2.
Proof.
  unfold logical_below, now; simpl. intros HB Hl.
  destruct (w >? _)%Z; simpl; [lia|]. rewrite wadd_small; lia.
Qed.

Lemma observe_ge (c : Clock) (r : Hlc) (w : Z) :
  logical_below (2 ^ 32 - 1) (last c) -> logical_below (2 ^ 32 - 1) r ->
  last c ⪯ last (observe c r w) /\ r ⪯ last (observe c r w).
Proof.
  intros Hc Hr. unfold observe; simpl.
  set (base := cmp_max (last c) r).
  assert (logical_below (2 ^ 32 - 1) base) as Hb
    by (subst base; destruct (cmp_max_cases (last c) r) as [->| ->]; done).
  assert (base ⪯ (if (w >? wall_ms base)%Z then base
                  else mkHlc (wall_ms base) (wadd 32 (logical base) 1))) as Hle.
  { destruct (w >? _)%Z; [apply le_of_refl|]. unfold logical_below in Hb.
    rewrite hlc_le_iff; simpl. rewrite wadd_small; lia. }
  split; eapply le_of_trans; eauto; subst base; [apply cmp_max_ub_l|apply cmp_max_ub_r].
Qed.

Lemma observe_logical (c : Clock) (r : Hlc) (w B : Z) :
  B < 2 ^ 32 -> logical_below B (last c) -> logical_below B r ->
  logical_below (B + 1) (last (observe c r w)).
Proof.
  intros HB Hc Hr. unfold observe; simpl.
  destruct (cmp_max_cases (last c) r) as [->| ->]; unfold logical_below in *;
    destruct (w >? _)%Z; simpl; try lia; rewrite wadd_small; lia.
Qed.

(** ** Whole runs *)

Definition remote_below (B : Z) (e : event) : Prop :=
  match e with Now _ => True | Observe r _ => logical_below B r end.

Lemma logical_below_mono (B B' : Z) (h : Hlc) :
  B <= B' -> logical_below B h -> logical_below B' h.
Proof. unfold logical_below. lia. Qed.

Lemma remote_below_mono (B B' : Z) (evs : list event) :
  B <= B' -> Forall (remote_below B) evs -> Forall (remote_below B') evs.
Proof.
  intros HB Hevs. eapply Forall_impl; [exact Hevs|].
  intros [w|r w]; simpl; [done|]. by apply logical_below_mono.
Qed.

Lemma run_now (c : Clock) (w : Z) (evs : list event) :
  (run c (Now w :: evs)).2 = (now c w).2 :: (run (now c w).1 evs).2.
Proof. simpl. by destruct (run _ evs). Qed.

Lemma run_issues_increasing (evs : list event) (c : Clock) (B : Z) :
  B + Z.of_nat (length evs) < 2 ^ 32 ->
  logical_below B (last c) -> Forall (remote_below B) evs ->
  Forall (lt_of (last c)) (run c evs).2 /\
  StronglySorted lt_of (run c evs).2.
Proof.
  revert c B. induction evs as [|[w|r w] evs IH]; intros c B HB Hc Hevs; cbn [length] in HB.
  - split; constructor.
  - apply Forall_cons in Hevs as [_ Hevs]. rewrite run_now.
    pose proof (now_gt_last c w (logical_below_mono B (2 ^ 32 - 1) _ ltac:(lia) Hc)) as Hgt.
    pose proof (now_logical c w B ltac:(lia) Hc) as Hlog.
    destruct (IH (now c w).1 (B + 1)) as [Hall Hsorted]; [lia|done| |].
    { eapply remote_below_mono; [|done]. lia. }
    rewrite now_last in Hall. split; [|by constructor].
    constructor; [done|]. eapply Forall_impl; [done|]. intros t'. by apply lt_of_trans.
  - apply Forall_cons in Hevs as [Hr Hevs]. simpl in Hr, HB.
    destruct (IH (observe c r w) (B + 1)) as [Hall Hsorted].
    + lia.
    + apply observe_logical; [lia|done|done].
    + eapply remote_below_mono; [|done]. lia.
    + split; [|done]. eapply Forall_impl; [done|]. intros t'.
      apply le_lt_of_trans, observe_ge; (eapply (logical_below_mono B); [lia|done]).
Qed.

Lemma run_after_observe (pre post : list event) (c : Clock) (r : Hlc) (w B : Z) :
  B + Z.of_nat (length (pre ++ Observe r w :: post)) < 2 ^ 32 ->
  logical_below B (last c) -> Forall (remote_below B) (pre ++ Observe r w :: post) ->
  exists issued_before issued_after,
    (run c (pre ++ Observe r w :: post)).2 = issued_before ++ issued_after /\
    (run c pre).2 = issued_before /\
    Forall (lt_of r) issued_after.
Proof.
  revert c B. induction pre as [|[w'|r' w'] pre IH]; intros c B HB Hc Hevs;
    cbn [app length] in *.
  - apply Forall_cons in Hevs as [Hr Hevs]. simpl in Hr.
    exists [], (run (observe c r w) post).2. split; [done|split; [done|]].
    destruct (run_issues_increasing post (observe c r w) (B + 1)) as [Hall _].
    + lia.
    + apply observe_logical; [lia|done|done].
    + eapply remote_below_mono; [|done]. lia.
    + eapply Forall_impl; [done|]. intros t'.
      apply le_lt_of_trans, observe_ge; (eapply (logical_below_mono B); [lia|done]).
  - apply Forall_cons in Hevs as [_ Hevs]. rewrite !run_now.
    destruct (IH (now c w').1 (B + 1)) as (bef & aft & Heq & Hpre & Haft).
    + lia.
    + rewrite now_last. apply now_logical; [lia|done].
    + eapply remote_below_mono; [|done]. lia.
    + exists ((now c w').2 :: bef), aft. rewrite Heq, Hpre. done.
  - apply Forall_cons in Hevs as [Hr Hevs]. simpl in Hr.
    apply (IH _ (B + 1)).
    + lia.
    + apply observe_logical; [lia|done|done].
    + eapply remote_below_mono; [|done]. lia.
Qed.

(** C38: Any sequence of [now] and [observe] calls, whatever the wall clock
    does (stall, step backward), issues strictly increasing timestamps, all of
    them after everything issued before the sequence and after every remote
    timestamp observed earlier, as long as the [u32] logical counter cannot
    overflow: the counters seen are below [B] and [B] plus the number of
    events is below 2^32. *)
Theorem clock_monotone (c : Clock) (evs : list event) (B : Z)
    (Hroom : B + Z.of_nat (length evs) < 2 ^ 32)
    (Hlast : logical_below B (last c))
    (Hremote : Forall (remote_below B) evs) :
  StronglySorted lt_of (run c evs).2 /\
  Forall (lt_of (last c)) (run c evs).2 /\
  forall pre r w post, evs = pre ++ Observe r w :: post ->
    exists issued_after,
      (run c evs).2 = (run c pre).2 ++ issued_after /\ Forall (lt_of r) issued_after.
Proof.
  destruct (run_issues_increasing evs c B Hroom Hlast Hremote) as [Hall Hsorted].
  split; [done|split; [done|]]. intros pre r w post ->.
  destruct (run_after_observe pre post c r w B Hroom Hlast Hremote)
    as (bef & aft & Heq & <- & Haft).
  exists aft. split; done.
Qed.

Lemma clock_monotone_witness :
  let evs := [Now 100; Now 99; Observe (mkHlc 5000 7) 100; Now 100] in
  StronglySorted lt_of (run new evs).2 /\ (run new evs).2 = [mkHlc 100 0; mkHlc 100 1; mkHlc 5000 9].
Proof.
  split; [|reflexivity].
  apply (clock_monotone new [Now 100; Now 99; Observe (mkHlc 5000 7) 100; Now 100] 8).
  - simpl. lia.
  - unfold logical_below; simpl; lia.
  - repeat constructor; unfold logical_below; simpl; lia.
Defined.

(** When the wall clock has moved past everything seen, the next timestamp
    is the wall time itself with the logical counter back at zero. *)
Theorem now_resets_logical (c : Clock) (w : Z) (H : wall_ms (last c) < w) :
  now c w = (mkClock (mkHlc w 0), mkHlc w 0).
Proof. unfold now. destruct (w >? _)%Z eqn:E; [done|]. lia. Qed.

(** The bound is needed: observing a remote timestamp whose logical counter
    is [u32::MAX], at a wall time that has not passed it, wraps the counter to
    zero, and the next local timestamp sorts before the observed one. *)
Theorem observe_wraps_at_u32_max (c : Clock) (r : Hlc) (w w' : Z)
    (Hc : last c ⪯ r) (Hmax : logical r = u32_max)
    (Hw : w <= wall_ms r) (Hw' : w' <= wall_ms r) :
  (now (observe c r w) w').2 ≺ r.
Proof.
  assert (cmp_max (last c) r = r) as Hbase.
  { unfold cmp_max. rewrite (proj2 (leb_le _ _) Hc). done. }
  unfold observe. rewrite Hbase. destruct (w >? wall_ms r)%Z eqn:E; [lia|].
  unfold now; simpl. destruct (w' >? wall_ms r)%Z eqn:E'; [lia|].
  rewrite Hmax. unfold u32_max. rewrite wadd_max by lia.
  rewrite hlc_lt_iff; simpl. right. split; [done|]. rewrite Hmax. reflexivity.
Qed.

Lemma observe_wraps_at_u32_max_witness :
  (now (observe new (mkHlc 500 4294967295) 100) 100).2 ≺ mkHlc 500 4294967295.
Proof.
  apply observe_wraps_at_u32_max; simpl; try lia; [|reflexivity].
  vm_compute. discriminate.
Defined.
