(* ===== verification/Identity.v ===== *)
(** * Identity: node and operator identities (crates/rf-core/src/identity.rs)

    The cryptographic crates (ed25519_dalek, k256, sha2, sha3) and [hex] are
    not part of the repository: they are the operations of the classes
    [Crypto] and [Hex], and what the code relies on is stated as the laws
    [CryptoOk] and [HexOk].  Everything else of identity.rs is translated:
    the ed25519 and Ethereum signers, the address derivation and EIP-191
    hashing, signature recovery, the textual forms and the serde forms. *)

From Stdlib Require Import ZArith Lia Ascii.
From stdpp Require Import prelude gmap sorting strings list pretty.
From S2P Require Import Prelude Text.
Open Scope Z_scope.

(** ** External crates *)

Class Hex := {
  hex_encode : bytes -> string;
  hex_decode : string -> result bytes string
}.

Definition is_hex_digit (c : ascii) : bool :=
  (is_ascii_digit c || ((97 <=? byte_of c) && (byte_of c <=? 102)))%Z.

Definition is_bytes (b : bytes) : Prop := Forall (fun x => 0 <= x < 256) b.

(** hex: [encode] writes two lower-case digits per byte, [decode] reads them back. *)
Class HexOk {hex : Hex} : Prop := {
  hex_decode_encode : forall b, is_bytes b -> hex_decode (hex_encode b) = Ok b;
  hex_encode_digits : forall b, all_bytes is_hex_digit (hex_encode b) = true
}.

Class Crypto := {
  sha256 : bytes -> bytes;
  keccak256 : bytes -> bytes;
  (* ed25519_dalek *)
  SigningKey : Type;
  ed_from_bytes : bytes -> SigningKey;
  ed_to_bytes : SigningKey -> bytes;
  ed_verifying_key_bytes : SigningKey -> bytes;
  ed_sign : SigningKey -> bytes -> bytes;
  VerifyingKey : Type;
  ed_verifying_key_from_bytes : bytes -> option VerifyingKey;
  ed_verify : VerifyingKey -> bytes -> bytes -> bool;
  (* k256::ecdsa *)
  EthSigningKey : Type;
  EthVerifyingKey : Type;
  EthSignature : Type;
  RecoveryId : Type;
  eth_sk_from_bytes : bytes -> option EthSigningKey;
  eth_sk_to_bytes : EthSigningKey -> bytes;
  eth_verifying_key : EthSigningKey -> EthVerifyingKey;
  eth_sec1_point : EthVerifyingKey -> bytes;
  eth_sign_prehash_recoverable : EthSigningKey -> bytes -> EthSignature * RecoveryId;
  eth_sig_to_bytes : EthSignature -> bytes;
  eth_sig_from_slice : bytes -> option EthSignature;
  recid_to_byte : RecoveryId -> Z;
  recid_from_byte : Z -> option RecoveryId;
  eth_recover_from_prehash : bytes -> EthSignature -> RecoveryId -> option EthVerifyingKey
}.

(** Documented behaviour of the signature crates: what a key signs its public
    half verifies, recovery returns the signer, encodings have their size and
    decode to what was encoded. *)
Class CryptoOk {crypto : Crypto} : Prop := {
  ed_sign_length : forall k m, length (ed_sign k m) = 64%nat;
  ed_verifying_key_length : forall k, length (ed_verifying_key_bytes k) = 32%nat;
  ed_sign_verifies : forall k m, exists vk,
    ed_verifying_key_from_bytes (ed_verifying_key_bytes k) = Some vk /\
    ed_verify vk m (ed_sign k m) = true;
  eth_sig_length : forall s, length (eth_sig_to_bytes s) = 64%nat;
  eth_sig_from_to : forall s, eth_sig_from_slice (eth_sig_to_bytes s) = Some s;
  recid_from_to : forall r, recid_from_byte (recid_to_byte r) = Some r;
  recid_range : forall r, 0 <= recid_to_byte r < 4;
  eth_recover_sign : forall k h s r,
    eth_sign_prehash_recoverable k h = (s, r) ->
    eth_recover_from_prehash h s r = Some (eth_verifying_key k)
}.

(** ** Public identities *)

Record PublicId := mkPublicId { id_bytes : bytes }.

#[export] Instance PublicId_eq_dec : EqDecision PublicId.
Proof. solve_decision. Defined.

#[export] Instance PublicId_countable : Countable PublicId.
Proof. refine (inj_countable' id_bytes mkPublicId _). by intros []. Defined.

#[export] Instance PublicId_cmp : Cmp PublicId := fun a b => cmp (id_bytes a) (id_bytes b).

#[export] Instance PublicId_cmp_ok : CmpOk PublicId.
Proof. apply (cmp_ok_inj id_bytes). intros [] []; simpl; congruence. Qed.

(** [try_into] of a byte vector to a fixed-size array. *)
Definition to_array (n : nat) (b : bytes) : option bytes :=
  if bool_decide (length b = n) then Some b else None.

Section identity.
Context {crypto : Crypto} {hex : Hex}.

(** [PublicId::verify]. *)
Definition pid_verify (p : PublicId) (msg sig : bytes) : bool :=
  match ed_verifying_key_from_bytes (id_bytes p) with
  | None => false
  | Some vk => ed_verify vk msg sig
  end.

(** [PublicId::short]: hex of the first six bytes. *)
Definition short (p : PublicId) : string := hex_encode (take 6 (id_bytes p)).

(** [impl Display for PublicId]. *)
Definition pid_to_string (p : PublicId) : string := hex_encode (id_bytes p).

(** [impl FromStr for PublicId]. *)
Definition pid_from_str (s : string) : result PublicId string :=
  let? b := hex_decode (trim s) in
  match to_array 32 b with
  | Some arr => Ok (mkPublicId arr)
  | None => Err "expected 32 hex-encoded bytes"
  end.

(** *** Keypair (ed25519) *)

Record Keypair := mkKeypair { signing : SigningKey }.

Definition from_seed (seed : bytes) : Keypair := mkKeypair (ed_from_bytes seed).
Definition kp_seed (k : Keypair) : bytes := ed_to_bytes (signing k).
Definition public (k : Keypair) : PublicId := mkPublicId (ed_verifying_key_bytes (signing k)).
Definition kp_sign (k : Keypair) (msg : bytes) : bytes := ed_sign (signing k) msg.

(** *** EthKeypair (secp256k1) *)

Record EthKeypair := mkEthKeypair { sk : EthSigningKey }.

Definition eth_address_of (vk : EthVerifyingKey) : bytes :=
  let point := eth_sec1_point vk in
  let hash := keccak256 (drop 1 point) in
  drop 12 hash.

(** [eip191_hash]; [{}] prints the payload length in decimal. *)
Definition eip191_prefix (len : nat) : bytes :=
  25 :: as_bytes "Ethereum Signed Message:" ++ 10 :: as_bytes (pretty (N.of_nat len)).

Definition eip191_hash (payload : bytes) : bytes :=
  keccak256 (eip191_prefix (length payload) ++ payload).

Definition eth_from_seed (seed : bytes) : option EthKeypair :=
  match eth_sk_from_bytes seed with
  | Some k => Some (mkEthKeypair k)
  | None => None
  end.

Definition eth_seed (k : EthKeypair) : bytes := eth_sk_to_bytes (sk k).

Definition address (k : EthKeypair) : bytes := eth_address_of (eth_verifying_key (sk k)).

(** [EthKeypair::sign]: [r || s || v] with [v = recid + 27]. *)
Definition eth_sign (k : EthKeypair) (payload : bytes) : bytes :=
  let digest := eip191_hash payload in
  let '(sig, recid) := eth_sign_prehash_recoverable (sk k) digest in
  eth_sig_to_bytes sig ++ [wadd 8 (recid_to_byte recid) 27].

(** [eth_recover]. *)
Definition eth_recover (payload sig : bytes) : option bytes :=
  if negb (bool_decide (length sig = 65%nat)) then None
  else
    v ← sig !! 64%nat;
    (if (v <? 27)%Z then None
     else
       recid ← recid_from_byte (v - 27);
       signature ← eth_sig_from_slice (take 64 sig);
       let digest := eip191_hash payload in
       vk ← eth_recover_from_prehash digest signature recid;
       Some (eth_address_of vk)).
End identity.

Arguments Keypair {_}.
Arguments EthKeypair {_}.

(** ** Signers *)

Inductive SignerId :=
| Ed (pk : PublicId)
| Eth (addr : bytes).

#[export] Instance SignerId_eq_dec : EqDecision SignerId.
Proof. solve_decision. Defined.

#[export] Instance SignerId_countable : Countable SignerId.
Proof.
  refine (inj_countable' (fun s => match s with Ed pk => inl pk | Eth a => inr a end)
    (fun x => match x with inl pk => Ed pk | inr a => Eth a end) _).
  by intros [].
Defined.

Section signers.
Context {crypto : Crypto} {hex : Hex}.

(** [SignerId::verify]. *)
Definition signer_verify (s : SignerId) (payload sig : bytes) : bool :=
  match s with
  | Ed pk =>
      match to_array 64 sig with
      | None => false
      | Some arr => pid_verify pk payload arr
      end
  | Eth addr => bool_decide (eth_recover payload sig = Some addr)
  end.

(** [impl Display for SignerId]. *)
Definition signer_to_string (s : SignerId) : string :=
  match s with
  | Ed pk => pid_to_string pk
  | Eth addr => "0x" +:+ hex_encode addr
  end.

(** [impl FromStr for SignerId]. *)
Definition signer_from_str (s0 : string) : result SignerId string :=
  let s := trim s0 in
  let stripped :=
    match strip_prefix "0x" s with
    | Some h => Some h
    | None => strip_prefix "0X" s
    end in
  match stripped with
  | Some hexpart =>
      let? b := hex_decode hexpart in
      match to_array 20 b with
      | Some arr => Ok (Eth arr)
      | None => Err "eth address must be 20 bytes"
      end
  | None =>
      let? p := pid_from_str s in
      Ok (Ed p)
  end.

(** *** AnyKeypair *)

Inductive AnyKeypair :=
| EdKey (kp : Keypair)
| EthKey (kp : EthKeypair).

Definition signer_id (k : AnyKeypair) : SignerId :=
  match k with
  | EdKey kp => Ed (public kp)
  | EthKey kp => Eth (address kp)
  end.

Definition any_sign (k : AnyKeypair) (payload : bytes) : bytes :=
  match k with
  | EdKey kp => kp_sign kp payload
  | EthKey kp => eth_sign kp payload
  end.
End signers.

Arguments AnyKeypair {_}.

(** ** Serde forms

    The part of serde's data model the hand-written impls use. *)
Inductive serde :=
| SStr (s : string)
| SBytes (b : bytes)
| SSeq (b : bytes)
| SNewtypeVariant (index : Z) (name : string) (v : serde).

Section serde.
Context {hex : Hex}.

Definition pid_serialize (human_readable : bool) (p : PublicId) : serde :=
  if human_readable then SStr (hex_encode (id_bytes p)) else SBytes (id_bytes p).

(** [serde_bytes_shim::Bytes]: [visit_bytes], [visit_byte_buf] and [visit_seq]. *)
Definition bytes_shim (v : serde) : result bytes string :=
  match v with
  | SBytes b => Ok b
  | SSeq b => Ok b
  | _ => Err "invalid type, expected bytes"
  end.

Definition pid_deserialize (human_readable : bool) (v : serde) : result PublicId string :=
  if human_readable then
    match v with
    | SStr s => pid_from_str s
    | _ => Err "invalid type, expected a string"
    end
  else
    let? b := bytes_shim v in
    match to_array 32 b with
    | Some arr => Ok (mkPublicId arr)
    | None => Err "expected 32 bytes"
    end.

Definition signer_serialize (human_readable : bool) (s : SignerId) : serde :=
  if human_readable then SStr (signer_to_string s)
  else match s with
       | Ed pk => SNewtypeVariant 0 "Ed" (pid_serialize false pk)
       | Eth addr => SNewtypeVariant 1 "Eth" (SSeq addr)
       end.

(** The binary form goes through the derived [Shadow] enum. *)
Definition signer_deserialize (human_readable : bool) (v : serde) : result SignerId string :=
  if human_readable then
    match v with
    | SStr s => signer_from_str s
    | _ => Err "invalid type, expected a string"
    end
  else
    match v with
    | SNewtypeVariant 0 _ v' =>
        let? pk := pid_deserialize false v' in Ok (Ed pk)
    | SNewtypeVariant 1 _ (SSeq b) =>
        match to_array 20 b with
        | Some a => Ok (Eth a)
        | None => Err "invalid length, expected an array of length 20"
        end
    | _ => Err "unknown variant"
    end.
End serde.

(** ** Lemmas *)

Lemma hex_digit_range (c : ascii) :
  is_hex_digit c = true -> 48 <= byte_of c <= 102.
Proof.
  unfold is_hex_digit, is_ascii_digit. intros Hd. apply orb_true_iff in Hd as [Hd|Hd]; to_prop; lia.
Qed.

Lemma hex_graphic (s : string) :
  all_bytes is_hex_digit s = true -> all_bytes is_graphic s = true.
Proof.
  apply all_bytes_impl. intros c Hc%hex_digit_range. unfold is_graphic.
  rewrite andb_true_iff, !Z.leb_le. lia.
Qed.

(** Hex text never looks like a [0x] address. *)
Lemma hex_no_prefix (p : ascii) (s : string) :
  byte_of p = 120 \/ byte_of p = 88 ->
  all_bytes is_hex_digit s = true ->
  strip_prefix (String "0" (String p EmptyString)) s = None.
Proof.
  intros Hp Hs. destruct s as [|c [|d s]]; simpl in *; [done|by case_bool_decide|].
  to_prop. case_bool_decide; [|done]. case_bool_decide as Hd; [|done]. subst d.
  unfold is_hex_digit, is_ascii_digit in *. exfalso.
  match goal with Hh : (_ || _)%bool = true |- _ => apply orb_true_iff in Hh as [Hh|Hh] end;
    to_prop; lia.
Qed.

Lemma to_array_ok (n : nat) (b : bytes) : length b = n -> to_array n b = Some b.
Proof. intros Hl. unfold to_array. by rewrite bool_decide_true. Qed.

Section identity_facts.
Context {hex : Hex} {hex_ok : HexOk}.

Lemma pid_from_str_hex (b : bytes) :
  is_bytes b -> length b = 32%nat -> pid_from_str (hex_encode b) = Ok (mkPublicId b).
Proof.
  intros Hb Hl. unfold pid_from_str.
  rewrite trim_graphic by apply hex_graphic, hex_encode_digits.
  rewrite hex_decode_encode by done. by rewrite to_array_ok.
Qed.

(** A signer as the constructors of the source make it: 32-byte keys, 20-byte
  addresses. *)
Definition signer_wf (s : SignerId) : Prop :=
  match s with
  | Ed pk => is_bytes (id_bytes pk) /\ length (id_bytes pk) = 32%nat
  | Eth a => is_bytes a /\ length a = 20%nat
  end.

Lemma signer_parse_print (s : SignerId) :
  signer_wf s -> signer_from_str (signer_to_string s) = Ok s.
Proof.
  destruct s as [[b]|a]; intros [Hb Hl]; unfold signer_from_str, signer_to_string, pid_to_string;
    cbn [id_bytes] in *.
  - rewrite trim_graphic by apply hex_graphic, hex_encode_digits.
    rewrite !hex_no_prefix by (try apply hex_encode_digits; vm_compute; auto).
    by rewrite pid_from_str_hex.
  - rewrite trim_graphic by (simpl; apply hex_graphic, hex_encode_digits).
    rewrite strip_prefix_app. rewrite hex_decode_encode by done. by rewrite to_array_ok.
Qed.

Lemma signer_serde (human : bool) (s : SignerId) :
  signer_wf s -> signer_deserialize human (signer_serialize human s) = Ok s.
Proof.
  destruct human; [apply signer_parse_print|].
  destruct s as [[b]|a]; simpl; intros [Hb Hl]; by rewrite to_array_ok.
Qed.
End identity_facts.

Section sign_facts.
Context {crypto : Crypto} {crypto_ok : CryptoOk}.

Lemma eth_recover_own (k : EthKeypair) (m : bytes) :
  eth_recover m (eth_sign k m) = Some (address k).
Proof.
  unfold eth_sign. destruct (eth_sign_prehash_recoverable (sk k) (eip191_hash m)) as [s r] eqn:E.
  pose proof (eth_sig_length s) as Hl. pose proof (recid_range r) as Hr.
  assert (length (eth_sig_to_bytes s ++ [wadd 8 (recid_to_byte r) 27]) = 65%nat) as Hlen
    by (rewrite length_app, Hl; done).
  unfold eth_recover. rewrite bool_decide_true by done. simpl.
  rewrite lookup_app_r by lia. rewrite Hl. simpl.
  rewrite wadd_small by lia.
  destruct (Z.ltb_spec (recid_to_byte r + 27) 27); [lia|].
  replace (recid_to_byte r + 27 - 27) with (recid_to_byte r) by lia.
  rewrite recid_from_to; simpl.
  rewrite take_app_le, take_ge by lia. rewrite eth_sig_from_to; simpl.
  by rewrite (eth_recover_sign _ _ _ _ E).
Qed.

Lemma any_sign_verifies (k : AnyKeypair) (m : bytes) :
  signer_verify (signer_id k) m (any_sign k m) = true.
Proof.
  destruct k as [[k]|k]; simpl.
  - unfold kp_sign, public; simpl. rewrite to_array_ok by apply ed_sign_length.
    unfold pid_verify; simpl. destruct (ed_sign_verifies k m) as (vk & -> & Hv). done.
  - rewrite eth_recover_own. by rewrite bool_decide_true.
Qed.
End sign_facts.

(** ** Concrete crates, for witnesses

    A real hex codec and a transparent signature scheme that satisfy the
    laws; only witnesses use them. *)
Module Sample.
Definition hex_digit (x : Z) : ascii :=
  ascii_of_N (Z.to_N (if (x <? 10)%Z then 48 + x else 87 + x)).

Fixpoint encode (b : bytes) : string :=
  match b with
  | [] => EmptyString
  | x :: b' => String (hex_digit ((x / 16) mod 16)) (String (hex_digit (x mod 16)) (encode b'))
  end.

Definition unhex (c : ascii) : option Z :=
  if is_ascii_digit c then Some (byte_of c - 48)
  else if ((97 <=? byte_of c) && (byte_of c <=? 102))%Z then Some (byte_of c - 87)
  else if ((65 <=? byte_of c) && (byte_of c <=? 70))%Z then Some (byte_of c - 55)
  else None.

Fixpoint decode (s : string) : result bytes string :=
  match s with
  | EmptyString => Ok []
  | String _ EmptyString => Err "Odd number of digits"
  | String c (String d s') =>
      match unhex c, unhex d with
      | Some x, Some y => let? b := decode s' in Ok (x * 16 + y :: b)
      | _, _ => Err "Invalid character"
      end
  end.

#[export] Instance hex : Hex := {| hex_encode := encode; hex_decode := decode |}.

Lemma hex_digit_cases (x : Z) :
  0 <= x < 16 -> is_hex_digit (hex_digit x) = true /\ unhex (hex_digit x) = Some x.
Proof.
  intros Hx.
  assert (x = 0 \/ x = 1 \/ x = 2 \/ x = 3 \/ x = 4 \/ x = 5 \/ x = 6 \/ x = 7 \/ x = 8 \/
    x = 9 \/ x = 10 \/ x = 11 \/ x = 12 \/ x = 13 \/ x = 14 \/ x = 15) as Hc by lia.
  repeat destruct Hc as [->|Hc]; subst; vm_compute; done.
Qed.

Lemma unhex_hex_digit (x : Z) : 0 <= x < 16 -> unhex (hex_digit x) = Some x.
Proof. apply hex_digit_cases. Qed.

Lemma hex_digit_is_hex (x : Z) : 0 <= x < 16 -> is_hex_digit (hex_digit x) = true.
Proof. apply hex_digit_cases. Qed.

#[export] Instance hex_ok : HexOk.
Proof.
  split.
  - induction b as [|x b IH]; intros Hb; cbn; [done|].
    apply Forall_cons in Hb as [Hx Hb].
    pose proof (Z.mod_pos_bound x 16 ltac:(lia)).
    pose proof (Z.mod_pos_bound (x / 16) 16 ltac:(lia)).
    rewrite !unhex_hex_digit by lia. cbn in IH. rewrite IH by done.
    do 2 f_equal. rewrite (Z.mod_small (x / 16)).
    + pose proof (Z.div_mod x 16). lia.
    + split; [apply Z.div_pos; lia|apply Z.div_lt_upper_bound; lia].
  - induction b as [|x b IH]; cbn; [done|].
    rewrite !hex_digit_is_hex by (apply Z.mod_pos_bound; lia). exact IH.
Qed.

Definition pad (n : nat) (b : bytes) : bytes := take n (b ++ replicate n 0).

#[export] Instance crypto : Crypto := {|
  sha256 := fun b => b;
  keccak256 := fun b => pad 32 (reverse b);
  SigningKey := bytes;
  ed_from_bytes := fun b => b;
  ed_to_bytes := fun b => b;
  ed_verifying_key_bytes := pad 32;
  ed_sign := fun k m => pad 64 (pad 32 k ++ m);
  VerifyingKey := bytes;
  ed_verifying_key_from_bytes := fun b => Some b;
  ed_verify := fun vk m s => bool_decide (s = pad 64 (vk ++ m));
  EthSigningKey := Z;
  EthVerifyingKey := Z;
  EthSignature := Z;
  RecoveryId := unit;
  eth_sk_from_bytes := fun b => b !! 0%nat;
  eth_sk_to_bytes := fun k => pad 32 [k];
  eth_verifying_key := fun k => k;
  eth_sec1_point := fun k => 4 :: replicate 64 k;
  eth_sign_prehash_recoverable := fun k _ => (k, tt);
  eth_sig_to_bytes := fun s => s :: replicate 63 0;
  eth_sig_from_slice := fun b => b !! 0%nat;
  recid_to_byte := fun _ => 0;
  recid_from_byte := fun v => if (v =? 0)%Z then Some tt else None;
  eth_recover_from_prehash := fun _ s _ => Some s
  |}.

Lemma pad_length (n : nat) (b : bytes) : length (pad n b) = n.
Proof. unfold pad. rewrite length_take, length_app, length_replicate. lia. Qed.

#[export] Instance crypto_ok : CryptoOk.
Proof.
  split; cbn; intros; try apply pad_length; try lia; try done.
  - exists (pad 32 k). split; [done|]. by apply bool_decide_true.
  - by destruct r.
  - naive_solver.
Qed.

Definition wallet (n : Z) : @AnyKeypair crypto := @EthKey crypto (@mkEthKeypair crypto n).
Definition keypair (seed : bytes) : @Keypair crypto := @from_seed crypto seed.
End Sample.

(** ** Properties *)

(** What any key signs, ed25519 or Ethereum wallet, verifies under the
    signer identity that key announces. *)
Theorem sign_verify_roundtrip {crypto : Crypto} {crypto_ok : CryptoOk} (k : AnyKeypair) (m : bytes) :
  signer_verify (signer_id k) m (any_sign k m) = true.
Proof. apply any_sign_verifies. Qed.

Lemma sign_verify_roundtrip_witness :
  signer_verify (crypto := Sample.crypto) (signer_id (Sample.wallet 7)) [1; 2; 3]
    (any_sign (Sample.wallet 7) [1; 2; 3]) = true.
Proof. apply (sign_verify_roundtrip (crypto_ok := Sample.crypto_ok)). Defined.

(** The textual and both serde forms of a signer identity read back as the
    identity that was written: 64 hex characters parse as the ed25519 key,
    [0x] and 40 characters as the address, never one as the other. *)
Theorem signer_text_and_serde_roundtrip {hex : Hex} {hex_ok : HexOk} (s : SignerId) (Hwf : signer_wf s) :
  signer_from_str (signer_to_string s) = Ok s /\
  forall human, signer_deserialize human (signer_serialize human s) = Ok s.
Proof. split; [by apply signer_parse_print|intros; by apply signer_serde]. Qed.

Lemma signer_text_and_serde_roundtrip_witness :
  signer_from_str (hex := Sample.hex) (signer_to_string (hex := Sample.hex) (Eth (replicate 20 171)))
  = Ok (Eth (replicate 20 171)).
Proof.
  apply (signer_text_and_serde_roundtrip (hex_ok := Sample.hex_ok) (Eth (replicate 20 171))).
  split; [|reflexivity]. apply Forall_replicate. lia.
Defined.

(** An Ethereum signature of the wrong length, or whose last byte is below
    27, recovers no address, so it verifies for no wallet operator. *)
Theorem malformed_eth_signature_rejected {crypto : Crypto} (addr payload sig : bytes)
    (Hbad : length sig <> 65%nat \/ exists v, sig !! 64%nat = Some v /\ v < 27) :
  signer_verify (Eth addr) payload sig = false.
Proof.
  simpl. apply bool_decide_false. unfold eth_recover.
  destruct (decide (length sig = 65%nat)) as [Hl|Hl].
  - rewrite bool_decide_true by done; simpl.
    destruct Hbad as [?|(v & -> & Hv)]; [done|]; simpl.
    destruct (Z.ltb_spec v 27); [done|lia].
  - by rewrite bool_decide_false.
Qed.

Lemma malformed_eth_signature_rejected_witness :
  signer_verify (crypto := Sample.crypto) (Eth [1]) [] (replicate 65 26) = false.
Proof.
  apply malformed_eth_signature_rejected. right. exists 26. split; [reflexivity|lia].
Defined.
