(* ===== verification/Envelope.v ===== *)
(** * Envelope: signed envelopes (crates/rf-core/src/envelope.rs)

    The postcard codec is a third-party crate: [Postcard T] is its pair of
    functions at the payload type [T], and [PostcardOk T] the documented
    round trip.  [seal_any], [open] and [digest] are the source's methods. *)

From Stdlib Require Import ZArith Lia Ascii.
From stdpp Require Import prelude gmap sorting strings list.
From S2P Require Import Prelude Text Identity.
Open Scope Z_scope.

Class Postcard (T : Type) := {
  to_stdvec : T -> bytes;
  from_bytes : bytes -> option T
}.

Class PostcardOk (T : Type) {pc : Postcard T} : Prop :=
  postcard_roundtrip : forall x : T, from_bytes (to_stdvec x) = Some x.

Record Envelope := mkEnvelope {
  payload : bytes;
  signer : SignerId;
  sig : bytes
}.

#[export] Instance Envelope_eq_dec : EqDecision Envelope.
Proof. solve_decision. Defined.

#[export] Instance Envelope_countable : Countable Envelope.
Proof.
  refine (inj_countable' (fun e => (payload e, signer e, sig e)) (fun p => mkEnvelope p.1.1 p.1.2 p.2) _).
  by intros [].
Defined.

Inductive EnvelopeError := BadSignature | Decode.

Section envelope.
Context {crypto : Crypto} {hex : Hex}.

(** [Envelope::seal_any]. *)
Definition seal_any {T} {pc : Postcard T} (x : T) (key : AnyKeypair) : Envelope :=
  let b := to_stdvec x in
  let s := any_sign key b in
  mkEnvelope b (signer_id key) s.

(** [Envelope::seal]: with a node key. *)
Definition seal {T} {pc : Postcard T} (x : T) (key : Keypair) : Envelope :=
  seal_any x (EdKey key).

(** [Envelope::open]. *)
Definition open {T} {pc : Postcard T} (expected_signer : option SignerId) (e : Envelope)
  : result T EnvelopeError :=
  let wrong :=
    match expected_signer with
    | Some want => negb (bool_decide (want = signer e))
    | None => false
    end in
  if wrong then Err BadSignature
  else if negb (signer_verify (signer e) (payload e) (sig e)) then Err BadSignature
  else match from_bytes (payload e) with
       | Some x => Ok x
       | None => Err Decode
       end.

(** [Envelope::digest]: sha256 of payload, signer text and signature. *)
Definition digest (e : Envelope) : bytes :=
  sha256 (payload e ++ as_bytes (signer_to_string (signer e)) ++ sig e).

(** [Envelope::to_bytes] and [Envelope::from_bytes]. *)
Definition env_to_bytes {pc : Postcard Envelope} (e : Envelope) : bytes := to_stdvec e.

Definition env_from_bytes {pc : Postcard Envelope} (b : bytes) : result Envelope EnvelopeError :=
  match from_bytes b with
  | Some e => Ok e
  | None => Err Decode
  end.

(** ** What [open] accepts *)

Lemma open_Ok {T} {pc : Postcard T} (want : option SignerId) (e : Envelope) (x : T) :
  open want e = Ok x <->
  (forall w, want = Some w -> w = signer e) /\
  signer_verify (signer e) (payload e) (sig e) = true /\
  from_bytes (payload e) = Some x.
Proof.
  unfold open. destruct want as [w|]; simpl.
  - case_bool_decide as Hw; simpl.
    + destruct (signer_verify _ _ _); simpl; [|naive_solver].
      destruct (from_bytes (payload e)); naive_solver.
    + naive_solver.
  - destruct (signer_verify _ _ _); simpl; [|naive_solver].
    destruct (from_bytes (payload e)); naive_solver.
Qed.

Lemma open_seal {crypto_ok : CryptoOk} {T} {pc : Postcard T} {pc_ok : PostcardOk T}
  (x : T) (key : AnyKeypair) (want : option SignerId) :
  (forall w, want = Some w -> w = signer_id key) ->
  open want (seal_any x key) = Ok x.
Proof.
  intros Hw. apply open_Ok. split; [done|]. simpl.
  split; [apply any_sign_verifies|apply postcard_roundtrip].
Qed.
End envelope.

(** ** Properties *)

(** Opening what [seal_any] made returns the payload, for either key kind,
    when the caller accepts any signer or pins the one that sealed it. *)
Theorem seal_open_roundtrip {crypto : Crypto} {crypto_ok : CryptoOk}
    {T} {pc : Postcard T} {pc_ok : PostcardOk T} (x : T) (key : AnyKeypair) :
  open None (seal_any x key) = Ok x /\
  open (Some (signer_id key)) (seal_any x key) = Ok x.
Proof. split; apply open_seal; naive_solver. Qed.

(** A codec for any countable type, for witnesses. *)
Module SampleCodec.
Definition codec (T : Type) `{Countable T} : Postcard T := {|
  to_stdvec := fun x => [Z.pos (encode x)];
  from_bytes := fun b => match b with [Z.pos p] => decode p | _ => None end
  |}.

Lemma codec_ok (T : Type) `{Countable T} : @PostcardOk T (codec T).
Proof. intros x. apply decode_encode. Qed.
End SampleCodec.

Lemma seal_open_roundtrip_witness :
  let env := seal_any (crypto := Sample.crypto) (pc := SampleCodec.codec Z) 42 (Sample.wallet 7) in
  open (crypto := Sample.crypto) (pc := SampleCodec.codec Z) None env = Ok 42 /\
  open (crypto := Sample.crypto) (pc := SampleCodec.codec Z) (Some (signer_id (Sample.wallet 7))) env
  = Ok 42.
Proof.
  apply (seal_open_roundtrip (crypto_ok := Sample.crypto_ok) (pc_ok := SampleCodec.codec_ok Z)).
Defined.

(** [open] is exact: it succeeds only on an envelope whose signature
    verifies for the signer it names, whose signer is the pinned one when one
    is pinned, and whose payload decodes; a wrong or unverified signer is
    always [BadSignature], and [Decode] is reported only after the signature
    verified. *)
Theorem open_outcomes {crypto : Crypto} {T} {pc : Postcard T}
    (want : option SignerId) (e : Envelope) :
  let pinned := forall w, want = Some w -> w = signer e in
  let verified := signer_verify (signer e) (payload e) (sig e) = true in
  (forall x : T, open want e = Ok x <->
     pinned /\ verified /\ from_bytes (payload e) = Some x) /\
  (open (T := T) want e = Err Decode <-> pinned /\ verified /\ from_bytes (T := T) (payload e) = None) /\
  (open (T := T) want e = Err BadSignature <-> ~ (pinned /\ verified)).
Proof.
  cbn. split; [intros; apply open_Ok|]. unfold open. destruct want as [w|]; simpl.
  - case_bool_decide as Hw; simpl; [|naive_solver].
    destruct (signer_verify _ _ _); simpl; [|naive_solver].
    destruct (from_bytes (payload e)); naive_solver.
  - destruct (signer_verify _ _ _); simpl; [|naive_solver].
    destruct (from_bytes (payload e)); naive_solver.
Qed.
