(* ===== verification/Kv.v ===== *)
(** * Kv: the last-write-wins key-value CRDT (crates/rf-core/src/kv.rs)

    [Namespace] is a finite map from keys to [KvEntry]; the [BTreeMap]
    iteration order of the source is [sorted_entries].  [rank] is the tuple
    [beats] compares, (hlc, writer, value hash); [equiv] relates namespaces
    whose entries have equal ranks, the state the digest sees. *)

From Stdlib Require Import ZArith Lia Ascii.
From stdpp Require Import prelude gmap sorting strings list.
From S2P Require Import Prelude Text Hlc Identity.
Open Scope Z_scope.

Record KvEntry := mkKvEntry {
  hlc : Hlc;
  writer : PublicId;
  value : option bytes;
  expires_at_ms : option Z
}.

Inductive Merge := Applied | Stale.

#[export] Instance Merge_eq_dec : EqDecision Merge.
Proof. solve_decision. Defined.

Record Namespace := mkNamespace { entries : gmap string KvEntry }.

Section kv.
Context {crypto : Crypto}.

(** [KvEntry::value_hash]. *)
Definition value_hash (e : KvEntry) : bytes :=
  sha256
    (match value e with
     | Some v => [1] ++ v
     | None => [0]
     end ++
     match expires_at_ms e with
     | Some x => u64_le x
     | None => []
     end).

Definition rank (e : KvEntry) : Hlc * (bytes * bytes) :=
  (hlc e, (id_bytes (writer e), value_hash e)).

(** [KvEntry::beats]: strictly greater in the tuple order. *)
Definition beats (e other : KvEntry) : bool := ltb (rank other) (rank e).

(** [KvEntry::visible]. *)
Definition visible (e : KvEntry) (now_ms : Z) : option bytes :=
  match value e with
  | None => None
  | Some v =>
      match expires_at_ms e with
      | Some exp => if (now_ms >=? exp)%Z then None else Some v
      | None => Some v
      end
  end.

Definition new_namespace : Namespace := mkNamespace ∅.

(** [Namespace::put]. *)
Definition put (ns : Namespace) (key : string) (v : option bytes) (h : Hlc) (w : PublicId)
  (exp : option Z) : Namespace * KvEntry :=
  let e := mkKvEntry h w v exp in
  (mkNamespace (<[key := e]> (entries ns)), e).

(** [Namespace::merge]. *)
Definition merge (ns : Namespace) (key : string) (incoming : KvEntry) : Namespace * Merge :=
  let insert := (mkNamespace (<[key := incoming]> (entries ns)), Applied) in
  match entries ns !! key with
  | Some existing => if negb (beats incoming existing) then (ns, Stale) else insert
  | None => insert
  end.

Definition get (ns : Namespace) (key : string) (now_ms : Z) : option bytes :=
  e ← entries ns !! key; visible e now_ms.

Definition entry (ns : Namespace) (key : string) : option KvEntry := entries ns !! key.

(** Iteration order of the [BTreeMap]: ascending keys. *)
Definition key_le (a b : string * KvEntry) : Prop := a.1 ⪯ b.1.

#[export] Instance key_le_dec : RelDecision key_le.
Proof. intros a b. unfold key_le. apply _. Defined.

Definition sorted_entries (ns : Namespace) : list (string * KvEntry) :=
  merge_sort key_le (map_to_list (entries ns)).

Fixpoint take_while {A} (p : A -> bool) (l : list A) : list A :=
  match l with
  | [] => []
  | x :: l' => if p x then x :: take_while p l' else []
  end.

(** [Namespace::list]: seek to the prefix, scan while it matches, keep the
  visible ones, cap. *)
Definition list_keys (ns : Namespace) (prefix : string) (now_ms : Z) (limit : nat) : list string :=
  let range := filter (fun ke => prefix ⪯ ke.1) (sorted_entries ns) in
  let matching := take_while (fun ke => starts_with prefix ke.1) range in
  let live := filter (fun ke => is_Some (visible ke.2 now_ms)) matching in
  take limit (map fst live).

Definition digest_item (ke : string * KvEntry) : bytes :=
  let '(k, e) := ke in
  u64_le (slen k) ++ as_bytes k ++ u64_le (wall_ms (hlc e)) ++ u32_le (logical (hlc e)) ++
  id_bytes (writer e) ++ value_hash e.

(** [Namespace::digest]. *)
Definition ns_digest (ns : Namespace) : bytes :=
  sha256 (concat (map digest_item (sorted_entries ns))).

(** [Namespace::dump]. *)
Definition dump (ns : Namespace) : list (string * KvEntry) := sorted_entries ns.

(** [Namespace::apply_dump]: the namespace and how many items applied. *)
Fixpoint apply_dump (ns : Namespace) (items : list (string * KvEntry)) : Namespace * Z :=
  match items with
  | [] => (ns, 0)
  | (k, e) :: items' =>
      let '(ns1, m) := merge ns k e in
      let '(ns2, applied) := apply_dump ns1 items' in
      (ns2, applied + if bool_decide (m = Applied) then 1 else 0)
  end.

(** Since when an entry is dead at [now_ms], as [gc] computes it. *)
Definition dead_since (e : KvEntry) (now_ms : Z) : option Z :=
  match value e, expires_at_ms e with
  | None, _ => Some (wall_ms (hlc e))
  | Some _, Some exp => if (now_ms >=? exp)%Z then Some exp else None
  | Some _, None => None
  end.

Definition gc_keep (now_ms horizon_ms : Z) (e : KvEntry) : bool :=
  match dead_since e now_ms with
  | Some t => (sat_sub now_ms t <? horizon_ms)%Z
  | None => true
  end.

(** [Namespace::gc]: the namespace and how many entries it dropped. *)
Definition gc (ns : Namespace) (now_ms horizon_ms : Z) : Namespace * Z :=
  let kept := filter (fun ke => gc_keep now_ms horizon_ms ke.2 = true) (entries ns) in
  (mkNamespace kept, Z.of_nat (size (entries ns)) - Z.of_nat (size kept)).

Definition len (ns : Namespace) : Z := Z.of_nat (size (entries ns)).
Definition ns_is_empty (ns : Namespace) : bool := bool_decide (entries ns = ∅).
End kv.

(** ** Ranks: what a merge keeps *)

Section ranks.
Context {crypto : Crypto}.

(** The least upper bound of ranks, an absent key being below everything. *)
Definition join {K} `{Cmp K} (o : option K) (r : K) : option K :=
  Some (match o with Some r0 => cmp_max r0 r | None => r end).

Lemma cmp_max_comm {K} `{CmpOk K} (x y : K) : cmp_max x y = cmp_max y x.
Proof.
  unfold cmp_max. destruct (leb x y) eqn:E1, (leb y x) eqn:E2; to_prop; auto.
  - by apply le_of_antisym.
  - by apply lt_of_not_le in E1; apply lt_of_le in E2.
Qed.

Lemma cmp_max_assoc {K} `{CmpOk K} (x y z : K) :
  cmp_max (cmp_max x y) z = cmp_max x (cmp_max y z).
Proof.
  apply le_of_antisym.
  - destruct (cmp_max_cases (cmp_max x y) z) as [->| ->].
    + destruct (cmp_max_cases x y) as [->| ->]; [apply cmp_max_ub_l|].
      eapply le_of_trans; [|apply cmp_max_ub_r]. apply cmp_max_ub_l.
    + eapply le_of_trans; [|apply cmp_max_ub_r]. apply cmp_max_ub_r.
  - destruct (cmp_max_cases x (cmp_max y z)) as [->| ->].
    + eapply le_of_trans; [|apply cmp_max_ub_l]. apply cmp_max_ub_l.
    + destruct (cmp_max_cases y z) as [->| ->]; [|apply cmp_max_ub_r].
      eapply le_of_trans; [|apply cmp_max_ub_l]. apply cmp_max_ub_r.
Qed.

Lemma join_comm {K} `{CmpOk K} (o : option K) (r1 r2 : K) :
  join (join o r1) r2 = join (join o r2) r1.
Proof.
  unfold join. destruct o as [r0|]; f_equal; [|apply cmp_max_comm].
  by rewrite !cmp_max_assoc, (cmp_max_comm r1).
Qed.

Definition rank_at (ns : Namespace) (k : string) : option (Hlc * (bytes * bytes)) :=
  rank <$> entries ns !! k.

Lemma merge_rank_at (ns : Namespace) (k k' : string) (e : KvEntry) :
  rank_at (merge ns k e).1 k' =
  if decide (k = k') then join (rank_at ns k') (rank e) else rank_at ns k'.
Proof.
  unfold merge, rank_at, join, beats.
  destruct (entries ns !! k) as [x|] eqn:E.
  - destruct (ltb (rank x) (rank e)) eqn:Eb; simpl.
    + rewrite lookup_insert. case_decide; [|done]. subst. rewrite E; simpl.
      unfold cmp_max. apply ltb_lt, lt_of_le, leb_le in Eb. by rewrite Eb.
    + case_decide; [|done]. subst. rewrite E; simpl.
      apply ltb_ge in Eb. unfold cmp_max.
      destruct (leb (rank x) (rank e)) eqn:E2; [|done]. to_prop. f_equal. by apply le_of_antisym.
  - simpl. rewrite lookup_insert. case_decide; [|done]. subst. by rewrite E.
Qed.

(** Items of a dump, in order, joined into the rank of one key. *)
Definition join_items (k : string) (items : list (string * KvEntry))
  (o : option (Hlc * (bytes * bytes))) : option (Hlc * (bytes * bytes)) :=
  foldl (fun o ke => if decide (ke.1 = k) then join o (rank ke.2) else o) o items.

Lemma apply_dump_rank_at (items : list (string * KvEntry)) (ns : Namespace) (k : string) :
  rank_at (apply_dump ns items).1 k = join_items k items (rank_at ns k).
Proof.
  revert ns. induction items as [|[k' e] items IH]; intros ns; simpl; [done|].
  destruct (merge ns k' e) as [ns1 m] eqn:E.
  specialize (IH ns1). destruct (apply_dump ns1 items) as [ns2 n]; simpl in *.
  rewrite IH. f_equal. pose proof (merge_rank_at ns k' k e) as Hm. by rewrite E in Hm.
Qed.

Lemma join_items_perm (k : string) (l1 l2 : list (string * KvEntry)) o :
  l1 ≡ₚ l2 -> join_items k l1 o = join_items k l2 o.
Proof.
  intros Hp. revert o. induction Hp as [|x l1 l2 _ IH|x y l|l1 l2 l3 _ IH1 _ IH2];
    intros o; simpl; auto.
  - f_equal. do 2 case_decide; try done. apply join_comm.
  - by rewrite IH1.
Qed.

(** Two replicas with the same rank for every key. *)
Definition equiv (ns1 ns2 : Namespace) : Prop := forall k, rank_at ns1 k = rank_at ns2 k.

#[export] Instance equiv_equivalence : Equivalence equiv.
Proof. split; repeat intro; [done|symmetry; auto|etrans; eauto]. Qed.

#[export] Instance merge_Proper (k : string) (e : KvEntry) :
  Proper (equiv ==> equiv) (fun ns => (merge ns k e).1).
Proof. intros ns1 ns2 Heq k'. by rewrite !merge_rank_at, (Heq k'). Qed.

#[export] Instance apply_dump_Proper :
  Proper (equiv ==> Permutation ==> equiv) (fun ns l => (apply_dump ns l).1).
Proof.
  intros ns1 ns2 Heq l1 l2 Hl k. rewrite !apply_dump_rank_at, (Heq k).
  by apply join_items_perm.
Qed.

(** *** The digest sees exactly the ranks *)

Definition rank_map (ns : Namespace) : gmap string (Hlc * (bytes * bytes)) := rank <$> entries ns.

Lemma equiv_rank_map (ns1 ns2 : Namespace) : equiv ns1 ns2 -> rank_map ns1 = rank_map ns2.
Proof. intros Heq. apply map_eq. intros k. unfold rank_map. rewrite !lookup_fmap. apply Heq. Qed.

#[export] Instance key_le_trans : Transitive key_le.
Proof. intros x y z. unfold key_le. apply le_of_trans. Qed.

#[export] Instance key_le_total : Total key_le.
Proof. intros x y. unfold key_le. apply le_of_total. Qed.

(** Keys of a namespace are distinct, so its iteration order is strict. *)
Lemma sorted_entries_strict (ns : Namespace) :
  StronglySorted (fun a b : string * KvEntry => a.1 ≺ b.1) (sorted_entries ns).
Proof.
  assert (StronglySorted key_le (sorted_entries ns)) as Hle by (apply Sorted_StronglySorted, Sorted_merge_sort; apply _).
  assert (NoDup (sorted_entries ns).*1) as Hnd.
  { unfold sorted_entries. rewrite merge_sort_Permutation. apply NoDup_fst_map_to_list. }
  induction Hle as [|x l Hl IH Hf]; constructor; apply NoDup_cons in Hnd as [Hx Hnd]; [by apply IH|].
  rewrite Forall_forall in Hf |- *. intros y Hy. specialize (Hf y Hy). unfold key_le in Hf.
  apply le_of_lt_or_eq in Hf as [?|He]; [done|]. destruct Hx. rewrite He. by apply list_elem_of_fmap_2.
Qed.

Definition pair_le (a b : string * (Hlc * (bytes * bytes))) : Prop := a.1 ⪯ b.1.

#[export] Instance pair_le_trans : Transitive pair_le.
Proof. intros x y z. unfold pair_le. apply le_of_trans. Qed.

Lemma sorted_ranks_perm (ns : Namespace) :
  prod_map id rank <$> sorted_entries ns ≡ₚ map_to_list (rank_map ns).
Proof. unfold sorted_entries, rank_map. by rewrite merge_sort_Permutation, map_to_list_fmap. Qed.

Lemma sorted_ranks_sorted (ns : Namespace) :
  Sorted pair_le (prod_map id rank <$> sorted_entries ns).
Proof.
  assert (Sorted key_le (sorted_entries ns)) as Hs by (apply Sorted_merge_sort, _).
  induction Hs as [|x l Hs IH Hd]; simpl; constructor; [done|].
  destruct Hd as [|y l Hxy]; simpl; by constructor.
Qed.

Lemma sorted_ranks_eq (ns1 ns2 : Namespace) :
  equiv ns1 ns2 ->
  prod_map id rank <$> sorted_entries ns1 = prod_map id rank <$> sorted_entries ns2.
Proof.
  intros Heq%equiv_rank_map.
  apply (Sorted_unique_strong pair_le).
  - intros [k1 r1] [k2 r2] H1 H2 H12 H21. unfold pair_le in *; simpl in *.
    assert (k1 = k2) as -> by (by apply le_of_antisym).
    rewrite sorted_ranks_perm in H1. rewrite sorted_ranks_perm in H2.
    apply elem_of_map_to_list in H1, H2. rewrite Heq in H1. congruence.
  - apply sorted_ranks_sorted.
  - apply sorted_ranks_sorted.
  - by rewrite !sorted_ranks_perm, Heq.
Qed.

Lemma digest_items_ranks (ns : Namespace) :
  map digest_item (sorted_entries ns) =
  (fun kr => u64_le (slen kr.1) ++ as_bytes kr.1 ++ u64_le (wall_ms kr.2.1) ++
             u32_le (logical kr.2.1) ++ kr.2.2.1 ++ kr.2.2.2)
    <$> (prod_map id rank <$> sorted_entries ns).
Proof.
  induction (sorted_entries ns) as [|[k e] l IH]; simpl; [done|]. by rewrite IH.
Qed.

#[export] Instance ns_digest_Proper : Proper (equiv ==> eq) ns_digest.
Proof.
  intros ns1 ns2 Heq. unfold ns_digest. by rewrite !digest_items_ranks, (sorted_ranks_eq _ _ Heq).
Qed.

(** *** Anti-entropy: a dump joins pointwise *)

Lemma join_items_absent (k : string) (l : list (string * KvEntry)) o :
  k ∉ l.*1 -> join_items k l o = o.
Proof.
  revert o. induction l as [|[k' e] l IH]; intros o Hk; simpl; [done|].
  rewrite IH by set_solver. rewrite decide_False; [done|set_solver].
Qed.

Lemma join_items_present (k : string) (e : KvEntry) (l : list (string * KvEntry)) o :
  NoDup l.*1 -> (k, e) ∈ l -> join_items k l o = join o (rank e).
Proof.
  revert o. induction l as [|[k' e'] l IH]; intros o Hnd Hin; [set_solver|].
  apply NoDup_cons in Hnd as [Hk' Hnd]. simpl in *.
  apply elem_of_cons in Hin as [[= <- <-]|Hin].
  - rewrite decide_True by done. by apply join_items_absent.
  - rewrite decide_False; [by apply IH|]. intros ->. apply Hk'.
    apply list_elem_of_fmap. by exists (k, e).
Qed.

Lemma dump_NoDup (ns : Namespace) : NoDup (dump ns).*1.
Proof.
  unfold dump, sorted_entries. rewrite merge_sort_Permutation. apply NoDup_fst_map_to_list.
Qed.

Lemma dump_elem (ns : Namespace) (k : string) (e : KvEntry) :
  (k, e) ∈ dump ns <-> entries ns !! k = Some e.
Proof. unfold dump, sorted_entries. by rewrite merge_sort_Permutation, elem_of_map_to_list. Qed.

Definition join_opt {K} `{Cmp K} (o1 o2 : option K) : option K :=
  match o2 with Some r => join o1 r | None => o1 end.

Lemma apply_dump_join (a b : Namespace) (k : string) :
  rank_at (apply_dump a (dump b)).1 k = join_opt (rank_at a k) (rank_at b k).
Proof.
  rewrite apply_dump_rank_at. unfold rank_at at 3.
  destruct (entries b !! k) as [e|] eqn:E; simpl.
  - apply join_items_present; [apply dump_NoDup|by apply dump_elem].
  - apply join_items_absent. intros [[k' e] [-> Hin]]%list_elem_of_fmap.
    apply dump_elem in Hin. simpl in *. congruence.
Qed.

Lemma join_opt_idem {K} `{CmpOk K} (o1 o2 : option K) :
  join_opt o2 (join_opt o1 o2) = join_opt o1 o2.
Proof.
  destruct o1 as [x|], o2 as [y|]; simpl; unfold join; f_equal.
  - apply le_of_antisym.
    + destruct (cmp_max_cases y (cmp_max x y)) as [->| ->]; [apply cmp_max_ub_r|apply le_of_refl].
    + apply cmp_max_ub_r.
  - unfold cmp_max. by destruct (leb y y).
Qed.
End ranks.

Section facts.
Context {crypto : Crypto}.

Lemma merge_lookup (ns : Namespace) (k k' : string) (e x : KvEntry) :
  entries (merge ns k e).1 !! k' = Some x ->
  entries ns !! k' = Some x \/ (k' = k /\ x = e).
Proof.
  unfold merge. destruct (entries ns !! k) as [y|] eqn:E; [destruct (negb _)|]; simpl; auto;
    rewrite lookup_insert; case_decide; naive_solver.
Qed.

Lemma apply_dump_lookup (items : list (string * KvEntry)) (ns : Namespace) (k : string) (x : KvEntry) :
  entries (apply_dump ns items).1 !! k = Some x ->
  entries ns !! k = Some x \/ (k, x) ∈ items.
Proof.
  revert ns. induction items as [|[k' e] items IH]; intros ns; simpl; [auto|].
  pose proof (merge_lookup ns k' k e x) as Hm. specialize (IH (merge ns k' e).1).
  destruct (merge ns k' e) as [ns1 m]; simpl in *.
  destruct (apply_dump ns1 items) as [ns2 n]; simpl in *.
  intros [H1|H1]%IH; [apply Hm in H1 as [?|[-> ->]]|]; [auto| |]; right; set_solver.
Qed.

Lemma join_items_ge (k : string) (items : list (string * KvEntry)) (o : option _) r :
  (o = Some r \/ exists e, (k, e) ∈ items /\ rank e = r) ->
  exists r', join_items k items o = Some r' /\ r ⪯ r'.
Proof.
  revert o r. induction items as [|[k' e] items IH]; intros o r Hr; simpl.
  - destruct Hr as [->|(e & Hin & _)]; [exists r; split; [done|apply le_of_refl]|set_solver].
  - destruct Hr as [->|(e0 & [[= -> ->]|Hin]%elem_of_cons & <-)].
    + case_decide; [|apply IH; auto].
      destruct (IH (join (Some r) (rank e)) (cmp_max r (rank e))) as (r' & Hj & Hle); [by left|].
      exists r'. split; [done|]. eapply le_of_trans; [apply cmp_max_ub_l|done].
    + rewrite decide_True by done. unfold join.
      set (r1 := match o with Some _ => _ | None => _ end).
      destruct (IH (Some r1) r1) as (r' & Hj & Hle); [by left|].
      exists r'. split; [done|]. eapply le_of_trans; [|exact Hle].
      unfold r1. destruct o; [apply cmp_max_ub_r|apply le_of_refl].
    + apply IH. right. eauto.
Qed.

Lemma visible_starts_range (prefix k : string) : starts_with prefix k = true -> prefix ⪯ k.
Proof.
  unfold starts_with, le_of, cmp, string_cmp.
  revert k. induction prefix as [|c p IH]; intros [|d k]; simpl; try done.
  destruct (ascii_dec c d) as [->|]; [|done]. intros Hp. apply IH in Hp.
  unfold cmp, list_cmp in *; simpl. unfold then_with, cmp, Z_cmp. by rewrite Z.compare_refl.
Qed.

(** Between a prefix and a key that has it there are only keys that have it. *)
Lemma starts_with_convex (prefix a b : string) :
  prefix ⪯ a -> a ⪯ b -> starts_with prefix b = true -> starts_with prefix a = true.
Proof.
  unfold starts_with, le_of, cmp, string_cmp, cmp, list_cmp.
  revert a b. induction prefix as [|c p IH]; intros a b; [by destruct a|].
  destruct a as [|d a], b as [|e b]; simpl; try done.
  unfold then_with, cmp, Z_cmp.
  destruct (ascii_dec c e) as [<-|]; [|done].
  destruct (Z.compare_spec (byte_of c) (byte_of d)) as [Heq|Hlt|Hgt]; simpl; try done.
  - apply byte_of_inj in Heq as <-. rewrite Z.compare_refl. destruct (ascii_dec c c); [|done].
    apply IH.
  - destruct (Z.compare_spec (byte_of d) (byte_of c)); try done; lia.
Qed.

Lemma take_while_filter (prefix : string) (l : list (string * KvEntry)) :
  Sorted key_le l ->
  take_while (fun ke => starts_with prefix ke.1) (filter (fun ke => prefix ⪯ ke.1) l) =
  filter (fun ke => starts_with prefix ke.1 = true) l.
Proof.
  intros Hs%(Sorted_StronglySorted _). induction Hs as [|[k e] l Hs IH Hall]; simpl; [done|].
  rewrite !filter_cons; simpl. destruct (decide (prefix ⪯ k)) as [Hle|Hn]; simpl.
  - destruct (starts_with prefix k) eqn:E; simpl.
    + by rewrite IH.
    + assert (filter (fun ke => starts_with prefix ke.1 = true) l = []) as ->; [|done].
      apply filter_none. rewrite Forall_forall in Hall. intros [k' e'] Hin Hp.
      specialize (Hall _ Hin). unfold key_le in Hall; simpl in *.
      rewrite (starts_with_convex prefix k k') in E by done. done.
  - rewrite decide_False by (intros Hp; by apply Hn, visible_starts_range). done.
Qed.

Lemma dead_since_invisible (e : KvEntry) (now_ms t t' : Z) :
  dead_since e now_ms = Some t -> now_ms <= t' -> visible e t' = None.
Proof.
  unfold dead_since, visible. destruct (value e), (expires_at_ms e) as [x|]; try done.
  destruct (Z.geb_spec now_ms x) as [?|?]; [|done]. intros _ ?.
  destruct (Z.geb_spec t' x); [done|lia].
Qed.
End facts.

(** ** Properties *)

(** Entries of one key that the order cannot tell apart are the same entry. *)
Definition ranks_identify {crypto : Crypto} (ns : Namespace) (items : list (string * KvEntry)) : Prop :=
  forall k e1 e2,
    (entries ns !! k = Some e1 \/ (k, e1) ∈ items) ->
    (entries ns !! k = Some e2 \/ (k, e2) ∈ items) ->
    rank e1 = rank e2 -> e1 = e2.

(** Replicas that merge the same entries converge whatever the order of
    delivery: their digests are equal with no assumption at all, and their
    contents are equal when two writes of one key never share hlc, writer and
    value hash. *)
Theorem merge_order_irrelevant {crypto : Crypto} (ns : Namespace)
    (l1 l2 : list (string * KvEntry)) (Hperm : l1 ≡ₚ l2) :
  ns_digest (apply_dump ns l1).1 = ns_digest (apply_dump ns l2).1 /\
  (ranks_identify ns l1 -> (apply_dump ns l1).1 = (apply_dump ns l2).1).
Proof.
  assert (equiv (apply_dump ns l1).1 (apply_dump ns l2).1) as Heq
    by (by apply apply_dump_Proper).
  split; [by apply ns_digest_Proper|]. intros Hid.
  destruct (apply_dump ns l1).1 as [m1] eqn:E1, (apply_dump ns l2).1 as [m2] eqn:E2.
  f_equal. apply map_eq. intros k. specialize (Heq k). unfold rank_at in Heq; simpl in Heq.
  pose proof (apply_dump_lookup l1 ns k) as H1. pose proof (apply_dump_lookup l2 ns k) as H2.
  rewrite E1 in H1. rewrite E2 in H2. simpl in *.
  destruct (m1 !! k) as [x|], (m2 !! k) as [y|]; try done.
  f_equal. apply (Hid k); [by apply H1| |by apply (inj Some)].
  destruct (H2 y eq_refl) as [?|?]; [by left|right]. by rewrite Hperm.
Qed.

Definition sample_entry (w l : Z) (who : Z) (v : option bytes) : KvEntry :=
  mkKvEntry (mkHlc w l) (mkPublicId [who]) v None.

Lemma merge_order_irrelevant_witness :
  let old := ("k", sample_entry 1 0 1 (Some [10])) in
  let new := ("k", sample_entry 2 0 2 (Some [20])) in
  [old; new] ≡ₚ [new; old] /\
  ns_digest (crypto := Sample.crypto) (apply_dump (crypto := Sample.crypto) new_namespace [old; new]).1 =
  ns_digest (crypto := Sample.crypto) (apply_dump (crypto := Sample.crypto) new_namespace [new; old]).1.
Proof.
  split; [apply Permutation_swap|].
  apply (merge_order_irrelevant (crypto := Sample.crypto)). apply Permutation_swap.
Defined.

(** After any merges the entry of a key is one of the entries merged (or
    the one already there) and no entry merged for that key beats it. *)
Theorem merge_keeps_greatest {crypto : Crypto} (ns : Namespace) (items : list (string * KvEntry))
    (k : string) (e : KvEntry)
    (Hin : entries ns !! k = Some e \/ (k, e) ∈ items) :
  exists winner,
    entry (apply_dump ns items).1 k = Some winner /\
    (entries ns !! k = Some winner \/ (k, winner) ∈ items) /\
    beats e winner = false.
Proof.
  destruct (join_items_ge k items (rank_at ns k) (rank e)) as (r & Hj & Hle).
  { destruct Hin as [Hin|Hin]; [left; unfold rank_at; by rewrite Hin|right; eauto]. }
  rewrite <- apply_dump_rank_at in Hj. unfold rank_at in Hj.
  destruct (entries (apply_dump ns items).1 !! k) as [w|] eqn:E; [|done]. simpl in Hj.
  exists w. split; [done|split; [by apply apply_dump_lookup|]].
  unfold beats. apply ltb_ge. congruence.
Qed.

Lemma merge_keeps_greatest_witness :
  exists winner,
    entry (apply_dump (crypto := Sample.crypto) new_namespace [("k", sample_entry 1 0 1 (Some [10]))]).1 "k"
    = Some winner /\
    (entries new_namespace !! "k" = Some winner \/
     ("k", winner) ∈ [("k", sample_entry 1 0 1 (Some [10]))]) /\
    beats (crypto := Sample.crypto) (sample_entry 1 0 1 (Some [10])) winner = false.
Proof.
  apply (merge_keeps_greatest (crypto := Sample.crypto)). right. left.
Defined.

(** One round of anti-entropy, [a] applying the dump of [b] and [b] then
    applying the dump of the result, leaves both replicas with the same digest
    and every key at the greater of the two ranks. *)
Theorem anti_entropy_converges {crypto : Crypto} (a b : Namespace) :
  let a' := (apply_dump a (dump b)).1 in
  let b' := (apply_dump b (dump a')).1 in
  ns_digest a' = ns_digest b' /\
  forall k, rank_at a' k = join_opt (rank_at a k) (rank_at b k) /\ rank_at b' k = rank_at a' k.
Proof.
  intros a' b'.
  assert (forall k, rank_at b' k = rank_at a' k) as Heq.
  { intros k. unfold b'. rewrite apply_dump_join. unfold a'. rewrite apply_dump_join.
    apply join_opt_idem. }
  split; [apply ns_digest_Proper; intros k; by rewrite Heq|].
  intros k. split; [apply apply_dump_join|apply Heq].
Qed.

(** The seek-and-scan listing returns what filtering the whole namespace
    would: the visible keys with the prefix, in key order, at most [limit]. *)
Theorem list_keys_spec {crypto : Crypto} (ns : Namespace) (prefix : string) (now_ms : Z) (limit : nat) :
  list_keys ns prefix now_ms limit =
  take limit (map fst (filter (fun ke => is_Some (visible ke.2 now_ms))
    (filter (fun ke => starts_with prefix ke.1 = true) (sorted_entries ns)))).
Proof. unfold list_keys. rewrite take_while_filter; [done|]. apply Sorted_merge_sort, _. Qed.

(** [gc] is invisible to readers: at any time from [now_ms] on, every key
    reads as it did before, and what [gc] dropped is a tombstone or an expired
    value that has been dead for at least [horizon_ms]. *)
Theorem gc_preserves_reads {crypto : Crypto} (ns : Namespace) (now_ms horizon_ms : Z) (k : string) :
  (forall t, now_ms <= t -> get (gc ns now_ms horizon_ms).1 k t = get ns k t) /\
  (forall e, entry ns k = Some e -> entry (gc ns now_ms horizon_ms).1 k = None ->
     exists since, dead_since e now_ms = Some since /\ horizon_ms <= sat_sub now_ms since).
Proof.
  unfold get, entry, gc; cbn [fst entries]. split.
  - intros t Ht. rewrite map_lookup_filter.
    destruct (entries ns !! k) as [e|]; simpl; [|done].
    case_guard as Hk; simpl; [done|].
    unfold gc_keep in Hk. destruct (dead_since e now_ms) eqn:E; [|done].
    by rewrite (dead_since_invisible e now_ms _ t E).
  - intros e He. rewrite map_lookup_filter, He; simpl.
    case_guard as Hk; simpl; [done|]. intros _. unfold gc_keep in Hk.
    destruct (dead_since e now_ms) as [t|] eqn:E; [|done].
    exists t. split; [done|]. destruct (Z.ltb_spec (sat_sub now_ms t) horizon_ms); [done|lia].
Qed.

(** The digest does not separate a value with an expiry from a longer value
    without one: the expiry bytes are hashed right after the value bytes with
    no tag, so two namespaces that read differently have equal digests under
    every hash function. *)
Theorem digest_confuses_value_and_expiry :
  exists ns1 ns2 : Namespace, forall crypto : Crypto,
    ns_digest ns1 = ns_digest ns2 /\ get ns1 "k" 0 <> get ns2 "k" 0.
Proof.
  set (h := mkHlc 5 0). set (w := mkPublicId [1]).
  exists (mkNamespace {["k" := mkKvEntry h w (Some [7]) (Some 9)]}).
  exists (mkNamespace {["k" := mkKvEntry h w (Some ([7] ++ u64_le 9)) None]}).
  intros crypto. split; [reflexivity|]. vm_compute. discriminate.
Qed.
