(* ===== verification/Cron.v ===== *)
(** * Cron: five-field cron expressions (crates/rf-core/src/cron.rs)

    [parse_field], [civil], [parse] and [matches] are the functions of the
    source.  The text of an error message is replaced by a constructor of
    [CronParseError] that carries its arguments; the [while] loop that fills
    the mask is [mask_loop] with fuel, proved to need at most 64 steps.  The
    references are [denotes], the set of values a field describes, and
    [next_day], the Gregorian calendar one day at a time. *)

From Stdlib Require Import ZArith Lia Ascii.
From stdpp Require Import prelude gmap sorting strings list.
From S2P Require Import Prelude Text.
Open Scope Z_scope.

Record CronExpr := mkCronExpr {
  minute : Z;
  hour : Z;
  dom : Z;
  month : Z;
  dow : Z;
  dom_star : bool;
  dow_star : bool
}.

Inductive CronParseError :=
| BadStep (part : string)
| ZeroStep (part : string)
| BadRange (part : string)
| BadValue (range : string)
| OutOfRange (part : string) (min max : Z)
| EmptyField (field : string)
| FieldCount (got : Z) (s : string)
| OutOfFuel.

(** [while v <= hi { mask |= 1u64 << v; v += step; }], [v] a [u32]. *)
Fixpoint mask_loop (fuel : nat) (mask v hi step : Z) : option Z :=
  match fuel with
  | O => None
  | S fuel' =>
      if (v <=? hi)%Z then
        mask_loop fuel' (Z.lor mask (wrap 64 (Z.shiftl 1 v))) (wadd 32 v step) hi step
      else Some mask
  end.

Definition loop_fuel : nat := 64.

(** The (range, step) of one comma-separated part. *)
Definition part_step (part : string) : result (string * Z) CronParseError :=
  match split_once "/" part with
  | Some (r, s) =>
      match parse_u32 s with
      | None => Err (BadStep part)
      | Some step => if (step =? 0)%Z then Err (ZeroStep part) else Ok (r, step)
      end
  | None => Ok (part, 1)
  end.

(** The bounds of a range. *)
Definition part_bounds (part range : string) (min max : Z) : result (Z * Z) CronParseError :=
  if bool_decide (range = "*") then Ok (min, max)
  else match split_once "-" range with
       | Some (a, b) =>
           match parse_u32 a with
           | None => Err (BadRange part)
           | Some lo =>
               match parse_u32 b with
               | None => Err (BadRange part)
               | Some hi => Ok (lo, hi)
               end
           end
       | None =>
           match parse_u32 range with
           | None => Err (BadValue range)
           | Some v => Ok (v, v)
           end
       end.

(** One iteration of the [for part in field.split(',')] loop. *)
Definition add_part (min max mask : Z) (part : string) : result Z CronParseError :=
  let? (range, step) := part_step part in
  let? (lo, hi) := part_bounds part range min max in
  if (lo <? min)%Z || (hi >? max)%Z || (lo >? hi)%Z then Err (OutOfRange part min max)
  else match mask_loop loop_fuel mask lo hi step with
       | Some mask' => Ok mask'
       | None => Err OutOfFuel
       end.

Fixpoint add_parts (min max mask : Z) (parts : list string) : result Z CronParseError :=
  match parts with
  | [] => Ok mask
  | p :: ps => let? mask' := add_part min max mask p in add_parts min max mask' ps
  end.

(** [parse_field]: the mask and whether the field is a star. *)
Definition parse_field (field : string) (min max : Z) : result (Z * bool) CronParseError :=
  let is_star :=
    bool_decide (field = "*") || (starts_with "*/" field && negb (contains_byte "," field)) in
  let? mask := add_parts min max 0 (split "," field) in
  if (mask =? 0)%Z then Err (EmptyField field) else Ok (mask, is_star).

(** [civil]: (year, month, day, weekday) of a day number; [/] and [%] of
    [i64] truncate. *)
Definition civil (days : Z) : Z * Z * Z * Z :=
  let dow := Z.rem (days mod 7 + 4) 7 in
  let z := days + 719468 in
  let era := Z.quot (if (z >=? 0)%Z then z else z - 146096) 146097 in
  let doe := z - era * 146097 in
  let yoe := Z.quot (doe - Z.quot doe 1460 + Z.quot doe 36524 - Z.quot doe 146096) 365 in
  let y := yoe + era * 400 in
  let doy := doe - (365 * yoe + Z.quot yoe 4 - Z.quot yoe 100) in
  let mp := Z.quot (5 * doy + 2) 153 in
  let d := doy - Z.quot (153 * mp + 2) 5 + 1 in
  let m := if (mp <? 10)%Z then mp + 3 else mp - 9 in
  let y := if (m <=? 2)%Z then y + 1 else y in
  (y, m, d, dow).

(** [CronExpr::parse]. *)
Definition parse (s : string) : result CronExpr CronParseError :=
  match split_whitespace s with
  | [f0; f1; f2; f3; f4] =>
      let? (minute, _) := parse_field f0 0 59 in
      let? (hour, _) := parse_field f1 0 23 in
      let? (dom, dom_star) := parse_field f2 1 31 in
      let? (month, _) := parse_field f3 1 12 in
      let dow_src := replace_byte "7" "0" f4 in
      let? (dow, dow_star) := parse_field dow_src 0 6 in
      Ok (mkCronExpr minute (wrap 32 hour) (wrap 32 dom) (wrap 16 month) (wrap 8 dow)
            dom_star dow_star)
  | fields => Err (FieldCount (Z.of_nat (length fields)) s)
  end.

(** [mask & (1 << i) != 0]. *)
Definition hit (mask i : Z) : bool := negb (Z.land mask (Z.shiftl 1 i) =? 0)%Z.

(** [CronExpr::matches]. *)
Definition matches (c : CronExpr) (epoch_secs : Z) : bool :=
  let minutes := epoch_secs / 60 in
  let mi := minutes mod 60 in
  let ho := (minutes / 60) mod 24 in
  let days := minutes / 60 / 24 in
  let '(_y, mo, day, wd) := civil days in
  if negb (hit (minute c) mi) then false
  else if negb (hit (hour c) ho) then false
  else if negb (hit (month c) mo) then false
  else
    let dom_hit := hit (dom c) day in
    let dow_hit := hit (dow c) wd in
    match dom_star c, dow_star c with
    | true, true => true
    | false, true => dom_hit
    | true, false => dow_hit
    | false, false => dom_hit || dow_hit
    end.

(** ** The calendar *)

Definition leap (y : Z) : bool :=
  ((y mod 4 =? 0) && negb (y mod 100 =? 0) || (y mod 400 =? 0))%Z.

Definition days_in_month (y m : Z) : Z :=
  if (m =? 2)%Z then (if leap y then 29 else 28)
  else if ((m =? 4) || (m =? 6) || (m =? 9) || (m =? 11))%Z then 30
  else 31.

Definition next_day (date : Z * Z * Z * Z) : Z * Z * Z * Z :=
  let '(y, m, d, w) := date in
  let w' := (w + 1) mod 7 in
  if (d <? days_in_month y m)%Z then (y, m, d + 1, w')
  else if (m <? 12)%Z then (y, m + 1, 1, w')
  else (y + 1, 1, 1, w').

Ltac tuple_lia :=
  repeat match goal with
  | |- (_, _) = (_, _) => apply (f_equal2 pair); [|solve [reflexivity | lia]]
  end; solve [reflexivity | lia].

(** *** Splitting an era into years

    Years start in March: year [yoe] of an era starts [year_start yoe] days into
    it and has [year_len yoe] days. *)

Definition year_start (yoe : Z) : Z := 365 * yoe + yoe / 4 - yoe / 100.
Definition year_len (yoe : Z) : Z := if leap (yoe + 1) then 366 else 365.

(** The quotient [civil] divides by 365. *)
Definition year_num (doe : Z) : Z := doe - doe / 1460 + doe / 36524 - doe / 146096.

Lemma year_num_mono_step (doe : Z) : 0 <= doe < 146096 -> year_num doe <= year_num (doe + 1).
Proof. unfold year_num. intros Hd. Z.to_euclidean_division_equations. lia. Qed.

Lemma year_num_mono (a b : Z) : 0 <= a <= b -> b <= 146096 -> year_num a <= year_num b.
Proof.
  intros Hab Hb. replace b with (a + Z.of_nat (Z.to_nat (b - a))) in * by lia.
  induction (Z.to_nat (b - a)) as [|n IH]; [rewrite Z.add_0_r; lia|].
  pose proof (year_num_mono_step (a + Z.of_nat n) ltac:(lia)).
  replace (a + Z.of_nat (S n)) with (a + Z.of_nat n + 1) in * by lia.
  specialize (IH ltac:(lia) ltac:(lia)). lia.
Qed.

Definition year_ok (yoe : Z) : bool :=
  (year_num (year_start yoe) / 365 =? yoe)%Z
  && (year_num (year_start yoe + year_len yoe - 1) / 365 =? yoe)%Z
  && (if (yoe =? 399)%Z then (year_start yoe + year_len yoe =? 146097)%Z
      else (year_start yoe + year_len yoe =? year_start (yoe + 1))%Z).

Fixpoint check_from (p : Z -> bool) (n : nat) (x : Z) : bool :=
  match n with
  | O => true
  | S n' => p x && check_from p n' (x + 1)
  end.

Lemma check_from_ok (p : Z -> bool) (n : nat) (start x : Z) :
  check_from p n start = true -> start <= x < start + Z.of_nat n -> p x = true.
Proof.
  revert start. induction n as [|n IH]; intros start; [lia|].
  cbn [check_from]. intros Hc Hd. apply andb_true_iff in Hc as [H1 H2].
  destruct (decide (x = start)) as [->|]; [done|]. apply (IH (start + 1)); [done|lia].
Qed.

Lemma years_checked : check_from year_ok 400 0 = true.
Proof. vm_compute. reflexivity. Qed.

Lemma year_ok_all (yoe : Z) : 0 <= yoe < 400 -> year_ok yoe = true.
Proof. intros Hy. apply (check_from_ok year_ok 400 0); [apply years_checked|lia]. Qed.

(** Within year [yoe] the quotient is [yoe]. *)
Lemma year_num_in_year (yoe doy : Z) :
  0 <= yoe < 400 -> 0 <= doy < year_len yoe ->
  year_num (year_start yoe + doy) / 365 = yoe.
Proof.
  intros Hy Hd. pose proof (year_ok_all yoe Hy) as Hok. unfold year_ok in Hok. to_prop.
  assert (0 <= year_start yoe) by (unfold year_start; Z.to_euclidean_division_equations; lia).
  assert (year_start yoe + year_len yoe <= 146097) as Hend.
  { destruct (yoe =? 399)%Z eqn:E; to_prop; [lia|].
    match goal with Hs : _ = year_start (yoe + 1) |- _ => rewrite Hs end.
    unfold year_start. Z.to_euclidean_division_equations. lia. }
  pose proof (year_num_mono (year_start yoe) (year_start yoe + doy) ltac:(lia) ltac:(lia)).
  pose proof (year_num_mono (year_start yoe + doy) (year_start yoe + year_len yoe - 1)
    ltac:(lia) ltac:(lia)).
  Z.to_euclidean_division_equations. lia.
Qed.

(** *** Splitting a year into months, March first *)

Definition month_of (doy : Z) : Z := (5 * doy + 2) / 153.
Definition day_of (doy : Z) : Z := doy - (153 * month_of doy + 2) / 5 + 1.

(** Month [mp] counted from March, as a calendar month of calendar year [y]. *)
Definition cal_month (mp : Z) : Z := if (mp <? 10)%Z then mp + 3 else mp - 9.

Definition doy_ok (doy : Z) : bool :=
  let mp := month_of doy in
  let d := day_of doy in
  let mp' := month_of (doy + 1) in
  let d' := day_of (doy + 1) in
  ((0 <=? mp) && (mp <=? 11) && (1 <=? d) && (d <=? 31))%Z
  && (if (mp =? 11)%Z then (d =? doy - 336) && ((doy =? 365) || ((mp' =? 11) && (d' =? d + 1)))
      else if (d <? days_in_month 1 (cal_month mp))%Z then (mp' =? mp) && (d' =? d + 1)
      else (mp' =? mp + 1) && (d' =? 1))%Z.

Lemma doys_checked : check_from doy_ok 366 0 = true.
Proof. vm_compute. reflexivity. Qed.

Lemma doy_ok_all (doy : Z) : 0 <= doy < 366 -> doy_ok doy = true.
Proof. intros Hd. apply (check_from_ok doy_ok 366 0); [apply doys_checked|lia]. Qed.

(** The date of day [doy] of year [yoe] of era [era]. *)
Definition date_of (era yoe doy w : Z) : Z * Z * Z * Z :=
  let mp := month_of doy in
  let m := cal_month mp in
  (if (m <=? 2)%Z then yoe + era * 400 + 1 else yoe + era * 400, m, day_of doy, w).

Lemma civil_date_of (era yoe doy : Z) :
  0 <= era -> 0 <= yoe < 400 -> 0 <= doy < year_len yoe ->
  let days := era * 146097 + year_start yoe + doy - 719468 in
  civil days = date_of era yoe doy ((days mod 7 + 4) mod 7).
Proof.
  intros He Hy Hd days.
  pose proof (year_num_in_year yoe doy Hy Hd) as Hyear.
  pose proof (year_ok_all yoe Hy) as Hok. unfold year_ok in Hok. to_prop.
  assert (0 <= year_start yoe) as Hs0 by (unfold year_start; Z.to_euclidean_division_equations; lia).
  assert (year_start yoe + year_len yoe <= 146097) as Hend.
  { destruct (yoe =? 399)%Z eqn:E; to_prop; [lia|].
    match goal with Hs : _ = year_start (yoe + 1) |- _ => rewrite Hs end.
    unfold year_start. Z.to_euclidean_division_equations. lia. }
  set (doe := year_start yoe + doy) in *.
  assert (0 <= doe < 146097) as Hdoe by lia.
  assert (0 <= year_num doe) as Hnum by (unfold year_num; Z.to_euclidean_division_equations; lia).
  unfold civil. replace (days + 719468) with (era * 146097 + doe) by (unfold days, doe; lia).
  destruct (Z.geb_spec (era * 146097 + doe) 0) as [_|?]; [|lia].
  rewrite (Z.quot_div_nonneg (era * 146097 + doe)) by lia.
  replace ((era * 146097 + doe) / 146097) with era by (Z.to_euclidean_division_equations; lia).
  replace (era * 146097 + doe - era * 146097) with doe by lia.
  rewrite !(Z.quot_div_nonneg doe) by lia. fold (year_num doe).
  rewrite (Z.quot_div_nonneg (year_num doe)) by lia. rewrite Hyear.
  rewrite !(Z.quot_div_nonneg yoe) by lia. fold (year_start yoe).
  replace (doe - year_start yoe) with doy by (unfold doe; lia).
  rewrite (Z.quot_div_nonneg (5 * doy + 2)) by lia. fold (month_of doy).
  assert (0 <= month_of doy) by (unfold month_of; Z.to_euclidean_division_equations; lia).
  rewrite (Z.quot_div_nonneg (153 * month_of doy + 2)) by lia. fold (day_of doy).
  pose proof (Z.mod_pos_bound days 7 ltac:(lia)).
  rewrite Z.rem_mod_nonneg by lia. reflexivity.
Qed.

Lemma year_start_succ (yoe : Z) :
  0 <= yoe < 399 -> year_start yoe + year_len yoe = year_start (yoe + 1).
Proof.
  intros Hy. pose proof (year_ok_all yoe ltac:(lia)) as Hok. unfold year_ok in Hok. to_prop.
  destruct (yoe =? 399)%Z eqn:E; to_prop; lia.
Qed.

Lemma year_len_pos (yoe : Z) : 365 <= year_len yoe <= 366.
Proof. unfold year_len. destruct (leap _); lia. Qed.

Lemma doe_split (doe : Z) :
  0 <= doe < 146097 ->
  exists yoe doy, 0 <= yoe < 400 /\ 0 <= doy < year_len yoe /\ doe = year_start yoe + doy.
Proof.
  intros Hd. replace doe with (Z.of_nat (Z.to_nat doe)) in * by lia.
  induction (Z.to_nat doe) as [|n IH].
  - exists 0, 0. vm_compute. intuition discriminate.
  - destruct IH as (yoe & doy & Hy & Hdoy & Heq); [lia|].
    pose proof (year_len_pos yoe). pose proof (year_len_pos (yoe + 1)).
    destruct (decide (doy + 1 < year_len yoe)).
    + exists yoe, (doy + 1). lia.
    + destruct (decide (yoe = 399)) as [->|].
      * assert (year_start 399 + year_len 399 = 146097) by reflexivity. lia.
      * exists (yoe + 1), 0. rewrite <- (year_start_succ yoe) by lia. lia.
Qed.

Lemma leap_era (era y : Z) : leap (y + era * 400) = leap y.
Proof.
  unfold leap.
  replace ((y + era * 400) mod 4) with (y mod 4) by (Z.to_euclidean_division_equations; lia).
  replace ((y + era * 400) mod 100) with (y mod 100) by (Z.to_euclidean_division_equations; lia).
  by rewrite Z_mod_plus_full.
Qed.

(** Inside a year the next day is the next day of the month table. *)
Lemma next_day_in_year (era yoe doy w : Z) :
  0 <= doy -> doy + 1 < year_len yoe ->
  next_day (date_of era yoe doy w) = date_of era yoe (doy + 1) ((w + 1) mod 7).
Proof.
  intros H0 H1. pose proof (year_len_pos yoe).
  pose proof (doy_ok_all doy ltac:(lia)) as Hok. unfold doy_ok in Hok. to_prop.
  unfold next_day, date_of. set (mp := month_of doy) in *. set (d := day_of doy) in *.
  destruct (Z.eqb_spec mp 11) as [Emp|Emp].
  - to_prop. match goal with H : (_ || _)%bool = true |- _ => apply orb_true_iff in H as [H|H] end;
      to_prop; [lia|].
    replace (month_of (doy + 1)) with 11 by lia. replace (day_of (doy + 1)) with (d + 1) by lia.
    rewrite Emp. change (cal_month 11) with 2. change (2 <=? 2)%Z with true. cbn match.
    unfold days_in_month. change (2 =? 2)%Z with true. cbn match.
    replace (yoe + era * 400 + 1) with (yoe + 1 + era * 400) by lia. rewrite leap_era.
    assert (d < (if leap (yoe + 1) then 29 else 28)) as Hlt
      by (unfold year_len in *; destruct (leap (yoe + 1)); lia).
    apply Z.ltb_lt in Hlt. by rewrite Hlt.
  - assert (days_in_month (if (cal_month mp <=? 2)%Z then yoe + era * 400 + 1 else yoe + era * 400)
              (cal_month mp) = days_in_month 1 (cal_month mp)) as ->.
    { unfold days_in_month. destruct (Z.eqb_spec (cal_month mp) 2) as [E|]; [|done].
      unfold cal_month in E. destruct (Z.ltb_spec mp 10); lia. }
    destruct (d <? days_in_month 1 (cal_month mp))%Z; to_prop.
    + replace (month_of (doy + 1)) with mp by lia. by replace (day_of (doy + 1)) with (d + 1) by lia.
    + replace (month_of (doy + 1)) with (mp + 1) by lia. replace (day_of (doy + 1)) with 1 by lia.
      unfold cal_month. destruct (Z.ltb_spec mp 10), (Z.ltb_spec (mp + 1) 10); try lia.
      * destruct (Z.ltb_spec (mp + 3) 12); [|lia].
        destruct (Z.leb_spec (mp + 3) 2), (Z.leb_spec (mp + 1 + 3) 2); try lia.
        tuple_lia.
      * destruct (Z.ltb_spec (mp + 3) 12); [lia|].
        destruct (Z.leb_spec (mp + 3) 2), (Z.leb_spec (mp + 1 - 9) 2); try lia.
        tuple_lia.
      * destruct (Z.ltb_spec (mp - 9) 12); [|lia].
        destruct (Z.leb_spec (mp - 9) 2), (Z.leb_spec (mp + 1 - 9) 2); try lia.
        tuple_lia.
Qed.

(** The last day of a March-based year is the last day of February. *)
Lemma next_day_last (era yoe w : Z) :
  next_day (date_of era yoe (year_len yoe - 1) w) =
  (yoe + era * 400 + 1, 3, 1, (w + 1) mod 7).
Proof.
  unfold next_day, date_of, year_len. destruct (leap (yoe + 1)) eqn:El; cbn [Z.sub].
  - change (month_of (366 - 1)) with 11. change (day_of (366 - 1)) with 29.
    change (cal_month 11) with 2. cbn -[Z.add Z.mul Z.modulo leap].
    unfold days_in_month. cbn -[Z.add Z.mul Z.modulo leap].
    replace (yoe + era * 400 + 1) with (yoe + 1 + era * 400) by lia. rewrite leap_era, El. done.
  - change (month_of (365 - 1)) with 11. change (day_of (365 - 1)) with 28.
    change (cal_month 11) with 2. cbn -[Z.add Z.mul Z.modulo leap].
    unfold days_in_month. cbn -[Z.add Z.mul Z.modulo leap].
    replace (yoe + era * 400 + 1) with (yoe + 1 + era * 400) by lia. rewrite leap_era, El. done.
Qed.

Lemma weekday_succ (days : Z) : ((days + 1) mod 7 + 4) mod 7 = ((days mod 7 + 4) mod 7 + 1) mod 7.
Proof. Z.to_euclidean_division_equations. lia. Qed.

Lemma civil_succ (days : Z) : -719468 <= days -> civil (days + 1) = next_day (civil days).
Proof.
  intros Hd. set (z := days + 719468).
  destruct (doe_split (z mod 146097)) as (yoe & doy & Hy & Hdoy & Hdoe);
    [apply Z.mod_pos_bound; lia|].
  assert (0 <= z / 146097) as Hera by (apply Z.div_pos; unfold z; lia).
  set (era := z / 146097) in *.
  assert (days = era * 146097 + year_start yoe + doy - 719468) as Heq.
  { unfold era, z in *. pose proof (Z.div_mod (days + 719468) 146097). lia. }
  clear Hdoe. clearbody era. clear z. subst days.
  rewrite civil_date_of by done.
  destruct (decide (doy + 1 < year_len yoe)) as [Hin|Hlast].
  - rewrite next_day_in_year by lia.
    replace (era * 146097 + year_start yoe + doy - 719468 + 1)
      with (era * 146097 + year_start yoe + (doy + 1) - 719468) by lia.
    rewrite civil_date_of by lia. f_equal. rewrite <- weekday_succ. do 3 f_equal. lia.
  - replace doy with (year_len yoe - 1) by lia. rewrite next_day_last.
    pose proof (year_len_pos 0). pose proof (year_len_pos (yoe + 1)).
    rewrite <- weekday_succ. destruct (decide (yoe = 399)) as [->|].
    + replace (era * 146097 + year_start 399 + (year_len 399 - 1) - 719468 + 1)
        with ((era + 1) * 146097 + year_start 0 + 0 - 719468)
        by (change (year_len 399) with 366; change (year_start 399) with 145731;
            change (year_start 0) with 0; lia).
      rewrite civil_date_of by lia. unfold date_of.
      change (month_of 0) with 0. change (day_of 0) with 1. change (cal_month 0) with 3.
      cbn -[Z.add Z.mul Z.modulo]. tuple_lia.
    + replace (era * 146097 + year_start yoe + (year_len yoe - 1) - 719468 + 1)
        with (era * 146097 + year_start (yoe + 1) + 0 - 719468)
        by (rewrite <- (year_start_succ yoe) by lia; lia).
      rewrite civil_date_of by lia. unfold date_of.
      change (month_of 0) with 0. change (day_of 0) with 1. change (cal_month 0) with 3.
      cbn -[Z.add Z.mul Z.modulo]. tuple_lia.
Qed.

(** ** Fields *)

(** Steps for which [v += step] cannot wrap a [u32]. *)
Definition small_step (step : Z) : Prop := 1 <= step <= 2 ^ 32 - 64.

Lemma testbit_add_bit (mask v i : Z) :
  0 <= v < 64 -> 0 <= i ->
  Z.testbit (Z.lor mask (wrap 64 (Z.shiftl 1 v))) i = Z.testbit mask i || (i =? v)%Z.
Proof.
  intros Hv Hi. rewrite Z.shiftl_1_l, wrap_small.
  - rewrite Z.lor_spec, Z.pow2_bits_eqb by lia. f_equal. apply Z.eqb_sym.
  - split; [lia|]. apply Z.pow_lt_mono_r; lia.
Qed.

Lemma mask_loop_spec (fuel : nat) (mask v hi step : Z) :
  0 <= v -> hi < 64 -> small_step step -> hi - v + 1 < Z.of_nat fuel -> (0 < fuel)%nat ->
  exists mask', mask_loop fuel mask v hi step = Some mask' /\
    (0 <= mask -> 0 <= mask') /\
    forall i, 0 <= i ->
      (Z.testbit mask' i = true <->
       Z.testbit mask i = true \/ (v <= i <= hi /\ (i - v) mod step = 0)).
Proof.
  revert mask v. induction fuel as [|fuel IH]; intros mask v Hv Hhi Hs Hf Hpos; [lia|].
  unfold small_step in *. cbn [mask_loop]. destruct (Z.leb_spec v hi) as [Hle|Hgt].
  - rewrite (wadd_small 32 v step) by lia.
    destruct (decide (0 < fuel)%nat) as [Hp|Hn]; [|lia].
    destruct (IH (Z.lor mask (wrap 64 (Z.shiftl 1 v))) (v + step)) as (m & Hm & Hnn & Hbits); try lia.
    exists m. split; [done|]. split.
    { intros Hmask. apply Hnn. apply Z.lor_nonneg. split; [done|].
      apply wrap_in_width. lia. }
    intros i Hi. rewrite Hbits, testbit_add_bit by lia. rewrite orb_true_iff, Z.eqb_eq.
    split.
    + intros [[?| ->]|[Hr Hmod]]; [by left| |].
      * right. split; [lia|]. by rewrite Z.sub_diag, Z.mod_0_l by lia.
      * right. split; [lia|]. replace (i - v) with (i - (v + step) + 1 * step) by lia.
        by rewrite Z_mod_plus_full.
    + intros [?|[Hr Hmod]]; [auto|]. destruct (decide (i = v)) as [->|]; [auto|].
      right. replace (i - v) with (i - (v + step) + 1 * step) in Hmod by lia.
      rewrite Z_mod_plus_full in Hmod. split; [|done].
      destruct (decide (v + step <= i)); [lia|]. exfalso.
      replace (i - (v + step)) with (i - v + (-1) * step) in Hmod by lia.
      rewrite Z_mod_plus_full, Z.mod_small in Hmod by lia. lia.
  - exists mask. split; [done|split; [done|]]. intros i Hi. split; [auto|]. intros [?|[? _]]; [done|lia].
Qed.

(** The loop also ends for the steps that wrap: each turn then moves down. *)
Lemma mask_loop_total (fuel : nat) (mask v hi step : Z) :
  2 ^ 32 - 64 < step < 2 ^ 32 -> 0 <= v -> hi < 64 -> Z.max 0 (v + 1) < Z.of_nat fuel \/ (hi < v /\ (0 < fuel)%nat) ->
  is_Some (mask_loop fuel mask v hi step).
Proof.
  revert mask v. induction fuel as [|fuel IH]; intros mask v Hs Hv Hhi Hf; [lia|].
  cbn [mask_loop]. destruct (Z.leb_spec v hi) as [Hle|Hgt]; [|by eexists].
  apply IH; [done| |done|].
  - apply wrap_in_width. lia.
  - unfold wadd, wrap. destruct (decide (v + step < 2 ^ 32)).
    + right. rewrite Z.mod_small by lia. lia.
    + left. replace (v + step) with (v + step - 2 ^ 32 + 1 * 2 ^ 32) by lia.
      rewrite Z_mod_plus_full, Z.mod_small by lia. lia.
Qed.

Lemma mask_loop_enough (mask v hi step : Z) :
  0 <= v -> hi < 63 -> v <= hi -> 1 <= step < 2 ^ 32 ->
  is_Some (mask_loop loop_fuel mask v hi step).
Proof.
  intros Hv Hhi Hle Hs. unfold loop_fuel. destruct (decide (step <= 2 ^ 32 - 64)).
  - destruct (mask_loop_spec 64 mask v hi step) as (m & Hm & _); unfold small_step; try lia.
    by exists m.
  - apply mask_loop_total; try lia.
Qed.

(** The values one part of a field describes. *)
Definition part_denotes (min max : Z) (part : string) (i : Z) : Prop :=
  exists range step lo hi,
    part_step part = Ok (range, step) /\ part_bounds part range min max = Ok (lo, hi) /\
    lo <= i <= hi /\ (i - lo) mod step = 0.

Definition denotes (min max : Z) (field : string) (i : Z) : Prop :=
  exists part, part ∈ split "," field /\ part_denotes min max part i.

Definition small_steps (field : string) : Prop :=
  forall part range step, part ∈ split "," field ->
    part_step part = Ok (range, step) -> step <= 2 ^ 32 - 64.

Lemma part_step_range (part range : string) (step : Z) :
  part_step part = Ok (range, step) -> 1 <= step < 2 ^ 32.
Proof.
  unfold part_step. destruct (split_once "/" part) as [[r s]|]; [|intros [= <- <-]; lia].
  destruct (parse_u32 s) as [x|] eqn:E; [|done]. apply parse_uint_range in E; [|done].
  destruct (Z.eqb_spec x 0); [done|]. intros [= <- <-].
  unfold u32_max, umax in E. lia.
Qed.

Lemma add_part_Ok (min max mask mask' : Z) (part : string) :
  0 <= min -> max < 63 ->
  (forall range step, part_step part = Ok (range, step) -> step <= 2 ^ 32 - 64) ->
  add_part min max mask part = Ok mask' ->
  (0 <= mask -> 0 <= mask') /\
  (forall i, part_denotes min max part i -> min <= i <= max) /\
  forall i, 0 <= i ->
    (Z.testbit mask' i = true <-> Z.testbit mask i = true \/ part_denotes min max part i).
Proof.
  intros Hmin Hmax Hsmall. unfold add_part.
  destruct (part_step part) as [[range step]|] eqn:Es; [|done].
  destruct (part_bounds part range min max) as [[lo hi]|] eqn:Eb; [|done].
  destruct (Z.ltb_spec lo min); [done|].
  destruct (Z.gtb_spec hi max); [done|].
  destruct (Z.gtb_spec lo hi); [done|]. cbn [orb].
  pose proof (part_step_range _ _ _ Es). specialize (Hsmall _ _ eq_refl).
  destruct (mask_loop_spec loop_fuel mask lo hi step) as (m & -> & Hnn & Hbits);
    unfold small_step, loop_fuel; try lia.
  intros [= <-]. split; [done|split].
  - intros i (r & s & l & h & Hr & Hl & Hi & _). rewrite Es in Hr. simplify_eq.
    rewrite Eb in Hl. simplify_eq. lia.
  - intros i Hi. rewrite Hbits by done. split; (intros [?|Hin]; [by left|right]).
    + exists range, step, lo, hi. tauto.
    + destruct Hin as (r & s & l & h & Hr & Hl & Hin). rewrite Es in Hr. simplify_eq.
      rewrite Eb in Hl. by simplify_eq.
Qed.

Lemma add_parts_Ok (parts : list string) (min max mask mask' : Z) :
  0 <= min -> max < 63 ->
  (forall part range step, part ∈ parts -> part_step part = Ok (range, step) ->
     step <= 2 ^ 32 - 64) ->
  add_parts min max mask parts = Ok mask' ->
  (0 <= mask -> 0 <= mask') /\
  (forall part i, part ∈ parts -> part_denotes min max part i -> min <= i <= max) /\
  forall i, 0 <= i ->
    (Z.testbit mask' i = true <->
     Z.testbit mask i = true \/ exists part, part ∈ parts /\ part_denotes min max part i).
Proof.
  intros Hmin Hmax. revert mask. induction parts as [|p ps IH]; intros mask Hsmall; cbn [add_parts].
  - intros [= <-]. split; [done|]. set_solver.
  - destruct (add_part min max mask p) as [m1|] eqn:E; [|done]. intros Hps.
    apply add_part_Ok in E as (Hn1 & Hr1 & Hb1); try done; [|intros; eapply Hsmall; [left|done]].
    apply IH in Hps as (Hn2 & Hr2 & Hb2); [|intros; eapply Hsmall; [by right|done]].
    split; [auto|split].
    + intros part i [->|Hin]%elem_of_cons; eauto.
    + intros i Hi. rewrite Hb2, Hb1 by done. set_solver.
Qed.

Definition field_star (field : string) : bool :=
  bool_decide (field = "*") || (starts_with "*/" field && negb (contains_byte "," field)).

Lemma parse_field_Ok (field : string) (min max mask : Z) (star : bool) :
  0 <= min -> max < 63 -> small_steps field ->
  parse_field field min max = Ok (mask, star) ->
  star = field_star field /\ 0 <= mask /\
  (forall i, denotes min max field i -> min <= i <= max) /\
  (forall i, 0 <= i -> (Z.testbit mask i = true <-> denotes min max field i)).
Proof.
  intros Hmin Hmax Hsmall. unfold parse_field.
  destruct (add_parts min max 0 (split "," field)) as [m|] eqn:E; [|done].
  destruct (Z.eqb_spec m 0); [done|]. intros [= <- <-].
  apply add_parts_Ok in E as (Hn & Hr & Hb); try done.
  split; [done|split; [by apply Hn|split]].
  - intros i (part & Hin & Hd). eauto.
  - intros i Hi. rewrite Hb by done. rewrite Z.bits_0. unfold denotes. intuition congruence.
Qed.

Lemma hit_testbit (mask i : Z) : 0 <= i -> hit mask i = Z.testbit mask i.
Proof.
  intros Hi. unfold hit. rewrite Z.shiftl_1_l.
  destruct (Z.testbit mask i) eqn:E.
  - apply negb_true_iff, Z.eqb_neq. intros H0.
    assert (Z.testbit (Z.land mask (2 ^ i)) i = true) as Hb
      by (rewrite Z.land_spec, E, Z.pow2_bits_true by done; done).
    by rewrite H0, Z.bits_0 in Hb.
  - apply negb_false_iff, Z.eqb_eq. apply Z.bits_inj. intros j. rewrite Z.bits_0, Z.land_spec.
    destruct (decide (j = i)) as [->|]; [by rewrite E|]. destruct (decide (0 <= j)).
    + rewrite Z.pow2_bits_false by lia. apply andb_false_r.
    + rewrite Z.testbit_neg_r by lia. done.
Qed.

(** Casting a mask to a narrower integer keeps the bits below its width. *)
Lemma hit_wrap (w mask i : Z) : 0 <= i < w -> hit (wrap w mask) i = Z.testbit mask i.
Proof.
  intros Hi. rewrite hit_testbit by lia. unfold wrap. by rewrite Z.mod_pow2_bits_low by lia.
Qed.

(** ** Whole expressions *)

Lemma civil_ranges (days : Z) :
  0 <= days ->
  let '(_, m, d, w) := civil days in 1 <= m <= 12 /\ 1 <= d <= 31 /\ 0 <= w <= 6.
Proof.
  intros Hd.
  destruct (doe_split ((days + 719468) mod 146097)) as (yoe & doy & Hy & Hdoy & Hdoe);
    [apply Z.mod_pos_bound; lia|].
  replace days with ((days + 719468) / 146097 * 146097 + year_start yoe + doy - 719468)
    by (pose proof (Z.div_mod (days + 719468) 146097); lia).
  rewrite civil_date_of by (try apply Z.div_pos; lia).
  unfold date_of. pose proof (year_len_pos yoe).
  pose proof (doy_ok_all doy ltac:(lia)) as Hok. unfold doy_ok in Hok. to_prop.
  split; [unfold cal_month; destruct (Z.ltb_spec (month_of doy) 10); lia|split; [lia|]].
  match goal with |- context [?a mod 7] => pose proof (Z.mod_pos_bound a 7 ltac:(lia)) end. lia.
Qed.

(** When the day-of-month and day-of-week fields fire. *)
Definition day_rule (dom_star dow_star : bool) (dom_hit dow_hit : Prop) : Prop :=
  match dom_star, dow_star with
  | true, true => True
  | false, true => dom_hit
  | true, false => dow_hit
  | false, false => dom_hit \/ dow_hit
  end.

#[export] Instance day_rule_Proper (a b : bool) : Proper (iff ==> iff ==> iff) (day_rule a b).
Proof. intros P P' HP Q Q' HQ. destruct a, b; simpl; tauto. Qed.

(** What [parse] leaves in the masks, as seen by [hit]. *)
Lemma parse_masks (s f0 f1 f2 f3 f4 : string) (c : CronExpr) :
  split_whitespace s = [f0; f1; f2; f3; f4] ->
  Forall small_steps [f0; f1; f2; f3; replace_byte "7" "0" f4] ->
  parse s = Ok c ->
  dom_star c = field_star f2 /\ dow_star c = field_star (replace_byte "7" "0" f4) /\
  (forall i, 0 <= i < 60 -> (hit (minute c) i = true <-> denotes 0 59 f0 i)) /\
  (forall i, 0 <= i < 24 -> (hit (hour c) i = true <-> denotes 0 23 f1 i)) /\
  (forall i, 0 <= i < 32 -> (hit (dom c) i = true <-> denotes 1 31 f2 i)) /\
  (forall i, 0 <= i < 13 -> (hit (month c) i = true <-> denotes 1 12 f3 i)) /\
  (forall i, 0 <= i < 7 -> (hit (dow c) i = true <-> denotes 0 6 (replace_byte "7" "0" f4) i)).
Proof.
  intros Hs Hsmall. unfold parse. rewrite Hs.
  rewrite !Forall_cons in Hsmall. destruct Hsmall as (S0 & S1 & S2 & S3 & S4 & _).
  destruct (parse_field f0 0 59) as [[m0 st0]|] eqn:E0; [|done].
  destruct (parse_field f1 0 23) as [[m1 st1]|] eqn:E1; [|done].
  destruct (parse_field f2 1 31) as [[m2 st2]|] eqn:E2; [|done].
  destruct (parse_field f3 1 12) as [[m3 st3]|] eqn:E3; [|done].
  destruct (parse_field (replace_byte "7" "0" f4) 0 6) as [[m4 st4]|] eqn:E4; [|done].
  intros [= <-]; simpl.
  apply parse_field_Ok in E0 as (_ & _ & _ & B0), E1 as (_ & _ & _ & B1),
    E2 as (-> & _ & _ & B2), E3 as (_ & _ & _ & B3), E4 as (-> & _ & _ & B4); try done; try lia.
  repeat split; try (by intros; apply B0; rewrite <- ?hit_testbit; try lia).
  all: try (rewrite hit_testbit by lia; apply B0; lia).
  all: rewrite hit_wrap by lia; first [apply B1 | apply B2 | apply B3 | apply B4]; lia.
Qed.

(** ** Properties *)

(** The civil-date arithmetic is the Gregorian calendar: day 0 is Thursday
    1970-01-01, and every later day is the calendar successor of the one before
    it (month lengths, leap years, weekday), for every day number. *)
Theorem civil_is_gregorian (n : nat) :
  civil (Z.of_nat n) = Nat.iter n next_day (1970, 1, 1, 4).
Proof.
  induction n as [|n IH]; [reflexivity|].
  cbn [Nat.iter nat_rect]. rewrite Nat2Z.inj_succ. unfold Z.succ. rewrite civil_succ by lia.
  by rewrite IH.
Qed.

(** A field that parses gives the mask of exactly the values its
    comma-separated parts describe (single values, ranges and stars, every
    [step]-th from the lower end), all within the field's bounds, for steps
    that cannot wrap the [u32] loop counter. *)
Theorem parse_field_mask (field : string) (min max mask : Z) (star : bool)
    (Hmin : 0 <= min) (Hmax : max < 63) (Hsteps : small_steps field)
    (Hok : parse_field field min max = Ok (mask, star)) :
  (forall i, 0 <= i -> (Z.testbit mask i = true <-> denotes min max field i)) /\
  (forall i, denotes min max field i -> min <= i <= max) /\ mask <> 0.
Proof.
  assert (mask <> 0) as Hnz.
  { unfold parse_field in Hok. destruct (add_parts _ _ _ _) as [m|]; [|done].
    destruct (Z.eqb_spec m 0); [done|]. by simplify_eq. }
  apply parse_field_Ok in Hok as (_ & _ & Hr & Hb); done.
Qed.

Lemma parse_field_mask_witness :
  Z.testbit 16 4 = true <-> denotes 0 59 "4" 4.
Proof.
  apply (parse_field_mask "4" 0 59 16 false); try lia; [|reflexivity].
  intros part range step Hin Hs. apply list_elem_of_singleton in Hin as ->.
  vm_compute in Hs. injection Hs as _ <-. lia.
Defined.


Definition sample_expr : string := "30 14 * * 5".


Lemma add_part_no_fuel (min max mask : Z) (part : string) :
  0 <= min -> max < 63 -> add_part min max mask part <> Err OutOfFuel.
Proof.
  intros Hmin Hmax. unfold add_part.
  destruct (part_step part) as [[range step]|e] eqn:Es.
  - apply part_step_range in Es.
    destruct (part_bounds part range min max) as [[lo hi]|e] eqn:Eb.
    + destruct (Z.ltb_spec lo min); [done|]. destruct (Z.gtb_spec hi max); [done|].
      destruct (Z.gtb_spec lo hi); [done|]. cbn [orb].
      destruct (mask_loop_enough mask lo hi step) as [m ->]; [lia..|done].
    + unfold part_bounds in Eb. repeat case_match; simplify_eq; done.
  - unfold part_step in Es. repeat case_match; simplify_eq; done.
Qed.

Lemma add_parts_no_fuel (parts : list string) (min max mask : Z) :
  0 <= min -> max < 63 -> add_parts min max mask parts <> Err OutOfFuel.
Proof.
  intros Hmin Hmax. revert mask. induction parts as [|p ps IH]; intros mask; cbn [add_parts]; [done|].
  pose proof (add_part_no_fuel min max mask p Hmin Hmax).
  destruct (add_part min max mask p); [by apply IH|congruence].
Qed.

Lemma parse_field_no_fuel (f : string) (min max : Z) :
  0 <= min -> max < 63 -> parse_field f min max <> Err OutOfFuel.
Proof.
  intros Hmin Hmax. unfold parse_field.
  pose proof (add_parts_no_fuel (split "," f) min max 0 Hmin Hmax).
  destruct (add_parts _ _ _ _) as [m|]; [|congruence]. by destruct (m =? 0)%Z.
Qed.

(** The mask loop always ends within its fuel, also for steps so large that
    the counter wraps, so parsing is total: it never reports running out. *)
Theorem parse_total (s : string) : parse s <> Err OutOfFuel.
Proof.
  unfold parse. destruct (split_whitespace s) as [|f0 [|f1 [|f2 [|f3 [|f4 [|]]]]]]; try done.
  pose proof (parse_field_no_fuel f0 0 59 ltac:(lia) ltac:(lia)).
  pose proof (parse_field_no_fuel f1 0 23 ltac:(lia) ltac:(lia)).
  pose proof (parse_field_no_fuel f2 1 31 ltac:(lia) ltac:(lia)).
  pose proof (parse_field_no_fuel f3 1 12 ltac:(lia) ltac:(lia)).
  pose proof (parse_field_no_fuel (replace_byte "7" "0" f4) 0 6 ltac:(lia) ltac:(lia)).
  destruct (parse_field f0 0 59) as [[? ?]|]; [|congruence].
  destruct (parse_field f1 0 23) as [[? ?]|]; [|congruence].
  destruct (parse_field f2 1 31) as [[? ?]|]; [|congruence].
  destruct (parse_field f3 1 12) as [[? ?]|]; [|congruence].
  destruct (parse_field (replace_byte "7" "0" f4) 0 6) as [[? ?]|]; congruence.
Qed.

(** A step on a starred day-of-month field has no effect: [0 0 */2 * *]
    parses, its mask holds only odd days, and yet it fires at midnight of the
    second of January 1970 as of every other day, because a field that starts
    with a star and a slash counts as unrestricted. *)
Theorem day_step_is_ignored :
  exists c, parse "0 0 */2 * *" = Ok c /\ hit (dom c) 2 = false /\
    forall day, 0 <= day -> matches c (day * 86400) = true.
Proof.
  exists (mkCronExpr 1 1 2863311530 8190 127 true true).
  split; [vm_compute; reflexivity|]. split; [reflexivity|]. intros day Hday.
  unfold matches; cbn [minute hour month dom dow dom_star dow_star].
  replace (day * 86400 / 60) with (day * 1440) by (Z.to_euclidean_division_equations; lia).
  replace ((day * 1440) mod 60) with 0 by (Z.to_euclidean_division_equations; lia).
  replace (day * 1440 / 60) with (day * 24) by (Z.to_euclidean_division_equations; lia).
  replace ((day * 24) mod 24) with 0 by (Z.to_euclidean_division_equations; lia).
  replace (day * 24 / 24) with day by (Z.to_euclidean_division_equations; lia).
  pose proof (civil_ranges day Hday) as Hr. destruct (civil day) as [[[y mo] d] w].
  destruct Hr as (Hmo & _).
  rewrite (hit_testbit 8190 mo) by lia.
  assert (Z.testbit 8190 mo = true) as ->; [|done].
  assert (mo = 1 \/ mo = 2 \/ mo = 3 \/ mo = 4 \/ mo = 5 \/ mo = 6 \/ mo = 7 \/ mo = 8 \/
    mo = 9 \/ mo = 10 \/ mo = 11 \/ mo = 12) as Hc by lia.
  repeat destruct Hc as [->|Hc]; subst; reflexivity.
Qed.

(** Seven is not an alias of Sunday inside ranges and steps: the textual
    replacement of 7 by 0 turns [1-7] into the empty range [1-0] and the step
    [*/7] into a zero step, and both are rejected; [7] alone is Sunday. *)
Theorem seven_only_works_alone :
  parse "0 0 * * 1-7" = Err (OutOfRange "1-0" 0 6) /\
  parse "0 0 * * */7" = Err (ZeroStep "*/0") /\
  parse "0 0 * * 7" = parse "0 0 * * 0".
Proof. split; [|split]; vm_compute; reflexivity. Qed.

(** A step close to 2^32 wraps the loop counter downward and sets values
    below the range: [2-3/4294967295] describes minutes 0, 1 and 2. *)
Theorem huge_step_sets_values_below_range :
  parse_field "2-3/4294967295" 0 59 = Ok (7, false).
Proof. vm_compute. reflexivity. Qed.
