(* ===== verification/Claim.v ===== *)
(** * Claim: leaderless singleton scheduling (crates/rf-core/src/claim.rs)

    [ClaimSet] is the two-level map task -> holder -> record.  [ingest] first
    checks what does not depend on the set ([claim_check]) and then compares
    with the record held; [winner] is the adjudication.  A [HashMap] iterates
    in no particular order: the functions that iterate use the order of
    [map_to_list], and the theorems show what does not depend on it. *)

From Stdlib Require Import ZArith Lia Ascii.
From stdpp Require Import prelude gmap sorting strings list.
From S2P Require Import Prelude Text Hlc Identity Envelope.
Open Scope Z_scope.

Definition SKEW_SLACK_MS : Z := 15000.

Record Claim := mkClaim {
  task : string;
  holder : PublicId;
  acquired : Hlc;
  renewed : Hlc;
  ttl_ms : Z;
  released : bool
}.

#[export] Instance Claim_eq_dec : EqDecision Claim.
Proof. solve_decision. Defined.

#[export] Instance Claim_countable : Countable Claim.
Proof.
  refine (inj_countable'
    (fun c => (task c, holder c, (acquired c, renewed c), (ttl_ms c, released c)))
    (fun p => let '(t, h, (a, r), (l, d)) := p in mkClaim t h a r l d) _).
  by intros [].
Defined.

(** [Claim::expires_at_ms]. *)
Definition expires_at_ms (c : Claim) : Z := sat_add 64 (wall_ms (renewed c)) (ttl_ms c).

(** [Claim::live]. *)
Definition live (c : Claim) (now_ms : Z) : bool :=
  negb (released c) && (now_ms <? sat_add 64 (expires_at_ms c) SKEW_SLACK_MS)%Z.

Record ClaimRecord := mkClaimRecord {
  claim : Claim;
  rec_digest : bytes;
  envelope : Envelope
}.

Inductive Ingest := Changed | Stale.

Inductive ClaimError :=
| EnvelopeErr (e : EnvelopeError)
| HolderMismatch
| RenewedBeforeAcquired
| AcquiredMoved
| ZeroTtl.

Record ClaimSet := mkClaimSet { tasks : gmap string (gmap PublicId ClaimRecord) }.

Definition new_set : ClaimSet := mkClaimSet ∅.

Section claims.
Context {crypto : Crypto} {hex : Hex} {pc : Postcard Claim}.

(** [ClaimSet::make_claim]. *)
Definition make_claim (key : Keypair) (t : string) (now : Hlc) (ttl : Z) : Envelope :=
  seal (mkClaim t (public key) now now ttl false) key.

(** [ClaimSet::renew]. *)
Definition renew (key : Keypair) (prior : Claim) (renewed : Hlc) (released : bool) : Envelope :=
  seal (mkClaim (task prior) (public key) (acquired prior) renewed (ttl_ms prior) released) key.

(** The checks of [ingest] before the set is consulted. *)
Definition claim_check (env : Envelope) : result Claim ClaimError :=
  match open None env with
  | Err e => Err (EnvelopeErr e)
  | Ok c =>
      if negb (bool_decide (Ed (holder c) = signer env)) then Err HolderMismatch
      else if ltb (renewed c) (acquired c) then Err RenewedBeforeAcquired
      else if (ttl_ms c =? 0)%Z then Err ZeroTtl
      else Ok c
  end.

(** [ClaimSet::ingest]. *)
Definition ingest (s : ClaimSet) (env : Envelope) : ClaimSet * result Ingest ClaimError :=
  match claim_check env with
  | Err e => (s, Err e)
  | Ok c =>
      let d := digest env in
      let per_task := default ∅ (tasks s !! task c) in
      let insert :=
        (mkClaimSet (<[task c := <[holder c := mkClaimRecord c d env]> per_task]> (tasks s)),
         Ok Changed) in
      match per_task !! holder c with
      | Some existing =>
          if bool_decide (rec_digest existing = d) then (s, Ok Stale)
          else if bool_decide (acquired c = acquired (claim existing)) then
            if leb (renewed c) (renewed (claim existing)) then (s, Ok Stale) else insert
          else if ltb (acquired (claim existing)) (acquired c) then insert
          else (s, Err AcquiredMoved)
      | None => insert
      end
  end.

Definition ingest_all (s : ClaimSet) (envs : list Envelope) : ClaimSet :=
  foldl (fun s env => (ingest s env).1) s envs.
End claims.

(** The order of adjudication: earliest acquisition, then lowest digest. *)
Definition win_key (r : ClaimRecord) : Hlc * bytes := (acquired (claim r), rec_digest r).

(** [.values()] of the per-task map. *)
Definition values (m : gmap PublicId ClaimRecord) : list ClaimRecord := (map_to_list m).*2.

(** [.filter(live).min_by(..)] over the records in the order given. *)
Definition winner_in (records : list ClaimRecord) (now_ms : Z) : option ClaimRecord :=
  min_by_key win_key (filter (fun r => live (claim r) now_ms = true) records).

(** [ClaimSet::winner]. *)
Definition winner (s : ClaimSet) (t : string) (now_ms : Z) : option ClaimRecord :=
  m ← tasks s !! t; winner_in (values m) now_ms.

(** [ClaimSet::holds]. *)
Definition holds (s : ClaimSet) (t : string) (me : PublicId) (now_ms : Z) : bool :=
  match winner s t now_ms with
  | Some r => bool_decide (holder (claim r) = me)
  | None => false
  end.

(** [ClaimSet::open_for_claim]. *)
Definition open_for_claim (s : ClaimSet) (t : string) (now_ms : Z) : bool :=
  match winner s t now_ms with Some _ => false | None => true end.

(** [ClaimSet::mine]. *)
Definition mine (s : ClaimSet) (t : string) (me : PublicId) : option ClaimRecord :=
  m ← tasks s !! t; m !! me.

(** What [gc] keeps of one record. *)
Definition gc_keep (now_ms horizon_ms : Z) (r : ClaimRecord) : bool :=
  let dead_since := sat_add 64 (expires_at_ms (claim r)) SKEW_SLACK_MS in
  negb (released (claim r)) && (now_ms <? sat_add 64 dead_since horizon_ms)%Z.

Definition gc_task (now_ms horizon_ms : Z) (m : gmap PublicId ClaimRecord)
    : gmap PublicId ClaimRecord :=
  filter (fun kr => gc_keep now_ms horizon_ms kr.2 = true) m.

Definition record_count (s : ClaimSet) : Z :=
  map_fold (fun _ m n => Z.of_nat (size m) + n) 0 (tasks s).

(** [ClaimSet::gc]: the set and how many records it pruned. *)
Definition gc (s : ClaimSet) (now_ms horizon_ms : Z) : ClaimSet * Z :=
  let s' := mkClaimSet (omap (fun m =>
    let m' := gc_task now_ms horizon_ms m in
    if bool_decide (m' = ∅) then None else Some m') (tasks s)) in
  (s', record_count s - record_count s').

(** [ClaimSet::live_envelopes]. *)
Definition live_envelopes (s : ClaimSet) (now_ms : Z) : list Envelope :=
  envelope <$> filter (fun r => live (claim r) now_ms = true)
    (concat (values <$> (map_to_list (tasks s)).*2)).

(** [ClaimSet::task_count]. *)
Definition task_count (s : ClaimSet) : Z := Z.of_nat (size (tasks s)).

(** ** What an ingest leaves for one (task, holder) *)

(** A holder's claims are ordered by acquisition, then renewal. *)
Definition stamp (r : ClaimRecord) : Hlc * Hlc := (acquired (claim r), renewed (claim r)).

Definition pick (o : option ClaimRecord) (r : ClaimRecord) : ClaimRecord :=
  match o with
  | None => r
  | Some e =>
      if bool_decide (rec_digest e = rec_digest r) then e
      else if ltb (stamp e) (stamp r) then r else e
  end.

Lemma stamp_ltb (e r : ClaimRecord) :
  ltb (stamp e) (stamp r) =
  if bool_decide (acquired (claim r) = acquired (claim e))
  then negb (leb (renewed (claim r)) (renewed (claim e)))
  else ltb (acquired (claim e)) (acquired (claim r)).
Proof.
  unfold ltb at 1, stamp. unfold cmp, pair_cmp, then_with; simpl.
  case_bool_decide as Ha.
  - rewrite Ha, cmp_refl. unfold leb. rewrite (cmp_opp (renewed (claim e))).
    by destruct (cmp (renewed (claim e)) (renewed (claim r))).
  - unfold ltb. destruct (cmp (acquired (claim e)) (acquired (claim r))) eqn:E; try done.
    apply cmp_eq_iff in E. congruence.
Qed.

Section ingest_facts.
Context {crypto : Crypto} {hex : Hex} {pc : Postcard Claim}.

Definition record_of (env : Envelope) (c : Claim) : ClaimRecord := mkClaimRecord c (digest env) env.

Lemma mine_insert (s : ClaimSet) (t t' : string) (h h' : PublicId) (r : ClaimRecord) :
  mine (mkClaimSet (<[t := <[h := r]> (default ∅ (tasks s !! t))]> (tasks s))) t' h' =
  if decide (t = t' /\ h = h') then Some r else mine s t' h'.
Proof.
  unfold mine; simpl. rewrite lookup_insert. case_decide as Ht; simpl.
  - subst. rewrite lookup_insert. destruct (decide (h = h')) as [->|Hh].
    + by rewrite decide_True.
    + rewrite decide_False by naive_solver. by destruct (tasks s !! t').
  - by rewrite decide_False by naive_solver.
Qed.

Lemma mine_default (s : ClaimSet) (t : string) (h : PublicId) :
  default ∅ (tasks s !! t) !! h = mine s t h.
Proof. unfold mine. by destruct (tasks s !! t). Qed.

Lemma ingest_mine (s : ClaimSet) (env : Envelope) (t : string) (h : PublicId) :
  mine (ingest s env).1 t h =
  match claim_check env with
  | Err _ => mine s t h
  | Ok c =>
      if decide (task c = t /\ holder c = h)
      then Some (pick (mine s t h) (record_of env c)) else mine s t h
  end.
Proof.
  unfold ingest. destruct (claim_check env) as [c|e]; [|done].
  rewrite mine_default. destruct (mine s (task c) (holder c)) as [x|] eqn:Ex.
  - destruct (decide (task c = t /\ holder c = h)) as [[<- <-]|Hn].
    + rewrite Ex. unfold pick, record_of. rewrite stamp_ltb; simpl.
      case_bool_decide; [exact Ex|].
      case_bool_decide.
      * destruct (leb (renewed c) (renewed (claim x))); simpl; [exact Ex|].
        rewrite mine_insert. by rewrite decide_True.
      * destruct (ltb _ _); simpl; [|exact Ex]. rewrite mine_insert. by rewrite decide_True.
    + repeat case_match; simpl; try done; rewrite mine_insert; by rewrite decide_False.
  - simpl. rewrite mine_insert. case_decide as Hd; [|done]. destruct Hd as [<- <-]. by rewrite Ex.
Qed.

(** The records offered for a (task, holder): the one held and the valid
  envelopes. *)
Definition offered (s : ClaimSet) (envs : list Envelope) (t : string) (h : PublicId)
  (r : ClaimRecord) : Prop :=
  mine s t h = Some r \/
  exists env c, env ∈ envs /\ claim_check env = Ok c /\ task c = t /\ holder c = h /\
    r = record_of env c.

(** Records offered for one (task, holder) are told apart by stamp and digest. *)
Definition well_stamped (s : ClaimSet) (envs : list Envelope) : Prop :=
  forall t h r1 r2, offered s envs t h r1 -> offered s envs t h r2 ->
    stamp r1 = stamp r2 \/ rec_digest r1 = rec_digest r2 -> r1 = r2.

Lemma offered_cons (s : ClaimSet) (env : Envelope) (envs : list Envelope) t h r :
  offered (ingest s env).1 envs t h r -> offered s (env :: envs) t h r.
Proof.
  unfold offered. intros [Hm|(e & c & Hin & Hr)].
  - rewrite ingest_mine in Hm. destruct (claim_check env) as [c|] eqn:Ec; [|by left].
    case_decide as Hd; [|by left]. injection Hm as Hp. unfold pick in Hp.
    destruct (mine s t h) as [x|] eqn:Ex.
    + repeat case_match; subst; first [by left | right; exists env, c; set_solver].
    + subst. right. exists env, c. set_solver.
  - right. exists e, c. set_solver.
Qed.

Lemma ingest_all_mine_offered (envs : list Envelope) (s : ClaimSet) t h r :
  mine (ingest_all s envs) t h = Some r -> offered s envs t h r.
Proof.
  revert s. induction envs as [|env envs IH]; intros s; simpl; [by left|].
  intros Hm%IH. by apply offered_cons.
Qed.

Lemma ingest_all_mine_max (envs : list Envelope) (s : ClaimSet) t h r :
  well_stamped s envs -> offered s envs t h r ->
  exists r', mine (ingest_all s envs) t h = Some r' /\ stamp r ⪯ stamp r'.
Proof.
  revert s r. induction envs as [|env envs IH]; intros s r Hws Hr; simpl.
  - destruct Hr as [Hr|(? & ? & ? & _)]; [|set_solver]. exists r. split; [done|apply le_of_refl].
  - assert (exists r1, offered (ingest s env).1 envs t h r1 /\ stamp r ⪯ stamp r1) as (r1 & Ho & Hle).
    { destruct Hr as [Hr|(e & c & [->|Hin]%elem_of_cons & Hc & Ht & Hh & ->)].
      - exists (match claim_check env with
                | Ok c => if decide (task c = t /\ holder c = h) then pick (Some r) (record_of env c) else r
                | Err _ => r end). unfold offered. rewrite ingest_mine, Hr. split.
        + left. by repeat case_match.
        + destruct (claim_check env); [|apply le_of_refl]. case_decide; [|apply le_of_refl].
          unfold pick. case_bool_decide; [apply le_of_refl|].
          destruct (ltb _ _) eqn:E; [|apply le_of_refl]. apply lt_of_le. by apply ltb_lt.
      - exists (pick (mine s t h) (record_of env c)). split.
        + left. rewrite ingest_mine, Hc. by rewrite decide_True.
        + destruct (mine s t h) as [x|] eqn:Ex; simpl; [|apply le_of_refl].
          case_bool_decide as Hd.
          * assert (x = record_of env c) as ->; [|apply le_of_refl].
            apply (Hws t h); [by left| |by right]. right. exists env, c. set_solver.
          * destruct (ltb _ _) eqn:E; [apply le_of_refl|]. by apply ltb_ge in E.
      - exists (record_of e c). split; [|apply le_of_refl]. right. exists e, c. set_solver. }
    destruct (IH (ingest s env).1 r1) as (r' & Hm & Hle'); [|done|].
    + intros t' h' x y Hx%offered_cons Hy%offered_cons. by apply (Hws t' h').
    + exists r'. split; [done|]. eapply le_of_trans; done.
Qed.

(** No task keeps an empty map, so equal records mean equal sets. *)
Definition no_empty (s : ClaimSet) : Prop := forall t m, tasks s !! t = Some m -> m <> ∅.

Lemma ingest_no_empty (s : ClaimSet) (env : Envelope) : no_empty s -> no_empty (ingest s env).1.
Proof.
  intros Hs. unfold ingest. destruct (claim_check env) as [c|]; [|done].
  assert (forall r, no_empty (mkClaimSet
    (<[task c := <[holder c := r]> (default ∅ (tasks s !! task c))]> (tasks s)))) as Hins.
  { intros r t m; simpl. destruct (decide (task c = t)) as [->|Ht].
    - rewrite lookup_insert_eq. intros Heq%(inj Some). subst m. apply insert_non_empty.
    - rewrite lookup_insert_ne by done. apply Hs. }
  repeat case_match; first [exact Hs | apply Hins].
Qed.

Lemma ingest_all_no_empty (envs : list Envelope) (s : ClaimSet) :
  no_empty s -> no_empty (ingest_all s envs).
Proof.
  revert s. induction envs as [|env envs IH]; intros s Hs; simpl; [done|].
  by apply IH, ingest_no_empty.
Qed.

Lemma mine_ext (s1 s2 : ClaimSet) :
  no_empty s1 -> no_empty s2 -> (forall t h, mine s1 t h = mine s2 t h) -> s1 = s2.
Proof.
  destruct s1 as [m1], s2 as [m2]. unfold no_empty, mine; simpl. intros N1 N2 Heq. f_equal.
  apply map_eq. intros t. specialize (Heq t). specialize (N1 t). specialize (N2 t).
  destruct (m1 !! t) as [x|] eqn:E1, (m2 !! t) as [y|] eqn:E2; simpl in *.
  - f_equal. by apply map_eq.
  - exfalso. apply (N1 x); [done|]. apply map_eq. intros h. rewrite lookup_empty. apply Heq.
  - exfalso. apply (N2 y); [done|]. apply map_eq. intros h. rewrite lookup_empty. symmetry. apply Heq.
  - done.
Qed.
End ingest_facts.

(** ** Liveness and adjudication *)

Lemma sat_add_ge (a b : Z) : a <= u64_max -> 0 <= b -> a <= sat_add 64 a b.
Proof. unfold sat_add, u64_max. lia. Qed.

Lemma sat_add_max (a b : Z) : sat_add 64 a b <= u64_max.
Proof. unfold sat_add, u64_max. lia. Qed.

(** A record live at some later time is one [gc] keeps now. *)
Lemma live_gc_keep (r : ClaimRecord) (now_ms horizon_ms t : Z) :
  0 <= horizon_ms -> now_ms <= t ->
  live (claim r) t = true -> gc_keep now_ms horizon_ms r = true.
Proof.
  intros Hh Ht. unfold live, gc_keep. intros Hl. to_prop.
  apply andb_true_iff. split; [by apply negb_true_iff|]. apply Z.ltb_lt.
  pose proof (sat_add_ge (sat_add 64 (expires_at_ms (claim r)) SKEW_SLACK_MS) horizon_ms
    (sat_add_max _ _) Hh). lia.
Qed.

Lemma values_elem (m : gmap PublicId ClaimRecord) (r : ClaimRecord) :
  r ∈ values m <-> exists h, m !! h = Some r.
Proof.
  unfold values. rewrite list_elem_of_fmap. split.
  - intros ([h r'] & -> & Hin). apply elem_of_map_to_list in Hin. by exists h.
  - intros (h & Hh). exists (h, r). split; [done|]. by apply elem_of_map_to_list.
Qed.

Lemma values_filter (P : PublicId * ClaimRecord -> Prop) `{!forall x, Decision (P x)}
    (Q : ClaimRecord -> Prop) `{!forall x, Decision (Q x)} (m : gmap PublicId ClaimRecord) :
  (forall h r, Q r -> P (h, r)) ->
  filter Q (values (filter P m)) ≡ₚ filter Q (values m).
Proof.
  intros HPQ. unfold values.
  assert (forall l : list (PublicId * ClaimRecord),
    filter Q (filter P l).*2 = filter Q l.*2) as Hl.
  { induction l as [|[h r] l IH]; [done|]. rewrite filter_cons. destruct (decide (P (h, r))) as [|Hn].
    - cbn [fmap list_fmap]. rewrite !filter_cons. destruct (decide (Q (h, r).2)); by rewrite IH.
    - cbn [fmap list_fmap]. rewrite (filter_cons_False Q) by (intros HQ; by apply Hn, HPQ). done. }
  rewrite <- (Hl (map_to_list m)). apply filter_Permutation, fmap_Permutation.
  apply NoDup_Permutation.
  - apply NoDup_map_to_list.
  - apply NoDup_filter, NoDup_map_to_list.
  - intros [h r]. rewrite list_elem_of_filter, !elem_of_map_to_list, map_lookup_filter_Some. naive_solver.
Qed.

Lemma winner_Some (s : ClaimSet) (t : string) (now_ms : Z) (r : ClaimRecord) :
  winner s t now_ms = Some r ->
  (exists h, mine s t h = Some r) /\ live (claim r) now_ms = true /\
  forall h r', mine s t h = Some r' -> live (claim r') now_ms = true -> win_key r ⪯ win_key r'.
Proof.
  unfold winner, winner_in, mine. destruct (tasks s !! t) as [m|]; simpl; [|done].
  intros [Hin Hle]%min_by_key_Some. apply list_elem_of_filter in Hin as [Hl Hin].
  apply values_elem in Hin. split; [done|split; [done|]].
  intros h r' Hr' Hl'. apply Hle. apply list_elem_of_filter. split; [done|]. apply values_elem. eauto.
Qed.

Lemma winner_None (s : ClaimSet) (t : string) (now_ms : Z) :
  winner s t now_ms = None <->
  forall h r, mine s t h = Some r -> live (claim r) now_ms = false.
Proof.
  unfold winner, winner_in, mine. destruct (tasks s !! t) as [m|]; simpl; [|naive_solver].
  rewrite min_by_key_None. split.
  - intros Hf h r Hr. apply not_true_iff_false. intros Hl.
    assert (r ∈ filter (fun r => live (claim r) now_ms = true) (values m)) as Hin.
    { apply list_elem_of_filter. split; [done|]. apply values_elem. eauto. }
    rewrite Hf in Hin. set_solver.
  - intros Hall. apply filter_none. intros r [h Hh]%values_elem Hl.
    rewrite (Hall h r Hh) in Hl. done.
Qed.

(** ** Properties *)

(** Claim sets converge: ingesting the same envelopes in any order, with
    any repetition-free reordering, gives the same set, when one holder's
    claims on one task differ in (acquired, renewed) and in digest. *)
Theorem ingest_order_irrelevant {crypto : Crypto} {hex : Hex} {pc : Postcard Claim}
    (s : ClaimSet) (l1 l2 : list Envelope)
    (Hs : no_empty s) (Hws : well_stamped s l1) (Hperm : l1 ≡ₚ l2) :
  ingest_all s l1 = ingest_all s l2.
Proof.
  assert (forall t h r, offered s l2 t h r <-> offered s l1 t h r) as Hoff.
  { intros t h r. unfold offered. by setoid_rewrite Hperm. }
  assert (well_stamped s l2) as Hws2.
  { intros t h r1 r2 H1 H2. apply (Hws t h); by apply Hoff. }
  apply mine_ext; [by apply ingest_all_no_empty..|]. intros t h.
  destruct (mine (ingest_all s l1) t h) as [r1|] eqn:E1, (mine (ingest_all s l2) t h) as [r2|] eqn:E2.
  - apply ingest_all_mine_offered in E1 as O1. apply ingest_all_mine_offered in E2 as O2.
    destruct (ingest_all_mine_max l1 s t h r2 Hws) as (r1' & E1' & Hle1); [by apply Hoff|].
    destruct (ingest_all_mine_max l2 s t h r1 Hws2) as (r2' & E2' & Hle2); [by apply Hoff|].
    rewrite E1 in E1'. rewrite E2 in E2'. simplify_eq. f_equal.
    apply (Hws t h); [done|by apply Hoff|]. left. by apply le_of_antisym.
  - apply ingest_all_mine_offered in E1 as O1.
    destruct (ingest_all_mine_max l2 s t h r1 Hws2) as (? & E2' & _); [by apply Hoff|congruence].
  - apply ingest_all_mine_offered in E2 as O2.
    destruct (ingest_all_mine_max l1 s t h r2 Hws) as (? & E1' & _); [by apply Hoff|congruence].
  - done.
Qed.

(** The adjudication picks a live claim, and no live claim on the task was
    acquired earlier (nor at the same instant with a lower digest); it picks
    none exactly when no claim is live, which is when the task is open. *)
Theorem winner_is_earliest_live (s : ClaimSet) (t : string) (now_ms : Z) :
  match winner s t now_ms with
  | Some r =>
      (exists h, mine s t h = Some r) /\ live (claim r) now_ms = true /\
      holds s t (holder (claim r)) now_ms = true /\ open_for_claim s t now_ms = false /\
      forall h r', mine s t h = Some r' -> live (claim r') now_ms = true ->
        win_key r ⪯ win_key r'
  | None =>
      (forall h r, mine s t h = Some r -> live (claim r) now_ms = false) /\
      open_for_claim s t now_ms = true /\ forall me, holds s t me now_ms = false
  end.
Proof.
  unfold holds, open_for_claim. destruct (winner s t now_ms) as [r|] eqn:E.
  - apply winner_Some in E as (H1 & H2 & H3). rewrite bool_decide_true by done. done.
  - pose proof (proj1 (winner_None _ _ _) E). done.
Qed.

(** Every node that knows the same records adjudicates alike, whatever
    order its hash map iterates in: the (acquired, digest) of the winner is the
    same for every order of the records. *)
Theorem winner_iteration_order (records1 records2 : list ClaimRecord) (now_ms : Z)
    (Hperm : records1 ≡ₚ records2) :
  win_key <$> winner_in records1 now_ms = win_key <$> winner_in records2 now_ms.
Proof. unfold winner_in. apply min_by_key_perm. by rewrite Hperm. Qed.

(** [gc] never changes an adjudication: at any time from [now_ms] on the
    winner of every task has the same acquisition and digest as before. *)
Theorem gc_preserves_winner (s : ClaimSet) (now_ms horizon_ms t : Z) (tk : string)
    (Hh : 0 <= horizon_ms) (Ht : now_ms <= t) :
  win_key <$> winner (gc s now_ms horizon_ms).1 tk t = win_key <$> winner s tk t.
Proof.
  unfold winner, gc; simpl. rewrite lookup_omap.
  destruct (tasks s !! tk) as [m|]; simpl; [|done].
  assert (win_key <$> winner_in (values (gc_task now_ms horizon_ms m)) t =
          win_key <$> winner_in (values m) t) as Heq.
  { unfold winner_in. apply min_by_key_perm. unfold gc_task. apply values_filter.
    intros h r Hl. by apply (live_gc_keep r now_ms horizon_ms t). }
  case_bool_decide as He; simpl; [|done]. rewrite <- Heq, He. done.
Qed.

Definition sample_record (who w : Z) : ClaimRecord :=
  mkClaimRecord (mkClaim "t" (mkPublicId [who]) (mkHlc w 0) (mkHlc w 0) 1000 false) [who]
    (mkEnvelope [] (Ed (mkPublicId [who])) []).

Lemma winner_iteration_order_witness :
  win_key <$> winner_in [sample_record 1 5; sample_record 2 3] 10 =
  win_key <$> winner_in [sample_record 2 3; sample_record 1 5] 10.
Proof. apply winner_iteration_order. apply Permutation_swap. Defined.

Lemma gc_preserves_winner_witness :
  let s := mkClaimSet {["t" := {[mkPublicId [1] := sample_record 1 5]}]} in
  win_key <$> winner (gc s 10 100).1 "t" 20 = win_key <$> winner s "t" 20.
Proof. apply gc_preserves_winner; lia. Defined.

Definition sample_claim (seed w : Z) : Envelope :=
  make_claim (crypto := Sample.crypto) (pc := SampleCodec.codec Claim)
    (Sample.keypair [seed]) "t" (mkHlc w 0) 1000.

Lemma ingest_order_irrelevant_witness :
  let ingest_all := ingest_all (crypto := Sample.crypto) (hex := Sample.hex)
    (pc := SampleCodec.codec Claim) in
  ingest_all new_set [sample_claim 1 5; sample_claim 2 3] =
  ingest_all new_set [sample_claim 2 3; sample_claim 1 5].
Proof.
  apply (ingest_order_irrelevant (crypto := Sample.crypto) (hex := Sample.hex)
    (pc := SampleCodec.codec Claim)).
  - intros t m Hm. cbn in Hm. rewrite lookup_empty in Hm. discriminate.
  - intros t h r1 r2 [H1|(e1 & c1 & I1 & C1 & T1 & D1 & ->)] [H2|(e2 & c2 & I2 & C2 & T2 & D2 & ->)] _;
      [vm_compute in H1; discriminate..|vm_compute in H2; discriminate|].
    apply elem_of_cons in I1 as [->|[->|I1]%elem_of_cons];
      [| |by apply not_elem_of_nil in I1];
    (apply elem_of_cons in I2 as [->|[->|I2]%elem_of_cons];
      [| |by apply not_elem_of_nil in I2]);
    vm_compute in C1; vm_compute in C2; injection C1 as <-; injection C2 as <-;
    first [reflexivity | exfalso; rewrite <- D1 in D2; vm_compute in D2; discriminate].
  - apply Permutation_swap.
Defined.

(** A claim that was released can come back: [gc] drops a released record at
    once, whatever the horizon, so the holder's own earlier claim, delivered
    again by a peer that missed the release, is accepted as new and the holder
    holds the task again. *)
Theorem released_claim_resurrected {crypto : Crypto} {crypto_ok : CryptoOk} {hex : Hex}
    {pc : Postcard Claim} {pc_ok : PostcardOk Claim}
    (key : Keypair) (t : string) (h1 h2 : Hlc) (ttl now_ms horizon_ms : Z)
    (Hlater : h1 ≺ h2) (Httl : ttl <> 0)
    (Hlive : live (mkClaim t (public key) h1 h1 ttl false) now_ms = true) :
  let first := mkClaim t (public key) h1 h1 ttl false in
  let claim_env := make_claim key t h1 ttl in
  let release_env := renew key first h2 true in
  digest claim_env <> digest release_env ->
  let s := ingest_all new_set [claim_env; release_env] in
  let s' := (gc s now_ms horizon_ms).1 in
  open_for_claim s t now_ms = true /\ mine s' t (public key) = None /\
  (ingest s' claim_env).2 = Ok Changed /\
  holds (ingest s' claim_env).1 t (public key) now_ms = true.
Proof.
  intros first claim_env release_env Hdig s s'.
  set (second := mkClaim t (public key) h1 h2 ttl true).
  assert (claim_check claim_env = Ok first) as C1.
  { unfold claim_check, claim_env, make_claim, seal. rewrite open_seal by done. simpl.
    rewrite bool_decide_true by done. simpl.
    rewrite (proj2 (ltb_ge h1 h1)) by apply le_of_refl.
    destruct (Z.eqb_spec ttl 0); done. }
  assert (claim_check release_env = Ok second) as C2.
  { unfold claim_check, release_env, renew, seal. rewrite open_seal by done. simpl.
    rewrite bool_decide_true by done. simpl.
    rewrite (proj2 (ltb_ge h2 h1)) by by apply lt_of_le.
    destruct (Z.eqb_spec ttl 0); done. }
  assert (tasks s = {[t := {[public key := record_of release_env second]}]}) as Hs.
  { unfold s, ingest_all; simpl. unfold ingest at 2. rewrite C1; simpl.
    rewrite lookup_empty; simpl. rewrite lookup_empty; simpl.
    unfold ingest. rewrite C2; simpl. rewrite lookup_insert_eq; simpl.
    rewrite lookup_insert_eq. rewrite bool_decide_false by done.
    rewrite bool_decide_true by done. rewrite (proj2 (leb_gt h2 h1)) by done. simpl.
    by rewrite !insert_insert_eq. }
  assert (tasks s' = ∅) as Hs'.
  { unfold s', gc; simpl. rewrite Hs. apply map_eq. intros k. rewrite lookup_omap, lookup_empty.
    destruct (decide (k = t)) as [->|]; [|by rewrite lookup_singleton_ne].
    rewrite lookup_singleton_eq; simpl. rewrite bool_decide_true; [done|].
    unfold gc_task. rewrite map_filter_singleton_False; [done|]. done. }
  assert (tasks (ingest s' claim_env).1 = {[t := {[public key := record_of claim_env first]}]}
    /\ (ingest s' claim_env).2 = Ok Changed) as [Hs'' ?].
  { unfold ingest. rewrite C1, Hs'; simpl. rewrite lookup_empty; simpl. by rewrite lookup_empty. }
  split; [|split; [|split; [done|]]].
  - unfold open_for_claim, winner. rewrite Hs, lookup_singleton_eq; simpl.
    unfold winner_in, values. rewrite map_to_list_singleton. done.
  - unfold mine. by rewrite Hs', lookup_empty.
  - unfold holds, winner. rewrite Hs'', lookup_singleton_eq; simpl.
    unfold winner_in, values. rewrite map_to_list_singleton; simpl.
    rewrite filter_cons_True by done. simpl. by rewrite bool_decide_true.
Qed.

Lemma released_claim_resurrected_witness :
  let key := Sample.keypair [1] in
  let claim_env := sample_claim 1 5 in
  let release_env := renew (crypto := Sample.crypto) (pc := SampleCodec.codec Claim) key
    (mkClaim "t" (public key) (mkHlc 5 0) (mkHlc 5 0) 1000 false) (mkHlc 6 0) true in
  let s := ingest_all (crypto := Sample.crypto) (hex := Sample.hex) (pc := SampleCodec.codec Claim)
    new_set [claim_env; release_env] in
  let s' := (gc s 10 1000000).1 in
  holds (ingest (crypto := Sample.crypto) (hex := Sample.hex) (pc := SampleCodec.codec Claim)
    s' claim_env).1 "t" (public key) 10 = true.
Proof.
  apply (released_claim_resurrected (crypto := Sample.crypto) (crypto_ok := Sample.crypto_ok)
    (hex := Sample.hex) (pc := SampleCodec.codec Claim) (pc_ok := SampleCodec.codec_ok Claim)
    (Sample.keypair [1]) "t" (mkHlc 5 0) (mkHlc 6 0) 1000 10 1000000).
  - vm_compute. reflexivity.
  - lia.
  - vm_compute. reflexivity.
  - vm_compute. discriminate.
Defined.
