(* ===== verification/Manifest.v ===== *)
(** * Manifest: operator-signed worker manifests (crates/rf-core/src/manifest.rs)

    [WorkerManifest] with [validate], the deploy CRDT [ManifestSet] with
    [ingest], the hostname routing table, the anti-entropy digest and the
    offline audit [verify_chain].  [HashMap] iteration is the order of
    [map_to_list]; theorems show what does not depend on it. *)

From Stdlib Require Import ZArith Lia Ascii.
From stdpp Require Import prelude gmap sorting strings list.
From S2P Require Import Prelude Text Identity Envelope Cron.
Open Scope Z_scope.

Inductive ModuleKind := EsModule | CommonJs | Wasm | TextModule | DataModule.

Record Module_ := mkModule {
  mod_path : string;
  mod_sha256 : bytes;
  mod_kind : ModuleKind;
  mod_size : Z
}.

Record AssetFile := mkAssetFile {
  asset_path : string;
  asset_sha256 : bytes;
  asset_size : Z
}.

Record WorkerManifest := mkManifest {
  name : string;
  version : Z;
  prev : option bytes;
  deleted : bool;
  main : string;
  modules : list Module_;
  assets : list AssetFile;
  hostnames : list string;
  env : gmap string string;
  kv_bindings : gmap string string;
  crons : list string;
  compatibility_date : string
}.

Inductive ManifestError :=
| EnvelopeFailed (e : EnvelopeError)
| NotOperator
| BadName
| MainNotInModules
| BadCron (c : string)
| BadHostname (h : string)
| BadPath (p : string)
| DuplicatePath (p : string)
| ChainBroken.

Definition label_byte (b : ascii) : bool :=
  is_ascii_lowercase b || is_ascii_digit b || bool_decide (b = "-"%char).

(** [valid_name]. *)
Definition valid_name (n : string) : bool :=
  negb (is_empty n) && (slen n <=? 63)%Z && negb (starts_with_byte "-" n)
  && negb (ends_with_byte "-" n) && all_bytes label_byte n.

Definition valid_label (label : string) : bool :=
  negb (is_empty label) && (slen label <=? 63)%Z && negb (starts_with_byte "-" label)
  && negb (ends_with_byte "-" label) && all_bytes label_byte label.

(** [valid_hostname]. *)
Definition valid_hostname (h : string) : bool :=
  negb (is_empty h) && (slen h <=? 253)%Z && negb (starts_with_byte "." h)
  && negb (ends_with_byte "." h) && forallb valid_label (split "." h).

(** [valid_bundle_path]. *)
Definition valid_bundle_path (path : string) : bool :=
  negb (is_empty path) && (slen path <=? 1024)%Z && negb (starts_with_byte "/" path)
  && negb (contains_byte "\" path) && all_bytes (fun b => negb (is_ascii_control b)) path
  && forallb (fun part => negb (is_empty part) && negb (bool_decide (part = "."))
                          && negb (bool_decide (part = ".."))) (split "/" path).

(** The loop over bundle paths, with the [HashSet] of paths seen. *)
Fixpoint check_paths (seen : gset string) (paths : list string) : result unit ManifestError :=
  match paths with
  | [] => Ok tt
  | p :: ps =>
      if negb (valid_bundle_path p) then Err (BadPath p)
      else if bool_decide (p ∈ seen) then Err (DuplicatePath p)
      else check_paths ({[p]} ∪ seen) ps
  end.

Fixpoint check_crons (cs : list string) : result unit ManifestError :=
  match cs with
  | [] => Ok tt
  | c :: cs' => if negb (is_ok (parse c)) then Err (BadCron c) else check_crons cs'
  end.

Fixpoint check_hostnames (hs : list string) : result unit ManifestError :=
  match hs with
  | [] => Ok tt
  | h :: hs' => if negb (valid_hostname h) then Err (BadHostname h) else check_hostnames hs'
  end.

Definition bundle_paths (m : WorkerManifest) : list string :=
  (mod_path <$> modules m) ++ (asset_path <$> assets m).

(** [WorkerManifest::validate]. *)
Definition validate (m : WorkerManifest) : result unit ManifestError :=
  if negb (valid_name (name m)) then Err BadName
  else if negb (Bool.eqb (version m =? 1)%Z (bool_decide (prev m = None))) then Err ChainBroken
  else if deleted m then Ok tt
  else if negb (is_empty (main m))
          && negb (existsb (fun md => bool_decide (mod_path md = main m)) (modules m))
  then Err MainNotInModules
  else
    let? _ := check_paths ∅ (bundle_paths m) in
    let? _ := check_crons (crons m) in
    check_hostnames (hostnames m).

(** [WorkerManifest::blob_refs]. *)
Definition blob_refs (m : WorkerManifest) : list bytes :=
  (mod_sha256 <$> modules m) ++ (asset_sha256 <$> assets m).

Record ManifestRecord := mkRecord {
  manifest : WorkerManifest;
  rec_digest : bytes;
  rec_envelope : Envelope
}.

Inductive ManifestIngest := Changed | Stale.

Record ManifestSet := mkManifestSet {
  operator : SignerId;
  workers : gmap string ManifestRecord
}.

Definition new_set (op : SignerId) : ManifestSet := mkManifestSet op ∅.

Section manifests.
Context {crypto : Crypto} {hex : Hex} {pc : Postcard WorkerManifest}.

(** Opening with the operator pinned, [BadSignature] read as [NotOperator]. *)
Definition open_manifest (op : SignerId) (e : Envelope) : result WorkerManifest ManifestError :=
  match open (Some op) e with
  | Ok m => Ok m
  | Err BadSignature => Err NotOperator
  | Err other => Err (EnvelopeFailed other)
  end.

(** [ManifestSet::ingest]. *)
Definition ingest (s : ManifestSet) (e : Envelope)
  : ManifestSet * result ManifestIngest ManifestError :=
  match open_manifest (operator s) e with
  | Err err => (s, Err err)
  | Ok m =>
      match validate m with
      | Err err => (s, Err err)
      | Ok _ =>
          let d := digest e in
          let insert :=
            (mkManifestSet (operator s) (<[name m := mkRecord m d e]> (workers s)), Ok Changed) in
          match workers s !! name m with
          | None => insert
          | Some existing =>
              let newer :=
                (version m >? version (manifest existing))%Z
                || ((version m =? version (manifest existing))%Z
                    && ltb d (rec_digest existing)) in
              if negb newer then (s, Ok Stale)
              else if (version m =? wadd 64 (version (manifest existing)) 1)%Z
                      && negb (bool_decide (prev m = Some (rec_digest existing)))
              then (s, Err ChainBroken)
              else insert
          end
      end
  end.

Definition ingest_all (s : ManifestSet) (envs : list Envelope) : ManifestSet :=
  foldl (fun s e => (ingest s e).1) s envs.
End manifests.

(** [ManifestSet::get], [all] and [live]. *)
Definition get (s : ManifestSet) (n : string) : option ManifestRecord := workers s !! n.
Definition all (s : ManifestSet) : list ManifestRecord := (map_to_list (workers s)).*2.
Definition live (s : ManifestSet) : list ManifestRecord :=
  filter (fun r => deleted (manifest r) = false) (all s).

(** One turn of the inner loop of [routes]: a contested hostname goes to the
    lower digest. *)
Definition add_route (r : ManifestRecord) (by_host : gmap string ManifestRecord) (h : string)
    : gmap string ManifestRecord :=
  <[h := match by_host !! h with
         | Some cur => if ltb (rec_digest r) (rec_digest cur) then r else cur
         | None => r
         end]> by_host.

Definition add_routes (by_host : gmap string ManifestRecord) (r : ManifestRecord)
    : gmap string ManifestRecord :=
  foldl (add_route r) by_host (hostnames (manifest r)).

(** [routes] over the live records in the order given. *)
Definition routes_in (records : list ManifestRecord) : gmap string string :=
  (fun r => name (manifest r)) <$> foldl add_routes ∅ records.

(** [ManifestSet::routes]. *)
Definition routes (s : ManifestSet) : gmap string string := routes_in (live s).

Section digests.
Context {crypto : Crypto} {hex : Hex} {pc : Postcard WorkerManifest}.

(** [ManifestSet::digest]: over the worker names in order. *)
Definition set_digest (s : ManifestSet) : bytes :=
  let names := merge_sort le_of ((map_to_list (workers s)).*1) in
  sha256 (concat ((fun n =>
    match workers s !! n with
    | Some r => as_bytes n ++ u64_le (version (manifest r)) ++ rec_digest r
    | None => []
    end) <$> names)).

(** [ManifestSet::len] and [is_empty]. *)
Definition set_len (s : ManifestSet) : Z := Z.of_nat (size (workers s)).
Definition set_is_empty (s : ManifestSet) : bool := bool_decide (workers s = ∅).

(** [verify_chain]: [last] is the last manifest of [out], [prev_digest] the
  digest of its envelope. *)
Fixpoint verify_from (op : SignerId) (last : option WorkerManifest) (prev_digest : option bytes)
  (envs : list Envelope) : result (list WorkerManifest) ManifestError :=
  match envs with
  | [] => Ok []
  | e :: envs' =>
      let? m := open_manifest op e in
      let broken :=
        match last with
        | Some l =>
            negb (version m =? wadd 64 (version l) 1)%Z || negb (bool_decide (name m = name l))
            || negb (bool_decide (prev m = prev_digest))
        | None => (version m =? 1)%Z && negb (bool_decide (prev m = None))
        end in
      if broken then Err ChainBroken
      else
        let? out := verify_from op (Some m) (Some (digest e)) envs' in
        Ok (m :: out)
  end.

Definition verify_chain (envs : list Envelope) (op : SignerId)
  : result (list WorkerManifest) ManifestError :=
  verify_from op None None envs.
End digests.

(** ** What a validated bundle guarantees *)

Lemma split_cons_ne (c a : ascii) (s : string) :
  a <> c -> exists w ws, split c s = w :: ws /\ split c (String a s) = String a w :: ws.
Proof.
  intros Hne. cbn [split]. rewrite bool_decide_false by done.
  pose proof (split_nonempty c s) as Hs. destruct (split c s) as [|w ws]; [done|].
  by exists w, ws.
Qed.

Lemma split_inj (c : ascii) (s t : string) : split c s = split c t -> s = t.
Proof.
  revert t. induction s as [|a s IH]; intros [|b t]; [done|..].
  - cbn [split]. case_bool_decide.
    + intros E. destruct (split_nonempty c t). congruence.
    + destruct (split c t); discriminate.
  - cbn [split]. case_bool_decide.
    + intros E. destruct (split_nonempty c s). congruence.
    + destruct (split c s); discriminate.
  - destruct (decide (a = c)) as [->|Ha], (decide (b = c)) as [->|Hb].
    + cbn [split]. rewrite !bool_decide_true by done. intros E. f_equal. apply IH. congruence.
    + destruct (split_cons_ne c b t Hb) as (w & ws & _ & ->).
      cbn [split]. rewrite bool_decide_true by done. discriminate.
    + destruct (split_cons_ne c a s Ha) as (w & ws & _ & ->).
      cbn [split]. rewrite bool_decide_true by done. discriminate.
    + destruct (split_cons_ne c a s Ha) as (w & ws & E1 & ->),
        (split_cons_ne c b t Hb) as (v & vs & E2 & ->).
      intros [= -> -> ->]. f_equal. apply IH. congruence.
Qed.

(** Lexical resolution of a relative path under a directory, given as the list
    of its components. *)
Fixpoint resolve (dir parts : list string) : list string :=
  match parts with
  | [] => dir
  | p :: ps =>
      if bool_decide (p = "") || bool_decide (p = ".") then resolve dir ps
      else if bool_decide (p = "..") then resolve (take (length dir - 1) dir) ps
      else resolve (dir ++ [p]) ps
  end.

Lemma resolve_plain (dir parts : list string) :
  Forall (fun p => p <> "" /\ p <> "." /\ p <> "..") parts -> resolve dir parts = dir ++ parts.
Proof.
  revert dir. induction parts as [|p ps IH]; intros dir Hp; simpl; [by rewrite app_nil_r|].
  apply Forall_cons in Hp as [(H1 & H2 & H3) Hp].
  rewrite !bool_decide_false by done. simpl. rewrite IH by done. by rewrite <- app_assoc.
Qed.

Lemma is_empty_spec (s : string) : is_empty s = true <-> s = "".
Proof. by destruct s. Qed.

Lemma valid_bundle_path_resolve (dir : list string) (p : string) :
  valid_bundle_path p = true -> resolve dir (split "/" p) = dir ++ split "/" p.
Proof.
  unfold valid_bundle_path. intros H. to_prop. apply resolve_plain, Forall_forall. intros part Hin.
  match goal with H : forallb _ _ = true |- _ => rewrite forallb_forall in H;
    specialize (H part (proj1 (list_elem_of_In _ _) Hin)) end.
  to_prop. split; [|done]. intros ->. done.
Qed.

Lemma check_paths_Ok (paths : list string) (seen : gset string) :
  check_paths seen paths = Ok tt <->
  Forall (fun p => valid_bundle_path p = true) paths /\ NoDup paths /\
  Forall (fun p => p ∉ seen) paths.
Proof.
  revert seen. induction paths as [|p ps IH]; intros seen; simpl.
  - split; [|done]. intros _. split; [constructor|split; constructor].
  - rewrite !Forall_cons, NoDup_cons. destruct (valid_bundle_path p) eqn:Ep; simpl; [|naive_solver].
    case_bool_decide as Hs; [naive_solver|]. rewrite IH. rewrite !Forall_forall.
    split; [|set_solver]. intros (H1 & H2 & H3). split; [by split|].
    split; [split; [set_solver|done]|split; [done|set_solver]].
Qed.

Lemma check_crons_Ok (cs : list string) :
  check_crons cs = Ok tt <-> Forall (fun c => is_ok (parse c) = true) cs.
Proof.
  induction cs as [|c cs IH]; cbn [check_crons]; [done|].
  rewrite Forall_cons. destruct (is_ok (parse c)); simpl; naive_solver.
Qed.

Lemma check_hostnames_Ok (hs : list string) :
  check_hostnames hs = Ok tt <-> Forall (fun h => valid_hostname h = true) hs.
Proof.
  induction hs as [|h hs IH]; cbn [check_hostnames]; [done|].
  rewrite Forall_cons. destruct (valid_hostname h); simpl; naive_solver.
Qed.

Lemma validate_Ok (m : WorkerManifest) :
  validate m = Ok tt <->
  valid_name (name m) = true /\ (version m = 1 <-> prev m = None) /\
  (deleted m = false ->
   (main m = "" \/ main m ∈ mod_path <$> modules m) /\
   Forall (fun p => valid_bundle_path p = true) (bundle_paths m) /\ NoDup (bundle_paths m) /\
   Forall (fun c => is_ok (parse c) = true) (crons m) /\
   Forall (fun h => valid_hostname h = true) (hostnames m)).
Proof.
  unfold validate. destruct (valid_name (name m)); simpl; [|naive_solver].
  assert (Bool.eqb (version m =? 1)%Z (bool_decide (prev m = None)) = true <->
          (version m = 1 <-> prev m = None)) as Hv.
  { rewrite eqb_true_iff. destruct (Z.eqb_spec (version m) 1); case_bool_decide; naive_solver. }
  destruct (Bool.eqb _ _); simpl; [|naive_solver].
  destruct (deleted m); [naive_solver|].
  assert (negb (is_empty (main m)) &&
          negb (existsb (fun md => bool_decide (mod_path md = main m)) (modules m)) = false <->
          main m = "" \/ main m ∈ mod_path <$> modules m) as Hm.
  { rewrite andb_false_iff, !negb_false_iff, is_empty_spec, existsb_exists, list_elem_of_fmap.
    setoid_rewrite bool_decide_eq_true. setoid_rewrite <- list_elem_of_In. naive_solver. }
  destruct (negb _ && _); [naive_solver|].
  pose proof (check_paths_Ok (bundle_paths m) ∅) as Hp.
  pose proof (check_crons_Ok (crons m)) as Hc. pose proof (check_hostnames_Ok (hostnames m)) as Hh.
  assert (Forall (fun p => p ∉ (∅ : gset string)) (bundle_paths m)) as He
    by (apply Forall_forall; set_solver).
  destruct (check_paths ∅ (bundle_paths m)) as [[]|]; [|naive_solver].
  destruct (check_crons (crons m)) as [[]|]; naive_solver.
Qed.

(** ** The deploy CRDT *)

Section crdt.
Context {crypto : Crypto} {hex : Hex} {pc : Postcard WorkerManifest}.

Definition accepted (op : SignerId) (e : Envelope) (m : WorkerManifest) : Prop :=
  open_manifest op e = Ok m /\ validate m = Ok tt.

Definition record_of (e : Envelope) (m : WorkerManifest) : ManifestRecord :=
  mkRecord m (digest e) e.

Lemma accepted_fun (op : SignerId) (e : Envelope) (m1 m2 : WorkerManifest) :
  accepted op e m1 -> accepted op e m2 -> m1 = m2.
Proof. intros [H1 _] [H2 _]. congruence. Qed.

Lemma ingest_operator (s : ManifestSet) (e : Envelope) : operator (ingest s e).1 = operator s.
Proof. unfold ingest. by repeat case_match. Qed.

Lemma ingest_rejected (s : ManifestSet) (e : Envelope) :
  (forall m, ~ accepted (operator s) e m) -> (ingest s e).1 = s.
Proof.
  intros Hn. unfold ingest, accepted in *. destruct (open_manifest _ e) as [m|]; [|done].
  destruct (validate m) as [[]|] eqn:E; [|done]. by destruct (Hn m).
Qed.

(** What [ingest] does with a manifest that passed the checks. *)
Lemma ingest_accepted (s : ManifestSet) (e : Envelope) (m : WorkerManifest) :
  accepted (operator s) e m ->
  ingest s e =
  let store := mkManifestSet (operator s) (<[name m := record_of e m]> (workers s)) in
  match get s (name m) with
  | None => (store, Ok Changed)
  | Some r =>
      if decide (version m < version (manifest r) \/
                 version m = version (manifest r) /\ rec_digest r ⪯ digest e)
      then (s, Ok Stale)
      else if decide (version m = wadd 64 (version (manifest r)) 1 /\ prev m <> Some (rec_digest r))
      then (s, Err ChainBroken)
      else (store, Ok Changed)
  end.
Proof.
  intros [Ho Hv]. unfold ingest, get, record_of. rewrite Ho, Hv.
  destruct (workers s !! name m) as [r|]; [|done]. cbv zeta.
  rewrite Z.gtb_ltb.
  destruct (Z.ltb_spec (version (manifest r)) (version m)); simpl.
  - rewrite (decide_False (P := _ \/ _)) by lia.
    destruct (Z.eqb_spec (version m) (wadd 64 (version (manifest r)) 1)); simpl.
    + case_bool_decide; simpl; [rewrite decide_False by naive_solver|rewrite decide_True by naive_solver]; done.
    + by rewrite decide_False by naive_solver.
  - destruct (Z.eqb_spec (version m) (version (manifest r))) as [Heq|]; simpl.
    + destruct (ltb (digest e) (rec_digest r)) eqn:El; simpl.
      * apply ltb_lt, lt_of_not_le in El. rewrite (decide_False (P := _ \/ _)) by (intros [?|[_ ?]]; [lia|done]).
        destruct (Z.eqb_spec (version m) (wadd 64 (version (manifest r)) 1)); simpl.
        -- case_bool_decide; simpl; [rewrite decide_False by naive_solver|rewrite decide_True by naive_solver]; done.
        -- by rewrite decide_False by naive_solver.
      * apply ltb_ge in El. by rewrite decide_True by auto.
    + rewrite decide_True by lia. done.
Qed.

Lemma ingest_all_snoc (s : ManifestSet) (es : list Envelope) (e : Envelope) :
  ingest_all s (es ++ [e]) = (ingest (ingest_all s es) e).1.
Proof. unfold ingest_all. by rewrite foldl_app. Qed.

Lemma ingest_all_operator (s : ManifestSet) (es : list Envelope) :
  operator (ingest_all s es) = operator s.
Proof.
  induction es as [|e es IH] using rev_ind; [done|]. by rewrite ingest_all_snoc, ingest_operator.
Qed.

(** The published versions of every worker form one chain: a version is
  published once, and a direct successor links the envelope before it. *)
Definition linear (op : SignerId) (es : list Envelope) : Prop :=
  forall e1 m1 e2 m2, e1 ∈ es -> e2 ∈ es -> accepted op e1 m1 -> accepted op e2 m2 ->
    name m1 = name m2 ->
    (version m1 = version m2 -> e1 = e2) /\
    (version m2 = wadd 64 (version m1) 1 -> prev m2 = Some (digest e1)).

(** [r] records the newest version of worker [n] among [es]. *)
Definition latest (op : SignerId) (es : list Envelope) (n : string) (r : ManifestRecord) : Prop :=
  exists e m, e ∈ es /\ accepted op e m /\ name m = n /\ r = record_of e m /\
    forall e' m', e' ∈ es -> accepted op e' m' -> name m' = n -> version m' <= version m.

Lemma latest_fun (op : SignerId) (es : list Envelope) (n : string) (r1 r2 : ManifestRecord) :
  linear op es -> latest op es n r1 -> latest op es n r2 -> r1 = r2.
Proof.
  intros Hl (e1 & m1 & I1 & A1 & N1 & -> & M1) (e2 & m2 & I2 & A2 & N2 & -> & M2).
  assert (version m1 = version m2) as Hv.
  { pose proof (M1 e2 m2 I2 A2 N2). pose proof (M2 e1 m1 I1 A1 N1). lia. }
  assert (e1 = e2) as <- by (apply (Hl e1 m1 e2 m2); congruence).
  by rewrite (accepted_fun _ _ _ _ A1 A2).
Qed.

Lemma latest_snoc_other (op : SignerId) (es : list Envelope) (e : Envelope) (n : string) r :
  (forall m, accepted op e m -> name m <> n) -> latest op (es ++ [e]) n r <-> latest op es n r.
Proof.
  intros Hn. split.
  - intros (e0 & m & [I|I]%elem_of_app & A & N & -> & M);
      [|apply list_elem_of_singleton in I as ->].
    + exists e0, m. split_and!; try done. intros e' m' I'. apply M. set_solver.
    + by destruct (Hn m A).
  - intros (e0 & m & I & A & N & -> & M). exists e0, m. split_and!; try done; [set_solver|].
    intros e' m' [I'|I']%elem_of_app A' N'; [by apply (M e')|].
    apply list_elem_of_singleton in I' as ->.
    by destruct (Hn m' A').
Qed.

Definition held_ok (op : SignerId) (es : list Envelope) (n : string) (o : option ManifestRecord) : Prop :=
  match o with
  | Some r => latest op es n r
  | None => forall e m, e ∈ es -> accepted op e m -> name m <> n
  end.

Lemma held_ok_new (op : SignerId) (es : list Envelope) (e : Envelope) (m : WorkerManifest) :
  accepted op e m ->
  (forall e' m', e' ∈ es -> accepted op e' m' -> name m' = name m -> version m' <= version m) ->
  latest op (es ++ [e]) (name m) (record_of e m).
Proof.
  intros A M. exists e, m. split_and!; try done; [set_solver|].
  intros e' m' [I|I]%elem_of_app A' N'; [by apply (M e')|].
  apply list_elem_of_singleton in I as ->. by rewrite (accepted_fun _ _ _ _ A A').
Qed.

Lemma held_ok_old (op : SignerId) (es : list Envelope) (e : Envelope) (m : WorkerManifest) (r : ManifestRecord) :
  accepted op e m -> latest op es (name m) r -> version m <= version (manifest r) ->
  latest op (es ++ [e]) (name m) r.
Proof.
  intros A (e0 & m0 & I & A0 & N & -> & M) Hv. exists e0, m0. split_and!; try done; [set_solver|].
  intros e' m' [I'|I']%elem_of_app A' N'; [by apply (M e')|].
  apply list_elem_of_singleton in I' as ->. by rewrite <- (accepted_fun _ _ _ _ A A').
Qed.

Lemma held_ok_other (op : SignerId) (es : list Envelope) (e : Envelope) (n : string) o :
  (forall m, accepted op e m -> name m <> n) -> held_ok op es n o -> held_ok op (es ++ [e]) n o.
Proof.
  intros Hn. destruct o as [r|]; simpl; [by rewrite latest_snoc_other|].
  intros H e' m' [I|I]%elem_of_app A'; [by apply (H e')|].
  apply list_elem_of_singleton in I as ->. by apply Hn.
Qed.

Lemma ingest_get_other (s : ManifestSet) (e : Envelope) (n : string) :
  (forall m, accepted (operator s) e m -> name m <> n) -> get (ingest s e).1 n = get s n.
Proof.
  intros Hn. unfold ingest. destruct (open_manifest _ e) as [m|] eqn:Ho; [|done].
  destruct (validate m) as [[]|] eqn:Hv; [|done].
  assert (name m <> n) by by apply Hn.
  unfold get. repeat case_match; simpl; try done; by rewrite lookup_insert_ne.
Qed.

(** Offered the next envelope of a linear history, a node that holds the latest
  version never sees a broken chain and holds the latest version again. *)
Lemma ingest_linear (s : ManifestSet) (es : list Envelope) (e : Envelope) (m : WorkerManifest) :
  linear (operator s) (es ++ [e]) -> accepted (operator s) e m ->
  held_ok (operator s) es (name m) (get s (name m)) ->
  is_ok (ingest s e).2 = true /\
  held_ok (operator s) (es ++ [e]) (name m) (get (ingest s e).1 (name m)).
Proof.
  intros Hl A Hh. rewrite (ingest_accepted s e m A). cbv zeta.
  assert (forall r, get s (name m) = r -> get (mkManifestSet (operator s)
    (<[name m := record_of e m]> (workers s))) (name m) = Some (record_of e m)) as Hget.
  { intros. unfold get; simpl. by rewrite lookup_insert_eq. }
  destruct (get s (name m)) as [r|] eqn:Hg; simpl in Hh.
  - pose proof Hh as (e0 & m0 & I & A0 & N & -> & M). simpl.
    assert (e0 ∈ es ++ [e] /\ e ∈ es ++ [e]) as [I0 I1] by set_solver.
    destruct (Hl e0 m0 e m I0 I1 A0 A N) as [Hsame Hnext].
    case_decide as Hd; [|case_decide as Hc].
    + split; [done|]. cbn [fst]. rewrite Hg. apply held_ok_old; [done..|]. simpl. lia.
    + destruct Hc as [Hc Hp]. by destruct Hp, (Hnext Hc).
    + split; [done|]. cbn [fst]. rewrite (Hget _ eq_refl). apply held_ok_new; [done|].
      intros e' m' I' A' N'. assert (version m <> version m0) as Hne.
      { intros Hv. destruct Hd. right. split; [done|]. rewrite (Hsame (eq_sym Hv)). apply le_of_refl. }
      pose proof (M e' m' I' A' N'). lia.
  - split; [done|]. cbn [fst]. rewrite (Hget _ eq_refl). apply held_ok_new; [done|].
    intros e' m' I' A' N'. by destruct (Hh e' m').
Qed.

Lemma accepted_dec (op : SignerId) (e : Envelope) :
  (exists m, accepted op e m) \/ forall m, ~ accepted op e m.
Proof.
  unfold accepted. destruct (open_manifest op e) as [m|]; [|right; naive_solver].
  destruct (validate m) as [[]|] eqn:E; [left; by exists m|right]. intros m' [[= <-] ?]. congruence.
Qed.

Lemma ingest_all_latest (op : SignerId) (es : list Envelope) (n : string) :
  linear op es -> held_ok op es n (get (ingest_all (new_set op) es) n).
Proof.
  revert n. induction es as [|e es IH] using rev_ind; intros n Hl.
  { unfold get; simpl. rewrite lookup_empty. intros e m Hin. by apply not_elem_of_nil in Hin. }
  assert (linear op es) as Hl'.
  { intros e1 m1 e2 m2 ? ?. apply (Hl e1 m1 e2 m2); set_solver. }
  rewrite ingest_all_snoc. set (s := ingest_all _ es) in *.
  assert (operator s = op) as Hop by apply ingest_all_operator.
  destruct (accepted_dec op e) as [[m A]|Hn].
  - destruct (decide (n = name m)) as [->|Hne].
    + rewrite <- Hop in *. apply ingest_linear; auto.
    + assert (forall m', accepted op e m' -> name m' <> n) as Hn'.
      { intros m' A'. by rewrite <- (accepted_fun _ _ _ _ A A'). }
      rewrite ingest_get_other by by rewrite Hop. auto using held_ok_other.
  - rewrite ingest_get_other by (rewrite Hop; intros m A; by destruct (Hn m)).
    apply held_ok_other; [|by apply IH]. intros m A. by destruct (Hn m).
Qed.
End crdt.

(** ** Routing *)

Lemma add_routes_lookup (by_host : gmap string ManifestRecord) (r : ManifestRecord) (h : string) :
  add_routes by_host r !! h =
  if decide (h ∈ hostnames (manifest r)) then
    Some (match by_host !! h with
          | Some cur => if ltb (rec_digest r) (rec_digest cur) then r else cur
          | None => r
          end)
  else by_host !! h.
Proof.
  unfold add_routes. generalize (hostnames (manifest r)) as hs. intros hs. revert by_host.
  induction hs as [|h' hs IH]; intros by_host; cbn [foldl]; [by rewrite decide_False by set_solver|].
  rewrite IH. unfold add_route. destruct (decide (h = h')) as [->|Hne].
  - rewrite lookup_insert_eq, (decide_True (P := h' ∈ h' :: hs)) by set_solver.
    assert (ltb (rec_digest r) (rec_digest r) = false) as Hrr by apply ltb_ge, le_of_refl.
    destruct (by_host !! h') as [cur|]; [destruct (ltb (rec_digest r) (rec_digest cur)) eqn:E|];
      case_decide; rewrite ?Hrr, ?E; done.
  - rewrite lookup_insert_ne by done.
    destruct (decide (h ∈ hs)); [rewrite decide_True by set_solver|rewrite decide_False by set_solver]; done.
Qed.

Definition serves (h : string) (r : ManifestRecord) : Prop := h ∈ hostnames (manifest r).

#[export] Instance serves_dec (h : string) (r : ManifestRecord) : Decision (serves h r).
Proof. unfold serves. apply _. Defined.

Lemma foldl_add_routes (records : list ManifestRecord) (m : gmap string ManifestRecord) (h : string) :
  foldl add_routes m records !! h =
  match m !! h with
  | Some cur => Some (min_from rec_digest cur (filter (serves h) records))
  | None => min_by_key rec_digest (filter (serves h) records)
  end.
Proof.
  revert m. induction records as [|r rs IH]; intros m; cbn [foldl]; [by destruct (m !! h)|].
  rewrite IH, add_routes_lookup. destruct (decide (serves h r)) as [Hs|Hs].
  - rewrite decide_True, filter_cons_True by done. by destruct (m !! h).
  - by rewrite decide_False, filter_cons_False.
Qed.

Lemma routes_in_lookup (records : list ManifestRecord) (h : string) :
  routes_in records !! h =
  name ∘ manifest <$> min_by_key rec_digest (filter (serves h) records).
Proof.
  unfold routes_in. rewrite lookup_fmap, foldl_add_routes, lookup_empty. done.
Qed.

(** ** The audit of a transparency log *)

Section chain.
Context {crypto : Crypto} {hex : Hex} {pc : Postcard WorkerManifest}.

Definition follows (prev_digest : option bytes) (l m : WorkerManifest) : Prop :=
  version m = wadd 64 (version l) 1 /\ name m = name l /\ prev m = prev_digest.

Definition first_ok (last : option WorkerManifest) (pd : option bytes) (m : WorkerManifest) : Prop :=
  match last with
  | Some l => follows pd l m
  | None => version m = 1 -> prev m = None
  end.

Definition linked (envs : list Envelope) (ms : list WorkerManifest) : Prop :=
  forall i e m m', envs !! i = Some e -> ms !! i = Some m -> ms !! S i = Some m' ->
    follows (Some (digest e)) m m'.

Lemma linked_cons (e : Envelope) (m : WorkerManifest) (envs : list Envelope) (ms : list WorkerManifest) :
  linked (e :: envs) (m :: ms) <->
  (forall m', ms !! 0%nat = Some m' -> follows (Some (digest e)) m m') /\ linked envs ms.
Proof.
  split.
  - intros H. split; [intros m' Hm; by apply (H 0%nat e m m')|].
    intros i e' a b He Ha Hb. by apply (H (S i) e' a b).
  - intros [H0 H] [|i] e' a b He Ha Hb; simpl in *; [naive_solver|by apply (H i e' a b)].
Qed.

Lemma verify_from_Ok (op : SignerId) (envs : list Envelope) (last : option WorkerManifest)
  (pd : option bytes) (ms : list WorkerManifest) :
  verify_from op last pd envs = Ok ms <->
  Forall2 (fun e m => open_manifest op e = Ok m) envs ms /\
  (forall m, ms !! 0%nat = Some m -> first_ok last pd m) /\ linked envs ms.
Proof.
  revert last pd ms. induction envs as [|e envs IH]; intros last pd ms; cbn [verify_from].
  - split; [intros [= <-]; by split_and!|]. by intros [->%Forall2_nil_inv_l _].
  - destruct (open_manifest op e) as [m|] eqn:Ho.
    2:{ split; [done|]. intros [(? & ? & ? & _ & ->)%Forall2_cons_inv_l _]. congruence. }
    assert (match last with
      | Some l => negb (version m =? wadd 64 (version l) 1)%Z || negb (bool_decide (name m = name l))
              || negb (bool_decide (prev m = pd))
      | None => (version m =? 1)%Z && negb (bool_decide (prev m = None))
      end = false <-> first_ok last pd m) as Hb.
    { unfold first_ok, follows. destruct last as [l|].
      - rewrite !orb_false_iff, !negb_false_iff, Z.eqb_eq, !bool_decide_eq_true. tauto.
      - rewrite andb_false_iff, negb_false_iff, Z.eqb_neq, bool_decide_eq_true.
        destruct (decide (version m = 1)); naive_solver. }
    cbv zeta. destruct (match last with Some _ => _ | None => _ end).
    { split; [done|]. intros [(m' & ms' & Hm' & _ & ->)%Forall2_cons_inv_l [Hf _]].
      assert (m' = m) as -> by congruence. assert (true = false); [|done]. by apply Hb, Hf. }
    specialize (IH (Some m) (Some (digest e))).
    destruct (verify_from _ _ _ envs) as [out|e0] eqn:Ev.
    + split.
      * intros [= <-]. destruct (proj1 (IH out) eq_refl) as (F & H0 & L).
        rewrite linked_cons. split; [by constructor|]. naive_solver.
      * intros [(m' & ms' & Hm' & F & ->)%Forall2_cons_inv_l [H0 L]].
        apply linked_cons in L as [L0 L]. assert (m' = m) as -> by congruence.
        assert (Ok out = Ok (E := ManifestError) ms') by by apply IH. congruence.
    + split; [done|]. intros [(m' & ms' & Hm' & F & ->)%Forall2_cons_inv_l [H0 L]].
      apply linked_cons in L as [L0 L]. assert (m' = m) as -> by congruence.
      assert (Err e0 = Ok ms') by by apply IH. done.
Qed.
End chain.

Section crdt_invariants.
Context {crypto : Crypto} {hex : Hex} {pc : Postcard WorkerManifest}.

(** Every record held was signed by the operator, passed validation and is
  filed under its own name with the digest of its envelope. *)
Definition sound (s : ManifestSet) : Prop :=
  forall n r, get s n = Some r ->
    accepted (operator s) (rec_envelope r) (manifest r) /\
    signer (rec_envelope r) = operator s /\
    name (manifest r) = n /\ rec_digest r = digest (rec_envelope r).

(** [r'] is at least as new as [r] in the order of the deploy CRDT. *)
Definition not_older (r r' : ManifestRecord) : Prop :=
  version (manifest r) < version (manifest r') \/
  version (manifest r) = version (manifest r') /\ rec_digest r' ⪯ rec_digest r.

Lemma open_manifest_signer (op : SignerId) (e : Envelope) (m : WorkerManifest) :
  open_manifest op e = Ok m -> signer e = op.
Proof.
  unfold open_manifest. destruct (open (Some op) e) as [m'|[]] eqn:E; try discriminate.
  apply open_Ok in E as [E _]. intros _. symmetry. by apply E.
Qed.

Lemma ingest_lookup_cases (s : ManifestSet) (e : Envelope) (n : string) :
  get (ingest s e).1 n = get s n \/
  exists m, accepted (operator s) e m /\ name m = n /\ get (ingest s e).1 n = Some (record_of e m) /\
    forall r, get s n = Some r -> not_older r (record_of e m).
Proof.
  destruct (accepted_dec (operator s) e) as [[m A]|Hn]; [|left; by rewrite ingest_rejected].
  destruct (decide (name m = n)) as [<-|Hne].
  2:{ left. apply ingest_get_other. intros m' A'. by rewrite <- (accepted_fun _ _ _ _ A A'). }
  rewrite (ingest_accepted s e m A). cbv zeta.
  destruct (get s (name m)) as [r|] eqn:Hg; [case_decide as Hd; [by left|case_decide; [by left|]]|];
    right; exists m; (split_and!; [done..| |]); cbn [fst].
  - unfold get; simpl. by rewrite lookup_insert_eq.
  - intros r' [= <-]. unfold not_older; simpl.
    destruct (decide (version m = version (manifest r))) as [Hv|]; [right|left; lia].
    split; [done|]. destruct (le_of_total (digest e) (rec_digest r)); [done|]. destruct Hd. by right.
  - unfold get; simpl. by rewrite lookup_insert_eq.
  - done.
Qed.

Lemma not_older_refl (r : ManifestRecord) : not_older r r.
Proof. right. split; [done|apply le_of_refl]. Qed.

Lemma not_older_trans (a b c : ManifestRecord) : not_older a b -> not_older b c -> not_older a c.
Proof.
  unfold not_older. intros [?|[? ?]] [?|[? ?]]; [left; lia..|].
  right. split; [lia|]. eapply le_of_trans; done.
Qed.

Lemma ingest_sound (s : ManifestSet) (e : Envelope) : sound s -> sound (ingest s e).1.
Proof.
  intros Hs n r Hr. rewrite ingest_operator.
  destruct (ingest_lookup_cases s e n) as [Hg|(m & A & <- & Hg & _)].
  - rewrite Hg in Hr. by apply Hs.
  - rewrite Hg in Hr. injection Hr as <-. simpl. split_and!; try done.
    by apply (open_manifest_signer _ _ m), A.
Qed.

Lemma ingest_all_sound (es : list Envelope) (s : ManifestSet) : sound s -> sound (ingest_all s es).
Proof.
  intros Hs. induction es as [|e es IH] using rev_ind; [done|].
  rewrite ingest_all_snoc. by apply ingest_sound.
Qed.

Lemma ingest_all_not_older (es : list Envelope) (s : ManifestSet) (n : string) (r : ManifestRecord) :
  get s n = Some r -> exists r', get (ingest_all s es) n = Some r' /\ not_older r r'.
Proof.
  intros Hr. induction es as [|e es (r1 & Hr1 & Ho)] using rev_ind;
    [exists r; split; [done|apply not_older_refl]|].
  rewrite ingest_all_snoc.
  destruct (ingest_lookup_cases (ingest_all s es) e n) as [->|(m & _ & _ & -> & Hle)]; [by exists r1|].
  exists (record_of e m). split; [done|]. by eapply not_older_trans, Hle.
Qed.

Lemma verify_chain_prefix (op : SignerId) (l k : list Envelope) ms :
  verify_chain (l ++ k) op = Ok ms -> exists ms', verify_chain l op = Ok ms'.
Proof.
  intros (F & H0 & L)%verify_from_Ok. apply Forall2_app_inv_l in F as (m1 & m2 & F1 & F2 & ->).
  exists m1. apply verify_from_Ok. split; [done|]. split.
  - intros m Hm. apply H0. by apply lookup_app_l_Some.
  - intros i e m m' He Hm Hm'. apply (L i e m m'); by apply lookup_app_l_Some.
Qed.

Lemma verify_chain_last (op : SignerId) (l : list Envelope) (x e : Envelope) ms :
  verify_chain ((l ++ [x]) ++ [e]) op = Ok ms ->
  exists m, open_manifest op e = Ok m /\ prev m = Some (digest x).
Proof.
  intros (F & _ & L)%verify_from_Ok. apply Forall2_app_inv_l in F as (m1 & m2 & F1 & F2 & ->).
  apply Forall2_app_inv_l in F1 as (m0 & mx & F0 & Fx & ->).
  apply Forall2_cons_inv_l in F2 as (m & ? & Ho & ->%Forall2_nil_inv_l & ->).
  apply Forall2_cons_inv_l in Fx as (mx' & ? & Hx & ->%Forall2_nil_inv_l & ->).
  exists m. split; [done|]. apply Forall2_length in F0.
  apply (L (length l) x mx' m).
  - rewrite <- app_assoc. by apply list_lookup_middle.
  - rewrite <- app_assoc. by apply list_lookup_middle.
  - rewrite <- app_assoc; simpl. rewrite lookup_app_r by lia.
    by replace (S (length l) - length m0)%nat with 1%nat by lia.
Qed.
End crdt_invariants.

(** ** Properties *)

Section properties.
Context {crypto : Crypto} {hex : Hex} {pc : Postcard WorkerManifest}.

Lemma linear_same_elements (op : SignerId) (es es' : list Envelope) :
  (forall e, e ∈ es' <-> e ∈ es) -> linear op es -> linear op es'.
Proof. intros He Hl e1 m1 e2 m2 I1 I2. apply Hl; by apply He. Qed.

Lemma linear_get (op : SignerId) (es : list Envelope) (n : string) (r : ManifestRecord) :
  linear op es -> get (ingest_all (new_set op) es) n = Some r <-> latest op es n r.
Proof.
  intros Hl. pose proof (ingest_all_latest op es n Hl) as Hh. split; [by intros E; rewrite E in Hh|].
  intros Hr. destruct (get _ n) as [r'|]; simpl in Hh; [f_equal; by apply (latest_fun op es n)|].
  destruct Hr as (e & m & I & A & N & _). by destruct (Hh e m).
Qed.

(** C36: While every worker has one history (each version published once, each
  direct successor linking its predecessor) the manifests a node holds depend
  only on the set of envelopes it has seen, whatever their order and
  repetition: it holds the newest version of each worker, and no envelope of
  the history is ever refused. *)
Theorem linear_history_converges (op : SignerId) (es : list Envelope) (Hlin : linear op es) :
  (forall n r, get (ingest_all (new_set op) es) n = Some r <-> latest op es n r) /\
  (forall es', (forall e, e ∈ es' <-> e ∈ es) ->
     ingest_all (new_set op) es' = ingest_all (new_set op) es) /\
  (forall es1 e es2 m, es = es1 ++ e :: es2 -> accepted op e m ->
     is_ok (ingest (ingest_all (new_set op) es1) e).2 = true).
Proof.
  split; [intros; by apply linear_get|]. split.
  - intros es' He. pose proof (linear_same_elements _ _ _ He Hlin) as Hl'.
    pose proof (ingest_all_operator (new_set op) es) as O1.
    pose proof (ingest_all_operator (new_set op) es') as O2.
    assert (workers (ingest_all (new_set op) es') = workers (ingest_all (new_set op) es)) as Hw.
    { apply map_eq. intros n. apply option_eq. intros r.
      transitivity (latest op es n r); [|symmetry; by apply linear_get].
      transitivity (latest op es' n r); [by apply linear_get|].
      unfold latest. by setoid_rewrite He. }
    destruct (ingest_all _ es'), (ingest_all _ es); simpl in *; congruence.
  - intros es1 e es2 m -> A.
    assert (operator (ingest_all (new_set op) es1) = op) as Hop by apply ingest_all_operator.
    assert (linear op (es1 ++ [e])) as Hl1.
    { intros e1 m1 e2 m2 ? ?. apply (Hlin e1 m1 e2 m2); set_solver. }
    apply (ingest_linear _ es1 e m); rewrite Hop; try done.
    apply ingest_all_latest. intros e1 m1 e2 m2 ? ?. apply (Hl1 e1 m1 e2 m2); set_solver.
Qed.

(** Nothing reaches the set of deployed workers but a manifest the operator
  signed and that passed validation, filed under its own name and digest; and
  a deployment never moves backwards: what is held for a name later is of a
  higher version, or of the same version with a digest no greater. *)
Theorem deployments_sound_and_monotone (op : SignerId) (es1 es2 : list Envelope) :
  let s := ingest_all (new_set op) es1 in
  let s' := ingest_all s es2 in
  sound s' /\ operator s' = op /\
  forall n r, get s n = Some r -> exists r', get s' n = Some r' /\ not_older r r'.
Proof.
  intros s s'. split; [|split].
  - do 2 apply ingest_all_sound. intros n r. unfold get; simpl. by rewrite lookup_empty.
  - unfold s', s. by rewrite !ingest_all_operator.
  - intros n r. apply ingest_all_not_older.
Qed.

(** A set that holds one worker. *)
Definition one (op : SignerId) (e : Envelope) (m : WorkerManifest) : ManifestSet :=
  mkManifestSet op {[name m := record_of e m]}.

Lemma ingest_first (op : SignerId) (e : Envelope) (m : WorkerManifest) :
  accepted op e m -> ingest (new_set op) e = (one op e m, Ok Changed).
Proof.
  intros A. rewrite (ingest_accepted (new_set op) e m A). unfold get; simpl. by rewrite lookup_empty.
Qed.

Lemma ingest_one (op : SignerId) (e0 e : Envelope) (m0 m : WorkerManifest) :
  accepted op e m -> name m = name m0 ->
  ingest (one op e0 m0) e =
  if decide (version m < version m0 \/ version m = version m0 /\ digest e0 ⪯ digest e)
  then (one op e0 m0, Ok Stale)
  else if decide (version m = wadd 64 (version m0) 1 /\ prev m <> Some (digest e0))
  then (one op e0 m0, Err ChainBroken)
  else (one op e m, Ok Changed).
Proof.
  intros A N. rewrite (ingest_accepted (one op e0 m0) e m A). unfold get; simpl.
  rewrite N, lookup_singleton_eq; simpl. unfold one. by rewrite insert_singleton_eq, N.
Qed.

Lemma ingest_all_fixed (s : ManifestSet) (es : list Envelope) :
  (forall e, e ∈ es -> (ingest s e).1 = s) -> ingest_all s es = s.
Proof.
  intros H. induction es as [|e es IH] using rev_ind; [done|].
  rewrite ingest_all_snoc, IH; [apply H|intros; apply H]; set_solver.
Qed.

(** Conflicting first versions break convergence for good: when [e2] succeeds
  [e1a] and a second version 1, [e1b], has the lower digest, a node that sees
  [e1a, e2, e1b] serves version 2, one that sees [e1a, e1b, e2] refuses
  version 2 as a broken chain, and no redelivery of these envelopes, in any
  order, ever changes either node. *)
Theorem fork_never_converges (op : SignerId) (e1a e1b e2 : Envelope) (m1a m1b m2 : WorkerManifest)
  (A1 : accepted op e1a m1a) (B1 : accepted op e1b m1b) (A2 : accepted op e2 m2)
  (Nb : name m1b = name m1a) (N2 : name m2 = name m1a)
  (V1a : version m1a = 1) (V1b : version m1b = 1) (V2 : version m2 = 2)
  (Hlink : prev m2 = Some (digest e1a)) (Hlow : digest e1b ≺ digest e1a) :
  let x := ingest_all (new_set op) [e1a; e2; e1b] in
  let y := ingest_all (new_set op) [e1a; e1b; e2] in
  (ingest (ingest_all (new_set op) [e1a; e1b]) e2).2 = Err ChainBroken /\
  get x (name m1a) = Some (record_of e2 m2) /\
  get y (name m1a) = Some (record_of e1b m1b) /\
  forall es, (forall e, e ∈ es -> e = e1a \/ e = e1b \/ e = e2) ->
    ingest_all x es = x /\ ingest_all y es = y.
Proof.
  assert (wadd 64 1 1 = 2) as H2 by done.
  assert (digest e1a <> digest e1b) as Hne by (intros E; rewrite E in Hlow; by apply lt_of_irrefl in Hlow).
  pose proof (fun e m e0 m0 => ingest_one op e0 e m0 m) as Hone.
  assert (ingest (one op e1a m1a) e2 = (one op e2 m2, Ok Changed)) as Sa2.
  { rewrite (Hone e2 m2) by done. rewrite decide_False by lia. by rewrite decide_False by naive_solver. }
  assert (ingest (one op e1a m1a) e1b = (one op e1b m1b, Ok Changed)) as Sab.
  { rewrite (Hone e1b m1b) by done. apply lt_of_not_le in Hlow.
    rewrite decide_False by (intros [?|[_ ?]]; [lia|done]). by rewrite decide_False by (rewrite V1a, H2; lia). }
  assert (ingest (one op e1b m1b) e2 = (one op e1b m1b, Err ChainBroken)) as Sb2.
  { rewrite (Hone e2 m2) by congruence. rewrite decide_False by lia.
    by rewrite decide_True by (rewrite V1b, H2; split; [lia|congruence]). }
  assert (forall e, e = e1a \/ e = e1b \/ e = e2 -> (ingest (one op e2 m2) e).1 = one op e2 m2) as Fx.
  { intros e [->|[->| ->]]; [rewrite (Hone e1a m1a)|rewrite (Hone e1b m1b)|rewrite (Hone e2 m2)];
      try congruence; rewrite decide_True; try done; [lia..|right; split; [done|apply le_of_refl]]. }
  assert (forall e, e = e1a \/ e = e1b \/ e = e2 -> (ingest (one op e1b m1b) e).1 = one op e1b m1b) as Fy.
  { intros e [->|[->| ->]]; [rewrite (Hone e1a m1a)|rewrite (Hone e1b m1b)|by rewrite Sb2];
      try congruence; rewrite decide_True; try done; right; (split; [congruence|]);
      [by apply lt_of_le|apply le_of_refl]. }
  assert (ingest_all (new_set op) [e1a; e2; e1b] = one op e2 m2) as ->.
  { unfold ingest_all; cbn [foldl]. rewrite (ingest_first op e1a m1a A1); cbn [fst].
    rewrite Sa2; cbn [fst]. by apply Fx; auto. }
  assert (ingest_all (new_set op) [e1a; e1b] = one op e1b m1b) as Hab.
  { unfold ingest_all; cbn [foldl]. rewrite (ingest_first op e1a m1a A1); cbn [fst]. by rewrite Sab. }
  assert (ingest_all (new_set op) [e1a; e1b; e2] = one op e1b m1b) as ->.
  { change [e1a; e1b; e2] with ([e1a; e1b] ++ [e2]). by rewrite ingest_all_snoc, Hab, Sb2. }
  rewrite Hab, Sb2. cbv zeta. unfold get; simpl. rewrite N2, Nb, !lookup_singleton_eq.
  split_and!; try done. intros es He. split; apply ingest_all_fixed; auto.
Qed.
End properties.

(** The routing table depends only on the set of live records, not on the
    order in which the hash map yields them, and a contested hostname goes to
    the live worker of lowest manifest digest; a tombstoned worker has no
    route. *)
Theorem routes_spec (s : ManifestSet) (records : list ManifestRecord) (h n : string)
    (Hperm : records ≡ₚ live s)
    (Hdigests : forall r1 r2, r1 ∈ live s -> r2 ∈ live s -> rec_digest r1 = rec_digest r2 -> r1 = r2) :
  routes_in records = routes s /\
  (routes s !! h = Some n <->
   exists r, r ∈ all s /\ deleted (manifest r) = false /\ serves h r /\ name (manifest r) = n /\
     forall r', r' ∈ all s -> deleted (manifest r') = false -> serves h r' ->
       rec_digest r ⪯ rec_digest r').
Proof.
  assert (forall r, r ∈ live s <-> deleted (manifest r) = false /\ r ∈ all s) as Hlive
    by (intros r; unfold live; by rewrite list_elem_of_filter).
  assert (forall l, l ≡ₚ live s -> forall h r, min_by_key rec_digest (filter (serves h) l) = Some r <->
    r ∈ live s /\ serves h r /\ forall r', r' ∈ live s -> serves h r' -> rec_digest r ⪯ rec_digest r') as Hmin.
  { intros l Hp h' r. split.
    - intros [[Hs Hin]%list_elem_of_filter Hle]%min_by_key_Some. rewrite Hp in Hin.
      split_and!; [done..|]. intros r' Hr' Hs'. apply Hle, list_elem_of_filter. by rewrite Hp.
    - intros (Hin & Hs & Hle). rewrite <- Hp in Hin.
      destruct (min_by_key rec_digest (filter (serves h') l)) as [x|] eqn:E.
      + apply min_by_key_Some in E as [[Hx Hxin]%list_elem_of_filter Hm]. f_equal. rewrite Hp in *.
        apply Hdigests; [done..|]. apply le_of_antisym; [|by apply Hle].
        apply Hm, list_elem_of_filter. by rewrite Hp.
      + apply min_by_key_None in E. assert (r ∈ filter (serves h') l) as Hf
          by by apply list_elem_of_filter. rewrite E in Hf. by apply not_elem_of_nil in Hf. }
  split.
  - unfold routes. apply map_eq. intros h'. rewrite !routes_in_lookup. f_equal.
    apply option_eq. intros r. rewrite (Hmin _ Hperm), (Hmin (live s)) by done. done.
  - unfold routes. rewrite routes_in_lookup, fmap_Some. setoid_rewrite (Hmin (live s) (reflexivity _)).
    setoid_rewrite Hlive. naive_solver.
Qed.

(** A verified transparency log is fixed by its last envelope: two logs that
    both verify and end in the same envelope agree on all the history they
    share, one being the end of the other, as long as no two of their envelopes
    collide under the digest. *)
Theorem log_fixed_by_its_tip {crypto : Crypto} {hex : Hex} {pc : Postcard WorkerManifest}
    (op : SignerId) (log1 log2 : list Envelope) (tip : Envelope) (ms1 ms2 : list WorkerManifest)
    (H1 : verify_chain (log1 ++ [tip]) op = Ok ms1)
    (H2 : verify_chain (log2 ++ [tip]) op = Ok ms2)
    (Hinj : forall x y, x ∈ log1 -> y ∈ log2 -> digest x = digest y -> x = y) :
  log1 `suffix_of` log2 \/ log2 `suffix_of` log1.
Proof.
  revert log2 tip ms1 ms2 H1 H2 Hinj. induction log1 as [|x l1 IH] using rev_ind;
    intros log2 tip ms1 ms2 H1 H2 Hinj; [left; apply suffix_nil|].
  destruct log2 as [|y l2 _] using rev_ind; [right; apply suffix_nil|].
  destruct (verify_chain_last _ _ _ _ _ H1) as (m & Hm & Hx).
  destruct (verify_chain_last _ _ _ _ _ H2) as (m' & Hm' & Hy).
  assert (x = y) as <- by (apply Hinj; [set_solver..|congruence]).
  apply verify_chain_prefix in H1 as [? H1], H2 as [? H2].
  destruct (IH l2 x _ _ H1 H2) as [[k ->]|[k ->]].
  - intros a b Ha Hb. apply Hinj; set_solver.
  - left. exists k. by rewrite app_assoc.
  - right. exists k. by rewrite app_assoc.
Qed.

(** [verify_chain] is exact: it returns the manifests of a log when, and only
    when, every envelope is the operator's, a log that starts at version 1 has
    no predecessor there, and every later manifest is of the same worker, of
    the next version and links the digest of the envelope before it. *)
Theorem verify_chain_exact {crypto : Crypto} {hex : Hex} {pc : Postcard WorkerManifest}
    (op : SignerId) (envs : list Envelope) (ms : list WorkerManifest) :
  verify_chain envs op = Ok ms <->
  Forall2 (fun e m => open_manifest op e = Ok m) envs ms /\
  (forall m, ms !! 0%nat = Some m -> version m = 1 -> prev m = None) /\
  (forall i e m m', envs !! i = Some e -> ms !! i = Some m -> ms !! S i = Some m' ->
     version m' = wadd 64 (version m) 1 /\ name m' = name m /\ prev m' = Some (digest e)).
Proof. apply verify_from_Ok. Qed.

(** The files of a validated manifest stay inside the directory the bundle is
    unpacked to, whatever that directory is, and no two of them name the same
    file. *)
Theorem validated_bundle_is_contained (m : WorkerManifest) (dir : list string)
    (Hvalid : validate m = Ok tt) (Hlive : deleted m = false) :
  Forall (fun p => exists file, file <> [] /\ resolve dir (split "/" p) = dir ++ file) (bundle_paths m) /\
  NoDup ((fun p => resolve dir (split "/" p)) <$> bundle_paths m).
Proof.
  apply validate_Ok in Hvalid as (_ & _ & Hd). destruct (Hd Hlive) as (_ & Hp & Hnd & _). clear Hd.
  rewrite Forall_forall in Hp. split.
  - apply Forall_forall. intros p Hin. exists (split "/" p).
    split; [apply split_nonempty|]. by apply valid_bundle_path_resolve, Hp.
  - apply NoDup_fmap_2_strong; [|done]. intros p q Hin Hin'.
    rewrite !valid_bundle_path_resolve by by apply Hp. intros E%app_inj_1; [|done].
    by apply (split_inj "/"), E.
Qed.

(** ** Sample manifests, for the witnesses *)

#[export] Instance ModuleKind_eq_dec : EqDecision ModuleKind.
Proof. solve_decision. Defined.

#[export] Instance ModuleKind_countable : Countable ModuleKind.
Proof.
  refine (inj_countable'
    (fun k => match k with EsModule => 0 | CommonJs => 1 | Wasm => 2 | TextModule => 3 | DataModule => 4 end)
    (fun z : Z => if (z =? 0)%Z then EsModule else if (z =? 1)%Z then CommonJs
       else if (z =? 2)%Z then Wasm else if (z =? 3)%Z then TextModule else DataModule) _).
  by intros [].
Defined.

#[export] Instance Module_eq_dec : EqDecision Module_.
Proof. solve_decision. Defined.

#[export] Instance Module_countable : Countable Module_.
Proof.
  refine (inj_countable' (fun m => (mod_path m, mod_sha256 m, (mod_kind m, mod_size m)))
    (fun p => let '(a, b, (c, d)) := p in mkModule a b c d) _).
  by intros [].
Defined.

#[export] Instance AssetFile_eq_dec : EqDecision AssetFile.
Proof. solve_decision. Defined.

#[export] Instance AssetFile_countable : Countable AssetFile.
Proof.
  refine (inj_countable' (fun a => (asset_path a, asset_sha256 a, asset_size a))
    (fun p => let '(a, b, c) := p in mkAssetFile a b c) _).
  by intros [].
Defined.

Module SampleManifest.
Definition code {T} `{Countable T} (x : T) : Z := Z.pos (encode x).
Definition decoded (T : Type) `{Countable T} (z : Z) : option T :=
  match z with Z.pos p => decode p | _ => None end.

(** One number per field. *)
Definition codec : Postcard WorkerManifest := {|
  to_stdvec := fun m =>
    [code (name m); version m; code (prev m); code (deleted m); code (main m); code (modules m);
     code (assets m); code (hostnames m); code (env m); code (kv_bindings m); code (crons m);
     code (compatibility_date m)];
  from_bytes := fun b =>
    match b with
    | [n; v; p; d; mn; mo; a; h; e; k; c; cd] =>
        n' ← decoded string n; p' ← decoded (option bytes) p; d' ← decoded bool d;
        mn' ← decoded string mn; mo' ← decoded (list Module_) mo; a' ← decoded (list AssetFile) a;
        h' ← decoded (list string) h; e' ← decoded (gmap string string) e;
        k' ← decoded (gmap string string) k; c' ← decoded (list string) c;
        cd' ← decoded string cd;
        Some (mkManifest n' v p' d' mn' mo' a' h' e' k' c' cd')
    | _ => None
    end
  |}.

Lemma manifest_codec_ok : @PostcardOk WorkerManifest codec.
Proof.
  intros []. unfold codec, from_bytes, to_stdvec, decoded, code.
  cbn [name version prev deleted main modules assets hostnames env kv_bindings crons compatibility_date].
  repeat (rewrite decode_encode; cbv beta iota delta [mbind option_bind]). done.
Qed.

Definition manifest_v (v : Z) (p : option bytes) (host : string) : WorkerManifest :=
  mkManifest "w" v p false "" [] [mkAssetFile "i" [1] 1; mkAssetFile "a/b" [2] 1]
    [host] ∅ ∅ [] "".

Definition env_of (m : WorkerManifest) : Envelope :=
  seal (crypto := Sample.crypto) (pc := codec) m (Sample.keypair [7]).

Definition op : SignerId := signer_id (crypto := Sample.crypto) (EdKey (Sample.keypair [7])).
Definition digest_of : Envelope -> bytes := digest (crypto := Sample.crypto) (hex := Sample.hex).

Definition m1 : WorkerManifest := manifest_v 1 None "a.eu".
Definition e1 : Envelope := env_of m1.
Definition m1' : WorkerManifest := manifest_v 1 None "b.eu".
Definition e1' : Envelope := env_of m1'.
Definition m2 : WorkerManifest := manifest_v 2 (Some (digest_of e1)) "a.eu".
Definition e2 : Envelope := env_of m2.

Lemma open_env_of (m : WorkerManifest) :
  open_manifest (crypto := Sample.crypto) (pc := codec) op (env_of m) = Ok m.
Proof.
  unfold open_manifest, env_of, seal.
  rewrite (open_seal (crypto_ok := Sample.crypto_ok) (pc_ok := manifest_codec_ok)); [done|].
  by intros w [= <-].
Qed.

Lemma env_of_accepted (m : WorkerManifest) :
  validate m = Ok tt -> accepted (crypto := Sample.crypto) (pc := codec) op (env_of m) m.
Proof. intros Hv. split; [apply open_env_of|done]. Qed.

Lemma e1_accepted : accepted (crypto := Sample.crypto) (pc := codec) op e1 m1.
Proof. apply env_of_accepted. vm_compute. reflexivity. Qed.
Lemma e1'_accepted : accepted (crypto := Sample.crypto) (pc := codec) op e1' m1'.
Proof. apply env_of_accepted. vm_compute. reflexivity. Qed.
Lemma e2_accepted : accepted (crypto := Sample.crypto) (pc := codec) op e2 m2.
Proof. apply env_of_accepted. vm_compute. reflexivity. Qed.
Lemma e1'_lower : digest_of e1' ≺ digest_of e1.
Proof. vm_compute. reflexivity. Qed.
Lemma prev_m2 : prev m2 = Some (digest_of e1).
Proof. reflexivity. Qed.
End SampleManifest.

#[local] Opaque SampleManifest.e1 SampleManifest.e1' SampleManifest.e2.

Lemma fork_never_converges_witness :
  let ingest_all := ingest_all (crypto := Sample.crypto) (hex := Sample.hex) (pc := SampleManifest.codec) in
  let e1 := SampleManifest.e1 in let e1' := SampleManifest.e1' in let e2 := SampleManifest.e2 in
  let x := ingest_all (new_set SampleManifest.op) [e1; e2; e1'] in
  let y := ingest_all (new_set SampleManifest.op) [e1; e1'; e2] in
  (version ∘ manifest <$> get x "w" = Some 2) /\ (version ∘ manifest <$> get y "w" = Some 1) /\
  ingest_all y [e2; e1; e2; e1'; e2] = y.
Proof.
  destruct (fork_never_converges (crypto := Sample.crypto) (hex := Sample.hex) (pc := SampleManifest.codec)
    SampleManifest.op SampleManifest.e1 SampleManifest.e1' SampleManifest.e2
    SampleManifest.m1 SampleManifest.m1' SampleManifest.m2) as (_ & Hx & Hy & Hfix).
  - apply SampleManifest.e1_accepted.
  - apply SampleManifest.e1'_accepted.
  - apply SampleManifest.e2_accepted.
  - reflexivity.
  - reflexivity.
  - reflexivity.
  - reflexivity.
  - reflexivity.
  - apply SampleManifest.prev_m2.
  - apply SampleManifest.e1'_lower.
  - intros ingest_all e1 e1' e2 x y. unfold x, y, e1, e1', e2, ingest_all. split; [|split].
    + exact (f_equal (fmap (version ∘ manifest)) Hx).
    + exact (f_equal (fmap (version ∘ manifest)) Hy).
    + apply Hfix. intros e He. rewrite !elem_of_cons, elem_of_nil in He. tauto.
Defined.

Lemma linear_history_converges_witness :
  let ingest_all := ingest_all (crypto := Sample.crypto) (hex := Sample.hex) (pc := SampleManifest.codec) in
  ingest_all (new_set SampleManifest.op) [SampleManifest.e2; SampleManifest.e1; SampleManifest.e2] =
  ingest_all (new_set SampleManifest.op) [SampleManifest.e1; SampleManifest.e2].
Proof.
  apply (linear_history_converges (crypto := Sample.crypto) (hex := Sample.hex) (pc := SampleManifest.codec)).
  - intros x mx y my Ix Iy [Ax _] [Ay _] _.
    assert (forall e, e ∈ [SampleManifest.e1; SampleManifest.e2] ->
      e = SampleManifest.e1 \/ e = SampleManifest.e2) as Hin.
    { intros e He. rewrite !elem_of_cons, elem_of_nil in He. tauto. }
    pose proof (proj1 SampleManifest.e1_accepted) as H1.
    pose proof (proj1 SampleManifest.e2_accepted) as H2.
    destruct (Hin x Ix) as [->| ->], (Hin y Iy) as [->| ->];
      rewrite ?H1, ?H2 in Ax; rewrite ?H1, ?H2 in Ay; injection Ax as <-; injection Ay as <-; split.
    + reflexivity.
    + discriminate.
    + discriminate.
    + intros _. apply SampleManifest.prev_m2.
    + discriminate.
    + discriminate.
    + reflexivity.
    + discriminate.
  - intros e. rewrite !elem_of_cons, !elem_of_nil. tauto.
Defined.

Lemma routes_spec_witness :
  let r := mkRecord SampleManifest.m1 [1] SampleManifest.e1 in
  let s := mkManifestSet SampleManifest.op {["w" := r]} in
  routes s !! "a.eu" = Some "w".
Proof.
  intros r s. apply (routes_spec s [r] "a.eu" "w").
  - reflexivity.
  - assert (live s = [r]) as -> by (vm_compute; reflexivity). set_solver.
  - assert (all s = [r]) as -> by (vm_compute; reflexivity). exists r.
    split_and!; [set_solver|done|unfold serves; set_solver|done|].
    intros r' Hr' _ _. apply list_elem_of_singleton in Hr' as ->. apply le_of_refl.
Defined.

Lemma log_fixed_by_its_tip_witness :
  [SampleManifest.e1] `suffix_of` [SampleManifest.e1] \/ [SampleManifest.e1] `suffix_of` [SampleManifest.e1].
Proof.
  assert (verify_chain (crypto := Sample.crypto) (hex := Sample.hex) (pc := SampleManifest.codec)
    ([SampleManifest.e1] ++ [SampleManifest.e2]) SampleManifest.op
    = Ok [SampleManifest.m1; SampleManifest.m2]) as Hv.
  { apply verify_from_Ok. split; [|split].
    - constructor; [apply SampleManifest.e1_accepted|].
      constructor; [apply SampleManifest.e2_accepted|constructor].
    - intros m [= <-] _. reflexivity.
    - intros [|[|i]] e m m' [= <-] [= <-] Hm; [|discriminate Hm]. injection Hm as <-.
      split; [reflexivity|]. split; [reflexivity|apply SampleManifest.prev_m2]. }
  apply (log_fixed_by_its_tip (crypto := Sample.crypto) (hex := Sample.hex) (pc := SampleManifest.codec)
    SampleManifest.op _ _ SampleManifest.e2 _ _ Hv Hv).
  intros x y Hx Hy _. apply list_elem_of_singleton in Hx as ->. by apply list_elem_of_singleton in Hy.
Defined.

Lemma validated_bundle_is_contained_witness :
  NoDup ((fun p => resolve ["srv"] (split "/" p)) <$> bundle_paths SampleManifest.m1).
Proof.
  apply (validated_bundle_is_contained SampleManifest.m1 ["srv"]); vm_compute; reflexivity.
Defined.
