(* ===== verification/Quorum.v ===== *)
(** * Quorum: the per-object replicated log (crates/rf-core/src/quorum.rs)

    [Raft] is the state of one member; every public method is a function from
    a state to a state and the list of [Action]s it returns.  Sequence numbers
    and epochs are [u64]: additions and subtractions the source writes with
    [+] and [-] wrap. *)

From Stdlib Require Import ZArith Lia Ascii.
From stdpp Require Import prelude gmap sorting strings list.
From S2P Require Import Prelude Text Identity.
Open Scope Z_scope.

Record Entry := mkEntry {
  e_epoch : Z;
  e_seq : Z;
  e_cmd : bytes
}.

Inductive Msg :=
| VoteReq (epoch last_epoch last_seq : Z)
| VoteResp (epoch : Z) (granted : bool)
| Append (epoch prev_seq prev_epoch : Z) (entries : list Entry) (commit : Z)
| AppendResp (epoch match_seq : Z) (ok : bool)
| InstallSnapshot (epoch last_seq last_epoch : Z) (data : bytes).

Inductive Action :=
| PersistMeta
| PersistLog (from_seq : Z)
| Send (to : PublicId) (m : Msg)
| Apply (e : Entry)
| ApplySnapshot (seq : Z) (data : bytes)
| NeedSnapshot (to : PublicId)
| BecameLeader
| LostLeadership.

Inductive Role :=
| Follower
| Candidate (votes : list PublicId)
| Leader (next matched : list (PublicId * Z)).

Record Raft := mkRaft {
  me : PublicId;
  group : list PublicId;
  epoch : Z;
  voted_for : option PublicId;
  log : list Entry;
  base_seq : Z;
  base_epoch : Z;
  commit : Z;
  applied : Z;
  role : Role;
  leader : option PublicId
}.

Record NotLeader := mkNotLeader { hint : option PublicId }.

#[export] Instance Entry_eq_dec : EqDecision Entry.
Proof. solve_decision. Defined.
#[export] Instance Msg_eq_dec : EqDecision Msg.
Proof. solve_decision. Defined.

(** Assignments to the fields of [self]. *)
Definition set_meta (r : Raft) (ep : Z) (v : option PublicId) (l : option PublicId) : Raft :=
  mkRaft (me r) (group r) ep v (log r) (base_seq r) (base_epoch r) (commit r) (applied r) (role r) l.
Definition set_role (r : Raft) (ro : Role) : Raft :=
  mkRaft (me r) (group r) (epoch r) (voted_for r) (log r) (base_seq r) (base_epoch r) (commit r)
    (applied r) ro (leader r).
Definition set_log (r : Raft) (l : list Entry) : Raft :=
  mkRaft (me r) (group r) (epoch r) (voted_for r) l (base_seq r) (base_epoch r) (commit r)
    (applied r) (role r) (leader r).
Definition set_base (r : Raft) (l : list Entry) (bs be : Z) : Raft :=
  mkRaft (me r) (group r) (epoch r) (voted_for r) l bs be (commit r) (applied r) (role r) (leader r).
Definition set_commit (r : Raft) (c a : Z) : Raft :=
  mkRaft (me r) (group r) (epoch r) (voted_for r) (log r) (base_seq r) (base_epoch r) c a (role r)
    (leader r).

Definition id_le (a b : PublicId) : Prop := id_bytes a ⪯ id_bytes b.

#[export] Instance id_le_dec : RelDecision id_le.
Proof. intros a b. unfold id_le. apply _. Defined.

(** [Raft::new]: the group in byte order, with ourselves in it. *)
Definition new (me : PublicId) (group : list PublicId) : Raft :=
  let group := if bool_decide (me ∈ group) then group else group ++ [me] in
  mkRaft me (merge_sort id_le group) 0 None [] 0 0 0 0 Follower None.

(** [Raft::restore]. *)
Definition restore (me : PublicId) (grp : list PublicId) (epoch : Z) (voted_for : option PublicId)
    (base_seq base_epoch : Z) (log : list Entry) (applied : Z) : Raft :=
  let r := new me grp in
  let applied := Z.max applied base_seq in
  mkRaft me (group r) epoch voted_for log base_seq base_epoch applied applied Follower None.

(** [Raft::entry] and [Raft::epoch_at]. *)
Definition entry (r : Raft) (seq : Z) : option Entry :=
  if (seq <=? base_seq r)%Z then None else log r !! Z.to_nat (seq - base_seq r - 1).

Definition epoch_at (r : Raft) (seq : Z) : option Z :=
  if (seq =? base_seq r)%Z then Some (base_epoch r) else e_epoch <$> entry r seq.

(** [Raft::last]: (epoch, seq) of the last entry. *)
Definition last (r : Raft) : Z * Z :=
  match list.last (log r) with
  | Some e => (e_epoch e, e_seq e)
  | None => (base_epoch r, base_seq r)
  end.

(** [Raft::snapshot_point]. *)
Definition snapshot_point (r : Raft) : Z * Z :=
  let ep :=
    if (applied r =? base_seq r)%Z then base_epoch r
    else match entry r (applied r) with Some e => e_epoch e | None => base_epoch r end in
  (applied r, ep).

(** [Raft::compact]: the state and whether anything was dropped. *)
Definition compact (r : Raft) (keep_tail : Z) : Raft * bool :=
  let new_base := sat_sub (applied r) keep_tail in
  if (new_base <=? base_seq r)%Z then (r, false)
  else match entry r new_base with
       | None => (r, false)
       | Some e =>
           (set_base r (drop (Z.to_nat (new_base - base_seq r)) (log r)) new_base (e_epoch e), true)
       end.

Definition is_leader (r : Raft) : bool :=
  match role r with Leader _ _ => true | _ => false end.

Definition leader_hint (r : Raft) : option PublicId :=
  if is_leader r then Some (me r)
  else match leader r with Some l => Some l | None => voted_for r end.

Definition majority (r : Raft) : nat := (length (group r) / 2 + 1)%nat.

Definition others (r : Raft) : list PublicId := filter (fun p => p <> me r) (group r).

(** [Raft::become_follower]. *)
Definition become_follower (r : Raft) (ep : Z) : Raft * list Action :=
  let was_leader := is_leader r in
  let bump := (ep >? epoch r)%Z in
  let r := if bump then set_meta r ep None None else r in
  let r := set_role r Follower in
  (r, (if bump then [PersistMeta] else []) ++ (if was_leader then [LostLeadership] else [])).

(** One peer's turn of [Raft::replicate_all]. *)
Definition replicate_one (r : Raft) (pn : PublicId * Z) : Action :=
  let '(peer, next_seq) := pn in
  let prev_seq := wsub 64 next_seq 1 in
  if (prev_seq <? base_seq r)%Z then NeedSnapshot peer
  else
    let prev_epoch := default 0 (epoch_at r prev_seq) in
    let entries := filter (fun e => next_seq <= e_seq e) (log r) in
    Send peer (Append (epoch r) prev_seq prev_epoch entries (commit r)).

Definition replicate_all (r : Raft) : list Action :=
  match role r with
  | Leader next _ => replicate_one r <$> next
  | _ => []
  end.

(** [Raft::apply_committed]: the loop runs [commit - applied] times. *)
Fixpoint apply_loop (n : nat) (r : Raft) (a : Z) : list Action :=
  match n with
  | O => []
  | S n' =>
      let a' := a + 1 in
      match entry r a' with Some e => [Apply e] | None => [] end ++ apply_loop n' r a'
  end.

Definition apply_committed (r : Raft) : Raft * list Action :=
  (set_commit r (commit r) (Z.max (applied r) (commit r)),
   apply_loop (Z.to_nat (commit r - applied r)) r (applied r)).

(** [1 + matched.iter().filter(..).count()]. *)
Definition replicas (matched : list (PublicId * Z)) (n : Z) : nat :=
  S (length (filter (fun pm : PublicId * Z => n <= pm.2) matched)).

(** The loop of [Raft::advance_commit] over [k] sequence numbers from [n]. *)
Fixpoint commit_loop (k : nat) (r : Raft) (matched : list (PublicId * Z)) (n candidate : Z) : Z :=
  match k with
  | O => candidate
  | S k' =>
      if bool_decide (majority r <= replicas matched n)%nat then
        commit_loop k' r matched (n + 1)
          (if bool_decide (e_epoch <$> entry r n = Some (epoch r)) then n else candidate)
      else candidate
  end.

Definition advance_commit (r : Raft) : Raft * list Action :=
  match role r with
  | Leader _ matched =>
      let me_last := (last r).2 in
      let first := wadd 64 (commit r) 1 in
      let candidate := commit_loop (Z.to_nat (me_last - first + 1)) r matched first (commit r) in
      let advanced := (candidate >? commit r)%Z in
      let r := if advanced then set_commit r candidate (applied r) else r in
      let '(r, actions) := apply_committed r in
      (r, actions ++ (if advanced then replicate_all r else []))
  | _ => (r, [])
  end.

(** [Raft::try_win]. *)
Definition try_win (r : Raft) : Raft * list Action :=
  match role r with
  | Candidate votes =>
      if bool_decide (length votes < majority r)%nat then (r, [])
      else
        let next_seq := wadd 64 (last r).2 1 in
        let r := set_role r (Leader ((fun p => (p, next_seq)) <$> others r) ((fun p => (p, 0)) <$> others r)) in
        (r, BecameLeader :: replicate_all r)
  | _ => (r, [])
  end.

(** [Raft::tick_election]. *)
Definition tick_election (r : Raft) : Raft * list Action :=
  if is_leader r then (r, [])
  else
    let r := set_meta r (wadd 64 (epoch r) 1) (Some (me r)) None in
    let r := set_role r (Candidate [me r]) in
    let '(last_epoch, last_seq) := last r in
    let requests := (fun peer => Send peer (VoteReq (epoch r) last_epoch last_seq)) <$> others r in
    let '(r, won) := try_win r in
    (r, PersistMeta :: requests ++ won).

(** [Raft::heartbeat]. *)
Definition heartbeat (r : Raft) : list Action :=
  if is_leader r then replicate_all r else [].

(** [Raft::propose]. *)
Definition propose (r : Raft) (cmd : bytes) : Raft * result (Z * list Action) NotLeader :=
  if negb (is_leader r) then (r, Err (mkNotLeader (leader_hint r)))
  else
    let seq := wadd 64 (last r).2 1 in
    let r := set_log r (log r ++ [mkEntry (epoch r) seq cmd]) in
    let sends := replicate_all r in
    let '(r, committed) := advance_commit r in
    (r, Ok (seq, PersistLog seq :: sends ++ committed)).

(** [iter_mut().find(..)]: update the first pair for [p]. *)
Fixpoint update_first (p : PublicId) (f : Z -> Z) (l : list (PublicId * Z)) : list (PublicId * Z) :=
  match l with
  | [] => []
  | (q, x) :: l' => if bool_decide (q = p) then (q, f x) :: l' else (q, x) :: update_first p f l'
  end.

(** One entry of an [Append]: skip what the snapshot covers or what matches,
    else cut the log there and push.  [pf] is [persist_from]. *)
Definition append_one (r : Raft) (pf : option Z) (e : Entry) : Raft * option Z :=
  if (e_seq e <=? base_seq r)%Z then (r, pf)
  else
    let push :=
      (set_log r (take (Z.to_nat (e_seq e - base_seq r - 1)) (log r) ++ [e]),
       Some (default (e_seq e) pf)) in
    match entry r (e_seq e) with
    | Some existing => if (e_epoch existing =? e_epoch e)%Z then (r, pf) else push
    | None => push
    end.

Fixpoint append_entries (r : Raft) (pf : option Z) (es : list Entry) : Raft * option Z :=
  match es with
  | [] => (r, pf)
  | e :: es' => let '(r, pf) := append_one r pf e in append_entries r pf es'
  end.

(** [Raft::handle], one definition per message. *)
Definition handle_vote_req (r : Raft) (from : PublicId) (ep last_epoch last_seq : Z) : Raft * list Action :=
  let '(r, actions) := if (ep >? epoch r)%Z then become_follower r ep else (r, []) in
  let up_to_date := leb (last r) (last_epoch, last_seq) in
  let granted :=
    (ep =? epoch r)%Z && up_to_date
    && (bool_decide (voted_for r = None) || bool_decide (voted_for r = Some from)) in
  let '(r, persist) :=
    if granted && bool_decide (voted_for r = None)
    then (set_meta r (epoch r) (Some from) (leader r), [PersistMeta])
    else (r, []) in
  (r, actions ++ persist ++ [Send from (VoteResp (epoch r) granted)]).

Definition handle_vote_resp (r : Raft) (from : PublicId) (ep : Z) (granted : bool) : Raft * list Action :=
  if (ep >? epoch r)%Z then become_follower r ep
  else if negb (ep =? epoch r)%Z || negb granted then (r, [])
  else
    let r :=
      match role r with
      | Candidate votes =>
          if bool_decide (from ∈ votes) then r else set_role r (Candidate (votes ++ [from]))
      | _ => r
      end in
    try_win r.

(** The common start of [Append] and [InstallSnapshot] at an epoch that is not
    behind ours: follow the sender. *)
Definition follow (r : Raft) (from : PublicId) (ep : Z) : Raft * list Action :=
  let '(r, actions) := become_follower r ep in
  let r := set_meta r (epoch r) (voted_for r) (Some from) in
  if bool_decide (voted_for r = None)
  then (set_meta r (epoch r) (Some from) (leader r), actions ++ [PersistMeta])
  else (r, actions).

Definition prev_ok (r : Raft) (prev_seq prev_epoch : Z) : bool :=
  (prev_seq =? 0)%Z || (prev_seq <? base_seq r)%Z || bool_decide (epoch_at r prev_seq = Some prev_epoch).

Definition handle_append (r : Raft) (from : PublicId) (ep prev_seq prev_epoch : Z)
    (entries : list Entry) (cm : Z) : Raft * list Action :=
  if (ep <? epoch r)%Z then (r, [Send from (AppendResp (epoch r) 0 false)])
  else
    let '(r, actions) := follow r from ep in
    if negb (prev_ok r prev_seq prev_epoch) then
      let hint := Z.max (Z.min (last r).2 (sat_sub prev_seq 1)) (base_seq r) in
      (r, actions ++ [Send from (AppendResp (epoch r) hint false)])
    else
      let '(r, persist_from) := append_entries r None entries in
      let persist := match persist_from with Some f => [PersistLog f] | None => [] end in
      let match_seq := (last r).2 in
      let '(r, applies) :=
        if (cm >? commit r)%Z
        then apply_committed (set_commit r (Z.min cm match_seq) (applied r))
        else (r, []) in
      (r, actions ++ persist ++ applies ++ [Send from (AppendResp (epoch r) match_seq true)]).

Definition handle_snapshot (r : Raft) (from : PublicId) (ep last_seq last_epoch : Z) (data : bytes)
    : Raft * list Action :=
  if (ep <? epoch r)%Z then (r, [Send from (AppendResp (epoch r) 0 false)])
  else
    let '(r, actions) := follow r from ep in
    if (last_seq <=? applied r)%Z then
      (r, actions ++ [Send from (AppendResp (epoch r) (last r).2 true)])
    else
      let r := set_commit (set_base r [] last_seq last_epoch) last_seq last_seq in
      (r, actions ++ [ApplySnapshot last_seq data; PersistMeta; PersistLog (wadd 64 last_seq 1);
                      Send from (AppendResp (epoch r) last_seq true)]).

(** How far to back up towards the follower's hint. *)
Definition back_up (base match_seq n : Z) : Z :=
  let floor := wadd 64 base 1 in
  if (n <=? floor)%Z then Z.max base 1
  else Z.max (Z.min (wadd 64 match_seq 1) (wsub 64 n 1)) floor.

Definition handle_append_resp (r : Raft) (from : PublicId) (ep match_seq : Z) (ok : bool)
    : Raft * list Action :=
  if (ep >? epoch r)%Z then become_follower r ep
  else if negb (ep =? epoch r)%Z then (r, [])
  else match role r with
       | Leader next matched =>
           if ok then
             advance_commit (set_role r
               (Leader (update_first from (fun _ => wadd 64 match_seq 1) next)
                       (update_first from (fun m => Z.max m match_seq) matched)))
           else
             let r := set_role r (Leader (update_first from (back_up (base_seq r) match_seq) next) matched) in
             (r, replicate_all r)
       | _ => (r, [])
       end.

Definition handle (r : Raft) (from : PublicId) (m : Msg) : Raft * list Action :=
  match m with
  | VoteReq ep le ls => handle_vote_req r from ep le ls
  | VoteResp ep granted => handle_vote_resp r from ep granted
  | Append ep ps pe es cm => handle_append r from ep ps pe es cm
  | InstallSnapshot ep ls le data => handle_snapshot r from ep ls le data
  | AppendResp ep ms ok => handle_append_resp r from ep ms ok
  end.

Section rendezvous.
Context {crypto : Crypto}.

(** The score of a node for an object. *)
Definition score (object : string) (node : PublicId) : bytes :=
  sha256 (as_bytes object ++ [0] ++ id_bytes node).

Definition scored_le (a b : bytes * PublicId) : Prop := a ⪯ b.

#[export] Instance scored_le_dec : RelDecision scored_le.
Proof. intros a b. unfold scored_le. apply _. Defined.

(** [rendezvous_group]: the [size] nodes of highest score, best first. *)
Definition rendezvous_group (object : string) (universe : list PublicId) (size : nat) : list PublicId :=
  let scored := (fun node => (score object node, node)) <$> universe in
  snd <$> take size (reverse (merge_sort scored_le scored)).
End rendezvous.

(** ** Well-formed members *)

(** Entries numbered consecutively from [from]. *)
Definition contiguous (from : Z) (es : list Entry) : Prop :=
  forall i e, es !! i = Some e -> e_seq e = from + Z.of_nat i.

(** No sequence number or epoch has reached the end of its width. *)
Record wf (r : Raft) : Prop := mk_wf {
  wf_log : contiguous (base_seq r + 1) (log r);
  wf_base : 0 <= base_seq r;
  wf_applied : base_seq r <= applied r < u64_max;
  wf_commit : 0 <= commit r < u64_max;
  wf_last : base_seq r + Z.of_nat (length (log r)) < u64_max;
  wf_role : match role r with
            | Leader next matched => Forall (fun pn => 1 <= pn.2 <= u64_max) next
            | _ => True
            end
}.

Definition msg_wf (m : Msg) : Prop :=
  match m with
  | VoteReq _ _ _ | VoteResp _ _ => True
  | Append _ prev_seq _ entries cm =>
      0 <= prev_seq /\ contiguous (prev_seq + 1) entries /\
      prev_seq + Z.of_nat (length entries) < u64_max /\ cm < u64_max
  | AppendResp _ match_seq _ => 0 <= match_seq < u64_max
  | InstallSnapshot _ last_seq _ _ => 0 <= last_seq < u64_max
  end.

Definition action_wf (a : Action) : Prop :=
  match a with Send _ m => msg_wf m | _ => True end.

Lemma contiguous_nil (from : Z) : contiguous from [].
Proof. intros i e. done. Qed.

Lemma contiguous_cons (from : Z) (e : Entry) (es : list Entry) :
  contiguous from (e :: es) <-> e_seq e = from /\ contiguous (from + 1) es.
Proof.
  split.
  - intros H. split; [rewrite (H 0%nat e); [lia|done]|].
    intros i x Hx. rewrite (H (S i) x Hx). lia.
  - intros [H0 H] [|i] x Hx; simpl in Hx; [injection Hx as <-; lia|].
    rewrite (H i x Hx). lia.
Qed.

Lemma contiguous_app (from : Z) (es es' : list Entry) :
  contiguous from (es ++ es') <-> contiguous from es /\ contiguous (from + Z.of_nat (length es)) es'.
Proof.
  revert from. induction es as [|e es IH]; intros from; simpl.
  - rewrite Z.add_0_r. pose proof (contiguous_nil from). tauto.
  - rewrite !contiguous_cons, IH, Nat2Z.inj_succ.
    replace (from + 1 + Z.of_nat (length es)) with (from + Z.succ (Z.of_nat (length es))) by lia. tauto.
Qed.

Lemma contiguous_take (from : Z) (n : nat) (es : list Entry) :
  contiguous from es -> contiguous from (take n es).
Proof. intros H. rewrite <- (take_drop n es) in H. by apply contiguous_app in H as [H _]. Qed.

Lemma contiguous_drop (from : Z) (n : nat) (es : list Entry) :
  (n <= length es)%nat -> contiguous from es -> contiguous (from + Z.of_nat n) (drop n es).
Proof.
  intros Hn H. rewrite <- (take_drop n es) in H. apply contiguous_app in H as [_ H].
  by rewrite length_take, Nat.min_l in H.
Qed.

(** The filter of [replicate_all] is a suffix of a contiguous log. *)
Lemma filter_suffix (from k : Z) (es : list Entry) :
  contiguous from es -> from <= k ->
  filter (fun e => k <= e_seq e) es = drop (Z.to_nat (k - from)) es.
Proof.
  revert from. induction es as [|e es IH]; intros from H Hk; [by destruct (Z.to_nat (k - from))|].
  apply contiguous_cons in H as [He H]. destruct (decide (k = from)) as [->|Hne].
  - rewrite Z.sub_diag; simpl. rewrite filter_cons_True by lia. f_equal.
    assert (forall f es, contiguous f es -> from <= f -> filter (fun e => from <= e_seq e) es = es) as Hall.
    { clear. intros f es. revert f. induction es as [|e es IH]; intros f H Hf; [done|].
      apply contiguous_cons in H as [He H].
      rewrite filter_cons_True by lia. f_equal. apply (IH (f + 1)); [done|lia]. }
    apply (Hall (from + 1)); [done|lia].
  - rewrite filter_cons_False by lia. rewrite (IH (from + 1)) by (done || lia).
    replace (Z.to_nat (k - from)) with (S (Z.to_nat (k - (from + 1)))) by lia. done.
Qed.

Lemma last_seq_wf (r : Raft) : contiguous (base_seq r + 1) (log r) ->
  (last r).2 = base_seq r + Z.of_nat (length (log r)).
Proof.
  intros H. unfold last. destruct (list.last (log r)) as [e|] eqn:E; simpl.
  - rewrite last_lookup in E. rewrite (H _ _ E).
    destruct (log r); [done|simpl; lia].
  - apply last_None in E as ->. simpl. lia.
Qed.

Lemma entry_in_range (r : Raft) (s : Z) :
  base_seq r < s <= base_seq r + Z.of_nat (length (log r)) -> is_Some (entry r s).
Proof.
  intros Hs. unfold entry. destruct (Z.leb_spec s (base_seq r)); [lia|].
  apply lookup_lt_is_Some. lia.
Qed.

Lemma entry_seq (r : Raft) (s : Z) (e : Entry) :
  contiguous (base_seq r + 1) (log r) -> entry r s = Some e ->
  e_seq e = s /\ base_seq r < s <= base_seq r + Z.of_nat (length (log r)).
Proof.
  intros H. unfold entry. destruct (Z.leb_spec s (base_seq r)); [done|]. intros He.
  rewrite (H _ _ He). apply lookup_lt_Some in He. lia.
Qed.

(** *** Every operation keeps members and messages well formed *)

Definition out_wf (o : Raft * list Action) : Prop := wf o.1 /\ Forall action_wf o.2.

Lemma wf_set_meta (r : Raft) ep v l : wf r -> wf (set_meta r ep v l).
Proof. by intros []. Qed.

Lemma wf_set_role (r : Raft) (ro : Role) :
  wf r -> match ro with Leader next _ => Forall (fun pn => 1 <= pn.2 <= u64_max) next | _ => True end ->
  wf (set_role r ro).
Proof. intros [] ?. by split. Qed.

Lemma wf_set_commit (r : Raft) (c a : Z) :
  wf r -> 0 <= c < u64_max -> base_seq r <= a < u64_max -> wf (set_commit r c a).
Proof. intros [] ? ?. by split. Qed.

Lemma last_set_meta (r : Raft) ep v l : last (set_meta r ep v l) = last r.
Proof. done. Qed.
Lemma last_set_role (r : Raft) ro : last (set_role r ro) = last r.
Proof. done. Qed.

Lemma wf_last_seq (r : Raft) : wf r -> base_seq r <= (last r).2 < u64_max.
Proof. intros H. rewrite last_seq_wf by apply H. pose proof (wf_last r H). lia. Qed.

Lemma become_follower_wf (r : Raft) (ep : Z) : wf r -> out_wf (become_follower r ep).
Proof.
  intros H. unfold become_follower. split; simpl.
  - apply wf_set_role; [|done]. destruct (ep >? epoch r)%Z; [by apply wf_set_meta|done].
  - destruct (ep >? epoch r)%Z, (is_leader r); repeat constructor.
Qed.

Lemma follow_wf (r : Raft) (from : PublicId) (ep : Z) : wf r -> out_wf (follow r from ep).
Proof.
  intros H. unfold follow. pose proof (become_follower_wf r ep H) as [Hw Ha].
  destruct (become_follower r ep) as [r' acts]; simpl in *. case_bool_decide; split; simpl.
  - by do 2 apply wf_set_meta.
  - apply Forall_app. split; [done|repeat constructor].
  - by apply wf_set_meta.
  - done.
Qed.

Lemma replicate_one_wf (r : Raft) (pn : PublicId * Z) :
  wf r -> 1 <= pn.2 <= u64_max -> action_wf (replicate_one r pn).
Proof.
  intros Hw Hn. destruct pn as [p next]; simpl in *. unfold u64_max, umax in *.
  rewrite wsub_small by lia. destruct (Z.ltb_spec (next - 1) (base_seq r)); [done|]. simpl.
  rewrite (filter_suffix (base_seq r + 1)) by (apply Hw || lia).
  pose proof (wf_last r Hw) as Hl. pose proof (wf_commit r Hw). unfold u64_max, umax in *.
  split; [lia|]. split; [|split; [|lia]].
  - destruct (decide (Z.to_nat (next - (base_seq r + 1)) <= length (log r))%nat) as [Hle|Hgt].
    + replace (next - 1 + 1) with (base_seq r + 1 + Z.of_nat (Z.to_nat (next - (base_seq r + 1)))) by lia.
      apply contiguous_drop; [done|apply Hw].
    + rewrite drop_ge by lia. apply contiguous_nil.
  - rewrite length_drop. lia.
Qed.

Lemma replicate_all_wf (r : Raft) : wf r -> Forall action_wf (replicate_all r).
Proof.
  intros Hw. unfold replicate_all. pose proof (wf_role r Hw) as Hr.
  destruct (role r) as [| |next matched]; [constructor..|].
  apply Forall_fmap. eapply Forall_impl; [exact Hr|]. intros pn Hpn. by apply replicate_one_wf.
Qed.

Lemma apply_loop_wf (n : nat) (r : Raft) (a : Z) : Forall action_wf (apply_loop n r a).
Proof.
  revert a. induction n as [|n IH]; intros a; simpl; [constructor|].
  apply Forall_app. split; [|apply IH]. destruct (entry r (a + 1)); repeat constructor.
Qed.

Lemma apply_committed_wf (r : Raft) : wf r -> out_wf (apply_committed r).
Proof.
  intros Hw. split; [|apply apply_loop_wf]. simpl.
  pose proof (wf_applied r Hw). pose proof (wf_commit r Hw). apply wf_set_commit; [done|lia..].
Qed.

Lemma commit_loop_range (k : nat) (r : Raft) (matched : list (PublicId * Z)) (n cand : Z) :
  cand < n -> cand <= commit_loop k r matched n cand < n + Z.of_nat k \/ commit_loop k r matched n cand = cand.
Proof.
  revert n cand. induction k as [|k IH]; intros n cand Hc; simpl; [by right|].
  case_bool_decide; [|by right]. case_bool_decide.
  - destruct (IH (n + 1) n) as [?| ->]; lia.
  - destruct (IH (n + 1) cand) as [?| ->]; lia.
Qed.

Lemma advance_commit_wf (r : Raft) : wf r -> out_wf (advance_commit r).
Proof.
  intros Hw. unfold advance_commit. destruct (role r) as [| |next matched] eqn:Er; [by split..|].
  set (cand := commit_loop _ _ _ _ _).
  assert (0 <= cand < u64_max) as Hc.
  { pose proof (wf_last_seq r Hw). pose proof (wf_commit r Hw). unfold u64_max, umax in *.
    destruct (commit_loop_range (Z.to_nat ((last r).2 - wadd 64 (commit r) 1 + 1)) r matched
      (wadd 64 (commit r) 1) (commit r)) as [Hr|Hr]; [rewrite wadd_small by lia; lia| |];
      fold cand in Hr; [|lia].
    destruct (decide ((last r).2 <= commit r)) as [Hle|]; [|rewrite wadd_small in Hr by lia; lia].
    unfold cand. rewrite wadd_small by lia.
    replace (Z.to_nat _) with 0%nat by lia. simpl. lia. }
  set (r1 := if (cand >? commit r)%Z then _ else r).
  assert (wf r1) as Hw1.
  { unfold r1. destruct (cand >? commit r)%Z; [|done]. apply wf_set_commit; [done..|apply Hw]. }
  pose proof (apply_committed_wf r1 Hw1) as [Hw2 Ha]. destruct (apply_committed r1) as [r2 acts].
  split; simpl in *; [done|]. apply Forall_app. split; [done|].
  destruct (cand >? commit r)%Z; [by apply replicate_all_wf|constructor].
Qed.

Lemma try_win_wf (r : Raft) : wf r -> out_wf (try_win r).
Proof.
  intros Hw. unfold try_win. destruct (role r) as [|votes|]; [by split| |by split].
  case_bool_decide; [by split|]. pose proof (wf_last_seq r Hw). pose proof (wf_base r Hw).
  unfold u64_max, umax in *. rewrite wadd_small by lia.
  set (ro := Leader _ _). assert (wf (set_role r ro)) as Hw'.
  { apply wf_set_role; [done|]. apply Forall_fmap, Forall_forall. intros p _. simpl.
    unfold u64_max, umax. lia. }
  split; [done|]. constructor; [done|]. by apply replicate_all_wf.
Qed.

Lemma tick_election_wf (r : Raft) : wf r -> out_wf (tick_election r).
Proof.
  intros Hw. unfold tick_election. destruct (is_leader r); [by split|].
  set (r1 := set_role _ _). assert (wf r1) as Hw1 by (apply wf_set_role; [by apply wf_set_meta|done]).
  destruct (last r1) as [le ls]. pose proof (try_win_wf r1 Hw1) as [Hw2 Ha].
  destruct (try_win r1) as [r2 won]. split; [done|]. simpl in *.
  constructor; [done|]. apply Forall_app. split; [|done]. apply Forall_fmap, Forall_forall. done.
Qed.

Lemma heartbeat_wf (r : Raft) : wf r -> Forall action_wf (heartbeat r).
Proof. intros Hw. unfold heartbeat. destruct (is_leader r); [by apply replicate_all_wf|constructor]. Qed.

Lemma propose_wf (r : Raft) (cmd : bytes) :
  wf r -> (last r).2 + 1 < u64_max ->
  wf (propose r cmd).1 /\
  forall seq acts, (propose r cmd).2 = Ok (seq, acts) -> Forall action_wf acts.
Proof.
  intros Hw Hl. unfold propose. destruct (is_leader r); simpl; [|by split].
  pose proof (wf_last_seq r Hw) as Hb. pose proof (last_seq_wf r (wf_log r Hw)) as Hs.
  pose proof (wf_base r Hw). unfold u64_max, umax in *. rewrite wadd_small by lia.
  set (r1 := set_log _ _). assert (wf r1) as Hw1.
  { destruct Hw. split; simpl; try done.
    - apply contiguous_app. split; [done|]. apply contiguous_cons. split; [simpl; lia|apply contiguous_nil].
    - rewrite length_app; simpl. unfold u64_max, umax. lia. }
  pose proof (advance_commit_wf r1 Hw1) as [Hw2 Ha]. destruct (advance_commit r1) as [r2 acts].
  simpl in *. split; [done|]. intros seq acts' [= <- <-]. constructor; [done|].
  apply Forall_app. split; [by apply replicate_all_wf|done].
Qed.

Lemma append_one_wf (r : Raft) (pf : option Z) (e : Entry) :
  wf r -> e_seq e <= (last r).2 + 1 -> e_seq e < u64_max ->
  wf (append_one r pf e).1 /\ e_seq e <= (last (append_one r pf e).1).2 /\
  base_seq (append_one r pf e).1 = base_seq r.
Proof.
  intros Hw Hl Hm. pose proof (wf_last_seq r Hw). pose proof (last_seq_wf r (wf_log r Hw)) as Hs.
  unfold append_one. destruct (Z.leb_spec (e_seq e) (base_seq r)); simpl; [split_and!; [done|lia|done]|].
  set (l := take _ _ ++ [e]).
  assert (wf (set_log r l) /\ e_seq e <= (last (set_log r l)).2) as Hpush.
  { assert (wf (set_log r l)) as Hw'.
    { pose proof Hw as []. split; simpl; try done; unfold l.
      - apply contiguous_app. split; [by apply contiguous_take|].
        rewrite length_take, Nat.min_l by lia. apply contiguous_cons. split; [lia|apply contiguous_nil].
      - rewrite length_app, length_take; simpl. lia. }
    split; [done|]. rewrite last_seq_wf by apply Hw'. simpl. unfold l.
    rewrite length_app, length_take; simpl. lia. }
  destruct (entry r (e_seq e)) as [x|] eqn:Ex; [destruct (Z.eqb_spec (e_epoch x) (e_epoch e))|]; simpl;
    [|naive_solver..].
  apply entry_seq in Ex; [|apply Hw]. split_and!; [done|lia|done].
Qed.

Lemma append_entries_wf (es : list Entry) (r : Raft) (pf : option Z) (from : Z) :
  wf r -> contiguous from es -> from <= (last r).2 + 1 -> from + Z.of_nat (length es) <= u64_max ->
  wf (append_entries r pf es).1 /\ from - 1 + Z.of_nat (length es) <= (last (append_entries r pf es).1).2.
Proof.
  revert r pf from. induction es as [|e es IH]; intros r pf from Hw Hc Hl Hm;
    cbn [append_entries length] in *; [split; simpl; [done|lia]|].
  apply contiguous_cons in Hc as [He Hc].
  destruct (append_one_wf r pf e) as (Hw1 & Hl1 & _); [done|lia..|].
  destruct (append_one r pf e) as [r1 pf1]; simpl in *.
  destruct (IH r1 pf1 (from + 1)) as [Hw2 Hl2]; [done..|lia|lia|]. split; [done|lia].
Qed.

Lemma prev_ok_last (r : Raft) (ps pe : Z) : wf r -> prev_ok r ps pe = true -> ps <= (last r).2.
Proof.
  intros Hw Hp. pose proof (wf_last_seq r Hw). pose proof (wf_base r Hw). unfold prev_ok in Hp.
  destruct (Z.eqb_spec ps 0); [lia|]. destruct (Z.ltb_spec ps (base_seq r)); [lia|]. simpl in Hp.
  apply bool_decide_eq_true in Hp. unfold epoch_at in Hp.
  destruct (Z.eqb_spec ps (base_seq r)); [lia|].
  destruct (entry r ps) as [x|] eqn:Ex; [|done]. apply entry_seq in Ex; [|apply Hw].
  rewrite last_seq_wf by apply Hw. lia.
Qed.

Lemma handle_vote_req_wf (r : Raft) from ep le ls : wf r -> out_wf (handle_vote_req r from ep le ls).
Proof.
  intros Hw. unfold handle_vote_req.
  set (start := if (ep >? epoch r)%Z then _ else _).
  assert (out_wf start) as [Hw1 Ha].
  { unfold start. destruct (ep >? epoch r)%Z; [by apply become_follower_wf|by split]. }
  destruct start as [r1 acts]; simpl in *.
  destruct (_ && bool_decide (voted_for r1 = None)); split; simpl.
  - by apply wf_set_meta.
  - apply Forall_app. split; [done|repeat constructor].
  - done.
  - apply Forall_app. split; [done|repeat constructor].
Qed.

Lemma handle_vote_resp_wf (r : Raft) from ep granted : wf r -> out_wf (handle_vote_resp r from ep granted).
Proof.
  intros Hw. unfold handle_vote_resp. destruct (ep >? epoch r)%Z; [by apply become_follower_wf|].
  destruct (_ || _); [by split|]. apply try_win_wf.
  destruct (role r) eqn:Er; [done| |done]. case_bool_decide; [done|]. by apply wf_set_role.
Qed.

Lemma handle_append_wf (r : Raft) from ep ps pe es cm :
  wf r -> msg_wf (Append ep ps pe es cm) -> out_wf (handle_append r from ep ps pe es cm).
Proof.
  intros Hw (Hps & Hc & Hlen & Hcm). unfold handle_append.
  destruct (Z.ltb_spec ep (epoch r)).
  { split; [done|]. constructor; [|constructor]. simpl. unfold u64_max, umax. lia. }
  pose proof (follow_wf r from ep Hw) as [Hw1 Ha1]. destruct (follow r from ep) as [r1 acts]; simpl in *.
  pose proof (wf_last_seq r1 Hw1). pose proof (wf_base r1 Hw1).
  destruct (prev_ok r1 ps pe) eqn:Ep; simpl.
  2:{ split; simpl; [done|]. apply Forall_app. split; [done|]. constructor; [|constructor]. simpl.
      unfold sat_sub. lia. }
  apply prev_ok_last in Ep; [|done].
  destruct (append_entries_wf es r1 None (ps + 1)) as [Hw2 Hl2]; [done..|lia|lia|].
  destruct (append_entries r1 None es) as [r2 pf]; simpl in *.
  pose proof (wf_last_seq r2 Hw2) as Hl. pose proof (wf_base r2 Hw2). pose proof (wf_commit r2 Hw2).
  set (fin := if (cm >? commit r2)%Z then _ else _).
  assert (out_wf fin) as [Hw3 Ha3].
  { unfold fin. destruct (Z.gtb_spec cm (commit r2)); [|by split].
    apply apply_committed_wf, wf_set_commit; [done|lia|apply Hw2]. }
  destruct fin as [r3 applies]; simpl in *. split; [done|]. simpl.
  repeat (apply Forall_app; split); [done|destruct pf; repeat constructor|done|].
  constructor; [simpl; lia|constructor].
Qed.

Lemma handle_snapshot_wf (r : Raft) from ep ls le data :
  wf r -> msg_wf (InstallSnapshot ep ls le data) -> out_wf (handle_snapshot r from ep ls le data).
Proof.
  intros Hw Hls. simpl in Hls. unfold handle_snapshot. destruct (Z.ltb_spec ep (epoch r)).
  { split; [done|]. constructor; [|constructor]. simpl. unfold u64_max, umax. lia. }
  pose proof (follow_wf r from ep Hw) as [Hw1 Ha1]. destruct (follow r from ep) as [r1 acts]; simpl in *.
  pose proof (wf_last_seq r1 Hw1). pose proof (wf_base r1 Hw1).
  destruct (Z.leb_spec ls (applied r1)); split; simpl.
  - done.
  - apply Forall_app. split; [done|]. constructor; [simpl; lia|constructor].
  - split; simpl; try done; [lia|lia|lia|apply Hw1].
  - apply Forall_app. split; [done|]. repeat constructor; lia.
Qed.

Lemma update_first_Forall (P : PublicId * Z -> Prop) (p : PublicId) (f : Z -> Z) l :
  Forall P l -> (forall q x, P (q, x) -> P (q, f x)) -> Forall P (update_first p f l).
Proof.
  intros Hl Hf. induction Hl as [|[q x] l Hx Hl IH]; simpl; [constructor|].
  case_bool_decide; constructor; auto.
Qed.

Lemma back_up_range (base ms n : Z) :
  0 <= base < u64_max -> 0 <= ms < u64_max -> 1 <= n <= u64_max -> 1 <= back_up base ms n <= u64_max.
Proof.
  unfold back_up, u64_max, umax. intros Hb Hm Hn. rewrite (wadd_small 64 base) by lia.
  destruct (Z.leb_spec n (base + 1)); [lia|].
  rewrite wadd_small by lia. rewrite wsub_small by lia. lia.
Qed.

Lemma handle_append_resp_wf (r : Raft) from ep ms ok :
  wf r -> msg_wf (AppendResp ep ms ok) -> out_wf (handle_append_resp r from ep ms ok).
Proof.
  intros Hw Hms. simpl in Hms. unfold handle_append_resp.
  destruct (ep >? epoch r)%Z; [by apply become_follower_wf|]. destruct (negb _); [by split|].
  pose proof (wf_role r Hw) as Hr. destruct (role r) as [| |next matched]; [by split..|]. destruct ok.
  - apply advance_commit_wf, wf_set_role; [done|]. apply update_first_Forall; [done|].
    intros q x _. simpl. unfold u64_max, umax in *. rewrite wadd_small by lia. lia.
  - assert (base_seq r < u64_max) by (pose proof (wf_applied r Hw); lia). pose proof (wf_base r Hw).
    set (ro := Leader _ _). assert (wf (set_role r ro)) as Hw'.
    { apply wf_set_role; [done|]. apply update_first_Forall; [done|].
      intros q x Hx. apply back_up_range; [lia|done|exact Hx]. }
    split; [done|]. by apply replicate_all_wf.
Qed.

Lemma handle_wf (r : Raft) (from : PublicId) (m : Msg) : wf r -> msg_wf m -> out_wf (handle r from m).
Proof.
  intros Hw Hm. destruct m; simpl.
  - by apply handle_vote_req_wf.
  - by apply handle_vote_resp_wf.
  - by apply handle_append_wf.
  - by apply handle_append_resp_wf.
  - by apply handle_snapshot_wf.
Qed.

Lemma compact_wf (r : Raft) (keep : Z) : wf r -> 0 <= keep -> wf (compact r keep).1.
Proof.
  intros Hw Hk. unfold compact, sat_sub. destruct (Z.leb_spec (Z.max (applied r - keep) 0) (base_seq r)); [done|].
  destruct (entry r _) as [e|] eqn:Ee; [|done]. apply entry_seq in Ee as [_ He]; [|apply Hw]. simpl.
  pose proof (wf_base r Hw). set (b := Z.max (applied r - keep) 0) in *.
  pose proof Hw as []. split; simpl; try done; [|lia|lia|].
  - replace (b + 1) with (base_seq r + 1 + Z.of_nat (Z.to_nat (b - base_seq r))) by lia.
    apply contiguous_drop; [lia|done].
  - rewrite length_drop. lia.
Qed.

Lemma new_wf (p : PublicId) (g : list PublicId) : wf (new p g).
Proof. split; simpl; try (unfold u64_max, umax; lia); done. Qed.

(** ** Durable votes

    What a member must not forget is its epoch and its vote in it. *)

Definition meta (r : Raft) : Z * option PublicId := (epoch r, voted_for r).

(** [meta] only moves to a later epoch, or takes a first vote in the same one. *)
Definition meta_le (a b : Z * option PublicId) : Prop :=
  a.1 < b.1 \/ a.1 = b.1 /\ (a.2 = None \/ a.2 = b.2).

Lemma meta_le_refl a : meta_le a a.
Proof. right. auto. Qed.

Lemma meta_le_trans a b c : meta_le a b -> meta_le b c -> meta_le a c.
Proof.
  unfold meta_le. intros [?|[? [?|?]]] [?|[? [?|?]]]; try (left; lia); right; (split; [lia|]).
  - auto.
  - auto.
  - left. congruence.
  - right. congruence.
Qed.

Definition is_send (a : Action) : bool := match a with Send _ _ | NeedSnapshot _ => true | _ => false end.
Definition is_persist_meta (a : Action) : bool := match a with PersistMeta => true | _ => false end.

(** The actions that precede the first send. *)
Fixpoint before_sends (acts : list Action) : list Action :=
  match acts with
  | [] => []
  | a :: acts' => if is_send a then [] else a :: before_sends acts'
  end.

(** A transition that changes the durable meta persists it before it sends. *)
Definition persists (r : Raft) (o : Raft * list Action) : Prop :=
  meta_le (meta r) (meta o.1) /\
  (meta o.1 <> meta r -> PersistMeta ∈ before_sends o.2).

Lemma before_sends_elem (acts : list Action) a : a ∈ before_sends acts -> a ∈ acts.
Proof.
  induction acts as [|x acts IH]; simpl; [done|]. destruct (is_send x); [set_solver|]. set_solver.
Qed.

Lemma before_sends_app_l (l1 l2 : list Action) a : a ∈ before_sends l1 -> a ∈ before_sends (l1 ++ l2).
Proof.
  induction l1 as [|x l1 IH]; simpl; [set_solver|]. destruct (is_send x); [set_solver|]. set_solver.
Qed.

Lemma before_sends_app_r (l1 l2 : list Action) a :
  Forall (fun x => is_send x = false) l1 -> a ∈ before_sends l2 -> a ∈ before_sends (l1 ++ l2).
Proof.
  intros Hl Ha. induction Hl as [|x l1 Hx Hl IH]; simpl; [done|]. rewrite Hx. set_solver.
Qed.

Definition quiet (acts : list Action) : Prop := Forall (fun a => is_send a = false) acts.

Lemma quiet_persist (acts : list Action) : quiet acts -> PersistMeta ∈ acts -> PersistMeta ∈ before_sends acts.
Proof.
  induction 1 as [|x l Hx Hl IH]; simpl; [set_solver|]. rewrite Hx. set_solver.
Qed.

Lemma become_follower_meta (r : Raft) (ep : Z) :
  meta (become_follower r ep).1 = (if (ep >? epoch r)%Z then (ep, None) else meta r) /\
  quiet (become_follower r ep).2 /\
  ((ep >? epoch r)%Z = true -> PersistMeta ∈ (become_follower r ep).2) /\
  role (become_follower r ep).1 = Follower /\ me (become_follower r ep).1 = me r.
Proof.
  unfold become_follower. destruct (ep >? epoch r)%Z, (is_leader r); simpl;
    split_and!; try done; try (repeat constructor); intros; set_solver.
Qed.

Lemma become_follower_persists (r : Raft) (ep : Z) : persists r (become_follower r ep).
Proof.
  destruct (become_follower_meta r ep) as (Hm & Hq & Hp & _). unfold persists. rewrite Hm.
  destruct (Z.gtb_spec ep (epoch r)).
  - split; [left; simpl; lia|]. intros _. apply quiet_persist; auto.
  - split; [apply meta_le_refl|done].
Qed.

Lemma follow_meta (r : Raft) (from : PublicId) (ep : Z) :
  epoch r <= ep ->
  persists r (follow r from ep) /\ quiet (follow r from ep).2 /\
  epoch (follow r from ep).1 = ep /\ role (follow r from ep).1 = Follower /\
  me (follow r from ep).1 = me r.
Proof.
  intros Hep. unfold follow. pose proof (become_follower_persists r ep) as Hp.
  destruct (become_follower_meta r ep) as (Hm & Hq & _ & Hro & Hme).
  destruct (become_follower r ep) as [r1 acts]; simpl in *.
  assert (epoch r1 = ep) as Hep1.
  { unfold meta in Hm. destruct (Z.gtb_spec ep (epoch r)); injection Hm; lia. }
  case_bool_decide as Hv; simpl in *.
  - split_and!; try done; [|apply Forall_app; split; [done|repeat constructor]].
    split; simpl.
    + apply (meta_le_trans _ (meta r1)); [apply Hp|]. right. split; [done|]. by left.
    + intros _. apply quiet_persist; [apply Forall_app; split; [done|repeat constructor]|set_solver].
  - split_and!; try done.
Qed.

(** Transitions that leave the meta alone. *)
Lemma apply_committed_meta (r : Raft) :
  meta (apply_committed r).1 = meta r /\ role (apply_committed r).1 = role r /\
  me (apply_committed r).1 = me r /\ group (apply_committed r).1 = group r.
Proof. done. Qed.

Lemma advance_commit_meta (r : Raft) :
  meta (advance_commit r).1 = meta r /\ role (advance_commit r).1 = role r /\
  me (advance_commit r).1 = me r /\ group (advance_commit r).1 = group r.
Proof.
  unfold advance_commit. destruct (role r) eqn:Er; simpl; [done..|]. by destruct (_ >? _)%Z.
Qed.

Lemma try_win_meta (r : Raft) :
  meta (try_win r).1 = meta r /\ me (try_win r).1 = me r /\ group (try_win r).1 = group r.
Proof. unfold try_win. destruct (role r); try done. by case_bool_decide. Qed.

Lemma append_entries_meta (es : list Entry) (r : Raft) (pf : option Z) :
  meta (append_entries r pf es).1 = meta r /\ role (append_entries r pf es).1 = role r /\
  me (append_entries r pf es).1 = me r /\ group (append_entries r pf es).1 = group r /\
  base_seq (append_entries r pf es).1 = base_seq r /\ applied (append_entries r pf es).1 = applied r /\
  commit (append_entries r pf es).1 = commit r.
Proof.
  revert r pf. induction es as [|e es IH]; intros r pf; cbn [append_entries]; [done|].
  assert (let r1 := (append_one r pf e).1 in
    meta r1 = meta r /\ role r1 = role r /\ me r1 = me r /\ group r1 = group r /\
    base_seq r1 = base_seq r /\ applied r1 = applied r /\ commit r1 = commit r) as H1.
  { unfold append_one. destruct (_ <=? _)%Z; [done|]. destruct (entry r (e_seq e)); [|done].
    by destruct (_ =? _)%Z. }
  destruct (append_one r pf e) as [r1 pf1]; simpl in *.
  destruct (IH r1 pf1) as (? & ? & ? & ? & ? & ? & ?). destruct H1 as (? & ? & ? & ? & ? & ? & ?).
  split_and!; congruence.
Qed.

Lemma persists_same (r r' : Raft) (acts : list Action) : meta r' = meta r -> persists r (r', acts).
Proof. intros H. split; simpl; rewrite H; [apply meta_le_refl|done]. Qed.

Lemma persists_app (r r' : Raft) (a1 a2 : list Action) :
  persists r (r', a1) -> persists r (r', a1 ++ a2).
Proof. intros [H1 H2]. split; [done|]. intros Hm. simpl in *. apply before_sends_app_l; auto. Qed.

Lemma persists_meta (r r1 r2 : Raft) (acts : list Action) :
  meta r2 = meta r1 -> persists r (r1, acts) -> persists r (r2, acts).
Proof. unfold persists. simpl. by intros ->. Qed.

(** [votes'] is [votes], with [from] added when [m] is its vote in [ep]. *)
Definition gains (votes : list PublicId) (from : PublicId) (m : Msg) (ep : Z) (votes' : list PublicId) : Prop :=
  votes' = votes \/ votes' = votes ++ [from] /\ from ∉ votes /\ m = VoteResp ep true.

(** How handling [m] can leave a member candidate or leader. *)
Definition role_from (r : Raft) (from : PublicId) (m : Msg) (r' : Raft) : Prop :=
  match role r' with
  | Follower => True
  | Candidate votes' =>
      epoch r' = epoch r /\ exists votes, role r = Candidate votes /\ gains votes from m (epoch r) votes'
  | Leader _ _ =>
      epoch r' = epoch r /\
      (is_leader r = true \/
       exists votes votes', role r = Candidate votes /\ gains votes from m (epoch r) votes' /\
         (majority r <= length votes')%nat)
  end.

Lemma role_from_same (r : Raft) from m r' : role r' = role r -> epoch r' = epoch r -> role_from r from m r'.
Proof.
  intros Hr He. unfold role_from. destruct (role r') as [|votes|] eqn:E; [done|..]; (split; [done|]).
  - exists votes. split; [done|by left].
  - left. unfold is_leader. by rewrite <- Hr.
Qed.

Lemma role_from_follower (r : Raft) from m r' : role r' = Follower -> role_from r from m r'.
Proof. unfold role_from. by intros ->. Qed.

(** The votes a list of actions grants. *)
Definition grants (r' : Raft) (acts : list Action) : Prop :=
  forall to ep, Send to (VoteResp ep true) ∈ acts -> meta r' = (ep, Some to).

Lemma grants_app (r : Raft) (l1 l2 : list Action) : grants r l1 -> grants r l2 -> grants r (l1 ++ l2).
Proof. intros H1 H2 to ep [?|?]%elem_of_app; [by apply H1|by apply H2]. Qed.

Lemma grants_quiet (r : Raft) (acts : list Action) : quiet acts -> grants r acts.
Proof. intros Hq to ep Hin. unfold quiet in Hq. rewrite Forall_forall in Hq. by apply Hq in Hin. Qed.

Lemma grants_one (r : Raft) (a : Action) :
  (forall to ep, a <> Send to (VoteResp ep true)) -> grants r [a].
Proof. intros Ha to ep H%list_elem_of_singleton. by destruct (Ha to ep). Qed.

Lemma grants_replicate (r r' : Raft) : grants r (replicate_all r').
Proof.
  intros to ep. unfold replicate_all. destruct (role r') as [| |next matched]; [set_solver..|].
  intros ([p n] & Heq & _)%list_elem_of_fmap. unfold replicate_one in Heq.
  destruct (_ <? _)%Z; discriminate.
Qed.

Lemma grants_apply_loop (r r' : Raft) (n : nat) (a : Z) : grants r (apply_loop n r' a).
Proof.
  revert a. induction n as [|n IH]; intros a; simpl; [intros ? ?; set_solver|].
  apply grants_app; [|apply IH]. destruct (entry r' (a + 1)); [|intros ? ?; set_solver].
  by apply grants_one.
Qed.

Lemma grants_nil (r : Raft) : grants r [].
Proof. intros ? ?. set_solver. Qed.

Lemma grants_advance (r r' : Raft) : grants r (advance_commit r').2.
Proof.
  unfold advance_commit. destruct (role r'); [apply grants_nil..|]. simpl.
  apply grants_app; [apply grants_apply_loop|]. destruct (_ >? _)%Z; [apply grants_replicate|apply grants_nil].
Qed.

Lemma grants_try_win (r r' : Raft) : grants r (try_win r').2.
Proof.
  unfold try_win. destruct (role r'); [apply grants_nil| |apply grants_nil].
  case_bool_decide; [apply grants_nil|]. simpl.
  apply (grants_app r [BecameLeader]); [by apply grants_one|apply grants_replicate].
Qed.

Create HintDb grants discriminated.
#[export] Hint Resolve grants_app grants_quiet grants_replicate grants_apply_loop grants_nil
  grants_advance grants_try_win : grants.

(** All that an election needs to know of one transition. *)
Definition vote_step (r : Raft) (from : PublicId) (m : Msg) (o : Raft * list Action) : Prop :=
  persists r o /\ role_from r from m o.1 /\ grants o.1 o.2 /\
  me o.1 = me r /\ group o.1 = group r.

Lemma become_follower_group (r : Raft) ep : group (become_follower r ep).1 = group r.
Proof. unfold become_follower. by destruct (_ >? _)%Z. Qed.

Lemma follow_group (r : Raft) from ep : group (follow r from ep).1 = group r.
Proof.
  unfold follow. pose proof (become_follower_group r ep) as H.
  destruct (become_follower r ep) as [r1 acts]. by case_bool_decide.
Qed.

Lemma become_follower_vote_step (r : Raft) from m ep : vote_step r from m (become_follower r ep).
Proof.
  destruct (become_follower_meta r ep) as (_ & Hq & _ & Hro & Hme). split_and!.
  - apply become_follower_persists.
  - by apply role_from_follower.
  - by apply grants_quiet.
  - done.
  - apply become_follower_group.
Qed.

Lemma vote_step_refl (r : Raft) from m acts : grants r acts -> vote_step r from m (r, acts).
Proof. intros Hg. split_and!; [by apply persists_same|by apply role_from_same|done..]. Qed.

Lemma handle_vote_req_step (r : Raft) from ep le ls :
  vote_step r from (VoteReq ep le ls) (handle_vote_req r from ep le ls).
Proof.
  unfold handle_vote_req.
  assert (vote_step r from (VoteReq ep le ls) (if (ep >? epoch r)%Z then become_follower r ep else (r, []))
    /\ quiet (if (ep >? epoch r)%Z then become_follower r ep else (r, [])).2) as [Hs Hq].
  { destruct (ep >? epoch r)%Z; split; [apply become_follower_vote_step|apply become_follower_meta| |constructor].
    apply vote_step_refl, grants_nil. }
  destruct (if (ep >? epoch r)%Z then _ else _) as [r1 acts]; simpl in *.
  destruct Hs as (Hp & Hr & Hg & Hme & Hgr). simpl in *.
  destruct ((ep =? epoch r1)%Z && leb (last r1) (le, ls) && _) eqn:Eg; simpl.
  - to_prop. apply orb_true_iff in H0. subst ep.
    case_bool_decide as Hv; simpl.
    + split_and!; simpl; try done.
      * split; simpl.
        -- apply (meta_le_trans _ (meta r1)); [apply Hp|]. right. split; [done|]. by left.
        -- intros _. apply before_sends_app_r; [done|]. simpl. set_solver.
      * apply grants_app; [by apply grants_quiet|].
        apply (grants_app _ [PersistMeta]); [by apply grants_one|].
        intros to ep' [= -> ->]%list_elem_of_singleton. done.
    + destruct H0 as [?|H0]; to_prop; [done|].
      split_and!; simpl; try done; [by apply persists_app|].
      apply grants_app; [by apply grants_quiet|]. intros to ep' [= -> ->]%list_elem_of_singleton.
      unfold meta. by rewrite H0.
  - split_and!; simpl; try done; [by apply persists_app|].
    apply grants_app; [by apply grants_quiet|]. by apply grants_one.
Qed.

Lemma handle_vote_resp_step (r : Raft) from ep granted :
  vote_step r from (VoteResp ep granted) (handle_vote_resp r from ep granted).
Proof.
  unfold handle_vote_resp. destruct (ep >? epoch r)%Z; [apply become_follower_vote_step|].
  destruct (Z.eqb_spec ep (epoch r)) as [->|]; simpl; [|apply vote_step_refl, grants_nil].
  destruct granted; simpl; [|apply vote_step_refl, grants_nil].
  set (r1 := match role r with Candidate votes => _ | _ => r end).
  assert (meta r1 = meta r /\ me r1 = me r /\ group r1 = group r) as (Hm1 & Hme1 & Hg1).
  { unfold r1. destruct (role r); try done. by case_bool_decide. }
  destruct (try_win_meta r1) as (Hm2 & Hme2 & Hg2).
  split_and!; [| |apply grants_try_win|congruence..].
  - split; rewrite Hm2, Hm1; [apply meta_le_refl|done].
  - unfold try_win. unfold r1 in *. destruct (role r) as [|votes|] eqn:Er.
    + rewrite Er. by apply role_from_same.
    + set (r2 := if bool_decide (from ∈ votes) then _ else _) in *.
      assert (exists votes', role r2 = Candidate votes' /\ gains votes from (VoteResp (epoch r) true) (epoch r) votes')
        as (votes' & Hv & Hgain).
      { unfold r2. case_bool_decide; [exists votes; split; [done|by left]|].
        exists (votes ++ [from]). split; [done|]. right. done. }
      rewrite Hv. assert (epoch r2 = epoch r) as He by (unfold r2; by case_bool_decide).
      case_bool_decide as Hlt; unfold role_from; simpl.
      * rewrite Hv. split; [done|]. by exists votes.
      * split; [done|]. right. exists votes, votes'. split_and!; try done.
        unfold majority in *. rewrite <- Hg1. lia.
    + rewrite Er. by apply role_from_same.
Qed.

Lemma handle_append_step (r : Raft) from ep ps pe es cm :
  vote_step r from (Append ep ps pe es cm) (handle_append r from ep ps pe es cm).
Proof.
  unfold handle_append. destruct (Z.ltb_spec ep (epoch r)); [by apply vote_step_refl, grants_one|].
  destruct (follow_meta r from ep) as (Hp & Hq & Hep & Hro & Hme); [lia|].
  pose proof (follow_group r from ep) as Hgr.
  destruct (follow r from ep) as [r1 acts]; simpl in *. destruct (prev_ok r1 ps pe); simpl.
  2:{ split_and!; simpl; try done; [by apply persists_app|by apply role_from_follower|].
      apply grants_app; [by apply grants_quiet|by apply grants_one]. }
  destruct (append_entries_meta es r1 None) as (Hm2 & Hr2 & Hme2 & Hg2 & _).
  destruct (append_entries r1 None es) as [r2 pf]; simpl in *.
  set (fin := if (cm >? commit r2)%Z then _ else _).
  assert (meta fin.1 = meta r2 /\ role fin.1 = role r2 /\ me fin.1 = me r2 /\ group fin.1 = group r2 /\
    forall x, grants x fin.2) as (Hm3 & Hr3 & Hme3 & Hg3 & Hgr3).
  { unfold fin. destruct (cm >? commit r2)%Z; simpl; split_and!; try done; intros x;
      [apply grants_apply_loop|apply grants_nil]. }
  destruct fin as [r3 applies]; simpl in *. split_and!; simpl; try congruence.
  - apply (persists_meta _ r1); [congruence|]. by apply persists_app.
  - apply role_from_follower. congruence.
  - apply grants_app; [by apply grants_quiet|]. apply grants_app.
    { destruct pf; [by apply grants_one|apply grants_nil]. }
    apply grants_app; [done|by apply grants_one].
Qed.

Lemma handle_snapshot_step (r : Raft) from ep ls le data :
  vote_step r from (InstallSnapshot ep ls le data) (handle_snapshot r from ep ls le data).
Proof.
  unfold handle_snapshot. destruct (Z.ltb_spec ep (epoch r)); [by apply vote_step_refl, grants_one|].
  destruct (follow_meta r from ep) as (Hp & Hq & Hep & Hro & Hme); [lia|].
  pose proof (follow_group r from ep) as Hgr.
  destruct (follow r from ep) as [r1 acts]; simpl in *. destruct (ls <=? applied r1)%Z.
  - split_and!; simpl; try done; [by apply persists_app|by apply role_from_follower|].
    apply grants_app; [by apply grants_quiet|by apply grants_one].
  - split_and!; simpl; try done.
    + apply (persists_meta _ r1); [done|]. by apply persists_app.
    + by apply role_from_follower.
    + apply grants_app; [by apply grants_quiet|]. intros to ep' Hin.
      rewrite !elem_of_cons in Hin. destruct Hin as [?|[?|[?|[?|?]]]]; set_solver.
Qed.

Lemma handle_append_resp_step (r : Raft) from ep ms ok :
  vote_step r from (AppendResp ep ms ok) (handle_append_resp r from ep ms ok).
Proof.
  unfold handle_append_resp. destruct (ep >? epoch r)%Z; [apply become_follower_vote_step|].
  destruct (negb _); [apply vote_step_refl, grants_nil|].
  destruct (role r) as [| |next matched] eqn:Er; [apply vote_step_refl, grants_nil..|].
  assert (is_leader r = true) as Hl by (unfold is_leader; by rewrite Er).
  destruct ok.
  - set (r1 := set_role r _). destruct (advance_commit_meta r1) as (Hm & Hro & Hme & Hgr).
    split_and!; [| |apply grants_advance|done..].
    + split; rewrite Hm; [apply meta_le_refl|done].
    + unfold role_from. rewrite Hro. simpl. injection Hm as He _. by split; [|left].
  - split_and!; simpl; try done; [by apply persists_same|by split; [|left]|apply grants_replicate].
Qed.

Lemma handle_step (r : Raft) (from : PublicId) (m : Msg) : vote_step r from m (handle r from m).
Proof.
  destruct m; simpl.
  - apply handle_vote_req_step.
  - apply handle_vote_resp_step.
  - apply handle_append_step.
  - apply handle_append_resp_step.
  - apply handle_snapshot_step.
Qed.

(** An election starts one epoch later with the member's own vote. *)
Lemma tick_election_step (r : Raft) : 0 <= epoch r < u64_max -> is_leader r = false ->
  let o := tick_election r in
  persists r o /\ meta o.1 = (epoch r + 1, Some (me r)) /\ grants o.1 o.2 /\
  me o.1 = me r /\ group o.1 = group r /\
  (role o.1 = Candidate [me r] \/ is_leader o.1 = true /\ (majority r <= 1)%nat).
Proof.
  intros He Hl. unfold u64_max, umax in He. unfold tick_election. rewrite Hl, wadd_small by lia.
  set (r1 := set_role _ _). destruct (last r1) as [le ls].
  destruct (try_win_meta r1) as (Hm & Hme & Hg).
  assert (role (try_win r1).1 = Candidate [me r] \/ is_leader (try_win r1).1 = true /\ (majority r <= 1)%nat) as Hro.
  { unfold try_win. simpl. case_bool_decide as Hmaj; [by left|]. right. split; [done|].
    unfold majority in *. simpl in *. lia. }
  pose proof (fun x => grants_try_win x r1) as Hgr.
  destruct (try_win r1) as [r2 won]; simpl in *. split_and!; try done.
  - split; simpl; rewrite Hm; simpl; [left; simpl; lia|]. intros _. set_solver.
  - intros to ep. rewrite elem_of_cons, elem_of_app, list_elem_of_fmap.
    intros [?|[(p & ? & _)|Hin]]; [discriminate..|]. by apply Hgr.
Qed.

(** ** What a member applies *)

Definition as_apply (a : Action) : option Entry := match a with Apply e => Some e | _ => None end.
Definition as_snapshot (a : Action) : option Z := match a with ApplySnapshot s _ => Some s | _ => None end.

Definition applies (acts : list Action) : list Entry := omap as_apply acts.
Definition snapshots (acts : list Action) : list Z := omap as_snapshot acts.

(** The entries numbered above [a] up to [b], in order. *)
Definition entries_between (r : Raft) (a b : Z) : list Entry := omap (entry r) (seqZ (a + 1) (b - a)).

(** A transition applies the entries between the marks, in order, or installs
    one snapshot and applies nothing. *)
Definition applies_exactly (r : Raft) (o : Raft * list Action) : Prop :=
  applied r <= applied o.1 /\
  (snapshots o.2 = [] /\ base_seq o.1 = base_seq r /\
   applies o.2 = entries_between o.1 (applied r) (applied o.1) \/
   snapshots o.2 = [applied o.1] /\ applies o.2 = [] /\ base_seq o.1 = applied o.1 /\ log o.1 = []).

Lemma applies_app (l1 l2 : list Action) : applies (l1 ++ l2) = applies l1 ++ applies l2.
Proof. apply omap_app. Qed.
Lemma snapshots_app (l1 l2 : list Action) : snapshots (l1 ++ l2) = snapshots l1 ++ snapshots l2.
Proof. apply omap_app. Qed.

(** Actions that leave the state machine alone. *)
Definition inert (acts : list Action) : Prop := applies acts = [] /\ snapshots acts = [].

Lemma inert_app (l1 l2 : list Action) : inert l1 -> inert l2 -> inert (l1 ++ l2).
Proof.
  intros [A1 S1] [A2 S2]. split; [rewrite applies_app, A1, A2|rewrite snapshots_app, S1, S2]; done.
Qed.

Lemma inert_replicate (r : Raft) : inert (replicate_all r).
Proof.
  unfold replicate_all. destruct (role r) as [| |next matched]; [done..|].
  induction next as [|[p n] l [IH1 IH2]]; [done|]. rewrite fmap_cons. unfold inert, applies, snapshots in *.
  simpl. destruct (_ <? _)%Z; simpl; by rewrite ?IH1, ?IH2.
Qed.

Lemma inert_follow (r : Raft) from ep : inert (follow r from ep).2.
Proof.
  unfold follow, become_follower. destruct (_ >? _)%Z, (is_leader r); simpl; try case_bool_decide; done.
Qed.

Lemma inert_try_win (r : Raft) : inert (try_win r).2.
Proof.
  unfold try_win. destruct (role r); [done| |done]. case_bool_decide; [done|]. simpl.
  apply (inert_app [BecameLeader]); [done|apply inert_replicate].
Qed.

Lemma apply_loop_applies (n : nat) (r : Raft) (a : Z) :
  applies (apply_loop n r a) = omap (entry r) (seqZ (a + 1) (Z.of_nat n)) /\
  snapshots (apply_loop n r a) = [].
Proof.
  revert a. induction n as [|n IH]; intros a; cbn [apply_loop]; [done|].
  rewrite applies_app, snapshots_app. destruct (IH (a + 1)) as [-> ->].
  rewrite (seqZ_cons (a + 1) (Z.of_nat (S n))) by lia.
  replace (Z.pred (Z.of_nat (S n))) with (Z.of_nat n) by lia. rewrite <- Z.add_1_r. simpl.
  by destruct (entry r (a + 1)).
Qed.

Lemma apply_committed_applies (r : Raft) :
  applied (apply_committed r).1 = Z.max (applied r) (commit r) /\
  snapshots (apply_committed r).2 = [] /\
  applies (apply_committed r).2 = entries_between r (applied r) (Z.max (applied r) (commit r)).
Proof.
  split; [done|]. simpl. destruct (apply_loop_applies (Z.to_nat (commit r - applied r)) r (applied r)) as [-> ->].
  split; [done|]. unfold entries_between. f_equal.
  destruct (decide (applied r <= commit r)).
  - f_equal. lia.
  - rewrite !seqZ_nil by lia. done.
Qed.

Lemma entries_between_refl (r : Raft) (a : Z) : entries_between r a a = [].
Proof. unfold entries_between. rewrite Z.sub_diag. done. Qed.

Lemma applies_exactly_inert (r r' : Raft) (acts : list Action) :
  applied r' = applied r /\ base_seq r' = base_seq r -> inert acts -> applies_exactly r (r', acts).
Proof.
  intros [Ha Hb] [H1 H2]. split; simpl; [lia|]. left. by rewrite H1, Ha, entries_between_refl.
Qed.

Lemma advance_commit_applies (r : Raft) : applies_exactly r (advance_commit r).
Proof.
  unfold advance_commit. destruct (role r) as [| |next matched] eqn:Er; [by apply applies_exactly_inert..|].
  set (cand := commit_loop _ _ _ _ _). set (r1 := if (cand >? commit r)%Z then _ else r).
  assert (applied r1 = applied r /\ base_seq r1 = base_seq r) as [Ha Hb]
    by (unfold r1; by destruct (cand >? commit r)%Z).
  destruct (apply_committed_applies r1) as (H1 & H2 & H3).
  destruct (apply_committed r1) as [r2 acts] eqn:E2; simpl in *. injection E2 as <- _.
  assert (inert (if (cand >? commit r)%Z then replicate_all (set_commit r1 (commit r1) (Z.max (applied r1) (commit r1))) else []))
    as [Ia Is] by (destruct (cand >? commit r)%Z; [apply inert_replicate|done]).
  split; simpl; [lia|]. left. rewrite applies_app, snapshots_app, Ia, Is, H2, H3.
  split_and!; [done..|]. by rewrite app_nil_r, Ha.
Qed.

Lemma handle_append_applies (r : Raft) from ep ps pe es cm :
  applies_exactly r (handle_append r from ep ps pe es cm).
Proof.
  unfold handle_append. destruct (ep <? epoch r)%Z; [by apply applies_exactly_inert|].
  assert (applied (follow r from ep).1 = applied r /\ base_seq (follow r from ep).1 = base_seq r) as [Ha Hb].
  { unfold follow, become_follower. destruct (_ >? _)%Z; simpl; try case_bool_decide; done. }
  pose proof (inert_follow r from ep) as Hi. destruct (follow r from ep) as [r1 acts]; simpl in *.
  destruct (prev_ok r1 ps pe); simpl; [|by apply applies_exactly_inert, inert_app].
  destruct (append_entries_meta es r1 None) as (_ & _ & _ & _ & Hb2 & Ha2 & _).
  destruct (append_entries r1 None es) as [r2 pf]; simpl in *.
  assert (inert (match pf with Some f => [PersistLog f] | None => [] end)) as Hpf by by destruct pf.
  destruct (cm >? commit r2)%Z.
  - destruct (apply_committed_applies (set_commit r2 (Z.min cm (last r2).2) (applied r2))) as (H1 & H2 & H3).
    destruct (apply_committed _) as [r3 acts3] eqn:E3; simpl in *. injection E3 as <- _.
    split; simpl in *; [lia|]. left. destruct Hi as [Hi1 Hi2], Hpf as [Hp1 Hp2].
    rewrite !applies_app, !snapshots_app, Hi1, Hi2, Hp1, Hp2, H2, H3; simpl.
    split_and!; [done|congruence|]. by rewrite app_nil_r, Ha2, Ha.
  - apply applies_exactly_inert; [split; congruence|]. repeat apply inert_app; try done.
Qed.

Lemma become_follower_inert (r : Raft) ep :
  inert (become_follower r ep).2 /\ applied (become_follower r ep).1 = applied r /\
  base_seq (become_follower r ep).1 = base_seq r.
Proof. unfold become_follower. by destruct (_ >? _)%Z, (is_leader r). Qed.

Lemma try_win_applied (r : Raft) :
  applied (try_win r).1 = applied r /\ base_seq (try_win r).1 = base_seq r.
Proof. unfold try_win. destruct (role r); [done| |done]. by case_bool_decide. Qed.

Lemma handle_vote_applies (r : Raft) from ep le ls granted :
  applies_exactly r (handle_vote_req r from ep le ls) /\
  applies_exactly r (handle_vote_resp r from ep granted).
Proof.
  destruct (become_follower_inert r ep) as [Hi Ha]. split.
  - unfold handle_vote_req.
    assert (inert (if (ep >? epoch r)%Z then become_follower r ep else (r, [])).2 /\
      applied (if (ep >? epoch r)%Z then become_follower r ep else (r, [])).1 = applied r /\
      base_seq (if (ep >? epoch r)%Z then become_follower r ep else (r, [])).1 = base_seq r) as [H1 H2]
      by by destruct (ep >? epoch r)%Z.
    destruct (if (ep >? epoch r)%Z then _ else _) as [r1 acts]; simpl in *.
    destruct (_ && bool_decide (voted_for r1 = None)); apply applies_exactly_inert; try done;
      by apply inert_app.
  - unfold handle_vote_resp. destruct (ep >? epoch r)%Z.
    { destruct (become_follower r ep). by apply applies_exactly_inert. }
    destruct (_ || _); [by apply applies_exactly_inert|].
    set (r1 := match role r with Candidate votes => _ | _ => r end).
    assert (applied r1 = applied r /\ base_seq r1 = base_seq r) as H1.
    { unfold r1. destruct (role r); try done. by case_bool_decide. }
    pose proof (inert_try_win r1) as H2. pose proof (try_win_applied r1) as H3.
    destruct (try_win r1). apply applies_exactly_inert; [simpl in *; intuition congruence|done].
Qed.

Lemma handle_append_resp_applies (r : Raft) from ep ms ok :
  applies_exactly r (handle_append_resp r from ep ms ok).
Proof.
  unfold handle_append_resp. destruct (become_follower_inert r ep) as [Hi Ha].
  destruct (ep >? epoch r)%Z.
  { destruct (become_follower r ep). by apply applies_exactly_inert. }
  destruct (negb _); [by apply applies_exactly_inert|].
  destruct (role r) as [| |next matched]; [by apply applies_exactly_inert..|]. destruct ok.
  - exact (advance_commit_applies (set_role r _)).
  - apply applies_exactly_inert; [done|apply inert_replicate].
Qed.

Lemma handle_snapshot_applies (r : Raft) from ep ls le data :
  applies_exactly r (handle_snapshot r from ep ls le data).
Proof.
  unfold handle_snapshot. destruct (ep <? epoch r)%Z; [by apply applies_exactly_inert|].
  assert (applied (follow r from ep).1 = applied r /\ base_seq (follow r from ep).1 = base_seq r) as [Ha Hb].
  { unfold follow, become_follower. destruct (_ >? _)%Z; simpl; try case_bool_decide; done. }
  pose proof (inert_follow r from ep) as Hi. destruct (follow r from ep) as [r1 acts]; simpl in *.
  destruct (Z.leb_spec ls (applied r1)); [by apply applies_exactly_inert, inert_app|].
  split; simpl; [lia|]. right. destruct Hi as [Hi1 Hi2].
  by rewrite applies_app, snapshots_app, Hi1, Hi2.
Qed.

Lemma handle_applies (r : Raft) from m : applies_exactly r (handle r from m).
Proof.
  destruct m; simpl.
  - apply (handle_vote_applies r from epoch0 last_epoch last_seq true).
  - apply (handle_vote_applies r from epoch0 0 0 granted).
  - apply handle_append_applies.
  - apply handle_append_resp_applies.
  - apply handle_snapshot_applies.
Qed.

(** ** What an [Append] installs *)

Lemma entry_set_log (r : Raft) (l : list Entry) (s : Z) :
  entry (set_log r l) s = if (s <=? base_seq r)%Z then None else l !! Z.to_nat (s - base_seq r - 1).
Proof. done. Qed.

Lemma append_one_entry (r : Raft) (pf : option Z) (e : Entry) :
  contiguous (base_seq r + 1) (log r) -> e_seq e <= (last r).2 + 1 ->
  let r' := (append_one r pf e).1 in
  (forall s, s < e_seq e -> entry r' s = entry r s) /\
  (base_seq r < e_seq e -> e_epoch <$> entry r' (e_seq e) = Some (e_epoch e)) /\
  (forall s, e_seq e < s -> entry r' s = entry r s \/ entry r' s = None).
Proof.
  intros Hc Hl. rewrite last_seq_wf in Hl by done. unfold append_one.
  destruct (Z.leb_spec (e_seq e) (base_seq r)) as [|Hb]; simpl; [split_and!; [done|lia|auto]|].
  set (k := Z.to_nat (e_seq e - base_seq r - 1)).
  assert (k <= length (log r))%nat as Hk by (unfold k; lia).
  assert (let r' := set_log r (take k (log r) ++ [e]) in
    (forall s, s < e_seq e -> entry r' s = entry r s) /\
    (base_seq r < e_seq e -> e_epoch <$> entry r' (e_seq e) = Some (e_epoch e)) /\
    (forall s, e_seq e < s -> entry r' s = entry r s \/ entry r' s = None)) as Hpush.
  { cbv zeta. split_and!.
    - intros s Hs. rewrite entry_set_log. unfold entry. destruct (Z.leb_spec s (base_seq r)); [done|].
      rewrite lookup_app_l by (rewrite length_take; unfold k; lia).
      by rewrite lookup_take_lt by (unfold k; lia).
    - intros _. rewrite entry_set_log. destruct (Z.leb_spec (e_seq e) (base_seq r)); [lia|]. fold k.
      rewrite lookup_app_r; rewrite length_take, Nat.min_l by lia; [|lia]. by rewrite Nat.sub_diag.
    - intros s Hs. right. rewrite entry_set_log. destruct (Z.leb_spec s (base_seq r)); [lia|].
      apply lookup_ge_None. rewrite length_app, length_take; simpl. unfold k. lia. }
  destruct (entry r (e_seq e)) as [x|] eqn:Ex; [|exact Hpush].
  destruct (Z.eqb_spec (e_epoch x) (e_epoch e)) as [Heq|]; [|exact Hpush].
  simpl. split_and!; [done| |auto]. intros _. rewrite Ex; simpl. by rewrite Heq.
Qed.

Lemma append_entries_entry (es : list Entry) (r : Raft) (pf : option Z) (from : Z) :
  wf r -> contiguous from es -> from <= (last r).2 + 1 -> from + Z.of_nat (length es) <= u64_max ->
  let r' := (append_entries r pf es).1 in
  (forall s, s < from -> entry r' s = entry r s) /\
  (forall e, e ∈ es -> base_seq r < e_seq e -> e_epoch <$> entry r' (e_seq e) = Some (e_epoch e)) /\
  (forall s, from + Z.of_nat (length es) <= s -> entry r' s = entry r s \/ entry r' s = None).
Proof.
  revert r pf from. induction es as [|e es IH]; intros r pf from Hw Hc Hl Hm;
    cbn [append_entries length] in *; [split_and!; [done|set_solver|auto]|].
  apply contiguous_cons in Hc as [He Hc].
  destruct (append_one_wf r pf e) as (Hw1 & Hl1 & Hb1); [done|lia..|].
  destruct (append_one_entry r pf e) as (A1 & B1 & C1); [apply Hw|lia|].
  destruct (append_one r pf e) as [r1 pf1]; simpl in *.
  destruct (IH r1 pf1 (from + 1)) as (A2 & B2 & C2); [done..|lia|lia|]. cbv zeta in *. split_and!.
  - intros s Hs. rewrite A2 by lia. apply A1. lia.
  - intros x [->|Hx]%elem_of_cons Hb; [rewrite A2 by lia; by apply B1|]. apply B2; [done|lia].
  - intros s Hs. destruct (C2 s) as [->|]; [lia| |by right]. apply C1. lia.
Qed.

Lemma omap_seqs (f : Z -> option Entry) (l : list Z) :
  (forall s, s ∈ l -> exists e, f s = Some e /\ e_seq e = s) -> e_seq <$> omap f l = l.
Proof.
  induction l as [|s l IH]; intros H; [done|].
  change (omap f (s :: l)) with (match f s with Some e => e :: omap f l | None => omap f l end).
  destruct (H s) as (e & -> & He); [set_solver|]. rewrite fmap_cons, IH by set_solver. by rewrite He.
Qed.

Lemma entries_between_seqs (r : Raft) (a b : Z) :
  wf r -> base_seq r <= a -> b <= (last r).2 ->
  e_seq <$> entries_between r a b = seqZ (a + 1) (b - a).
Proof.
  intros Hw Ha Hb. unfold entries_between. apply omap_seqs. intros s Hs%elem_of_seqZ.
  rewrite last_seq_wf in Hb by apply Hw.
  destruct (entry_in_range r s) as [e He]; [lia|]. exists e. split; [done|].
  by apply entry_seq in He as [? _]; [|apply Hw].
Qed.

(** The result of the commit loop, from a candidate below the range. *)
Lemma commit_loop_rule (k : nat) (r : Raft) (matched : list (PublicId * Z)) (n cand : Z) :
  let c := commit_loop k r matched n cand in
  c = cand \/
  n <= c < n + Z.of_nat k /\ e_epoch <$> entry r c = Some (epoch r) /\
  forall s, n <= s <= c -> (majority r <= replicas matched s)%nat.
Proof.
  revert n cand. induction k as [|k IH]; intros n cand; cbn [commit_loop]; [by left|].
  case_bool_decide as Hm; [|by left]. cbv zeta.
  specialize (IH (n + 1) (if bool_decide (e_epoch <$> entry r n = Some (epoch r)) then n else cand)).
  cbv zeta in IH. destruct IH as [->|(Hr & He & Hs)].
  - case_bool_decide as He; [right|by left]. split_and!; [lia..|done|].
    intros s Hs. by replace s with n by lia.
  - right. split_and!; [lia..|done|]. intros s Hle.
    destruct (decide (s = n)) as [->|]; [done|]. apply Hs. lia.
Qed.

(** ** Properties *)

(** Members and messages stay well formed: a member whose log is contiguous
    from its snapshot point stays so, with every sequence number within [u64],
    under every operation, as long as the messages it receives are well formed;
    and it only sends well-formed messages. *)
Theorem members_stay_well_formed (r : Raft) (Hwf : wf r) :
  (forall from m, msg_wf m -> out_wf (handle r from m)) /\
  out_wf (tick_election r) /\ Forall action_wf (heartbeat r) /\
  (forall cmd, (last r).2 + 1 < u64_max -> wf (propose r cmd).1 /\
     forall seq acts, (propose r cmd).2 = Ok (seq, acts) -> Forall action_wf acts) /\
  (forall keep, 0 <= keep -> wf (compact r keep).1).
Proof.
  split_and!; [intros; by apply handle_wf|by apply tick_election_wf|by apply heartbeat_wf| |].
  - intros. by apply propose_wf.
  - intros. by apply compact_wf.
Qed.

Lemma members_stay_well_formed_witness :
  out_wf (handle (new (mkPublicId [1]) [mkPublicId [2]; mkPublicId [3]]) (mkPublicId [2])
    (Append 1 0 0 [mkEntry 1 1 [7]] 1)).
Proof.
  apply (members_stay_well_formed (new (mkPublicId [1]) [mkPublicId [2]; mkPublicId [3]])).
  - apply new_wf.
  - simpl. split_and!; try (unfold u64_max, umax; lia).
    apply contiguous_cons. split; [done|apply contiguous_nil].
Defined.

(** A member never forgets an epoch or a vote, and never lets a peer act on
    one that is not on disk: handling a message only moves to a later epoch or
    takes a first vote in the current one, and a changed (epoch, vote) is
    persisted before anything is sent; a vote is granted only to the candidate
    recorded as voted for in that epoch. *)
Theorem votes_are_durable (r : Raft) (from : PublicId) (m : Msg) :
  let o := handle r from m in
  meta_le (meta r) (meta o.1) /\
  (meta o.1 <> meta r -> PersistMeta ∈ before_sends o.2) /\
  (forall to ep, Send to (VoteResp ep true) ∈ o.2 -> epoch o.1 = ep /\ voted_for o.1 = Some to).
Proof.
  destruct (handle_step r from m) as ([Hle Hp] & _ & Hg & _). split_and!; try done.
  intros to ep Hin. apply Hg in Hin. unfold meta in Hin. by injection Hin.
Qed.

(** C4: The state machine sees every committed entry once and in order: handling
    a message applies exactly the entries numbered from the old applied mark
    (exclusive) to the new one (inclusive), or installs one snapshot and applies
    nothing; the mark never moves back. *)
Theorem applies_in_order (r : Raft) (from : PublicId) (m : Msg) (Hwf : wf r) (Hm : msg_wf m) :
  let o := handle r from m in
  applied r <= applied o.1 /\
  (snapshots o.2 = [] /\ applies o.2 = entries_between o.1 (applied r) (applied o.1) /\
   (applied o.1 <= (last o.1).2 ->
    e_seq <$> applies o.2 = seqZ (applied r + 1) (applied o.1 - applied r)) \/
   snapshots o.2 = [applied o.1] /\ applies o.2 = [] /\ base_seq o.1 = applied o.1 /\ log o.1 = []).
Proof.
  destruct (handle_applies r from m) as [Hle [(Hs & Hb & Ha)|Hsnap]]; (split; [done|]); [left|by right].
  split_and!; [done..|]. intros Hlast. rewrite Ha. apply entries_between_seqs; [| |done].
  - by apply handle_wf.
  - rewrite Hb. apply Hwf.
Qed.

Lemma applies_in_order_witness :
  let o := handle (new (mkPublicId [1]) [mkPublicId [2]; mkPublicId [3]]) (mkPublicId [2])
    (Append 1 0 0 [mkEntry 1 1 [7]; mkEntry 1 2 [8]] 2) in
  0 <= applied o.1 /\ applies o.2 = [mkEntry 1 1 [7]; mkEntry 1 2 [8]].
Proof.
  intros o. split; [|vm_compute; reflexivity].
  apply (applies_in_order (new (mkPublicId [1]) [mkPublicId [2]; mkPublicId [3]]) (mkPublicId [2])
    (Append 1 0 0 [mkEntry 1 1 [7]; mkEntry 1 2 [8]] 2)).
  - apply new_wf.
  - simpl. split_and!; try (unfold u64_max, umax; lia).
    do 2 (apply contiguous_cons; split; [done|]). apply contiguous_nil.
Defined.

(** The commit rule: when a leader moves its commit mark to [n], entry [n] is
    of the leader's own epoch and every entry from the old mark up to [n] is
    reported held by a majority of the group, the leader included. *)
Theorem leader_commit_rule (r : Raft) (next matched : list (PublicId * Z)) (Hwf : wf r)
    (Hrole : role r = Leader next matched) :
  let n := commit (advance_commit r).1 in
  n = commit r \/
  commit r < n <= (last r).2 /\ e_epoch <$> entry r n = Some (epoch r) /\
  forall s, commit r < s <= n -> (majority r <= replicas matched s)%nat.
Proof.
  pose proof (wf_commit r Hwf) as Hc. pose proof (wf_last_seq r Hwf) as Hl. unfold u64_max, umax in *.
  unfold advance_commit. rewrite Hrole. rewrite wadd_small by lia.
  set (c := commit_loop _ _ _ _ _).
  pose proof (commit_loop_rule (Z.to_nat ((last r).2 - (commit r + 1) + 1)) r matched (commit r + 1) (commit r)) as Hr.
  fold c in Hr. cbv zeta in Hr. destruct Hr as [->|(Hr & He & Hs)].
  - left. by rewrite Z.gtb_ltb, Z.ltb_irrefl.
  - right. destruct (Z.gtb_spec c (commit r)); [|lia]. simpl. split_and!; [lia..|done|].
    intros s Hle. apply Hs. lia.
Qed.

Lemma leader_commit_rule_witness :
  let r := mkRaft (mkPublicId [1]) [mkPublicId [1]; mkPublicId [2]; mkPublicId [3]] 4 None
    [mkEntry 4 1 [7]] 0 0 0 0 (Leader [] [(mkPublicId [2], 1); (mkPublicId [3], 0)]) None in
  commit (advance_commit r).1 = 1 /\ e_epoch <$> entry r 1 = Some (epoch r).
Proof.
  intros r. split; [vm_compute; reflexivity|].
  destruct (leader_commit_rule r [] [(mkPublicId [2], 1); (mkPublicId [3], 0)]) as [H|(_ & H & _)].
  - split; simpl; try (unfold u64_max, umax; lia); [|constructor].
    apply contiguous_cons. split; [done|apply contiguous_nil].
  - reflexivity.
  - vm_compute in H. discriminate.
  - exact H.
Defined.

Lemma follow_log (r : Raft) from ep :
  let r' := (follow r from ep).1 in
  log r' = log r /\ base_seq r' = base_seq r /\ base_epoch r' = base_epoch r.
Proof. unfold follow, become_follower. destruct (_ >? _)%Z; simpl; try case_bool_decide; done. Qed.

Lemma same_log_entry (r r' : Raft) (s : Z) :
  log r' = log r -> base_seq r' = base_seq r -> entry r' s = entry r s.
Proof. unfold entry. by intros -> ->. Qed.

Lemma same_log_prev_ok (r r' : Raft) (ps pe : Z) :
  log r' = log r -> base_seq r' = base_seq r -> base_epoch r' = base_epoch r ->
  prev_ok r' ps pe = prev_ok r ps pe.
Proof. unfold prev_ok, epoch_at, entry. by intros -> -> ->. Qed.

(** What a follower accepts: at an epoch not behind its own, an [Append]
    whose predecessor matches leaves the log up to the predecessor as it was,
    holds afterwards an entry of the leader's epoch at every position the
    message covers, keeps or drops but never invents anything beyond, and is
    acknowledged with the member's own last sequence number; one whose
    predecessor does not match changes nothing in the log and is refused. *)
Theorem append_installs_leader_log (r : Raft) (from : PublicId) (ep ps pe : Z) (es : list Entry) (cm : Z)
    (Hwf : wf r) (Hm : msg_wf (Append ep ps pe es cm)) (Hep : epoch r <= ep) :
  let o := handle r from (Append ep ps pe es cm) in
  if prev_ok r ps pe then
    (forall s, s <= ps -> entry o.1 s = entry r s) /\
    (forall e, e ∈ es -> base_seq r < e_seq e -> e_epoch <$> entry o.1 (e_seq e) = Some (e_epoch e)) /\
    (forall s, ps + Z.of_nat (length es) < s -> entry o.1 s = entry r s \/ entry o.1 s = None) /\
    list.last o.2 = Some (Send from (AppendResp ep (last o.1).2 true)) /\
    ps + Z.of_nat (length es) <= (last o.1).2
  else
    log o.1 = log r /\ exists hint, list.last o.2 = Some (Send from (AppendResp ep hint false)).
Proof.
  destruct Hm as (Hps & Hc & Hlen & _). cbn [handle]. unfold handle_append.
  destruct (Z.ltb_spec ep (epoch r)); [lia|].
  destruct (follow_log r from ep) as (Hl & Hb & Hbe). pose proof (follow_wf r from ep Hwf) as [Hw1 _].
  destruct (follow_meta r from ep) as (_ & _ & He1 & _); [lia|].
  rewrite <- (same_log_prev_ok r (follow r from ep).1) by done.
  destruct (follow r from ep) as [r1 acts]; cbn [fst snd] in *.
  destruct (prev_ok r1 ps pe) eqn:Ep; simpl.
  2:{ split; [done|]. eexists. rewrite last_snoc, He1. done. }
  apply prev_ok_last in Ep; [|done].
  destruct (append_entries_entry es r1 None (ps + 1)) as (A & B & C); [done..|lia|lia|].
  destruct (append_entries_wf es r1 None (ps + 1)) as [Hw2 Hl2]; [done..|lia|lia|].
  destruct (append_entries_meta es r1 None) as (Hm2 & _).
  destruct (append_entries r1 None es) as [r2 pf]; cbn [fst snd] in *.
  assert (epoch r2 = ep) as He2 by (injection Hm2; congruence).
  assert (forall s, entry r1 s = entry r s) as Hsame by (intros; by apply same_log_entry).
  rewrite Hb in B. setoid_rewrite Hsame in A. setoid_rewrite Hsame in C. clear Hsame.
  assert (forall o : Raft * list Action,
    (forall s, entry o.1 s = entry r2 s) -> last o.1 = last r2 -> epoch o.1 = ep ->
    let o' := let '(r, applies) := o in
      (r, acts ++ match pf with Some f => [PersistLog f] | None => [] end ++ applies ++
            [Send from (AppendResp (epoch r) (last r2).2 true)]) in
    (forall s, s <= ps -> entry o'.1 s = entry r s) /\
    (forall e, e ∈ es -> base_seq r < e_seq e -> e_epoch <$> entry o'.1 (e_seq e) = Some (e_epoch e)) /\
    (forall s, ps + Z.of_nat (length es) < s -> entry o'.1 s = entry r s \/ entry o'.1 s = None) /\
    list.last o'.2 = Some (Send from (AppendResp ep (last o'.1).2 true)) /\
    ps + Z.of_nat (length es) <= (last o'.1).2) as Hfin.
  { intros [r3 applies] He3 Hl3 Hep3. simpl in *. rewrite Hl3. setoid_rewrite He3. split_and!.
    - intros s Hs. apply A. lia.
    - done.
    - intros s Hs. apply C. lia.
    - rewrite !app_assoc, last_snoc, Hep3. done.
    - lia. }
  apply Hfin; destruct (cm >? commit r2)%Z; done.
Qed.

Lemma append_installs_leader_log_witness :
  let o := handle (new (mkPublicId [1]) [mkPublicId [2]; mkPublicId [3]]) (mkPublicId [2])
    (Append 1 0 0 [mkEntry 1 1 [7]] 1) in
  list.last o.2 = Some (Send (mkPublicId [2]) (AppendResp 1 1 true)).
Proof.
  apply (append_installs_leader_log (new (mkPublicId [1]) [mkPublicId [2]; mkPublicId [3]]) (mkPublicId [2])
    1 0 0 [mkEntry 1 1 [7]] 1).
  - apply new_wf.
  - simpl. split_and!; try (unfold u64_max, umax; lia).
    apply contiguous_cons. split; [done|apply contiguous_nil].
  - simpl. lia.
Defined.

Lemma compact_entry (r : Raft) (keep s : Z) :
  wf r -> base_seq (compact r keep).1 < s -> entry (compact r keep).1 s = entry r s.
Proof.
  intros Hw. unfold compact. destruct (Z.leb_spec (sat_sub (applied r) keep) (base_seq r)) as [|Hb]; [done|].
  destruct (entry r (sat_sub (applied r) keep)); [|done]. simpl. intros Hs.
  unfold entry; simpl. destruct (Z.leb_spec s (sat_sub (applied r) keep)); [lia|].
  destruct (Z.leb_spec s (base_seq r)); [lia|]. rewrite lookup_drop. f_equal. lia.
Qed.

Lemma compact_last (r : Raft) (keep : Z) : wf r -> last (compact r keep).1 = last r.
Proof.
  intros Hw. unfold compact. destruct (Z.leb_spec (sat_sub (applied r) keep) (base_seq r)) as [|Hb]; [done|].
  destruct (entry r (sat_sub (applied r) keep)) as [e|] eqn:Ee; [|done]. simpl.
  pose proof Ee as [Hseq Hr]%entry_seq; [|apply Hw].
  unfold last; simpl. destruct (decide (sat_sub (applied r) keep = base_seq r + Z.of_nat (length (log r)))) as [Hall|].
  - rewrite drop_ge by lia. simpl. rewrite last_lookup.
    unfold entry in Ee. destruct (Z.leb_spec (sat_sub (applied r) keep) (base_seq r)); [lia|].
    replace (pred (length (log r))) with (Z.to_nat (sat_sub (applied r) keep - base_seq r - 1)) by lia.
    rewrite Ee. by rewrite Hseq.
  - rewrite !last_lookup, lookup_drop, length_drop.
    replace (Z.to_nat (sat_sub (applied r) keep - base_seq r) +
      pred (length (log r) - Z.to_nat (sat_sub (applied r) keep - base_seq r)))%nat
      with (pred (length (log r))) by lia.
    destruct (log r !! pred (length (log r))) eqn:El; [done|].
    apply lookup_ge_None in El. lia.
Qed.

(** Compaction is invisible to the protocol: it moves the snapshot point
    forward, never past what is applied, and changes neither the last entry,
    nor any entry above the new point, nor any epoch known from it on, nor what
    a snapshot taken now would declare, nor the marks. *)
Theorem compact_is_transparent (r : Raft) (keep : Z) (Hwf : wf r) (Hkeep : 0 <= keep)
    (Happ : applied r <= (last r).2) :
  let r' := (compact r keep).1 in
  base_seq r <= base_seq r' <= applied r /\ last r' = last r /\
  (forall s, base_seq r' < s -> entry r' s = entry r s) /\
  (forall s, base_seq r' <= s -> epoch_at r' s = epoch_at r s) /\
  snapshot_point r' = snapshot_point r /\
  applied r' = applied r /\ commit r' = commit r /\ meta r' = meta r.
Proof.
  cbv zeta. pose proof (compact_last r keep Hwf) as Hlast.
  pose proof (wf_applied r Hwf). pose proof (wf_base r Hwf).
  assert (forall s, base_seq (compact r keep).1 < s -> entry (compact r keep).1 s = entry r s) as He
    by (intros; by apply compact_entry).
  assert (base_seq r <= base_seq (compact r keep).1 <= applied r /\
    epoch_at (compact r keep).1 (base_seq (compact r keep).1) = epoch_at r (base_seq (compact r keep).1) /\
    applied (compact r keep).1 = applied r /\ commit (compact r keep).1 = commit r /\
    meta (compact r keep).1 = meta r) as (Hb & Hbe & Ha & Hc & Hm).
  { unfold compact. destruct (Z.leb_spec (sat_sub (applied r) keep) (base_seq r)) as [|Hgt];
      [simpl; split_and!; done || lia|].
    destruct (entry r (sat_sub (applied r) keep)) as [e|] eqn:Ee; [|simpl; split_and!; done || lia]. simpl.
    split_and!; try done; [lia|unfold sat_sub in *; lia|].
    unfold epoch_at; simpl. rewrite Z.eqb_refl, Ee. destruct (Z.eqb_spec (sat_sub (applied r) keep) (base_seq r)); [lia|done]. }
  assert (forall s, base_seq (compact r keep).1 <= s -> epoch_at (compact r keep).1 s = epoch_at r s) as Hea.
  { intros s Hs. destruct (decide (s = base_seq (compact r keep).1)) as [->|]; [done|].
    unfold epoch_at. rewrite He by lia.
    destruct (Z.eqb_spec s (base_seq (compact r keep).1)); [lia|].
    destruct (Z.eqb_spec s (base_seq r)); [lia|done]. }
  split_and!; try done; [lia..|].
  assert (forall x, wf x -> applied x <= (last x).2 ->
    snapshot_point x = (applied x, default 0 (epoch_at x (applied x)))) as Hsp.
  { intros x Hw Hx. unfold snapshot_point, epoch_at. destruct (Z.eqb_spec (applied x) (base_seq x)); [done|].
    rewrite last_seq_wf in Hx by apply Hw. pose proof (wf_applied x Hw).
    destruct (entry_in_range x (applied x)) as [e ->]; [lia|done]. }
  rewrite !Hsp; [|done|done|by apply compact_wf|by rewrite Hlast, Ha].
  rewrite Ha, Hea by lia. done.
Qed.

Lemma compact_is_transparent_witness :
  let r := mkRaft (mkPublicId [1]) [mkPublicId [1]] 4 None
    [mkEntry 3 1 [7]; mkEntry 4 2 [8]; mkEntry 4 3 [9]] 0 0 3 3 Follower None in
  base_seq (compact r 1).1 = 2 /\ snapshot_point (compact r 1).1 = snapshot_point r.
Proof.
  intros r. split; [vm_compute; reflexivity|]. apply (compact_is_transparent r 1).
  - split; simpl; try (unfold u64_max, umax; lia).
    do 3 (apply contiguous_cons; split; [done|]). apply contiguous_nil.
  - lia.
  - vm_compute. discriminate.
Defined.

(** ** Rendezvous *)

Lemma take_filter_keep {A} (P : A -> Prop) `{!forall x, Decision (P x)} (n : nat) (l : list A) (x : A) :
  x ∈ take n l -> P x -> x ∈ take n (filter P l).
Proof.
  revert n. induction l as [|y l IH]; intros [|n] Hx Hp; simpl in *; [set_solver..|].
  destruct (decide (P y)).
  - rewrite filter_cons_True by done. simpl. set_solver.
  - rewrite filter_cons_False by done. apply elem_of_cons in Hx as [->|Hx]; [done|].
    specialize (IH n Hx Hp). rewrite <- (take_drop n (take (S n) (filter P l))).
    rewrite take_take, Nat.min_l by lia. set_solver.
Qed.

Lemma take_filter_all {A} (P : A -> Prop) `{!forall x, Decision (P x)} (n : nat) (l : list A) :
  Forall P (take n l) -> take n (filter P l) = take n l \/ (length l < n)%nat /\ filter P l = l.
Proof.
  revert n. induction l as [|y l IH]; intros [|n] Hf; simpl in *; [by left|right; split; [lia|done]|by left|].
  apply Forall_cons in Hf as [Hy Hf]. rewrite filter_cons_True by done. simpl.
  destruct (IH n Hf) as [->|[? ->]]; [by left|right; split; [lia|done]].
Qed.

Section rendezvous_facts.
Context {crypto : Crypto}.

#[local] Instance scored_le_trans : Transitive scored_le.
Proof. intros a b c. unfold scored_le. apply le_of_trans. Qed.
#[local] Instance scored_le_total : Total scored_le.
Proof. intros a b. unfold scored_le. apply le_of_total. Qed.
#[local] Instance scored_le_anti : AntiSymm eq scored_le.
Proof. intros a b. unfold scored_le. apply le_of_antisym. Qed.

(** All nodes, best score first. *)
Definition ranking (object : string) (universe : list PublicId) : list (bytes * PublicId) :=
  reverse (merge_sort scored_le ((fun node => (score object node, node)) <$> universe)).

Lemma ranking_perm (object : string) (u : list PublicId) :
  ranking object u ≡ₚ (fun node => (score object node, node)) <$> u.
Proof. unfold ranking. rewrite reverse_Permutation. apply merge_sort_Permutation. Qed.

Lemma ranking_same (object : string) (u1 u2 : list PublicId) :
  u1 ≡ₚ u2 -> ranking object u1 = ranking object u2.
Proof.
  intros Hp. unfold ranking. f_equal. apply (Sorted_unique scored_le).
  - apply Sorted_merge_sort, _.
  - apply Sorted_merge_sort, _.
  - rewrite !merge_sort_Permutation. by rewrite Hp.
Qed.

Lemma ranking_filter (object : string) (u : list PublicId) (x : PublicId) :
  ranking object (filter (.≠ x) u) = filter (fun sn => sn.2 <> x) (ranking object u).
Proof.
  unfold ranking. rewrite filter_reverse. f_equal. apply (Sorted_unique scored_le).
  - apply Sorted_merge_sort, _.
  - apply StronglySorted_Sorted, StronglySorted_filter, Sorted_StronglySorted; [apply _|].
    apply Sorted_merge_sort, _.
  - rewrite !merge_sort_Permutation. clear.
    induction u as [|y u IH]; [done|]. rewrite fmap_cons. destruct (decide (y = x)).
    + rewrite !filter_cons_False by (simpl; naive_solver). done.
    + rewrite !filter_cons_True by (simpl; naive_solver). rewrite fmap_cons. by rewrite IH.
Qed.
End rendezvous_facts.

(** Replica groups are placed without a coordinator: the group has the
    requested size (or the whole universe), consists of distinct universe
    members and does not depend on the order of the universe; when a node
    leaves, every other member of the group stays in it, and a group the node
    was not in does not change at all. *)
Theorem rendezvous_stable {crypto : Crypto} (object : string) (u u' : list PublicId) (size : nat)
    (x : PublicId) (Hnd : NoDup u) (Hperm : u ≡ₚ u') :
  let g := rendezvous_group object u size in
  let g' := rendezvous_group object (filter (.≠ x) u) size in
  length g = Nat.min size (length u) /\ NoDup g /\ (forall n, n ∈ g -> n ∈ u) /\
  rendezvous_group object u' size = g /\
  (forall n, n ∈ g -> n <> x -> n ∈ g') /\ (x ∉ g -> g' = g).
Proof.
  cbv zeta. unfold rendezvous_group. fold (ranking object u) (ranking object u') (ranking object (filter (.≠ x) u)).
  assert ((ranking object u).*2 ≡ₚ u) as Hu.
  { rewrite ranking_perm, <- list_fmap_compose. by rewrite list_fmap_id. }
  rewrite ranking_filter, <- (ranking_same object u u' Hperm). split_and!.
  - rewrite length_fmap, length_take. rewrite <- Hu at 2. by rewrite length_fmap.
  - rewrite fmap_take. apply (sublist_NoDup _ (ranking object u).*2); [by rewrite Hu|apply sublist_take].
  - intros n Hn. rewrite <- Hu. apply list_elem_of_fmap in Hn as (sn & -> & (i & Hn & _)%elem_of_take).
    apply list_elem_of_fmap. exists sn. split; [done|]. by apply list_elem_of_lookup_2 in Hn.
  - done.
  - intros n Hn Hne. apply list_elem_of_fmap in Hn as (sn & -> & Hn).
    apply list_elem_of_fmap. exists sn. split; [done|]. by apply take_filter_keep.
  - intros Hx. assert (Forall (fun sn => sn.2 <> x) (take size (ranking object u))) as Hf.
    { apply Forall_forall. intros sn Hsn E. apply Hx. apply list_elem_of_fmap. by exists sn. }
    by destruct (take_filter_all (fun sn => sn.2 <> x) size _ Hf) as [->|[_ ->]].
Qed.

Lemma rendezvous_stable_witness :
  let u := [mkPublicId [1]; mkPublicId [2]; mkPublicId [3]; mkPublicId [4]] in
  length (rendezvous_group (crypto := Sample.crypto) "db" u 3) = 3%nat.
Proof.
  apply (rendezvous_stable (crypto := Sample.crypto) "db"
    [mkPublicId [1]; mkPublicId [2]; mkPublicId [3]; mkPublicId [4]]
    [mkPublicId [1]; mkPublicId [2]; mkPublicId [3]; mkPublicId [4]] 3 (mkPublicId [1])).
  - apply (bool_decide_unpack _). vm_compute. done.
  - done.
Defined.

(** ** What a transition writes to the log *)

(** The part of a contiguous log below [f]. *)
Lemma filter_prefix (from f : Z) (es : list Entry) :
  contiguous from es -> filter (fun e => e_seq e < f) es = take (Z.to_nat (f - from)) es.
Proof.
  revert from. induction es as [|e es IH]; intros from H; [by rewrite take_nil|].
  apply contiguous_cons in H as [He H]. destruct (decide (from < f)).
  - rewrite filter_cons_True by lia. rewrite (IH (from + 1)) by done.
    replace (Z.to_nat (f - from)) with (S (Z.to_nat (f - (from + 1)))) by lia. done.
  - rewrite filter_cons_False by lia. rewrite (IH (from + 1)) by done.
    replace (Z.to_nat (f - (from + 1))) with 0%nat by lia. replace (Z.to_nat (f - from)) with 0%nat by lia. done.
Qed.

Lemma append_one_log (r : Raft) (pf : option Z) (e : Entry) :
  contiguous (base_seq r + 1) (log r) -> e_seq e <= (last r).2 + 1 ->
  (log (append_one r pf e).1 = log r /\ (append_one r pf e).2 = pf) \/
  base_seq r < e_seq e /\ (append_one r pf e).2 = Some (default (e_seq e) pf) /\
  forall f, f <= e_seq e ->
    take (Z.to_nat (f - (base_seq r + 1))) (log (append_one r pf e).1) =
    take (Z.to_nat (f - (base_seq r + 1))) (log r).
Proof.
  intros Hc Hl. rewrite last_seq_wf in Hl by done. unfold append_one.
  destruct (Z.leb_spec (e_seq e) (base_seq r)) as [|Hb]; [by left|].
  assert (forall f, f <= e_seq e ->
    take (Z.to_nat (f - (base_seq r + 1))) (take (Z.to_nat (e_seq e - base_seq r - 1)) (log r) ++ [e]) =
    take (Z.to_nat (f - (base_seq r + 1))) (log r)) as Hpush.
  { intros f Hf. rewrite take_app_le by (rewrite length_take; lia). rewrite take_take. f_equal. lia. }
  destruct (entry r (e_seq e)) as [x|]; [destruct (e_epoch x =? e_epoch e)%Z; [by left|]|];
    right; split_and!; done.
Qed.

(** [persist_from] is where the log first changed. *)
Lemma append_entries_log (es : list Entry) (r : Raft) (pf : option Z) (from : Z) :
  wf r -> contiguous from es -> from <= (last r).2 + 1 -> from + Z.of_nat (length es) <= u64_max ->
  (forall f, pf = Some f -> base_seq r < f <= from) ->
  match (append_entries r pf es).2 with
  | None => pf = None /\ log (append_entries r pf es).1 = log r
  | Some f =>
      (forall f0, pf = Some f0 -> f = f0) /\ base_seq r < f < from + Z.of_nat (length es) + 1 /\
      take (Z.to_nat (f - (base_seq r + 1))) (log (append_entries r pf es).1) =
      take (Z.to_nat (f - (base_seq r + 1))) (log r)
  end.
Proof.
  revert r pf from. induction es as [|e es IH]; intros r pf from Hw Hc Hl Hm Hpf;
    cbn [append_entries length] in *.
  { simpl. destruct pf as [f|]; [|done]. specialize (Hpf f eq_refl). split_and!; [naive_solver|lia..|done]. }
  apply contiguous_cons in Hc as [He Hc].
  destruct (append_one_wf r pf e) as (Hw1 & Hl1 & Hb1); [done|lia..|].
  pose proof (append_one_log r pf e (wf_log r Hw)) as Hone.
  destruct (append_one r pf e) as [r1 pf1]; simpl in *.
  specialize (IH r1 pf1 (from + 1) Hw1 Hc). rewrite Hb1 in IH.
  destruct Hone as [[Hlog ->]|(Hbe & -> & Hpre)]; [lia| |].
  - rewrite Hlog in IH. destruct (append_entries r1 pf es) as [r2 [f|]]; simpl in *;
      (destruct IH as (I1 & I2); [lia|lia|intros f' Hf'; specialize (Hpf f' Hf'); lia|]); [|done].
    split; [done|]. split; [lia|tauto].
  - assert (forall f0, Some (default (e_seq e) pf) = Some f0 -> base_seq r < f0 <= e_seq e) as Hd.
    { intros f0 [= <-]. destruct pf as [f|]; simpl; [specialize (Hpf f eq_refl)|]; lia. }
    destruct (append_entries r1 (Some (default (e_seq e) pf)) es) as [r2 [f|]]; simpl in *;
      (destruct IH as (I1 & I2); [lia|lia|intros f' Hf'; specialize (Hd f' Hf'); lia|]); [|done].
    specialize (I1 _ eq_refl). subst f. specialize (Hd _ eq_refl). destruct I2 as [I2 I3].
    split; [by intros f0 ->|]. split; [lia|]. rewrite I3. apply Hpre. lia.
Qed.

Definition as_persist_log (a : Action) : option Z := match a with PersistLog f => Some f | _ => None end.
Definition persisted_logs (acts : list Action) : list Z := omap as_persist_log acts.

(** A transition that changes the log persists it from the first change on. *)
Definition log_step (r : Raft) (o : Raft * list Action) : Prop :=
  base_seq o.1 = base_seq r /\ base_epoch o.1 = base_epoch r /\
  match persisted_logs o.2 with
  | [] => log o.1 = log r
  | [f] => base_seq r < f <= u64_max /\
      filter (fun e => e_seq e < f) (log o.1) = filter (fun e => e_seq e < f) (log r)
  | _ => False
  end.

Lemma persisted_logs_app (l1 l2 : list Action) :
  persisted_logs (l1 ++ l2) = persisted_logs l1 ++ persisted_logs l2.
Proof. apply omap_app. Qed.

Lemma persisted_logs_replicate (r : Raft) : persisted_logs (replicate_all r) = [].
Proof.
  unfold replicate_all. destruct (role r) as [| |next matched]; [done..|].
  induction next as [|[p n] l IH]; [done|]. rewrite fmap_cons. unfold persisted_logs in *. simpl.
  by destruct (_ <? _)%Z.
Qed.

Lemma persisted_logs_apply_loop (n : nat) (r : Raft) (a : Z) : persisted_logs (apply_loop n r a) = [].
Proof.
  revert a. induction n as [|n IH]; intros a; cbn [apply_loop]; [done|].
  rewrite persisted_logs_app, IH. by destruct (entry r (a + 1)).
Qed.

Lemma follow_persisted (r : Raft) from ep : persisted_logs (follow r from ep).2 = [].
Proof.
  unfold follow, become_follower. destruct (_ >? _)%Z, (is_leader r); simpl; try case_bool_decide; done.
Qed.

Lemma log_step_same (r r' : Raft) (acts : list Action) :
  log r' = log r -> base_seq r' = base_seq r -> base_epoch r' = base_epoch r ->
  persisted_logs acts = [] -> log_step r (r', acts).
Proof. intros ? ? ? Hp. split_and!; [done..|]. simpl. by rewrite Hp. Qed.

Lemma become_follower_log (r : Raft) ep :
  let o := become_follower r ep in
  log o.1 = log r /\ base_seq o.1 = base_seq r /\ base_epoch o.1 = base_epoch r /\ persisted_logs o.2 = [].
Proof. unfold become_follower. by destruct (_ >? _)%Z, (is_leader r). Qed.

Lemma try_win_log (r : Raft) :
  let o := try_win r in
  log o.1 = log r /\ base_seq o.1 = base_seq r /\ base_epoch o.1 = base_epoch r /\ persisted_logs o.2 = [].
Proof.
  unfold try_win. destruct (role r); [done| |done]. case_bool_decide; [done|]. simpl.
  split_and!; try done. apply persisted_logs_replicate.
Qed.

Lemma advance_commit_log (r : Raft) :
  let o := advance_commit r in
  log o.1 = log r /\ base_seq o.1 = base_seq r /\ base_epoch o.1 = base_epoch r /\ persisted_logs o.2 = [].
Proof.
  unfold advance_commit. destruct (role r); [done..|]. set (c := commit_loop _ _ _ _ _).
  destruct (c >? commit r)%Z; simpl; (split_and!; [done..|]);
    rewrite persisted_logs_app, persisted_logs_apply_loop; [apply persisted_logs_replicate|done].
Qed.

Lemma handle_append_log_step (r : Raft) from ep ps pe es cm :
  wf r -> msg_wf (Append ep ps pe es cm) -> log_step r (handle_append r from ep ps pe es cm).
Proof.
  intros Hw (Hps & Hc & Hlen & _). unfold handle_append.
  destruct (ep <? epoch r)%Z; [by apply log_step_same|].
  destruct (follow_log r from ep) as (Hl & Hb & Hbe). pose proof (follow_wf r from ep Hw) as [Hw1 _].
  pose proof (follow_persisted r from ep) as Hpl.
  destruct (follow r from ep) as [r1 acts]; cbn [fst snd] in *.
  destruct (prev_ok r1 ps pe) eqn:Ep; simpl.
  2:{ apply log_step_same; try done. by rewrite persisted_logs_app, Hpl. }
  apply prev_ok_last in Ep; [|done].
  pose proof (append_entries_log es r1 None (ps + 1)) as Hae.
  destruct (append_entries_wf es r1 None (ps + 1)) as [Hw2 _]; [done..|lia|lia|].
  destruct (append_entries_meta es r1 None) as (_ & _ & _ & _ & Hb2 & _).
  assert (base_epoch (append_entries r1 None es).1 = base_epoch r1) as Hbe2.
  { clear. generalize (@None Z). revert r1. induction es as [|e es IH]; intros r1 pf; [done|].
    cbn [append_entries]. destruct (append_one r1 pf e) as [r2 pf2] eqn:E2. rewrite IH.
    unfold append_one in E2. repeat case_match; by injection E2 as <- <-. }
  destruct (append_entries r1 None es) as [r2 pf]; simpl in *.
  set (fin := if (cm >? commit r2)%Z then _ else _).
  assert (log fin.1 = log r2 /\ base_seq fin.1 = base_seq r2 /\ base_epoch fin.1 = base_epoch r2 /\
    persisted_logs fin.2 = []) as (Fl & Fb & Fbe & Fp).
  { unfold fin. destruct (cm >? commit r2)%Z; simpl; split_and!; try done. apply persisted_logs_apply_loop. }
  destruct fin as [r3 applies]; simpl in *. split_and!; simpl; try congruence.
  rewrite !persisted_logs_app, Hpl, Fp; simpl.
  destruct pf as [f|]; simpl; destruct Hae as (H1 & H2); try done; try lia; [|congruence].
  destruct H2 as [H2 H3]. rewrite Fl. split; [lia|].
  rewrite (filter_prefix (base_seq r + 1)) by (rewrite <- Hb, <- Hb2; apply Hw2).
  rewrite (filter_prefix (base_seq r + 1)) by apply Hw. rewrite <- Hb, <- Hl. done.
Qed.

Lemma handle_log_step (r : Raft) from m :
  wf r -> msg_wf m -> snapshots (handle r from m).2 = [] -> log_step r (handle r from m).
Proof.
  intros Hw Hm Hs. destruct m; cbn [handle] in *.
  - unfold handle_vote_req. destruct (become_follower_log r epoch0) as (H1 & H2 & H3 & H4).
    assert (let o := if (epoch0 >? epoch r)%Z then become_follower r epoch0 else (r, []) in
      log o.1 = log r /\ base_seq o.1 = base_seq r /\ base_epoch o.1 = base_epoch r /\
      persisted_logs o.2 = []) as (G1 & G2 & G3 & G4) by by destruct (epoch0 >? epoch r)%Z.
    destruct (if (epoch0 >? epoch r)%Z then _ else _) as [r1 acts]; simpl in *.
    destruct (_ && bool_decide (voted_for r1 = None)); apply log_step_same; try done;
      by rewrite persisted_logs_app, G4.
  - unfold handle_vote_resp. destruct (epoch0 >? epoch r)%Z.
    { destruct (become_follower_log r epoch0) as (H1 & H2 & H3 & H4).
      destruct (become_follower r epoch0). by apply log_step_same. }
    destruct (_ || _); [by apply log_step_same|]. set (r1 := match role r with Candidate _ => _ | _ => r end).
    assert (log r1 = log r /\ base_seq r1 = base_seq r /\ base_epoch r1 = base_epoch r) as (G1 & G2 & G3).
    { unfold r1. destruct (role r); try done. by case_bool_decide. }
    destruct (try_win_log r1) as (H1 & H2 & H3 & H4). destruct (try_win r1); simpl in *.
    apply log_step_same; congruence.
  - by apply handle_append_log_step.
  - unfold handle_append_resp. destruct (epoch0 >? epoch r)%Z.
    { destruct (become_follower_log r epoch0) as (H1 & H2 & H3 & H4).
      destruct (become_follower r epoch0). by apply log_step_same. }
    destruct (negb _); [by apply log_step_same|].
    destruct (role r) as [| |next matched]; [by apply log_step_same..|]. destruct ok.
    + set (r1 := set_role r _). destruct (advance_commit_log r1) as (H1 & H2 & H3 & H4).
      destruct (advance_commit r1); simpl in *. by apply log_step_same.
    + apply log_step_same; try done. apply persisted_logs_replicate.
  - unfold handle_snapshot in *. destruct (epoch0 <? epoch r)%Z; [by apply log_step_same|].
    destruct (follow_log r from epoch0) as (Hl & Hb & Hbe). pose proof (follow_persisted r from epoch0) as Hpl.
    destruct (follow r from epoch0) as [r1 acts]; simpl in *.
    destruct (last_seq <=? applied r1)%Z; simpl in *.
    + apply log_step_same; try done. by rewrite persisted_logs_app, Hpl.
    + rewrite snapshots_app in Hs. by apply app_nil in Hs as [_ Hs].
Qed.

Lemma tick_election_log_step (r : Raft) : log_step r (tick_election r).
Proof.
  unfold tick_election. destruct (is_leader r); [by apply log_step_same|]. set (r1 := set_role _ _).
  destruct (last r1) as [le ls]. destruct (try_win_log r1) as (H1 & H2 & H3 & H4).
  destruct (try_win r1) as [r2 won]; simpl in *. apply log_step_same; try done.
  assert (persisted_logs ((fun peer => Send peer (VoteReq (wadd 64 (epoch r) 1) le ls)) <$> others r) = []) as Hv.
  { induction (others r) as [|x l IH]; [done|]. rewrite fmap_cons. exact IH. }
  change (persisted_logs (PersistMeta :: ?x)) with (persisted_logs x).
  rewrite persisted_logs_app in *. rewrite H4, app_nil_r. exact Hv.
Qed.

Lemma propose_log_step (r : Raft) (cmd : bytes) (seq : Z) (acts : list Action) :
  wf r -> (last r).2 + 1 < u64_max -> (propose r cmd).2 = Ok (seq, acts) ->
  log_step r ((propose r cmd).1, acts).
Proof.
  intros Hw Hl. unfold propose. destruct (is_leader r); simpl; [|done].
  pose proof (wf_last_seq r Hw) as Hr. pose proof (wf_base r Hw). unfold u64_max, umax in *.
  rewrite wadd_small by lia. set (r1 := set_log r _).
  destruct (advance_commit_log r1) as (H1 & H2 & H3 & H4).
  destruct (advance_commit r1) as [r2 acts2]; simpl in *. intros [= <- <-].
  split_and!; simpl; [done..|].
  change (persisted_logs (PersistLog ((last r).2 + 1) :: ?x)) with ((last r).2 + 1 :: persisted_logs x).
  rewrite persisted_logs_app, persisted_logs_replicate, H4. simpl. unfold u64_max, umax.
  split; [lia|]. rewrite H1. simpl. rewrite filter_app.
  rewrite (filter_cons_False _ (mkEntry _ _ _)) by (simpl; lia). by rewrite filter_nil, app_nil_r.
Qed.
