(* ===== verification/DataAudit.v ===== *)
(** * DataAudit: privacy-preserving mutation proofs (crates/rf/src/data_audit.rs)

    [kv_mutation] and [d1_mutation] derive the audit entry of a KV write and of
    a committed D1 command; [merge] joins the entries of several nodes.  The
    cluster fan-out and the archive upload around them are I/O. *)

From Stdlib Require Import ZArith Lia Ascii.
From stdpp Require Import prelude gmap sorting strings list.
From S2P Require Import Prelude Text Hlc Identity Kv Quorum.
Open Scope Z_scope.

Definition DATA_AUDIT_RETENTION_MS : Z := 30 * 24 * 60 * 60 * 1000.
Definition MAX_DATA_AUDIT_PAGE : Z := 10000.

Record DataMutationAudit := mkAudit {
  au_id : string;
  au_kind : string;
  au_resource : string;
  subject_sha256 : string;
  content_sha256 : string;
  au_bytes : Z;
  au_sequence : option Z;
  occurred_at_ms : Z;
  observed_by : string
}.

(** [u64::to_be_bytes] and [u32::to_be_bytes]. *)
Definition u64_be (x : Z) : bytes := reverse (u64_le x).
Definition u32_be (x : Z) : bytes := reverse (u32_le x).

Definition blen (b : bytes) : Z := Z.of_nat (length b).

Definition nul : ascii := "000".

Section audit.
Context {crypto : Crypto} {hex : Hex}.

(** What is hashed for the content of a KV entry. *)
Definition kv_content (e : KvEntry) : bytes :=
  match value e with
  | Some v => [1] ++ u64_be (blen v) ++ v
  | None => [0]
  end ++
  match expires_at_ms e with
  | Some t => [1] ++ u64_be t
  | None => [0]
  end.

Definition kv_tag : bytes := as_bytes ("rf-data-audit/kv/v1" ++ String nul EmptyString).
Definition d1_tag : bytes := as_bytes ("rf-data-audit/d1/v1" ++ String nul EmptyString).

(** What is hashed for the id of a KV mutation. *)
Definition kv_identity (namespace key : string) (e : KvEntry) (content : string) : bytes :=
  kv_tag ++ u64_be (slen namespace) ++ as_bytes namespace ++ u64_be (slen key) ++ as_bytes key
  ++ u64_be (wall_ms (hlc e)) ++ u32_be (logical (hlc e)) ++ id_bytes (writer e) ++ as_bytes content.

(** [kv_mutation]. *)
Definition kv_mutation (namespace key : string) (e : KvEntry) : option DataMutationAudit :=
  if starts_with "__rf" namespace then None
  else
    let kind := match value e with Some _ => "kv_put" | None => "kv_delete" end in
    let subject := hex_encode (sha256 (as_bytes key)) in
    let content := hex_encode (sha256 (kv_content e)) in
    Some (mkAudit (hex_encode (sha256 (kv_identity namespace key e content))) kind namespace subject
      content (match value e with Some v => blen v | None => 0 end) None
      (wall_ms (hlc e)) (pid_to_string (writer e))).

Definition d1_identity (database : string) (e : Entry) (content : string) : bytes :=
  d1_tag ++ u64_be (slen database) ++ as_bytes database ++ u64_be (e_epoch e) ++ u64_be (e_seq e)
  ++ as_bytes content.

(** [d1_mutation]. *)
Definition d1_mutation (database : string) (e : Entry) (observed_by : string) (occurred_at_ms : Z)
  : DataMutationAudit :=
  let content := hex_encode (sha256 (e_cmd e)) in
  let subject := hex_encode (sha256 (u64_be (e_seq e))) in
  mkAudit (hex_encode (sha256 (d1_identity database e content))) "d1_commit" database subject content
    (blen (e_cmd e)) (Some (e_seq e)) occurred_at_ms observed_by.
End audit.

(** The observation that is kept of one id: earliest, then lowest observer. *)
Definition obs_key (a : DataMutationAudit) : Z * bytes := (occurred_at_ms a, as_bytes (observed_by a)).

(** One turn of the loop of [merge]. *)
Definition merge_one (unique : gmap string DataMutationAudit) (a : DataMutationAudit)
    : gmap string DataMutationAudit :=
  <[au_id a := match unique !! au_id a with
               | Some current => if ltb (obs_key a) (obs_key current) then a else current
               | None => a
               end]> unique.

(** Newest first, then highest id. *)
Definition newer (l r : DataMutationAudit) : Prop :=
  (occurred_at_ms r, as_bytes (au_id r)) ⪯ (occurred_at_ms l, as_bytes (au_id l)).

#[export] Instance newer_dec : RelDecision newer.
Proof. intros l r. unfold newer. apply _. Defined.

(** [Vec::truncate(limit.clamp(1, max))]. *)
Definition clamp (lo hi x : Z) : Z := Z.min hi (Z.max lo x).
Definition truncate_to {A} (n : Z) (l : list A) : list A := take (Z.to_nat n) l.

Definition before_ok (before_ms : option Z) (a : DataMutationAudit) : bool :=
  match before_ms with
  | Some before => (occurred_at_ms a <? before)%Z
  | None => true
  end.

(** [merge]. *)
Definition merge (snapshots : list (list DataMutationAudit)) (before_ms : option Z) (limit : Z)
    : list DataMutationAudit :=
  let unique := foldl merge_one ∅ (filter (fun a => before_ok before_ms a = true) (concat snapshots)) in
  truncate_to (clamp 1 MAX_DATA_AUDIT_PAGE limit) (merge_sort newer (map_to_list unique).*2).

(** ** Merging *)

Lemma foldl_merge_one (l : list DataMutationAudit) (m : gmap string DataMutationAudit) (k : string) :
  foldl merge_one m l !! k =
  match m !! k with
  | Some c => Some (min_from obs_key c (filter (fun a => au_id a = k) l))
  | None => min_by_key obs_key (filter (fun a => au_id a = k) l)
  end.
Proof.
  revert m. induction l as [|a l IH]; intros m; cbn [foldl]; [by destruct (m !! k)|].
  rewrite IH. unfold merge_one. destruct (decide (au_id a = k)) as [<-|Hne].
  - rewrite lookup_insert_eq, filter_cons_True by done. by destruct (m !! au_id a).
  - by rewrite lookup_insert_ne, filter_cons_False.
Qed.

(** Two reports of one id by the same observer at the same time are one report. *)
Definition consistent (l : list DataMutationAudit) : Prop :=
  forall a b, a ∈ l -> b ∈ l -> au_id a = au_id b -> obs_key a = obs_key b -> a = b.

Lemma min_by_key_consistent (l1 l2 : list DataMutationAudit) (k : string) :
  consistent l1 -> l1 ≡ₚ l2 ->
  min_by_key obs_key (filter (fun a => au_id a = k) l1) =
  min_by_key obs_key (filter (fun a => au_id a = k) l2).
Proof.
  intros Hc Hp. assert (filter (fun a => au_id a = k) l1 ≡ₚ filter (fun a => au_id a = k) l2) as Hf
    by by rewrite Hp.
  pose proof (min_by_key_perm obs_key _ _ Hf) as Hk.
  destruct (min_by_key _ (filter _ l1)) as [a|] eqn:E1, (min_by_key _ (filter _ l2)) as [b|] eqn:E2;
    try discriminate; [|done].
  apply min_by_key_Some in E1 as [[Ha Hia]%list_elem_of_filter _].
  apply min_by_key_Some in E2 as [[Hb Hib]%list_elem_of_filter _].
  f_equal. rewrite <- Hp in Hib. injection Hk as Hk. apply Hc; [done..|congruence|].
  unfold obs_key in *. congruence.
Qed.

(** ** Ids *)

Lemma u64_be_length (x : Z) : length (u64_be x) = 8%nat.
Proof. unfold u64_be. rewrite length_reverse. apply le_bytes_length. Qed.
Lemma u32_be_length (x : Z) : length (u32_be x) = 4%nat.
Proof. unfold u32_be. rewrite length_reverse. apply le_bytes_length. Qed.

Lemma u64_be_inj (x y : Z) : in_width 64 x -> in_width 64 y -> u64_be x = u64_be y -> x = y.
Proof.
  intros Hx Hy H%(inj reverse). apply (le_bytes_inj 8); [exact Hx|exact Hy|exact H].
Qed.
Lemma u32_be_inj (x y : Z) : in_width 32 x -> in_width 32 y -> u32_be x = u32_be y -> x = y.
Proof.
  intros Hx Hy H%(inj reverse). apply (le_bytes_inj 4); [exact Hx|exact Hy|exact H].
Qed.

(** A length-prefixed field is read back unambiguously. *)
Lemma prefixed_inj (a b r s : bytes) :
  in_width 64 (blen a) -> in_width 64 (blen b) ->
  u64_be (blen a) ++ a ++ r = u64_be (blen b) ++ b ++ s -> a = b /\ r = s.
Proof.
  intros Ha Hb E. apply app_inj_1 in E as [El E]; [|by rewrite !u64_be_length].
  apply u64_be_inj in El; [|done..]. apply app_inj_1 in E as [-> ->]; [done|].
  unfold blen in El. lia.
Qed.

Lemma slen_blen (s : string) : slen s = blen (as_bytes s).
Proof. unfold slen, blen. by rewrite as_bytes_length. Qed.

(** The fields of a KV entry fit their types. *)
Definition entry_fits (e : KvEntry) : Prop :=
  in_width 64 (wall_ms (hlc e)) /\ in_width 32 (logical (hlc e)) /\ length (id_bytes (writer e)) = 32%nat /\
  (forall v, value e = Some v -> in_width 64 (blen v)) /\
  (forall t, expires_at_ms e = Some t -> in_width 64 t).

Lemma kv_content_inj (e1 e2 : KvEntry) :
  entry_fits e1 -> entry_fits e2 -> kv_content e1 = kv_content e2 ->
  value e1 = value e2 /\ expires_at_ms e1 = expires_at_ms e2.
Proof.
  intros (_ & _ & _ & V1 & T1) (_ & _ & _ & V2 & T2). unfold kv_content.
  assert (forall o1 o2 : option Z, (forall t, o1 = Some t -> in_width 64 t) ->
    (forall t, o2 = Some t -> in_width 64 t) ->
    match o1 with Some t => [1] ++ u64_be t | None => [0] end =
    match o2 with Some t => [1] ++ u64_be t | None => [0] end -> o1 = o2) as Ht.
  { intros [t1|] [t2|] F1 F2 E; try discriminate; [|done].
    apply (f_equal tail) in E. simpl in E. f_equal. apply u64_be_inj; auto. }
  destruct (value e1) as [v1|], (value e2) as [v2|]; intros E; try discriminate.
  - rewrite <- !app_assoc in E. apply app_inj_1 in E as [_ E]; [|done].
    apply prefixed_inj in E as [-> E]; [|auto..]. split; [done|]. by apply Ht.
  - apply app_inj_1 in E as [_ E]; [|done]. split; [done|]. by apply Ht.
Qed.

Lemma kv_identity_inj (n1 n2 k1 k2 : string) (e1 e2 : KvEntry) (c1 c2 : string) :
  entry_fits e1 -> entry_fits e2 -> in_width 64 (slen n1) -> in_width 64 (slen n2) ->
  in_width 64 (slen k1) -> in_width 64 (slen k2) ->
  kv_identity n1 k1 e1 c1 = kv_identity n2 k2 e2 c2 ->
  n1 = n2 /\ k1 = k2 /\ hlc e1 = hlc e2 /\ writer e1 = writer e2 /\ c1 = c2.
Proof.
  intros (W1 & L1 & P1 & _) (W2 & L2 & P2 & _) N1 N2 K1 K2. unfold kv_identity.
  rewrite !slen_blen in *. intros E%app_inv_head.
  apply prefixed_inj in E as [Hn E]; [|done..]. apply as_bytes_inj in Hn.
  apply prefixed_inj in E as [Hk E]; [|done..]. apply as_bytes_inj in Hk.
  apply app_inj_1 in E as [Hw E]; [|by rewrite !u64_be_length]. apply u64_be_inj in Hw; [|done..].
  apply app_inj_1 in E as [Hl E]; [|by rewrite !u32_be_length]. apply u32_be_inj in Hl; [|done..].
  apply app_inj_1 in E as [Hp Hc]; [|congruence]. apply as_bytes_inj in Hc.
  split_and!; try done.
  - destruct (hlc e1), (hlc e2); simpl in *; congruence.
  - destruct (writer e1), (writer e2); simpl in *; congruence.
Qed.

(** ** Properties *)

(** What the cluster reports as data audit does not depend on which node
    answered first: merging the same reports in any order, split into snapshots
    in any way, gives the same page. *)
Theorem audit_merge_order_irrelevant (s1 s2 : list (list DataMutationAudit)) (before_ms : option Z)
    (limit : Z) (Hc : consistent (concat s1)) (Hp : concat s1 ≡ₚ concat s2) :
  merge s1 before_ms limit = merge s2 before_ms limit.
Proof.
  unfold merge. do 4 f_equal. apply map_eq. intros k. rewrite !foldl_merge_one, !lookup_empty.
  apply min_by_key_consistent; [|by rewrite Hp].
  intros a b [_ Ha]%list_elem_of_filter [_ Hb]%list_elem_of_filter. by apply Hc.
Qed.

(** An audit id stands for exactly one mutation: unless two hashed inputs
    collide, KV audit entries with the same id are of the same namespace, key,
    clock, writer, value and expiry, every variable-length field being hashed
    with its length. *)
Theorem kv_audit_id_binds {crypto : Crypto} {hex : Hex} {hex_ok : HexOk}
    (n1 n2 k1 k2 : string) (e1 e2 : KvEntry) (a1 a2 : DataMutationAudit)
    (F1 : entry_fits e1) (F2 : entry_fits e2)
    (Hlen : in_width 64 (slen n1) /\ in_width 64 (slen n2) /\ in_width 64 (slen k1) /\ in_width 64 (slen k2))
    (Hbytes : forall x, is_bytes x -> is_bytes (sha256 x))
    (Hin : is_bytes (kv_content e1) /\ is_bytes (kv_content e2) /\
           is_bytes (kv_identity n1 k1 e1 (content_sha256 a1)) /\
           is_bytes (kv_identity n2 k2 e2 (content_sha256 a2)))
    (Hcoll : (sha256 (kv_content e1) = sha256 (kv_content e2) -> kv_content e1 = kv_content e2) /\
             (sha256 (kv_identity n1 k1 e1 (content_sha256 a1)) =
              sha256 (kv_identity n2 k2 e2 (content_sha256 a2)) ->
              kv_identity n1 k1 e1 (content_sha256 a1) = kv_identity n2 k2 e2 (content_sha256 a2)))
    (H1 : kv_mutation n1 k1 e1 = Some a1) (H2 : kv_mutation n2 k2 e2 = Some a2)
    (Hid : au_id a1 = au_id a2) :
  n1 = n2 /\ k1 = k2 /\ e1 = e2.
Proof.
  assert (forall x y, is_bytes x -> is_bytes y -> hex_encode x = hex_encode y -> x = y) as Hhex.
  { intros x y Hx Hy E. apply hex_decode_encode in Hx, Hy. congruence. }
  unfold kv_mutation in H1, H2. destruct (starts_with "__rf" n1); [done|].
  destruct (starts_with "__rf" n2); [done|]. injection H1 as <-. injection H2 as <-.
  cbn [au_id content_sha256] in *. destruct Hin as (I1 & I2 & I3 & I4), Hcoll as [C1 C2].
  apply Hhex, C2 in Hid; [|by apply Hbytes..].
  apply kv_identity_inj in Hid as (-> & -> & Hh & Hw & Hcont); [|tauto..].
  apply Hhex, C1, kv_content_inj in Hcont as [Hv Ht]; [|done|done|by apply Hbytes..].
  split_and!; try done. destruct e1, e2; simpl in *; congruence.
Qed.

Definition sample_audit (id who : string) (t : Z) : DataMutationAudit :=
  mkAudit id "kv_put" "ns" "s" "c" 1 None t who.

Lemma audit_merge_order_irrelevant_witness :
  merge [[sample_audit "a" "n1" 5]; [sample_audit "a" "n2" 3; sample_audit "b" "n2" 4]] (Some 5) 10 =
  merge [[sample_audit "a" "n2" 3; sample_audit "b" "n2" 4]; [sample_audit "a" "n1" 5]] (Some 5) 10.
Proof.
  apply audit_merge_order_irrelevant.
  - intros a b Ha Hb. cbn [concat app] in *. rewrite !elem_of_cons, elem_of_nil in Ha, Hb.
    destruct Ha as [->|[->|[->|[]]]], Hb as [->|[->|[->|[]]]]; intros Hid Hk; try reflexivity; discriminate.
  - cbn [concat app]. apply Permutation_cons_append.
Defined.

Definition sample_kv_entry : KvEntry :=
  mkKvEntry (mkHlc 5 0) (mkPublicId (replicate 32 1)) (Some [7]) None.

Lemma kv_audit_id_binds_witness :
  "ns" = "ns" /\ "key" = "key" /\ sample_kv_entry = sample_kv_entry.
Proof.
  assert (entry_fits sample_kv_entry) as F.
  { split_and!; [unfold in_width; simpl; lia..|reflexivity| |]; intros x [= <-].
    unfold in_width, blen. simpl. lia. }
  assert (forall b, forallb (fun x => (0 <=? x)%Z && (x <? 256)%Z) b = true -> is_bytes b) as Hb.
  { intros b. rewrite forallb_forall. intros H. apply Forall_forall. intros x Hx%list_elem_of_In.
    apply H in Hx. lia. }
  apply (kv_audit_id_binds (crypto := Sample.crypto) (hex := Sample.hex) (hex_ok := Sample.hex_ok)
    "ns" "ns" "key" "key" sample_kv_entry sample_kv_entry
    (default (sample_audit "" "" 0) (kv_mutation (crypto := Sample.crypto) (hex := Sample.hex) "ns" "key" sample_kv_entry))
    (default (sample_audit "" "" 0) (kv_mutation (crypto := Sample.crypto) (hex := Sample.hex) "ns" "key" sample_kv_entry))).
  - exact F.
  - exact F.
  - split_and!; unfold in_width, slen; simpl; lia.
  - intros x Hx. exact Hx.
  - split_and!; apply Hb; vm_compute; reflexivity.
  - split; intros _; reflexivity.
  - reflexivity.
  - reflexivity.
  - reflexivity.
Defined.
