(* ===== verification/Observability.v ===== *)
(** * Observability: Worker request logs (crates/rf/src/observability.rs)

    The log entry and its truncation to column widths, the filters and status
    buckets, one node's snapshot (a function of what the store and the pending
    queue hold) and the merge of the snapshots of several nodes.  The flush
    task and the clock are I/O. *)

From Stdlib Require Import ZArith Lia Ascii.
From stdpp Require Import prelude gmap sorting strings list.
From S2P Require Import Prelude Text DataAudit.
Open Scope Z_scope.

Definition REQUEST_LOG_RETENTION_MS : Z := 7 * 24 * 60 * 60 * 1000.
Definition HOUR_MS : Z := 60 * 60 * 1000.

Record RequestLogEntry := mkLogEntry {
  rl_id : string;
  rl_worker : string;
  rl_version : Z;
  rl_node : string;
  rl_hostname : string;
  rl_method : string;
  rl_path : string;
  status_code : Z;
  duration_ms : Z;
  called_at_ms : Z
}.

#[export] Instance RequestLogEntry_eq_dec : EqDecision RequestLogEntry.
Proof. solve_decision. Defined.

Record RequestHour := mkHour {
  start_ms : Z;
  status_2xx : Z;
  status_3xx : Z;
  status_4xx : Z;
  status_5xx : Z;
  other : Z
}.

Record RequestLogSnapshot := mkSnapshot {
  sn_node : string;
  sn_label : string;
  sn_entries : list RequestLogEntry;
  sn_hostnames : list string;
  sn_hours : list RequestHour
}.

Record MergedRequestLogs := mkMerged {
  mg_entries : list RequestLogEntry;
  mg_hostnames : list string;
  mg_hours : list RequestHour
}.

(** The iteration orders of [BTreeSet<String>] and of [BTreeMap<u64, _>]. *)
Definition sorted_strings (s : gset string) : list string := merge_sort le_of (elements s).
Definition by_key {A} (a b : Z * A) : Prop := a.1 <= b.1.
#[export] Instance by_key_dec {A} : RelDecision (by_key (A := A)).
Proof. intros a b. unfold by_key. apply _. Defined.
Definition sorted_values {A} (m : gmap Z A) : list A := (merge_sort by_key (map_to_list m)).*2.

(** Newest first, then highest id. *)
Definition log_newer (l r : RequestLogEntry) : Prop :=
  (called_at_ms r, as_bytes (rl_id r)) ⪯ (called_at_ms l, as_bytes (rl_id l)).
#[export] Instance log_newer_dec : RelDecision log_newer.
Proof. intros l r. unfold log_newer. apply _. Defined.

Definition add_hours (a b : RequestHour) : RequestHour :=
  mkHour (start_ms a) (sat_add 64 (status_2xx a) (status_2xx b)) (sat_add 64 (status_3xx a) (status_3xx b))
    (sat_add 64 (status_4xx a) (status_4xx b)) (sat_add 64 (status_5xx a) (status_5xx b))
    (sat_add 64 (other a) (other b)).

Definition empty_hour (start : Z) : RequestHour := mkHour start 0 0 0 0 0.

(** The [entry(..).or_insert_with(..)] of [merge_snapshots] and the sums. *)
Definition add_hour (hours : gmap Z RequestHour) (h : RequestHour) : gmap Z RequestHour :=
  <[start_ms h := add_hours (default (empty_hour (start_ms h)) (hours !! start_ms h)) h]> hours.

(** The entries whose id was not seen before. *)
Definition add_entry (acc : gset string * list RequestLogEntry) (e : RequestLogEntry)
    : gset string * list RequestLogEntry :=
  if bool_decide (rl_id e ∈ acc.1) then acc else ({[rl_id e]} ∪ acc.1, acc.2 ++ [e]).

(** [merge_snapshots]. *)
Definition merge_snapshots (snapshots : list RequestLogSnapshot) (limit : Z) : MergedRequestLogs :=
  let hostnames := list_to_set (C := gset string) (concat (sn_hostnames <$> snapshots)) in
  let entries := (foldl add_entry (∅, []) (concat (sn_entries <$> snapshots))).2 in
  let hours := foldl add_hour ∅ (concat (sn_hours <$> snapshots)) in
  mkMerged (truncate_to (clamp 1 1000 limit) (merge_sort log_newer entries))
    (sorted_strings hostnames) (sorted_values hours).

(** [entry_matches]. *)
Definition entry_matches (e : RequestLogEntry) (hostname : option string) (status_class : option Z) : bool :=
  match hostname with Some h => bool_decide (h = rl_hostname e) | None => true end
  && match status_class with Some c => (status_code e / 100 =? c)%Z | None => true end.

(** [add_status] on the five counters. *)
Definition status_index (status : Z) : nat :=
  match (status / 100)%Z with
  | 2%Z => 0%nat | 3%Z => 1%nat | 4%Z => 2%nat | 5%Z => 3%nat | _ => 4%nat
  end.
Definition add_status (counts : list Z) (status : Z) : list Z :=
  alter (fun c => sat_add 64 c 1) (status_index status) counts.

(** [str::is_char_boundary] on UTF-8 bytes. *)
Definition is_char_boundary (s : string) (i : nat) : bool :=
  bool_decide (i = 0%nat) || bool_decide (i = String.length s)
  || match String.get i s with Some c => negb (is_continuation c) | None => false end.

(** The loop of [truncate]: step back to a boundary. *)
Fixpoint floor_boundary (s : string) (i : nat) : nat :=
  if is_char_boundary s i then i
  else match i with O => O | S i' => floor_boundary s i' end.

(** [truncate]. *)
Definition truncate (s : string) (max_bytes : nat) : string :=
  if bool_decide (String.length s <= max_bytes)%nat then s
  else stake (floor_boundary s max_bytes) s.

(** [record], with the random id, the node and the clock as arguments. *)
Definition record_entry (id node : string) (now : Z) (worker : string) (version : Z)
    (hostname method path : string) (status duration : Z) : RequestLogEntry :=
  mkLogEntry id (truncate worker 63) version node (truncate hostname 253) (truncate method 16)
    (truncate path 2048) status duration now.

Definition RequestAggregate : Type := gset string * gmap Z (list Z).

(** [Vec::dedup_by] on equal ids: of a run of equal ids the first is kept. *)
Fixpoint dedup_from (last : RequestLogEntry) (l : list RequestLogEntry) : list RequestLogEntry :=
  match l with
  | [] => []
  | e :: l' => if bool_decide (rl_id e = rl_id last) then dedup_from last l' else e :: dedup_from e l'
  end.
Definition dedup_ids (l : list RequestLogEntry) : list RequestLogEntry :=
  match l with [] => [] | e :: l' => e :: dedup_from e l' end.

(** One pending entry counted into the aggregate. *)
Definition count_pending (first_hour : Z) (hostname : option string) (agg : RequestAggregate)
    (e : RequestLogEntry) : RequestAggregate :=
  if (called_at_ms e <? first_hour)%Z then agg
  else
    let hosts := {[rl_hostname e]} ∪ agg.1 in
    if match hostname with Some h => bool_decide (h = rl_hostname e) | None => true end then
      let bucket := called_at_ms e / HOUR_MS * HOUR_MS in
      (hosts, <[bucket := add_status (default (replicate 5 0) (agg.2 !! bucket)) (status_code e)]> agg.2)
    else (hosts, agg.2).

Definition hour_of_counts (start : Z) (counts : list Z) : RequestHour :=
  mkHour start (nth 0 counts 0) (nth 1 counts 0) (nth 2 counts 0) (nth 3 counts 0) (nth 4 counts 0).

(** [snapshot]: [load] and [aggregate] are the two store reads, [pending] the
    worker's queue, [now] the clock. *)
Definition snapshot (load : Z -> list RequestLogEntry) (aggregate : Z -> RequestAggregate)
    (pending : list RequestLogEntry) (now : Z) (node label : string)
    (hostname : option string) (status_class : option Z) (limit : Z) : RequestLogSnapshot :=
  let limit := clamp 1 1000 limit in
  let current_hour := now / HOUR_MS * HOUR_MS in
  let first_hour := sat_sub current_hour (23 * HOUR_MS) in
  let entries := load limit ++ filter (fun e => entry_matches e hostname status_class = true) pending in
  let entries := truncate_to limit (dedup_ids (merge_sort log_newer entries)) in
  let agg := foldl (count_pending first_hour hostname) (aggregate first_hour) pending in
  let hours := (fun offset =>
    let start := first_hour + Z.of_nat offset * HOUR_MS in
    hour_of_counts start (default (replicate 5 0) (agg.2 !! start))) <$> seq 0 24 in
  mkSnapshot node label entries (sorted_strings agg.1) hours.

(** ** Truncation *)

Lemma stake_length (n : nat) (s : string) : (n <= String.length s)%nat -> String.length (stake n s) = n.
Proof.
  revert s. induction n as [|n IH]; intros [|c s] Hn; simpl in *; try lia. rewrite IH; lia.
Qed.

Lemma stake_prefix (n : nat) (s : string) : starts_with (stake n s) s = true.
Proof.
  revert s. induction n as [|n IH]; intros [|c s]; try done. unfold starts_with in *. simpl.
  destruct (ascii_dec c c); [apply IH|done].
Qed.

Lemma floor_boundary_spec (s : string) (i : nat) :
  (floor_boundary s i <= i)%nat /\ is_char_boundary s (floor_boundary s i) = true /\
  forall j, (floor_boundary s i < j <= i)%nat -> is_char_boundary s j = false.
Proof.
  induction i as [|i (H1 & H2 & H3)]; cbn [floor_boundary].
  - split_and!; try done. intros j Hj. lia.
  - destruct (is_char_boundary s (S i)) eqn:E; [split_and!; [lia|done|intros; lia]|].
    split_and!; [lia|done|]. intros j Hj. destruct (decide (j = S i)) as [->|]; [done|]. apply H3. lia.
Qed.

(** ** Merging *)

(** The counters of an hour are [u64]s. *)
Definition hour_ok (h : RequestHour) : Prop :=
  0 <= status_2xx h /\ 0 <= status_3xx h /\ 0 <= status_4xx h /\ 0 <= status_5xx h /\ 0 <= other h.

Lemma sat_add_swap (a b c : Z) : 0 <= b -> 0 <= c ->
  sat_add 64 (sat_add 64 a b) c = sat_add 64 (sat_add 64 a c) b.
Proof. unfold sat_add. lia. Qed.

Lemma add_hour_comm (m : gmap Z RequestHour) (x y : RequestHour) :
  hour_ok x -> hour_ok y -> add_hour (add_hour m x) y = add_hour (add_hour m y) x.
Proof.
  intros (? & ? & ? & ? & ?) (? & ? & ? & ? & ?). unfold add_hour.
  destruct (decide (start_ms x = start_ms y)) as [E|Hne].
  - rewrite E, !lookup_insert_eq, !insert_insert_eq; simpl. f_equal.
    unfold add_hours; simpl. f_equal; by apply sat_add_swap.
  - rewrite !lookup_insert_ne by done. by apply insert_insert_ne.
Qed.

(** Entries of one id are one entry. *)
Definition same_ids (l : list RequestLogEntry) : Prop :=
  forall a b, a ∈ l -> b ∈ l -> rl_id a = rl_id b -> a = b.

Lemma foldl_add_entry (l : list RequestLogEntry) (seen : gset string) (acc : list RequestLogEntry) :
  same_ids (acc ++ l) -> (forall i, i ∈ seen <-> i ∈ rl_id <$> acc) -> NoDup (rl_id <$> acc) ->
  NoDup (rl_id <$> (foldl add_entry (seen, acc) l).2) /\
  forall e, e ∈ (foldl add_entry (seen, acc) l).2 <-> e ∈ acc ++ l.
Proof.
  revert seen acc. induction l as [|x l IH]; intros seen acc Hs Hseen Hnd; cbn [foldl].
  { split; [done|]. intros e. by rewrite app_nil_r. }
  unfold add_entry at 2 4; simpl. case_bool_decide as Hin.
  - assert (x ∈ acc) as Hx.
    { apply Hseen, list_elem_of_fmap in Hin as (y & Hid & Hy).
      rewrite (Hs x y) by (done || set_solver). done. }
    destruct (IH seen acc) as [H1 H2]; [|done..|].
    { intros a b ? ?. apply Hs; set_solver. }
    split; [done|]. intros e. rewrite H2. set_solver.
  - destruct (IH ({[rl_id x]} ∪ seen) (acc ++ [x])) as [H1 H2].
    + by rewrite <- app_assoc.
    + intros i. rewrite fmap_app. set_solver.
    + rewrite fmap_app. apply NoDup_app. split_and!; [done| |apply NoDup_singleton].
      intros i Hi Hi'. apply Hin, Hseen. set_solver.
    + split; [done|]. intros e. rewrite H2, <- app_assoc. done.
Qed.

Lemma kept_entries_perm (l1 l2 : list RequestLogEntry) :
  same_ids l1 -> l1 ≡ₚ l2 ->
  (foldl add_entry (∅, []) l1).2 ≡ₚ (foldl add_entry (∅, []) l2).2 /\
  forall e, e ∈ (foldl add_entry (∅, []) l1).2 <-> e ∈ l1.
Proof.
  intros Hs Hp. destruct (foldl_add_entry l1 ∅ []) as [N1 E1]; [done|set_solver|constructor|].
  destruct (foldl_add_entry l2 ∅ []) as [N2 E2]; [|set_solver|constructor|].
  { intros a b. simpl. rewrite <- Hp. apply Hs. }
  split; [|exact E1]. apply NoDup_Permutation; [by apply NoDup_fmap_1 in N1|by apply NoDup_fmap_1 in N2|].
  intros e. rewrite E1, E2. simpl. by rewrite Hp.
Qed.

#[local] Instance log_newer_trans : Transitive log_newer.
Proof. intros a b c H1 H2. unfold log_newer in *. by eapply le_of_trans. Qed.
#[local] Instance log_newer_total : Total log_newer.
Proof. intros a b. unfold log_newer. apply le_of_total. Qed.

Lemma sort_logs_perm (l1 l2 : list RequestLogEntry) :
  same_ids l1 -> l1 ≡ₚ l2 -> merge_sort log_newer l1 = merge_sort log_newer l2.
Proof.
  intros Hs Hp. apply (Sorted_unique_strong log_newer).
  - intros a b Ha Hb H1 H2. rewrite merge_sort_Permutation in Ha, Hb. rewrite <- Hp in Hb.
    apply Hs; [done..|]. unfold log_newer in *. pose proof (le_of_antisym _ _ H1 H2) as E.
    injection E as _ E. by apply as_bytes_inj in E.
  - apply Sorted_merge_sort, _.
  - apply Sorted_merge_sort, _.
  - by rewrite !merge_sort_Permutation.
Qed.

(** ** Properties *)

(** The cluster's request log does not depend on the order in which nodes
    answer: merging the same snapshots in any order gives the same entries,
    hostnames and hourly counts, each entry once however many nodes report it. *)
Theorem request_merge_order_irrelevant (s1 s2 : list RequestLogSnapshot) (limit : Z)
    (Hp : s1 ≡ₚ s2) (Hids : same_ids (concat (sn_entries <$> s1)))
    (Hok : Forall hour_ok (concat (sn_hours <$> s1))) :
  merge_snapshots s1 limit = merge_snapshots s2 limit.
Proof.
  assert (forall {A} (f : RequestLogSnapshot -> list A), concat (f <$> s1) ≡ₚ concat (f <$> s2)) as Hc.
  { intros A f. by rewrite Hp. }
  destruct (kept_entries_perm _ _ Hids (Hc _ sn_entries)) as [Hkept Hin].
  unfold merge_snapshots. f_equal.
  - f_equal. apply sort_logs_perm; [|done]. intros a b Ha Hb. rewrite Hin in Ha, Hb. by apply Hids.
  - unfold sorted_strings. apply merge_sort_perm.
    enough (list_to_set (C := gset string) (concat (sn_hostnames <$> s1)) =
            list_to_set (concat (sn_hostnames <$> s2))) as -> by done.
    apply set_eq. intros x. rewrite !elem_of_list_to_set. by rewrite (Hc _ sn_hostnames).
  - f_equal. apply (foldl_perm _ hour_ok); [|apply Hc|done]. intros. by apply add_hour_comm.
Qed.

Definition sample_log (id : string) (t : Z) : RequestLogEntry :=
  mkLogEntry id "w" 1 "n" "h" "GET" "/" 200 3 t.
Definition sample_snapshot (id : string) (t : Z) : RequestLogSnapshot :=
  mkSnapshot "n" "n" [sample_log id t] ["h"] [mkHour 0 1 0 0 0 0].

Lemma request_merge_order_irrelevant_witness :
  merge_snapshots [sample_snapshot "a" 5; sample_snapshot "b" 7] 10 =
  merge_snapshots [sample_snapshot "b" 7; sample_snapshot "a" 5] 10.
Proof.
  apply request_merge_order_irrelevant.
  - apply Permutation_swap.
  - intros x y Hx Hy. cbn in Hx, Hy. rewrite !elem_of_cons, elem_of_nil in Hx, Hy.
    destruct Hx as [->|[->|[]]], Hy as [->|[->|[]]]; intros E; try reflexivity; discriminate.
  - repeat constructor; simpl; lia.
Defined.

(** Logged fields are cut to their column width without splitting a UTF-8
    character: the result is a prefix no longer than the limit that ends on a
    character boundary, and no longer boundary prefix fits. *)
Theorem truncate_spec (s : string) (max_bytes : nat) :
  let t := truncate s max_bytes in
  starts_with t s = true /\ (String.length t <= max_bytes)%nat /\
  is_char_boundary s (String.length t) = true /\
  forall j, (String.length t < j <= max_bytes)%nat -> (j <= String.length s)%nat ->
    is_char_boundary s j = false.
Proof.
  unfold truncate. case_bool_decide as Hle; cbv zeta.
  - split_and!; [|done| |intros; lia].
    + clear. unfold starts_with. induction s as [|c s IH]; [done|]. simpl. by destruct (ascii_dec c c).
    + unfold is_char_boundary. rewrite (bool_decide_true (String.length s = String.length s)) by done.
      by rewrite orb_true_r.
  - destruct (floor_boundary_spec s max_bytes) as (H1 & H2 & H3).
    rewrite stake_length by lia. split_and!; [apply stake_prefix|done..|]. intros j Hj _. by apply H3.
Qed.
