(* ===== verification/Store.v ===== *)
(** * Store: the durable state of a node (crates/rf/src/store.rs)

    One redb file with nine tables.  redb is a third-party crate: [Redb] is the
    interface of a table (an ordered map with string keys) and [RedbOk] its
    documented laws; a write transaction is atomic, so a method is one function
    from a store to a store.  Failures of the disk itself are not modelled; a
    value that does not decode is the [Corrupt] error. *)

From Stdlib Require Import ZArith Lia Ascii.
From stdpp Require Import prelude gmap sorting strings list.
From S2P Require Import Prelude Text Hlc Identity Envelope Kv Quorum DataAudit Observability.
Open Scope Z_scope.

Class Redb := {
  Table : Type -> Type;
  t_new : forall V, Table V;
  t_get : forall {V}, Table V -> string -> option V;
  t_insert : forall {V}, string -> V -> Table V -> Table V;
  t_remove : forall {V}, string -> Table V -> Table V;
  (* [range(..)]: all items in ascending key order *)
  t_iter : forall {V}, Table V -> list (string * V)
}.

Definition item_lt {V} (a b : string * V) : Prop := a.1 ≺ b.1.

Class RedbOk {redb : Redb} : Prop := {
  t_get_new : forall V k, t_get (t_new V) k = None;
  t_get_insert : forall V k k' (v : V) t,
    t_get (t_insert k v t) k' = if decide (k = k') then Some v else t_get t k';
  t_get_remove : forall V k k' (t : Table V),
    t_get (t_remove k t) k' = if decide (k = k') then None else t_get t k';
  t_iter_get : forall V (t : Table V) k v, (k, v) ∈ t_iter t <-> t_get t k = Some v;
  t_iter_sorted : forall V (t : Table V), StronglySorted item_lt (t_iter t)
}.

Inductive StoreError := Corrupt (what : string).

(** [{n:020}]: decimal, zero-padded to twenty digits; every [u64] fits. *)
Definition digit (d : Z) : ascii := ascii_of_N (Z.to_N (48 + d)).
Fixpoint dec (k : nat) (n : Z) : string :=
  match k with
  | O => EmptyString
  | S k' => String (digit (n / 10 ^ Z.of_nat k' mod 10)) (dec k' n)
  end.
Definition pad20 (n : Z) : string := dec 20 n.

Definition NUL : string := String "000" EmptyString.
Definition SOH : string := String "001" EmptyString.

Section store.
Context {redb : Redb}.

Record Store := mkStore {
  MANIFESTS : Table bytes;
  CLAIMS : Table bytes;
  KV : Table bytes;
  D1META : Table bytes;
  D1LOG : Table bytes;
  LOG : Table bytes;
  REQUEST_LOGS : Table bytes;
  DATA_AUDIT : Table bytes;
  CREDENTIAL_USAGE : Table Z
  }.

(** [Store::open] on a fresh file. *)
Definition store_open : Store :=
  mkStore (t_new _) (t_new _) (t_new _) (t_new _) (t_new _) (t_new _) (t_new _) (t_new _) (t_new _).

Definition with_manifests (s : Store) (t : Table bytes) : Store :=
  mkStore t (CLAIMS s) (KV s) (D1META s) (D1LOG s) (LOG s) (REQUEST_LOGS s) (DATA_AUDIT s) (CREDENTIAL_USAGE s).
Definition with_claims (s : Store) (t : Table bytes) : Store :=
  mkStore (MANIFESTS s) t (KV s) (D1META s) (D1LOG s) (LOG s) (REQUEST_LOGS s) (DATA_AUDIT s) (CREDENTIAL_USAGE s).
Definition with_kv (s : Store) (t : Table bytes) : Store :=
  mkStore (MANIFESTS s) (CLAIMS s) t (D1META s) (D1LOG s) (LOG s) (REQUEST_LOGS s) (DATA_AUDIT s) (CREDENTIAL_USAGE s).
Definition with_d1_meta (s : Store) (t : Table bytes) : Store :=
  mkStore (MANIFESTS s) (CLAIMS s) (KV s) t (D1LOG s) (LOG s) (REQUEST_LOGS s) (DATA_AUDIT s) (CREDENTIAL_USAGE s).
Definition with_d1_log (s : Store) (t : Table bytes) : Store :=
  mkStore (MANIFESTS s) (CLAIMS s) (KV s) (D1META s) t (LOG s) (REQUEST_LOGS s) (DATA_AUDIT s) (CREDENTIAL_USAGE s).
Definition with_log (s : Store) (t : Table bytes) : Store :=
  mkStore (MANIFESTS s) (CLAIMS s) (KV s) (D1META s) (D1LOG s) t (REQUEST_LOGS s) (DATA_AUDIT s) (CREDENTIAL_USAGE s).
Definition with_request_logs (s : Store) (t : Table bytes) : Store :=
  mkStore (MANIFESTS s) (CLAIMS s) (KV s) (D1META s) (D1LOG s) (LOG s) t (DATA_AUDIT s) (CREDENTIAL_USAGE s).
Definition with_data_audit (s : Store) (t : Table bytes) : Store :=
  mkStore (MANIFESTS s) (CLAIMS s) (KV s) (D1META s) (D1LOG s) (LOG s) (REQUEST_LOGS s) t (CREDENTIAL_USAGE s).
Definition with_usage (s : Store) (t : Table Z) : Store :=
  mkStore (MANIFESTS s) (CLAIMS s) (KV s) (D1META s) (D1LOG s) (LOG s) (REQUEST_LOGS s) (DATA_AUDIT s) t.

(** [range(lo..)] and [range(lo..hi)]. *)
Definition range_from {V} (t : Table V) (lo : string) : list (string * V) :=
  filter (fun kv => leb lo kv.1 = true) (t_iter t).
Definition range {V} (t : Table V) (lo hi : string) : list (string * V) :=
  filter (fun kv => leb lo kv.1 = true /\ ltb kv.1 hi = true) (t_iter t).

Definition remove_all {V} (keys : list string) (t : Table V) : Table V :=
  foldl (fun t k => t_remove k t) t keys.

(** Decoding the values of a scan; the first failure aborts. *)
Fixpoint decode_all {T} {pc : Postcard T} (what : string) (items : list (string * bytes))
  : result (list T) StoreError :=
  match items with
  | [] => Ok []
  | (_, v) :: items' =>
      match from_bytes v with
      | None => Err (Corrupt what)
      | Some x => let? xs := decode_all what items' in Ok (x :: xs)
      end
  end.

Section manifests.
Context {pc : Postcard Envelope}.

Definition put_manifest (s : Store) (name : string) (env : Envelope) : Store :=
  with_manifests s (t_insert name (env_to_bytes env) (MANIFESTS s)).

Definition load_manifests (s : Store) : result (list Envelope) StoreError :=
  decode_all "corrupt manifest in store" (t_iter (MANIFESTS s)).

Definition log_key (name : string) (version : Z) : string := (name ++ NUL ++ pad20 version)%string.

Definition put_log (s : Store) (name : string) (version : Z) (env : Envelope) : Store :=
  with_log s (t_insert (log_key name version) (env_to_bytes env) (LOG s)).

(** The scan stops at the first key without the prefix. *)
Definition load_log (s : Store) (name : string) : result (list Envelope) StoreError :=
  let prefix := (name ++ NUL)%string in
  decode_all "corrupt log entry" (take_while (fun kv => starts_with prefix kv.1) (range_from (LOG s) prefix)).

Definition claim_key (task holder_hex : string) : string := (task ++ NUL ++ holder_hex)%string.

Definition put_claim (s : Store) (task holder_hex : string) (env : Envelope) : Store :=
  with_claims s (t_insert (claim_key task holder_hex) (env_to_bytes env) (CLAIMS s)).

Definition delete_claim (s : Store) (task holder_hex : string) : Store :=
  with_claims s (t_remove (claim_key task holder_hex) (CLAIMS s)).

Definition load_claims (s : Store) : result (list Envelope) StoreError :=
  decode_all "corrupt claim in store" (t_iter (CLAIMS s)).
End manifests.

(** *** D1 Raft state *)

Definition D1Meta : Type := Z * option PublicId * Z * Z.

Section d1.
Context {pc_meta : Postcard D1Meta} {pc_entry : Postcard Entry}.

Definition put_d1_meta (s : Store) (name : string) (epoch : Z) (voted_for : option PublicId)
  (base_seq base_epoch : Z) : Store :=
    with_d1_meta s (t_insert name (to_stdvec (epoch, voted_for, base_seq, base_epoch)) (D1META s)).

Definition load_d1_meta (s : Store) (name : string) : result D1Meta StoreError :=
  match t_get (D1META s) name with
  | Some v => match from_bytes v with Some m => Ok m | None => Err (Corrupt "corrupt d1 meta") end
  | None => Ok (0, None, 0, 0)
  end.

Definition d1_log_key (name : string) (seq : Z) : string := (name ++ NUL ++ pad20 seq)%string.

(** Drop log entries at or below [upto_seq]. *)
Definition compact_d1_log (s : Store) (name : string) (upto_seq : Z) : Store :=
  let stale := (range (D1LOG s) (name ++ NUL)%string (d1_log_key name (wadd 64 upto_seq 1))).*1 in
  with_d1_log s (remove_all stale (D1LOG s)).

(** Truncate the log from [from_seq] onward, then append [tail]. *)
Definition put_d1_log (s : Store) (name : string) (from_seq : Z) (tail : list Entry) : Store :=
  let stale := (range (D1LOG s) (d1_log_key name from_seq) (name ++ SOH)%string).*1 in
  let t := remove_all stale (D1LOG s) in
  with_d1_log s (foldl (fun t e => t_insert (d1_log_key name (e_seq e)) (to_stdvec e) t) t tail).

Definition load_d1_log (s : Store) (name : string) : result (list Entry) StoreError :=
  decode_all "corrupt d1 log entry" (range (D1LOG s) (name ++ NUL)%string (name ++ SOH)%string).
End d1.

(** *** KV and the data audit *)

Section kv.
Context {pc_kv : Postcard KvEntry} {pc_audit : Postcard DataMutationAudit}.

Definition kv_key (ns key : string) : string := (ns ++ NUL ++ key)%string.

Definition put_data_audit (s : Store) (a : DataMutationAudit) : Store :=
  with_data_audit s (t_insert (au_id a) (to_stdvec a) (DATA_AUDIT s)).

Definition put_kv_audited (s : Store) (ns key : string) (e : KvEntry) (audit : option DataMutationAudit)
  : Store :=
    let s' := with_kv s (t_insert (kv_key ns key) (to_stdvec e) (KV s)) in
    match audit with Some a => put_data_audit s' a | None => s' end.

Definition put_kv (s : Store) (ns key : string) (e : KvEntry) : Store := put_kv_audited s ns key e None.

Definition delete_kv (s : Store) (ns key : string) : Store :=
  with_kv s (t_remove (kv_key ns key) (KV s)).

Fixpoint decode_kv (items : list (string * bytes)) : result (list (string * string * KvEntry)) StoreError :=
  match items with
  | [] => Ok []
  | (k, v) :: items' =>
  match split_once "000" k with
  | None => Err (Corrupt "corrupt kv key in store")
  | Some (ns, key) =>
      match from_bytes v with
      | None => Err (Corrupt "corrupt kv entry in store")
      | Some e => let? rest := decode_kv items' in Ok ((ns, key, e) :: rest)
      end
  end
  end.

Definition load_kv (s : Store) : result (list (string * string * KvEntry)) StoreError :=
  decode_kv (t_iter (KV s)).

Definition load_data_audit (s : Store) (before_ms : option Z) (limit : Z)
  : result (list DataMutationAudit) StoreError :=
    let? entries := decode_all "corrupt data audit entry" (t_iter (DATA_AUDIT s)) in
    let entries := filter (fun a => before_ok before_ms a = true) entries in
    Ok (truncate_to (clamp 1 MAX_DATA_AUDIT_PAGE limit) (merge_sort newer entries)).

(** The keys of the items whose decoded value is older than [cutoff_ms]. *)
Fixpoint stale_keys {T} {pc : Postcard T} (what : string) (at_ms : T -> Z) (cutoff_ms : Z)
  (items : list (string * bytes)) : result (list string) StoreError :=
    match items with
    | [] => Ok []
    | (k, v) :: items' =>
    match from_bytes v with
    | None => Err (Corrupt what)
    | Some x =>
        let? rest := stale_keys what at_ms cutoff_ms items' in
        Ok (if (at_ms x <? cutoff_ms)%Z then k :: rest else rest)
    end
    end.

Definition delete_data_audit_before (s : Store) (cutoff_ms : Z) : Store * result Z StoreError :=
  match stale_keys "corrupt data audit entry" occurred_at_ms cutoff_ms (t_iter (DATA_AUDIT s)) with
  | Err e => (s, Err e)
  | Ok stale => (with_data_audit s (remove_all stale (DATA_AUDIT s)), Ok (Z.of_nat (length stale)))
  end.
End kv.

(** *** Credential use and request logs *)

Definition touch_credential (s : Store) (id : string) (at_ms : Z) : Store :=
  let previous := default 0 (t_get (CREDENTIAL_USAGE s) id) in
  if (at_ms >? previous)%Z then with_usage s (t_insert id at_ms (CREDENTIAL_USAGE s)) else s.

Definition credential_last_used (s : Store) (id : string) : option Z := t_get (CREDENTIAL_USAGE s) id.

Section request_logs.
Context {pc_log : Postcard RequestLogEntry}.

Definition request_log_key (e : RequestLogEntry) : string :=
  (rl_worker e ++ NUL ++ pad20 (called_at_ms e) ++ NUL ++ rl_id e)%string.

Definition put_request_logs (s : Store) (entries : list RequestLogEntry) : Store :=
  with_request_logs s
  (foldl (fun t e => t_insert (request_log_key e) (to_stdvec e) t) (REQUEST_LOGS s) entries).

(** The newest-first scan: it stops when [limit] matches are collected. *)
Fixpoint scan_logs (hostname : option string) (status_class : option Z) (limit : Z)
  (found : list RequestLogEntry) (items : list (string * bytes)) : result (list RequestLogEntry) StoreError :=
    match items with
    | [] => Ok found
    | (_, v) :: items' =>
    match from_bytes v with
    | None => Err (Corrupt "corrupt request log entry")
    | Some e =>
        if entry_matches e hostname status_class then
          let found := found ++ [e] in
          if (limit <=? Z.of_nat (length found))%Z then Ok found
          else scan_logs hostname status_class limit found items'
        else scan_logs hostname status_class limit found items'
    end
    end.

Definition load_request_logs (s : Store) (worker : string) (hostname : option string)
  (status_class : option Z) (limit : Z) : result (list RequestLogEntry) StoreError :=
    scan_logs hostname status_class limit []
  (reverse (range (REQUEST_LOGS s) (worker ++ NUL)%string (worker ++ SOH)%string)).

(** One entry counted into the aggregate. *)
Definition count_entry (hostname : option string) (agg : RequestAggregate) (e : RequestLogEntry)
  : RequestAggregate :=
    let hosts := {[rl_hostname e]} ∪ agg.1 in
    if match hostname with Some h => bool_decide (h = rl_hostname e) | None => true end then
  let hour := called_at_ms e / 3600000 * 3600000 in
  (hosts, <[hour := add_status (default (replicate 5 0) (agg.2 !! hour)) (status_code e)]> agg.2)
    else (hosts, agg.2).

Definition request_log_aggregate (s : Store) (worker : string) (since_ms : Z) (hostname : option string)
  : result RequestAggregate StoreError :=
    let start := (worker ++ NUL ++ pad20 since_ms ++ NUL)%string in
    let? entries := decode_all "corrupt request log entry" (range (REQUEST_LOGS s) start (worker ++ SOH)%string) in
    Ok (foldl (count_entry hostname) (∅, ∅) entries).

Definition delete_request_logs_before (s : Store) (cutoff_ms : Z) : Store * result Z StoreError :=
  match stale_keys "corrupt request log entry" called_at_ms cutoff_ms (t_iter (REQUEST_LOGS s)) with
  | Err e => (s, Err e)
  | Ok stale => (with_request_logs s (remove_all stale (REQUEST_LOGS s)), Ok (Z.of_nat (length stale)))
  end.
End request_logs.
End store.

(** ** Keys *)

Lemma as_bytes_app (s t : string) : as_bytes (s ++ t) = as_bytes s ++ as_bytes t.
Proof.
  induction s as [|c s IH]; [done|].
  change (byte_of c :: as_bytes (s ++ t) = byte_of c :: (as_bytes s ++ as_bytes t)). by rewrite IH.
Qed.

Lemma digit_byte (d : Z) : 0 <= d < 10 -> byte_of (digit d) = 48 + d.
Proof.
  intros Hd. unfold byte_of, digit. rewrite N_ascii_embedding; [lia|].
  change 256%N with (Z.to_N 256). lia.
Qed.

Lemma list_compare_app {A} `{CmpOk A} (p l1 l2 : list A) :
  list_compare (p ++ l1) (p ++ l2) = list_compare l1 l2.
Proof. induction p as [|x p IH]; [done|]. simpl. by rewrite cmp_refl. Qed.

Lemma dec_compare (k : nat) (a b : Z) :
  list_compare (as_bytes (dec k a)) (as_bytes (dec k b)) =
  Z.compare (a mod 10 ^ Z.of_nat k) (b mod 10 ^ Z.of_nat k).
Proof.
  induction k as [|k IH]; [by rewrite !Z.mod_1_r|]. cbn [dec as_bytes list_compare].
  rewrite !digit_byte by (apply Z.mod_pos_bound; lia). rewrite IH.
  rewrite Nat2Z.inj_succ, Z.pow_succ_r by lia. rewrite (Z.mul_comm 10).
  rewrite !Z.rem_mul_r by lia. unfold cmp, Z_cmp, then_with.
  set (p := 10 ^ Z.of_nat k). assert (0 < p) as Hp by (apply Z.pow_pos_nonneg; lia).
  pose proof (Z.mod_pos_bound a p Hp). pose proof (Z.mod_pos_bound b p Hp).
  destruct (Z.compare_spec (48 + a / p mod 10) (48 + b / p mod 10)) as [E|E|E].
  - replace (a / p mod 10) with (b / p mod 10) by lia. symmetry.
    destruct (Z.compare_spec (a mod p) (b mod p));
      [apply Z.compare_eq_iff|apply Z.compare_lt_iff|apply Z.compare_gt_iff]; lia.
  - symmetry. apply Z.compare_lt_iff. nia.
  - symmetry. apply Z.compare_gt_iff. nia.
Qed.

Lemma u64_below_10_20 (a : Z) : in_width 64 a -> a mod 10 ^ Z.of_nat 20 = a.
Proof. intros Ha. apply Z.mod_small. unfold in_width in Ha. split; [lia|]. transitivity (2 ^ 64); [lia|done]. Qed.

(** Zero-padded numbers sort as numbers. *)
Lemma padded_compare (p : string) (a b : Z) : in_width 64 a -> in_width 64 b ->
  cmp (p ++ pad20 a)%string (p ++ pad20 b)%string = Z.compare a b.
Proof.
  intros Ha Hb. unfold cmp, string_cmp, cmp, list_cmp. rewrite !as_bytes_app, list_compare_app.
  unfold pad20. rewrite dec_compare, !u64_below_10_20 by done. done.
Qed.

(** The keys with prefix [p NUL] are those from [p NUL] below [p SOH]. *)
Lemma prefix_range (p k : string) :
  starts_with (p ++ NUL) k = true <-> leb (p ++ NUL)%string k = true /\ ltb k (p ++ SOH)%string = true.
Proof.
  unfold leb, ltb, cmp, string_cmp, cmp, list_cmp, starts_with.
  revert k. induction p as [|c p IH]; intros [|d k].
  - split; [done|by intros [? _]].
  - change ("" ++ NUL)%string with NUL. change ("" ++ SOH)%string with SOH. unfold NUL, SOH.
    cbn [String.prefix as_bytes list_compare].
    destruct (ascii_dec "000" d) as [<-|Hne]; [by destruct k|].
    unfold then_with, cmp, Z_cmp. change (byte_of "000") with 0. change (byte_of "001") with 1.
    assert (byte_of d <> 0) as Hd by (intros E; apply Hne, byte_of_inj; done).
    pose proof (byte_of_range d).
    split; [done|]. intros [_ Hlt]. destruct (Z.compare_spec (byte_of d) 1); [|lia|done].
    by destruct k.
  - split; [done|by intros [? _]].
  - change (String c p ++ NUL)%string with (String c (p ++ NUL)).
    change (String c p ++ SOH)%string with (String c (p ++ SOH)). cbn [String.prefix as_bytes list_compare].
    unfold then_with, cmp, Z_cmp. destruct (ascii_dec c d) as [<-|Hne].
    + rewrite Z.compare_refl. apply IH.
    + split; [done|].
      destruct (Z.compare_spec (byte_of c) (byte_of d)) as [E|E|E];
        [by apply byte_of_inj in E| |by intros [? _]].
      destruct (Z.compare_spec (byte_of d) (byte_of c)); [lia..|]. by intros [_ ?].
Qed.

Lemma starts_with_app (p s : string) : starts_with p (p ++ s) = true.
Proof.
  unfold starts_with. induction p as [|c p IH]; [by destruct s|].
  change (String c p ++ s)%string with (String c (p ++ s)). simpl. by destruct (ascii_dec c c).
Qed.

(** ** The stored log of a database *)

Lemma remove_all_get {redb : Redb} {redb_ok : RedbOk} {V} (keys : list string) (t : Table V) (k : string) :
  t_get (remove_all keys t) k = if decide (k ∈ keys) then None else t_get t k.
Proof.
  unfold remove_all. revert t. induction keys as [|x keys IH]; intros t; cbn [foldl].
  - rewrite decide_False; [done|apply not_elem_of_nil].
  - rewrite IH, t_get_remove. destruct (decide (k ∈ keys)), (decide (x = k)) as [->|];
      [rewrite decide_True by set_solver..|rewrite decide_False by set_solver]; done.
Qed.

Section d1_log.
Context {redb : Redb} {redb_ok : RedbOk} {pc : Postcard Entry} {pc_ok : PostcardOk Entry}.
Implicit Types (s : Store) (name : string) (es tail : list Entry).

Definition seq_lt (a b : Entry) : Prop := e_seq a < e_seq b.

(** What is stored under a database are entries filed under their numbers. *)
Definition d1_log_ok s name : Prop :=
  forall k v, t_get (D1LOG s) k = Some v -> starts_with (name ++ NUL) k = true ->
    exists e, k = d1_log_key name (e_seq e) /\ v = to_stdvec e /\ in_width 64 (e_seq e).

Definition stored s name (e : Entry) : Prop :=
  in_width 64 (e_seq e) /\ t_get (D1LOG s) (d1_log_key name (e_seq e)) = Some (to_stdvec e).

Lemma to_stdvec_inj (a b : Entry) : to_stdvec a = to_stdvec b -> a = b.
Proof.
  intros E. assert (Some a = Some b) as [= ->]; [|done]. rewrite <- !postcard_roundtrip. by rewrite E.
Qed.

Lemma d1_log_key_app name (a : Z) : d1_log_key name a = ((name ++ NUL) ++ pad20 a)%string.
Proof. unfold d1_log_key. apply as_bytes_inj. by rewrite !as_bytes_app, app_assoc. Qed.

Lemma d1_log_key_cmp name (a b : Z) : in_width 64 a -> in_width 64 b ->
  cmp (d1_log_key name a) (d1_log_key name b) = Z.compare a b.
Proof. rewrite !d1_log_key_app. apply padded_compare. Qed.

Lemma d1_log_key_inj name (a b : Z) : in_width 64 a -> in_width 64 b ->
  d1_log_key name a = d1_log_key name b -> a = b.
Proof.
  intros Ha Hb E. apply Z.compare_eq_iff. rewrite <- (d1_log_key_cmp name) by done. by apply cmp_eq_iff.
Qed.

Lemma d1_log_key_prefix name (a : Z) : starts_with (name ++ NUL) (d1_log_key name a) = true.
Proof. rewrite d1_log_key_app. apply starts_with_app. Qed.

Lemma in_db_range s name k v :
  (k, v) ∈ range (D1LOG s) (name ++ NUL)%string (name ++ SOH)%string <->
  t_get (D1LOG s) k = Some v /\ starts_with (name ++ NUL) k = true.
Proof. unfold range. rewrite list_elem_of_filter, t_iter_get, prefix_range. simpl. tauto. Qed.

Lemma decode_sorted name (items : list (string * bytes)) :
  StronglySorted item_lt items ->
  Forall (fun kv => exists e, kv.1 = d1_log_key name (e_seq e) /\ kv.2 = to_stdvec e /\ in_width 64 (e_seq e)) items ->
  exists es, decode_all (T := Entry) "corrupt d1 log entry" items = Ok es /\ StronglySorted seq_lt es /\
    forall e, e ∈ es <-> (d1_log_key name (e_seq e), to_stdvec e) ∈ items /\ in_width 64 (e_seq e).
Proof.
  intros Hs Hf. induction Hs as [|[k v] items Hs IH Hall]; cbn [decode_all].
  { exists []. split_and!; [done|constructor|set_solver]. }
  apply Forall_cons in Hf as [(x & Hk & Hv & Hx) Hf]. simpl in *. subst k v.
  destruct (IH Hf) as (es & -> & Hes & Hin). rewrite postcard_roundtrip. exists (x :: es).
  split_and!; [done| |].
  - constructor; [done|]. apply Forall_forall. intros e [He Hw]%Hin. rewrite Forall_forall in Hall.
    specialize (Hall _ He). unfold item_lt in Hall. simpl in Hall. unfold lt_of in Hall.
    rewrite d1_log_key_cmp in Hall by done. by apply Z.compare_lt_iff.
  - intros e. rewrite !elem_of_cons, Hin. split.
    + intros [->|[? ?]]; auto.
    + intros [[Heq|?] Hw]; [|by auto]. left. injection Heq as _ E. by apply to_stdvec_inj.
Qed.

Lemma item_lt_asym {V} (a b : string * V) : item_lt a b -> item_lt b a -> False.
Proof. unfold item_lt. intros H1 H2. by destruct (lt_of_irrefl a.1 (lt_of_trans _ _ _ H1 H2)). Qed.

(** Loading a database's log: the stored entries in sequence order. *)
Lemma load_d1_log_spec s name :
  d1_log_ok s name ->
  exists es, load_d1_log s name = Ok es /\ StronglySorted seq_lt es /\ forall e, e ∈ es <-> stored s name e.
Proof.
  intros Hok. destruct (decode_sorted name (range (D1LOG s) (name ++ NUL)%string (name ++ SOH)%string))
    as (es & He & Hs & Hin).
  - apply StronglySorted_filter, t_iter_sorted.
  - apply Forall_forall. intros [k v] [Hg Hp]%in_db_range. simpl. by apply Hok.
  - exists es. split_and!; [done..|]. intros e. rewrite Hin, in_db_range. unfold stored.
    pose proof (d1_log_key_prefix name (e_seq e)). tauto.
Qed.

Lemma seq_sorted_unique es es' :
  StronglySorted seq_lt es -> StronglySorted seq_lt es' -> (forall e, e ∈ es <-> e ∈ es') -> es = es'.
Proof. apply StronglySorted_unique_elems. unfold seq_lt. lia. Qed.

Lemma insert_tail_get name tail (t : Table bytes) k :
  t_get (foldl (fun t e => t_insert (d1_log_key name (e_seq e)) (to_stdvec e) t) t tail) k =
  match list.last (filter (fun e => d1_log_key name (e_seq e) = k) tail) with
  | Some e => Some (to_stdvec e)
  | None => t_get t k
  end.
Proof.
  induction tail as [|e tail IH] using rev_ind; [done|].
  rewrite foldl_app; cbn [foldl]. rewrite t_get_insert, filter_app.
  destruct (decide (d1_log_key name (e_seq e) = k)) as [Hk|Hk].
  - rewrite (filter_cons_True (fun e => d1_log_key name (e_seq e) = k)) by done.
    rewrite filter_nil. by rewrite last_snoc.
  - rewrite (filter_cons_False (fun e => d1_log_key name (e_seq e) = k)) by done.
    rewrite filter_nil, app_nil_r. exact IH.
Qed.

(** The value under a key after [put_d1_log]. *)
Lemma put_d1_log_get s name (from : Z) tail k :
  in_width 64 from ->
  t_get (D1LOG (put_d1_log s name from tail)) k =
  match list.last (filter (fun e => d1_log_key name (e_seq e) = k) tail) with
  | Some e => Some (to_stdvec e)
  | None =>
      if decide (leb (d1_log_key name from) k = true /\ starts_with (name ++ NUL) k = true) then None
      else t_get (D1LOG s) k
  end.
Proof.
  intros Hf. unfold put_d1_log; simpl. rewrite insert_tail_get. case_match; [done|].
  rewrite remove_all_get. set (stale := (range _ _ _).*1).
  assert (k ∈ stale <-> (leb (d1_log_key name from) k = true /\ starts_with (name ++ NUL) k = true)
    /\ is_Some (t_get (D1LOG s) k)) as Hst.
  { unfold stale. rewrite list_elem_of_fmap. split.
    - intros ([k' v] & -> & [[Hlo Hhi] Hg%t_iter_get]%list_elem_of_filter). simpl in *.
      split; [split; [done|]|by exists v]. apply prefix_range. split; [|done]. apply leb_le.
      apply leb_le in Hlo. eapply le_of_trans; [|exact Hlo]. apply leb_le.
      by apply (prefix_range name), d1_log_key_prefix.
    - intros [[Hlo Hp] [v Hv]]. exists (k, v). split; [done|]. apply list_elem_of_filter.
      split; [split; [done|by apply prefix_range]|by apply t_iter_get]. }
  destruct (decide (k ∈ stale)) as [Hin|Hn].
  - apply Hst in Hin as [? _]. by rewrite decide_True.
  - case_decide as Hd; [|done]. destruct (t_get (D1LOG s) k) eqn:Eg; [|done].
    destruct Hn. apply Hst. by split.
Qed.

Lemma compact_d1_log_get s name (upto : Z) k :
  in_width 64 (upto + 1) -> in_width 64 upto ->
  t_get (D1LOG (compact_d1_log s name upto)) k =
  if decide (ltb k (d1_log_key name (upto + 1)) = true /\ starts_with (name ++ NUL) k = true) then None
  else t_get (D1LOG s) k.
Proof.
  intros Hu Hu'. unfold compact_d1_log; simpl. rewrite wadd_small by exact Hu. rewrite remove_all_get.
  set (stale := (range _ _ _).*1).
  assert (k ∈ stale <-> (ltb k (d1_log_key name (upto + 1)) = true /\ starts_with (name ++ NUL) k = true)
    /\ is_Some (t_get (D1LOG s) k)) as Hst.
  { unfold stale. rewrite list_elem_of_fmap. split.
    - intros ([k' v] & -> & [[Hlo Hhi] Hg%t_iter_get]%list_elem_of_filter). simpl in *.
      split; [split; [done|]|by exists v]. apply prefix_range. split; [done|]. apply ltb_lt.
      apply ltb_lt in Hhi. eapply lt_of_trans; [exact Hhi|]. apply ltb_lt.
      by apply (prefix_range name), d1_log_key_prefix.
    - intros [[Hlo Hp] [v Hv]]. exists (k, v). split; [done|]. apply list_elem_of_filter.
      split; [split; [by apply prefix_range|done]|by apply t_iter_get]. }
  destruct (decide (k ∈ stale)) as [Hin|Hn].
  - apply Hst in Hin as [? _]. by rewrite decide_True.
  - case_decide as Hd; [|done]. destruct (t_get (D1LOG s) k) eqn:Eg; [|done].
    destruct Hn. apply Hst. by split.
Qed.

(** A tail that may be stored from [from]: in order, numbered from [from] on. *)
Definition tail_ok (from : Z) tail : Prop :=
  StronglySorted seq_lt tail /\ Forall (fun e => from <= e_seq e /\ in_width 64 (e_seq e)) tail.

Lemma put_d1_log_stored s name (from : Z) tail (e : Entry) :
  in_width 64 from -> tail_ok from tail ->
  stored (put_d1_log s name from tail) name e <-> e ∈ tail \/ e_seq e < from /\ stored s name e.
Proof.
  intros Hf [Hs Ht]. rewrite Forall_forall in Ht. unfold stored. rewrite put_d1_log_get by done.
  assert (forall e', e' ∈ tail -> e_seq e' = e_seq e -> e ∈ tail -> e' = e) as Huniq.
  { clear -Hs. intros e' He' Hseq He. induction Hs as [|x l Hl IH Hx]; [set_solver|].
    rewrite Forall_forall in Hx. apply elem_of_cons in He' as [->|He'], He as [->|He]; auto.
    - specialize (Hx _ He). unfold seq_lt in Hx. lia.
    - specialize (Hx _ He'). unfold seq_lt in Hx. lia. }
  destruct (list.last _) as [e'|] eqn:El.
  - apply last_Some_elem_of, list_elem_of_filter in El as [Hk He']. split.
    + intros [Hw [= E%to_stdvec_inj]]. subst. by left.
    + intros [He|[Hlt [Hw _]]].
      * destruct (Ht _ He). split; [done|]. apply d1_log_key_inj in Hk; [|by apply Ht|done].
        by rewrite (Huniq e').
      * apply d1_log_key_inj in Hk; [|by apply Ht|done]. destruct (Ht _ He'). lia.
  - apply last_None in El. assert (e ∉ tail) as Hn.
    { intros He. assert (e ∈ filter (fun e' => d1_log_key name (e_seq e') = d1_log_key name (e_seq e)) tail) as Hfil
        by by apply list_elem_of_filter. rewrite El in Hfil. by apply not_elem_of_nil in Hfil. }
    assert (in_width 64 (e_seq e) -> leb (d1_log_key name from) (d1_log_key name (e_seq e)) = true <-> from <= e_seq e) as Hle.
    { intros Hw. rewrite leb_le. unfold le_of. rewrite d1_log_key_cmp by done. apply Z.compare_le_iff. }
    pose proof (d1_log_key_prefix name (e_seq e)) as Hp. split.
    + intros [Hw Hg]. right. case_decide as Hd; [done|]. split; [|done].
      destruct (decide (e_seq e < from)); [done|]. destruct Hd. split; [apply Hle; [done|lia]|done].
    + intros [?|[Hlt [Hw Hg]]]; [done|]. split; [done|]. rewrite decide_False; [done|].
      intros [Hd _]. apply Hle in Hd; [lia|done].
Qed.

Lemma put_d1_log_ok s name (from : Z) tail :
  in_width 64 from -> tail_ok from tail -> d1_log_ok s name -> d1_log_ok (put_d1_log s name from tail) name.
Proof.
  intros Hf [_ Ht] Hok k v. rewrite Forall_forall in Ht. rewrite put_d1_log_get by done.
  destruct (list.last _) as [e|] eqn:El.
  - apply last_Some_elem_of, list_elem_of_filter in El as [<- He]. intros [= <-] _.
    exists e. split_and!; try done. by apply Ht.
  - case_decide; [done|]. apply Hok.
Qed.

Lemma StronglySorted_seq_filter_app es tail (from : Z) :
  StronglySorted seq_lt es -> StronglySorted seq_lt tail -> Forall (fun e => from <= e_seq e) tail ->
  StronglySorted seq_lt (filter (fun e => e_seq e < from) es ++ tail).
Proof.
  intros Hs Ht Hf. rewrite Forall_forall in Hf. induction Hs as [|x l Hl IH Hx]; [done|].
  destruct (decide (e_seq x < from)); [|by rewrite filter_cons_False].
  rewrite filter_cons_True by done. simpl. constructor; [done|]. rewrite Forall_forall in *.
  intros y [[_ Hy]%list_elem_of_filter|Hy]%elem_of_app; [by apply Hx|].
  specialize (Hf _ Hy). unfold seq_lt. lia.
Qed.

(** Reading back a log after its tail was replaced. *)
Lemma put_load_d1_log s name (from : Z) tail es :
  in_width 64 from -> tail_ok from tail -> d1_log_ok s name -> load_d1_log s name = Ok es ->
  load_d1_log (put_d1_log s name from tail) name = Ok (filter (fun e => e_seq e < from) es ++ tail).
Proof.
  intros Hf Ht Hok Hl. destruct (load_d1_log_spec s name Hok) as (es0 & E0 & S0 & I0).
  assert (es0 = es) as -> by congruence.
  destruct (load_d1_log_spec _ name (put_d1_log_ok s name from tail Hf Ht Hok)) as (es1 & E1 & S1 & I1).
  rewrite E1. f_equal. apply seq_sorted_unique; [done| |].
  - destruct Ht as [Ht1 Ht2]. apply StronglySorted_seq_filter_app; [done..|].
    eapply Forall_impl; [exact Ht2|]. simpl. tauto.
  - intros e. rewrite I1, put_d1_log_stored by done. rewrite elem_of_app, list_elem_of_filter, I0. tauto.
Qed.

Lemma compact_load_d1_log s name (upto : Z) es :
  0 <= upto < u64_max -> d1_log_ok s name -> load_d1_log s name = Ok es ->
  d1_log_ok (compact_d1_log s name upto) name /\
  load_d1_log (compact_d1_log s name upto) name = Ok (filter (fun e => upto < e_seq e) es).
Proof.
  intros Hu Hok Hl. unfold u64_max, umax in Hu.
  assert (in_width 64 (upto + 1) /\ in_width 64 upto) as [Hw1 Hw] by (unfold in_width; lia).
  assert (d1_log_ok (compact_d1_log s name upto) name) as Hok'.
  { intros k v. rewrite compact_d1_log_get by done. case_decide; [done|]. apply Hok. }
  split; [done|]. destruct (load_d1_log_spec s name Hok) as (es0 & E0 & S0 & I0).
  assert (es0 = es) as -> by congruence.
  destruct (load_d1_log_spec _ name Hok') as (es1 & E1 & S1 & I1).
  rewrite E1. f_equal. apply seq_sorted_unique; [done| |].
  - by apply StronglySorted_filter.
  - intros e. rewrite I1, list_elem_of_filter, I0. unfold stored. rewrite compact_d1_log_get by done.
    assert (in_width 64 (e_seq e) ->
      ltb (d1_log_key name (e_seq e)) (d1_log_key name (upto + 1)) = true <-> e_seq e < upto + 1) as Hlt.
    { intros He. rewrite ltb_lt. unfold lt_of. rewrite d1_log_key_cmp by done. apply Z.compare_lt_iff. }
    pose proof (d1_log_key_prefix name (e_seq e)) as Hp. split.
    + intros [He Hg]. case_decide as Hd; [done|]. split; [|done].
      destruct (decide (upto < e_seq e)); [done|]. destruct Hd. split; [apply Hlt; [done|lia]|done].
    + intros [Hgt [He Hg]]. split; [done|]. rewrite decide_False; [done|].
      intros [Hd _]. apply Hlt in Hd; [lia|done].
Qed.
End d1_log.

(** ** The KV table *)

Lemma split_once_first (c : ascii) (a b : string) :
  contains_byte c a = false -> split_once c (a ++ String c b) = Some (a, b).
Proof.
  induction a as [|d a IH]; intros Hc.
  - change ("" ++ String c b)%string with (String c b). cbn [split_once]. by rewrite bool_decide_true.
  - change (String d a ++ String c b)%string with (String d (a ++ String c b)).
    cbn [contains_byte split_once] in *. apply orb_false_iff in Hc as [Hd Hc]. by rewrite Hd, IH.
Qed.

Section kv_table.
Context {redb : Redb} {redb_ok : RedbOk} {pc : Postcard KvEntry} {pc_ok : PostcardOk KvEntry}.

Definition no_nul (ns : string) : Prop := contains_byte "000" ns = false.

(** What is stored are entries under namespaces without NUL. *)
Definition kv_ok (s : Store) : Prop :=
  forall k v, t_get (KV s) k = Some v ->
    exists ns key e, k = kv_key ns key /\ v = to_stdvec e /\ no_nul ns.

Lemma kv_key_split (ns key : string) : no_nul ns -> split_once "000" (kv_key ns key) = Some (ns, key).
Proof. apply split_once_first. Qed.

Lemma kv_key_inj (ns ns' key key' : string) :
  no_nul ns -> no_nul ns' -> kv_key ns key = kv_key ns' key' -> ns = ns' /\ key = key'.
Proof.
  intros H1 H2 E. apply (f_equal (split_once "000")) in E. rewrite !kv_key_split in E by done.
  by injection E.
Qed.

Lemma decode_kv_spec (items : list (string * bytes)) :
  Forall (fun kv => exists ns key e, kv.1 = kv_key ns key /\ kv.2 = to_stdvec e /\ no_nul ns) items ->
  exists out, decode_kv items = Ok out /\
    forall ns key e, (ns, key, e) ∈ out <-> (kv_key ns key, to_stdvec e) ∈ items /\ no_nul ns.
Proof.
  induction items as [|[k v] items IH]; intros Hf; cbn [decode_kv].
  { exists []. split; [done|]. set_solver. }
  apply Forall_cons in Hf as [(ns & key & e & Hk & Hv & Hn) Hf]. simpl in Hk, Hv. subst k v.
  destruct (IH Hf) as (out & -> & Hin). rewrite kv_key_split, postcard_roundtrip by done.
  eexists. split; [reflexivity|]. intros ns' key' e'. rewrite !elem_of_cons, Hin. split.
  - intros [[= -> -> ->]|[? ?]]; auto.
  - intros [[[= Hk E]|?] Hn']; [|auto]. left. apply kv_key_inj in Hk as [-> ->]; [|done..].
    assert (Some e' = Some e) as [= ->]; [|done]. rewrite <- !postcard_roundtrip. by rewrite E.
Qed.

Lemma load_kv_spec (s : Store) :
  kv_ok s -> exists out, load_kv s = Ok out /\
    forall ns key e, (ns, key, e) ∈ out <-> t_get (KV s) (kv_key ns key) = Some (to_stdvec e) /\ no_nul ns.
Proof.
  intros Hok. destruct (decode_kv_spec (t_iter (KV s))) as (out & E & Hin).
  - apply Forall_forall. intros [k v] Hg%t_iter_get. by apply Hok.
  - exists out. split; [done|]. intros ns key e. by rewrite Hin, t_iter_get.
Qed.
End kv_table.

(** ** Isolation of databases *)

Section isolation.
Context {redb : Redb} {redb_ok : RedbOk} {pc : Postcard Entry}.

Lemma prefix_split (ns k : string) :
  no_nul ns -> starts_with (ns ++ NUL) k = true -> exists rest, split_once "000" k = Some (ns, rest).
Proof.
  revert k. induction ns as [|c ns IH]; intros k Hn.
  - change ("" ++ NUL)%string with NUL. unfold starts_with, NUL. destruct k as [|d k]; [done|].
    cbn [String.prefix split_once]. destruct (ascii_dec "000" d) as [<-|]; [|done].
    intros _. exists k. by rewrite bool_decide_true.
  - change (String c ns ++ NUL)%string with (String c (ns ++ NUL)). destruct k as [|d k]; [done|].
    unfold starts_with, no_nul in *. cbn [String.prefix split_once contains_byte] in *.
    apply orb_false_iff in Hn as [Hc Hn].
    destruct (ascii_dec c d) as [<-|]; [|done]. intros Hp. destruct (IH k Hn Hp) as [rest ->].
    exists rest. by rewrite Hc.
Qed.

Lemma other_prefix (n n' k : string) :
  no_nul n -> no_nul n' -> n <> n' -> starts_with (n' ++ NUL) k = true -> starts_with (n ++ NUL) k = false.
Proof.
  intros H1 H2 Hne Hp. destruct (starts_with (n ++ NUL) k) eqn:E; [|done].
  apply prefix_split in Hp as [r1 E1], E as [r2 E2]; [|done..]. congruence.
Qed.

Lemma load_d1_log_ext (s s' : Store) (name : string) :
  (forall k, starts_with (name ++ NUL) k = true -> t_get (D1LOG s') k = t_get (D1LOG s) k) ->
  load_d1_log s' name = load_d1_log s name.
Proof.
  intros H. unfold load_d1_log. f_equal. apply (StronglySorted_unique_elems item_lt).
  - apply item_lt_asym.
  - apply StronglySorted_filter, t_iter_sorted.
  - apply StronglySorted_filter, t_iter_sorted.
  - intros [k v]. rewrite !in_db_range. split; intros [Hg Hp]; (split; [|done]).
    + by rewrite <- H.
    + by rewrite H.
Qed.
End isolation.

(** A table as a finite map, for witnesses. *)
Module SampleRedb.
Definition item_le {V} (a b : string * V) : Prop := a.1 ⪯ b.1.
#[export] Instance item_le_dec {V} : RelDecision (item_le (V := V)).
Proof. intros a b. unfold item_le. apply _. Defined.
#[export] Instance item_le_total {V} : Total (item_le (V := V)).
Proof. intros a b. unfold item_le. apply le_of_total. Qed.
#[export] Instance item_le_trans {V} : Transitive (item_le (V := V)).
Proof. intros a b c. unfold item_le. apply le_of_trans. Qed.

Definition redb : Redb := {|
  Table := gmap string;
  t_new := fun V => ∅;
  t_get := fun V t k => t !! k;
  t_insert := fun V k v t => <[k := v]> t;
  t_remove := fun V k t => delete k t;
  t_iter := fun V t => merge_sort item_le (map_to_list t)
  |}.

Lemma sorted_strict {V} (l : list (string * V)) :
  StronglySorted item_le l -> NoDup l.*1 -> StronglySorted item_lt l.
Proof.
  induction 1 as [|x l Hl IH Hx]; intros Hnd; [constructor|]. rewrite fmap_cons, NoDup_cons in Hnd.
  destruct Hnd as [Hn Hnd]. constructor; [by apply IH|]. rewrite Forall_forall in *. intros y Hy.
  destruct (proj1 (le_of_lt_or_eq _ _) (Hx y Hy)) as [|E]; [done|]. destruct Hn. rewrite E.
  apply list_elem_of_fmap. by exists y.
Qed.

Lemma redb_ok : @RedbOk redb.
Proof.
  split; simpl; intros.
  - apply lookup_empty.
  - apply lookup_insert.
  - apply lookup_delete.
  - rewrite merge_sort_Permutation. apply elem_of_map_to_list.
  - apply sorted_strict; [apply Sorted_StronglySorted, Sorted_merge_sort; apply _|].
    rewrite merge_sort_Permutation. apply NoDup_fst_map_to_list.
Qed.
End SampleRedb.

(** ** Properties *)

(** The stored Raft log of a database is what the driver last wrote: reading
    it back after replacing the tail from [from] gives the old entries below
    [from] followed by the tail, after compaction up to [upto] the entries above
    it, always in sequence order, and other databases' logs are untouched. *)
Theorem d1_log_storage {redb : Redb} {redb_ok : RedbOk} {pc : Postcard Entry} {pc_ok : PostcardOk Entry}
    (s : Store) (name other : string) (from upto : Z) (tail es : list Entry)
    (Hf : in_width 64 from) (Ht : tail_ok from tail) (Hu : 0 <= upto < u64_max)
    (Hnames : no_nul name /\ no_nul other /\ name <> other)
    (Hok : d1_log_ok s name) (Hload : load_d1_log s name = Ok es) :
  load_d1_log (put_d1_log s name from tail) name = Ok (filter (fun e => e_seq e < from) es ++ tail) /\
  load_d1_log (compact_d1_log s name upto) name = Ok (filter (fun e => upto < e_seq e) es) /\
  load_d1_log (put_d1_log s name from tail) other = load_d1_log s other /\
  load_d1_log (compact_d1_log s name upto) other = load_d1_log s other.
Proof.
  destruct Hnames as (H1 & H2 & Hne).
  assert (in_width 64 upto /\ in_width 64 (upto + 1)) as [Hw Hw1]
    by (unfold in_width, u64_max, umax in *; lia).
  split_and!.
  - by apply put_load_d1_log.
  - by apply compact_load_d1_log.
  - apply load_d1_log_ext. intros k Hk. rewrite put_d1_log_get by done.
    pose proof (other_prefix name other k H1 H2 Hne Hk) as Hn. rewrite Hn.
    rewrite decide_False by naive_solver. destruct (list.last _) as [e|] eqn:El; [|done].
    apply last_Some_elem_of, list_elem_of_filter in El as [<- _]. by rewrite d1_log_key_prefix in Hn.
  - apply load_d1_log_ext. intros k Hk. rewrite compact_d1_log_get by done.
    rewrite (other_prefix name other k H1 H2 Hne Hk). by rewrite decide_False by naive_solver.
Qed.

#[export] Instance Entry_countable : Countable Entry.
Proof.
  refine (inj_countable' (fun e => (e_epoch e, e_seq e, e_cmd e)) (fun p => let '(a, b, c) := p in mkEntry a b c) _).
  by intros [].
Defined.

Lemma d1_log_storage_witness :
  let pc := SampleCodec.codec Entry in
  let s := store_open (redb := SampleRedb.redb) in
  load_d1_log (redb := SampleRedb.redb) (pc_entry := pc)
    (put_d1_log (pc_entry := pc) s "db" 1 [mkEntry 1 1 [7]; mkEntry 1 2 [8]]) "db" =
  Ok [mkEntry 1 1 [7]; mkEntry 1 2 [8]].
Proof.
  intros pc s. apply (d1_log_storage (redb_ok := SampleRedb.redb_ok) (pc_ok := SampleCodec.codec_ok Entry)
    s "db" "other" 1 5 [mkEntry 1 1 [7]; mkEntry 1 2 [8]] []).
  - unfold in_width. lia.
  - split; [|repeat constructor; simpl; unfold in_width; lia].
    repeat constructor; unfold seq_lt; simpl; lia.
  - unfold u64_max, umax. lia.
  - split_and!; [reflexivity|reflexivity|discriminate].
  - intros k v. simpl. rewrite lookup_empty. discriminate.
  - reflexivity.
Defined.

(** What the KV table returns on restart is what was last put: after a put
    the entry is loaded under its own namespace and key, every other entry is
    as before, and after a delete it is gone. *)
Theorem kv_storage {redb : Redb} {redb_ok : RedbOk} {pc : Postcard KvEntry} {pc_ok : PostcardOk KvEntry}
    {pca : Postcard DataMutationAudit} (s : Store) (ns key : string) (e : KvEntry)
    (audit : option DataMutationAudit) (Hok : kv_ok s) (Hns : no_nul ns) :
  exists before put del,
    load_kv s = Ok before /\ load_kv (put_kv_audited s ns key e audit) = Ok put /\
    load_kv (delete_kv s ns key) = Ok del /\
    forall ns' key' e',
      ((ns', key', e') ∈ put <->
       if decide (ns' = ns /\ key' = key) then e' = e else (ns', key', e') ∈ before) /\
      ((ns', key', e') ∈ del <-> (ns', key', e') ∈ before /\ ~ (ns' = ns /\ key' = key)).
Proof.
  set (s1 := put_kv_audited s ns key e audit). set (s2 := delete_kv s ns key).
  assert (KV s1 = t_insert (kv_key ns key) (to_stdvec e) (KV s)) as E1 by by destruct audit.
  assert (kv_ok s1) as Hok1.
  { intros k v. rewrite E1, t_get_insert. case_decide as Hd; [|apply Hok].
    intros [= <-]. by exists ns, key, e. }
  assert (kv_ok s2) as Hok2.
  { intros k v. simpl. rewrite t_get_remove. case_decide; [done|]. apply Hok. }
  destruct (load_kv_spec s Hok) as (o0 & L0 & I0), (load_kv_spec s1 Hok1) as (o1 & L1 & I1),
    (load_kv_spec s2 Hok2) as (o2 & L2 & I2).
  exists o0, o1, o2. split_and!; try done. intros ns' key' e'.
  assert (no_nul ns' -> kv_key ns key = kv_key ns' key' <-> ns' = ns /\ key' = key) as Hk.
  { intros Hn. split; [|by intros [-> ->]]. intros E. apply kv_key_inj in E as [-> ->]; done. }
  rewrite I0, I1, I2, E1, t_get_insert. simpl. rewrite t_get_remove. split.
  - destruct (decide (ns' = ns /\ key' = key)) as [[-> ->]|Hne].
    + rewrite decide_True by done. split; [|by intros ->]. intros [[= E] _].
      assert (Some e = Some e') as [= ->]; [|done]. rewrite <- !postcard_roundtrip. by rewrite E.
    + rewrite I0. destruct (decide (kv_key ns key = kv_key ns' key')) as [E|]; [|done]. split.
      * intros [_ Hn]. by destruct Hne, (proj1 (Hk Hn) E).
      * intros [_ Hn]. by destruct Hne, (proj1 (Hk Hn) E).
  - destruct (decide (kv_key ns key = kv_key ns' key')) as [E|Hne].
    + split; [naive_solver|]. intros [[_ Hn] Hne]. by destruct Hne, (proj1 (Hk Hn) E).
    + split; [|tauto]. intros [Hg Hn]. split; [done|]. intros Heq. by destruct Hne, (proj2 (Hk Hn) Heq).
Qed.

#[export] Instance KvEntry_eq_dec : EqDecision KvEntry.
Proof. solve_decision. Defined.

#[export] Instance KvEntry_countable : Countable KvEntry.
Proof.
  refine (inj_countable' (fun e => (hlc e, writer e, (value e, expires_at_ms e)))
    (fun p => let '(h, w, (v, t)) := p in mkKvEntry h w v t) _).
  by intros [].
Defined.

Lemma kv_storage_witness :
  let pc := SampleCodec.codec KvEntry in
  let pca : Postcard DataMutationAudit := {| to_stdvec := fun _ => []; from_bytes := fun _ => None |} in
  let e := mkKvEntry (mkHlc 5 0) (mkPublicId [1]) (Some [7]) None in
  exists out, load_kv (redb := SampleRedb.redb) (pc_kv := pc)
    (put_kv_audited (pc_kv := pc) (pc_audit := pca) (store_open (redb := SampleRedb.redb)) "ns" "k" e None) = Ok out /\
    ("ns", "k", e) ∈ out.
Proof.
  intros pc pca e.
  destruct (kv_storage (redb_ok := SampleRedb.redb_ok) (pc_ok := SampleCodec.codec_ok KvEntry) (pca := pca)
    (store_open (redb := SampleRedb.redb)) "ns" "k" e None) as (before & out & del & _ & Hp & _ & Hin).
  - intros k v. simpl. rewrite lookup_empty. discriminate.
  - reflexivity.
  - exists out. split; [exact Hp|]. destruct (Hin "ns" "k" e) as [Hput _]. apply (proj2 Hput).
    destruct (decide _) as [_|n]; [reflexivity|]. destruct n. split; reflexivity.
Defined.
