(* ===== verification/D1.v ===== *)
(** * D1: the driver of a replicated SQLite database (crates/rf/src/d1.rs)

    [Driver] is one member's driver for one database: its Raft state, its
    SQLite database, the node's store, the proposals in flight and the leader it
    advertises.  SQLite and the JSON codec of commands are third-party code, the
    operations of [Sqlite]; the peer table is an argument.  A method returns the
    driver and what it sent: messages to peers and replies to callers.  The
    election timer, the export stream and the HTTP transport are I/O. *)

From Stdlib Require Import ZArith Lia Ascii.
From stdpp Require Import prelude gmap sorting strings list.
From S2P Require Import Prelude Text Hlc Identity Envelope Kv Quorum DataAudit Observability Store.
Open Scope Z_scope.

(** rusqlite and serde_json, as far as the driver uses them. *)
Class Sqlite := {
  Json : Type;
  Row : Type;
  Db : Type;
  readonly : Db -> string -> result bool string;
  column_count : Db -> string -> Z;
  query_rows : Db -> string -> list Json -> result (Db * list Row) string;
  raw_execute : Db -> string -> list Json -> result (Db * Z) string;
  marker : Db -> option Z;
  set_marker : Z -> Db -> option Db;
  in_memory : Db;
  read_file : Db -> option bytes;
  open_file : bytes -> option Db;
  json_of_cmd : string * list Json * list (string * list Json) * Z -> bytes;
  cmd_of_json : bytes -> option (string * list Json * list (string * list Json) * Z)
}.

Section driver.
Context {sqlite : Sqlite} {redb : Redb} {crypto : Crypto} {hex : Hex}.
Context {pc_meta : Postcard D1Meta} {pc_entry : Postcard Entry} {pc_audit : Postcard DataMutationAudit}.

Record Statement := mkStatement { st_sql : string; st_params : list Json }.

Record StatementResult := mkStatementResult {
  sr_rows : option (list Row);
  sr_affected : option Z
  }.

Record Cmd := mkCmd {
  cmd_sql : string;
  cmd_params : list Json;
  cmd_statements : list Statement;
  cmd_tag : Z
  }.

Record ExecResult := mkExecResult {
  ex_rows : option (list Row);
  ex_affected : option Z;
  ex_batch : option (list StatementResult);
  ex_leader_hint : option string
  }.

(** A caller waiting for its answer. *)
Definition Responder : Type := Z.

Record Driver := mkDriver {
  d_name : string;
  raft : Raft;
  sql : Db;
  store : Store;
  pending : gmap Z Responder;
  my_entries : gmap Z Z;
  leadership : option PublicId
  }.

Inductive Out :=
| Net (to : PublicId) (m : Msg)
| Reply (r : Responder) (res : result ExecResult string).

(** What the driver reads of its node: its peers' API addresses, its id, its
  clock and the compaction settings. *)
Record Env := mkEnv {
  api_addr : PublicId -> option string;
  id_hex : string;
  now_ms : Z;
  compact_threshold : Z;
  keep_tail : Z
  }.

Definition set_raft (d : Driver) (r : Raft) : Driver :=
  mkDriver (d_name d) r (sql d) (store d) (pending d) (my_entries d) (leadership d).
Definition set_sql (d : Driver) (db : Db) : Driver :=
  mkDriver (d_name d) (raft d) db (store d) (pending d) (my_entries d) (leadership d).
Definition set_store (d : Driver) (s : Store) : Driver :=
  mkDriver (d_name d) (raft d) (sql d) s (pending d) (my_entries d) (leadership d).
Definition set_waiting (d : Driver) (p : gmap Z Responder) (m : gmap Z Z) : Driver :=
  mkDriver (d_name d) (raft d) (sql d) (store d) p m (leadership d).
Definition set_leadership (d : Driver) (l : option PublicId) : Driver :=
  mkDriver (d_name d) (raft d) (sql d) (store d) (pending d) (my_entries d) l.

Definition encode_cmd (c : Cmd) : bytes :=
  json_of_cmd (cmd_sql c, cmd_params c, (fun s => (st_sql s, st_params s)) <$> cmd_statements c, cmd_tag c).
Definition decode_cmd (b : bytes) : option Cmd :=
  match cmd_of_json b with
  | Some (s, p, l, t) => Some (mkCmd s p ((fun sp => mkStatement sp.1 sp.2) <$> l) t)
  | None => None
  end.

(** [read_prepared_rows] on all rows of a query. *)
Definition bounded_rows (rows : list Row) : result (list Row) string :=
  if (10000 <? Z.of_nat (length rows))%Z then Err "D1 query returned more than 10,000 rows" else Ok rows.

(** [run_statements], on a transaction: the database threads through. *)
Fixpoint run_statements (db : Db) (statements : list Statement)
  : result (Db * list StatementResult) string :=
  match statements with
  | [] => Ok (db, [])
  | st :: rest =>
      let? ro := readonly db (st_sql st) in
      if ro || (column_count db (st_sql st) >? 0)%Z then
        let? (db, rows) := query_rows db (st_sql st) (st_params st) in
        let? rows := bounded_rows rows in
        let? (db, results) := run_statements db rest in
        Ok (db, mkStatementResult (Some rows) None :: results)
      else
        let? (db, n) := raw_execute db (st_sql st) (st_params st) in
        let? (db, results) := run_statements db rest in
        Ok (db, mkStatementResult None (Some n) :: results)
  end.

(** [run_query]. *)
Definition run_query (db : Db) (q : string) (params : list Json) : result ExecResult string :=
  let? (_, rows) := query_rows db q params in
  let? rows := bounded_rows rows in
  Ok (mkExecResult (Some rows) None None None).

(** [Driver::leader_api_addr]. *)
Definition leader_api_addr (env : Env) (d : Driver) : option string :=
  match leader_hint (raft d) with
  | None => None
  | Some h => if bool_decide (h = me (raft d)) then None else api_addr env h
  end.

(** The answer of a driver that does not lead. *)
Definition redirect (hint : option string) : ExecResult := mkExecResult None None None hint.

(** *** Applying committed commands *)

(** The transaction of [Driver::apply]: the database after it and its results. *)
Definition apply_tx (db : Db) (e : Entry) : result (Db * (bool * list StatementResult)) string :=
  match decode_cmd (e_cmd e) with
  | None => Err "cmd decode"
  | Some c =>
      let is_batch := negb (bool_decide (length (cmd_statements c) = 0%nat)) in
      let statements := if is_batch then cmd_statements c else [mkStatement (cmd_sql c) (cmd_params c)] in
      let? (db, results) := run_statements db statements in
      match set_marker (e_seq e) db with
      | None => Err "no _rf_applied table"
      | Some db => Ok (db, (is_batch, results))
      end
  end.

(** [Iterator::sum] of the counted rows; a [u64] sum wraps. *)
Definition sum_affected (results : list StatementResult) : Z :=
  foldl (fun acc r => match sr_affected r with Some n => wadd 64 acc n | None => acc end) 0 results.

Definition exec_result (is_batch : bool) (results : list StatementResult) : ExecResult :=
  if is_batch then mkExecResult None (Some (sum_affected results)) (Some results) None
  else
    let r := default (mkStatementResult None (Some 0)) (list.last results) in
    mkExecResult (sr_rows r) (sr_affected r) None None.

(** [Driver::apply]. *)
Definition apply (env : Env) (d : Driver) (e : Entry) : Driver * list Out :=
  let outcome := apply_tx (sql d) e in
  let d :=
    match outcome with
    | Ok (db, _) =>
        set_store (set_sql d db) (put_data_audit (store d) (d1_mutation (d_name d) e (id_hex env) (now_ms env)))
    | Err _ => d
    end in
  match my_entries d !! e_seq e with
  | None => (d, [])
  | Some tag =>
      let d1 := set_waiting d (pending d) (delete (e_seq e) (my_entries d)) in
      match pending d1 !! tag with
      | None => (d1, [])
      | Some resp =>
          (set_waiting d1 (delete tag (pending d1)) (my_entries d1),
           [Reply resp (match outcome with
                        | Ok (_, (is_batch, results)) => Ok (exec_result is_batch results)
                        | Err err => Err err
                        end)])
      end
  end.

(** [Driver::install_snapshot]: a file that does not open leaves the handle on
  the in-memory database. *)
Definition install_snapshot (d : Driver) (seq : Z) (data : bytes) : Driver :=
  match open_file data with
  | None => set_sql d in_memory
  | Some db =>
      match marker db with
      | None => set_sql d in_memory
      | Some mk =>
          if (mk =? seq)%Z then set_sql d db
          else match set_marker seq db with
               | Some db => set_sql d db
               | None => set_sql d in_memory
               end
      end
  end.

(** *** Executing the actions of a transition *)

Definition put_meta (d : Driver) : Store :=
  put_d1_meta (store d) (d_name d) (epoch (raft d)) (voted_for (raft d)) (base_seq (raft d)) (base_epoch (raft d)).

(** One turn of the loop of [Driver::execute]. *)
Definition exec_action (env : Env) (d : Driver) (a : Action) : Driver * list Out :=
  match a with
  | PersistMeta => (set_store d (put_meta d), [])
  | PersistLog from =>
      let tail := filter (fun e => from <= e_seq e) (log (raft d)) in
      (set_store d (put_d1_log (store d) (d_name d) from tail), [])
  | Send to m => (d, match api_addr env to with Some _ => [Net to m] | None => [] end)
  | Apply e => apply env d e
  | NeedSnapshot to =>
      match read_file (sql d) with
      | None => (d, [])
      | Some data =>
          let '(last_seq, last_epoch) := snapshot_point (raft d) in
          (d, match api_addr env to with
              | Some _ => [Net to (InstallSnapshot (epoch (raft d)) last_seq last_epoch data)]
              | None => []
              end)
      end
  | ApplySnapshot seq data => (install_snapshot d seq data, [])
  | BecameLeader => (d, [])
  | LostLeadership =>
      (set_waiting d ∅ ∅, (fun tr => Reply tr.2 (Ok (redirect None))) <$> map_to_list (pending d))
  end.

Fixpoint exec_actions (env : Env) (d : Driver) (acts : list Action) : Driver * list Out :=
  match acts with
  | [] => (d, [])
  | a :: acts' =>
      let '(d, out) := exec_action env d a in
      let '(d, out') := exec_actions env d acts' in
      (d, out ++ out')
  end.

(** [Driver::maybe_compact]: two store transactions, the log and then the meta. *)
Definition compact_settings (env : Env) (d : Driver) : Z * Z :=
  if starts_with "rfdo-" (d_name d) then (8, 1) else (compact_threshold env, keep_tail env).

Definition maybe_compact (env : Env) (d : Driver) : Driver :=
  let '(threshold, keep) := compact_settings env d in
  if (Z.of_nat (length (log (raft d))) <=? threshold)%Z then d
  else
    let '(r, dropped) := compact (raft d) keep in
    if dropped then
      let d := set_raft d r in
      let d := set_store d (compact_d1_log (store d) (d_name d) (base_seq r)) in
      set_store d (put_meta d)
    else d.

(** [Driver::execute]. *)
Definition execute (env : Env) (d : Driver) (acts : list Action) : Driver * list Out :=
  let '(d, out) := exec_actions env d acts in
  let d := maybe_compact env d in
  (set_leadership d (leader_hint (raft d)), out).

(** *** Requests *)

(** [Driver::propose]. *)
Definition driver_propose (env : Env) (d : Driver) (c : Cmd) (resp : Responder) : Driver * list Out :=
  match propose (raft d) (encode_cmd c) with
  | (r, Ok (seq, acts)) =>
      let d := set_raft d r in
      execute env (set_waiting d (<[cmd_tag c := resp]> (pending d)) (<[seq := cmd_tag c]> (my_entries d))) acts
  | (_, Err _) => (d, [Reply resp (Ok (redirect (leader_api_addr env d)))])
  end.

(** [Driver::exec], with the random tag as an argument. *)
Definition exec (env : Env) (d : Driver) (q : string) (params : list Json) (tag : Z) (resp : Responder)
  : Driver * list Out :=
  if negb (is_leader (raft d)) then (d, [Reply resp (Ok (redirect (leader_api_addr env d)))])
  else match readonly (sql d) q with
       | Ok true => (d, [Reply resp (run_query (sql d) q params)])
       | Ok false => driver_propose env d (mkCmd q params [] tag) resp
       | Err e => (d, [Reply resp (Err e)])
       end.

Definition bad_statement (st : Statement) : bool :=
  is_empty (trim (st_sql st)) || (1024 * 1024 <? slen (st_sql st))%Z
  || (1000 <? Z.of_nat (length (st_params st)))%Z.

(** [collect::<Result<Vec<_>>>] of the classification. *)
Fixpoint classify (db : Db) (statements : list Statement) : result (list bool) string :=
  match statements with
  | [] => Ok []
  | st :: rest =>
      let? ro := readonly db (st_sql st) in
      let? kinds := classify db rest in
      Ok (ro :: kinds)
  end.

(** [Driver::batch]. *)
Definition batch (env : Env) (d : Driver) (statements : list Statement) (tag : Z) (resp : Responder)
  : Driver * list Out :=
  if negb (is_leader (raft d)) then (d, [Reply resp (Ok (redirect (leader_api_addr env d)))])
  else if bool_decide (length statements = 0%nat) || (100 <? Z.of_nat (length statements))%Z
  then (d, [Reply resp (Err "D1 atomic batch must contain 1..100 statements")])
  else if existsb bad_statement statements
  then (d, [Reply resp (Err "invalid D1 batch statement")])
  else match classify (sql d) statements with
       | Err e => (d, [Reply resp (Err e)])
       | Ok kinds =>
           if forallb id kinds then
             match run_statements (sql d) statements with
             | Ok (db, results) => (set_sql d db, [Reply resp (Ok (mkExecResult None (Some 0) (Some results) None))])
             | Err e => (d, [Reply resp (Err e)])
             end
           else driver_propose env d (mkCmd "" [] statements tag) resp
       end.

(** The arms of [Driver::run]: a message, the heartbeat tick, the election
  timeout. *)
Definition on_net (env : Env) (d : Driver) (from : PublicId) (m : Msg) : Driver * list Out :=
  let '(r, acts) := handle (raft d) from m in execute env (set_raft d r) acts.

Definition on_heartbeat (env : Env) (d : Driver) : Driver * list Out :=
  execute env d (heartbeat (raft d)).

Definition on_election_timeout (env : Env) (d : Driver) : Driver * list Out :=
  let '(r, acts) := tick_election (raft d) in execute env (set_raft d r) acts.

(** [Driver::open]: the Raft state from the store, the applied mark from the
  database. *)
Definition driver_open (my_id : PublicId) (name : string) (grp : list PublicId) (s : Store) (db : Db)
  (lead : option PublicId) : result Driver StoreError :=
  let? (ep, voted, bs, be) := load_d1_meta s name in
  let? l := load_d1_log s name in
  Ok (mkDriver name (restore my_id grp ep voted bs be l (default 0 (marker db))) db s ∅ ∅ lead).

(** What can happen to a driver. *)
Inductive Event :=
| EvNet (from : PublicId) (m : Msg)
| EvElection
| EvHeartbeat
| EvPropose (c : Cmd) (resp : Responder).

Definition step (env : Env) (d : Driver) (ev : Event) : Driver * list Out :=
  match ev with
  | EvNet from m => on_net env d from m
  | EvElection => on_election_timeout env d
  | EvHeartbeat => on_heartbeat env d
  | EvPropose c resp => driver_propose env d c resp
  end.

(** [ensure_database_on], with the published record as an argument: the group
  recorded once is returned for good. *)
Definition ensure_database_on (published : option (list PublicId)) (name : string) (universe : list PublicId)
  : result (list PublicId) string :=
  match published with
  | Some grp => Ok grp
  | None =>
      let universe := remove_dups (merge_sort le_of universe) in
      if bool_decide (universe = []) then Err "D1 replica universe cannot be empty"
      else Ok (rendezvous_group name universe 3)
  end.
End driver.

(** ** What survives a restart *)

Section durability.
Context {sqlite : Sqlite} {redb : Redb} {redb_ok : RedbOk} {crypto : Crypto} {hex : Hex}.
Context {pc_meta : Postcard D1Meta} {pc_meta_ok : PostcardOk D1Meta}.
Context {pc_entry : Postcard Entry} {pc_entry_ok : PostcardOk Entry}.
Context {pc_audit : Postcard DataMutationAudit}.
Implicit Types (d : Driver) (env : Env).

Definition meta4 (r : Raft) : D1Meta := (epoch r, voted_for r, base_seq r, base_epoch r).

(** The store holds the driver's Raft state. *)
Definition synced d : Prop :=
  load_d1_meta (store d) (d_name d) = Ok (meta4 (raft d)) /\
  d1_log_ok (store d) (d_name d) /\ load_d1_log (store d) (d_name d) = Ok (log (raft d)).

Lemma apply_frame env d e :
  raft (apply env d e).1 = raft d /\ d_name (apply env d e).1 = d_name d /\
  D1META (store (apply env d e).1) = D1META (store d) /\ D1LOG (store (apply env d e).1) = D1LOG (store d).
Proof. unfold apply. destruct (apply_tx (sql d) e) as [[db res]|err]; repeat case_match; done. Qed.

Lemma install_snapshot_frame d seq data :
  raft (install_snapshot d seq data) = raft d /\ d_name (install_snapshot d seq data) = d_name d /\
  store (install_snapshot d seq data) = store d.
Proof. unfold install_snapshot. by repeat case_match. Qed.

Lemma exec_action_frame env d a :
  raft (exec_action env d a).1 = raft d /\ d_name (exec_action env d a).1 = d_name d.
Proof.
  destruct a; simpl; try done.
  - by destruct (apply_frame env d e) as (? & ? & _).
  - by destruct (install_snapshot_frame d seq data) as (? & ? & _).
  - destruct (read_file (sql d)); [|done]. by destruct (snapshot_point (raft d)).
Qed.

Lemma exec_actions_frame env d acts :
  raft (exec_actions env d acts).1 = raft d /\ d_name (exec_actions env d acts).1 = d_name d.
Proof.
  revert d. induction acts as [|a acts IH]; intros d; [done|]. cbn [exec_actions].
  destruct (exec_action_frame env d a) as [H1 H2]. destruct (exec_action env d a) as [d1 out]; simpl in *.
  destruct (IH d1) as [H3 H4]. destruct (exec_actions env d1 acts) as [d2 out']; simpl in *.
  split; congruence.
Qed.

Lemma load_d1_meta_put (s : Store) name ep v bs be :
  load_d1_meta (put_d1_meta s name ep v bs be) name = Ok (ep, v, bs, be).
Proof.
  unfold load_d1_meta, put_d1_meta; simpl. rewrite t_get_insert, decide_True by done.
  by rewrite postcard_roundtrip.
Qed.

Lemma load_d1_log_frame (s s' : Store) name : D1LOG s' = D1LOG s -> load_d1_log s' name = load_d1_log s name.
Proof. unfold load_d1_log. by intros ->. Qed.
Lemma load_d1_meta_frame (s s' : Store) name : D1META s' = D1META s -> load_d1_meta s' name = load_d1_meta s name.
Proof. unfold load_d1_meta. by intros ->. Qed.
Lemma d1_log_ok_frame (s s' : Store) name : D1LOG s' = D1LOG s -> d1_log_ok s name -> d1_log_ok s' name.
Proof. unfold d1_log_ok. by intros ->. Qed.

(** The log that [PersistLog f] leaves on disk. *)
Definition rewrite_log (r : Raft) (es : list Entry) (f : Z) : list Entry :=
  filter (fun e => e_seq e < f) es ++ filter (fun e => f <= e_seq e) (log r).

Lemma contiguous_sorted (from : Z) (es : list Entry) : contiguous from es -> StronglySorted seq_lt es.
Proof.
  revert from. induction es as [|e es IH]; intros from H; [constructor|].
  apply contiguous_cons in H as [He H]. constructor; [by apply (IH (from + 1))|].
  apply Forall_forall. intros x [i Hi]%list_elem_of_lookup. unfold seq_lt. rewrite (H i x Hi). lia.
Qed.

Lemma tail_of_log (r : Raft) (f : Z) : wf r -> tail_ok f (filter (fun e => f <= e_seq e) (log r)).
Proof.
  intros Hw. split; [apply StronglySorted_filter, (contiguous_sorted (base_seq r + 1)), Hw|].
  apply Forall_forall. intros e [Hf [i Hi]%list_elem_of_lookup]%list_elem_of_filter. split; [done|].
  rewrite (wf_log r Hw i e Hi). pose proof (wf_last r Hw). pose proof (wf_base r Hw).
  apply lookup_lt_Some in Hi. unfold in_width, u64_max, umax in *. lia.
Qed.

(** The effect of one action on what is stored for this database. *)
Lemma exec_action_store env d a es :
  wf (raft d) -> d1_log_ok (store d) (d_name d) -> load_d1_log (store d) (d_name d) = Ok es ->
  (forall f, a = PersistLog f -> in_width 64 f) ->
  let s' := store (exec_action env d a).1 in
  load_d1_meta s' (d_name d) =
    (if is_persist_meta a then Ok (meta4 (raft d)) else load_d1_meta (store d) (d_name d)) /\
  d1_log_ok s' (d_name d) /\
  load_d1_log s' (d_name d) =
    Ok (match as_persist_log a with Some f => rewrite_log (raft d) es f | None => es end).
Proof.
  intros Hw Hok Hl Hf. destruct a; cbn [exec_action is_persist_meta as_persist_log]; try done.
  - cbv zeta. split_and!; [apply load_d1_meta_put|done|done].
  - pose proof (tail_of_log (raft d) from_seq Hw) as Ht. specialize (Hf _ eq_refl). cbv zeta.
    split_and!; [done|by apply put_d1_log_ok|by apply put_load_d1_log].
  - destruct (apply_frame env d e) as (_ & _ & Hm & Hlog). cbv zeta.
    rewrite (load_d1_meta_frame _ _ _ Hm), (load_d1_log_frame _ _ _ Hlog).
    split_and!; [done|by apply (d1_log_ok_frame (store d))|done].
  - destruct (install_snapshot_frame d seq data) as (_ & _ & Hs). cbn [fst]. by rewrite Hs.
  - cbv zeta. destruct (read_file (sql d)); [|done]. by destruct (snapshot_point (raft d)).
Qed.

Lemma exec_actions_store env acts d es :
  wf (raft d) -> d1_log_ok (store d) (d_name d) -> load_d1_log (store d) (d_name d) = Ok es ->
  Forall (in_width 64) (persisted_logs acts) ->
  let s' := store (exec_actions env d acts).1 in
  load_d1_meta s' (d_name d) =
    (if existsb is_persist_meta acts then Ok (meta4 (raft d)) else load_d1_meta (store d) (d_name d)) /\
  d1_log_ok s' (d_name d) /\
  load_d1_log s' (d_name d) = Ok (foldl (rewrite_log (raft d)) es (persisted_logs acts)).
Proof.
  revert d es. induction acts as [|a acts IH]; intros d es Hw Hok Hl Hf; [done|]. cbn [exec_actions existsb].
  assert (persisted_logs (a :: acts) = match as_persist_log a with Some f => [f] | None => [] end ++ persisted_logs acts)
    as Hpl by (unfold persisted_logs; simpl; by destruct (as_persist_log a)).
  rewrite Hpl in *. apply Forall_app in Hf as [Hf1 Hf2].
  destruct (exec_action_store env d a es Hw Hok Hl) as (M1 & O1 & L1).
  { intros f ->. cbn [as_persist_log] in Hf1. by rewrite Forall_singleton in Hf1. }
  destruct (exec_action_frame env d a) as [R1 N1].
  destruct (exec_action env d a) as [d1 out]; cbn [fst] in *.
  destruct (IH d1 (match as_persist_log a with Some f => rewrite_log (raft d) es f | None => es end))
    as (M2 & O2 & L2); [by rewrite R1|by rewrite N1|by rewrite N1|done|].
  destruct (exec_actions env d1 acts) as [d2 out']; cbn [fst] in *. rewrite N1, R1 in *.
  split_and!; [|done|].
  - rewrite M2, M1. destruct (is_persist_meta a), (existsb is_persist_meta acts); done.
  - rewrite L2, foldl_app. by destruct (as_persist_log a).
Qed.

Lemma split_log (r : Raft) (f : Z) : wf r -> base_seq r < f ->
  filter (fun e => e_seq e < f) (log r) ++ filter (fun e => f <= e_seq e) (log r) = log r.
Proof.
  intros Hw Hf. rewrite (filter_prefix (base_seq r + 1)) by apply Hw.
  rewrite (filter_suffix (base_seq r + 1)) by (apply Hw || lia). apply take_drop.
Qed.

(** Executing the actions of a transition brings the store up to date. *)
Lemma exec_actions_synced env d r acts :
  synced d -> wf (raft d) -> wf r -> persists (raft d) (r, acts) -> log_step (raft d) (r, acts) ->
  synced (exec_actions env (set_raft d r) acts).1.
Proof.
  intros (Hm & Hok & Hl) Hw Hwr [_ Hp] (Hb & Hbe & Hls). cbn [fst snd] in *.
  assert (Forall (in_width 64) (persisted_logs acts)) as Hf.
  { pose proof (wf_base _ Hw). destruct (persisted_logs acts) as [|f [|]]; [constructor| |done].
    repeat constructor; unfold u64_max, umax in *; lia. }
  destruct (exec_actions_store env acts (set_raft d r) (log (raft d)) Hwr Hok Hl Hf) as (M & O & L).
  destruct (exec_actions_frame env (set_raft d r) acts) as [R N]. unfold synced. rewrite R, N.
  cbn [raft d_name set_raft] in *. split_and!; [|done|].
  - rewrite M. destruct (existsb is_persist_meta acts) eqn:Ex; [done|]. simpl. rewrite Hm. f_equal.
    unfold meta4. rewrite Hb, Hbe. assert (meta r = meta (raft d)) as E; [|by injection E as -> ->].
    destruct (decide (meta r = meta (raft d))) as [|Hne]; [done|]. apply Hp, before_sends_elem in Hne.
    assert (existsb is_persist_meta acts = true); [|congruence].
    apply existsb_exists. exists PersistMeta. split; [by apply list_elem_of_In|done].
  - rewrite L. f_equal. destruct (persisted_logs acts) as [|f [|]]; [done| |done]. destruct Hls as [Hf' Hpre].
    simpl. unfold rewrite_log. rewrite <- Hpre. apply split_log; [done|lia].
Qed.

Lemma maybe_compact_synced env d :
  0 <= keep_tail env -> wf (raft d) -> synced d ->
  synced (maybe_compact env d) /\ wf (raft (maybe_compact env d)) /\
  meta (raft (maybe_compact env d)) = meta (raft d) /\ d_name (maybe_compact env d) = d_name d.
Proof.
  intros Hk Hw (Hm & Hok & Hl). unfold maybe_compact.
  destruct (compact_settings env d) as [threshold keep] eqn:Ec.
  assert (0 <= keep) as Hkeep.
  { unfold compact_settings in Ec. destruct (starts_with _ _); injection Ec; lia. }
  destruct (_ <=? threshold)%Z; [by split_and!|]. pose proof (compact_wf (raft d) keep Hw Hkeep) as Hwc.
  unfold compact in *. destruct (Z.leb_spec (sat_sub (applied (raft d)) keep) (base_seq (raft d))); [by split_and!|].
  destruct (entry (raft d) _) as [e|] eqn:Ee; [|by split_and!]. cbn [fst] in Hwc.
  apply entry_seq in Ee as [_ Hr]; [|apply Hw].
  set (r' := set_base _ _ _ _) in *. pose proof (wf_base _ Hwc). pose proof (wf_applied _ Hwc).
  destruct (compact_load_d1_log (store d) (d_name d) (base_seq r') (log (raft d))) as [Hok' Hl'];
    [lia|done..|].
  split_and!; try done. unfold synced; cbn [raft store d_name set_store set_raft]. split_and!.
  - unfold put_meta. cbn [raft store d_name set_store set_raft]. apply load_d1_meta_put.
  - done.
  - unfold put_meta. rewrite (load_d1_log_frame (compact_d1_log (store d) (d_name d) (base_seq r'))) by done.
    rewrite Hl'. f_equal.
    rewrite (list_filter_iff _ (fun e0 => base_seq r' + 1 <= e_seq e0)) by (intros; lia).
    rewrite (filter_suffix (base_seq (raft d) + 1)) by (apply Hw || (simpl; lia)). simpl. f_equal. lia.
Qed.

Lemma execute_synced env d r acts :
  0 <= keep_tail env -> synced d -> wf (raft d) -> wf r ->
  persists (raft d) (r, acts) -> log_step (raft d) (r, acts) ->
  let d' := (execute env (set_raft d r) acts).1 in
  synced d' /\ wf (raft d') /\ meta (raft d') = meta r /\ d_name d' = d_name d.
Proof.
  intros Hk Hs Hw Hwr Hp Hl. pose proof (exec_actions_synced env d r acts Hs Hw Hwr Hp Hl) as Hs1.
  unfold execute. destruct (exec_actions_frame env (set_raft d r) acts) as [R N].
  destruct (exec_actions env (set_raft d r) acts) as [d1 out]; cbn [fst] in *.
  destruct (maybe_compact_synced env d1 Hk) as (S2 & W2 & M2 & N2); [by rewrite R|done|].
  cbv zeta. cbn [fst]. split_and!; [exact S2|exact W2| |].
  - simpl. by rewrite M2, R.
  - simpl. by rewrite N2, N.
Qed.

Lemma execute_synced_wf env d r acts :
  0 <= keep_tail env -> synced d -> wf (raft d) -> wf r ->
  persists (raft d) (r, acts) -> log_step (raft d) (r, acts) ->
  synced (execute env (set_raft d r) acts).1 /\ wf (raft (execute env (set_raft d r) acts).1).
Proof. intros. destruct (execute_synced env d r acts) as (? & ? & _); done. Qed.

(** Reopening a synced driver. *)
Lemma driver_open_synced d (grp : list PublicId) (db : Db) lead :
  synced d ->
  exists d', driver_open (me (raft d)) (d_name d) grp (store d) db lead = Ok d' /\
    log (raft d') = log (raft d) /\ meta4 (raft d') = meta4 (raft d) /\ store d' = store d /\
    applied (raft d') = Z.max (default 0 (marker db)) (base_seq (raft d)).
Proof.
  intros (Hm & _ & Hl). unfold driver_open. rewrite Hm. unfold meta4. rewrite Hl.
  eexists. split; [reflexivity|]. done.
Qed.

(** Well-formed input below the end of the counters, and no snapshot. *)
Definition event_ok (r : Raft) (ev : Event) : Prop :=
  match ev with
  | EvNet from m => msg_wf m /\ snapshots (handle r from m).2 = []
  | EvElection => 0 <= epoch r < u64_max
  | EvHeartbeat => True
  | EvPropose _ _ => (last r).2 + 1 < u64_max
  end.

Lemma set_raft_same d : set_raft d (raft d) = d.
Proof. by destruct d. Qed.

Lemma replicate_meta (r : Raft) (acts : list Action) : persists r (r, acts).
Proof. by apply persists_same. Qed.

Lemma propose_meta (r : Raft) (cmd : bytes) : meta (propose r cmd).1 = meta r.
Proof.
  unfold propose. destruct (negb (is_leader r)); [done|]. set (r1 := set_log r _).
  destruct (advance_commit_meta r1) as [H _]. by destruct (advance_commit r1).
Qed.

Lemma step_synced env d ev :
  0 <= keep_tail env -> synced d -> wf (raft d) -> event_ok (raft d) ev ->
  synced (step env d ev).1 /\ wf (raft (step env d ev).1).
Proof.
  intros Hk Hs Hw He. destruct ev as [from m| | |c resp]; simpl in *.
  - destruct He as [Hm Hsn]. unfold on_net. pose proof (handle_wf (raft d) from m Hw Hm) as [Hw' _].
    pose proof (handle_step (raft d) from m) as [Hp _].
    pose proof (handle_log_step (raft d) from m Hw Hm Hsn) as Hl.
    destruct (handle (raft d) from m) as [r acts]. by apply execute_synced_wf.
  - unfold on_election_timeout. pose proof (tick_election_wf (raft d) Hw) as [Hw' _].
    pose proof (tick_election_log_step (raft d)) as Hl.
    assert (persists (raft d) (tick_election (raft d))) as Hp.
    { destruct (is_leader (raft d)) eqn:El.
      - unfold tick_election. rewrite El. by apply persists_same.
      - by apply tick_election_step. }
    destruct (tick_election (raft d)) as [r acts]. by apply execute_synced_wf.
  - unfold on_heartbeat. rewrite <- (set_raft_same d) at 1 3. apply execute_synced_wf; try done.
    + by apply persists_same.
    + apply log_step_same; try done. unfold heartbeat.
      destruct (is_leader (raft d)); [apply persisted_logs_replicate|done].
  - unfold driver_propose. pose proof (propose_wf (raft d) (encode_cmd c) Hw He) as [Hw' _].
    pose proof (propose_meta (raft d) (encode_cmd c)) as Hm.
    pose proof (propose_log_step (raft d) (encode_cmd c)) as Hl.
    destruct (propose (raft d) (encode_cmd c)) as [r [[seq acts]|err]]; simpl in *; [|done].
    set (d1 := set_waiting _ _ _).
    assert (d1 = set_raft (set_waiting d (pending d1) (my_entries d1)) r) as -> by done.
    apply execute_synced_wf; try done; [by apply persists_same|]. by apply (Hl seq acts).
Qed.
(** What an accepted snapshot does to the member and to its store. *)
Lemma handle_snapshot_accepted (r : Raft) from ep ls le data :
  epoch r <= ep -> applied r < ls -> 0 <= ls < u64_max ->
  let o := handle r from (InstallSnapshot ep ls le data) in
  log o.1 = [] /\ base_seq o.1 = ls /\ base_epoch o.1 = le /\ me o.1 = me r /\
  persisted_logs o.2 = [ls + 1] /\ existsb is_persist_meta o.2 = true.
Proof.
  intros He Ha Hls. cbn [handle]. unfold handle_snapshot.
  destruct (Z.ltb_spec ep (epoch r)); [lia|]. pose proof (follow_persisted r from ep) as Hp.
  destruct (follow_log r from ep) as (Hlog & Hb & _).
  assert (applied (follow r from ep).1 = applied r /\ me (follow r from ep).1 = me r) as [Hap Hme].
  { unfold follow, become_follower. destruct (_ >? _)%Z; simpl; try case_bool_decide; done. }
  destruct (follow r from ep) as [r1 acts]; cbn [fst snd] in *.
  destruct (Z.leb_spec ls (applied r1)); [lia|]. cbv zeta. cbn [fst snd log base_seq base_epoch me set_commit set_base].
  rewrite persisted_logs_app, Hp, existsb_app. rewrite wadd_small by (unfold u64_max, umax in *; lia).
  split_and!; try done. by rewrite orb_true_r.
Qed.

Lemma maybe_compact_empty env d : 0 <= compact_threshold env -> log (raft d) = [] -> maybe_compact env d = d.
Proof.
  intros Ht Hl. unfold maybe_compact, compact_settings. rewrite Hl.
  destruct (starts_with _ _); [done|]. by destruct (Z.leb_spec (Z.of_nat (length (@nil Entry))) (compact_threshold env)); [|simpl in *; lia].
Qed.

Lemma log_below (r : Raft) (k : Z) : wf r -> (last r).2 <= k -> filter (fun e => e_seq e < k + 1) (log r) = log r.
Proof.
  intros Hw Hk. rewrite (filter_prefix (base_seq r + 1)) by apply Hw.
  rewrite last_seq_wf in Hk by apply Hw. apply take_ge. lia.
Qed.
End durability.

(** ** Properties *)

(** C2: A crash after a transition was executed loses nothing of the protocol:
    whatever the driver handles short of a snapshot (a message, an election or
    heartbeat tick, a proposal, the compaction that may follow), reopening it
    from the store gives back its epoch, vote, snapshot point and log. *)
Theorem restart_loses_nothing {sqlite : Sqlite} {redb : Redb} {redb_ok : RedbOk} {crypto : Crypto} {hex : Hex}
    {pc_meta : Postcard D1Meta} {pc_meta_ok : PostcardOk D1Meta}
    {pc_entry : Postcard Entry} {pc_entry_ok : PostcardOk Entry} {pc_audit : Postcard DataMutationAudit}
    (env : Env) (d : Driver) (ev : Event) (Hkeep : 0 <= keep_tail env)
    (Hsync : synced d) (Hwf : wf (raft d)) (Hev : event_ok (raft d) ev) :
  let d' := (step env d ev).1 in
  synced d' /\ wf (raft d') /\
  forall grp db lead, exists d'',
    driver_open (me (raft d')) (d_name d') grp (store d') db lead = Ok d'' /\
    log (raft d'') = log (raft d') /\ epoch (raft d'') = epoch (raft d') /\
    voted_for (raft d'') = voted_for (raft d') /\ base_seq (raft d'') = base_seq (raft d') /\
    base_epoch (raft d'') = base_epoch (raft d').
Proof.
  destruct (step_synced env d ev Hkeep Hsync Hwf Hev) as [Hs Hw]. cbv zeta. split_and!; [done..|].
  intros grp db lead. destruct (driver_open_synced _ grp db lead Hs) as (d'' & Ho & Hl & Hm & _).
  exists d''. unfold meta4 in Hm. injection Hm. done.
Qed.

(** After a snapshot was installed a restart brings the replaced log back.
    The snapshot empties the log in memory, but [PersistLog] removes only the
    stored entries above the snapshot: reopened, the member has the old entries
    right after the snapshot point, and takes the first of them for the entry
    that follows the snapshot. *)
Theorem snapshot_restart_revives_old_log {sqlite : Sqlite} {redb : Redb} {redb_ok : RedbOk} {crypto : Crypto}
    {hex : Hex} {pc_meta : Postcard D1Meta} {pc_meta_ok : PostcardOk D1Meta}
    {pc_entry : Postcard Entry} {pc_entry_ok : PostcardOk Entry} {pc_audit : Postcard DataMutationAudit}
    (env : Env) (d : Driver) (from : PublicId) (ep ls le : Z) (data : bytes)
    (Hthreshold : 0 <= compact_threshold env) (Hsync : synced d) (Hwf : wf (raft d))
    (Hep : epoch (raft d) <= ep) (Hnew : applied (raft d) < ls) (Hls : ls < u64_max - 1)
    (Hold : (last (raft d)).2 <= ls) :
  let d' := (step env d (EvNet from (InstallSnapshot ep ls le data))).1 in
  log (raft d') = [] /\ base_seq (raft d') = ls /\
  forall grp db lead, exists d'',
    driver_open (me (raft d')) (d_name d') grp (store d') db lead = Ok d'' /\
    base_seq (raft d'') = ls /\ log (raft d'') = log (raft d) /\
    entry (raft d'') (ls + 1) = head (log (raft d)).
Proof.
  pose proof (wf_applied _ Hwf) as Ha. pose proof (wf_base _ Hwf) as Hb.
  destruct (handle_snapshot_accepted (raft d) from ep ls le data) as (L & B & _ & M & P & E); [done|done|lia|].
  pose proof (handle_wf (raft d) from (InstallSnapshot ep ls le data) Hwf) as [Hwr _]; [simpl; lia|].
  cbn [step]. unfold on_net. destruct (handle (raft d) from _) as [r acts]; cbn [fst snd] in *.
  destruct Hsync as (_ & Hok & Hl).
  destruct (exec_actions_store env acts (set_raft d r) (log (raft d)) Hwr Hok Hl) as (SM & _ & SL).
  { rewrite P. repeat constructor; unfold u64_max, umax in *; lia. }
  destruct (exec_actions_frame env (set_raft d r) acts) as [R N]. unfold execute.
  destruct (exec_actions env (set_raft d r) acts) as [d1 out]; cbn [fst raft d_name set_raft] in *.
  rewrite maybe_compact_empty by (done || by rewrite R). cbv zeta. cbn [fst raft store d_name set_leadership].
  rewrite E in SM. rewrite P in SL. cbn [foldl] in SL. unfold rewrite_log in SL.
  rewrite L, log_below in SL by done. cbn in SL. rewrite app_nil_r in SL.
  rewrite R, N. split_and!; [done..|]. intros grp db lead.
  unfold driver_open. rewrite SM. unfold meta4. rewrite SL. eexists. split; [reflexivity|].
  cbn [raft base_seq log restore]. split_and!; [done..|]. unfold entry. cbn [raft base_seq log restore].
  rewrite B. destruct (Z.leb_spec (ls + 1) ls); [lia|]. replace (Z.to_nat (ls + 1 - ls - 1)) with 0%nat by lia.
  by destruct (log (raft d)).
Qed.

(** Compaction is two store transactions, and a crash between them misplaces
    the log: the stored log is already the compacted one but the stored snapshot
    point is still the old one, so a reopened member takes the first kept entry
    for the one that follows the old point. *)
Theorem compaction_crash_misplaces_log {sqlite : Sqlite} {redb : Redb} {redb_ok : RedbOk}
    {pc_meta : Postcard D1Meta} {pc_meta_ok : PostcardOk D1Meta}
    {pc_entry : Postcard Entry} {pc_entry_ok : PostcardOk Entry}
    (d : Driver) (keep : Z) (r : Raft) (e : Entry) (Hsync : synced d) (Hwf : wf (raft d)) (Hkeep : 0 <= keep)
    (Hcompact : compact (raft d) keep = (r, true)) (Hkept : head (log r) = Some e) :
  let crashed := compact_d1_log (store d) (d_name d) (base_seq r) in
  forall grp db lead, exists d'',
    driver_open (me (raft d)) (d_name d) grp crashed db lead = Ok d'' /\
    base_seq (raft d'') = base_seq (raft d) /\ log (raft d'') = log r /\
    entry (raft d'') (base_seq (raft d) + 1) = Some e /\ base_seq (raft d) + 1 < e_seq e.
Proof.
  pose proof (compact_wf (raft d) keep Hwf Hkeep) as Hwc. rewrite Hcompact in Hwc. cbn [fst] in Hwc.
  destruct Hsync as (Hm & Hok & Hl). pose proof (wf_base _ Hwc). pose proof (wf_applied _ Hwc).
  destruct (compact_load_d1_log (store d) (d_name d) (base_seq r) (log (raft d))) as [_ Hl']; [lia|done..|].
  assert (base_seq (raft d) < base_seq r /\ log r = filter (fun e => base_seq r < e_seq e) (log (raft d)))
    as [Hlt Hlog].
  { unfold compact in Hcompact. destruct (Z.leb_spec (sat_sub (applied (raft d)) keep) (base_seq (raft d))); [done|].
    destruct (entry (raft d) _) as [e0|] eqn:Ee; [|done]. injection Hcompact as <-. cbn [base_seq log set_base] in *.
    split; [done|]. rewrite (list_filter_iff _ (fun e => sat_sub (applied (raft d)) keep + 1 <= e_seq e)) by (intros; lia).
    rewrite (filter_suffix (base_seq (raft d) + 1)) by (apply Hwf || lia). f_equal. lia. }
  intros crashed grp db lead. unfold driver_open, crashed.
  rewrite (load_d1_meta_frame (store d)), Hm by done. unfold meta4. rewrite Hl', <- Hlog. eexists. split; [reflexivity|].
  unfold entry. cbn [raft base_seq log restore].
  destruct (Z.leb_spec (base_seq (raft d) + 1) (base_seq (raft d))); [lia|].
  replace (Z.to_nat (base_seq (raft d) + 1 - base_seq (raft d) - 1)) with 0%nat by lia.
  destruct (log r) as [|x l] eqn:El; [done|]. injection Hkept as ->. split_and!; try done.
  pose proof (wf_log r Hwc 0%nat e) as Hseq. rewrite El in Hseq. rewrite (Hseq eq_refl). lia.
Qed.

(** A database as the list of its writes, for witnesses. *)
Module SampleSqlite.
Definition sqlite : Sqlite := {|
  Json := Z;
  Row := Z;
  Db := list Z * Z;
  readonly := fun _ q => Ok (starts_with "SELECT" q);
  column_count := fun _ _ => 0;
  query_rows := fun db _ _ => Ok (db, db.1);
  raw_execute := fun db _ params => Ok ((db.1 ++ params, db.2), 1);
  marker := fun db => Some db.2;
  set_marker := fun s db => Some (db.1, s);
  in_memory := ([], 0);
  read_file := fun db => Some (db.2 :: db.1);
  open_file := fun b => match b with m :: l => Some (l, m) | [] => None end;
  json_of_cmd := fun '(_, params, _, tag) => tag :: params;
  cmd_of_json := fun b => match b with tag :: params => Some ("INSERT"%string, params, [], tag) | [] => None end
  |}.

Definition audit_codec : Postcard DataMutationAudit :=
  {| to_stdvec := fun _ => []; from_bytes := fun _ => None |}.

Definition node (n : Z) : PublicId := mkPublicId [n].

Definition driver (l : list Entry) (applied : Z) : Driver (sqlite := sqlite) (redb := SampleRedb.redb) :=
  mkDriver (sqlite := sqlite) (redb := SampleRedb.redb) "db"
    (restore (node 1) [node 1; node 2; node 3] 1 (Some (node 2)) 0 0 l applied) ([], applied)
    (put_d1_log (redb := SampleRedb.redb) (pc_entry := SampleCodec.codec Entry)
      (put_d1_meta (redb := SampleRedb.redb) (pc_meta := SampleCodec.codec D1Meta)
        (store_open (redb := SampleRedb.redb)) "db" 1 (Some (node 2)) 0 0) "db" 1 l)
    ∅ ∅ None.

Definition env : Env := mkEnv (fun _ => Some "addr") "01" 9 100 10.

Lemma driver_wf (l : list Entry) (applied : Z) :
  contiguous 1 l -> 0 <= applied < u64_max -> Z.of_nat (length l) < u64_max -> wf (raft (driver l applied)).
Proof. intros Hc Ha Hl. split; simpl; try lia; done. Qed.

Lemma driver_synced (l : list Entry) (applied : Z) :
  contiguous 1 l -> Z.of_nat (length l) < u64_max ->
  synced (sqlite := sqlite) (redb := SampleRedb.redb) (pc_meta := SampleCodec.codec D1Meta)
    (pc_entry := SampleCodec.codec Entry) (driver l applied).
Proof.
  intros Hc Hl.
  set (s0 := put_d1_meta (redb := SampleRedb.redb) (pc_meta := SampleCodec.codec D1Meta)
        (store_open (redb := SampleRedb.redb)) "db" 1 (Some (node 2)) 0 0).
  assert (d1_log_ok (redb := SampleRedb.redb) (pc := SampleCodec.codec Entry) s0 "db") as Hok.
  { intros k v Hg. exfalso. revert Hg. simpl. rewrite lookup_empty. discriminate. }
  assert (in_width 64 1) as H1 by (unfold in_width; lia).
  assert (tail_ok 1 l) as Ht.
  { split; [by apply (contiguous_sorted 1)|]. apply Forall_forall. intros e [i Hi]%list_elem_of_lookup.
    rewrite (Hc i e Hi). apply lookup_lt_Some in Hi. unfold in_width, u64_max, umax in *. lia. }
  split_and!.
  - exact (load_d1_meta_put (redb_ok := SampleRedb.redb_ok) (pc_meta_ok := SampleCodec.codec_ok D1Meta)
      (store_open (redb := SampleRedb.redb)) "db" 1 (Some (node 2)) 0 0).
  - exact (put_d1_log_ok (redb_ok := SampleRedb.redb_ok) s0 "db" 1 l H1 Ht Hok).
  - exact (put_load_d1_log (redb_ok := SampleRedb.redb_ok) (pc_ok := SampleCodec.codec_ok Entry)
      s0 "db" 1 l [] H1 Ht Hok eq_refl).
Qed.
End SampleSqlite.

Lemma restart_loses_nothing_witness :
  let step := step (sqlite := SampleSqlite.sqlite) (redb := SampleRedb.redb) (crypto := Sample.crypto)
    (hex := Sample.hex) (pc_meta := SampleCodec.codec D1Meta) (pc_entry := SampleCodec.codec Entry)
    (pc_audit := SampleSqlite.audit_codec) in
  synced (pc_meta := SampleCodec.codec D1Meta) (pc_entry := SampleCodec.codec Entry)
    (step SampleSqlite.env (SampleSqlite.driver [] 0)
      (EvNet (SampleSqlite.node 2) (Append 1 0 0 [mkEntry 1 1 [7]] 1))).1.
Proof.
  refine (proj1 (restart_loses_nothing (sqlite := SampleSqlite.sqlite) (redb_ok := SampleRedb.redb_ok)
    (crypto := Sample.crypto) (hex := Sample.hex) (pc_meta_ok := SampleCodec.codec_ok D1Meta)
    (pc_entry_ok := SampleCodec.codec_ok Entry) (pc_audit := SampleSqlite.audit_codec)
    SampleSqlite.env (SampleSqlite.driver [] 0)
    (EvNet (SampleSqlite.node 2) (Append 1 0 0 [mkEntry 1 1 [7]] 1)) _ _ _ _)).
  - simpl. lia.
  - apply SampleSqlite.driver_synced; [apply contiguous_nil|simpl; unfold u64_max, umax; lia].
  - apply SampleSqlite.driver_wf; [apply contiguous_nil|unfold u64_max, umax; lia|simpl; unfold u64_max, umax; lia].
  - split; [|vm_compute; reflexivity]. simpl. split_and!; try (unfold u64_max, umax; lia).
    apply contiguous_cons. split; [done|apply contiguous_nil].
Defined.

Lemma snapshot_restart_revives_old_log_witness :
  log (raft (step (sqlite := SampleSqlite.sqlite) (redb := SampleRedb.redb) (crypto := Sample.crypto)
    (hex := Sample.hex) (pc_meta := SampleCodec.codec D1Meta) (pc_entry := SampleCodec.codec Entry)
    (pc_audit := SampleSqlite.audit_codec) SampleSqlite.env (SampleSqlite.driver [mkEntry 1 1 [7]] 1)
    (EvNet (SampleSqlite.node 2) (InstallSnapshot 1 5 1 [5; 7]))).1) = [].
Proof.
  refine (proj1 (snapshot_restart_revives_old_log (sqlite := SampleSqlite.sqlite) (redb_ok := SampleRedb.redb_ok)
    (crypto := Sample.crypto) (hex := Sample.hex) (pc_meta_ok := SampleCodec.codec_ok D1Meta)
    (pc_entry_ok := SampleCodec.codec_ok Entry) (pc_audit := SampleSqlite.audit_codec)
    SampleSqlite.env (SampleSqlite.driver [mkEntry 1 1 [7]] 1) (SampleSqlite.node 2) 1 5 1 [5; 7] _ _ _ _ _ _ _)).
  - simpl. lia.
  - apply SampleSqlite.driver_synced; [|simpl; unfold u64_max, umax; lia].
    apply contiguous_cons. split; [done|apply contiguous_nil].
  - apply SampleSqlite.driver_wf; [|unfold u64_max, umax; lia|simpl; unfold u64_max, umax; lia].
    apply contiguous_cons. split; [done|apply contiguous_nil].
  - simpl. lia.
  - simpl. lia.
  - unfold u64_max, umax. lia.
  - simpl. lia.
Defined.

(** What the member does next.  It had applied the command [7] before a snapshot
    up to 5 replaced its log; the leader appends [8] and [9] as entries 6 and 7.
    Had it not restarted it applies both.  Restored from what the snapshot left
    in the store it applies [7] again and [9], and never [8]. *)
Definition after_snapshot (revived : list Entry) : list bytes :=
  let n := SampleSqlite.node in
  e_cmd <$> applies (handle (restore (n 1) [n 1; n 2; n 3] 1 (Some (n 2)) 5 1 revived 5) (n 2)
    (Append 1 5 1 [mkEntry 1 6 [8]; mkEntry 1 7 [9]] 7)).2.


Lemma compaction_crash_misplaces_log_witness :
  let es := [mkEntry 1 1 [7]; mkEntry 1 2 [8]; mkEntry 1 3 [9]] in
  let d := SampleSqlite.driver es 3 in
  exists d'' : Driver (sqlite := SampleSqlite.sqlite) (redb := SampleRedb.redb),
    driver_open (pc_meta := SampleCodec.codec D1Meta) (pc_entry := SampleCodec.codec Entry)
      (me (raft d)) (d_name d) [] (compact_d1_log (store d) (d_name d) 2) (sql d) None = Ok d'' /\
    base_seq (raft d'') = base_seq (raft d) /\ log (raft d'') = [mkEntry 1 3 [9]] /\
    entry (raft d'') (base_seq (raft d) + 1) = Some (mkEntry 1 3 [9]) /\ base_seq (raft d) + 1 < 3.
Proof.
  set (es := [mkEntry 1 1 [7]; mkEntry 1 2 [8]; mkEntry 1 3 [9]]).
  assert (contiguous 1 es) as Hes.
  { repeat (apply contiguous_cons; split; [done|]). apply contiguous_nil. }
  refine (compaction_crash_misplaces_log (sqlite := SampleSqlite.sqlite) (redb_ok := SampleRedb.redb_ok)
    (pc_meta_ok := SampleCodec.codec_ok D1Meta) (pc_entry_ok := SampleCodec.codec_ok Entry)
    (SampleSqlite.driver es 3) 1 (compact (raft (SampleSqlite.driver es 3)) 1).1 (mkEntry 1 3 [9]) _ _ _ _ _ [] (sql (SampleSqlite.driver es 3)) None).
  - apply SampleSqlite.driver_synced; [done|simpl; unfold u64_max, umax; lia].
  - apply SampleSqlite.driver_wf; [done|unfold u64_max, umax; lia|simpl; unfold u64_max, umax; lia].
  - lia.
  - reflexivity.
  - reflexivity.
Defined.
