(* ===== verification/QuorumNet.v ===== *)
(** * QuorumNet: a replica group of D1 drivers (crates/rf-core/src/quorum.rs, crates/rf/src/d1.rs)

    The drivers of one database on the members of its group, the messages they
    sent and the votes they stored.  A step is one driver handling one event to
    the end, or handling a prefix of its actions, crashing and being reopened
    from its store.  A message once sent can be delivered any number of times,
    in any order, or never.  On top of it: at most one leader per epoch, over the
    whole history of the group, and what that does not give. *)

From Stdlib Require Import ZArith Lia Ascii.
From stdpp Require Import prelude gmap sorting strings list relations.
From S2P Require Import Prelude Text Hlc Identity Envelope Kv Quorum DataAudit Observability Store D1.
Open Scope Z_scope.

Section group.
Context {sqlite : Sqlite} {redb : Redb} {redb_ok : RedbOk} {crypto : Crypto} {hex : Hex}.
Context {pc_meta : Postcard D1Meta} {pc_meta_ok : PostcardOk D1Meta}.
Context {pc_entry : Postcard Entry} {pc_audit : Postcard DataMutationAudit}.
Context (name : string) (grp : list PublicId).

(** A message as (sender, receiver, content); a vote as (voter, epoch, candidate). *)
Record Cluster := mkCluster {
  nodes : gmap PublicId Driver;
  net : list (PublicId * PublicId * Msg);
  ballots : list (PublicId * Z * PublicId)
  }.

(** The Raft half of [step]: the state and the actions the driver executes. *)
Definition raft_event (d : Driver) (ev : Event) : option (Raft * list Action) :=
  match ev with
  | EvNet from m => Some (handle (raft d) from m)
  | EvElection => Some (tick_election (raft d))
  | EvHeartbeat => Some (raft d, heartbeat (raft d))
  | EvPropose c _ =>
      match propose (raft d) (encode_cmd c) with
      | (r, Ok (_, acts)) => Some (r, acts)
      | (_, Err _) => None
      end
  end.

Definition sent (p : PublicId) (outs : list Out) : list (PublicId * PublicId * Msg) :=
  omap (fun o => match o with Net to m => Some (p, to, m) | Reply _ _ => None end) outs.

(** The vote in the store of [d]. *)
Definition stored_vote (p : PublicId) (d : Driver) : list (PublicId * Z * PublicId) :=
  match load_d1_meta (store d) (d_name d) with
  | Ok (ep, Some v, _, _) => [(p, ep, v)]
  | _ => []
  end.

(** An event that can happen: a message was sent to us, and no epoch is the last
  one a [u64] can hold. *)
Definition enabled (c : Cluster) (p : PublicId) (d : Driver) (ev : Event) : Prop :=
  match ev with
  | EvNet from m => (from, p, m) ∈ net c
  | EvElection => 0 <= epoch (raft d) < u64_max
  | _ => True
  end.

Definition update (c : Cluster) (p : PublicId) (d' : Driver) (outs : list Out) : Cluster :=
  mkCluster (<[p := d']> (nodes c)) (net c ++ sent p outs) (ballots c ++ stored_vote p d').

Inductive cstep : Cluster -> Cluster -> Prop :=
| cs_event (c : Cluster) (p : PublicId) (d : Driver) (env : Env) (ev : Event) :
  nodes c !! p = Some d -> enabled c p d ev ->
  cstep c (update c p (step env d ev).1 (step env d ev).2)
| cs_crash (c : Cluster) (p : PublicId) (d d' : Driver) (env : Env) (ev : Event) (r : Raft) (acts : list Action)
  (k : nat) (db : Db) (lead : option PublicId) :
  nodes c !! p = Some d -> enabled c p d ev -> raft_event d ev = Some (r, acts) ->
  driver_open p name grp (store (exec_actions env (set_raft d r) (take k acts)).1) db lead = Ok d' ->
  cstep c (update c p d' (exec_actions env (set_raft d r) (take k acts)).2).

(** A new group: every member opened on an empty store. *)
Definition initial (c : Cluster) : Prop :=
  net c = [] /\ ballots c = [] /\
  forall p d, nodes c !! p = Some d ->
    p ∈ grp /\ exists db lead, driver_open p name grp store_open db lead = Ok d.

Definition leads (c : Cluster) (p : PublicId) (ep : Z) : Prop :=
  exists d, nodes c !! p = Some d /\ is_leader (raft d) = true /\ epoch (raft d) = ep.

(** ** One driver's step *)

(** The stored epoch and vote. *)
Definition disk (d : Driver) (m : Z * option PublicId) : Prop :=
  exists bs be, load_d1_meta (store d) (d_name d) = Ok (m, bs, be).

Lemma exec_action_meta env (d : Driver) a :
  load_d1_meta (store (exec_action env d a).1) (d_name d) =
    (if is_persist_meta a then Ok (meta4 (raft d)) else load_d1_meta (store d) (d_name d)).
Proof.
  destruct a; cbn [exec_action is_persist_meta]; try done.
  - apply load_d1_meta_put.
  - destruct (apply_frame env d e) as (_ & _ & Hm & _). by apply load_d1_meta_frame.
  - destruct (install_snapshot_frame d seq data) as (_ & _ & Hs). cbn [fst]. by rewrite Hs.
  - destruct (read_file (sql d)); [|done]. by destruct (snapshot_point (raft d)).
Qed.

Lemma exec_actions_meta env acts (d : Driver) :
  load_d1_meta (store (exec_actions env d acts).1) (d_name d) =
    (if existsb is_persist_meta acts then Ok (meta4 (raft d)) else load_d1_meta (store d) (d_name d)).
Proof.
  revert d. induction acts as [|a acts IH]; intros d; [done|]. cbn [exec_actions existsb].
  pose proof (exec_action_meta env d a) as H1. destruct (exec_action_frame env d a) as [R N].
  destruct (exec_action env d a) as [d1 out]; cbn [fst] in *. specialize (IH d1). rewrite R, N in IH.
  destruct (exec_actions env d1 acts) as [d2 out']; cbn [fst] in *. rewrite IH, H1.
  by destruct (is_persist_meta a), (existsb is_persist_meta acts).
Qed.

Lemma exec_actions_sent env acts (d : Driver) to m :
  Net to m ∈ (exec_actions env d acts).2 ->
  Send to m ∈ acts \/ exists ep ls le data, m = InstallSnapshot ep ls le data /\ NeedSnapshot to ∈ acts.
Proof.
  revert d. induction acts as [|a acts IH]; intros d; cbn [exec_actions]; [set_solver|].
  assert (Net to m ∈ (exec_action env d a).2 ->
    a = Send to m \/ exists ep ls le data, m = InstallSnapshot ep ls le data /\ a = NeedSnapshot to) as Ha.
  { destruct a as [| |to' m'|e|s data|to'| |]; cbn [exec_action snd]; try set_solver.
    - destruct (api_addr env to'); set_solver.
    - unfold apply. destruct (apply_tx (sql d) e) as [[? [? ?]]|]; repeat case_match; set_solver.
    - destruct (read_file (sql d)); [|set_solver]. destruct (snapshot_point (raft d)) as [ls le].
      destruct (api_addr env to'); [|set_solver]. cbn [snd]. intros Hin%list_elem_of_singleton.
      injection Hin as -> ->. right. eauto 10. }
  destruct (exec_action env d a) as [d1 out]; cbn [snd] in *. specialize (IH d1).
  destruct (exec_actions env d1 acts) as [d2 out']; cbn [snd] in *.
  rewrite elem_of_app. intros [H|H].
  - destruct (Ha H) as [->|(? & ? & ? & ? & ? & ->)]; [left|right]; set_solver.
  - destruct (IH H) as [?|(? & ? & ? & ? & ? & ?)]; [left|right]; set_solver.
Qed.

(** A member that leads or stands, and how it got there with event [ev]. *)
Definition role_event (r : Raft) (ev : Event) (r' : Raft) : Prop :=
  role r' = Follower \/ (role r' = role r /\ epoch r' = epoch r) \/
  (exists from m, ev = EvNet from m /\ role_from r from m r') \/
  (voted_for r' = Some (me r) /\
   (role r' = Candidate [me r] \/ is_leader r' = true /\ (majority r <= 1)%nat)).

(** What an election needs to know of a Raft transition. *)
Definition vote_event (r : Raft) (ev : Event) (o : Raft * list Action) : Prop :=
  persists r o /\ grants o.1 o.2 /\ me o.1 = me r /\ group o.1 = group r /\ role_event r ev o.1.

Lemma vote_event_same (r : Raft) ev (r' : Raft) (acts : list Action) :
  meta r' = meta r -> me r' = me r -> group r' = group r -> role r' = role r -> grants r' acts ->
  vote_event r ev (r', acts).
Proof.
  intros Hm. injection Hm as He Hv. intros. split_and!; try done; [|by right; left].
  apply persists_same. unfold meta. by rewrite He, Hv.
Qed.

Lemma raft_event_votes (d : Driver) ev o :
  (ev = EvElection -> 0 <= epoch (raft d) < u64_max) ->
  raft_event d ev = Some o -> vote_event (raft d) ev o.
Proof.
  intros He. destruct ev as [from m| | |c resp]; cbn [raft_event].
  - intros [= <-]. destruct (handle_step (raft d) from m) as (? & ? & ? & ? & ?). split_and!; try done.
    right. right. left. eauto.
  - intros [= <-]. destruct (is_leader (raft d)) eqn:El.
    + unfold tick_election. rewrite El. apply vote_event_same; try done. apply grants_nil.
    + destruct (tick_election_step (raft d) (He eq_refl) El) as (? & Hm & ? & ? & ? & ?). split_and!; try done.
      right. right. right. injection Hm as _ ->. done.
  - intros [= <-]. apply vote_event_same; try done. unfold heartbeat.
    destruct (is_leader (raft d)); [apply grants_replicate|apply grants_nil].
  - unfold propose. destruct (negb _); [done|]. set (r1 := set_log _ _).
    destruct (advance_commit_meta r1) as (Hm & Hr & Hme & Hg).
    pose proof (fun x => grants_advance x r1) as Ha.
    destruct (advance_commit r1) as [r2 acts]; cbn [fst snd] in *. intros [= <-]. apply vote_event_same; try done.
    apply (grants_app _ [_]); [by apply grants_one|]. apply grants_app; [apply grants_replicate|apply Ha].
Qed.

(** What a step, finished or crashed, does to a driver: the stored vote is the
  member's, it only moves forward, and a vote that was sent is in the store. *)
Definition driver_step (d : Driver) (ev : Event) (d' : Driver) (outs : list Out) : Prop :=
  disk d' (meta (raft d')) /\ meta_le (meta (raft d)) (meta (raft d')) /\
  (forall to ep, Net to (VoteResp ep true) ∈ outs -> meta (raft d') = (ep, Some to)) /\
  me (raft d') = me (raft d) /\ group (raft d') = group (raft d) /\ d_name d' = d_name d /\
  role_event (raft d) ev (raft d').

Lemma disk_meta4 (d : Driver) r :
  load_d1_meta (store d) (d_name d) = Ok (meta4 r) -> disk d (meta r).
Proof. intros H. exists (base_seq r), (base_epoch r). exact H. Qed.

Lemma sent_votes env (d : Driver) r acts to ep :
  grants r acts -> Net to (VoteResp ep true) ∈ (exec_actions env (set_raft d r) acts).2 -> meta r = (ep, Some to).
Proof. intros Hg [H|(? & ? & ? & ? & ? & _)]%exec_actions_sent; [by apply Hg|done]. Qed.

(** The store after executing [acts]: the new vote, or the old one when nothing
  was persisted. *)
Lemma exec_actions_disk env (d : Driver) r acts :
  disk d (meta (raft d)) ->
  disk (exec_actions env (set_raft d r) acts).1
    (if existsb is_persist_meta acts then meta r else meta (raft d)).
Proof.
  intros (bs & be & Hd). pose proof (exec_actions_meta env acts (set_raft d r)) as H.
  destruct (exec_actions_frame env (set_raft d r) acts) as [_ N]. unfold disk. rewrite N.
  cbn [d_name raft store set_raft] in *. rewrite H. destruct (existsb _ _); [|by exists bs, be].
  by exists (base_seq r), (base_epoch r).
Qed.

Lemma persists_existsb (r r' : Raft) acts :
  persists r (r', acts) -> (if existsb is_persist_meta acts then meta r' else meta r) = meta r'.
Proof.
  intros [_ Hp]. destruct (existsb is_persist_meta acts) eqn:Ex; [done|].
  destruct (decide (meta r' = meta r)) as [|Hne]; [done|]. apply Hp, before_sends_elem in Hne. cbn [snd] in Hne.
  assert (existsb is_persist_meta acts = true); [|congruence].
  apply existsb_exists. exists PersistMeta. split; [by apply list_elem_of_In|done].
Qed.

Lemma maybe_compact_disk env (d : Driver) :
  let d' := maybe_compact env d in
  disk d (meta (raft d)) ->
  disk d' (meta (raft d')) /\ meta (raft d') = meta (raft d) /\ me (raft d') = me (raft d) /\
  group (raft d') = group (raft d) /\ role (raft d') = role (raft d) /\ d_name d' = d_name d.
Proof.
  unfold maybe_compact. intros Hd. destruct (compact_settings env d) as [threshold keep].
  destruct (_ <=? threshold)%Z; [by split_and!|]. unfold compact. destruct (_ <=? _)%Z; [by split_and!|].
  destruct (entry (raft d) _); [|by split_and!]. split_and!; try done. apply disk_meta4.
  unfold put_meta. apply load_d1_meta_put.
Qed.

Lemma role_event_ext (r : Raft) ev (r1 r2 : Raft) :
  role r2 = role r1 -> meta r2 = meta r1 -> role_event r ev r1 -> role_event r ev r2.
Proof.
  intros Hr Hm. injection Hm as He Hv. unfold role_event, role_from, is_leader. by rewrite Hr, He, Hv.
Qed.

Lemma execute_driver_step env (d : Driver) ev r acts :
  disk d (meta (raft d)) -> vote_event (raft d) ev (r, acts) ->
  driver_step d ev (execute env (set_raft d r) acts).1 (execute env (set_raft d r) acts).2.
Proof.
  intros Hd (Hp & Hg & Hme & Hgr & Hro). pose proof (exec_actions_disk env d r acts Hd) as Hd1.
  rewrite (persists_existsb _ _ _ Hp) in Hd1. pose proof (sent_votes env d r acts) as Hs.
  destruct (exec_actions_frame env (set_raft d r) acts) as [R N]. unfold execute.
  destruct (exec_actions env (set_raft d r) acts) as [d1 outs]; cbn [fst snd raft d_name set_raft] in *.
  pose proof (maybe_compact_disk env d1) as Hc. rewrite R in Hc. cbv zeta in Hc.
  destruct (Hc Hd1) as (D2 & M2 & E2 & G2 & O2 & N2). unfold driver_step. cbn [fst snd raft d_name set_leadership].
  split_and!; try congruence.
  - exact D2.
  - rewrite M2. apply Hp.
  - intros to ep Hin. rewrite M2. by apply Hs.
  - by apply (role_event_ext _ _ r).
Qed.

Lemma step_driver_step env (d : Driver) ev :
  (ev = EvElection -> 0 <= epoch (raft d) < u64_max) -> disk d (meta (raft d)) ->
  driver_step d ev (step env d ev).1 (step env d ev).2.
Proof.
  intros He Hd. pose proof (raft_event_votes d ev) as Hv. destruct ev as [from m| | |c resp]; cbn [step raft_event] in *.
  - unfold on_net. destruct (handle (raft d) from m) as [r acts]. by apply execute_driver_step, Hv.
  - unfold on_election_timeout. destruct (tick_election (raft d)) as [r acts]. by apply execute_driver_step, Hv.
  - unfold on_heartbeat. rewrite <- (set_raft_same d) at 2 4. by apply execute_driver_step, Hv.
  - unfold driver_propose. destruct (propose (raft d) (encode_cmd c)) as [r [[seq acts]|err]].
    + set (d1 := set_waiting d (<[cmd_tag c := resp]> (pending d)) (<[seq := cmd_tag c]> (my_entries d))).
      change (set_waiting (set_raft d r) _ _) with (set_raft d1 r).
      apply (execute_driver_step env d1); [exact Hd|]. by apply (Hv (r, acts)).
    + unfold driver_step. split_and!; try done; [apply meta_le_refl| |by right; left].
      intros to ep Hin%list_elem_of_singleton. done.
Qed.

Lemma take_persist (acts : list Action) (k : nat) a :
  PersistMeta ∈ before_sends acts -> a ∈ take k acts -> is_send a = true -> PersistMeta ∈ take k acts.
Proof.
  revert k. induction acts as [|x acts IH]; intros [|k]; cbn [before_sends take]; try set_solver.
  destruct (is_send x) eqn:Ex; [set_solver|]. rewrite !elem_of_cons.
  intros [->|Hp] [->|Ha] Hs; auto; congruence.
Qed.

Lemma grants_take (r : Raft) acts k : grants r acts -> grants r (take k acts).
Proof. intros Hg to ep Hin. apply Hg. rewrite <- (take_drop k acts). set_solver. Qed.

Lemma crash_driver_step env (d d' : Driver) ev r acts k db lead p :
  (ev = EvElection -> 0 <= epoch (raft d) < u64_max) -> disk d (meta (raft d)) ->
  me (raft d) = p -> group (raft d) = Quorum.group (new p grp) -> d_name d = name ->
  raft_event d ev = Some (r, acts) ->
  driver_open p name grp (store (exec_actions env (set_raft d r) (take k acts)).1) db lead = Ok d' ->
  driver_step d ev d' (exec_actions env (set_raft d r) (take k acts)).2.
Proof.
  intros He Hd Hme Hgr Hn Hev Hopen. destruct (raft_event_votes d ev _ He Hev) as ([Hle Hp] & Hg & _ & _ & _).
  pose proof (exec_actions_disk env d r (take k acts) Hd) as (bs & be & Hd1).
  destruct (exec_actions_frame env (set_raft d r) (take k acts)) as [R N].
  rewrite N in Hd1. cbn [d_name set_raft] in Hd1. rewrite Hn in Hd1. unfold driver_open in Hopen.
  rewrite Hd1 in Hopen. set (m := if existsb _ _ then _ else _) in *. rewrite (surjective_pairing m) in Hopen.
  destruct (load_d1_log _ name) as [l|err]; [|done]. injection Hopen as <-.
  unfold driver_step. cbn [raft d_name store restore].
  assert (meta (restore p grp m.1 m.2 bs be l (default 0 (marker db))) = m) as -> by (symmetry; apply surjective_pairing).
  split_and!; try done.
  - exists bs, be. exact Hd1.
  - unfold m. destruct (existsb _ _); [exact Hle|apply meta_le_refl].
  - intros to ep Hin. assert (meta r = (ep, Some to)) as Hm by (eapply sent_votes; [by apply grants_take|done]).
    rewrite <- Hm. unfold m. destruct (existsb is_persist_meta (take k acts)) eqn:Ex; [done|].
    destruct (decide (meta r = meta (raft d))) as [|Hne]; [done|].
    assert (existsb is_persist_meta (take k acts) = true); [|congruence].
    apply existsb_exists. exists PersistMeta. split; [|done]. apply list_elem_of_In.
    apply exec_actions_sent in Hin as [Hin|(? & ? & ? & ? & ? & _)]; [|done].
    by eapply take_persist; [apply (Hp Hne)|exact Hin|].
  - by left.
Qed.

(** ** The invariant of the group *)

(** A quorum of stored votes for [p] in [ep]. *)
Definition quorum_for (bs : list (PublicId * Z * PublicId)) (p : PublicId) (ep : Z) (votes : list PublicId) : Prop :=
  NoDup votes /\ forall v, v ∈ votes -> (v, ep, p) ∈ bs.

Definition role_backed (bs : list (PublicId * Z * PublicId)) (p : PublicId) (r : Raft) : Prop :=
  match role r with
  | Follower => True
  | Candidate votes => quorum_for bs p (epoch r) votes
  | Leader _ _ => exists votes, quorum_for bs p (epoch r) votes /\ (majority r <= length votes)%nat
  end.

Record node_inv (bs : list (PublicId * Z * PublicId)) (p : PublicId) (d : Driver) : Prop := mk_node_inv {
  ni_member : p ∈ grp;
  ni_me : me (raft d) = p;
  ni_group : group (raft d) = group (new p grp);
  ni_name : d_name d = name;
  ni_disk : disk d (meta (raft d));
  ni_voted : forall v, voted_for (raft d) = Some v -> (p, epoch (raft d), v) ∈ bs;
  ni_role : role_backed bs p (raft d)
  }.

Record inv (c : Cluster) : Prop := mk_inv {
  inv_nodes : forall p d, nodes c !! p = Some d -> node_inv (ballots c) p d;
  inv_ballots : forall p ep v, (p, ep, v) ∈ ballots c ->
    exists d, nodes c !! p = Some d /\ meta_le (ep, Some v) (meta (raft d));
  inv_once : forall p ep v v', (p, ep, v) ∈ ballots c -> (p, ep, v') ∈ ballots c -> v = v';
  inv_net : forall from to ep, (from, to, VoteResp ep true) ∈ net c -> (from, ep, to) ∈ ballots c
  }.

Lemma quorum_for_mono bs bs' p ep votes : bs ⊆ bs' -> quorum_for bs p ep votes -> quorum_for bs' p ep votes.
Proof. intros Hs [Hn Hv]. split; [done|]. intros v Hin. by apply Hs, Hv. Qed.

Lemma role_backed_mono bs bs' p r : bs ⊆ bs' -> role_backed bs p r -> role_backed bs' p r.
Proof.
  intros Hs. unfold role_backed. destruct (role r); [done|by apply quorum_for_mono|].
  intros (votes & Hq & Hl). exists votes. split; [by eapply quorum_for_mono|done].
Qed.

Lemma node_inv_mono bs bs' p d : bs ⊆ bs' -> node_inv bs p d -> node_inv bs' p d.
Proof.
  intros Hs []. split; try done; [|by eapply role_backed_mono]. intros v Hv. apply Hs. auto.
Qed.

Lemma gains_backed bs p ep votes from m votes' :
  (m = VoteResp ep true -> (from, ep, p) ∈ bs) -> gains votes from m ep votes' ->
  quorum_for bs p ep votes -> quorum_for bs p ep votes'.
Proof.
  intros Hm [->|(-> & Hnew & Heq)] [Hn Hv]; [done|]. split.
  - apply NoDup_app. split_and!; [done| |apply NoDup_singleton].
    intros x Hx Hin%list_elem_of_singleton. by subst.
  - intros v [?|Hin%list_elem_of_singleton]%elem_of_app; [by apply Hv|]. subst v. by apply Hm.
Qed.

(** A role reached in a step is backed by stored votes. *)
Lemma role_event_backed bs bs' p (r : Raft) ev (r' : Raft) :
  me r = p -> group r' = group r -> bs ⊆ bs' -> role_backed bs p r ->
  (forall v, voted_for r' = Some v -> (p, epoch r', v) ∈ bs') ->
  (forall from ep, ev = EvNet from (VoteResp ep true) -> (from, ep, p) ∈ bs) ->
  role_event r ev r' -> role_backed bs' p r'.
Proof.
  intros Hme Hg Hsub Hr Hv Hev. apply (role_backed_mono bs bs') in Hr; [|done].
  assert (majority r' = majority r) as Hmaj by (unfold majority; by rewrite Hg).
  intros [Hf|[[Hro He]|[(from & m & -> & Hrf)|[Hvote Hel]]]].
  - unfold role_backed. by rewrite Hf.
  - unfold role_backed in *. by rewrite Hro, He, Hmaj.
  - assert (forall votes votes', gains votes from m (epoch r) votes' -> quorum_for bs' p (epoch r) votes ->
      quorum_for bs' p (epoch r) votes') as Hgain.
    { intros votes votes' Hga. apply (gains_backed bs' p _ votes from m); [|done]. intros ->. by apply Hsub, Hev. }
    unfold role_from in Hrf. unfold role_backed in *. unfold is_leader in Hrf. destruct (role r') as [|votes'|]; [done|..].
    + destruct Hrf as (-> & votes & Hrole & Hga). rewrite Hrole in Hr. by apply (Hgain votes).
    + destruct Hrf as (-> & [Hl|(votes & votes' & Hrole & Hga & Hlen)]).
      * rewrite Hmaj. by destruct (role r).
      * rewrite Hrole in Hr. exists votes'. rewrite Hmaj. split; [by apply (Hgain votes)|done].
  - assert (quorum_for bs' p (epoch r') [p]) as Hq.
    { split; [apply NoDup_singleton|]. intros v Hin%list_elem_of_singleton. subst. by apply Hv. }
    unfold role_backed, is_leader in *. rewrite Hme in *. destruct Hel as [->|[Hl Hm]]; [done|].
    destruct (role r'); [done..|]. exists [p]. rewrite Hmaj. done.
Qed.

Lemma stored_vote_disk p (d : Driver) q ep v :
  disk d (meta (raft d)) -> (q, ep, v) ∈ stored_vote p d <-> q = p /\ meta (raft d) = (ep, Some v).
Proof.
  intros (bs & be & Hd). unfold stored_vote. rewrite Hd. unfold meta.
  destruct (voted_for (raft d)) as [w|]; [rewrite list_elem_of_singleton|rewrite elem_of_nil];
    split; [|intros [? ?]|..]; naive_solver.
Qed.

Lemma sent_elem p outs from to m : (from, to, m) ∈ sent p outs <-> from = p /\ Net to m ∈ outs.
Proof.
  unfold sent. rewrite list_elem_of_omap. split.
  - intros ([to' m'|] & Hin & Heq); [|done]. by injection Heq as -> -> ->.
  - intros [-> Hin]. eexists. by split; [exact Hin|].
Qed.

Lemma meta_le_vote ep v v' m : meta_le (ep, Some v) m -> meta_le m (ep, Some v') -> v = v'.
Proof. unfold meta_le. destruct m as [e w]; simpl. intros [?|[? [?|?]]] [?|[? [?|?]]]; try lia; congruence. Qed.

Lemma update_inv c p (d d' : Driver) ev outs :
  inv c -> nodes c !! p = Some d -> enabled c p d ev -> driver_step d ev d' outs -> inv (update c p d' outs).
Proof.
  intros Hi Hp He (Hd & Hle & Hvotes & Hme & Hgr & Hn & Hro).
  pose proof (inv_nodes c Hi p d Hp) as Hni.
  assert (ballots c ⊆ ballots (update c p d' outs)) as Hsub by (simpl; set_solver).
  assert (forall v, voted_for (raft d') = Some v -> (p, epoch (raft d'), v) ∈ ballots (update c p d' outs)) as Hv.
  { intros v Hv. apply elem_of_app. right. apply stored_vote_disk; [done|]. unfold meta. by rewrite Hv. }
  split.
  - intros q dq. cbn [nodes update]. intros [[<- <-]|[Hne Hq]]%lookup_insert_Some.
    + destruct Hni. split; try congruence; [exact Hv|].
      eapply (role_event_backed (ballots c) _ p (raft d) ev); try done.
      intros from ep ->. by apply (inv_net c Hi).
    + eapply node_inv_mono; [exact Hsub|]. by apply (inv_nodes c Hi).
  - intros q ep v. cbn [nodes ballots update]. rewrite elem_of_app, stored_vote_disk by done.
    intros [Hb|[-> Hm]].
    + destruct (inv_ballots c Hi q ep v Hb) as (dq & Hq & Hm). destruct (decide (q = p)) as [->|Hne].
      * exists d'. rewrite lookup_insert_eq. split; [done|]. replace dq with d in Hm by congruence.
        by eapply meta_le_trans.
      * exists dq. by rewrite lookup_insert_ne.
    + exists d'. rewrite lookup_insert_eq. split; [done|]. rewrite Hm. apply meta_le_refl.
  - assert (forall q ep v v', (q, ep, v) ∈ ballots c -> (q, ep, v') ∈ stored_vote p d' -> v = v') as Hold.
    { intros q ep v v' Hb [-> Hm]%stored_vote_disk; [|done].
      destruct (inv_ballots c Hi p ep v Hb) as (dq & Hq & Hm'). replace dq with d in Hm' by congruence.
      apply (meta_le_vote ep v v' (meta (raft d))); [done|]. by rewrite <- Hm. }
    intros q ep v v'. cbn [ballots update]. rewrite !elem_of_app. intros [H1|H1] [H2|H2].
    + by eapply (inv_once c Hi).
    + by eapply Hold.
    + symmetry. by eapply Hold.
    + apply stored_vote_disk in H1 as [_ H1]; [|done]. apply stored_vote_disk in H2 as [_ H2]; [|done]. congruence.
  - intros from to ep. cbn [net ballots update]. rewrite !elem_of_app, sent_elem. intros [H|[-> H]].
    + left. by apply (inv_net c Hi).
    + right. apply stored_vote_disk; [done|]. split; [done|]. by apply Hvotes.
Qed.

Lemma cstep_inv c c' : inv c -> cstep c c' -> inv c'.
Proof.
  intros Hi Hs. destruct Hs as [c p d env ev Hp He|c p d d' env ev r acts k db lead Hp He Hev Hopen];
    destruct (inv_nodes c Hi p d Hp);
    assert (ev = EvElection -> 0 <= epoch (raft d) < u64_max) by (by intros ->).
  - by eapply update_inv, step_driver_step.
  - eapply update_inv; [done..|]. by eapply crash_driver_step.
Qed.

Lemma cstep_grows c c' : cstep c c' -> ballots c ⊆ ballots c'.
Proof. intros []; simpl; set_solver. Qed.

Lemma initial_inv c : initial c -> inv c.
Proof.
  intros (Hn & Hb & Hnodes). split; rewrite ?Hb, ?Hn; try set_solver.
  intros p d Hp. destruct (Hnodes p d Hp) as (Hm & db & lead & Hopen). unfold driver_open in Hopen.
  assert (load_d1_meta store_open name = Ok (0, None, 0, 0)) as Hmeta.
  { unfold load_d1_meta, store_open. cbn. by rewrite t_get_new. }
  rewrite Hmeta in Hopen. destruct (load_d1_log _ _) as [l|]; [|done]. injection Hopen as <-.
  split; try done. by exists 0, 0.
Qed.

Lemma reach_inv c c' : inv c -> rtc cstep c c' -> inv c' /\ ballots c ⊆ ballots c'.
Proof.
  intros Hi Hr. induction Hr as [c|c1 c2 c3 H12 Hr IH]; [done|].
  destruct (IH (cstep_inv _ _ Hi H12)) as [Hi' Hsub]. split; [done|].
  etrans; [by apply cstep_grows|done].
Qed.

(** ** Quorums intersect *)

Lemma group_perm p : p ∈ grp -> group (new p grp) ≡ₚ grp.
Proof. intros Hp. simpl. rewrite bool_decide_true by done. apply merge_sort_Permutation. Qed.

Lemma quorums_intersect (l1 l2 : list PublicId) :
  NoDup grp -> NoDup l1 -> NoDup l2 -> l1 ⊆ grp -> l2 ⊆ grp ->
  (length grp / 2 + 1 <= length l1)%nat -> (length grp / 2 + 1 <= length l2)%nat ->
  exists v, v ∈ l1 /\ v ∈ l2.
Proof.
  intros Hg H1 H2 S1 S2 L1 L2. destruct (list_filter (fun v => v ∈ l2) _ l1) as [|v l] eqn:E.
  - assert (length (l1 ++ l2) <= length grp)%nat as Hlen.
    { apply submseteq_length, NoDup_submseteq.
      - apply NoDup_app. split_and!; [done| |done]. intros x Hx1 Hx2.
        assert (x ∈ filter (fun v => v ∈ l2) l1) as Hx by (by apply list_elem_of_filter).
        unfold filter in Hx. rewrite E in Hx. by apply elem_of_nil in Hx.
      - set_solver. }
    rewrite length_app in Hlen. pose proof (Nat.div_mod_eq (length grp) 2).
    pose proof (Nat.mod_upper_bound (length grp) 2). lia.
  - exists v. assert (v ∈ filter (fun v => v ∈ l2) l1) as Hv by (unfold filter; rewrite E; set_solver).
    apply list_elem_of_filter in Hv. tauto.
Qed.

(** A leader has a majority of stored votes, and keeps it. *)
Lemma leads_quorum c p ep : inv c -> leads c p ep ->
  exists votes, quorum_for (ballots c) p ep votes /\ votes ⊆ grp /\ (length grp / 2 + 1 <= length votes)%nat.
Proof.
  intros Hi (d & Hp & Hl & <-). destruct (inv_nodes c Hi p d Hp) as [Hm _ Hg _ _ _ Hr].
  unfold role_backed, is_leader in *. destruct (role (raft d)); [done..|].
  destruct Hr as (votes & Hq & Hlen). exists votes. split_and!; [done| |].
  - intros v Hv. apply Hq in Hv. destruct (inv_ballots c Hi _ _ _ Hv) as (dv & Hdv & _).
    by destruct (inv_nodes c Hi v dv Hdv).
  - unfold majority in Hlen. by rewrite Hg, (group_perm p Hm) in Hlen.
Qed.
End group.

(** ** Properties *)

(** C1: Election safety, over the whole history of a group.  From a new group,
    through any interleaving of messages delivered late, twice, out of order or
    never, of timeouts, proposals and compactions, and of crashes at any point of
    executing a transition, two members that ever lead in the same epoch, be it
    at different times, are the same member. *)
Theorem one_leader_per_epoch {sqlite : Sqlite} {redb : Redb} {redb_ok : RedbOk} {crypto : Crypto} {hex : Hex}
    {pc_meta : Postcard D1Meta} {pc_meta_ok : PostcardOk D1Meta}
    {pc_entry : Postcard Entry} {pc_audit : Postcard DataMutationAudit}
    (name : string) (grp : list PublicId) (c0 c1 c2 : Cluster) (p q : PublicId) (ep : Z)
    (Hgrp : NoDup grp) (Hinit : initial name grp c0)
    (H1 : rtc (cstep name grp) c0 c1) (H2 : rtc (cstep name grp) c1 c2)
    (Hp : leads c1 p ep) (Hq : leads c2 q ep) :
  p = q.
Proof.
  apply initial_inv in Hinit. destruct (reach_inv _ _ _ _ Hinit H1) as [Hi1 _].
  destruct (reach_inv _ _ _ _ Hi1 H2) as [Hi2 Hsub].
  destruct (leads_quorum _ _ _ _ _ Hi1 Hp) as (vp & Qp & Sp & Lp).
  destruct (leads_quorum _ _ _ _ _ Hi2 Hq) as (vq & [Nq Qq] & Sq & Lq).
  destruct (quorum_for_mono _ _ _ _ _ Hsub Qp) as [Np Qp'].
  destruct (quorums_intersect grp vp vq) as (v & Hv1 & Hv2); [done..|].
  eapply (inv_once _ _ _ Hi2); [by apply Qp'|by apply Qq].
Qed.

(** ** Schedules *)

Section run.
Context {sqlite : Sqlite} {redb : Redb} {crypto : Crypto} {hex : Hex}.
Context {pc_meta : Postcard D1Meta} {pc_entry : Postcard Entry} {pc_audit : Postcard DataMutationAudit}.
Context (name : string) (grp : list PublicId) (env : Env).

Definition enabledb (c : Cluster) (p : PublicId) (d : Driver) (ev : Event) : bool :=
  match ev with
  | EvNet from m => bool_decide ((from, p, m) ∈ net c)
  | EvElection => (0 <=? epoch (raft d))%Z && (epoch (raft d) <? u64_max)%Z
  | _ => true
  end.

(** A schedule: which member handles which event, in order. *)
Fixpoint run (c : Cluster) (evs : list (PublicId * Event)) : option Cluster :=
  match evs with
  | [] => Some c
  | (p, ev) :: evs' =>
      match nodes c !! p with
      | None => None
      | Some d =>
          if enabledb c p d ev then let o := step env d ev in run (update c p o.1 o.2) evs' else None
      end
  end.

Lemma enabledb_spec c p d ev : enabledb c p d ev = true -> enabled c p d ev.
Proof.
  destruct ev; simpl; [by intros ?%bool_decide_eq_true|rewrite andb_true_iff, Z.leb_le, Z.ltb_lt; lia|done..].
Qed.

Lemma run_reach evs c c' : run c evs = Some c' -> rtc (cstep name grp) c c'.
Proof.
  revert c. induction evs as [|[p ev] evs IH]; intros c; cbn [run]; [intros [= ->]; apply rtc_refl|].
  destruct (nodes c !! p) as [d|] eqn:Hp; [|done]. destruct (enabledb c p d ev) eqn:He; [|done].
  intros Hr. eapply rtc_l; [|by apply IH]. apply cs_event; [done|by apply enabledb_spec].
Qed.
End run.

(** Three members of a new group, on the sample store and database. *)
Module SampleGroup.
Import SampleSqlite.

Definition members : list PublicId := [node 1; node 2; node 3].

Definition fresh (p : PublicId) : Driver (sqlite := sqlite) (redb := SampleRedb.redb) :=
  mkDriver (sqlite := sqlite) (redb := SampleRedb.redb) "db" (restore p members 0 None 0 0 [] 0) ([], 0)
    (store_open (redb := SampleRedb.redb)) ∅ ∅ None.

Definition start : Cluster (sqlite := sqlite) (redb := SampleRedb.redb) :=
  mkCluster (sqlite := sqlite) (redb := SampleRedb.redb)
    (list_to_map ((fun p => (p, fresh p)) <$> members)) [] [].

Definition write (v : Z) : Event (sqlite := sqlite) :=
  EvPropose (sqlite := sqlite) (mkCmd (sqlite := sqlite) "INSERT" [v] [] 0) 0.

Definition go (evs : list (PublicId * Event (sqlite := sqlite))) : option (Cluster (sqlite := sqlite) (redb := SampleRedb.redb)) :=
  run (crypto := Sample.crypto) (hex := Sample.hex) (pc_meta := SampleCodec.codec D1Meta)
    (pc_entry := SampleCodec.codec Entry) (pc_audit := audit_codec) env start evs.

Definition from (n : Z) (m : Msg) : Event (sqlite := sqlite) := EvNet (node n) m.

(** Member 1 is elected with the vote of member 2. *)
Definition election : list (PublicId * Event (sqlite := sqlite)) :=
  [(node 1, EvElection); (node 2, from 1 (VoteReq 1 0 0)); (node 1, from 2 (VoteResp 1 true))].

(** Member 1 commits 10, and takes 20 while cut off; member 3 is elected with the
  vote of member 2; the heartbeat of member 3 is acknowledged by member 1 with
  the length of its own log; member 3 takes 30 and commits it; member 1 is
  elected again and commits 20 and 40 with member 2. *)
Definition a10 := mkEntry 1 1 [0; 10].
Definition a20 := mkEntry 1 2 [0; 20].
Definition a40 := mkEntry 3 3 [0; 40].
Definition divergence : list (PublicId * Event (sqlite := sqlite)) :=
  election ++
  [(node 1, write 10); (node 2, from 1 (Append 1 0 0 [a10] 0)); (node 1, from 2 (AppendResp 1 1 true));
   (node 3, from 1 (Append 1 0 0 [a10] 1)); (node 2, from 1 (Append 1 1 1 [] 1)); (node 1, write 20);
   (node 3, EvElection); (node 2, from 3 (VoteReq 2 1 1)); (node 3, from 2 (VoteResp 2 true));
   (node 1, from 3 (Append 2 1 1 [] 1)); (node 3, from 1 (AppendResp 2 2 true)); (node 3, write 30);
   (node 1, EvElection); (node 2, from 1 (VoteReq 3 1 2)); (node 1, from 2 (VoteResp 3 true));
   (node 1, write 40); (node 2, from 1 (Append 3 2 1 [] 1)); (node 1, from 2 (AppendResp 3 1 false));
   (node 2, from 1 (Append 3 1 1 [a20; a40] 1)); (node 1, from 2 (AppendResp 3 3 true))].
Definition look (n : Z) (c : Cluster (sqlite := sqlite) (redb := SampleRedb.redb)) : option (list Z * Z) :=
  match nodes c !! node n with Some d => Some (sql d) | None => None end.

Definition leader_epoch (n : Z) (c : Cluster (sqlite := sqlite) (redb := SampleRedb.redb)) : option (bool * Z) :=
  match nodes c !! node n with Some d => Some (is_leader (raft d), epoch (raft d)) | None => None end.

Lemma start_initial :
  initial (redb := SampleRedb.redb) (pc_meta := SampleCodec.codec D1Meta) (pc_entry := SampleCodec.codec Entry)
    "db" members start.
Proof.
  split_and!; [done|done|]. intros p d Hp. cbn [nodes start] in Hp. apply elem_of_list_to_map_2 in Hp.
  apply list_elem_of_fmap in Hp as (q & Heq & Hin). injection Heq as -> ->.
  split; [done|]. exists (sql (fresh q)), None. reflexivity.
Qed.

Lemma leader_leads n ep c : leader_epoch n c = Some (true, ep) -> leads c (node n) ep.
Proof.
  unfold leader_epoch, leads. destruct (nodes c !! node n) as [d|]; [|done]. intros [= Hl He]. by exists d.
Qed.
End SampleGroup.

Lemma one_leader_per_epoch_witness :
  exists c, SampleGroup.go SampleGroup.election = Some c /\ forall q, leads c q 1 -> SampleSqlite.node 1 = q.
Proof.
  assert ((SampleGroup.leader_epoch 1 <$> SampleGroup.go SampleGroup.election) = Some (Some (true, 1))) as Hl
    by (vm_compute; reflexivity).
  apply fmap_Some_1 in Hl as (c & E & Hl). exists c. split; [exact E|]. intros q Hq.
  apply (one_leader_per_epoch (redb_ok := SampleRedb.redb_ok) (crypto := Sample.crypto) (hex := Sample.hex)
    (pc_meta_ok := SampleCodec.codec_ok D1Meta) (pc_entry := SampleCodec.codec Entry)
    (pc_audit := SampleSqlite.audit_codec)
    "db" SampleGroup.members SampleGroup.start c c (SampleSqlite.node 1) q 1).
  - unfold SampleGroup.members. repeat constructor; set_solver.
  - apply SampleGroup.start_initial.
  - exact (run_reach _ _ _ _ _ _ E).
  - apply rtc_refl.
  - by apply SampleGroup.leader_leads.
  - done.
Defined.

