(* ===== verification/Node.v ===== *)
(** * Node: the shared state of a node (crates/rf/src/node.rs)

    [Node] holds the decision structures of rf-core in memory and the store they
    are written through to; every operation is a function from the node to the
    node and its result.  The wall clock is an argument, one reading for every
    call of [now_ms] in the source; an operation that reads it in a loop takes
    the readings as a function of the turn.  [events] are the events sent.  The
    listening ports, the event tokens and the schema caches are plain cells and
    not modelled; blobs, previews and placement belong to other parts. *)

From Stdlib Require Import ZArith Lia Ascii.
From stdpp Require Import prelude gmap sorting strings list.
From S2P Require Import Prelude Text Hlc Identity Envelope Kv Claim Manifest Quorum DataAudit Observability Store.
Open Scope Z_scope.

Definition RESOURCE_NAMESPACE : string := "__rf_platform_resources_v1".

Inductive NodeEvent :=
| Manifests
| OwnClaims
| KvChanged (ns : string)
| Runtime.

Record DeploymentStatus := mkStatus {
  ds_version : Z;
  ds_state : string;
  ds_detail : string;
  updated_at_ms : Z
}.

Record RuntimeLogLine := mkLogLine {
  at_ms : Z;
  line_version : Z;
  line_stream : string;
  message : string
}.

Record PeerView := mkPeerView {
  peer_api_addr : option string;
  exit_endpoint : option string;
  peer_public : bool;
  peer_label : string;
  ipv4 : option string;
  manifest_digest : string;
  peer_kv_digests : gmap string string;
  deployments : gmap string DeploymentStatus;
  capabilities : gset string;
  generation : Z
}.

(** What the node reads of its configuration. *)
Record NodeConfig := mkConfig {
  cfg_operator : SignerId;
  cfg_public : bool;
  default_domain : option string
}.

Record Inner := mkInner {
  clock : Clock;
  claims : ClaimSet;
  manifests : ManifestSet;
  kv : gmap string Namespace;
  peers : gmap string PeerView;
  worker_ports : gmap string Z;
  runtime_status : gmap string DeploymentStatus;
  runtime_logs : gmap string (list RuntimeLogLine);
  pending_request_logs : list RequestLogEntry;
  quota_request_window : Z * Z;
  platform_resource_generation : Z
}.

Inductive NodeError :=
| ManifestRejected (e : ManifestError)
| EnvelopeRejected (e : EnvelopeError)
| StoreFailed (e : StoreError).

Section node.
Context {redb : Redb} {crypto : Crypto} {hex : Hex}.
Context {pc_env : Postcard Envelope} {pc_manifest : Postcard WorkerManifest} {pc_claim : Postcard Claim}.
Context {pc_kv : Postcard KvEntry} {pc_audit : Postcard DataMutationAudit}.

Record Node := mkNode {
  cfg : NodeConfig;
  keypair : Keypair;
  node_store : Store;
  inner : Inner;
  events : list NodeEvent
  }.

Definition id (n : Node) : PublicId := public (keypair n).
Definition id_hex (n : Node) : string := pid_to_string (id n).

Definition set_inner (n : Node) (i : Inner) : Node := mkNode (cfg n) (keypair n) (node_store n) i (events n).
Definition set_node_store (n : Node) (s : Store) : Node := mkNode (cfg n) (keypair n) s (inner n) (events n).

(** [Node::emit]. *)
Definition emit (n : Node) (ev : NodeEvent) : Node :=
  mkNode (cfg n) (keypair n) (node_store n) (inner n) (events n ++ [ev]).

Definition set_clock (i : Inner) (c : Clock) : Inner :=
  mkInner c (claims i) (manifests i) (kv i) (peers i) (worker_ports i) (runtime_status i) (runtime_logs i)
    (pending_request_logs i) (quota_request_window i) (platform_resource_generation i).
Definition set_claims (i : Inner) (c : ClaimSet) : Inner :=
  mkInner (clock i) c (manifests i) (kv i) (peers i) (worker_ports i) (runtime_status i) (runtime_logs i)
    (pending_request_logs i) (quota_request_window i) (platform_resource_generation i).
Definition set_manifests (i : Inner) (m : ManifestSet) : Inner :=
  mkInner (clock i) (claims i) m (kv i) (peers i) (worker_ports i) (runtime_status i) (runtime_logs i)
    (pending_request_logs i) (quota_request_window i) (platform_resource_generation i).
Definition set_kv (i : Inner) (k : gmap string Namespace) (gen : Z) : Inner :=
  mkInner (clock i) (claims i) (manifests i) k (peers i) (worker_ports i) (runtime_status i) (runtime_logs i)
    (pending_request_logs i) (quota_request_window i) gen.
Definition set_peers (i : Inner) (p : gmap string PeerView) : Inner :=
  mkInner (clock i) (claims i) (manifests i) (kv i) p (worker_ports i) (runtime_status i) (runtime_logs i)
    (pending_request_logs i) (quota_request_window i) (platform_resource_generation i).
Definition set_runtime (i : Inner) (p : gmap string Z) (s : gmap string DeploymentStatus)
  (l : gmap string (list RuntimeLogLine)) : Inner :=
  mkInner (clock i) (claims i) (manifests i) (kv i) (peers i) p s l
    (pending_request_logs i) (quota_request_window i) (platform_resource_generation i).
Definition set_pending (i : Inner) (l : list RequestLogEntry) : Inner :=
  mkInner (clock i) (claims i) (manifests i) (kv i) (peers i) (worker_ports i) (runtime_status i) (runtime_logs i)
    l (quota_request_window i) (platform_resource_generation i).
Definition set_window (i : Inner) (w : Z * Z) : Inner :=
  mkInner (clock i) (claims i) (manifests i) (kv i) (peers i) (worker_ports i) (runtime_status i) (runtime_logs i)
    (pending_request_logs i) w (platform_resource_generation i).

(** *** Opening *)

(** [inner.kv.entry(ns).or_default()]. *)
Definition namespace (k : gmap string Namespace) (ns : string) : Namespace := default new_namespace (k !! ns).

(** The hydration of the KV namespaces: each stored entry is observed by the
  clock and merged. *)
Fixpoint hydrate_kv (now_ms : nat -> Z) (c : Clock) (k : gmap string Namespace)
  (items : list (string * string * KvEntry)) : Clock * gmap string Namespace :=
  match items with
  | [] => (c, k)
  | (ns, key, e) :: items' =>
      hydrate_kv (fun i => now_ms (S i)) (observe c (hlc e) (now_ms O))
        (<[ns := (Kv.merge (namespace k ns) key e).1]> k) items'
  end.

(** [Node::open] on the store of its data directory. *)
Definition node_open (cf : NodeConfig) (kp : Keypair) (s : Store) (now_ms : nat -> Z) : result Node StoreError :=
  let? ms := load_manifests s in
  let? cs := load_claims s in
  let? items := load_kv s in
  let '(c, k) := hydrate_kv now_ms Hlc.new ∅ items in
  let gen := if bool_decide (is_Some (k !! RESOURCE_NAMESPACE)) then 1 else 0 in
  Ok (mkNode cf kp s
    (mkInner c (Claim.ingest_all Claim.new_set cs) (Manifest.ingest_all (Manifest.new_set (cfg_operator cf)) ms)
       k ∅ ∅ ∅ ∅ [] (0, 0) gen) []).

(** [Node::hlc_now]. *)
Definition hlc_now (n : Node) (now_ms : Z) : Node * Hlc :=
  let '(c, h) := Hlc.now (clock (inner n)) now_ms in (set_inner n (set_clock (inner n) c), h).

(** *** Manifests *)

(** [Node::ingest_manifest]. *)
Definition ingest_manifest (n : Node) (env : Envelope) : Node * result bool NodeError :=
  match Manifest.ingest (manifests (inner n)) env with
  | (_, Err e) => (n, Err (ManifestRejected e))
  | (_, Ok Manifest.Stale) => (n, Ok false)
  | (ms, Ok Manifest.Changed) =>
      let n := set_inner n (set_manifests (inner n) ms) in
      match open (T := WorkerManifest) (Some (cfg_operator (cfg n))) env with
      | Err e => (n, Err (EnvelopeRejected e))
      | Ok m =>
          let s := put_manifest (node_store n) (name m) env in
          (emit (set_node_store n (put_log s (name m) (version m) env)) Manifests, Ok true)
      end
  end.

(** [Node::manifest_digest_hex], [manifest_envelopes], [manifest] and
  [live_manifests]. *)
Definition manifest_digest_hex (n : Node) : string := hex_encode (set_digest (manifests (inner n))).
Definition manifest_envelopes (n : Node) : list Envelope := rec_envelope <$> all (manifests (inner n)).
Definition node_manifest (n : Node) (w : string) : option WorkerManifest :=
  manifest <$> Manifest.get (manifests (inner n)) w.
Definition live_manifests (n : Node) : list WorkerManifest := manifest <$> Manifest.live (manifests (inner n)).

(** [Node::manifest_names]. *)
Definition manifest_names (n : Node) : list string :=
  remove_dups (merge_sort le_of ((fun r => name (manifest r)) <$> all (manifests (inner n)))).

(** [Node::manifest_log] and [Node::manifest_head]. *)
Definition manifest_log (n : Node) (w : string) : result (list Envelope) StoreError := load_log (node_store n) w.
Definition manifest_head (n : Node) (w : string) : option (Z * bytes) :=
  (fun r => (version (manifest r), Manifest.rec_digest r)) <$> Manifest.get (manifests (inner n)) w.

(** [Node::anchor_digest], on the records in the order given. *)
Definition anchor_head (r : ManifestRecord) : string * Z * bytes :=
  (name (manifest r), version (manifest r), Manifest.rec_digest r).
Definition anchor_in (records : list ManifestRecord) : string * Z :=
  let heads := merge_sort le_of (anchor_head <$> records) in
  (hex_encode (sha256 (concat ((fun '(w, v, d) => as_bytes w ++ u64_le v ++ d) <$> heads))),
   Z.of_nat (length heads)).
Definition anchor_digest (n : Node) : string * Z := anchor_in (all (manifests (inner n))).

(** *** Claims *)

(** [Node::ingest_claim]; a rejected claim is only logged. *)
Definition ingest_claim (n : Node) (env : Envelope) (now_ms : Z) : Node * bool :=
  match Claim.ingest (claims (inner n)) env with
  | (cs, Ok Claim.Changed) =>
      let n := set_inner n (set_claims (inner n) cs) in
      let n :=
        match open (T := Claim) None env with
        | Ok c =>
            let n := set_inner n (set_clock (inner n) (observe (clock (inner n)) (renewed c) now_ms)) in
            set_node_store n (put_claim (node_store n) (task c) (pid_to_string (holder c)) env)
        | Err _ => n
        end in
      (emit n OwnClaims, true)
  | (_, Ok Claim.Stale) => (n, false)
  | (_, Err _) => (n, false)
  end.

(** [Node::claim_try], with its three readings of the wall clock. *)
Definition claim_try (n : Node) (t : string) (ttl_ms : Z) (now1 now2 now3 : Z) : Node * bool :=
  if negb (open_for_claim (claims (inner n)) t now1) then (n, false)
  else
    let '(n, now) := hlc_now n now2 in
    let '(n, _) := ingest_claim n (make_claim (keypair n) t now ttl_ms) now3 in
    (emit n OwnClaims, true).

(** [Node::holds]. *)
Definition node_holds (n : Node) (t : string) (now_ms : Z) : bool := holds (claims (inner n)) t (id n) now_ms.

(** [Node::claim_renew]. *)
Definition claim_renew (n : Node) (t : string) (release : bool) (now1 now2 : Z) : Node :=
  match mine (claims (inner n)) t (id n) with
  | None => n
  | Some r =>
      let '(n, now) := hlc_now n now1 in
      let '(n, _) := ingest_claim n (renew (keypair n) (claim r) now release) now2 in
      emit n OwnClaims
  end.

(** [Node::own_claim_envelopes] and [Node::claim_envelopes]. *)
Definition own_claim_envelopes (n : Node) (now_ms : Z) : list (string * Envelope) :=
  omap (fun env =>
    match open (T := Claim) None env with
    | Ok c => if bool_decide (holder c = id n) then Some (task c, env) else None
    | Err _ => None
    end) (live_envelopes (claims (inner n)) now_ms).
Definition claim_envelopes (n : Node) (now_ms : Z) : list Envelope := live_envelopes (claims (inner n)) now_ms.

(** *** KV *)

Definition kv_metadata_namespace (ns : string) : string :=
  ("__rf_kvmeta/" ++ hex_encode (sha256 (as_bytes ns)))%string.

Definition bump (gen : Z) (ns : string) : Z :=
  if bool_decide (ns = RESOURCE_NAMESPACE) then wadd 64 gen 1 else gen.

(** [Node::kv_put_entry]. *)
Definition kv_put_entry (n : Node) (ns key : string) (v : option bytes) (exp : option Z) (now_ms : Z) : Node :=
  let '(n, h) := hlc_now n now_ms in
  let '(space, e) := Kv.put (namespace (kv (inner n)) ns) key v h (id n) exp in
  let gen := bump (platform_resource_generation (inner n)) ns in
  let n := set_inner n (set_kv (inner n) (<[ns := space]> (kv (inner n))) gen) in
  emit (set_node_store n (put_kv_audited (node_store n) ns key e (kv_mutation ns key e))) (KvChanged ns).

(** [Node::kv_put] and [Node::kv_put_with_metadata]. *)
Definition kv_put (n : Node) (ns key : string) (v : option bytes) (exp : option Z) (now1 now2 : Z) : Node :=
  let n := kv_put_entry n ns key v exp now1 in
  if starts_with "__rf" ns then n else kv_put_entry n (kv_metadata_namespace ns) key None None now2.

Definition kv_put_with_metadata (n : Node) (ns key : string) (v : option bytes) (exp : option Z)
  (metadata : option bytes) (now1 now2 : Z) : Node :=
  kv_put_entry (kv_put_entry n ns key v exp now1) (kv_metadata_namespace ns) key metadata exp now2.

(** [Node::kv_get] and [Node::kv_get_with_metadata]. *)
Definition kv_get (n : Node) (ns key : string) (now_ms : Z) : option bytes :=
  space ← kv (inner n) !! ns; Kv.get space key now_ms.

Definition kv_get_with_metadata (n : Node) (ns key : string) (now1 now2 : Z) : option (bytes * option bytes) :=
  v ← kv_get n ns key now1; Some (v, kv_get n (kv_metadata_namespace ns) key now2).

(** [Node::kv_list]. *)
Definition kv_list (n : Node) (ns prefix : string) (limit : nat) (now_ms : Z) : list string :=
  match kv (inner n) !! ns with
  | Some space => list_keys space prefix now_ms limit
  | None => []
  end.

(** The loop of [Node::kv_list_page_plain]: the page and whether more follows. *)
Fixpoint page_loop (space : Namespace) (limit : nat) (cursor : option string)
  (output : list (string * option Z)) (keys : list string) : list (string * option Z) * bool :=
  match keys with
  | [] => (output, false)
  | key :: keys' =>
      if match cursor with Some c => leb key c | None => false end
      then page_loop space limit cursor output keys'
      else if bool_decide (length output = limit) then (output, true)
      else
        let expiration := e ← Kv.entry space key; Kv.expires_at_ms e in
        page_loop space limit cursor (output ++ [(key, expiration)]) keys'
  end.

Definition KvListPage : Type := list (string * option Z) * bool * option string.

(** [Node::kv_list_page]; the listing is not capped. *)
Definition kv_list_page (n : Node) (ns prefix : string) (limit : nat) (cursor : option string) (now_ms : Z)
  : KvListPage :=
  match kv (inner n) !! ns with
  | None => ([], true, None)
  | Some space =>
      let '(output, more) :=
        page_loop space limit cursor [] (list_keys space prefix now_ms (size (entries space))) in
      (output, negb more, if more then fst <$> list.last output else None)
  end.

(** [Node::kv_list_page_with_metadata], one clock reading for the page and one
  for every item. *)
Definition kv_list_page_with_metadata (n : Node) (ns prefix : string) (limit : nat) (cursor : option string)
  (now_ms : Z) (now_item : nat -> Z) : list (string * option Z * option bytes) * bool * option string :=
  let '(items, complete, next) := kv_list_page n ns prefix limit cursor now_ms in
  (imap (fun i '(key, exp) => (key, exp, kv_get n (kv_metadata_namespace ns) key (now_item i))) items,
   complete, next).

(** The loop of [Node::kv_merge_remote]: the node and how many items applied. *)
Fixpoint merge_items (n : Node) (ns : string) (items : list (string * KvEntry)) (now_ms : nat -> Z) : Node * Z :=
  match items with
  | [] => (n, 0)
  | (key, e) :: items' =>
      let n := set_inner n (set_clock (inner n) (observe (clock (inner n)) (hlc e) (now_ms O))) in
      let '(space, m) := Kv.merge (namespace (kv (inner n)) ns) key e in
      let n := set_inner n
        (set_kv (inner n) (<[ns := space]> (kv (inner n))) (platform_resource_generation (inner n))) in
      let n :=
        if bool_decide (m = Applied)
        then set_node_store n (put_kv_audited (node_store n) ns key e (kv_mutation ns key e)) else n in
      let '(n, applied) := merge_items n ns items' (fun i => now_ms (S i)) in
      (n, applied + if bool_decide (m = Applied) then 1 else 0)
  end.

(** [Node::kv_merge_remote]. *)
Definition kv_merge_remote (n : Node) (ns : string) (items : list (string * KvEntry)) (now_ms : nat -> Z)
  : Node * Z :=
  let '(n, applied) := merge_items n ns items now_ms in
  if (0 <? applied)%Z then
    (emit (set_inner n (set_kv (inner n) (kv (inner n)) (bump (platform_resource_generation (inner n)) ns)))
       (KvChanged ns), applied)
  else (n, applied).

(** [Node::kv_digests] and [Node::kv_dump]. *)
Definition kv_digests (n : Node) : gmap string string := (fun space => hex_encode (ns_digest space)) <$> kv (inner n).
Definition kv_dump (n : Node) (ns : string) : list (string * KvEntry) :=
  match kv (inner n) !! ns with Some space => dump space | None => [] end.

(** *** Peers and the request budget *)

Definition update_peers (n : Node) (p : gmap string PeerView) : Node := set_inner n (set_peers (inner n) p).

(** The identities that share the budget, in the order of the [BTreeSet]. *)
Definition public_nodes (n : Node) : list string :=
  let ids : gset string := dom (filter (fun ip => peer_public ip.2 = true) (peers (inner n))) in
  let ids := if cfg_public (cfg n) then {[id_hex n]} ∪ ids else ids in
  let ids := if bool_decide (ids = ∅) then {[id_hex n]} else ids in
  sorted_strings ids.

(** [iter().position(..).unwrap_or(0)]. *)
Fixpoint position (me : string) (ids : list string) : option Z :=
  match ids with
  | [] => None
  | x :: ids' => if bool_decide (x = me) then Some 0 else Z.succ <$> position me ids'
  end.

(** The share of [limit] that falls to [me]. *)
Definition local_limit (limit : Z) (ids : list string) (me : string) : Z :=
  let count := Z.of_nat (length ids) in
  let rank := default 0 (position me ids) in
  limit / count + if (rank <? limit mod count)%Z then 1 else 0.

(** [Node::admit_public_request], with the policy it read. *)
Definition admit_public_request {E} (policy : result Z E) (n : Node) (now_ms : Z) : Node * result bool E :=
  match policy with
  | Err e => (n, Err e)
  | Ok limit =>
      let minute := now_ms / 60000 in
      let share := local_limit limit (public_nodes n) (id_hex n) in
      let '(m, used) := quota_request_window (inner n) in
      let used := if (m =? minute)%Z then used else 0 in
      if (share <=? used)%Z then (set_inner n (set_window (inner n) (minute, used)), Ok false)
      else (set_inner n (set_window (inner n) (minute, used + 1)), Ok true)
  end.

(** *** The local runtime and its logs *)

Definition set_worker_ports (n : Node) (ports : gmap string Z) : Node :=
  if bool_decide (worker_ports (inner n) = ports) then n
  else emit (set_inner n (set_runtime (inner n) ports (runtime_status (inner n)) (runtime_logs (inner n)))) Runtime.

Definition worker_port (n : Node) (w : string) : option Z := worker_ports (inner n) !! w.

Definition same_status (prior : DeploymentStatus) (v : Z) (state detail : string) : bool :=
  (ds_version prior =? v)%Z && bool_decide (ds_state prior = state) && bool_decide (ds_detail prior = detail).

(** [Node::set_runtime_status]. *)
Definition set_runtime_status (n : Node) (w : string) (v : Z) (state detail : string) (now_ms : Z) : Node :=
  if match runtime_status (inner n) !! w with Some prior => same_status prior v state detail | None => false end
  then n
  else
    let status := <[w := mkStatus v state detail now_ms]> (runtime_status (inner n)) in
    emit (set_inner n (set_runtime (inner n) (worker_ports (inner n)) status (runtime_logs (inner n)))) Runtime.

(** [pop_front] while longer than [max]. *)
Definition keep_last {A} (max : nat) (l : list A) : list A := drop (length l - max) l.

(** [str::replace] of carriage returns and NULs by nothing. *)
Fixpoint strip_controls (s : string) : string :=
  match s with
  | EmptyString => EmptyString
  | String c s' =>
      if bool_decide (c = "013"%char) || bool_decide (c = "000"%char) then strip_controls s'
      else String c (strip_controls s')
  end.

(** The ellipsis, U+2026, in UTF-8. *)
Definition ellipsis : string := String "226" (String "128" (String "166" EmptyString)).

(** The message a log line keeps; [String::truncate] panics, [None], when the cut
  is not at a character boundary. *)
Definition clip_message (m : string) : option string :=
  let m := strip_controls m in
  if (4000 <? slen m)%Z then
    if is_char_boundary m (Z.to_nat 4000) then Some (stake (Z.to_nat 4000) m ++ ellipsis)%string else None
  else Some m.

(** [Node::append_runtime_log]; [None] is a panic. *)
Definition append_runtime_log (n : Node) (w : string) (v : Z) (stream m : string) (now_ms : Z) : option Node :=
  m ← clip_message m;
  let lines := default [] (runtime_logs (inner n) !! w) ++ [mkLogLine now_ms v stream m] in
  Some (set_inner n (set_runtime (inner n) (worker_ports (inner n)) (runtime_status (inner n))
    (<[w := keep_last (Z.to_nat 1000) lines]> (runtime_logs (inner n))))).

(** [Node::runtime_logs]. *)
Definition node_runtime_logs (n : Node) (w : string) (limit : nat) : list RuntimeLogLine :=
  match runtime_logs (inner n) !! w with
  | Some lines => drop (length lines - Nat.min limit (Z.to_nat 1000)) lines
  | None => []
  end.

(** The queue of request logs. *)
Definition MAX_PENDING : nat := Z.to_nat 50000.

Definition enqueue_request_log (n : Node) (e : RequestLogEntry) : Node :=
  set_inner n (set_pending (inner n) (keep_last MAX_PENDING (pending_request_logs (inner n) ++ [e]))).

Definition take_pending_request_logs (n : Node) : Node * list RequestLogEntry :=
  (set_inner n (set_pending (inner n) []), pending_request_logs (inner n)).

Definition requeue_request_logs (n : Node) (es : list RequestLogEntry) : Node :=
  set_inner n (set_pending (inner n) (keep_last MAX_PENDING (es ++ pending_request_logs (inner n)))).

Definition node_pending_request_logs (n : Node) (w : string) : list RequestLogEntry :=
  filter (fun e => rl_worker e = w) (pending_request_logs (inner n)).

(** *** Garbage collection *)

Definition HORIZON_MS : Z := 24 * 3600 * 1000.

(** [Node::gc]: in memory only. *)
Definition node_gc (n : Node) (now_ms : Z) : Node :=
  let i := set_claims (inner n) (Claim.gc (claims (inner n)) now_ms HORIZON_MS).1 in
  set_inner n (set_kv i ((fun space => (Kv.gc space now_ms HORIZON_MS).1) <$> kv i)
    (platform_resource_generation i)).
End node.
