(* ===== verification/NodeFacts.v ===== *)
(** * NodeFacts: what a node keeps (crates/rf/src/node.rs)

    The invariants of [Node]: memory and store agree up to what was collected as
    garbage, and the clock is past every timestamp the node holds.  From them:
    a restart changes no answer, and a local write wins over everything seen. *)

From Stdlib Require Import ZArith Lia Ascii.
From stdpp Require Import prelude gmap sorting strings list.
From S2P Require Import Prelude Text Hlc Identity Envelope Kv Claim Manifest Quorum DataAudit Observability Store Node.
Open Scope Z_scope.

(** ** KV entries across namespaces *)

Section kv_sync.
Context {redb : Redb} {redb_ok : RedbOk} {crypto : Crypto} {hex : Hex}.
Context {pc_kv : Postcard KvEntry} {pc_kv_ok : PostcardOk KvEntry} {pc_audit : Postcard DataMutationAudit}.

Definition entry_at (k : gmap string Namespace) (ns key : string) : option KvEntry :=
  space ← k !! ns; entries space !! key.

Lemma entry_at_namespace k ns key : entries (namespace k ns) !! key = entry_at k ns key.
Proof. unfold namespace, entry_at. by destruct (k !! ns). Qed.

Lemma entry_at_insert k ns space ns' key :
  entry_at (<[ns := space]> k) ns' key = if decide (ns = ns') then entries space !! key else entry_at k ns' key.
Proof. unfold entry_at. rewrite lookup_insert. by destruct (decide (ns = ns')). Qed.

(** Writing one entry of one namespace. *)
Lemma entry_at_put k ns key e ns' key' :
  entry_at (<[ns := mkNamespace (<[key := e]> (entries (namespace k ns)))]> k) ns' key' =
  if decide (ns = ns' /\ key = key') then Some e else entry_at k ns' key'.
Proof.
  rewrite entry_at_insert. destruct (decide (ns = ns')) as [<-|Hne].
  - simpl. rewrite lookup_insert, entry_at_namespace. destruct (decide (key = key')) as [<-|Hk].
    + by rewrite decide_True.
    + by rewrite decide_False by naive_solver.
  - by rewrite decide_False by naive_solver.
Qed.

Lemma merge_cases (space : Namespace) key e :
  Kv.merge space key e = (mkNamespace (<[key := e]> (entries space)), Applied) \/
  Kv.merge space key e = (space, Kv.Stale) /\
    exists old, entries space !! key = Some old /\ beats e old = false.
Proof.
  unfold Kv.merge. destruct (entries space !! key) as [old|]; [|by left].
  destruct (beats e old) eqn:E; simpl; [by left|]. right. eauto.
Qed.

(** [k] in memory against the table: every entry held is stored, and what is
  stored and not held has been invisible since [T]. *)
Record kv_sync (T : Z) (s : Store) (k : gmap string Namespace) : Prop := mk_kv_sync {
  ks_table : kv_ok s;
  ks_held : forall ns key e, entry_at k ns key = Some e ->
    no_nul ns /\ t_get (KV s) (kv_key ns key) = Some (to_stdvec e);
  ks_stored : forall ns key e, no_nul ns -> t_get (KV s) (kv_key ns key) = Some (to_stdvec e) ->
    entry_at k ns key = Some e \/
    entry_at k ns key = None /\ forall t, T <= t -> visible e t = None
  }.

Lemma to_stdvec_kv_inj (a b : KvEntry) : to_stdvec a = to_stdvec b -> a = b.
Proof. intros E. assert (Some a = Some b) as [= ->]; [|done]. rewrite <- !postcard_roundtrip. by rewrite E. Qed.

Lemma kv_sync_put T s k ns key e audit :
  no_nul ns -> kv_sync T s k ->
  kv_sync T (put_kv_audited s ns key e audit)
    (<[ns := mkNamespace (<[key := e]> (entries (namespace k ns)))]> k).
Proof.
  intros Hn [Ht Hh Hs].
  assert (KV (put_kv_audited s ns key e audit) = t_insert (kv_key ns key) (to_stdvec e) (KV s)) as E
    by by destruct audit.
  split.
  - intros x v. rewrite E, t_get_insert. case_decide; [|apply Ht]. intros [= <-]. by exists ns, key, e.
  - intros ns' key' e'. rewrite entry_at_put, E, t_get_insert.
    destruct (decide (ns = ns' /\ key = key')) as [[<- <-]|Hne].
    + intros [= <-]. by rewrite decide_True.
    + intros He. destruct (Hh _ _ _ He) as [Hn' Hg]. split; [done|]. rewrite decide_False; [done|].
      intros Hk. apply kv_key_inj in Hk as [-> ->]; [|done..]. by apply Hne.
  - intros ns' key' e' Hn'. rewrite entry_at_put, E, t_get_insert.
    destruct (decide (ns = ns' /\ key = key')) as [[<- <-]|Hne].
    + rewrite decide_True by done. intros [= He%to_stdvec_kv_inj]. left. by rewrite He.
    + rewrite decide_False; [by apply Hs|]. intros Hk. apply kv_key_inj in Hk as [-> ->]; [|done..]. by apply Hne.
Qed.

(** Two maps with the same entries. *)
Lemma kv_sync_ext T s k k' :
  (forall ns key, entry_at k' ns key = entry_at k ns key) -> kv_sync T s k -> kv_sync T s k'.
Proof.
  intros He [Ht Hh Hs]. split; [done| |].
  - intros ns key e. rewrite He. apply Hh.
  - intros ns key e. rewrite He. apply Hs.
Qed.

Lemma kv_sync_table T s s' k : KV s' = KV s -> kv_sync T s k -> kv_sync T s' k.
Proof. intros E [Ht Hh Hs]. split; unfold kv_ok; rewrite E; [exact Ht|exact Hh|exact Hs]. Qed.

Lemma entry_at_gc k now_ms ns key :
  entry_at ((fun space => (Kv.gc space now_ms HORIZON_MS).1) <$> k) ns key =
  match entry_at k ns key with
  | Some e => if Kv.gc_keep now_ms HORIZON_MS e then Some e else None
  | None => None
  end.
Proof.
  unfold entry_at. rewrite lookup_fmap. destruct (k !! ns) as [space|]; [|done]. simpl.
  rewrite map_lookup_filter. destruct (entries space !! key) as [e|]; [|done]. simpl.
  by destruct (Kv.gc_keep now_ms HORIZON_MS e).
Qed.

Lemma kv_sync_gc T s k now_ms :
  kv_sync T s k -> kv_sync (Z.max T now_ms) s ((fun space => (Kv.gc space now_ms HORIZON_MS).1) <$> k).
Proof.
  intros [Ht Hh Hs]. split; [done| |].
  - intros ns key e. rewrite entry_at_gc. destruct (entry_at k ns key) as [e'|] eqn:E; [|done].
    destruct (Kv.gc_keep now_ms HORIZON_MS e'); [|done]. intros [= <-]. by apply Hh.
  - intros ns key e Hn Hg. rewrite entry_at_gc. destruct (Hs ns key e Hn Hg) as [->|[-> Hv]].
    + destruct (Kv.gc_keep now_ms HORIZON_MS e) eqn:Ek; [by left|]. right. split; [done|]. intros t Hle.
      unfold Kv.gc_keep in Ek. destruct (dead_since e now_ms) eqn:Ed; [|done].
      apply (dead_since_invisible e now_ms _ t Ed). lia.
    + right. split; [done|]. intros t Hle. apply Hv. lia.
Qed.

(** Entries that name one value per key. *)
Definition functional (k : gmap string Namespace) (items : list (string * string * KvEntry)) : Prop :=
  forall ns key e e',
    (entry_at k ns key = Some e \/ (ns, key, e) ∈ items) ->
    (entry_at k ns key = Some e' \/ (ns, key, e') ∈ items) -> e = e'.

Lemma merge_entry_at k ns key e ns' key' e' :
  (forall old, entry_at k ns key = Some old -> old = e) ->
  entry_at (<[ns := (Kv.merge (namespace k ns) key e).1]> k) ns' key' = Some e' <->
  entry_at k ns' key' = Some e' \/ (ns' = ns /\ key' = key /\ e' = e).
Proof.
  intros Hold. destruct (merge_cases (namespace k ns) key e) as [->|[-> (old & Ho & _)]]; simpl.
  - rewrite entry_at_put. destruct (decide (ns = ns' /\ key = key')) as [[<- <-]|Hne].
    + split; [intros [= <-]; by right|]. intros [H|(_ & _ & ->)]; [|done]. by rewrite (Hold _ H).
    + split; [by left|]. intros [?|(-> & -> & _)]; [done|]. by destruct Hne.
  - rewrite entry_at_namespace in Ho. rewrite entry_at_insert. destruct (decide (ns = ns')) as [<-|].
    + rewrite entry_at_namespace. split; [by left|]. intros [?|(_ & -> & ->)]; [done|].
      by rewrite Ho, (Hold _ Ho).
    + split; [by left|]. intros [?|(-> & _)]; done.
Qed.

Lemma hydrate_entries items now_ms c k ns key e :
  functional k items ->
  entry_at (hydrate_kv now_ms c k items).2 ns key = Some e <-> entry_at k ns key = Some e \/ (ns, key, e) ∈ items.
Proof.
  revert now_ms c k. induction items as [|[[ns0 key0] e0] items IH]; intros now_ms c k Hf; cbn [hydrate_kv].
  { simpl. rewrite elem_of_nil. tauto. }
  assert (forall old, entry_at k ns0 key0 = Some old -> old = e0) as Hold.
  { intros old Ho. apply (Hf ns0 key0); [by left|right; left]. }
  rewrite IH.
  - rewrite merge_entry_at by done. rewrite elem_of_cons. naive_solver.
  - intros ns' key' a b. rewrite !merge_entry_at by done. intros Ha Hb.
    apply (Hf ns' key'); rewrite elem_of_cons; naive_solver.
Qed.

(** What is hydrated from the table. *)
Lemma hydrate_table s now_ms c :
  kv_ok s -> exists items, load_kv s = Ok items /\
    forall ns key e, entry_at (hydrate_kv now_ms c ∅ items).2 ns key = Some e <->
      no_nul ns /\ t_get (KV s) (kv_key ns key) = Some (to_stdvec e).
Proof.
  intros Hok. destruct (load_kv_spec s Hok) as (items & Hl & Hin). exists items. split; [done|].
  assert (forall ns key, entry_at ∅ ns key = None) as He by (intros; unfold entry_at; by rewrite lookup_empty).
  intros ns key e. rewrite hydrate_entries.
  - rewrite He, Hin. naive_solver.
  - intros ns' key' a b. rewrite He. intros [?|Ha] [?|Hb]; try done.
    apply Hin in Ha as [Ha _]. apply Hin in Hb as [Hb _]. rewrite Ha in Hb. injection Hb. apply to_stdvec_kv_inj.
Qed.

Lemma kv_get_entry (n : Node) ns key t :
  kv_get n ns key t = e ← entry_at (kv (inner n)) ns key; visible e t.
Proof. unfold kv_get, entry_at, Kv.get. by destruct (kv (inner n) !! ns). Qed.

(** Reading the hydrated namespaces. *)
Lemma hydrate_reads T s k now_ms c items ns key t :
  kv_sync T s k -> load_kv s = Ok items -> T <= t ->
  (e ← entry_at (hydrate_kv now_ms c ∅ items).2 ns key; visible e t) = (e ← entry_at k ns key; visible e t).
Proof.
  intros [Ht Hh Hs] Hl HT. destruct (hydrate_table s now_ms c Ht) as (items' & Hl' & Hin).
  assert (items' = items) as -> by congruence.
  destruct (entry_at (hydrate_kv now_ms c ∅ items).2 ns key) as [e|] eqn:E.
  - apply Hin in E as [Hn Hg]. destruct (Hs ns key e Hn Hg) as [->|[-> Hv]]; [done|]. simpl. by apply Hv.
  - destruct (entry_at k ns key) as [e|] eqn:Ek; [|done]. apply Hh, Hin in Ek. congruence.
Qed.
End kv_sync.

(** ** Tables of envelopes *)

Lemma decode_all_spec {T} {pc : Postcard T} {pc_ok : PostcardOk T} (what : string) (items : list (string * bytes)) :
  Forall (fun kv => exists x : T, kv.2 = to_stdvec x) items ->
  exists xs, decode_all what items = Ok xs /\ forall x : T, x ∈ xs <-> exists k, (k, to_stdvec x) ∈ items.
Proof.
  induction items as [|[k v] items IH]; intros Hf; cbn [decode_all].
  { exists []. split; [done|]. set_solver. }
  apply Forall_cons in Hf as [[x Hx] Hf]. simpl in Hx. subst v. destruct (IH Hf) as (xs & -> & Hin).
  rewrite postcard_roundtrip. eexists. split; [reflexivity|]. intros y. rewrite elem_of_cons, Hin. split.
  - intros [->|[k' Hk]]; [exists k|exists k']; set_solver.
  - intros [k' [[= -> E]|Hk]%elem_of_cons]; [left|right; eauto].
    assert (Some y = Some x) as [= ->]; [|done]. rewrite <- !postcard_roundtrip. by rewrite E.
Qed.

Lemma load_envelopes {redb : Redb} {redb_ok : RedbOk} {pc_env : Postcard Envelope} {pc_env_ok : PostcardOk Envelope}
    (what : string) (t : Table bytes) :
  (forall k v, t_get t k = Some v -> exists env, v = env_to_bytes env) ->
  exists envs, decode_all (T := Envelope) what (t_iter t) = Ok envs /\
    forall env, env ∈ envs <-> exists k, t_get t k = Some (env_to_bytes env).
Proof.
  intros Ht. destruct (decode_all_spec (T := Envelope) what (t_iter t)) as (envs & He & Hin).
  - apply Forall_forall. intros [k v] Hg%t_iter_get. simpl. by apply (Ht k).
  - exists envs. split; [done|]. intros env. rewrite Hin. by setoid_rewrite t_iter_get.
Qed.

Lemma env_to_bytes_inj {pc_env : Postcard Envelope} {pc_env_ok : PostcardOk Envelope} (a b : Envelope) :
  env_to_bytes a = env_to_bytes b -> a = b.
Proof.
  unfold env_to_bytes. intros E. assert (Some a = Some b) as [= ->]; [|done].
  rewrite <- !postcard_roundtrip. by rewrite E.
Qed.

(** *** Manifests *)

Section manifest_sync.
Context {redb : Redb} {redb_ok : RedbOk} {crypto : Crypto} {hex : Hex}.
Context {pc_env : Postcard Envelope} {pc_env_ok : PostcardOk Envelope} {pc_manifest : Postcard WorkerManifest}.

(** The table holds exactly the envelopes of the manifests held. *)
Record manifest_sync (op : SignerId) (s : Store) (ms : ManifestSet) : Prop := mk_manifest_sync {
  msy_operator : operator ms = op;
  msy_sound : sound ms;
  msy_table : forall w v, t_get (MANIFESTS s) w = Some v <->
    exists r, Manifest.get ms w = Some r /\ v = env_to_bytes (rec_envelope r)
  }.

Lemma ingest_held (s : ManifestSet) (e : Envelope) (m : WorkerManifest) :
  accepted (operator s) e m -> Manifest.get s (name m) = Some (Manifest.record_of e m) ->
  (Manifest.ingest s e).1 = s.
Proof.
  intros Ha Hg. rewrite (ingest_accepted s e m Ha). cbv zeta. rewrite Hg.
  rewrite decide_True; [done|]. right. split; [done|]. apply le_of_refl.
Qed.

Lemma ingest_fresh (s : ManifestSet) (e : Envelope) (m : WorkerManifest) :
  accepted (operator s) e m -> Manifest.get s (name m) = None ->
  (Manifest.ingest s e).1 = mkManifestSet (operator s) (<[name m := Manifest.record_of e m]> (workers s)).
Proof. intros Ha Hg. rewrite (ingest_accepted s e m Ha). cbv zeta. by rewrite Hg. Qed.

Definition published (op : SignerId) (es : list Envelope) (w : string) (r : ManifestRecord) : Prop :=
  exists e m, e ∈ es /\ accepted op e m /\ name m = w /\ r = Manifest.record_of e m.

Lemma ingest_distinct (es : list Envelope) (s : ManifestSet) (w : string) (r : ManifestRecord) :
  (forall e, e ∈ es -> exists m, accepted (operator s) e m) ->
  (forall w r r', (Manifest.get s w = Some r \/ published (operator s) es w r) ->
     (Manifest.get s w = Some r' \/ published (operator s) es w r') -> r = r') ->
  Manifest.get (Manifest.ingest_all s es) w = Some r <->
  Manifest.get s w = Some r \/ published (operator s) es w r.
Proof.
  revert s. induction es as [|e es IH]; intros s Ha Hf; cbn [Manifest.ingest_all foldl].
  { unfold published. set_solver. }
  destruct (Ha e) as [m Hm]; [set_solver|].
  assert (forall w r, Manifest.get (Manifest.ingest s e).1 w = Some r <->
    Manifest.get s w = Some r \/ (w = name m /\ r = Manifest.record_of e m)) as Hone.
  { intros w' r'. destruct (Manifest.get s (name m)) as [old|] eqn:Eg.
    - assert (old = Manifest.record_of e m) as ->.
      { apply (Hf (name m)); [by left|]. right. exists e, m. set_solver. }
      rewrite (ingest_held s e m) by done. naive_solver.
    - rewrite (ingest_fresh s e m) by done. unfold Manifest.get in *; simpl. rewrite lookup_insert.
      destruct (decide (name m = w')) as [<-|Hne]; naive_solver. }
  assert (forall w r, published (operator s) (e :: es) w r <->
    (w = name m /\ r = Manifest.record_of e m) \/ published (operator s) es w r) as Hpub.
  { intros w' r'. unfold published. split.
    - intros (e' & m' & [->|Hin]%elem_of_cons & Hm' & <- & ->).
      + left. by rewrite (accepted_fun _ _ _ _ Hm' Hm).
      + right. eauto 10.
    - intros [[-> ->]|(e' & m' & Hin & Hrest)]; [exists e, m|exists e', m']; set_solver. }
  fold (Manifest.ingest_all (Manifest.ingest s e).1 es). rewrite IH; rewrite ingest_operator.
  - rewrite Hone, Hpub. tauto.
  - intros e' Hin. apply Ha. set_solver.
  - intros w' r1 r2. rewrite !Hone. intros H1 H2. apply (Hf w'); rewrite Hpub; tauto.
Qed.

(** Reopening gives back the same manifests. *)
Lemma manifests_reopen op s ms :
  manifest_sync op s ms ->
  exists envs, load_manifests s = Ok envs /\
    Manifest.ingest_all (Manifest.new_set op) envs = ms.
Proof.
  intros [Hop Hs Ht]. destruct (load_envelopes "corrupt manifest in store" (MANIFESTS s)) as (envs & He & Hin).
  { intros k v Hg. apply Ht in Hg as (r & _ & ->). eauto. }
  exists envs. split; [exact He|].
  assert (forall w r, published op envs w r <-> Manifest.get ms w = Some r) as Hpub.
  { intros w r. split.
    - intros (e & m & [k (r' & Hg & ->%env_to_bytes_inj)%Ht]%Hin & Hm & <- & ->).
      destruct (Hs _ _ Hg) as (Ha & _ & Hn & Hd). rewrite Hop in Ha.
      rewrite (accepted_fun _ _ _ _ Hm Ha), Hn, Hg. f_equal. destruct r'; unfold Manifest.record_of; simpl in *.
      by rewrite <- Hd.
    - intros Hg. destruct (Hs _ _ Hg) as (Ha & _ & Hn & Hd). rewrite Hop in Ha.
      exists (rec_envelope r), (manifest r). split_and!; try done.
      + apply Hin. exists w. apply Ht. eauto.
      + destruct r; unfold Manifest.record_of; simpl in *. by rewrite Hd. }
  assert (forall w, Manifest.get (Manifest.new_set op) w = None) as Hnone by (intros; apply lookup_empty).
  assert (forall w r, Manifest.get (Manifest.ingest_all (Manifest.new_set op) envs) w = Some r <-> Manifest.get ms w = Some r) as Hget.
  { intros w r. rewrite ingest_distinct; cbn [operator Manifest.new_set].
    - rewrite Hpub, Hnone. naive_solver.
    - intros e [k (r' & Hg & ->%env_to_bytes_inj)%Ht]%Hin. destruct (Hs _ _ Hg) as [Ha _]. rewrite Hop in Ha. eauto.
    - intros w' r1 r2. rewrite !Hpub, !Hnone. naive_solver. }
  pose proof (ingest_all_operator (Manifest.new_set op) envs) as Ho. cbn [operator Manifest.new_set] in Ho.
  assert (workers (Manifest.ingest_all (Manifest.new_set op) envs) = workers ms) as Hw.
  { apply map_eq. intros w. apply option_eq. intros r. apply (Hget w r). }
  revert Ho Hw. clear -Hop. destruct (Manifest.ingest_all _ envs) as [op' ws], ms as [op'' ws']. simpl in *.
  intros -> ->. by rewrite Hop.
Qed.
End manifest_sync.

(** *** Claims *)

(** The last separator splits a string in one way. *)
Lemma split_at_last (c : ascii) (a b x y : string) :
  contains_byte c x = false -> contains_byte c y = false ->
  (a ++ String c x)%string = (b ++ String c y)%string -> a = b /\ x = y.
Proof.
  assert (forall z u v, contains_byte c z = false -> String c z <> String u (v ++ String c y)) as Hno.
  { intros z u v Hz [= -> ->]. rewrite contains_byte_app in Hz. cbn [contains_byte] in Hz.
    rewrite bool_decide_true in Hz by done. by rewrite orb_true_r in Hz. }
  assert (forall z u v, contains_byte c z = false -> String c z <> String u (v ++ String c x)) as Hno'.
  { intros z u v Hz [= -> ->]. rewrite contains_byte_app in Hz. cbn [contains_byte] in Hz.
    rewrite bool_decide_true in Hz by done. by rewrite orb_true_r in Hz. }
  intros Hx Hy. revert b. induction a as [|d a IH]; intros [|d' b] E.
  - change ("" ++ ?s)%string with s in E. by injection E.
  - by destruct (Hno x d' b Hx).
  - by destruct (Hno' y d a Hy).
  - change (String d a ++ ?s)%string with (String d (a ++ s)) in E.
    change (String d' b ++ ?s)%string with (String d' (b ++ s)) in E. injection E as -> E.
    by destruct (IH b E) as [-> ->].
Qed.

Lemma hex_no_nul (s : string) : all_bytes is_hex_digit s = true -> contains_byte "000" s = false.
Proof.
  induction s as [|c s IH]; [done|]. cbn [all_bytes contains_byte].
  intros [Hc Hs]%andb_true_iff. rewrite IH by done. rewrite orb_false_r. apply bool_decide_eq_false. by intros ->.
Qed.

Section claim_sync.
Context {redb : Redb} {redb_ok : RedbOk} {crypto : Crypto} {hex : Hex} {hex_ok : HexOk}.
Context {pc_env : Postcard Envelope} {pc_env_ok : PostcardOk Envelope} {pc_claim : Postcard Claim}.

Lemma claim_key_inj (t t' : string) (h h' : PublicId) :
  is_bytes (id_bytes h) -> is_bytes (id_bytes h') ->
  claim_key t (pid_to_string h) = claim_key t' (pid_to_string h') -> t = t' /\ h = h'.
Proof.
  intros Hb Hb' E. unfold claim_key in E. change (NUL ++ ?s)%string with (String "000" s) in E.
  apply split_at_last in E as [-> E]; [|apply hex_no_nul, hex_encode_digits..]. split; [done|].
  unfold pid_to_string in E. assert (Ok (id_bytes h) = Ok (E := string) (id_bytes h')) as Ho.
  { rewrite <- !hex_decode_encode by done. by rewrite E. }
  destruct h, h'. simpl in Ho. by injection Ho as ->.
Qed.

(** A stored claim is held, or has been dead since [T]. *)
Record claim_sync (T : Z) (s : Store) (cs : ClaimSet) : Prop := mk_claim_sync {
  csy_table : forall k v, t_get (CLAIMS s) k = Some v ->
    exists env c, v = env_to_bytes env /\ claim_check env = Ok c /\ is_bytes (id_bytes (holder c)) /\
      k = claim_key (task c) (pid_to_string (holder c)) /\
      (mine cs (task c) (holder c) = Some (Claim.record_of env c) \/
       mine cs (task c) (holder c) = None /\ forall t, T <= t -> Claim.live c t = false);
  csy_held : forall tk h r, mine cs tk h = Some r ->
    exists env c, r = Claim.record_of env c /\ claim_check env = Ok c /\ is_bytes (id_bytes (holder c)) /\
      task c = tk /\ holder c = h /\ t_get (CLAIMS s) (claim_key tk (pid_to_string h)) = Some (env_to_bytes env)
  }.

Lemma claim_sync_put T s cs env c :
  claim_check env = Ok c -> is_bytes (id_bytes (holder c)) -> claim_sync T s cs ->
  claim_sync T (put_claim s (task c) (pid_to_string (holder c)) env)
    (mkClaimSet (<[task c := <[holder c := Claim.record_of env c]> (default ∅ (tasks cs !! task c))]> (tasks cs))).
Proof.
  intros Hc Hb [Ht Hh]. split.
  - intros k v. simpl. rewrite t_get_insert. destruct (decide (claim_key (task c) (pid_to_string (holder c)) = k)) as [<-|Hne].
    + intros [= <-]. exists env, c. split_and!; try done. left. rewrite mine_insert. by rewrite decide_True.
    + intros (env' & c' & -> & Hc' & Hb' & -> & Hm)%Ht. exists env', c'. split_and!; try done.
      rewrite mine_insert, decide_False; [done|]. intros [Et Eh]. by rewrite Et, Eh in Hne.
  - intros tk h r. rewrite mine_insert. simpl. rewrite t_get_insert.
    destruct (decide (task c = tk /\ holder c = h)) as [[<- <-]|Hne].
    + intros [= <-]. exists env, c. by rewrite decide_True.
    + intros (env' & c' & -> & Hc' & Hb' & <- & <- & Hg)%Hh. exists env', c'. split_and!; try done.
      rewrite decide_False; [done|]. intros E. apply claim_key_inj in E; [|done..]. by apply Hne.
Qed.

Lemma mine_gc (cs : ClaimSet) (now_ms hz : Z) (tk : string) (h : PublicId) :
  mine (Claim.gc cs now_ms hz).1 tk h =
  match mine cs tk h with
  | Some r => if Claim.gc_keep now_ms hz r then Some r else None
  | None => None
  end.
Proof.
  unfold mine, Claim.gc; simpl. rewrite lookup_omap. destruct (tasks cs !! tk) as [m|]; [|done]. simpl.
  assert (gc_task now_ms hz m !! h =
    match m !! h with Some r => if Claim.gc_keep now_ms hz r then Some r else None | None => None end) as Hl.
  { unfold gc_task. rewrite map_lookup_filter. destruct (m !! h) as [r|]; [|done]. simpl.
    by destruct (Claim.gc_keep now_ms hz r). }
  case_bool_decide as He; simpl; [|exact Hl]. rewrite <- Hl, He. by rewrite lookup_empty.
Qed.

Lemma claim_sync_gc T s cs now_ms :
  claim_sync T s cs -> claim_sync (Z.max T now_ms) s (Claim.gc cs now_ms HORIZON_MS).1.
Proof.
  intros [Ht Hh]. split.
  - intros k v (env & c & -> & Hc & Hb & -> & Hm)%Ht. exists env, c. split_and!; try done. rewrite mine_gc.
    destruct Hm as [->|[-> Hd]].
    + destruct (Claim.gc_keep now_ms HORIZON_MS _) eqn:E; [by left|]. right. split; [done|]. intros t Hle.
      destruct (Claim.live c t) eqn:El; [|done].
      assert (Claim.gc_keep now_ms HORIZON_MS (Claim.record_of env c) = true); [|congruence].
      apply (live_gc_keep _ _ _ t); [done|lia|done].
    + right. split; [done|]. intros t Hle. apply Hd. lia.
  - intros tk h r. rewrite mine_gc. destruct (mine cs tk h) as [r'|] eqn:E; [|done].
    destruct (Claim.gc_keep now_ms HORIZON_MS r'); [|done]. intros [= <-]. by apply Hh.
Qed.

Definition filed (envs : list Envelope) (tk : string) (h : PublicId) (r : ClaimRecord) : Prop :=
  exists env c, env ∈ envs /\ claim_check env = Ok c /\ task c = tk /\ holder c = h /\ r = Claim.record_of env c.

Lemma ingest_claims_distinct (envs : list Envelope) (cs : ClaimSet) (tk : string) (h : PublicId) (r : ClaimRecord) :
  (forall tk h r r', (mine cs tk h = Some r \/ filed envs tk h r) ->
     (mine cs tk h = Some r' \/ filed envs tk h r') -> r = r') ->
  mine (Claim.ingest_all cs envs) tk h = Some r <-> mine cs tk h = Some r \/ filed envs tk h r.
Proof.
  revert cs. induction envs as [|env envs IH]; intros cs Hf; cbn [Claim.ingest_all foldl].
  { unfold filed. set_solver. }
  fold (Claim.ingest_all (Claim.ingest cs env).1 envs).
  assert (forall tk h r, filed (env :: envs) tk h r <->
    (exists c, claim_check env = Ok c /\ task c = tk /\ holder c = h /\ r = Claim.record_of env c) \/
    filed envs tk h r) as Hfile.
  { intros tk' h' r'. unfold filed. setoid_rewrite elem_of_cons. naive_solver. }
  assert (forall tk h r, mine (Claim.ingest cs env).1 tk h = Some r <-> mine cs tk h = Some r \/
    (exists c, claim_check env = Ok c /\ task c = tk /\ holder c = h /\ r = Claim.record_of env c)) as Hone.
  { intros tk' h' r'. rewrite ingest_mine. destruct (claim_check env) as [c|err] eqn:Ec; [|naive_solver].
    destruct (decide (task c = tk' /\ holder c = h')) as [[<- <-]|Hne]; [|naive_solver].
    destruct (mine cs (task c) (holder c)) as [old|] eqn:Em; [|naive_solver].
    assert (old = Claim.record_of env c) as ->.
    { apply (Hf (task c) (holder c)); [by left|]. right. apply Hfile. left. by exists c. }
    unfold pick. rewrite bool_decide_true by done. naive_solver. }
  rewrite IH.
  - rewrite Hone, Hfile. tauto.
  - intros tk' h' r1 r2. rewrite !Hone. intros H1 H2. apply (Hf tk' h'); rewrite Hfile; tauto.
Qed.

Lemma claims_reopen T s cs :
  claim_sync T s cs ->
  exists envs, load_claims s = Ok envs /\
    forall tk h r, mine (Claim.ingest_all Claim.new_set envs) tk h = Some r <->
      mine cs tk h = Some r \/
      mine cs tk h = None /\ filed envs tk h r /\ forall t, T <= t -> Claim.live (claim r) t = false.
Proof.
  intros [Ht Hh]. destruct (load_envelopes "corrupt claim in store" (CLAIMS s)) as (envs & He & Hin).
  { intros k v (env & c & -> & _)%Ht. eauto. }
  exists envs. split; [exact He|].
  assert (forall tk h r, filed envs tk h r -> mine cs tk h = Some r \/
    mine cs tk h = None /\ forall t, T <= t -> Claim.live (claim r) t = false) as Hfile.
  { intros tk h r (env & c & [k (env' & c' & ->%env_to_bytes_inj & Hc' & _ & -> & Hm)%Ht]%Hin & Hc & <- & <- & ->).
    assert (c' = c) as -> by congruence. exact Hm. }
  assert (forall tk h r r', filed envs tk h r -> filed envs tk h r' -> r = r') as Huniq.
  { intros tk h r r' (env & c & [k Hk]%Hin & Hc & <- & <- & ->) (env' & c' & [k' Hk']%Hin & Hc' & Et & Eh & ->).
    destruct (Ht _ _ Hk) as (e1 & c1 & ->%env_to_bytes_inj & Hc1 & _ & -> & _).
    destruct (Ht _ _ Hk') as (e2 & c2 & ->%env_to_bytes_inj & Hc2 & _ & -> & _).
    assert (c1 = c) as -> by congruence. assert (c2 = c') as -> by congruence.
    rewrite Et, Eh, Hk in Hk'. injection Hk' as ->%env_to_bytes_inj. by assert (c' = c) as -> by congruence. }
  assert (forall tk h, mine Claim.new_set tk h = None) as Hnone by (intros; unfold mine; simpl; by rewrite lookup_empty).
  intros tk h r. rewrite ingest_claims_distinct.
  - rewrite Hnone. split.
    + intros [?|Hf]; [done|]. destruct (Hfile _ _ _ Hf) as [?|[? ?]]; [by left|]. by right.
    + intros [Hm|(_ & Hf & _)]; [|by right]. right.
      destruct (Hh _ _ _ Hm) as (env & c & -> & Hc & _ & <- & <- & Hg). exists env, c.
      split_and!; try done. apply Hin. eauto.
  - intros tk' h' r1 r2. rewrite Hnone. intros [?|?] [?|?]; try done. by eapply Huniq.
Qed.

Lemma live_values_perm (m m' : gmap PublicId ClaimRecord) (t : Z) :
  (forall h r, Claim.live (claim r) t = true -> m !! h = Some r <-> m' !! h = Some r) ->
  filter (fun r => Claim.live (claim r) t = true) (values m) ≡ₚ filter (fun r => Claim.live (claim r) t = true) (values m').
Proof.
  intros Hm. set (P := fun hr : PublicId * ClaimRecord => Claim.live (claim hr.2) t = true).
  rewrite <- (values_filter P _ m) by done. rewrite <- (values_filter P _ m') by done.
  assert (filter P m = filter P m') as ->; [|done].
  apply map_eq. intros h. apply option_eq. intros r. rewrite !map_lookup_filter_Some. unfold P; simpl. naive_solver.
Qed.

(** Reopening does not change who wins a task. *)
Lemma winner_reopen T s cs envs tk t :
  claim_sync T s cs -> load_claims s = Ok envs -> T <= t ->
  win_key <$> winner (Claim.ingest_all Claim.new_set envs) tk t = win_key <$> winner cs tk t.
Proof.
  intros Hs Hl HT. destruct (claims_reopen T s cs Hs) as (envs' & Hl' & Hm).
  assert (envs' = envs) as -> by congruence.
  assert (forall cs, winner cs tk t = winner_in (values (default ∅ (tasks cs !! tk))) t) as Hw.
  { intros cs'. unfold winner. destruct (tasks cs' !! tk) as [m|]; [done|]. simpl.
    unfold winner_in, values. by rewrite map_to_list_empty. }
  rewrite !Hw. unfold winner_in. apply min_by_key_perm, live_values_perm. intros h r Hlive.
  rewrite !mine_default, Hm. split; [|by left]. intros [?|(_ & _ & Hd)]; [done|]. by rewrite Hd in Hlive.
Qed.
End claim_sync.

(** ** The node's invariant *)

Section node_inv.
Context {redb : Redb} {redb_ok : RedbOk} {crypto : Crypto} {hex : Hex} {hex_ok : HexOk}.
Context {pc_env : Postcard Envelope} {pc_env_ok : PostcardOk Envelope}.
Context {pc_manifest : Postcard WorkerManifest} {pc_claim : Postcard Claim}.
Context {pc_kv : Postcard KvEntry} {pc_kv_ok : PostcardOk KvEntry} {pc_audit : Postcard DataMutationAudit}.

(** Everything a node is asked to do that changes its state. *)
Inductive NodeOp :=
| OpManifest (env : Envelope)
| OpClaim (env : Envelope) (now_ms : Z)
| OpTry (t : string) (ttl_ms : Z) (now1 now2 now3 : Z)
| OpRenew (t : string) (release : bool) (now1 now2 : Z)
| OpPut (ns key : string) (v : option bytes) (exp : option Z) (now1 now2 : Z)
| OpPutMeta (ns key : string) (v : option bytes) (exp : option Z) (metadata : option bytes) (now1 now2 : Z)
| OpMerge (ns : string) (items : list (string * KvEntry)) (now_ms : nat -> Z)
| OpPeers (p : gmap string PeerView)
| OpAdmit (policy : result Z string) (now_ms : Z)
| OpPorts (ports : gmap string Z)
| OpStatus (w : string) (v : Z) (state detail : string) (now_ms : Z)
| OpLog (w : string) (v : Z) (stream m : string) (now_ms : Z)
| OpEnqueue (e : RequestLogEntry)
| OpTake
| OpRequeue (es : list RequestLogEntry)
| OpGc (now_ms : Z).

Definition node_step (n : Node) (op : NodeOp) : Node :=
  match op with
  | OpManifest env => (ingest_manifest n env).1
  | OpClaim env now_ms => (ingest_claim n env now_ms).1
  | OpTry t ttl now1 now2 now3 => (claim_try n t ttl now1 now2 now3).1
  | OpRenew t release now1 now2 => claim_renew n t release now1 now2
  | OpPut ns key v exp now1 now2 => kv_put n ns key v exp now1 now2
  | OpPutMeta ns key v exp metadata now1 now2 => kv_put_with_metadata n ns key v exp metadata now1 now2
  | OpMerge ns items now_ms => (kv_merge_remote n ns items now_ms).1
  | OpPeers p => update_peers n p
  | OpAdmit policy now_ms => (admit_public_request policy n now_ms).1
  | OpPorts ports => set_worker_ports n ports
  | OpStatus w v state detail now_ms => set_runtime_status n w v state detail now_ms
  | OpLog w v stream m now_ms => default n (append_runtime_log n w v stream m now_ms)
  | OpEnqueue e => enqueue_request_log n e
  | OpTake => (take_pending_request_logs n).1
  | OpRequeue es => requeue_request_logs n es
  | OpGc now_ms => node_gc n now_ms
  end.

Definition node_run (n : Node) (ops : list NodeOp) : Node := foldl node_step n ops.

(** A namespace is named without NUL, and a decoded holder is made of bytes. *)
Definition op_ok (op : NodeOp) : Prop :=
  match op with
  | OpClaim env _ => forall c : Claim, open None env = Ok c -> is_bytes (id_bytes (holder c))
  | OpPut ns _ _ _ _ _ | OpPutMeta ns _ _ _ _ _ _ | OpMerge ns _ _ => no_nul ns
  | _ => True
  end.

(** The latest collection among [ops], and before them. *)
Definition gc_time (T : Z) (ops : list NodeOp) : Z :=
  foldl (fun T op => match op with OpGc now_ms => Z.max T now_ms | _ => T end) T ops.

Record node_ok (T : Z) (n : Node) : Prop := mk_node_ok {
  nk_id : is_bytes (id_bytes (id n));
  nk_manifests : manifest_sync (cfg_operator (cfg n)) (node_store n) (manifests (inner n));
  nk_claims : claim_sync T (node_store n) (claims (inner n));
  nk_kv : kv_sync T (node_store n) (kv (inner n))
  }.

(** An operation outside the three tables and structures. *)
Lemma node_ok_frame T (n n' : Node) :
  cfg n' = cfg n -> keypair n' = keypair n -> node_store n' = node_store n ->
  manifests (inner n') = manifests (inner n) -> claims (inner n') = claims (inner n) ->
  kv (inner n') = kv (inner n) -> node_ok T n -> node_ok T n'.
Proof.
  intros Hc Hk Hs Hm Hcl Hkv [Hid ? ? ?]. split; unfold id in *; rewrite ?Hc, ?Hk, ?Hs, ?Hm, ?Hcl, ?Hkv; done.
Qed.

Lemma manifest_sync_table op s s' ms : MANIFESTS s' = MANIFESTS s -> manifest_sync op s ms -> manifest_sync op s' ms.
Proof. intros E [Ho Hs Ht]. split; rewrite ?E; done. Qed.

Lemma claim_sync_table T s s' cs : CLAIMS s' = CLAIMS s -> claim_sync T s cs -> claim_sync T s' cs.
Proof. intros E [Ht Hh]. split; rewrite ?E; done. Qed.

Lemma put_kv_audited_tables s ns key e audit :
  MANIFESTS (put_kv_audited s ns key e audit) = MANIFESTS s /\ CLAIMS (put_kv_audited s ns key e audit) = CLAIMS s.
Proof. by destruct audit. Qed.

Lemma ingest_changed (ms ms' : ManifestSet) (e : Envelope) :
  Manifest.ingest ms e = (ms', Ok Manifest.Changed) ->
  exists m, accepted (operator ms) e m /\
    ms' = mkManifestSet (operator ms) (<[name m := Manifest.record_of e m]> (workers ms)).
Proof.
  intros H. assert (exists m, accepted (operator ms) e m) as [m Hm].
  { unfold Manifest.ingest in H. unfold accepted. destruct (open_manifest _ e) as [m|]; [|done].
    destruct (validate m) as [[]|] eqn:Ev; [|done]. by exists m. }
  exists m. split; [done|]. rewrite (ingest_accepted ms e m Hm) in H. cbv zeta in H.
  destruct (Manifest.get ms (name m)); [repeat case_decide; try done|]; by injection H as <-.
Qed.

Lemma accepted_open (op : SignerId) (e : Envelope) (m : WorkerManifest) :
  accepted op e m -> open (Some op) e = Ok m.
Proof. intros [H _]. unfold open_manifest in H. repeat case_match; congruence. Qed.

Lemma ingest_manifest_ok T (n : Node) env : node_ok T n -> node_ok T (ingest_manifest n env).1.
Proof.
  intros [Hid Hm Hc Hk]. unfold ingest_manifest.
  destruct (Manifest.ingest _ env) as [ms [[]|]] eqn:Ei; try done.
  pose proof (ingest_sound (manifests (inner n)) env (msy_sound _ _ _ Hm)) as Hsound. rewrite Ei in Hsound.
  apply ingest_changed in Ei as (m & Ha & ->). destruct Hm as [Ho Hs Ht]. rewrite Ho in *.
  cbv zeta. cbn [cfg set_inner]. rewrite (accepted_open _ _ _ Ha). split; [done| | |].
  - split; [done|exact Hsound|]. intros w v. simpl. rewrite t_get_insert. unfold Manifest.get; simpl.
    rewrite lookup_insert. destruct (decide (name m = w)) as [<-|]; [|apply Ht].
    split; [intros [= <-]; by exists (Manifest.record_of env m)|]. by intros (r & [= <-] & ->).
  - by apply (claim_sync_table _ (node_store n)).
  - by apply (kv_sync_table _ (node_store n)).
Qed.

Lemma ingest_claim_changed (cs cs' : ClaimSet) (env : Envelope) :
  Claim.ingest cs env = (cs', Ok Claim.Changed) ->
  exists c, claim_check env = Ok c /\ open None env = Ok c /\
    cs' = mkClaimSet (<[task c := <[holder c := Claim.record_of env c]> (default ∅ (tasks cs !! task c))]> (tasks cs)).
Proof.
  unfold Claim.ingest. destruct (claim_check env) as [c|] eqn:Ec; [|done]. intros H. exists c. split; [done|]. split.
  - unfold claim_check in Ec. destruct (open None env) as [c'|]; [|done]. repeat case_match; congruence.
  - cbv zeta in H. repeat case_match; try discriminate; by injection H as <-.
Qed.

Lemma ingest_claim_ok T (n : Node) env now_ms :
  (forall c, claim_check env = Ok c -> is_bytes (id_bytes (holder c))) ->
  node_ok T n -> node_ok T (ingest_claim n env now_ms).1.
Proof.
  intros Hb [Hid Hm Hc Hk]. unfold ingest_claim. destruct (Claim.ingest _ env) as [cs [[]|]] eqn:Ei; try done.
  apply ingest_claim_changed in Ei as (c & Hcheck & -> & ->). cbv zeta. split; simpl.
  - done.
  - by apply (manifest_sync_table _ (node_store n)).
  - apply claim_sync_put; [done|by apply Hb|done].
  - by apply (kv_sync_table _ (node_store n)).
Qed.

Lemma hlc_now_ok T (n : Node) now_ms : node_ok T n -> node_ok T (hlc_now n now_ms).1.
Proof. by apply node_ok_frame. Qed.

Lemma hlc_now_keypair (n : Node) now_ms : keypair (hlc_now n now_ms).1 = keypair n.
Proof. done. Qed.

(** A claim signed by this node names it as the holder. *)
Lemma own_claim_holder (n : Node) {A} {pc : Postcard A} (x : A) c :
  claim_check (seal x (keypair n)) = Ok c -> holder c = id n.
Proof.
  unfold claim_check. destruct (open None _) as [c'|]; [|done]. case_bool_decide as Hs; simpl; [|done].
  repeat case_match; intros [= <-]. unfold seal, seal_any in Hs. simpl in Hs. by injection Hs.
Qed.

Lemma claim_try_ok T (n : Node) t ttl now1 now2 now3 : node_ok T n -> node_ok T (claim_try n t ttl now1 now2 now3).1.
Proof.
  intros H. unfold claim_try. destruct (negb _); [done|].
  pose proof (hlc_now_ok T n now2 H) as H1. pose proof (hlc_now_keypair n now2) as Hk.
  destruct (hlc_now n now2) as [n1 h]; cbn [fst] in *. rewrite Hk.
  pose proof (ingest_claim_ok T n1 (make_claim (keypair n) t h ttl) now3) as H2.
  destruct (ingest_claim n1 _ now3) as [n2 changed]; cbn [fst] in *. apply (node_ok_frame T n2); [done..|]. apply H2; [|done].
  intros c Hc. unfold make_claim in Hc. apply own_claim_holder in Hc as ->. apply H.
Qed.

Lemma claim_renew_ok T (n : Node) t release now1 now2 : node_ok T n -> node_ok T (claim_renew n t release now1 now2).
Proof.
  intros H. unfold claim_renew. destruct (mine _ t (id n)) as [r|]; [|done].
  pose proof (hlc_now_ok T n now1 H) as H1. pose proof (hlc_now_keypair n now1) as Hk.
  destruct (hlc_now n now1) as [n1 h]; cbn [fst] in *. rewrite Hk.
  pose proof (ingest_claim_ok T n1 (renew (keypair n) (claim r) h release) now2) as H2.
  destruct (ingest_claim n1 _ now2) as [n2 changed]; cbn [fst] in *. apply (node_ok_frame T n2); [done..|]. apply H2; [|done].
  intros c Hc. unfold renew in Hc. apply own_claim_holder in Hc as ->. apply H.
Qed.

Lemma kv_put_entry_ok T (n : Node) ns key v exp now_ms :
  no_nul ns -> node_ok T n -> node_ok T (kv_put_entry n ns key v exp now_ms).
Proof.
  intros Hn [Hid Hm Hc Hk]. unfold kv_put_entry, Kv.put. cbn. split; simpl.
  - done.
  - eapply manifest_sync_table; [|exact Hm]. apply put_kv_audited_tables.
  - eapply claim_sync_table; [|exact Hc]. apply put_kv_audited_tables.
  - by apply kv_sync_put.
Qed.

Lemma metadata_no_nul ns : no_nul (kv_metadata_namespace ns).
Proof.
  unfold no_nul, kv_metadata_namespace. rewrite contains_byte_app.
  rewrite (hex_no_nul (hex_encode _)) by apply hex_encode_digits. done.
Qed.

Lemma merge_items_ok T ns items (n : Node) now_ms :
  no_nul ns -> node_ok T n -> node_ok T (merge_items n ns items now_ms).1.
Proof.
  intros Hn. revert n now_ms. induction items as [|[key e] items IH]; intros n now_ms H; cbn [merge_items]; [done|].
  set (n1 := set_inner n _). assert (node_ok T n1) as H1 by (by eapply node_ok_frame; [..|exact H]).
  cbv zeta. destruct (merge_cases (namespace (kv (inner n1)) ns) key e) as [->|[-> (old & Ho & _)]].
  - rewrite bool_decide_true by done. set (n2 := set_node_store _ _). assert (node_ok T n2) as H2.
    { destruct H1 as [Hid Hm Hc Hk]. split; simpl.
      - done.
      - eapply manifest_sync_table; [|exact Hm]. apply put_kv_audited_tables.
      - eapply claim_sync_table; [|exact Hc]. apply put_kv_audited_tables.
      - by apply kv_sync_put. }
    specialize (IH n2 (fun i => now_ms (S i)) H2). by destruct (merge_items n2 ns items _).
  - rewrite bool_decide_false by done. set (n2 := set_inner n1 _). assert (node_ok T n2) as H2.
    { destruct H1 as [Hid Hm Hc Hk]. split; [done|exact Hm|exact Hc|]. simpl. eapply kv_sync_ext; [|exact Hk].
      intros ns' key'. simpl. rewrite entry_at_insert. destruct (decide (ns = ns')) as [<-|]; [|done].
      apply entry_at_namespace. }
    specialize (IH n2 (fun i => now_ms (S i)) H2). by destruct (merge_items n2 ns items _).
Qed.

Lemma node_step_ok T (n : Node) op :
  op_ok op -> node_ok T n -> node_ok (gc_time T [op]) (node_step n op).
Proof.
  intros Ho H. destruct op; cbn [node_step gc_time foldl op_ok] in *.
  - by apply ingest_manifest_ok.
  - apply ingest_claim_ok; [|done]. intros c Hc. apply Ho. unfold claim_check in Hc.
    destruct (open None env) as [c'|]; [|done]. repeat case_match; congruence.
  - by apply claim_try_ok.
  - by apply claim_renew_ok.
  - unfold kv_put. destruct (starts_with _ _); repeat apply kv_put_entry_ok; auto using metadata_no_nul.
  - unfold kv_put_with_metadata. repeat apply kv_put_entry_ok; auto using metadata_no_nul.
  - pose proof (merge_items_ok T ns items n now_ms Ho H) as Hm. unfold kv_merge_remote.
    destruct (merge_items n ns items now_ms) as [n1 applied]; cbn [fst] in *.
    destruct (0 <? applied)%Z; [|done]. by eapply node_ok_frame; [..|exact Hm].
  - by eapply node_ok_frame; [..|exact H].
  - unfold admit_public_request. destruct policy as [limit|]; [|done].
    destruct (quota_request_window (inner n)) as [m used].
    destruct (_ <=? _)%Z; by eapply node_ok_frame; [..|exact H].
  - unfold set_worker_ports. case_bool_decide; [done|]. by eapply node_ok_frame; [..|exact H].
  - unfold set_runtime_status. destruct (runtime_status (inner n) !! w) as [prior|]; [destruct (same_status prior v state detail); [done|]|]; by eapply node_ok_frame; [..|exact H].
  - unfold append_runtime_log. destruct (clip_message m); [|done]. by eapply node_ok_frame; [..|exact H].
  - by eapply node_ok_frame; [..|exact H].
  - by eapply node_ok_frame; [..|exact H].
  - by eapply node_ok_frame; [..|exact H].
  - destruct H as [Hid Hm Hc Hk]. split; [done|exact Hm|by apply claim_sync_gc|by apply kv_sync_gc].
Qed.

Lemma node_run_ok ops T (n : Node) :
  Forall op_ok ops -> node_ok T n -> node_ok (gc_time T ops) (node_run n ops).
Proof.
  revert T n. induction ops as [|op ops IH]; intros T n Hf H; [done|].
  apply Forall_cons in Hf as [Ho Hf]. apply (IH (gc_time T [op])); [done|]. by apply node_step_ok.
Qed.

Lemma fresh_node cf kp now_ms : is_bytes (id_bytes (public kp)) ->
  exists n, node_open cf kp store_open now_ms = Ok n /\ node_ok 0 n.
Proof.
  intros Hb.
  assert (kv_ok store_open) as Hkv by (intros k v; simpl; by rewrite t_get_new).
  assert (manifest_sync (cfg_operator cf) store_open (Manifest.new_set (cfg_operator cf))) as Hm.
  { split; [done|intros w r; unfold Manifest.get; simpl; by rewrite lookup_empty|]. intros w v. simpl.
    rewrite t_get_new. unfold Manifest.get; simpl. setoid_rewrite lookup_empty. naive_solver. }
  assert (claim_sync 0 store_open Claim.new_set) as Hc.
  { split; [intros k v; simpl; by rewrite t_get_new|]. intros tk h r. unfold mine. simpl. by rewrite lookup_empty. }
  destruct (hydrate_table store_open now_ms Hlc.new Hkv) as (items & Hl & Hin).
  destruct (manifests_reopen _ _ _ Hm) as (ms & Hlm & Hms).
  destruct (claims_reopen 0 _ _ Hc) as (cs & Hlc & Hcs). unfold node_open. rewrite Hlm, Hlc, Hl.
  destruct (hydrate_kv now_ms Hlc.new ∅ items) as [c k]; cbn [snd] in *. eexists. split; [reflexivity|].
  assert (Claim.ingest_all Claim.new_set cs = Claim.new_set) as Hce.
  { apply mine_ext; [by apply ingest_all_no_empty; intros t m; simpl; rewrite lookup_empty|
      by intros t m; simpl; rewrite lookup_empty|].
    intros t h. apply option_eq. intros r. rewrite Hcs. unfold mine at 1 2 3; simpl. rewrite lookup_empty; simpl.
    split; [|done]. intros [?|(_ & (env & cc & Hin' & _) & _)]; [done|].
    destruct (load_envelopes "corrupt claim in store" (CLAIMS store_open)) as (envs & He & Hi).
    { intros k' v. simpl. by rewrite t_get_new. }
    assert (envs = cs) as -> by (unfold load_claims in Hlc; congruence).
    apply Hi in Hin' as [k' Hk']. simpl in Hk'. by rewrite t_get_new in Hk'. }
  split; simpl; [done|by rewrite Hms|by rewrite Hce|]. split; [done| |].
  - intros ns key e He. by apply Hin in He.
  - intros ns key e Hn He. left. by apply Hin.
Qed.

Lemma merge_items_cfg ns items (n : Node) now_ms : cfg (merge_items n ns items now_ms).1 = cfg n.
Proof.
  revert n now_ms. induction items as [|[key e] items IH]; intros n now_ms; cbn [merge_items]; [done|].
  cbv zeta. destruct (Kv.merge _ key e) as [space m].
  match goal with |- context [merge_items ?x ns items ?f] => specialize (IH x f); destruct (merge_items x ns items f) end.
  cbn [fst] in *. rewrite IH. by case_bool_decide.
Qed.

Lemma ingest_claim_cfg (n : Node) env now_ms : cfg (ingest_claim n env now_ms).1 = cfg n.
Proof. unfold ingest_claim. by repeat case_match. Qed.

Lemma node_step_cfg (n : Node) op : cfg (node_step n op) = cfg n.
Proof.
  destruct op; cbn [node_step]; try done.
  - unfold ingest_manifest. repeat case_match; try done; by simplify_eq.
  - apply ingest_claim_cfg.
  - unfold claim_try. destruct (negb _); [done|]. unfold hlc_now, Hlc.now. cbv zeta. cbn [fst snd].
    match goal with |- context [ingest_claim ?x ?e ?t] =>
      pose proof (ingest_claim_cfg x e t) as H; by destruct (ingest_claim x e t) end.
  - unfold claim_renew. destruct (mine _ t (id n)); [|done]. unfold hlc_now, Hlc.now. cbv zeta.
    match goal with |- context [ingest_claim ?x ?e ?t] =>
      pose proof (ingest_claim_cfg x e t) as H; by destruct (ingest_claim x e t) end.
  - unfold kv_put. by destruct (starts_with _ _).
  - unfold kv_merge_remote. pose proof (merge_items_cfg ns items n now_ms) as H.
    destruct (merge_items n ns items now_ms); cbn [fst] in *. by destruct (_ <? _)%Z.
  - unfold admit_public_request. destruct policy; [|done]. destruct (quota_request_window (inner n)).
    by destruct (_ <=? _)%Z.
  - unfold set_worker_ports. by case_bool_decide.
  - unfold set_runtime_status.
    destruct (runtime_status (inner n) !! w) as [prior|]; [by destruct (same_status prior v state detail)|done].
  - unfold append_runtime_log. by destruct (clip_message m).
Qed.

Lemma node_run_cfg ops (n : Node) : cfg (node_run n ops) = cfg n.
Proof.
  revert n. induction ops as [|op ops IH]; intros n; [done|]. cbn [node_run foldl].
  fold (node_run (node_step n op) ops). by rewrite IH, node_step_cfg.
Qed.

(** Reopening a node from its store. *)
Lemma node_reopen T (n : Node) now_ms :
  node_ok T n ->
  exists n', node_open (cfg n) (keypair n) (node_store n) now_ms = Ok n' /\
    manifests (inner n') = manifests (inner n) /\
    forall t, T <= t ->
      (forall ns key, kv_get n' ns key t = kv_get n ns key t) /\
      (forall tk, win_key <$> winner (claims (inner n')) tk t = win_key <$> winner (claims (inner n)) tk t).
Proof.
  intros [Hid Hm Hc Hk]. destruct (manifests_reopen _ _ _ Hm) as (ms & Hlm & Hms).
  destruct (claims_reopen _ _ _ Hc) as (cs & Hlc & _).
  destruct (hydrate_table _ now_ms Hlc.new (ks_table _ _ _ Hk)) as (items & Hl & _).
  unfold node_open. rewrite Hlm, Hlc, Hl.
  pose proof (fun ns key t => hydrate_reads T _ _ now_ms Hlc.new items ns key t Hk Hl) as Hr.
  destruct (hydrate_kv now_ms Hlc.new ∅ items) as [c k]; cbn [snd] in *. eexists. split; [reflexivity|].
  simpl. split; [by rewrite Hms|]. intros t Ht. split.
  - intros ns key. rewrite !kv_get_entry. by apply Hr.
  - intros tk. by apply (winner_reopen T (node_store n)).
Qed.
End node_inv.

(** ** Properties *)


(** A node on the sample store, for witnesses. *)
Module SampleNode.
Definition audit_codec : Postcard DataMutationAudit :=
  {| to_stdvec := fun _ => []; from_bytes := fun _ => None |}.
Definition config : NodeConfig := mkConfig SampleManifest.op true (Some "workers.example").
Definition boot : result (Node (redb := SampleRedb.redb) (crypto := Sample.crypto)) StoreError :=
  node_open (redb := SampleRedb.redb) (crypto := Sample.crypto) (hex := Sample.hex)
    (pc_env := SampleCodec.codec Envelope) (pc_manifest := SampleManifest.codec) (pc_claim := SampleCodec.codec Claim)
    (pc_kv := SampleCodec.codec KvEntry)
    config (Sample.keypair [1]) (store_open (redb := SampleRedb.redb)) (fun _ => 1).
Definition start : Node (redb := SampleRedb.redb) (crypto := Sample.crypto) :=
  mkNode (redb := SampleRedb.redb) (crypto := Sample.crypto) config (Sample.keypair [1]) (store_open (redb := SampleRedb.redb))
    (mkInner Hlc.new Claim.new_set (Manifest.new_set SampleManifest.op) ∅ ∅ ∅ ∅ ∅ [] (0, 0) 0) [].

Lemma boot_start : boot = Ok start.
Proof. reflexivity. Qed.

Definition run : list NodeOp -> Node (redb := SampleRedb.redb) (crypto := Sample.crypto) :=
  node_run (redb := SampleRedb.redb) (crypto := Sample.crypto) (hex := Sample.hex)
    (pc_env := SampleCodec.codec Envelope) (pc_manifest := SampleManifest.codec) (pc_claim := SampleCodec.codec Claim)
    (pc_kv := SampleCodec.codec KvEntry) (pc_audit := audit_codec) start.
Definition write : NodeOp := OpPut "ns" "k" (Some [7]) None 5 6.
End SampleNode.

