(* ===== verification/NodeProps.v ===== *)
(** * NodeProps: timestamps, listings, budgets and logs of a node (crates/rf/src/node.rs)

    The clock of a node is past everything it has seen, so its own writes win;
    pages of a KV listing add up to the listing; the shares of the request budget
    add up to the budget; the log queue drops the oldest first. *)

From Stdlib Require Import ZArith Lia Ascii.
From stdpp Require Import prelude gmap sorting strings list.
From S2P Require Import Prelude Text Hlc Identity Envelope Kv Claim Manifest Quorum DataAudit Observability Store Node NodeFacts.
Open Scope Z_scope.

(** ** The clock is past everything seen *)

Section clock.
Context {redb : Redb} {crypto : Crypto} {hex : Hex}.
Context {pc_env : Postcard Envelope} {pc_manifest : Postcard WorkerManifest}.
Context {pc_claim : Postcard Claim} {pc_claim_ok : PostcardOk Claim}.
Context {pc_kv : Postcard KvEntry} {pc_audit : Postcard DataMutationAudit}.

Lemma hlc_beats (e old : KvEntry) : hlc old ≺ hlc e -> beats e old = true.
Proof.
  intros H. apply ltb_lt. unfold rank, lt_of, cmp, pair_cmp, then_with. cbn [fst snd].
  unfold lt_of in H. by rewrite H.
Qed.

(** [L]: the greatest [u32]; a logical counter below it does not wrap. *)
Definition L : Z := 2 ^ 32 - 1.

(** Timestamps in [S] and of every entry held are at most the clock's, whose
    logical counter is below [B]. *)
Definition clock_ok (B : Z) (S : list Hlc) (n : Node) : Prop :=
  logical_below B (Hlc.last (clock (inner n))) /\
  (forall h, h ∈ S -> h ⪯ Hlc.last (clock (inner n))) /\
  (forall ns key e, entry_at (kv (inner n)) ns key = Some e -> hlc e ⪯ Hlc.last (clock (inner n))).

Lemma clock_ok_frame B S (n n' : Node) :
  clock (inner n') = clock (inner n) -> kv (inner n') = kv (inner n) -> clock_ok B S n -> clock_ok B S n'.
Proof. unfold clock_ok. by intros -> ->. Qed.

(** Advancing the clock. *)
Lemma clock_ok_advance B B' S S' (n n' : Node) :
  kv (inner n') = kv (inner n) -> Hlc.last (clock (inner n)) ⪯ Hlc.last (clock (inner n')) ->
  logical_below B' (Hlc.last (clock (inner n'))) ->
  (forall h, h ∈ S' -> h ∈ S \/ h ⪯ Hlc.last (clock (inner n'))) ->
  clock_ok B S n -> clock_ok B' S' n'.
Proof.
  intros Hk Hle Hb Hs (_ & HS & He). split_and!; [done| |].
  - intros h [Hh|Hh]%Hs; [|done]. eapply le_of_trans; [by apply HS|done].
  - rewrite Hk. intros ns key e Hin. eapply le_of_trans; [by eapply He|done].
Qed.

Lemma hlc_now_clock B S (n : Node) now_ms :
  B < L -> clock_ok B S n ->
  clock_ok (B + 1) S (hlc_now n now_ms).1 /\
  Hlc.last (clock (inner n)) ≺ (hlc_now n now_ms).2 /\
  Hlc.last (clock (inner (hlc_now n now_ms).1)) = (hlc_now n now_ms).2 /\
  logical_below (B + 1) (hlc_now n now_ms).2.
Proof.
  unfold L. intros HB H. pose proof H as (Hb & _).
  assert (Hlc.last (clock (inner n)) ≺ (Hlc.now (clock (inner n)) now_ms).2) as Hlt.
  { apply now_gt_last. eapply logical_below_mono; [|exact Hb]. lia. }
  assert (logical_below (B + 1) (Hlc.now (clock (inner n)) now_ms).2) as Hb' by (apply now_logical; [lia|done]).
  split_and!; [|exact Hlt|done|exact Hb']. eapply clock_ok_advance; [..|exact H]; try done.
  - by apply lt_of_le.
  - auto.
Qed.

Lemma observe_clock B S (n : Node) r now_ms :
  B < L -> logical_below B r -> clock_ok B S n ->
  clock_ok (B + 1) (r :: S) (set_inner n (set_clock (inner n) (observe (clock (inner n)) r now_ms))).
Proof.
  unfold L. intros HB Hr H. pose proof H as (Hb & _).
  destruct (observe_ge (clock (inner n)) r now_ms) as [H1 H2];
    [eapply logical_below_mono; [|exact Hb]; lia|eapply logical_below_mono; [|exact Hr]; lia|].
  eapply clock_ok_advance; [..|exact H]; try done.
  - apply observe_logical; [lia|done|done].
  - intros h [->|?]%elem_of_cons; [by right|by left].
Qed.

Lemma clock_ok_mono B B' S S' (n : Node) : B <= B' -> S' ⊆ S -> clock_ok B S n -> clock_ok B' S' n.
Proof.
  intros HB HS (Hb & Hs & He). split_and!; [by eapply logical_below_mono| |done]. intros h Hh. by apply Hs, HS.
Qed.

(** Writing an entry whose timestamp the clock has reached. *)
Lemma clock_ok_put B S (n n' : Node) ns key e :
  clock (inner n') = clock (inner n) -> hlc e ⪯ Hlc.last (clock (inner n)) ->
  kv (inner n') = <[ns := mkNamespace (<[key := e]> (entries (namespace (kv (inner n)) ns)))]> (kv (inner n)) ->
  clock_ok B S n -> clock_ok B S n'.
Proof.
  intros Hc He Hk (Hb & Hs & Hent). unfold clock_ok. rewrite Hc, Hk. split_and!; [done..|].
  intros ns' key' e'. rewrite entry_at_put. case_decide; [by intros [= <-]|apply Hent].
Qed.

Lemma kv_put_entry_clock B S (n : Node) ns key v exp now_ms :
  B < L -> clock_ok B S n -> clock_ok (B + 1) S (kv_put_entry n ns key v exp now_ms).
Proof.
  intros HB H. destruct (hlc_now_clock B S n now_ms HB H) as (H1 & _ & Hl & _). unfold kv_put_entry.
  destruct (hlc_now n now_ms) as [n1 h]; cbn [fst snd] in *. unfold Kv.put. cbv zeta.
  eapply (clock_ok_put _ _ n1); [done| |done|done]. simpl. rewrite Hl. apply le_of_refl.
Qed.

Lemma merge_items_clock items B S ns (n : Node) now_ms :
  B + Z.of_nat (length items) <= L -> Forall (fun ke => logical_below B (hlc ke.2)) items -> clock_ok B S n ->
  clock_ok (B + Z.of_nat (length items)) ((fun ke => hlc ke.2) <$> items) (merge_items n ns items now_ms).1 /\
  clock_ok (B + Z.of_nat (length items)) S (merge_items n ns items now_ms).1.
Proof.
  revert B S n now_ms.
  induction items as [|[key e] items IH]; intros B S n now_ms HB Hf H; cbn [merge_items].
  { simpl. rewrite Z.add_0_r. split; [|done]. eapply clock_ok_mono; [..|exact H]; [lia|set_solver]. }
  apply Forall_cons in Hf as [He Hf]. cbn [length] in *. rewrite Nat2Z.inj_succ in *.
  pose proof (observe_clock B S n (hlc e) (now_ms O)) as H1. set (n1 := set_inner n _) in *.
  specialize (H1 ltac:(lia) He H). cbv zeta.
  assert (hlc e ⪯ Hlc.last (clock (inner n1))) as Hle by (apply H1; set_solver).
  assert (forall n2, clock_ok (B + 1) (hlc e :: S) n2 ->
    clock_ok (B + Z.succ (Z.of_nat (length items))) (hlc e :: ((fun ke => hlc ke.2) <$> items))
      (merge_items n2 ns items (fun i => now_ms (Datatypes.S i))).1 /\
    clock_ok (B + Z.succ (Z.of_nat (length items))) S (merge_items n2 ns items (fun i => now_ms (Datatypes.S i))).1) as Hrest.
  { intros n2 H2. destruct (IH (B + 1) (hlc e :: S) n2 (fun i => now_ms (Datatypes.S i))) as [Ha Hb]; [lia| |done|].
    - eapply Forall_impl; [exact Hf|]. intros ke Hke. simpl in *. eapply logical_below_mono; [|exact Hke]. lia.
    - replace (B + 1 + Z.of_nat (length items)) with (B + Z.succ (Z.of_nat (length items))) in Ha, Hb by lia.
      split; [|eapply clock_ok_mono; [..|exact Hb]; [lia|set_solver]].
      destruct Ha as (Hl & Hs & Hent), Hb as (_ & Hs' & _). split_and!; [done| |done].
      intros h [->|Hh]%elem_of_cons; [apply Hs'; set_solver|by apply Hs]. }
  destruct (merge_cases (namespace (kv (inner n1)) ns) key e) as [->|[-> _]].
  - rewrite bool_decide_true by done. set (n2 := set_node_store _ _). destruct (Hrest n2) as [Ha Hb].
    { by eapply (clock_ok_put _ _ n1); [done|done|done|]. }
    by destruct (merge_items n2 ns items _).
  - rewrite bool_decide_false by done. set (n2 := set_inner n1 _). destruct (Hrest n2) as [Ha Hb].
    { destruct H1 as (Hb & Hs & Hent). split_and!; [done..|]. intros ns' key' e'. simpl. rewrite entry_at_insert.
      destruct (decide (ns = ns')) as [<-|]; [rewrite entry_at_namespace|]; apply Hent. }
    by destruct (merge_items n2 ns items _).
Qed.

(** How often an operation reads the clock, the timestamps it brings from
    elsewhere, and the entries it offers. *)
Definition ticks (op : NodeOp) : Z :=
  match op with
  | OpClaim _ _ => 1
  | OpTry _ _ _ _ _ | OpRenew _ _ _ _ | OpPut _ _ _ _ _ _ | OpPutMeta _ _ _ _ _ _ _ => 2
  | OpMerge _ items _ => Z.of_nat (length items)
  | _ => 0
  end.

Definition remote_ok (B : Z) (op : NodeOp) : Prop :=
  match op with
  | OpClaim env _ => forall c : Claim, open None env = Ok c -> logical_below B (renewed c)
  | OpMerge _ items _ => Forall (fun ke => logical_below B (hlc ke.2)) items
  | _ => True
  end.

Definition offered_entries (op : NodeOp) : list KvEntry :=
  match op with OpMerge _ items _ => items.*2 | _ => [] end.

Lemma ticks_nonneg op : 0 <= ticks op.
Proof. destruct op; simpl; lia. Qed.

Lemma ingest_claim_clock B S (n : Node) env now_ms :
  B < L -> (forall c : Claim, open None env = Ok c -> logical_below B (renewed c)) -> clock_ok B S n ->
  clock_ok (B + 1) S (ingest_claim n env now_ms).1.
Proof.
  intros HB Hr H. assert (clock_ok (B + 1) S n) as Hn by (eapply clock_ok_mono; [..|exact H]; [lia|done]).
  unfold ingest_claim. destruct (Claim.ingest _ env) as [cs [[]|]]; try done.
  destruct (open None env) as [c|err] eqn:Eo; [|done]. cbv zeta.
  set (n1 := set_inner n _).
  pose proof (observe_clock B S n1 (renewed c) now_ms HB (Hr c eq_refl) H) as H1.
  eapply clock_ok_frame; [..|eapply clock_ok_mono; [..|exact H1]]; [done..|lia|set_solver].
Qed.

(** The node's own claims carry the timestamp it just took. *)
Lemma own_claim_renewed (x c : Claim) kp : open None (seal x kp) = Ok c -> c = x.
Proof.
  intros (_ & _ & H)%open_Ok. unfold seal, seal_any in H. simpl in H. rewrite postcard_roundtrip in H. by injection H.
Qed.

Lemma own_claim_clock B S (n : Node) now1 now2 (env : Hlc -> Envelope) :
  B + 2 <= L -> clock_ok B S n ->
  (forall h c, open None (env h) = Ok c -> renewed c = h) ->
  clock_ok (B + 2) S (let '(n, h) := hlc_now n now1 in
    let '(n, _) := ingest_claim n (env h) now2 in emit n OwnClaims).
Proof.
  intros HB H Hown. destruct (hlc_now_clock B S n now1 ltac:(lia) H) as (H1 & _ & _ & Hb).
  destruct (hlc_now n now1) as [n1 h]; cbn [fst snd] in *.
  pose proof (ingest_claim_clock (B + 1) S n1 (env h) now2) as H2.
  destruct (ingest_claim n1 (env h) now2) as [n2 changed]; cbn [fst] in *.
  apply (clock_ok_frame _ _ n2); [done..|]. replace (B + 2) with (B + 1 + 1) by lia. apply H2; [lia| |done].
  intros c Hc. by rewrite (Hown h c Hc).
Qed.

Lemma node_step_clock B S (n : Node) op :
  B + ticks op <= L -> remote_ok B op -> clock_ok B S n ->
  clock_ok (B + ticks op) ((hlc <$> offered_entries op) ++ S) (node_step n op).
Proof.
  intros HB Hr H.
  destruct op; cbn [ticks remote_ok offered_entries node_step fmap list_fmap app] in *; rewrite ?Z.add_0_r in *.
  - unfold ingest_manifest. destruct (Manifest.ingest _ env) as [ms [[]|]]; try done.
    destruct (open _ env); by apply (clock_ok_frame _ _ n).
  - apply ingest_claim_clock; [lia|done|done].
  - unfold claim_try. destruct (negb _); [eapply clock_ok_mono; [..|exact H]; [lia|done]|].
    pose proof (own_claim_clock B S n now2 now3 (fun h => make_claim (keypair n) t h ttl_ms) HB H) as Ho.
    pose proof (hlc_now_keypair n now2) as Hk. destruct (hlc_now n now2) as [n1 h]; cbn [fst] in *. rewrite Hk.
    destruct (ingest_claim n1 _ now3) as [n2 changed]; cbn [fst]. apply Ho.
    intros h' c Hc. unfold make_claim in Hc. by rewrite (own_claim_renewed _ _ _ Hc).
  - unfold claim_renew. destruct (mine _ t (id n)) as [r|]; [|eapply clock_ok_mono; [..|exact H]; [lia|done]].
    pose proof (own_claim_clock B S n now1 now2 (fun h => renew (keypair n) (claim r) h release) HB H) as Ho.
    pose proof (hlc_now_keypair n now1) as Hk. destruct (hlc_now n now1) as [n1 h]; cbn [fst] in *. rewrite Hk.
    destruct (ingest_claim n1 _ now2) as [n2 changed]. apply Ho.
    intros h' c Hc. unfold renew in Hc. by rewrite (own_claim_renewed _ _ _ Hc).
  - unfold kv_put. replace (B + 2) with (B + 1 + 1) by lia.
    destruct (starts_with _ _); [|by repeat apply kv_put_entry_clock; [lia..|]].
    eapply clock_ok_mono; [..|apply kv_put_entry_clock; [|exact H]]; [lia|done|lia].
  - unfold kv_put_with_metadata. replace (B + 2) with (B + 1 + 1) by lia. by repeat apply kv_put_entry_clock; [lia..|].
  - destruct (merge_items_clock items B S ns n now_ms HB Hr H) as [Ha Hb].
    assert (clock_ok (B + Z.of_nat (length items)) ((hlc <$> items.*2) ++ S) (merge_items n ns items now_ms).1) as Hm.
    { destruct Ha as (Hl & Hs & Hent), Hb as (_ & Hs' & _). split_and!; [done| |done].
      intros h [Hh|Hh]%elem_of_app; [|by apply Hs']. apply Hs. by rewrite <- list_fmap_compose in Hh. }
    unfold kv_merge_remote. destruct (merge_items n ns items now_ms) as [n1 applied]; cbn [fst] in *.
    destruct (0 <? applied)%Z; [|done]. by apply (clock_ok_frame _ _ n1).
  - done.
  - unfold admit_public_request. destruct policy; [|done]. destruct (quota_request_window (inner n)).
    by destruct (_ <=? _)%Z.
  - unfold set_worker_ports. by case_bool_decide.
  - unfold set_runtime_status.
    destruct (runtime_status (inner n) !! w) as [prior|]; [by destruct (same_status prior v state detail)|done].
  - unfold append_runtime_log. by destruct (clip_message m).
  - done.
  - done.
  - done.
  - destruct H as (Hl & Hs & Hent). split_and!; [done..|]. intros ns key e. cbn [kv inner node_gc set_inner set_kv set_claims].
    rewrite entry_at_gc. destruct (entry_at (kv (inner n)) ns key) as [e'|] eqn:E; [|done].
    destruct (Kv.gc_keep now_ms HORIZON_MS e'); [|done]. intros [= <-]. by eapply Hent.
Qed.

Lemma remote_ok_mono B B' op : B <= B' -> remote_ok B op -> remote_ok B' op.
Proof.
  intros HB. destruct op; simpl; try done.
  - intros H c Hc. eapply logical_below_mono; [exact HB|by apply H].
  - intros H. eapply Forall_impl; [exact H|]. intros ke. by apply logical_below_mono.
Qed.

Definition total_ticks (ops : list NodeOp) : Z := foldr (fun op acc => ticks op + acc) 0 ops.

Lemma total_ticks_nonneg ops : 0 <= total_ticks ops.
Proof. unfold total_ticks. induction ops as [|x xs IHx]; simpl; [lia|]. pose proof (ticks_nonneg x). lia. Qed.

Lemma node_run_clock ops B S (n : Node) :
  B + total_ticks ops <= L -> Forall (remote_ok B) ops -> clock_ok B S n ->
  clock_ok (B + total_ticks ops) ((hlc <$> concat (offered_entries <$> ops)) ++ S) (node_run n ops).
Proof.
  revert B S n. induction ops as [|op ops IH]; intros B S n HB Hf H.
  { simpl. by rewrite Z.add_0_r. }
  apply Forall_cons in Hf as [Ho Hf]. cbn [total_ticks foldr] in *. fold (total_ticks ops) in *.
  pose proof (total_ticks_nonneg ops) as Hn1. pose proof (ticks_nonneg op) as Hn2.
  pose proof (node_step_clock B S n op ltac:(lia) Ho H) as H1.
  eapply clock_ok_mono; [..|eapply (IH (B + ticks op)); [| |exact H1]]; [lia| |lia|].
  - cbn [fmap list_fmap concat]. rewrite fmap_app. set_solver.
  - eapply Forall_impl; [exact Hf|]. intros x. apply remote_ok_mono. lia.
Qed.

(** A node that starts on an empty store starts its clock at zero. *)
Lemma fresh_clock {redb_ok : RedbOk} cf kp boot (n : Node) B :
  0 < B -> node_open cf kp store_open boot = Ok n -> clock_ok B [] n.
Proof.
  intros HB. unfold node_open. destruct (load_manifests _); [|done]. destruct (load_claims _); [|done].
  assert (t_iter (KV store_open) = []) as Hk.
  { destruct (t_iter _) as [|[k v] l] eqn:E; [done|]. exfalso.
    assert ((k, v) ∈ t_iter (KV store_open)) as Hin by (rewrite E; set_solver).
    apply t_iter_get in Hin. simpl in Hin. by rewrite t_get_new in Hin. }
  unfold load_kv. rewrite Hk. cbn. intros [= <-]. split_and!; simpl.
  - unfold logical_below. simpl. lia.
  - set_solver.
  - intros ns key e. unfold entry_at. by rewrite lookup_empty.
Qed.

Lemma put_beats_seen B S (n : Node) ns key v exp now_ms :
  B < L -> clock_ok B S n ->
  exists e, entry_at (kv (inner (kv_put_entry n ns key v exp now_ms))) ns key = Some e /\
    value e = v /\ Kv.expires_at_ms e = exp /\
    (forall h, h ∈ S -> h ≺ hlc e) /\
    (forall ns' key' e', entry_at (kv (inner n)) ns' key' = Some e' -> hlc e' ≺ hlc e).
Proof.
  intros HB H. destruct (hlc_now_clock B S n now_ms HB H) as (_ & Hlt & _). destruct H as (_ & HS & He).
  unfold kv_put_entry. destruct (hlc_now n now_ms) as [n1 h] eqn:E; cbn [fst snd] in *. unfold Kv.put. cbv zeta.
  exists (mkKvEntry h (public (keypair n)) v exp). split; [|split_and!]; cycle 1.
  - reflexivity.
  - reflexivity.
  - intros h' Hh. simpl. eapply le_lt_of_trans; [by apply HS|done].
  - intros ns' key' e' He'. simpl. eapply le_lt_of_trans; [by eapply He|done].
  - simpl. rewrite entry_at_put, decide_True by done. unfold id. by rewrite <- (hlc_now_keypair n now_ms), E.
Qed.
End clock.

(** Local writes win. After any history of a node that began on an empty store
    — local writes, merges of remote entries, claims, collections — an entry it
    writes carries the value and expiry given, is what the key then holds, and
    beats every entry the node held under any key and every entry any merge of the
    history offered, applied or not; so no replica that merges both keeps the older
    one. The logical counters of what comes from elsewhere are below [B], and the
    history reads the clock fewer than [2^32 - 1 - B] times. *)
Theorem local_writes_win {redb : Redb} {redb_ok : RedbOk} {crypto : Crypto} {hex : Hex}
    {pc_env : Postcard Envelope} {pc_manifest : Postcard WorkerManifest}
    {pc_claim : Postcard Claim} {pc_claim_ok : PostcardOk Claim}
    {pc_kv : Postcard KvEntry} {pc_audit : Postcard DataMutationAudit}
    (cf : NodeConfig) (kp : Keypair) (boot : nat -> Z) (n0 : Node) (ops : list NodeOp) (B : Z)
    (ns key : string) (v : option bytes) (exp : option Z) (now_ms : Z)
    (Hboot : node_open cf kp store_open boot = Ok n0)
    (HB : 0 < B) (Hticks : B + total_ticks ops < 2 ^ 32 - 1) (Hremote : Forall (remote_ok B) ops) :
  let n := node_run n0 ops in
  exists e, entry_at (kv (inner (kv_put_entry n ns key v exp now_ms))) ns key = Some e /\
    value e = v /\ Kv.expires_at_ms e = exp /\
    (forall ns' key' e', entry_at (kv (inner n)) ns' key' = Some e' -> beats e e' = true) /\
    (forall e', e' ∈ concat (offered_entries <$> ops) -> beats e e' = true).
Proof.
  pose proof (node_run_clock ops B [] n0 ltac:(unfold L; lia) Hremote (fresh_clock cf kp boot n0 B HB Hboot)) as H.
  destruct (put_beats_seen _ _ _ ns key v exp now_ms Hticks H) as (e & He & Hv & Hx & HS & Hh).
  exists e. split_and!; [done..| |].
  - intros ns' key' e' He'. by eapply hlc_beats, Hh.
  - intros e' He'. apply hlc_beats, HS. rewrite app_nil_r. by apply list_elem_of_fmap_2.
Qed.

Lemma local_writes_win_witness :
  exists e, entry_at (kv (inner (kv_put_entry (redb := SampleRedb.redb) (crypto := Sample.crypto) (hex := Sample.hex)
      (pc_kv := SampleCodec.codec KvEntry) (pc_audit := SampleNode.audit_codec)
      (SampleNode.run [OpMerge "ns" [("k", mkKvEntry (mkHlc 900 4) (mkPublicId [3]) (Some [1]) None)] (fun _ => 10)])
      "ns" "k" (Some [7]) None 11))) "ns" "k" = Some e /\
    value e = Some [7] /\ beats (crypto := Sample.crypto) e (mkKvEntry (mkHlc 900 4) (mkPublicId [3]) (Some [1]) None) = true.
Proof.
  destruct (local_writes_win (redb_ok := SampleRedb.redb_ok) (crypto := Sample.crypto) (hex := Sample.hex)
    (pc_env := SampleCodec.codec Envelope) (pc_manifest := SampleManifest.codec)
    (pc_claim := SampleCodec.codec Claim) (pc_claim_ok := SampleCodec.codec_ok Claim)
    (pc_kv := SampleCodec.codec KvEntry) (pc_audit := SampleNode.audit_codec)
    SampleNode.config (Sample.keypair [1]) (fun _ => 1) SampleNode.start
    [OpMerge "ns" [("k", mkKvEntry (mkHlc 900 4) (mkPublicId [3]) (Some [1]) None)] (fun _ => 10)] 5
    "ns" "k" (Some [7]) None 11) as (e & He & Hv & _ & _ & Ho).
  - exact SampleNode.boot_start.
  - lia.
  - simpl. lia.
  - repeat constructor; simpl; lia.
  - exists e. split; [exact He|]. split; [exact Hv|]. apply Ho. simpl. by left.
Defined.

(** ** Pages of a listing *)

Section pages.
Context {redb : Redb} {crypto : Crypto}.

Lemma take_while_sorted {A} (R : A -> A -> Prop) p (l : list A) :
  StronglySorted R l -> StronglySorted R (take_while p l) /\ (forall Q : A -> Prop, Forall Q l -> Forall Q (take_while p l)).
Proof.
  intros H. split.
  - induction H as [|x l Hl IH Hf]; simpl; [constructor|]. destruct (p x); [|constructor]. constructor; [done|].
    clear -Hf. induction Hf; simpl; [done|]. by destruct (p x0); constructor.
  - intros Q Hq. clear H. induction Hq; simpl; [done|]. by destruct (p x); constructor.
Qed.

(** The keys of a listing are strictly ascending. *)
Lemma list_keys_sorted (space : Namespace) prefix now_ms limit :
  StronglySorted lt_of (list_keys space prefix now_ms limit).
Proof.
  unfold list_keys. apply StronglySorted_take.
  pose proof (sorted_entries_strict space) as Hs.
  apply (StronglySorted_filter _ (fun ke => prefix ⪯ ke.1)) in Hs.
  apply (take_while_sorted _ (fun ke => starts_with prefix ke.1)) in Hs as [Hs _].
  apply (StronglySorted_filter _ (fun ke => is_Some (visible ke.2 now_ms))) in Hs.
  induction Hs as [|x l Hl IH Hf]; simpl; constructor; [done|]. by apply Forall_map.
Qed.

(** What a cursor leaves to list. *)
Definition after (cursor : option string) (key : string) : Prop :=
  match cursor with Some c => c ≺ key | None => True end.

#[export] Instance after_dec cursor key : Decision (after cursor key).
Proof. unfold after. destruct cursor; apply _. Defined.

Definition item_of (space : Namespace) (key : string) : string * option Z :=
  (key, e ← Kv.entry space key; Kv.expires_at_ms e).

Lemma page_loop_spec space limit cursor keys output : (length output <= limit)%nat ->
  page_loop space limit cursor output keys =
  (output ++ (item_of space <$> take (limit - length output) (filter (after cursor) keys)),
   bool_decide (limit - length output < length (filter (after cursor) keys))%nat).
Proof.
  revert output. induction keys as [|k ks IH]; intros output Hl; cbn [page_loop].
  { rewrite filter_nil, take_nil, app_nil_r. done. }
  assert (match cursor with Some c => leb k c | None => false end = negb (bool_decide (after cursor k))) as ->.
  { destruct cursor as [c|]; [|done]. case_bool_decide as H; simpl.
    - apply leb_gt. done.
    - apply leb_le. by apply le_of_not_lt. }
  case_bool_decide as H; simpl.
  - rewrite filter_cons_True by done. case_bool_decide as He.
    + rewrite He, Nat.sub_diag. simpl. by rewrite app_nil_r.
    + rewrite IH by (rewrite length_app; simpl; lia). rewrite length_app. simpl.
      replace (limit - length output)%nat with (Datatypes.S (limit - (length output + 1)))%nat by lia. simpl.
      rewrite <- app_assoc. f_equal. apply bool_decide_ext. lia.
  - rewrite filter_cons_False by done. by apply IH.
Qed.

Lemma filter_keeps_all {A} (P : A -> Prop) `{!forall x, Decision (P x)} (l : list A) : Forall P l -> filter P l = l.
Proof. induction 1; [done|]. rewrite filter_cons_True by done. by f_equal. Qed.

Lemma filter_after_split (a b : list string) k :
  StronglySorted lt_of (a ++ k :: b) -> filter (after (Some k)) (a ++ k :: b) = b.
Proof.
  induction a as [|x a IH]; simpl; intros Hs; apply StronglySorted_inv in Hs as [Hs Hf].
  - rewrite filter_cons_False by apply lt_of_irrefl. by apply filter_keeps_all.
  - rewrite filter_cons_False; [by apply IH|]. rewrite Forall_forall in Hf.
    simpl. intros Hk. apply (lt_of_irrefl k). eapply lt_of_trans; [exact Hk|apply Hf; set_solver].
Qed.

Lemma filter_after_after cursor k (l : list string) :
  after cursor k -> filter (after (Some k)) (filter (after cursor) l) = filter (after (Some k)) l.
Proof.
  intros Hk. apply list_filter_filter_l. intros x Hx. destruct cursor; simpl in *; [|done]. by eapply lt_of_trans.
Qed.

Lemma next_cursor limit cursor (keys : list string) :
  (0 < limit)%nat -> StronglySorted lt_of keys -> (limit < length (filter (after cursor) keys))%nat ->
  exists k, list.last (take limit (filter (after cursor) keys)) = Some k /\
    filter (after (Some k)) keys = drop limit (filter (after cursor) keys).
Proof.
  intros Hl Hs Hn. apply (StronglySorted_filter _ (after cursor)) in Hs. destruct limit as [|m]; [lia|].
  destruct (lookup_lt_is_Some_2 (filter (after cursor) keys) m) as [k Hk]; [lia|]. exists k.
  split; [by rewrite last_lookup, length_take, Nat.min_l, lookup_take_lt by lia|].
  assert (k ∈ filter (after cursor) keys) as [Hk' _]%list_elem_of_filter by (by eapply list_elem_of_lookup_2).
  rewrite <- (filter_after_after cursor) by done.
  rewrite <- (take_drop_middle _ _ _ Hk) in Hs |- *. rewrite filter_after_split by done.
  by rewrite (take_drop_middle _ _ _ Hk).
Qed.

(** Following the cursors of [kv_list_page] until a page is complete. *)
Fixpoint follow (fuel : nat) (n : Node) (ns prefix : string) (limit : nat) (cursor : option string) (now_ms : Z)
  : option (list (list (string * option Z))) :=
  match fuel with
  | O => None
  | Datatypes.S fuel =>
      let '(items, complete, next) := kv_list_page n ns prefix limit cursor now_ms in
      if complete then Some [items] else cons items <$> follow fuel n ns prefix limit next now_ms
  end.

Lemma follow_spec fuel (n : Node) ns prefix limit cursor now_ms space :
  let keys := list_keys space prefix now_ms (size (entries space)) in
  kv (inner n) !! ns = Some space -> (0 < limit)%nat -> (length (filter (after cursor) keys) < fuel)%nat ->
  exists ps, follow fuel n ns prefix limit cursor now_ms = Some ps /\
    concat ps = item_of space <$> filter (after cursor) keys /\ Forall (fun p => length p <= limit)%nat ps.
Proof.
  intros keys Hn Hl. pose proof (list_keys_sorted space prefix now_ms (size (entries space)) : StronglySorted lt_of keys) as Hs.
  revert cursor. induction fuel as [|fuel IH]; intros cursor Hf; [lia|]. cbn [follow].
  unfold kv_list_page. rewrite Hn. fold keys. rewrite page_loop_spec by (simpl; lia). cbn [length app].
  rewrite Nat.sub_0_r. case_bool_decide as Hlen; cbn [negb].
  - destruct (next_cursor limit cursor keys Hl Hs Hlen) as (k & Hk & Hd). rewrite fmap_last, Hk. cbn [fmap option_fmap option_map].
    destruct (IH (Some k)) as (ps & Hps & Hc & Hall). { rewrite Hd, length_drop. lia. }
    change (item_of space k).1 with k. rewrite Hps. cbn. eexists. split; [done|]. split.
    + cbn. rewrite Hc, Hd, <- fmap_app. by rewrite take_drop.
    + constructor; [|done]. rewrite length_fmap, length_take. lia.
  - eexists. split; [done|]. cbn. rewrite app_nil_r, firstn_all2 by lia. split; [done|].
    constructor; [|done]. rewrite length_fmap. lia.
Qed.
End pages.

(** Paging is the listing. Following the cursors [kv_list_page] hands out, for
    any limit of at least one, ends after at most as many pages as the namespace has
    entries (plus one); the pages have at most [limit] items each and, put together,
    are the whole listing of the prefix: every visible key once, in order, with
    its expiry. *)
Theorem pages_are_the_listing {redb : Redb} {crypto : Crypto} (n : Node) (ns prefix : string) (limit : nat)
    (now_ms : Z) (space : Namespace)
    (Hns : kv (inner n) !! ns = Some space) (Hlimit : (0 < limit)%nat) :
  let all := size (entries space) in
  exists ps, follow (all + 1) n ns prefix limit None now_ms = Some ps /\
    Forall (fun p => length p <= limit)%nat ps /\
    concat ps = (fun key => (key, e ← Kv.entry space key; Kv.expires_at_ms e)) <$> kv_list n ns prefix all now_ms.
Proof.
  intros all. destruct (follow_spec (all + 1) n ns prefix limit None now_ms space Hns Hlimit) as (ps & Hf & Hc & Hp).
  - eapply Nat.le_lt_trans; [apply length_filter|]. unfold list_keys. rewrite length_take. fold all. lia.
  - exists ps. split_and!; [done..|]. rewrite Hc. unfold kv_list. rewrite Hns.
    rewrite filter_keeps_all; [done|]. by apply Forall_forall.
Qed.

Lemma pages_are_the_listing_witness :
  let n := SampleNode.run [SampleNode.write; OpPut "ns" "l" (Some [8]) None 7 8; OpPut "ns" "m" (Some [9]) None 9 10] in
  exists ps, follow 4 n "ns" "" 2 None 11 = Some ps /\ concat ps = [("k", None); ("l", None); ("m", None)].
Proof.
  intros n.
  assert (exists space, kv (inner n) !! "ns" = Some space /\ size (entries space) = 3%nat /\
    ((fun key => (key, e ← Kv.entry space key; Kv.expires_at_ms e)) <$> kv_list n "ns" "" 3 11) =
    [("k", None); ("l", None); ("m", None)]) as (space & Hs & Hz & Hl).
  { eexists. split; [vm_compute; reflexivity|]. split; vm_compute; reflexivity. }
  destruct (pages_are_the_listing n "ns" "" 2 11 space Hs ltac:(lia)) as (ps & Hf & _ & Hc).
  rewrite Hz in Hf, Hc. exists ps. split; [exact Hf|]. by rewrite Hc, Hl.
Defined.

(** ** The request budget *)

Definition sum (l : list Z) : Z := foldr Z.add 0 l.

Lemma sum_app l l' : sum (l ++ l') = sum l + sum l'.
Proof. unfold sum. induction l; simpl; lia. Qed.

#[export] Instance sum_Proper : Proper ((≡ₚ) ==> eq) sum.
Proof. unfold sum. induction 1; simpl; lia. Qed.

Lemma sum_le (l l' : list Z) : Forall2 Z.le l l' -> sum l <= sum l'.
Proof. unfold sum. induction 1; simpl; lia. Qed.

Lemma sum_nonneg (l : list Z) : Forall (Z.le 0) l -> 0 <= sum l.
Proof. unfold sum. induction 1; simpl; lia. Qed.

Lemma sum_submseteq {A} (f : A -> Z) (l l' : list A) : (forall x, 0 <= f x) -> l ⊆+ l' -> sum (f <$> l) <= sum (f <$> l').
Proof.
  intros Hf (k & ->)%submseteq_Permutation. rewrite fmap_app, sum_app.
  assert (0 <= sum (f <$> k)); [|lia]. apply sum_nonneg, Forall_fmap, Forall_forall. intros x _. apply Hf.
Qed.

Lemma position_lookup ids i me : NoDup ids -> ids !! i = Some me -> position me ids = Some (Z.of_nat i).
Proof.
  revert i. induction ids as [|x ids IH]; intros i Hnd Hi; [done|]. apply NoDup_cons in Hnd as [Hx Hnd].
  destruct i as [|i]; simpl in *.
  - injection Hi as ->. by rewrite bool_decide_true.
  - rewrite bool_decide_false by (intros ->; apply Hx; by eapply list_elem_of_lookup_2).
    rewrite (IH i) by done. simpl. f_equal. lia.
Qed.

Lemma sum_shares q r k : 0 <= r -> sum ((fun i => q + if (i <? r)%Z then 1 else 0) <$> seqZ 0 (Z.of_nat k)) =
  Z.of_nat k * q + Z.min (Z.of_nat k) r.
Proof.
  intros Hr. induction k as [|k IH]; [simpl; lia|].
  rewrite seqZ_S, fmap_app, sum_app, IH. unfold sum; cbn [fmap list_fmap foldr].
  destruct (Z.ltb_spec (0 + Z.of_nat k) r); lia.
Qed.

(** The shares of the members of a list add up to the limit. *)
Lemma shares_sum limit ids : 0 <= limit -> NoDup ids -> ids <> [] ->
  sum ((fun me => local_limit limit ids me) <$> ids) = limit.
Proof.
  intros Hl Hnd Hne. set (c := Z.of_nat (length ids)).
  assert (0 < c) as Hc by (destruct ids; [done|subst c; simpl; lia]).
  assert (((fun me => local_limit limit ids me) <$> ids) =
    ((fun i => limit / c + if (i <? limit mod c)%Z then 1 else 0) <$> seqZ 0 c)) as ->.
  { apply list_eq. intros i. rewrite !list_lookup_fmap. destruct (ids !! i) as [me|] eqn:Ei.
    - rewrite lookup_seqZ_lt by (apply lookup_lt_Some in Ei; subst c; lia).
      simpl. unfold local_limit. by rewrite (position_lookup ids i me Hnd Ei).
    - apply lookup_ge_None in Ei. rewrite lookup_seqZ_ge by (subst c; lia). done. }
  subst c. rewrite sum_shares by (apply Z.mod_pos_bound; lia).
  rewrite Z.min_r by (pose proof (Z.mod_pos_bound limit (Z.of_nat (length ids)) ltac:(lia)); lia).
  pose proof (Z.div_mod limit (Z.of_nat (length ids)) ltac:(lia)). lia.
Qed.

Lemma local_limit_nonneg limit ids me : 0 <= limit -> 0 <= local_limit limit ids me.
Proof.
  intros Hl. unfold local_limit. assert (0 <= limit / Z.of_nat (length ids)).
  { destruct (length ids) as [|k]; [by rewrite Zdiv_0_r|]. apply Z.div_pos; lia. }
  destruct (_ <? _)%Z; lia.
Qed.

Section budget.
Context {redb : Redb} {crypto : Crypto} {hex : Hex}.

(** How many of the requests at the times [ts] a node admits. *)
Fixpoint admitted (limit : Z) (n : Node) (ts : list Z) : Z :=
  match ts with
  | [] => 0
  | t :: ts' =>
      let '(n, r) := admit_public_request (E := string) (Ok limit) n t in
      match r with Ok true => 1 | _ => 0 end + admitted limit n ts'
  end.

Definition used_at (n : Node) (minute : Z) : Z :=
  let '(m, used) := quota_request_window (inner n) in if (m =? minute)%Z then used else 0.

Lemma admitted_spec limit (n : Node) minute ts :
  0 <= used_at n minute <= local_limit limit (public_nodes n) (id_hex n) -> Forall (fun t => t / 60000 = minute) ts ->
  admitted limit n ts = Z.min (Z.of_nat (length ts)) (local_limit limit (public_nodes n) (id_hex n) - used_at n minute).
Proof.
  intros Hu Ht. revert n Hu. induction Ht as [|t ts Hm Ht IH]; intros n Hu; [simpl; lia|].
  cbn [admitted]. unfold admit_public_request, used_at in *. rewrite Hm.
  destruct (quota_request_window (inner n)) as [m used].
  set (u := if (m =? minute)%Z then used else 0) in *. set (s := local_limit _ _ _) in *.
  destruct (Z.leb_spec s u).
  - set (n1 := set_inner n _).
    rewrite (IH n1); cbn [n1 inner set_inner quota_request_window set_window]; rewrite Z.eqb_refl; [|done].
    cbn [length]. change (local_limit limit (public_nodes n1) (id_hex n1)) with s. lia.
  - set (n1 := set_inner n _).
    rewrite (IH n1); cbn [n1 inner set_inner quota_request_window set_window]; rewrite Z.eqb_refl.
    + cbn [length]. change (local_limit limit (public_nodes n1) (id_hex n1)) with s. lia.
    + change (local_limit limit (public_nodes n1) (id_hex n1)) with s. lia.
Qed.
End budget.

(** The request budget is the cluster's. Nodes with distinct identities that
    agree on which nodes are public, none of which has counted a request of the minute yet, admit
    together at most [limit] requests of that minute, whatever arrives where;
    and when every public node is offered at least [limit] requests they admit exactly [limit]. *)
Theorem request_budget_is_global {redb : Redb} {crypto : Crypto} {hex : Hex}
    (limit minute : Z) (ids : list string) (cluster : list (Node * list Z))
    (Hlimit : 0 <= limit) (Hids : NoDup ids) (Hdistinct : NoDup ((fun c => id_hex c.1) <$> cluster))
    (Hview : Forall (fun c => public_nodes c.1 = ids /\ id_hex c.1 ∈ ids /\ used_at c.1 minute = 0 /\
                       Forall (fun t => t / 60000 = minute) c.2) cluster) :
  sum ((fun c => admitted limit c.1 c.2) <$> cluster) <= limit /\
  (length cluster = length ids -> ids <> [] -> Forall (fun c => limit <= Z.of_nat (length c.2)) cluster ->
   sum ((fun c => admitted limit c.1 c.2) <$> cluster) = limit).
Proof.
  set (me := fun c : Node * list Z => id_hex c.1) in *.
  assert (Forall (fun c => admitted limit c.1 c.2 = Z.min (Z.of_nat (length c.2)) (local_limit limit ids (me c))) cluster) as Hadm.
  { eapply Forall_impl; [exact Hview|]. intros c (Hp & _ & Hu & Ht).
    rewrite (admitted_spec limit c.1 minute); rewrite ?Hu, ?Hp; [unfold me; lia| |done].
    split; [lia|by apply local_limit_nonneg]. }
  assert (me <$> cluster ⊆+ ids) as Hsub.
  { apply NoDup_submseteq; [done|]. intros x (c & -> & Hc)%list_elem_of_fmap.
    rewrite Forall_forall in Hview. by destruct (Hview c Hc) as (_ & ? & _). }
  assert (sum ((fun c => local_limit limit ids (me c)) <$> cluster) <= sum (local_limit limit ids <$> ids)) as Hle.
  { rewrite (list_fmap_compose me (local_limit limit ids)). apply sum_submseteq; [|done].
    intros x. by apply local_limit_nonneg. }
  split.
  - assert (sum ((fun c => admitted limit c.1 c.2) <$> cluster) <= sum ((fun c => local_limit limit ids (me c)) <$> cluster)).
    { apply sum_le, Forall2_fmap. apply Forall_Forall2_diag. eapply Forall_impl; [exact Hadm|]. intros c ->. lia. }
    destruct (decide (ids = [])) as [->|Hne].
    + apply submseteq_nil_r, fmap_nil_inv in Hsub as ->. done.
    + rewrite shares_sum in Hle by done. lia.
  - intros Hlen Hne Hload. transitivity (sum ((fun c => local_limit limit ids (me c)) <$> cluster)).
    { f_equal. apply list_fmap_ext. intros i c Hc. rewrite Forall_forall in Hadm, Hload.
      apply list_elem_of_lookup_2 in Hc. rewrite Hadm by done. specialize (Hload c Hc). simpl in Hload.
      assert (local_limit limit ids (me c) <= limit); [|lia]. rewrite <- (shares_sum limit ids) at 2 by done.
      etrans; [|apply (sum_submseteq (local_limit limit ids) [me c])]; [unfold sum; simpl; lia| |].
      - intros x. by apply local_limit_nonneg.
      - apply singleton_submseteq_l. eapply elem_of_submseteq; [|exact Hsub]. by apply list_elem_of_fmap_2. }
    rewrite (list_fmap_compose me (local_limit limit ids)).
    rewrite (submseteq_length_Permutation _ _ Hsub) by (rewrite length_fmap; lia). by apply shares_sum.
Qed.

Lemma request_budget_is_global_witness :
  let other := mkNode (redb := SampleRedb.redb) (crypto := Sample.crypto) SampleNode.config (Sample.keypair [2])
    (node_store SampleNode.start) (inner SampleNode.start) [] in
  let peer := mkPeerView None None true "" None "" ∅ ∅ ∅ 0 in
  let name := id_hex (redb := SampleRedb.redb) (crypto := Sample.crypto) (hex := Sample.hex) in
  let a := update_peers SampleNode.start {[name other := peer]} in
  let b := update_peers other {[name SampleNode.start := peer]} in
  sum ((fun c => admitted (hex := Sample.hex) 3 c.1 c.2) <$>
    [(a, [60000; 60001; 60002]); (b, [60003; 60004; 60005])]) = 3.
Proof.
  intros other peer name a b.
  set (ids := public_nodes (hex := Sample.hex) a).
  set (cluster := [(a, [60000; 60001; 60002]); (b, [60003; 60004; 60005])]).
  assert (0 <= 3) as H0 by lia.
  assert (NoDup ids) as H1 by (apply (bool_decide_unpack _); vm_compute; exact I).
  assert (((fun c => id_hex (hex := Sample.hex) c.1) <$> cluster) = [name a; name b]) as Hid by reflexivity.
  assert (NoDup ((fun c => id_hex (hex := Sample.hex) c.1) <$> cluster)) as H2
    by (rewrite Hid; apply (bool_decide_unpack _); vm_compute; exact I).
  assert (public_nodes (hex := Sample.hex) b = ids) as Hb by (vm_compute; reflexivity).
  assert (name a ∈ ids) as Ha1 by (apply (list_elem_of_lookup_2 _ 0); vm_compute; reflexivity).
  assert (name b ∈ ids) as Hb1 by (apply (list_elem_of_lookup_2 _ 1); vm_compute; reflexivity).
  assert (Forall (fun c => public_nodes (hex := Sample.hex) c.1 = ids /\ id_hex (hex := Sample.hex) c.1 ∈ ids /\
    used_at c.1 1 = 0 /\ Forall (fun t => t / 60000 = 1) c.2) cluster) as H3.
  { apply Forall_cons; split; [|apply Forall_cons; split; [|apply Forall_nil; exact I]].
    - split; [reflexivity|]. split; [exact Ha1|]. split; [reflexivity|]. repeat constructor.
    - split; [exact Hb|]. split; [exact Hb1|]. split; [reflexivity|]. repeat constructor. }
  refine (proj2 (request_budget_is_global (hex := Sample.hex) 3 1 ids cluster H0 H1 H2 H3) _ _ _).
  - vm_compute; reflexivity.
  - vm_compute; discriminate.
  - repeat constructor; simpl; lia.
Defined.

(** ** Log lines *)

(** A long log line can panic. A line of 1334 three-byte characters, valid
    UTF-8 of 4002 bytes, makes [append_runtime_log] panic, because byte 4000 is inside a character;
    the same line one character shorter is stored whole. *)
Theorem long_line_panics {redb : Redb} {crypto : Crypto} (n : Node) (w stream : string) (v now_ms : Z) :
  let line (k : nat) := Nat.iter k (fun s => ellipsis ++ s)%string EmptyString in
  append_runtime_log n w v stream (line 1334%nat) now_ms = None /\
  exists n', append_runtime_log n w v stream (line 1333%nat) now_ms = Some n'.
Proof.
  intros line. unfold append_runtime_log.
  assert (clip_message (line 1334%nat) = None) as -> by (vm_compute; reflexivity).
  assert (clip_message (line 1333%nat) = Some (line 1333%nat)) as -> by (vm_compute; reflexivity).
  split; [done|]. by eexists.
Qed.

(** ** The queue of request logs *)

Lemma keep_last_app {A} m (a b : list A) : keep_last m (a ++ keep_last m b) = keep_last m (a ++ b).
Proof.
  unfold keep_last. rewrite !length_app, length_drop.
  destruct (Nat.le_gt_cases (length b) m) as [Hle|Hgt].
  { replace (length b - m)%nat with 0%nat by lia. by rewrite drop_0, Nat.sub_0_r. }
  rewrite !drop_app_ge by lia. rewrite drop_drop. f_equal. lia.
Qed.

Lemma keep_last_short {A} m (l : list A) : (length l <= m)%nat -> keep_last m l = l.
Proof. intros H. unfold keep_last. by replace (length l - m)%nat with 0%nat by lia. Qed.

Lemma keep_last_keep_last {A} m (a b : list A) : keep_last m (keep_last m a ++ b) = keep_last m (a ++ b).
Proof.
  unfold keep_last. rewrite !length_app, length_drop.
  destruct (Nat.le_gt_cases (length a) m) as [Hle|Hgt].
  { replace (length a - m)%nat with 0%nat by lia. by rewrite drop_0, Nat.sub_0_r. }
  rewrite <- (drop_app_le a) by lia. rewrite drop_drop. f_equal. lia.
Qed.

Section request_logs.
Context {redb : Redb} {crypto : Crypto}.

Definition with_pending (n : Node) (es : list RequestLogEntry) : Node := set_inner n (set_pending (inner n) es).

Lemma enqueue_all (n : Node) es arrivals : (length es <= MAX_PENDING)%nat ->
  foldl enqueue_request_log (with_pending n es) arrivals = with_pending n (keep_last MAX_PENDING (es ++ arrivals)).
Proof.
  revert es. induction arrivals as [|e arrivals IH]; intros es Hl; cbn [foldl].
  - by rewrite app_nil_r, keep_last_short.
  - change (enqueue_request_log (with_pending n es) e) with (with_pending n (keep_last MAX_PENDING (es ++ [e]))).
    rewrite IH by (unfold keep_last; rewrite length_drop; lia).
    by rewrite keep_last_keep_last, <- app_assoc.
Qed.

(** A flush that fails: the pending logs are taken, [arrivals] are enqueued
    meanwhile, and the taken ones are put back. *)
Definition failed_flush (n : Node) (arrivals : list RequestLogEntry) : Node :=
  let '(n1, taken) := take_pending_request_logs n in
  requeue_request_logs (foldl enqueue_request_log n1 arrivals) taken.
End request_logs.

(** A failed flush leaves no trace. Taking the pending request logs, enqueueing
    whatever arrives meanwhile and putting the taken ones back is the same as having
    only enqueued the arrivals: nothing is lost or reordered, and over the bound it
    is the same oldest entries that are dropped. *)
Theorem failed_flush_is_invisible {redb : Redb} {crypto : Crypto} (n : Node) (arrivals : list RequestLogEntry)
    (Hbound : (length (pending_request_logs (inner n)) <= MAX_PENDING)%nat) :
  failed_flush n arrivals = foldl enqueue_request_log n arrivals.
Proof.
  unfold failed_flush, take_pending_request_logs. change (set_inner n (set_pending (inner n) [])) with (with_pending n []).
  assert (n = with_pending n (pending_request_logs (inner n))) as Hn by (by destruct n as [? ? ? []]).
  transitivity (foldl enqueue_request_log (with_pending n (pending_request_logs (inner n))) arrivals); [|by rewrite <- Hn].
  rewrite !enqueue_all by (done || apply Nat.le_0_l). unfold requeue_request_logs. simpl. by rewrite keep_last_app.
Qed.

Lemma failed_flush_is_invisible_witness :
  failed_flush SampleNode.start [] = foldl enqueue_request_log SampleNode.start [].
Proof. refine (failed_flush_is_invisible SampleNode.start [] _). apply Nat.le_0_l. Defined.
