(* ===== verification/Resource.v ===== *)
(** * Resource: operator-signed platform resources (crates/rf/src/resource.rs)

    A platform resource is a hash chain of signed records kept in one KV
    namespace.  [validate], [prepare_after], [ingest], [records], [head] and
    [heads] are the source's functions over the node of [Node.v].  [serde_json] is a
    third-party crate: [Json] is what is used of it and [JsonOk] its round trip. *)

From Stdlib Require Import ZArith Lia Ascii.
From stdpp Require Import prelude gmap sorting strings list.
From S2P Require Import Prelude Text Hlc Identity Envelope Kv Claim Manifest Quorum DataAudit Observability Store Node NodeFacts.
Open Scope Z_scope.

(** [serde_json::Value] and its text form. *)
Class Json := {
  Value : Type;
  Null : Value;
  is_null : Value -> bool;
  is_object : Value -> bool;
  is_empty_object : Value -> bool;
  json_from_str : string -> option Value;
  json_to_string : Value -> string
}.

(** Printing and parsing keeps the kind of a value. *)
Class JsonOk {json : Json} : Prop := {
  null_is_null : is_null Null = true;
  json_roundtrip : forall v, exists v', json_from_str (json_to_string v) = Some v' /\
    is_null v' = is_null v /\ is_object v' = is_object v
}.

Definition RESOURCE_SCHEMA : Z := 1.
Definition MAX_KIND_BYTES : Z := 48.
Definition MAX_SPEC_BYTES : Z := 8 * 1024 * 1024.

Record ResourceRecord := mkResource {
  r_schema : Z;
  r_kind : string;
  r_name : string;
  r_version : Z;
  r_prev : option bytes;
  r_deleted : bool;
  spec_json : string
}.

#[export] Instance ResourceRecord_eq_dec : EqDecision ResourceRecord.
Proof. solve_decision. Defined.

#[export] Instance ResourceRecord_countable : Countable ResourceRecord.
Proof.
  refine (inj_countable' (fun r => (r_schema r, r_kind r, r_name r, r_version r, r_prev r, r_deleted r, spec_json r))
    (fun '(s, k, n, v, p, d, j) => mkResource s k n v p d j) _).
  by intros [].
Defined.

(** Each [bail!] of the module. *)
Inductive ResourceError :=
| UnsupportedSchema
| BadKind
| BadResourceName
| BadVersionChain
| NotJson
| DeletedWithSpec
| SpecNotObject
| SpecTooLarge
| OtherResource
| DigestNotHex
| DigestLength
| SignatureInvalid (e : EnvelopeError).

(** [valid_kind]. *)
Definition valid_kind (kind : string) : bool :=
  negb (is_empty kind) && (slen kind <=? MAX_KIND_BYTES)%Z
  && all_bytes (fun b => is_ascii_lowercase b || is_ascii_digit b || bool_decide (b = "_"%char)) kind.

Record ResourceView := mkView {
  resource : ResourceRecord;
  view_digest : string
}.

#[export] Instance ResourceView_eq_dec : EqDecision ResourceView.
Proof. solve_decision. Defined.

(** Resources are grouped by kind and name and ordered by version, then digest. *)
Definition group_of (r : ResourceRecord) : string * string := (r_kind r, r_name r).
Definition order_key (v : ResourceView) : Z * string := (r_version (resource v), view_digest v).

Definition view_le (a b : ResourceView) : Prop := order_key a ⪯ order_key b.

#[export] Instance view_le_dec : RelDecision view_le.
Proof. intros a b. unfold view_le. apply _. Defined.

#[export] Instance view_le_trans : Transitive view_le.
Proof. intros a b c. apply (le_of_trans (order_key a)). Qed.

Lemma view_le_refl v : view_le v v.
Proof. apply (le_of_refl (order_key v)). Qed.

#[export] Instance view_le_total : Total view_le.
Proof. intros a b. apply (le_of_total (order_key a)). Qed.

(** [Iterator::max_by]: the last of the greatest. *)
Definition max_view (acc : option ResourceView) (v : ResourceView) : option ResourceView :=
  match acc with
  | None => Some v
  | Some best => Some (if ltb (order_key v) (order_key best) then best else v)
  end.

(** [ResourceRecord::id]. *)
Definition record_id (r : ResourceRecord) : string := (r_kind r ++ "/" ++ r_name r)%string.

Section resource.
Context {redb : Redb} {crypto : Crypto} {hex : Hex} {json : Json}.
Context {pc_env : Postcard Envelope} {pc_resource : Postcard ResourceRecord}.
Context {pc_kv : Postcard KvEntry} {pc_audit : Postcard DataMutationAudit}.

(** [ResourceRecord::validate]. *)
Definition validate (r : ResourceRecord) : result unit ResourceError :=
  if negb (r_schema r =? RESOURCE_SCHEMA)%Z then Err UnsupportedSchema
  else if negb (valid_kind (r_kind r)) then Err BadKind
  else if negb (valid_name (r_name r)) then Err BadResourceName
  else if (r_version r =? 0)%Z || negb (eqb (r_version r =? 1)%Z (bool_decide (r_prev r = None))) then Err BadVersionChain
  else
    match json_from_str (spec_json r) with
    | None => Err NotJson
    | Some spec =>
        if r_deleted r then
          if negb (is_null spec) && negb (is_empty_object spec) then Err DeletedWithSpec else Ok tt
        else if negb (is_object spec) then Err SpecNotObject
        else if (MAX_SPEC_BYTES <? slen (spec_json r))%Z then Err SpecTooLarge
        else Ok tt
    end.

(** [ResourceRecord::spec]. *)
Definition record_spec (r : ResourceRecord) : result Value ResourceError :=
  match json_from_str (spec_json r) with Some v => Ok v | None => Err NotJson end.

Definition decode_digest (value : string) : result bytes ResourceError :=
  match hex_decode value with
  | Err _ => Err DigestNotHex
  | Ok b => if (length b =? 32)%nat then Ok b else Err DigestLength
  end.

(** [prepare_after]. *)
Definition prepare_after (kind name : string) (spec : Value) (deleted : bool) (head : option ResourceView)
  : result ResourceRecord ResourceError :=
  let? _ :=
    match head with
    | Some h =>
        if negb (bool_decide (r_kind (resource h) = kind)) || negb (bool_decide (r_name (resource h) = name))
        then Err OtherResource else Ok tt
    | None => Ok tt
    end in
  let? prev :=
    match head with
    | Some h => let? d := decode_digest (view_digest h) in Ok (Some d)
    | None => Ok None
    end in
  let record := mkResource RESOURCE_SCHEMA kind name
    (match head with Some h => wadd 64 (r_version (resource h)) 1 | None => 1 end)
    prev deleted (json_to_string (if deleted then Null else spec)) in
  let? _ := validate record in
  Ok record.

Definition group_prefix (kind name : string) : string := (kind ++ "/" ++ name ++ "/")%string.

(** The key [ingest] files a record under. *)
Definition resource_key (r : ResourceRecord) (digest : string) : string :=
  (r_kind r ++ "/" ++ r_name r ++ "/" ++ pad20 (r_version r) ++ "/" ++ digest)%string.

(** The kinds whose change is announced to the runtime. *)
Definition announced (kind : string) : bool :=
  bool_decide (kind ∈ ["node_policy"; "cluster_policy"; "r2_bucket"; "binary"; "hostname_claim"; "storage_policy"]).

(** [ingest]; one clock reading for the lookup and two for the write. *)
Definition ingest (n : Node) (envelope : Envelope) (now1 now2 now3 : Z) : Node * result ResourceRecord ResourceError :=
  match open (Some (cfg_operator (cfg n))) envelope with
  | Err e => (n, Err (SignatureInvalid e))
  | Ok r =>
      match validate r with
      | Err e => (n, Err e)
      | Ok _ =>
          let key := resource_key r (hex_encode (digest envelope)) in
          let n :=
            match kv_get n RESOURCE_NAMESPACE key now1 with
            | Some _ => n
            | None => kv_put n RESOURCE_NAMESPACE key (Some (env_to_bytes envelope)) None now2 now3
            end in
          (if announced (r_kind r) then emit n Runtime else n, Ok r)
      end
  end.

(** One entry of the scan of [records]. *)
Definition candidate (op : SignerId) (prefix : string) (now_at : string -> Z) (ke : string * KvEntry)
  : option ResourceView :=
  if negb (starts_with prefix ke.1) then None
  else
    match visible ke.2 (now_at ke.1) with
    | None => None
    | Some b =>
        match env_from_bytes b with
        | Err _ => None
        | Ok e =>
            match open (T := ResourceRecord) (Some op) e with
            | Err _ => None
            | Ok r =>
                if negb (is_ok (validate r)) || negb (starts_with (group_prefix (r_kind r) (r_name r)) ke.1) then None
                else Some (mkView r (hex_encode (digest e)))
            end
        end
    end.

(** The [BTreeMap] of candidates: each group in the order of the scan. *)
Definition push_candidate (m : gmap (string * string) (list ResourceView)) (v : ResourceView)
  : gmap (string * string) (list ResourceView) :=
  <[group_of (resource v) := default [] (m !! group_of (resource v)) ++ [v]]> m.

(** The walk over one sorted group: [accepted] maps a digest to its version. *)
Fixpoint connect (accepted : gmap string Z) (group : list ResourceView) : list ResourceView :=
  match group with
  | [] => []
  | v :: group' =>
      let r := resource v in
      let chain_ok :=
        if (r_version r =? 1)%Z then bool_decide (r_prev r = None)
        else bool_decide ((p ← r_prev r; accepted !! hex_encode p) = Some (r_version r - 1)) in
      if chain_ok then v :: connect (<[view_digest v := r_version r]> accepted) group'
      else connect accepted group'
  end.

Definition by_group (a b : (string * string) * list ResourceView) : Prop := a.1 ⪯ b.1.

#[export] Instance by_group_dec : RelDecision by_group.
Proof. intros a b. unfold by_group. apply _. Defined.

Definition scan_prefix (kind name : option string) : string :=
  match kind, name with
  | Some k, Some m => group_prefix k m
  | Some k, None => (k ++ "/")%string
  | None, _ => EmptyString
  end.

(** [records]; [now_at key] is the clock when the scan is at [key]. *)
Definition records (n : Node) (kind name : option string) (now_at : string -> Z) : list ResourceView :=
  let found := omap (candidate (cfg_operator (cfg n)) (scan_prefix kind name) now_at) (kv_dump n RESOURCE_NAMESPACE) in
  let groups := merge_sort by_group (map_to_list (foldl push_candidate ∅ found)) in
  concat ((fun g => connect ∅ (merge_sort view_le g.2)) <$> groups).

(** [head]. *)
Definition head (n : Node) (kind name : string) (now_at : string -> Z) : option ResourceView :=
  foldl max_view None
    (filter (fun v => r_kind (resource v) = kind /\ r_name (resource v) = name)
       (records n (Some kind) (Some name) now_at)).

(** The [BTreeMap] of [heads]. *)
Definition keep_latest (latest : gmap (string * string) ResourceView) (v : ResourceView)
  : gmap (string * string) ResourceView :=
  let replace :=
    match latest !! group_of (resource v) with
    | None => true
    | Some current => ltb (order_key current) (order_key v)
    end in
  if replace then <[group_of (resource v) := v]> latest else latest.

Definition by_id (a b : (string * string) * ResourceView) : Prop := a.1 ⪯ b.1.

#[export] Instance by_id_dec : RelDecision by_id.
Proof. intros a b. unfold by_id. apply _. Defined.

(** [heads]. *)
Definition heads (n : Node) (kind : option string) (now_at : string -> Z) : list ResourceView :=
  (merge_sort by_id (map_to_list (foldl keep_latest ∅ (records n kind None now_at)))).*2.

(** [prepare]. *)
Definition prepare (n : Node) (kind name : string) (spec : Value) (deleted : bool) (now_at : string -> Z)
  : result ResourceRecord ResourceError :=
  prepare_after kind name spec deleted (head n kind name now_at).
End resource.

(** ** Chains *)

Section chains.
Context {hex : Hex}.

(** A record is connected to a genesis through records of [C], each naming the
    digest of its predecessor. *)
Inductive connected (C : ResourceView -> Prop) : ResourceView -> Prop :=
| connected_genesis v :
    C v -> r_version (resource v) = 1 -> r_prev (resource v) = None -> connected C v
| connected_next u v p :
    C v -> connected C u -> r_version (resource v) <> 1 -> r_prev (resource v) = Some p ->
    view_digest u = hex_encode p -> r_version (resource u) = r_version (resource v) - 1 ->
    group_of (resource u) = group_of (resource v) -> connected C v.

Lemma connected_in C v : connected C v -> C v.
Proof. by destruct 1. Qed.

Lemma connected_mono (C D : ResourceView -> Prop) v : (forall u, C u -> D u) -> connected C v -> connected D v.
Proof.
  intros Hs. induction 1 as [v Hv H1 Hp|u v p Hv Hu IH H1 Hp Hd Hver Hg].
  - apply connected_genesis; auto.
  - eapply connected_next; eauto.
Qed.

(** A chain stays in its group. *)
Lemma connected_group C g v :
  group_of (resource v) = g -> connected C v <-> connected (fun u => C u /\ group_of (resource u) = g) v.
Proof.
  intros Hg. split; [|by apply connected_mono; intros ? [? _]]. intros H. revert Hg.
  induction H as [v Hv H1 Hp|u v p Hv Hu IH H1 Hp Hd Hver Hgr]; intros Hg.
  - by apply connected_genesis.
  - eapply (connected_next _ u); eauto. apply IH. congruence.
Qed.

Lemma connected_iff (C D : ResourceView -> Prop) v : (forall u, C u <-> D u) -> connected C v <-> connected D v.
Proof. intros H. split; apply connected_mono; naive_solver. Qed.

(** No two records of the list have one digest and different versions. *)
Definition digests_ok (C : ResourceView -> Prop) : Prop :=
  forall u v, C u -> C v -> view_digest u = view_digest v -> r_version (resource u) = r_version (resource v).

(** What the walk has accepted after [seen]. *)
Definition accepted_ok (C : ResourceView -> Prop) (seen : list ResourceView) (accepted : gmap string Z) : Prop :=
  forall d ver, accepted !! d = Some ver <->
    exists u, u ∈ seen /\ connected C u /\ view_digest u = d /\ r_version (resource u) = ver.

Lemma view_le_version u v : view_le u v -> r_version (resource u) <= r_version (resource v).
Proof.
  unfold view_le, le_of, order_key, cmp, pair_cmp, then_with; simpl. unfold cmp, Z_cmp.
  destruct (Z.compare_spec (r_version (resource u)) (r_version (resource v))); try lia. done.
Qed.

Lemma chain_ok_spec C seen v rest accepted :
  StronglySorted view_le (seen ++ v :: rest) -> (forall u, C u <-> u ∈ seen ++ v :: rest) ->
  (forall u, C u -> group_of (resource u) = group_of (resource v)) -> accepted_ok C seen accepted ->
  (if (r_version (resource v) =? 1)%Z then bool_decide (r_prev (resource v) = None)
   else bool_decide ((p ← r_prev (resource v); accepted !! hex_encode p) = Some (r_version (resource v) - 1))) = true <->
  connected C v.
Proof.
  intros Hs HC Hg Ha. assert (C v) as Hv by (apply HC; set_solver).
  destruct (Z.eqb_spec (r_version (resource v)) 1) as [H1|H1]; rewrite bool_decide_eq_true.
  - split; [by apply connected_genesis|]. by destruct 1.
  - split.
    + destruct (r_prev (resource v)) as [p|] eqn:Hp; simpl; [|done]. intros (u & Hu & Hc & Hd & Hver)%Ha.
      eapply (connected_next _ u); eauto. apply Hg. by apply connected_in.
    + destruct 1 as [? _ ? ?|u v p _ Hu _ Hp Hd Hver _]; [done|]. rewrite Hp; simpl. apply Ha. exists u.
      split_and!; [|done..]. pose proof (connected_in _ _ Hu) as Hin. apply HC in Hin.
      apply elem_of_app in Hin as [?|Hin]; [done|]. exfalso.
      assert (view_le v u); [|by pose proof (view_le_version v u ltac:(done)); lia].
      apply elem_of_cons in Hin as [->|Hin]; [apply (le_of_refl (order_key v))|].
      apply StronglySorted_app in Hs as (_ & _ & Hs). apply StronglySorted_inv in Hs as [_ Hf].
      rewrite Forall_forall in Hf. by apply Hf.
Qed.

Lemma accepted_ok_snoc C seen v accepted :
  digests_ok C -> accepted_ok C seen accepted -> (forall u, u ∈ seen ++ [v] -> C u) -> connected C v ->
  accepted_ok C (seen ++ [v]) (<[view_digest v := r_version (resource v)]> accepted).
Proof.
  intros Hd Ha HC Hv d ver. rewrite lookup_insert. case_decide as Hdv.
  - split; [intros [= <-]; exists v; set_solver|]. intros (u & Hu & Hc & Hud & <-). f_equal.
    apply Hd; [by apply connected_in|by apply HC|congruence].
  - rewrite (Ha d ver). split; [intros (u & ? & ?); exists u; set_solver|].
    intros (u & [Hu| ->%list_elem_of_singleton]%elem_of_app & Hc & Hud & Hver); [by exists u|done].
Qed.

Lemma accepted_ok_skip C seen v accepted :
  accepted_ok C seen accepted -> ~ connected C v -> accepted_ok C (seen ++ [v]) accepted.
Proof.
  intros Ha Hv d ver. rewrite (Ha d ver). split; [intros (u & ? & ?); exists u; set_solver|].
  intros (u & [Hu| ->%list_elem_of_singleton]%elem_of_app & Hc & Hud & Hver); [by exists u|done].
Qed.

(** The walk accepts exactly the connected records. *)
Lemma connect_elem C group seen accepted :
  StronglySorted view_le (seen ++ group) -> (forall u, C u <-> u ∈ seen ++ group) ->
  (forall u u', C u -> C u' -> group_of (resource u) = group_of (resource u')) -> digests_ok C ->
  accepted_ok C seen accepted ->
  forall v, v ∈ connect accepted group <-> v ∈ group /\ connected C v.
Proof.
  revert seen accepted. induction group as [|x group IH]; intros seen accepted Hs HC Hg Hd Ha v; cbn [connect].
  { set_solver. }
  assert (C x) as Hx by (apply HC; set_solver).
  pose proof (chain_ok_spec C seen x group accepted Hs HC (fun u Hu => Hg u x Hu Hx) Ha) as Hok. cbv zeta.
  rewrite (cons_middle x seen group), (app_assoc seen) in Hs, HC. destruct (if (_ =? 1)%Z then _ else _).
  - destruct Hok as [Hc _]. specialize (Hc eq_refl). rewrite !elem_of_cons.
    rewrite (IH (seen ++ [x])); [naive_solver|done..|].
    apply accepted_ok_snoc; [done..| |done]. intros u Hu. apply HC. set_solver.
  - destruct Hok as [_ Hc]. rewrite elem_of_cons. rewrite (IH (seen ++ [x])); [naive_solver|done..|].
    apply accepted_ok_skip; [done|]. intros H. by specialize (Hc H).
Qed.

Lemma connect_sorted C l :
  (forall u, C u <-> u ∈ l) -> (forall u u', C u -> C u' -> group_of (resource u) = group_of (resource u')) ->
  digests_ok C -> forall v, v ∈ connect ∅ (merge_sort view_le l) <-> connected C v.
Proof.
  intros HC Hg Hd v. rewrite (connect_elem C _ []); [| | |done..|].
  - rewrite merge_sort_Permutation, <- HC. split; [by intros [_ ?]|]. intros H. split; [by apply connected_in|done].
  - simpl. apply Sorted_StronglySorted, Sorted_merge_sort; apply _.
  - intros u. simpl. by rewrite HC, merge_sort_Permutation.
  - intros d ver. rewrite lookup_empty. split; [done|]. intros (u & Hu & _). set_solver.
Qed.

Lemma connect_subset accepted l v : v ∈ connect accepted l -> v ∈ l.
Proof.
  revert accepted. induction l as [|x l IH]; intros accepted; cbn [connect]; [done|]. cbv zeta.
  destruct (if (_ =? 1)%Z then _ else _); rewrite ?elem_of_cons; naive_solver.
Qed.

Lemma elem_of_concat {A} (x : A) ls : x ∈ concat ls <-> exists l, x ∈ l /\ l ∈ ls.
Proof. induction ls as [|l ls IH]; simpl; [set_solver|]. rewrite elem_of_app, IH. set_solver. Qed.

(** The groups of the scan. *)
Lemma push_candidates_lookup found m g :
  foldl push_candidate m found !! g =
  match m !! g, filter (fun v => group_of (resource v) = g) found with
  | None, [] => None
  | o, l => Some (default [] o ++ l)
  end.
Proof.
  revert m. induction found as [|v found IH]; intros m; cbn [foldl].
  { rewrite filter_nil. destruct (m !! g) as [l|]; simpl; [by rewrite app_nil_r|done]. }
  rewrite IH. unfold push_candidate. rewrite lookup_insert. case_decide as Hv.
  - rewrite filter_cons_True by done. simpl. rewrite Hv, <- app_assoc. simpl. by destruct (m !! g).
  - by rewrite filter_cons_False.
Qed.

Lemma connect_groups found v :
  digests_ok (fun v => v ∈ found) ->
  v ∈ concat ((fun g => connect ∅ (merge_sort view_le g.2)) <$>
        merge_sort by_group (map_to_list (foldl push_candidate ∅ found))) <->
  connected (fun v => v ∈ found) v.
Proof.
  intros Hd. set (g := group_of (resource v)). set (l := filter (fun v => group_of (resource v) = g) found).
  assert (forall u, u ∈ l <-> u ∈ found /\ group_of (resource u) = g) as Hl.
  { intros u. subst l. rewrite list_elem_of_filter. tauto. }
  assert (forall u, u ∈ connect ∅ (merge_sort view_le l) <-> connected (fun v => v ∈ l) u) as Hc.
  { apply connect_sorted; [done| |].
    - intros u u' [_ ->]%Hl [_ ->]%Hl. done.
    - intros u u' [Hu _]%Hl [Hu' _]%Hl. by apply Hd. }
  rewrite (connected_group _ g) by done. rewrite (connected_iff _ (fun v => v ∈ l)) by (intros; by rewrite Hl).
  rewrite <- Hc, elem_of_concat. setoid_rewrite list_elem_of_fmap.
  setoid_rewrite (merge_sort_Permutation by_group).
  split.
  - intros (vs & Hv & [g' l'] & -> & Hg%elem_of_map_to_list). simpl in Hv.
    rewrite push_candidates_lookup, lookup_empty in Hg.
    assert (l' = filter (fun v => group_of (resource v) = g') found) as ->.
    { destruct (filter (fun v => group_of (resource v) = g') found); simpl in Hg; congruence. }
    assert (g' = g) as ->; [|done].
    assert (v ∈ filter (fun v => group_of (resource v) = g') found) as [? _]%list_elem_of_filter; [|done].
    apply connect_subset in Hv. by rewrite merge_sort_Permutation in Hv.
  - intros Hv. exists (connect ∅ (merge_sort view_le l)). split; [done|]. exists (g, l). split; [done|].
    apply elem_of_map_to_list. rewrite push_candidates_lookup, lookup_empty. fold l.
    destruct l eqn:El; [|done]. apply Hc, connected_in in Hv. set_solver.
Qed.
End chains.

(** ** Records, heads and candidates of a node *)

Section node_records.
Context {redb : Redb} {crypto : Crypto} {hex : Hex} {json : Json}.
Context {pc_env : Postcard Envelope} {pc_resource : Postcard ResourceRecord}.
Context {pc_kv : Postcard KvEntry} {pc_audit : Postcard DataMutationAudit}.

(** What a node's namespace holds at key [key]. *)
Definition stored_at (n : Node) (key : string) : option KvEntry := entry_at (kv (inner n)) RESOURCE_NAMESPACE key.

(** A record filed in the namespace that passes every check of the scan. *)
Definition filed (n : Node) (now_at : string -> Z) (v : ResourceView) : Prop :=
  exists key e, stored_at n key = Some e /\ candidate (cfg_operator (cfg n)) EmptyString now_at (key, e) = Some v.

Lemma kv_dump_elem (n : Node) ns key e : (key, e) ∈ kv_dump n ns <-> entry_at (kv (inner n)) ns key = Some e.
Proof.
  unfold kv_dump, entry_at. destruct (kv (inner n) !! ns) as [space|]; simpl; [|set_solver].
  unfold dump, sorted_entries. rewrite merge_sort_Permutation. apply elem_of_map_to_list.
Qed.

Lemma prefix_app (p s : string) : starts_with p (p +:+ s) = true.
Proof. unfold starts_with. induction p as [|c p IH]; [by destruct s|]. simpl. by destruct (ascii_dec c c). Qed.

Lemma starts_with_spec (p s : string) : starts_with p s = true <-> exists t, s = (p +:+ t)%string.
Proof.
  split; [|intros [t ->]; apply prefix_app]. unfold starts_with. revert s.
  induction p as [|c p IH]; intros s H; [by exists s|]. destruct s as [|d s]; [done|]. simpl in H.
  destruct (ascii_dec c d) as [->|]; [|done]. destruct (IH s H) as [t ->]. by exists t.
Qed.

Lemma sapp_assoc (a b c : string) : ((a +:+ b) +:+ c)%string = (a +:+ (b +:+ c))%string.
Proof. induction a as [|x a IH]; [done|]. change (String x ((a +:+ b) +:+ c) = String x (a +:+ (b +:+ c))). by rewrite IH. Qed.

Lemma sapp_nil_r (a : string) : (a +:+ EmptyString)%string = a.
Proof. induction a as [|x a IH]; [done|]. change (String x (a +:+ EmptyString) = String x a). by rewrite IH. Qed.

(** The scan prefix of a group does not drop a record of the group. *)
Lemma candidate_prefix op prefix now_at ke v :
  starts_with prefix (group_prefix (r_kind (resource v)) (r_name (resource v))) = true ->
  candidate op prefix now_at ke = Some v <-> candidate op EmptyString now_at ke = Some v.
Proof.
  intros Hp. unfold candidate. destruct ke as [key e]; cbn [fst snd].
  assert (starts_with EmptyString key = true) as -> by (apply (starts_with_spec EmptyString); by exists key).
  cbn [negb]. destruct (starts_with prefix key) eqn:Hk; cbn [negb]; [done|].
  split; [done|]. destruct (visible e _); [|done]. destruct (env_from_bytes _) as [env|]; [|done].
  destruct (open _ env) as [r|]; [|done]. destruct (is_ok (validate r)); simpl; [|done].
  destruct (starts_with (group_prefix _ _) key) eqn:Hg; simpl; [|done]. intros [= <-]. simpl in Hp.
  apply starts_with_spec in Hp as [t Ht]. apply starts_with_spec in Hg as [t' ->].
  assert (starts_with prefix (prefix +:+ (t +:+ t')) = true) as Hs by apply prefix_app.
  rewrite Ht in Hk. by rewrite sapp_assoc, Hs in Hk.
Qed.

Lemma candidate_unprefix op prefix now_at ke v :
  candidate op prefix now_at ke = Some v -> candidate op EmptyString now_at ke = Some v.
Proof.
  unfold candidate. destruct ke as [key e]; cbn [fst snd].
  assert (starts_with EmptyString key = true) as -> by (apply (starts_with_spec EmptyString); by exists key).
  by destruct (starts_with prefix key).
Qed.

Lemma found_filed (n : Node) prefix now_at v :
  v ∈ omap (candidate (cfg_operator (cfg n)) prefix now_at) (kv_dump n RESOURCE_NAMESPACE) ->
  filed n now_at v.
Proof.
  intros ([key e] & He & Hc)%list_elem_of_omap. apply kv_dump_elem in He. apply candidate_unprefix in Hc. by exists key, e.
Qed.

Lemma filed_found (n : Node) prefix now_at v :
  starts_with prefix (group_prefix (r_kind (resource v)) (r_name (resource v))) = true -> filed n now_at v ->
  v ∈ omap (candidate (cfg_operator (cfg n)) prefix now_at) (kv_dump n RESOURCE_NAMESPACE).
Proof.
  intros Hp (key & e & He & Hc). apply list_elem_of_omap. exists (key, e). split; [by apply kv_dump_elem|].
  by apply candidate_prefix.
Qed.

(** [records] lists exactly the connected records in its scope. *)
Lemma records_elem (n : Node) kind name now_at v :
  digests_ok (filed n now_at) ->
  starts_with (scan_prefix kind name) (group_prefix (r_kind (resource v)) (r_name (resource v))) = true ->
  v ∈ records n kind name now_at <-> connected (filed n now_at) v.
Proof.
  intros Hd Hp. unfold records. set (found := omap _ _). rewrite (connect_groups found).
  - set (g := group_of (resource v)). rewrite (connected_group _ g), (connected_group (filed n now_at) g) by done.
    apply connected_iff. intros u. split; intros [Hu Hg]; (split; [|done]); [by eapply found_filed|].
    apply filed_found; [|done]. by injection Hg as -> ->.
  - intros u u' Hu Hu'. apply Hd; by eapply found_filed.
Qed.

Lemma scope_group kind name : starts_with (scan_prefix (Some kind) (Some name)) (group_prefix kind name) = true.
Proof. apply starts_with_spec. exists EmptyString. simpl. by rewrite sapp_nil_r. Qed.

Lemma scope_kind kind name : starts_with (scan_prefix (Some kind) None) (group_prefix kind name) = true.
Proof. apply starts_with_spec. exists (name +:+ "/")%string. simpl. by rewrite sapp_assoc. Qed.

(** The greatest of a list. *)
Definition greatest (P : ResourceView -> Prop) (v : ResourceView) : Prop :=
  P v /\ forall u, P u -> view_le u v.

Lemma max_view_from l acc :
  exists v, foldl max_view (Some acc) l = Some v /\ greatest (fun u => u = acc \/ u ∈ l) v.
Proof.
  revert acc. induction l as [|x l IH]; intros acc; cbn [foldl max_view].
  - exists acc. split; [done|]. split; [by left|]. intros u [->|?]; [apply (le_of_refl (order_key acc))|set_solver].
  - destruct (ltb (order_key x) (order_key acc)) eqn:E.
    + apply ltb_lt in E. destruct (IH acc) as (v & -> & Hv & Hmax). exists v. split; [done|]. split; [set_solver|].
      intros u [->|[->|?]%elem_of_cons]; [apply Hmax; by left| |apply Hmax; by right].
      etrans; [apply (lt_of_le (order_key x) (order_key acc) E)|apply Hmax; by left].
    + apply ltb_ge in E. destruct (IH x) as (v & -> & Hv & Hmax). exists v. split; [done|]. split; [set_solver|].
      intros u [->|[->|?]%elem_of_cons]; [|apply Hmax; by left|apply Hmax; by right].
      etrans; [exact E|apply Hmax; by left].
Qed.

Lemma max_view_spec l : match foldl max_view None l with Some v => greatest (fun u => u ∈ l) v | None => l = [] end.
Proof.
  destruct l as [|x l]; [done|]. cbn [foldl max_view]. destruct (max_view_from l x) as (v & -> & Hv & Hmax).
  split; [set_solver|]. intros u Hu. apply Hmax. set_solver.
Qed.

(** The connected records of one resource. *)
Definition chain (n : Node) (now_at : string -> Z) (kind name : string) (v : ResourceView) : Prop :=
  connected (filed n now_at) v /\ group_of (resource v) = (kind, name).

Lemma head_spec (n : Node) kind name now_at :
  digests_ok (filed n now_at) ->
  match head n kind name now_at with
  | Some v => greatest (chain n now_at kind name) v
  | None => forall v, ~ chain n now_at kind name v
  end.
Proof.
  intros Hd. unfold head. set (l := filter _ _).
  assert (forall v, v ∈ l <-> chain n now_at kind name v) as Hl.
  { intros v. subst l. rewrite list_elem_of_filter. unfold chain, group_of. split.
    - intros [[<- <-] Hv]. split; [|done]. eapply records_elem; [done|apply scope_group|exact Hv].
    - intros [Hv [= <- <-]]. split; [done|]. apply records_elem; [done|apply scope_group|done]. }
  pose proof (max_view_spec l) as H. destruct (foldl max_view None l) as [v|].
  - destruct H as [H1 H2]. split; [by apply Hl|]. intros u Hu. by apply H2, Hl.
  - intros v Hv%Hl. rewrite H in Hv. set_solver.
Qed.

Lemma keep_latest_spec l m g :
  match foldl keep_latest m l !! g with
  | Some v => greatest (fun u => m !! g = Some u \/ (u ∈ l /\ group_of (resource u) = g)) v
  | None => m !! g = None /\ forall u, u ∈ l -> group_of (resource u) <> g
  end.
Proof.
  revert m. induction l as [|x l IH]; intros m; cbn [foldl].
  { destruct (m !! g) as [v|]; [|set_solver]. split; [by left|].
    intros u [[= ->]|[? _]]; [apply (le_of_refl (order_key u))|set_solver]. }
  specialize (IH (keep_latest m x)). destruct (decide (group_of (resource x) = g)) as [Hg|Hg].
  - assert (exists y, keep_latest m x !! g = Some y /\ greatest (fun u => m !! g = Some u \/ u = x) y) as (y & Hy & Hy1 & Hy2).
    { unfold keep_latest. rewrite Hg. destruct (m !! g) as [c|] eqn:E.
      - destruct (ltb (order_key c) (order_key x)) eqn:El.
        + apply ltb_lt, lt_of_le in El. exists x. rewrite lookup_insert_eq. split; [done|]. split; [by right|].
          intros u [[= <-]| ->]; [exact El|apply (le_of_refl (order_key x))].
        + apply ltb_ge in El. exists c. split; [done|]. split; [by left|].
          intros u [[= <-]| ->]; [apply (le_of_refl (order_key c))|exact El].
      - exists x. rewrite lookup_insert_eq. split; [done|]. split; [by right|].
        intros u [?| ->]; [done|apply (le_of_refl (order_key x))]. }
    destruct (foldl keep_latest (keep_latest m x) l !! g) as [v|]; [|by destruct IH; simplify_eq].
    destruct IH as [H1 H2]. assert (view_le y v) as Hyv by (apply H2; by left). split.
    + destruct H1 as [?|[? ?]]; [|right; set_solver]. simplify_eq. destruct Hy1 as [?| ->]; [by left|right; set_solver].
    + intros u [Hu|[[->|Hu]%elem_of_cons Hug]]; [etrans; [apply Hy2; by left|done]|etrans; [apply Hy2; by right|done]|].
      apply H2. by right.
  - assert (keep_latest m x !! g = m !! g) as Hm.
    { unfold keep_latest. destruct (match _ with Some _ => _ | None => _ end); [|done]. by rewrite lookup_insert_ne. }
    rewrite Hm in IH. destruct (foldl keep_latest (keep_latest m x) l !! g) as [v|].
    + destruct IH as [H1 H2]. split; [set_solver|]. intros u [?|[[->|?]%elem_of_cons ?]]; [apply H2; by left|done|].
      apply H2. by right.
    + set_solver.
Qed.

(** [heads] lists the greatest connected record of every resource in scope. *)
Lemma heads_elem (n : Node) kind now_at v :
  digests_ok (filed n now_at) -> r_kind (resource v) = kind ->
  v ∈ heads n (Some kind) now_at <->
  foldl keep_latest ∅ (records n (Some kind) None now_at) !! group_of (resource v) = Some v.
Proof.
  intros Hd Hk. unfold heads. rewrite list_elem_of_fmap. setoid_rewrite (merge_sort_Permutation by_id). split.
  - intros ([g u] & -> & Hu%elem_of_map_to_list). simpl.
    pose proof (keep_latest_spec (records n (Some kind) None now_at) ∅ g) as H. rewrite Hu, lookup_empty in H.
    destruct H as [[?|[_ <-]] _]; [done|]. done.
  - intros H. exists (group_of (resource v), v). split; [done|]. by apply elem_of_map_to_list.
Qed.

(** ** Filing a record *)

Lemma kv_put_entry_stored (n : Node) ns key v exp now_ms ns' key' :
  entry_at (kv (inner (kv_put_entry n ns key v exp now_ms))) ns' key' =
  if decide (ns = ns' /\ key = key') then Some (mkKvEntry (hlc_now n now_ms).2 (id n) v exp)
  else entry_at (kv (inner n)) ns' key'.
Proof.
  unfold kv_put_entry. pose proof (hlc_now_keypair n now_ms) as Hk.
  assert (kv (inner (hlc_now n now_ms).1) = kv (inner n)) as Hv by done.
  destruct (hlc_now n now_ms) as [n1 h]; cbn [fst snd] in *. unfold Kv.put. cbv zeta.
  simpl. rewrite entry_at_put, Hv. unfold id. by rewrite Hk.
Qed.

(** Entries of the namespace are written without expiry. *)
Definition no_expiry (n : Node) : Prop := forall key e, stored_at n key = Some e -> Kv.expires_at_ms e = None.

Lemma visible_no_expiry e t : Kv.expires_at_ms e = None -> visible e t = value e.
Proof. unfold visible. intros ->. by destruct (value e). Qed.

Lemma kv_get_stored (n : Node) key t : no_expiry n ->
  kv_get n RESOURCE_NAMESPACE key t = e ← stored_at n key; value e.
Proof.
  intros Hx. rewrite kv_get_entry. change (entry_at (kv (inner n)) RESOURCE_NAMESPACE key) with (stored_at n key).
  destruct (stored_at n key) as [e|] eqn:E; [|done]. simpl. by apply visible_no_expiry, (Hx key).
Qed.

(** Without expiry the scan does not depend on the clock. *)
Lemma candidate_value op now_at key e :
  Kv.expires_at_ms e = None ->
  candidate op EmptyString now_at (key, e) =
    b ← value e; candidate op EmptyString now_at (key, mkKvEntry (mkHlc 0 0) (writer e) (Some b) None).
Proof.
  intros Hx. unfold candidate; cbn [fst snd]. rewrite visible_no_expiry by done.
  assert (starts_with EmptyString key = true) as -> by (apply (starts_with_spec EmptyString); by exists key).
  by destruct (value e).
Qed.

Lemma candidate_new op now_at key h w env r :
  open (Some op) env = Ok r -> validate r = Ok tt -> env_from_bytes (env_to_bytes env) = Ok env ->
  starts_with (group_prefix (r_kind r) (r_name r)) key = true ->
  candidate op EmptyString now_at (key, mkKvEntry h w (Some (env_to_bytes env)) None) =
  Some (mkView r (hex_encode (digest env))).
Proof.
  intros Ho Hv Hb Hp. unfold candidate; cbn [fst snd].
  assert (starts_with EmptyString key = true) as -> by (apply (starts_with_spec EmptyString); by exists key).
  rewrite visible_no_expiry by done. cbn [negb value]. rewrite Hb, Ho, Hv. simpl. by rewrite Hp.
Qed.

Lemma resource_key_prefix r d : starts_with (group_prefix (r_kind r) (r_name r)) (resource_key r d) = true.
Proof.
  apply starts_with_spec. exists (pad20 (r_version r) +:+ "/" +:+ d)%string. unfold resource_key, group_prefix.
  by rewrite !sapp_assoc.
Qed.

(** The state of the namespace after [ingest]. *)
Lemma ingest_stored (n : Node) env r now1 now2 now3 :
  open (Some (cfg_operator (cfg n))) env = Ok r -> validate r = Ok tt ->
  let key := resource_key r (hex_encode (digest env)) in
  (ingest n env now1 now2 now3).2 = Ok r /\
  cfg (ingest n env now1 now2 now3).1 = cfg n /\
  forall key', stored_at (ingest n env now1 now2 now3).1 key' =
    if decide (key = key' /\ kv_get n RESOURCE_NAMESPACE key now1 = None)
    then Some (mkKvEntry (hlc_now n now2).2 (id n) (Some (env_to_bytes env)) None) else stored_at n key'.
Proof.
  intros Ho Hv key. unfold ingest. rewrite Ho, Hv. fold key. cbn [fst snd]. split; [done|].
  assert (forall m, cfg (if announced (r_kind r) then emit m Runtime else m) = cfg m /\
    forall k, stored_at (if announced (r_kind r) then emit m Runtime else m) k = stored_at m k) as He
    by (intros m; by destruct (announced (r_kind r))).
  destruct (kv_get n RESOURCE_NAMESPACE key now1) as [b|].
  - destruct (He n) as [-> Hs]. split; [done|]. intros key'. rewrite Hs. by rewrite decide_False by naive_solver.
  - destruct (He (kv_put n RESOURCE_NAMESPACE key (Some (env_to_bytes env)) None now2 now3)) as [-> Hs].
    split; [done|].
    intros key'. rewrite Hs. unfold stored_at, kv_put.
    assert (starts_with "__rf" RESOURCE_NAMESPACE = true) as -> by reflexivity. rewrite kv_put_entry_stored.
    destruct (decide (key = key')) as [->|Hne]; [by rewrite !decide_True by done|by rewrite !decide_False by naive_solver].
Qed.

(** Whatever is visible under the key of [env] is [env] itself. *)
Definition slot_ok (n : Node) (r : ResourceRecord) (env : Envelope) : Prop :=
  forall e b, stored_at n (resource_key r (hex_encode (digest env))) = Some e -> value e = Some b ->
    env_from_bytes b = Ok env.

Lemma ingest_filed {pc_env_ok : PostcardOk Envelope} (n : Node) env r now1 now2 now3 now_at :
  open (Some (cfg_operator (cfg n))) env = Ok r -> validate r = Ok tt -> no_expiry n -> slot_ok n r env ->
  let n' := (ingest n env now1 now2 now3).1 in
  no_expiry n' /\
  forall v, filed n' now_at v <-> filed n now_at v \/ v = mkView r (hex_encode (digest env)).
Proof.
  intros Ho Hv Hx Hslot n'. destruct (ingest_stored n env r now1 now2 now3 Ho Hv) as (_ & Hcfg & Hst).
  fold n' in Hcfg, Hst. set (key := resource_key r (hex_encode (digest env))) in *.
  assert (env_from_bytes (env_to_bytes env) = Ok env) as Hb.
  { unfold env_from_bytes, env_to_bytes. by rewrite postcard_roundtrip. }
  assert (forall h w, candidate (cfg_operator (cfg n)) EmptyString now_at
    (key, mkKvEntry h w (Some (env_to_bytes env)) None) = Some (mkView r (hex_encode (digest env)))) as Hnew.
  { intros h w. apply candidate_new; [done..|]. apply resource_key_prefix. }
  rewrite kv_get_stored in Hst by done. unfold filed. rewrite Hcfg.
  destruct (stored_at n key ≫= value) as [b|] eqn:Eb.
  - assert (forall k, stored_at n' k = stored_at n k) as Hsame.
    { intros k. rewrite Hst. by rewrite decide_False by naive_solver. }
    split; [intros k e; rewrite Hsame; apply Hx|]. intros v. setoid_rewrite Hsame. split; [by left|].
    intros [?| ->]; [done|]. apply bind_Some in Eb as (e & He & Hval). exists key, e. split; [done|].
    rewrite candidate_value by (by eapply Hx). rewrite Hval. simpl.
    specialize (Hslot e b He Hval). unfold candidate in Hnew |- *; cbn [fst snd] in Hnew |- *.
    specialize (Hnew (mkHlc 0 0) (writer e)). rewrite !visible_no_expiry in Hnew |- * by done. cbn [value] in *.
    by rewrite Hslot, Hb in *.
  - split.
    { intros k e. rewrite Hst. case_decide; [by intros [= <-]|apply Hx]. }
    intros v. setoid_rewrite Hst. split.
    + intros (k & e & He & Hc). case_decide as Hk.
      * destruct Hk as [<- _]. injection He as <-. rewrite Hnew in Hc. right. congruence.
      * left. by exists k, e.
    + intros [(k & e & He & Hc)| ->].
      * exists k, e. split; [|done]. rewrite decide_False; [done|]. intros [<- _].
        rewrite He in Eb. simpl in Eb. rewrite candidate_value in Hc by (by eapply Hx). by rewrite Eb in Hc.
      * eexists key, _. rewrite decide_True by done. split; [done|]. apply Hnew.
Qed.

Lemma filed_clock (n : Node) now_at now_at' v : no_expiry n -> filed n now_at v -> filed n now_at' v.
Proof.
  intros Hx (key & e & He & Hc). exists key, e. split; [done|]. rewrite candidate_value in Hc |- * by (by eapply Hx).
  destruct (value e) as [b|]; [|done]. simpl in *. unfold candidate in *; cbn [fst snd] in *.
  by rewrite !visible_no_expiry in * by done.
Qed.

(** Adding a record no other names as its predecessor connects at most itself. *)
Lemma connected_add (C : ResourceView -> Prop) x v :
  (forall u p, C u \/ u = x -> r_prev (resource u) = Some p -> r_version (resource u) <> r_version (resource x) ->
     hex_encode p <> view_digest x) ->
  connected (fun u => C u \/ u = x) v -> connected C v \/ v = x.
Proof.
  intros Hnext. induction 1 as [v [Hv|Hv] H1 Hp|u v p [Hv|Hv] Hu IH H1 Hp Hd Hver Hg]; try by right.
  - left. by apply connected_genesis.
  - destruct IH as [IH| ->]; [left; by eapply connected_next|].
    destruct (Hnext v p); [by left|done|lia|done].
Qed.

Lemma prepare_after_fields kind name spec deleted h r :
  prepare_after kind name spec deleted h = Ok r ->
  validate r = Ok tt /\ group_of r = (kind, name) /\ r_deleted r = deleted /\
  r_version r = match h with Some h => wadd 64 (r_version (resource h)) 1 | None => 1 end /\
  match h with
  | Some h => exists d, hex_decode (view_digest h) = Ok d /\ r_prev r = Some d
  | None => r_prev r = None
  end.
Proof.
  unfold prepare_after. intros H. destruct h as [h|].
  - destruct (_ || _); [done|]. unfold decode_digest in H. destruct (hex_decode (view_digest h)) as [d|]; [|done].
    destruct (length d =? 32)%nat; [|done]. destruct (validate _) as [[]|] eqn:E; [|done]. injection H as <-.
    split_and!; eauto.
  - simpl in H. destruct (validate _) as [[]|] eqn:E; [|done]. by injection H as <-.
Qed.

Lemma validate_version r : validate r = Ok tt -> r_version r <> 0 /\ (r_version r = 1 <-> r_prev r = None).
Proof.
  unfold validate. destruct (negb (r_schema r =? _)%Z); [done|]. destruct (negb (valid_kind _)); [done|].
  destruct (negb (valid_name _)); [done|]. destruct (Z.eqb_spec (r_version r) 0); [done|].
  destruct (Z.eqb_spec (r_version r) 1); case_bool_decide; simpl; naive_solver.
Qed.

Lemma filed_digest (n : Node) now_at v : filed n now_at v -> exists b, view_digest v = hex_encode (sha256 b).
Proof.
  intros (key & e & _ & Hc). unfold candidate in Hc. destruct (negb _); [done|]. destruct (visible _ _); [|done].
  destruct (env_from_bytes _); [|done]. destruct (open _ _); [|done]. destruct (_ || _); [done|].
  injection Hc as <-. eexists. reflexivity.
Qed.

(** The prepared record continues the chain at its head. *)
Lemma prepared_connected {hex_ok : HexOk} (n : Node) kind name spec deleted now_at r d :
  (forall b, is_bytes (sha256 b)) -> digests_ok (filed n now_at) ->
  prepare n kind name spec deleted now_at = Ok r ->
  (forall v, head n kind name now_at = Some v -> in_width 64 (r_version (resource v))) ->
  connected (fun u => filed n now_at u \/ u = mkView r d) (mkView r d) /\
  forall v, chain n now_at kind name v -> r_version (resource v) < r_version r.
Proof.
  intros Hsha Hd Hp Hw. pose proof (head_spec n kind name now_at Hd) as Hh. unfold prepare in Hp.
  destruct (prepare_after_fields _ _ _ _ _ _ Hp) as (Hv & Hg & _ & Hver & Hprev).
  destruct (head n kind name now_at) as [h|].
  - specialize (Hw h eq_refl). destruct Hh as [[Hc Hgh] Hmax]. destruct Hprev as (q & Hq & Hr).
    apply validate_version in Hv as [Hnz H1].
    assert (r_version r = r_version (resource h) + 1) as Hver'.
    { unfold in_width in Hw. rewrite Hver. unfold wadd, wrap.
      destruct (decide (r_version (resource h) = 2 ^ 64 - 1)) as [E|E].
      - destruct Hnz. rewrite Hver. unfold wadd, wrap. by rewrite E.
      - apply Z.mod_small. lia. }
    destruct (filed_digest n now_at h (connected_in _ _ Hc)) as [b Hb]. rewrite Hb, hex_decode_encode in Hq by done.
    injection Hq as <-. split.
    + eapply (connected_next _ h); simpl; [by right| |naive_solver|exact Hr|done|lia|by rewrite Hg].
      eapply connected_mono; [|exact Hc]. by left.
    + intros v Hvv. pose proof (view_le_version v h (Hmax v Hvv)). lia.
  - split; [apply connected_genesis; [by right|done..]|]. intros v Hvv. by destruct (Hh v).
Qed.

(** ** Arrival order *)

(** Envelopes ingested one after the other, each with its clock readings. *)
Definition ingest_all (n : Node) (es : list (Envelope * (Z * Z * Z))) : Node :=
  foldl (fun n e => (ingest n e.1 e.2.1.1 e.2.1.2 e.2.2).1) n es.

Definition accepts (op : SignerId) (env : Envelope) (v : ResourceView) : Prop :=
  exists r, open (Some op) env = Ok r /\ validate r = Ok tt /\ v = mkView r (hex_encode (digest env)).

(** Everything in the namespace is one of [es], under its own key. *)
Definition holds_only (n : Node) (es : list Envelope) : Prop :=
  no_expiry n /\
  (forall key e b, stored_at n key = Some e -> value e = Some b -> exists env r,
     env ∈ es /\ open (Some (cfg_operator (cfg n))) env = Ok r /\ b = env_to_bytes env /\
     key = resource_key r (hex_encode (digest env))) /\
  (forall now_at v, filed n now_at v <-> exists env, env ∈ es /\ accepts (cfg_operator (cfg n)) env v).

Lemma last_segment (a d a' d' : string) :
  contains_byte "/" d = false -> contains_byte "/" d' = false ->
  (a +:+ "/" +:+ d = a' +:+ "/" +:+ d')%string -> d = d'.
Proof.
  intros Hd Hd'.
  assert (forall x t, contains_byte "/" (x +:+ "/" +:+ t)%string = true) as Hc.
  { intros x t. induction x as [|c x IH]; [done|]. change (contains_byte "/" (String c (x +:+ "/" +:+ t)) = true).
    simpl. by rewrite IH, orb_true_r. }
  revert a'. induction a as [|c a IH]; intros [|c' a'] E.
  - by injection E.
  - injection E as _ E. change (d = a' +:+ "/" +:+ d')%string in E. by rewrite E, Hc in Hd.
  - injection E as _ E. change (a +:+ "/" +:+ d = d')%string in E. by rewrite <- E, Hc in Hd'.
  - injection E as _ E. by apply (IH a').
Qed.

Lemma hex_no_slash {hex_ok : HexOk} b : contains_byte "/" (hex_encode b) = false.
Proof.
  pose proof (hex_encode_digits b) as H. induction (hex_encode b) as [|c s IH]; [done|]. simpl in *.
  apply andb_true_iff in H as [Hc Hs]. rewrite IH by done. rewrite orb_false_r.
  destruct (bool_decide_reflect (c = "/"%char)) as [->|]; done.
Qed.

Lemma resource_key_digest {hex_ok : HexOk} r r' (b b' : bytes) :
  resource_key r (hex_encode b) = resource_key r' (hex_encode b') -> hex_encode b = hex_encode b'.
Proof.
  unfold resource_key. intros H. rewrite <- !sapp_assoc in H.
  rewrite (sapp_assoc _ "/" (hex_encode b)), (sapp_assoc _ "/" (hex_encode b')) in H.
  by apply last_segment in H; [|apply hex_no_slash..].
Qed.

Lemma ingest_holds_only {hex_ok : HexOk} {pc_env_ok : PostcardOk Envelope} (n : Node) es env now1 now2 now3 :
  (forall e e', e ∈ env :: es -> e' ∈ env :: es -> hex_encode (digest e) = hex_encode (digest e') -> e = e') ->
  holds_only n es ->
  cfg (ingest n env now1 now2 now3).1 = cfg n /\ holds_only (ingest n env now1 now2 now3).1 (env :: es).
Proof.
  intros Hinj (Hx & Hst & Hf).
  assert (forall err, open (T := ResourceRecord) (Some (cfg_operator (cfg n))) env = Err err \/
     (exists r, open (Some (cfg_operator (cfg n))) env = Ok r /\ is_ok (validate r) = false) ->
     holds_only n (env :: es)) as Hskip.
  { intros err Hbad. split_and!; [done| |].
    - intros key e b He Hb. destruct (Hst key e b He Hb) as (env' & r & ? & ?). exists env', r. set_solver.
    - intros now_at v. rewrite Hf. split; intros (env' & Hin & Ha); exists env'; [set_solver|].
      apply elem_of_cons in Hin as [->|?]; [|done]. destruct Ha as (r & Ho & Hv & _).
      destruct Hbad as [Hbad|(r' & Ho' & Hv')]; [congruence|]. assert (r' = r) as -> by congruence. by rewrite Hv in Hv'. }
  destruct (open (T := ResourceRecord) (Some (cfg_operator (cfg n))) env) as [r|err] eqn:Ho.
  2: { unfold ingest. rewrite Ho. split; [done|]. apply (Hskip err). by left. }
  destruct (validate r) as [[]|err] eqn:Hv.
  2: { unfold ingest. rewrite Ho, Hv. split; [done|]. apply (Hskip BadSignature). right. exists r. by rewrite Hv. }
  assert (slot_ok n r env) as Hslot.
  { intros e b He Hb. destruct (Hst _ _ _ He Hb) as (env' & r' & Hin & _ & -> & Hk%resource_key_digest).
    assert (env = env') as <- by (apply Hinj; set_solver). unfold env_from_bytes, env_to_bytes. by rewrite postcard_roundtrip. }
  destruct (ingest_stored n env r now1 now2 now3 Ho Hv) as (_ & Hcfg & Hst'). split; [done|]. split_and!.
  - by apply (ingest_filed n env r now1 now2 now3 (fun _ => 0)).
  - intros key e b. rewrite Hst', Hcfg. case_decide as Hk.
    + intros [= <-] [= <-]. destruct Hk as [<- _]. exists env, r. set_solver.
    + intros He Hb. destruct (Hst key e b He Hb) as (env' & r' & ? & ?). exists env', r'. set_solver.
  - intros now_at v. destruct (ingest_filed n env r now1 now2 now3 now_at Ho Hv Hx Hslot) as [_ ->]. rewrite Hf, Hcfg.
    split.
    + intros [(env' & ? & ?)| ->]; [exists env'; set_solver|]. exists env. split; [set_solver|]. by exists r.
    + intros (env' & [->|?]%elem_of_cons & Ha); [|left; by exists env'].
      destruct Ha as (r' & Ho' & _ & ->). right. congruence.
Qed.

Lemma ingest_all_holds_only {hex_ok : HexOk} {pc_env_ok : PostcardOk Envelope} es (n : Node) seen :
  (forall e e', e ∈ es.*1 ++ seen -> e' ∈ es.*1 ++ seen -> hex_encode (digest e) = hex_encode (digest e') -> e = e') ->
  holds_only n seen ->
  cfg (ingest_all n es) = cfg n /\ holds_only (ingest_all n es) (reverse es.*1 ++ seen).
Proof.
  revert n seen. induction es as [|[env [[t1 t2] t3]] es IH]; intros n seen Hinj Hh; [done|].
  cbn [ingest_all foldl fmap list_fmap fst snd] in *. fold (ingest_all (ingest n env t1 t2 t3).1 es).
  destruct (ingest_holds_only n seen env t1 t2 t3) as [Hc H1]; [|done|].
  { intros e e' He He'. apply Hinj; rewrite elem_of_app, ?elem_of_cons in *; rewrite ?elem_of_app, ?elem_of_cons in *; tauto. }
  destruct (IH (ingest n env t1 t2 t3).1 (env :: seen)) as [Hc' H2]; [|exact H1|].
  { intros e e' He He'. apply Hinj; rewrite elem_of_app, ?elem_of_cons in *; rewrite ?elem_of_app, ?elem_of_cons in *; tauto. }
  split; [congruence|]. rewrite reverse_cons, <- app_assoc. exact H2.
Qed.
End node_records.

(** [head] and [heads] give the greatest connected record. *)
Lemma head_heads {redb : Redb} {crypto : Crypto} {hex : Hex} {json : Json}
    {pc_env : Postcard Envelope} {pc_resource : Postcard ResourceRecord}
    (n : Node) (now_at : string -> Z) (kind name : string) (v : ResourceView)
    (Hd : forall u v, filed n now_at u -> filed n now_at v -> view_digest u = view_digest v -> u = v) :
  (head n kind name now_at = Some v <-> greatest (chain n now_at kind name) v) /\
  (head n kind name now_at = Some v <-> v ∈ heads n (Some kind) now_at /\ group_of (resource v) = (kind, name)).
Proof.
  assert (digests_ok (filed n now_at)) as Hok by (intros a b Ha Hb He; by rewrite (Hd a b Ha Hb He)).
  assert (forall (P : ResourceView -> Prop) a b, (forall u, P u -> filed n now_at u) ->
    greatest P a -> greatest P b -> a = b) as Huniq.
  { intros P a b HP [Ha Hma] [Hb Hmb]. apply Hd; [by apply HP..|].
    pose proof (anti_symm le_of (order_key a) (order_key b) (Hmb a Ha) (Hma b Hb)) as E. by injection E. }
  assert (forall u, chain n now_at kind name u -> filed n now_at u) as Hcf by (intros u [Hu _]; by apply connected_in).
  pose proof (head_spec n kind name now_at Hok) as Hh.
  assert (head n kind name now_at = Some v <-> greatest (chain n now_at kind name) v) as Hg.
  { destruct (head n kind name now_at) as [h|]; split; try done.
    - by intros [= <-].
    - intros Hv. f_equal. by apply (Huniq (chain n now_at kind name)).
    - intros [Hv _]. by destruct (Hh v). }
  split; [exact Hg|]. rewrite Hg.
  assert (forall u, (u ∈ records n (Some kind) None now_at /\ group_of (resource u) = (kind, name)) <->
    chain n now_at kind name u) as Hrec.
  { intros u. unfold chain. split; intros [Hu Hgu]; (split; [|done]); pose proof Hgu as [= <- <-].
    - eapply records_elem; [done|apply scope_kind|exact Hu].
    - apply records_elem; [done|apply scope_kind|done]. }
  assert (group_of (resource v) = (kind, name) ->
    (v ∈ heads n (Some kind) now_at <-> greatest (chain n now_at kind name) v)) as Hheads.
  { intros Hgv. rewrite heads_elem; [|done|by injection Hgv]. rewrite Hgv.
    pose proof (keep_latest_spec (records n (Some kind) None now_at) ∅ (kind, name)) as H. rewrite lookup_empty in H.
    destruct (_ !! (kind, name)) as [w|].
    - assert (greatest (chain n now_at kind name) w) as Hw.
      { destruct H as [[?|Hw] Hm]; [done|]. split; [by apply Hrec|]. intros u Hu%Hrec. apply Hm. by right. }
      split; [by intros [= <-]|]. intros Hv. f_equal. by apply (Huniq (chain n now_at kind name)).
    - split; [done|]. intros [Hv%Hrec _]. destruct H as [_ H]. by destruct (H v); destruct Hv. }
  split; [|intros [Hv Hgv]; by apply Hheads]. intros Hv. assert (group_of (resource v) = (kind, name)) as Hgv by apply Hv.
  split; [by apply Hheads|done].
Qed.

(** ** Properties *)

(** A record is listed exactly when it is connected to a genesis. The walk over
    the sorted groups, with its map of accepted digests, finds a record of a
    resource if and only if a chain of stored, operator-signed, valid records leads from
    a version 1 to it, each naming the digest of the one before; whichever of the
    three scopes the scan has. Stored records with one digest have one version. *)
Theorem records_exact {redb : Redb} {crypto : Crypto} {hex : Hex} {json : Json}
    {pc_env : Postcard Envelope} {pc_resource : Postcard ResourceRecord}
    (n : Node) (now_at : string -> Z) (v : ResourceView)
    (Hd : digests_ok (filed n now_at)) :
  let r := resource v in
  (v ∈ records n (Some (r_kind r)) (Some (r_name r)) now_at <-> connected (filed n now_at) v) /\
  (v ∈ records n (Some (r_kind r)) None now_at <-> connected (filed n now_at) v) /\
  (v ∈ records n None None now_at <-> connected (filed n now_at) v).
Proof.
  intros r. split_and!; apply records_elem; try done; [apply scope_group|apply scope_kind|].
  apply (starts_with_spec EmptyString). by eexists.
Qed.

(** [head] and [heads] agree and give the greatest connected record. A
    resource has a head exactly when some record of it is connected, the head is the
    connected one of greatest version, then digest, and the listing of a kind
    holds exactly the heads. Stored records with one digest are one record. *)
Theorem head_is_greatest {redb : Redb} {crypto : Crypto} {hex : Hex} {json : Json}
    {pc_env : Postcard Envelope} {pc_resource : Postcard ResourceRecord}
    (n : Node) (now_at : string -> Z) (kind name : string) (v : ResourceView)
    (Hd : forall u v, filed n now_at u -> filed n now_at v -> view_digest u = view_digest v -> u = v) :
  (head n kind name now_at = Some v <-> greatest (chain n now_at kind name) v) /\
  (head n kind name now_at = Some v <-> v ∈ heads n (Some kind) now_at /\ group_of (resource v) = (kind, name)).
Proof. by apply head_heads. Qed.

(** Publishing works. When the operator prepares the next record of a resource
    from the node's head, signs it and the node ingests it, the ingest succeeds
    and, at every later reading of the clock, the head of that resource is the
    new record. Versions are [u64], the hash gives bytes, no stored record already names
    the new one as its predecessor, and the digest is not taken. *)
Theorem publish_advances_head {redb : Redb} {crypto : Crypto} {crypto_ok : CryptoOk} {hex : Hex} {hex_ok : HexOk}
    {json : Json} {pc_env : Postcard Envelope} {pc_env_ok : PostcardOk Envelope}
    {pc_resource : Postcard ResourceRecord} {pc_resource_ok : PostcardOk ResourceRecord}
    {pc_kv : Postcard KvEntry} {pc_audit : Postcard DataMutationAudit}
    (n : Node) (operator : AnyKeypair) (kind name : string) (spec : Value) (deleted : bool)
    (now_at now_at' : string -> Z) (now1 now2 now3 : Z) (r : ResourceRecord)
    (Hop : signer_id operator = cfg_operator (cfg n))
    (Hprep : prepare n kind name spec deleted now_at = Ok r)
    (Hsha : forall b, is_bytes (sha256 b))
    (Hx : no_expiry n)
    (Hw : forall v, head n kind name now_at = Some v -> in_width 64 (r_version (resource v)))
    (Hd : digests_ok (fun v => filed n now_at v \/ v = mkView r (hex_encode (digest (seal_any r operator)))))
    (Hslot : slot_ok n r (seal_any r operator))
    (Hnext : forall v p, filed n now_at v -> r_prev (resource v) = Some p ->
               hex_encode p <> hex_encode (digest (seal_any r operator))) :
  let env := seal_any r operator in
  let n' := (ingest n env now1 now2 now3).1 in
  (ingest n env now1 now2 now3).2 = Ok r /\
  head n' kind name now_at' = Some (mkView r (hex_encode (digest env))).
Proof.
  intros env n'. set (x := mkView r (hex_encode (digest env))).
  assert (validate r = Ok tt) as Hv by (by eapply prepare_after_fields in Hprep as (? & _)).
  assert (group_of r = (kind, name)) as Hg by (by eapply prepare_after_fields in Hprep as (_ & ? & _)).
  assert (open (Some (cfg_operator (cfg n))) env = Ok r) as Ho by (apply open_seal; intros w [= <-]; done).
  destruct (ingest_stored n env r now1 now2 now3 Ho Hv) as (Hok & _). split; [exact Hok|].
  destruct (ingest_filed n env r now1 now2 now3 now_at Ho Hv Hx Hslot) as [Hx' Hf]. fold n' x in Hx', Hf.
  assert (forall v, filed n' now_at' v <-> filed n now_at v \/ v = x) as Hf'.
  { intros v. rewrite <- Hf. split; by apply filed_clock. }
  destruct (prepared_connected n kind name spec deleted now_at r (hex_encode (digest env)) Hsha) as [Hc Hlt]; [|done..|].
  { intros a b Ha Hb. apply Hd; by left. }
  fold x in Hc. assert (digests_ok (filed n' now_at')) as Hd'.
  { intros a b Ha%Hf' Hb%Hf'. by apply Hd. }
  assert (chain n' now_at' kind name x) as Hx1.
  { split; [|exact Hg]. eapply connected_iff; [exact Hf'|exact Hc]. }
  assert (forall v, chain n' now_at' kind name v -> v = x \/ chain n now_at kind name v) as Hother.
  { intros v [Hcv Hgv]. apply (connected_iff _ (fun u => filed n now_at u \/ u = x)) in Hcv; [|exact Hf'].
    apply connected_add in Hcv as [?| ->]; [by right|by left|].
    intros u p [Hu| ->] Hp Hne; [by eapply Hnext|done]. }
  pose proof (head_spec n' kind name now_at' Hd') as Hh. destruct (head n' kind name now_at') as [h|]; [|by destruct (Hh x)].
  destruct Hh as [Hh Hmax]. destruct (Hother h Hh) as [->|Hold]; [done|].
  pose proof (view_le_version x h (Hmax x Hx1)). specialize (Hlt h Hold). simpl in *. lia.
Qed.

(** C35: resources converge. Two nodes of one operator whose resource namespaces start
    empty and that ingest the same envelopes, in any two orders, at any times,
    valid ones and invalid ones alike, agree on the head of every resource: forks included,
    records before their predecessors included. No two of the envelopes have one digest. *)
Theorem resources_converge {redb : Redb} {crypto : Crypto} {hex : Hex} {hex_ok : HexOk}
    {json : Json} {pc_env : Postcard Envelope} {pc_env_ok : PostcardOk Envelope}
    {pc_resource : Postcard ResourceRecord} {pc_kv : Postcard KvEntry} {pc_audit : Postcard DataMutationAudit}
    (a b : Node) (es es' : list (Envelope * (Z * Z * Z))) (kind name : string) (now_at now_at' : string -> Z)
    (Hop : cfg_operator (cfg a) = cfg_operator (cfg b))
    (Ha : forall key, stored_at a key = None) (Hb : forall key, stored_at b key = None)
    (Hp : es.*1 ≡ₚ es'.*1)
    (Hinj : forall e e', e ∈ es.*1 -> e' ∈ es.*1 -> hex_encode (digest e) = hex_encode (digest e') -> e = e') :
  head (ingest_all a es) kind name now_at = head (ingest_all b es') kind name now_at'.
Proof.
  assert (forall n : Node, (forall key, stored_at n key = None) -> holds_only n []) as Hempty.
  { intros n Hn. split_and!; [intros k e; by rewrite Hn|intros k e ?; by rewrite Hn|]. intros t v.
    split; [intros (k & e & He & _); by rewrite Hn in He|intros (? & ? & _); set_solver]. }
  destruct (ingest_all_holds_only es a []) as [Hca (_ & _ & Hfa)]; [by rewrite app_nil_r|by apply Hempty|].
  destruct (ingest_all_holds_only es' b []) as [Hcb (_ & _ & Hfb)]; [rewrite app_nil_r; by setoid_rewrite <- Hp|by apply Hempty|].
  assert (forall v, filed (ingest_all a es) now_at v <-> filed (ingest_all b es') now_at' v) as Hf.
  { intros v. rewrite Hfa, Hfb, Hca, Hcb, Hop. rewrite !app_nil_r. by setoid_rewrite reverse_Permutation; setoid_rewrite Hp. }
  assert (forall u v, filed (ingest_all a es) now_at u -> filed (ingest_all a es) now_at v ->
    view_digest u = view_digest v -> u = v) as Huniq.
  { intros u v Hu Hv. rewrite Hfa, app_nil_r in Hu, Hv. destruct Hu as (e & He & r & Ho & _ & ->).
    destruct Hv as (e' & He' & r' & Ho' & _ & ->). simpl. rewrite reverse_Permutation in He, He'.
    intros E. assert (e = e') as <- by (by apply Hinj). congruence. }
  assert (forall v, chain (ingest_all a es) now_at kind name v <-> chain (ingest_all b es') now_at' kind name v) as Hc.
  { intros v. unfold chain. by rewrite (connected_iff _ _ v Hf). }
  pose proof (head_spec (ingest_all a es) kind name now_at) as H1. pose proof (head_spec (ingest_all b es') kind name now_at') as H2.
  destruct (head (ingest_all a es) kind name now_at) as [u|], (head (ingest_all b es') kind name now_at') as [w|].
  all: try specialize (H1 ltac:(intros x y Hx Hy E; by rewrite (Huniq x y Hx Hy E))).
  all: try specialize (H2 ltac:(intros x y Hx%Hf Hy%Hf E; by rewrite (Huniq x y Hx Hy E))).
  - destruct H1 as [Hu Hm], H2 as [Hw Hm']. f_equal. apply Huniq; [by apply connected_in, Hu|by apply Hf, connected_in, Hw|].
    pose proof (anti_symm le_of (order_key u) (order_key w) (Hm' u (proj1 (Hc u) Hu)) (Hm w (proj2 (Hc w) Hw))) as E. by injection E.
  - destruct H1 as [Hu _]. by destruct (H2 u (proj1 (Hc u) Hu)).
  - destruct H2 as [Hw _]. by destruct (H1 w (proj2 (Hc w) Hw)).
  - done.
Qed.

(** A hash of 32 bytes and a JSON of one object, for witnesses. *)
Module SampleHash.
Definition hash (b : bytes) : bytes :=
  le_bytes 32 (foldl (fun acc x => (acc * 65599 + x + 1) mod 2 ^ 256) 7 b).

#[export] Instance crypto : Crypto := {|
  sha256 := hash;
  keccak256 := @keccak256 Sample.crypto;
  SigningKey := bytes;
  ed_from_bytes := fun b => b;
  ed_to_bytes := fun b => b;
  ed_verifying_key_bytes := Sample.pad 32;
  ed_sign := fun k m => Sample.pad 64 (Sample.pad 32 k ++ hash m);
  VerifyingKey := bytes;
  ed_verifying_key_from_bytes := fun b => Some b;
  ed_verify := fun vk m s => bool_decide (s = Sample.pad 64 (vk ++ hash m));
  EthSigningKey := Z;
  EthVerifyingKey := Z;
  EthSignature := Z;
  RecoveryId := unit;
  eth_sk_from_bytes := fun b => b !! 0%nat;
  eth_sk_to_bytes := fun k => Sample.pad 32 [k];
  eth_verifying_key := fun k => k;
  eth_sec1_point := fun k => 4 :: replicate 64 k;
  eth_sign_prehash_recoverable := fun k _ => (k, tt);
  eth_sig_to_bytes := fun s => s :: replicate 63 0;
  eth_sig_from_slice := fun b => b !! 0%nat;
  recid_to_byte := fun _ => 0;
  recid_from_byte := fun v => if (v =? 0)%Z then Some tt else None;
  eth_recover_from_prehash := fun _ s _ => Some s
|}.

#[export] Instance crypto_ok : CryptoOk.
Proof.
  split; cbn; intros; try apply Sample.pad_length; try lia; try done.
  - exists (Sample.pad 32 k). split; [done|]. by apply bool_decide_true.
  - by destruct r.
  - naive_solver.
Qed.

Lemma le_bytes_bytes k x : is_bytes (le_bytes k x).
Proof. revert x. induction k as [|k IH]; intros x; constructor; [apply Z.mod_pos_bound; lia|apply IH]. Qed.

Lemma hash_bytes b : is_bytes (hash b).
Proof. apply le_bytes_bytes. Qed.

(** [null] and [{}]. *)
#[export] Instance json : Json := {|
  Value := bool;
  Null := false;
  is_null := negb;
  is_object := fun v => v;
  is_empty_object := fun v => v;
  json_from_str := fun s => if bool_decide (s = "null") then Some false else if bool_decide (s = "{}") then Some true else None;
  json_to_string := fun v => if v then "{}" else "null"
|}.

#[export] Instance json_ok : JsonOk.
Proof. split; [done|]. intros []; by eexists. Qed.

Definition operator : AnyKeypair := EdKey (mkKeypair [9]).
Definition start : Node (redb := SampleRedb.redb) :=
  mkNode (redb := SampleRedb.redb) (mkConfig (signer_id operator) true None) (mkKeypair [1]) (store_open (redb := SampleRedb.redb))
    (mkInner Hlc.new Claim.new_set (Manifest.new_set (signer_id operator)) ∅ ∅ ∅ ∅ ∅ [] (0, 0) 0) [].

#[export] Instance redb : Redb := SampleRedb.redb.
#[export] Instance env_codec : Postcard Envelope := SampleCodec.codec Envelope.
#[export] Instance resource_codec : Postcard ResourceRecord := SampleCodec.codec ResourceRecord.
#[export] Instance kv_codec : Postcard KvEntry := SampleCodec.codec KvEntry.
#[export] Instance audit_codec : Postcard DataMutationAudit := SampleNode.audit_codec.
#[export] Instance hex : Hex := Sample.hex.
#[export] Instance hex_ok : HexOk := Sample.hex_ok.
#[export] Instance env_codec_ok : PostcardOk Envelope := SampleCodec.codec_ok Envelope.
#[export] Instance resource_codec_ok : PostcardOk ResourceRecord := SampleCodec.codec_ok ResourceRecord.

(** A bucket published twice. *)
Definition first : ResourceRecord := mkResource 1 "r2_bucket" "events" 1 None false "{}".
Definition first_env : Envelope := seal_any first operator.
Definition first_view : ResourceView := mkView first (hex_encode (digest first_env)).
Definition second : ResourceRecord := mkResource 1 "r2_bucket" "events" 2 (Some (digest first_env)) false "{}".
Definition second_env : Envelope := seal_any second operator.
Definition second_view : ResourceView := mkView second (hex_encode (digest second_env)).
Definition one : Node := (ingest start first_env 1 2 3).1.

Lemma start_empty key : stored_at start key = None.
Proof. unfold stored_at, entry_at. simpl. by rewrite lookup_empty. Qed.

Lemma start_filed now_at v : ~ filed start now_at v.
Proof. intros (key & e & He & _). by rewrite start_empty in He. Qed.

Lemma start_slot r env : slot_ok start r env.
Proof. intros e b He. by rewrite start_empty in He. Qed.

Lemma one_spec : no_expiry one /\ forall now_at v, filed one now_at v <-> v = first_view.
Proof.
  assert (open (Some (cfg_operator (cfg start))) first_env = Ok first) as Ho by (apply open_seal; by intros w [= <-]).
  assert (validate first = Ok tt) as Hv by (vm_compute; reflexivity).
  assert (no_expiry start) as Hx by (intros k e; by rewrite start_empty).
  split; [exact (proj1 (ingest_filed start first_env first 1 2 3 (fun _ => 0) Ho Hv Hx (start_slot first first_env)))|].
  intros now_at v. unfold one.
  destruct (ingest_filed start first_env first 1 2 3 now_at Ho Hv Hx (start_slot first first_env)) as [_ ->].
  split; [|intros H; right; exact H]. intros [H|H]; [destruct (start_filed now_at v H)|exact H].
Qed.
End SampleHash.

(** The instances, for the witnesses. *)
Import SampleHash.

Lemma records_exact_witness :
  first_view ∈ records one (Some "r2_bucket") None (fun _ => 5).
Proof.
  assert (digests_ok (filed one (fun _ => 5))) as Hd.
  { intros u v Hu Hv _. destruct one_spec as [_ Hf]. apply Hf in Hu. apply Hf in Hv. by rewrite Hu, Hv. }
  refine (proj2 (proj1 (proj2 (records_exact one (fun _ => 5) first_view Hd))) _).
  apply connected_genesis; [apply one_spec; reflexivity|reflexivity|reflexivity].
Defined.

Lemma one_uniq now_at u v : filed one now_at u -> filed one now_at v -> view_digest u = view_digest v -> u = v.
Proof. intros Hu Hv _. destruct one_spec as [_ Hf]. apply Hf in Hu. apply Hf in Hv. by rewrite Hu, Hv. Qed.

Lemma head_is_greatest_witness : head one "r2_bucket" "events" (fun _ => 5) = Some first_view.
Proof.
  refine (proj2 (proj1 (head_is_greatest one (fun _ => 5) "r2_bucket" "events" first_view (one_uniq (fun _ => 5)))) _).
  split.
  - split; [|reflexivity]. apply connected_genesis; [apply one_spec; reflexivity|reflexivity|reflexivity].
  - intros u [Hu _]. apply connected_in in Hu. apply one_spec in Hu. rewrite Hu. apply view_le_refl.
Defined.

Lemma second_digest : view_digest first_view <> view_digest second_view.
Proof. vm_compute. discriminate. Qed.

Lemma two_digests : digests_ok (fun v => v = first_view \/ v = second_view).
Proof.
  intros u v [->| ->] [->| ->] He; [reflexivity|destruct (second_digest He)|destruct (second_digest (eq_sym He))|reflexivity].
Qed.

Lemma two_envelopes e e' :
  e = first_env \/ e = second_env \/ False -> e' = first_env \/ e' = second_env \/ False ->
  hex_encode (digest e) = hex_encode (digest e') -> e = e'.
Proof.
  intros [->|[->|[]]] [->|[->|[]]] He; [reflexivity|destruct (second_digest He)|destruct (second_digest (eq_sym He))|reflexivity].
Qed.

Lemma second_prepared : prepare one "r2_bucket" "events" true false (fun _ => 6) = Ok second.
Proof. vm_compute. reflexivity. Qed.

Lemma second_head v : head one "r2_bucket" "events" (fun _ => 6) = Some v -> in_width 64 (r_version (resource v)).
Proof.
  assert (head one "r2_bucket" "events" (fun _ => 6) = Some first_view) as E by (vm_compute; reflexivity).
  rewrite E. intros [= <-]. unfold in_width. simpl. lia.
Qed.

Lemma second_free : stored_at one (resource_key second (hex_encode (digest second_env))) = None.
Proof. vm_compute. reflexivity. Qed.

Lemma publish_advances_head_witness :
  (ingest one second_env 7 8 9).2 = Ok second /\
  head (ingest one second_env 7 8 9).1 "r2_bucket" "events" (fun _ => 99) = Some second_view.
Proof.
  destruct one_spec as [Hx Hf].
  refine (publish_advances_head one operator "r2_bucket" "events" true false
    (fun _ => 6) (fun _ => 99) 7 8 9 second eq_refl second_prepared hash_bytes Hx second_head _ _ _).
  - intros u v Hu Hv. apply two_digests; [destruct Hu as [Hu|Hu]|destruct Hv as [Hv|Hv]].
    + left. by apply Hf in Hu.
    + right. exact Hu.
    + left. by apply Hf in Hv.
    + right. exact Hv.
  - intros e b He Hb. pose proof second_free as Hn. unfold second_env in Hn. rewrite Hn in He. discriminate He.
  - intros v p Hv Hp. apply Hf in Hv. rewrite Hv in Hp. discriminate Hp.
Defined.

Lemma resources_converge_witness :
  head (ingest_all start [(first_env, (1, 2, 3)); (second_env, (4, 5, 6))]) "r2_bucket" "events" (fun _ => 7) =
  head (ingest_all start [(second_env, (8, 9, 10)); (first_env, (11, 12, 13))]) "r2_bucket" "events" (fun _ => 14).
Proof.
  refine (resources_converge start start [(first_env, (1, 2, 3)); (second_env, (4, 5, 6))]
    [(second_env, (8, 9, 10)); (first_env, (11, 12, 13))] "r2_bucket" "events" (fun _ => 7) (fun _ => 14)
    eq_refl start_empty start_empty (Permutation_swap _ _ _) _).
  intros e e' He He'. change (e ∈ [first_env; second_env]) in He. change (e' ∈ [first_env; second_env]) in He'.
  rewrite !elem_of_cons, elem_of_nil in He, He'. exact (two_envelopes e e' He He').
Defined.
