(* ===== verification/Hostname.v ===== *)
(** * Hostname: ownership claims of hostnames and what they open (crates/rf/src/hostname.rs)

    Claims are platform resources of one kind; a custom hostname is served only
    after its claim is verified.  The node keeps the verified set in a cache keyed
    by the generation of the resource namespace ([Node::verified_custom_hostnames]);
    the call is modelled step by step, interleaved with other calls and with
    everything else the node does.  [Node::routes] and the effective hostnames of
    workers, buckets, pipelines, flows and workflows use that set.  DNS lookups
    and the random challenge are arguments. *)

From Stdlib Require Import ZArith Lia Ascii.
From stdpp Require Import prelude gmap sorting strings list.
From S2P Require Import Prelude Text Hlc Identity Envelope Kv Claim Manifest Quorum DataAudit Observability Store Node NodeFacts Resource.
Open Scope Z_scope.

Definition HOSTNAME_CLAIM_KIND : string := "hostname_claim".
Definition TXT_PREFIX : string := "_randallflare-verify".
Definition VALUE_PREFIX : string := "rf-hostname-verification=".

Record HostnameClaimSpec := mkClaimSpec {
  cs_hostname : string;
  challenge : string;
  created_at_ms : Z;
  verified_at_ms : option Z
}.

#[export] Instance HostnameClaimSpec_eq_dec : EqDecision HostnameClaimSpec.
Proof. solve_decision. Defined.

Inductive HostnameError :=
| InvalidHostname
| InvalidChallenge
| NoCreation
| VerifiedTooEarly
| ClaimMismatch
| NotAClaim
| ClaimNotJson
| ClaimNameMismatch
| ResourceFailed (e : ResourceError).

(** The JSON of a claim: [json!(spec)] and [serde_json::from_str]. *)
Class ClaimJson {json : Json} := {
  claim_to_value : HostnameClaimSpec -> Value;
  claim_from_str : string -> option HostnameClaimSpec
}.

Class ClaimJsonOk {json : Json} {claim_json : ClaimJson} : Prop :=
  claim_json_roundtrip : forall s, claim_from_str (json_to_string (claim_to_value s)) = Some s.

(** [str::trim_end_matches('.')]. *)
Fixpoint trim_end_dots (s : string) : string :=
  match s with
  | EmptyString => EmptyString
  | String c s' =>
      match trim_end_dots s' with
      | EmptyString => if bool_decide (c = "."%char) then EmptyString else String c EmptyString
      | t => String c t
      end
  end.

Definition normal (hostname : string) : string := to_ascii_lowercase (trim_end_dots hostname).

Definition challenge_byte (b : ascii) : bool :=
  is_ascii_digit b || is_ascii_lowercase b || is_ascii_upper b || bool_decide (b = "-"%char) || bool_decide (b = "_"%char).

(** [HostnameClaimSpec::validate]. *)
Definition validate_claim (s : HostnameClaimSpec) : result unit HostnameError :=
  if negb (valid_hostname (cs_hostname s)) then Err InvalidHostname
  else if (slen (challenge s) <? 24)%Z || (192 <? slen (challenge s))%Z || negb (all_bytes challenge_byte (challenge s))
  then Err InvalidChallenge
  else if (created_at_ms s =? 0)%Z then Err NoCreation
  else if match verified_at_ms s with Some v => (v <? created_at_ms s)%Z | None => false end then Err VerifiedTooEarly
  else Ok tt.

Definition txt_name (s : HostnameClaimSpec) : string := (TXT_PREFIX ++ "." ++ cs_hostname s)%string.
Definition txt_value (s : HostnameClaimSpec) : string := (VALUE_PREFIX ++ challenge s)%string.

Record HostnameVerification := mkVerification {
  hv_hostname : string;
  hv_txt_name : string;
  hv_txt_value : string;
  observed : list string;
  verified : bool;
  checked_at_ms : Z
}.

(** [Vec::dedup]: consecutive repetitions are removed. *)
Fixpoint dedup (l : list string) : list string :=
  match l with
  | [] => []
  | x :: l' =>
      match dedup l' with
      | y :: t => if bool_decide (x = y) then y :: t else x :: y :: t
      | [] => [x]
      end
  end.

(** [query_verification] on the TXT records of the answer. *)
Definition query_verification (s : HostnameClaimSpec) (answers : list string) (now_ms : Z)
  : result HostnameVerification HostnameError :=
  let? _ := validate_claim s in
  let observed := dedup (merge_sort le_of answers) in
  Ok (mkVerification (cs_hostname s) (txt_name s) (txt_value s) observed
        (existsb (fun v => bool_decide (v = txt_value s)) observed) now_ms).

Section hostname.
Context {redb : Redb} {crypto : Crypto} {hex : Hex} {json : Json} {claim_json : ClaimJson}.
Context {pc_env : Postcard Envelope} {pc_resource : Postcard ResourceRecord}.

(** [claim_name]. *)
Definition claim_name (hostname : string) : string :=
  ("host-" ++ stake 40 (hex_encode (sha256 (as_bytes hostname))))%string.

Definition lift {A} (r : result A ResourceError) : result A HostnameError :=
  match r with Ok x => Ok x | Err e => Err (ResourceFailed e) end.

(** [prepare_claim_after], with the challenge and the time a new claim would get. *)
Definition prepare_claim_after (hostname : string) (existing : option HostnameClaimSpec) (verified : option Z)
  (deleted : bool) (head : option ResourceView) (generated : string) (now_ms : Z)
  : result ResourceRecord HostnameError :=
  let hostname := normal hostname in
  let spec := default (mkClaimSpec hostname generated now_ms None) existing in
  if negb (bool_decide (cs_hostname spec = hostname)) then Err ClaimMismatch
  else
    let spec := mkClaimSpec (cs_hostname spec) (challenge spec) (created_at_ms spec) verified in
    let? _ := validate_claim spec in
    lift (prepare_after HOSTNAME_CLAIM_KIND (claim_name hostname) (claim_to_value spec) deleted head).

(** [claim_spec]. *)
Definition claim_spec (r : ResourceRecord) : result HostnameClaimSpec HostnameError :=
  if negb (bool_decide (r_kind r = HOSTNAME_CLAIM_KIND)) || r_deleted r then Err NotAClaim
  else
    match claim_from_str (spec_json r) with
    | None => Err ClaimNotJson
    | Some spec =>
        let? _ := validate_claim spec in
        if negb (bool_decide (r_name r = claim_name (cs_hostname spec))) then Err ClaimNameMismatch else Ok spec
    end.

(** [claim]. *)
Definition claim_of (n : Node) (hostname : string) (now_at : string -> Z) : option (ResourceView * HostnameClaimSpec) :=
  let hostname := normal hostname in
  view ← head n HOSTNAME_CLAIM_KIND (claim_name hostname) now_at;
  match claim_spec (resource view) with
  | Ok spec => if bool_decide (cs_hostname spec = hostname) then Some (view, spec) else None
  | Err _ => None
  end.

(** [claims]. *)
Definition hostname_claims (n : Node) (now_at : string -> Z) : list (ResourceView * HostnameClaimSpec) :=
  omap (fun view => match claim_spec (resource view) with Ok spec => Some (view, spec) | Err _ => None end)
    (filter (fun view => r_deleted (resource view) = false) (heads n (Some HOSTNAME_CLAIM_KIND) now_at)).

(** The set [Node::verified_custom_hostnames] collects. *)
Definition verified_set (n : Node) (now_at : string -> Z) : gset string :=
  list_to_set (omap (fun vs => match verified_at_ms vs.2 with Some _ => Some (cs_hostname vs.2) | None => None end)
    (hostname_claims n now_at)).

(** *** What the verified set opens *)

Definition default_worker_hostname (n : Node) (worker : string) : option string :=
  d ← default_domain (cfg n); Some (worker ++ "." ++ d)%string.
Definition default_r2_hostname (n : Node) (bucket : string) : option string :=
  d ← default_domain (cfg n); Some ("r2-" ++ bucket ++ "." ++ d)%string.
Definition default_pipeline_hostname (n : Node) (pipeline : string) : option string :=
  d ← default_domain (cfg n); Some ("pipe-" ++ pipeline ++ "." ++ d)%string.
Definition default_flow_hostname (n : Node) (flow : string) : option string :=
  d ← default_domain (cfg n); Some ("flow-" ++ flow ++ "." ++ d)%string.
Definition default_workflow_hostname (n : Node) (workflow : string) : option string :=
  d ← default_domain (cfg n); Some ("workflow-" ++ workflow ++ "." ++ d)%string.

(** [Node::routes], with the verified set it reads. *)
Definition node_routes (n : Node) (verified : gset string) : gmap string string :=
  let routes := filter (fun hw => hw.1 ∈ verified) (Manifest.routes (manifests (inner n))) in
  foldl (fun routes w => match default_worker_hostname n w with Some h => <[h := w]> routes | None => routes end)
    routes ((fun r => name (manifest r)) <$> Manifest.live (manifests (inner n))).

(** The loop the five [effective_*_hostnames] share. *)
Definition add_verified (verified : gset string) (hostnames : list string) (h : string) : list string :=
  if bool_decide (h ∈ verified) && negb (bool_decide (h ∈ hostnames)) then hostnames ++ [h] else hostnames.
Definition effective (default : option string) (declared : list string) (verified : gset string) : list string :=
  foldl (add_verified verified) (match default with Some h => [h] | None => [] end) declared.

Definition effective_workflow_hostnames (n : Node) (workflow : string) (declared : list string) (verified : gset string) :=
  effective (default_workflow_hostname n workflow) declared verified.
Definition effective_flow_hostnames (n : Node) (flow : string) (declared : list string) (verified : gset string) :=
  effective (default_flow_hostname n flow) declared verified.
Definition effective_pipeline_hostnames (n : Node) (pipeline : string) (declared : list string) (verified : gset string) :=
  effective (default_pipeline_hostname n pipeline) declared verified.
Definition effective_r2_hostnames (n : Node) (bucket : string) (declared : list string) (verified : gset string) :=
  effective (default_r2_hostname n bucket) declared verified.
Definition effective_worker_hostnames (n : Node) (m : WorkerManifest) (verified : gset string) :=
  effective (default_worker_hostname n (name m)) (hostnames m) verified.
End hostname.

(** ** The cache of the verified set

    What the cache relies on: a source of sets with a generation, changed by
    others in between.  Every change either bumps the generation or leaves the
    set alone. *)

Class Source (St : Type) := {
  generation_of : St -> Z;
  published : St -> gset string;
  scans : St -> gset string -> Prop;
  changes : St -> St -> Prop;
  good : St -> Prop
}.

Class SourceOk (St : Type) {source : Source St} : Prop := {
  change_good : forall a b, good a -> changes a b -> good b;
  change_bumps : forall a b, good a -> changes a b ->
    (generation_of b = generation_of a /\ published b = published a) \/ generation_of b = generation_of a + 1;
  scan_published : forall a s, good a -> scans a s -> s = published a;
  scan_total : forall a, good a -> scans a (published a)
}.

(** Where a call of [verified_custom_hostnames] is. *)
Inductive Pc :=
| Begin
| Read (g : Z)
| Missed (g : Z)
| Scanned (g : Z) (s : gset string)
| Confirmed (g : Z) (s : gset string)
| Done (s : gset string).

Section cache.
Context {St : Type} {source : Source St}.

(** [past]: the states of the source so far, the current one last; a call knows the
    index of the state it began in. *)
Record Sys := mkSys {
  cur : St;
  past : list St;
  cached : Z * gset string;
  calls : gmap nat (nat * Pc)
}.

Definition set_call (x : Sys) (i k : nat) (p : Pc) : Sys :=
  mkSys (cur x) (past x) (cached x) (<[i := (k, p)]> (calls x)).

Inductive call_step (x : Sys) (i : nat) : Sys -> Prop :=
| read_generation k :
    calls x !! i = Some (k, Begin) -> call_step x i (set_call x i k (Read (generation_of (cur x))))
| cache_hit k g s :
    calls x !! i = Some (k, Read g) -> cached x = (g, s) -> call_step x i (set_call x i k (Done s))
| cache_miss k g :
    calls x !! i = Some (k, Read g) -> fst (cached x) <> g -> call_step x i (set_call x i k (Missed g))
| scan k g s :
    calls x !! i = Some (k, Missed g) -> scans (cur x) s -> call_step x i (set_call x i k (Scanned g s))
| again k g s :
    calls x !! i = Some (k, Scanned g s) -> generation_of (cur x) <> g -> call_step x i (set_call x i k Begin)
| confirm k g s :
    calls x !! i = Some (k, Scanned g s) -> generation_of (cur x) = g -> call_step x i (set_call x i k (Confirmed g s))
| store k g s :
    calls x !! i = Some (k, Confirmed g s) ->
    call_step x i (mkSys (cur x) (past x) (g, s) (<[i := (k, Done s)]> (calls x))).

Inductive sys_step (x : Sys) : Sys -> Prop :=
| change b : changes (cur x) b -> sys_step x (mkSys b (past x ++ [b]) (cached x) (calls x))
| begin_call i :
    calls x !! i = None -> sys_step x (set_call x i (length (past x) - 1) Begin)
| in_call i y : call_step x i y -> sys_step x y.

Inductive reachable (x : Sys) : Sys -> Prop :=
| reach_here : reachable x x
| reach_step y z : reachable x y -> sys_step y z -> reachable x z.

Definition starts_in (a : St) : Sys := mkSys a [a] (0, ∅) ∅.

(** *** The invariant *)

Definition ordered (l : list St) : Prop :=
  forall i j a b, (i <= j)%nat -> l !! i = Some a -> l !! j = Some b ->
    generation_of a <= generation_of b /\ (generation_of a = generation_of b -> published a = published b).

(** Some state since [k] satisfies [P]. *)
Definition since (l : list St) (k : nat) (P : St -> Prop) : Prop :=
  exists j a, (k <= j)%nat /\ l !! j = Some a /\ P a.

Definition call_ok (l : list St) (k : nat) (p : Pc) : Prop :=
  match p with
  | Begin => True
  | Read g | Missed g => since l k (fun a => generation_of a = g)
  | Scanned g s => exists j a, (k <= j)%nat /\ l !! j = Some a /\ generation_of a = g /\ since l j (fun b => s = published b)
  | Confirmed g s => since l k (fun a => generation_of a = g /\ s = published a)
  | Done s => since l k (fun a => s = published a)
  end.

Record sys_ok (x : Sys) : Prop := mk_sys_ok {
  ok_good : good (cur x);
  ok_last : list.last (past x) = Some (cur x);
  ok_ordered : ordered (past x);
  ok_cache_gen : fst (cached x) <= generation_of (cur x);
  ok_cache : forall a, a ∈ past x -> generation_of a = fst (cached x) -> snd (cached x) = published a;
  ok_calls : forall i k p, calls x !! i = Some (k, p) -> (k < length (past x))%nat /\ call_ok (past x) k p
}.

Lemma since_app l k P a : since l k P -> since (l ++ [a]) k P.
Proof. intros (j & b & Hk & Hj & Hb). exists j, b. split_and!; [done| |done]. by apply lookup_app_l_Some. Qed.

Lemma call_ok_app l k p a : call_ok l k p -> call_ok (l ++ [a]) k p.
Proof.
  destruct p; simpl; eauto using since_app. intros (j & b & Hk & Hj & Hg & Hs). exists j, b.
  split_and!; [done|by apply lookup_app_l_Some|done|by apply since_app].
Qed.

Lemma since_now x k (P : St -> Prop) : sys_ok x -> (k < length (past x))%nat -> P (cur x) -> since (past x) k P.
Proof.
  intros Hok Hk HP. exists (length (past x) - 1)%nat, (cur x). split; [lia|]. split; [|done].
  rewrite <- (ok_last x Hok), last_lookup. f_equal. lia.
Qed.

Lemma set_call_ok x i k p : sys_ok x -> (k < length (past x))%nat -> call_ok (past x) k p -> sys_ok (set_call x i k p).
Proof.
  intros [Hg Hl Ho Hcg Hc Hcalls] Hk Hp. split; try done. intros i' k' p'. simpl. rewrite lookup_insert.
  case_decide; [by intros [= <- <-]|apply Hcalls].
Qed.

Context {source_ok : SourceOk St}.

Lemma elem_past_le x a : sys_ok x -> a ∈ past x ->
  generation_of a <= generation_of (cur x) /\ (generation_of a = generation_of (cur x) -> published a = published (cur x)).
Proof.
  intros Hok [j Hj]%list_elem_of_lookup. pose proof (lookup_lt_Some _ _ _ Hj).
  apply (ok_ordered x Hok j (length (past x) - 1)%nat); [lia|done|].
  rewrite <- (ok_last x Hok), last_lookup. f_equal. lia.
Qed.

Lemma ordered_snoc x b : sys_ok x -> changes (cur x) b -> ordered (past x ++ [b]).
Proof.
  intros Hok Hb i j a c Hij Ha Hc. pose proof (ok_good x Hok) as Hg.
  assert (forall a, a ∈ past x -> generation_of a <= generation_of b /\
    (generation_of a = generation_of b -> published a = published b)) as Hnew.
  { intros d Hd. destruct (elem_past_le x d Hok Hd) as [H1 H2].
    destruct (change_bumps (cur x) b Hg Hb) as [[-> ->]| ->]; [done|]. split; [lia|]. lia. }
  apply lookup_snoc_Some in Hc as [[Hj Hc]|[Hj <-]].
  - rewrite lookup_app_l in Ha by lia. by eapply (ok_ordered x Hok i j).
  - apply lookup_snoc_Some in Ha as [[_ Ha]|[_ <-]]; [|done]. apply Hnew. by eapply list_elem_of_lookup_2.
Qed.

Lemma call_step_ok x i y : sys_ok x -> call_step x i y -> sys_ok y.
Proof.
  intros Hok. destruct 1 as [k Hc|k g s Hc Hca|k g Hc _|k g s Hc Hs|k g s Hc _|k g s Hc Hg|k g s Hc];
    destruct (ok_calls x Hok _ _ _ Hc) as [Hk Hp].
  - apply set_call_ok; [done..|]. simpl. by apply since_now.
  - apply set_call_ok; [done..|]. destruct Hp as (j & a & Hj & Ha & Hga). exists j, a. split_and!; [done..|].
    pose proof (ok_cache x Hok a) as He. rewrite Hca in He. apply He; [by eapply list_elem_of_lookup_2|done].
  - by apply set_call_ok.
  - apply set_call_ok; [done..|]. destruct Hp as (j & a & Hj & Ha & Hga). exists j, a. split_and!; [done..|].
    apply since_now; [done|by eapply lookup_lt_Some|]. apply scan_published; [by apply ok_good|done].
  - by apply set_call_ok.
  - apply set_call_ok; [done..|]. destruct Hp as (j & a & Hj & Ha & Hga & j' & b & Hj' & Hb & ->). exists j', b.
    split; [lia|]. split; [done|]. split; [|done].
    destruct (ok_ordered x Hok j j' a b Hj' Ha Hb) as [Hab _].
    destruct (elem_past_le x b Hok) as [Hbc _]; [by eapply list_elem_of_lookup_2|]. lia.
  - destruct Hp as (j & a & Hj & Ha & Hga & ->). assert (a ∈ past x) as Hin by (by eapply list_elem_of_lookup_2).
    destruct (elem_past_le x a Hok Hin) as [Hle _]. destruct Hok as [Hg Hl Ho Hcg Hc' Hcalls].
    split; simpl; try done; [lia| |].
    + intros b Hb Hgb. apply list_elem_of_lookup in Hb as [j' Hj'].
      destruct (Nat.le_ge_cases j j') as [Hjj|Hjj]; [|symmetry].
      * apply (Ho j j' a b Hjj Ha Hj'). congruence.
      * apply (Ho j' j b a Hjj Hj' Ha). congruence.
    + intros i' k' p'. rewrite lookup_insert. case_decide; [|apply Hcalls]. intros [= <- <-]. split; [done|].
      by exists j, a.
Qed.

Lemma sys_step_ok x y : sys_ok x -> sys_step x y -> sys_ok y.
Proof.
  intros Hok. destruct 1 as [b Hb|i Hi|i y Hy]; [| |by eapply call_step_ok].
  - pose proof (ordered_snoc x b Hok Hb) as Ho. destruct Hok as [Hg Hl _ Hcg Hc Hcalls].
    assert (generation_of (cur x) <= generation_of b) as Hle.
    { destruct (change_bumps (cur x) b Hg Hb) as [[-> _]| ->]; lia. }
    split; simpl; [by eapply change_good|by rewrite last_snoc|done|lia| |].
    + intros a [Ha|Ha%list_elem_of_singleton]%elem_of_app Hga; [by apply Hc|subst a].
      destruct (change_bumps (cur x) b Hg Hb) as [[Hgen ->]|Hgen]; [|lia]. apply Hc; [|lia].
      by apply last_Some_elem_of in Hl.
    + intros i k p Hi. destruct (Hcalls i k p Hi) as [Hk Hp]. rewrite length_app. split; [simpl; lia|by apply call_ok_app].
  - apply set_call_ok; [done| |done]. destruct (past x) eqn:E; [|simpl; lia].
    pose proof (ok_last x Hok) as Hl. by rewrite E in Hl.
Qed.

Lemma reachable_ok x y : sys_ok x -> reachable x y -> sys_ok y.
Proof. intros Hx. induction 1; [done|]. by eapply sys_step_ok. Qed.

Lemma starts_ok a : good a -> 0 <= generation_of a -> (generation_of a = 0 -> published a = ∅) -> sys_ok (starts_in a).
Proof.
  intros Hg H0 He. split; simpl; try done.
  - intros i j b c _ Hb Hc. apply list_lookup_singleton_Some in Hb as [_ <-], Hc as [_ <-]. lia || done.
  - intros b ->%list_elem_of_singleton Hb. symmetry. by apply He.
Qed.

(** A call that nothing interrupts returns the current set. *)
Lemma solo_call x i k : sys_ok x -> calls x !! i = Some (k, Begin) ->
  exists y, reachable x y /\ cur y = cur x /\ calls y !! i = Some (k, Done (published (cur x))).
Proof.
  intros Hok Hi. destruct (ok_calls x Hok i k Begin Hi) as [Hk _]. set (g := generation_of (cur x)).
  set (x1 := set_call x i k (Read g)).
  assert (reachable x x1) as R1 by (eapply reach_step; [apply reach_here|eapply in_call, read_generation, Hi]).
  assert (calls x1 !! i = Some (k, Read g)) as E1 by (by simpl; rewrite lookup_insert_eq).
  destruct (decide (fst (cached x) = g)) as [Hc|Hc].
  - destruct (cached x) as [g' s] eqn:Ec; simpl in Hc. subst g'.
    assert (s = published (cur x)) as ->.
    { pose proof (ok_cache x Hok (cur x)) as H. rewrite Ec in H. apply H; [|done].
      eapply last_Some_elem_of, (ok_last x Hok). }
    exists (set_call x1 i k (Done (published (cur x)))). split_and!; [|done|by simpl; rewrite lookup_insert_eq].
    eapply reach_step; [exact R1|]. eapply in_call, cache_hit; [exact E1|exact Ec].
  - set (s := published (cur x)). set (x2 := set_call x1 i k (Missed g)). set (x3 := set_call x2 i k (Scanned g s)).
    set (x4 := set_call x3 i k (Confirmed g s)).
    exists (mkSys (cur x) (past x) (g, s) (<[i := (k, Done s)]> (calls x4))).
    split_and!; [|done|by simpl; rewrite lookup_insert_eq].
    eapply reach_step; [eapply reach_step; [eapply reach_step; [eapply reach_step; [exact R1|]|]|]|].
    + eapply in_call, cache_miss; [exact E1|exact Hc].
    + eapply in_call, (scan x2); [by simpl; rewrite lookup_insert_eq|]. apply (scan_total (cur x)), (ok_good x Hok).
    + eapply in_call, (confirm x3); [by simpl; rewrite lookup_insert_eq|done].
    + eapply in_call, (store x4). by simpl; rewrite lookup_insert_eq.
Qed.
End cache.

(** ** The node as the source of the verified set *)

Section node_source.
Context {redb : Redb} {crypto : Crypto} {hex : Hex} {json : Json} {claim_json : ClaimJson}.
Context {pc_env : Postcard Envelope} {pc_manifest : Postcard WorkerManifest} {pc_claim : Postcard Claim}.
Context {pc_kv : Postcard KvEntry} {pc_audit : Postcard DataMutationAudit} {pc_resource : Postcard ResourceRecord}.

(** The visible entries of the resource namespace, in key order. *)
Definition visible_entry (ke : string * KvEntry) : option (string * bytes) := b ← value ke.2; Some (ke.1, b).

Definition key_lt (a b : string * bytes) : Prop := a.1 ≺ b.1.

Lemma dump_strict (n : Node) ns : StronglySorted (fun a b : string * KvEntry => a.1 ≺ b.1) (kv_dump n ns).
Proof.
  unfold kv_dump. destruct (kv (inner n) !! ns) as [space|]; [apply sorted_entries_strict|constructor].
Qed.

Lemma omap_strict {A B} (R : A -> A -> Prop) (Q : B -> B -> Prop) (f : A -> option B) l :
  (forall a b x y, R a b -> f a = Some x -> f b = Some y -> Q x y) -> StronglySorted R l -> StronglySorted Q (omap f l).
Proof.
  intros HQ. induction 1 as [|a l Hl IH Hf]; [constructor|]. cbn. destruct (f a) as [x|] eqn:E; [|done].
  constructor; [done|]. apply Forall_forall. intros y (b & Hb & Hy)%list_elem_of_omap.
  rewrite Forall_forall in Hf. by apply (HQ a b); [apply Hf|..].
Qed.

Definition same_values (n n' : Node) : Prop :=
  forall key, stored_at n key ≫= value = stored_at n' key ≫= value.

Lemma visible_entries_same (n n' : Node) : same_values n n' ->
  omap visible_entry (kv_dump n RESOURCE_NAMESPACE) = omap visible_entry (kv_dump n' RESOURCE_NAMESPACE).
Proof.
  intros Hs. assert (forall m : Node, StronglySorted key_lt (omap visible_entry (kv_dump m RESOURCE_NAMESPACE))) as Hso.
  { intros m. eapply omap_strict, dump_strict. intros a b x y Hab (? & _ & [= <-])%bind_Some (? & _ & [= <-])%bind_Some. exact Hab. }
  apply (StronglySorted_unique_elems key_lt); [|apply Hso..|].
  - intros x y Hxy Hyx. exact (lt_of_irrefl x.1 (lt_of_trans x.1 y.1 x.1 Hxy Hyx)).
  - assert (forall (m : Node) key b, (key, b) ∈ omap visible_entry (kv_dump m RESOURCE_NAMESPACE) <->
      stored_at m key ≫= value = Some b) as He.
    { intros m key b. rewrite list_elem_of_omap. split.
      - intros ([k e] & Hin%kv_dump_elem & (b' & Hb & [= -> ->])%bind_Some). apply bind_Some. by exists e.
      - intros (e & He & Hb)%bind_Some. exists (key, e). split; [by apply kv_dump_elem|]. unfold visible_entry. simpl. by rewrite Hb. }
    intros [key b]. by rewrite !He, (Hs key).
Qed.

(** One visible entry, as the scan sees it. *)
Definition decode_entry (op : SignerId) (prefix : string) (kb : string * bytes) : option ResourceView :=
  candidate op prefix (fun _ => 0) (kb.1, mkKvEntry (mkHlc 0 0) (mkPublicId []) (Some kb.2) None).

Lemma candidate_decode op prefix now_at ke :
  Kv.expires_at_ms ke.2 = None -> candidate op prefix now_at ke = visible_entry ke ≫= decode_entry op prefix.
Proof.
  intros Hx. unfold decode_entry, candidate, visible_entry. destruct ke as [key e]; cbn [fst snd] in *.
  rewrite visible_no_expiry by done. destruct (value e) as [b|]; cbn; [|by destruct (negb _)]. by destruct (negb _).
Qed.

Lemma found_decode (n : Node) op prefix now_at : no_expiry n ->
  omap (candidate op prefix now_at) (kv_dump n RESOURCE_NAMESPACE) =
  omap (decode_entry op prefix) (omap visible_entry (kv_dump n RESOURCE_NAMESPACE)).
Proof.
  intros Hx. assert (Forall (fun ke => Kv.expires_at_ms ke.2 = None) (kv_dump n RESOURCE_NAMESPACE)) as Hf.
  { apply Forall_forall. intros [k e] He%kv_dump_elem. by eapply Hx. }
  induction Hf as [|ke l Hke Hl IH]; [done|]. cbn. rewrite candidate_decode by done.
  destruct (visible_entry ke) as [kb|]; [|exact IH]. cbn in *. by rewrite IH.
Qed.

(** The verified set depends on the visible entries only. *)
Lemma verified_set_same (n n' : Node) now_at now_at' :
  no_expiry n -> no_expiry n' -> cfg n' = cfg n -> same_values n n' -> verified_set n now_at = verified_set n' now_at'.
Proof.
  intros Hx Hx' Hc Hs.
  assert (forall kind name, records n kind name now_at = records n' kind name now_at') as Hr.
  { intros kind name. unfold records. rewrite !found_decode by done. by rewrite (visible_entries_same n n' Hs), Hc. }
  unfold verified_set, hostname_claims, heads. by rewrite Hr.
Qed.

(** Resource entries are written and merged without expiry. *)
Definition resource_op_ok (op : NodeOp) : Prop :=
  match op with
  | OpPut ns _ _ exp _ _ | OpPutMeta ns _ _ exp _ _ _ => ns = RESOURCE_NAMESPACE -> exp = None
  | OpMerge ns items _ => ns = RESOURCE_NAMESPACE -> Forall (fun ke => Kv.expires_at_ms ke.2 = None) items
  | _ => True
  end.

(** What an operation does to the resource namespace: nothing visible, or a bump. *)
Definition resource_effect (n n' : Node) : Prop :=
  cfg n' = cfg n /\ no_expiry n' /\
  ((platform_resource_generation (inner n') = platform_resource_generation (inner n) /\ same_values n n') \/
   platform_resource_generation (inner n') = wadd 64 (platform_resource_generation (inner n)) 1).

Lemma resource_frame (n n' : Node) :
  no_expiry n -> cfg n' = cfg n -> platform_resource_generation (inner n') = platform_resource_generation (inner n) ->
  (forall key, stored_at n' key = stored_at n key) -> resource_effect n n'.
Proof.
  intros Hx Hc Hg Hs. split_and!; [done|intros key e; rewrite Hs; apply Hx|]. left. split; [done|].
  intros key. by rewrite Hs.
Qed.

(** What the resource namespace depends on. *)
Definition resource_view (n : Node) := (cfg n, kv (inner n), platform_resource_generation (inner n)).

Lemma view_frame (n n' : Node) : no_expiry n -> resource_view n' = resource_view n -> resource_effect n n'.
Proof. intros Hx [= Hc Hk Hg]. apply resource_frame; [done..|]. intros key. unfold stored_at. by rewrite Hk. Qed.

Lemma ingest_claim_view (n : Node) env now_ms : resource_view (Node.ingest_claim n env now_ms).1 = resource_view n.
Proof. unfold ingest_claim. destruct (Claim.ingest _ env) as [cs [[]|]]; try done. by destruct (open _ env). Qed.

Lemma put_entry_generation (n : Node) ns key v exp now_ms :
  platform_resource_generation (inner (kv_put_entry n ns key v exp now_ms)) =
  bump (platform_resource_generation (inner n)) ns.
Proof. reflexivity. Qed.

Lemma put_entry_effect (n : Node) ns key v exp now_ms :
  no_expiry n -> (ns = RESOURCE_NAMESPACE -> exp = None) -> resource_effect n (kv_put_entry n ns key v exp now_ms).
Proof.
  intros Hx Hexp. destruct (decide (ns = RESOURCE_NAMESPACE)) as [->|Hne].
  - split_and!; [done| |].
    + intros k e. unfold stored_at. rewrite kv_put_entry_stored. case_decide; [intros [= <-]; by apply Hexp|apply Hx].
    + right. reflexivity.
  - apply resource_frame; [done|done| |].
    + unfold kv_put_entry, bump. simpl. by rewrite bool_decide_false.
    + intros k. unfold stored_at. rewrite kv_put_entry_stored. by rewrite decide_False by naive_solver.
Qed.

Lemma metadata_not_resource ns : kv_metadata_namespace ns <> RESOURCE_NAMESPACE.
Proof. unfold kv_metadata_namespace, RESOURCE_NAMESPACE. intros H. discriminate H. Qed.

Lemma effect_then_frame (a b c : Node) :
  resource_effect a b -> cfg c = cfg b -> platform_resource_generation (inner c) = platform_resource_generation (inner b) ->
  (forall key, stored_at c key = stored_at b key) -> resource_effect a c.
Proof.
  intros (Hc & Hx & Hg) Hc' Hg' Hs. split_and!; [congruence|intros key e; rewrite Hs; apply Hx|].
  rewrite Hg'. destruct Hg as [[? Hv]|?]; [left|by right]. split; [done|]. intros key. by rewrite Hs.
Qed.

Lemma merge_items_effect items ns (n : Node) now_ms :
  no_expiry n -> (ns = RESOURCE_NAMESPACE -> Forall (fun ke => Kv.expires_at_ms ke.2 = None) items) ->
  let r := merge_items n ns items now_ms in
  cfg r.1 = cfg n /\ no_expiry r.1 /\ 0 <= r.2 /\
  platform_resource_generation (inner r.1) = platform_resource_generation (inner n) /\
  (ns <> RESOURCE_NAMESPACE \/ r.2 = 0 -> forall key, stored_at r.1 key = stored_at n key).
Proof.
  revert n now_ms. induction items as [|[key e] items IH]; intros n now_ms Hx Hexp; cbn [merge_items]; [done|].
  set (n1 := set_inner n _). cbv zeta.
  assert (forall n2 applied, cfg n2 = cfg n -> no_expiry n2 -> 0 <= applied ->
    platform_resource_generation (inner n2) = platform_resource_generation (inner n) ->
    (ns <> RESOURCE_NAMESPACE \/ applied = 0 -> forall key, stored_at n2 key = stored_at n key) ->
    let r := (let '(m, a) := merge_items n2 ns items (fun i => now_ms (S i)) in (m, a + applied)) in
    cfg r.1 = cfg n /\ no_expiry r.1 /\ 0 <= r.2 /\
    platform_resource_generation (inner r.1) = platform_resource_generation (inner n) /\
    (ns <> RESOURCE_NAMESPACE \/ r.2 = 0 -> forall key, stored_at r.1 key = stored_at n key)) as Hrest.
  { intros n2 applied Hc Hx2 Hpos Hg Hs.
    destruct (IH n2 (fun i => now_ms (S i)) Hx2) as (Hc' & Hx' & Hpos' & Hg' & Hs').
    { intros Hns. by apply Forall_cons in Hexp as [_ ?]. }
    destruct (merge_items n2 ns items _) as [m a]; simpl in *. split_and!; [congruence|done|lia|congruence|].
    intros Hor k. rewrite Hs', Hs by (destruct Hor; [by left|right; lia]). done. }
  destruct (merge_cases (namespace (kv (inner n1)) ns) key e) as [->|[-> _]].
  - rewrite bool_decide_true by done. apply (Hrest _ 1); try done.
    + intros k e'. unfold stored_at. simpl. rewrite entry_at_put. case_decide as Hk; [|apply Hx].
      intros [= <-]. destruct Hk as [Hns _]. specialize (Hexp Hns). by apply Forall_cons in Hexp as [? _].
    + intros [Hne|?] k; [|done]. unfold stored_at. simpl. rewrite entry_at_put. by rewrite decide_False by naive_solver.
  - rewrite bool_decide_false by done. apply (Hrest _ 0); try done.
    + intros k e'. unfold stored_at. simpl. rewrite entry_at_insert. case_decide as Hk; [|apply Hx].
      subst ns. rewrite entry_at_namespace. apply Hx.
    + intros _ k. unfold stored_at. simpl. rewrite entry_at_insert. case_decide as Hk; [|done]. subst ns. apply entry_at_namespace.
Qed.

Lemma two_puts_effect (n : Node) ns key v exp now1 key2 v2 exp2 now2 :
  no_expiry n -> (ns = RESOURCE_NAMESPACE -> exp = None) ->
  resource_effect n (kv_put_entry (kv_put_entry n ns key v exp now1) (kv_metadata_namespace ns) key2 v2 exp2 now2).
Proof.
  intros Hx Hexp. eapply effect_then_frame; [by apply put_entry_effect|done| |].
  - rewrite put_entry_generation. unfold bump. rewrite bool_decide_false; [done|apply metadata_not_resource].
  - intros k. unfold stored_at. rewrite kv_put_entry_stored.
    rewrite decide_False; [done|]. intros [H _]. by apply metadata_not_resource in H.
Qed.

Lemma merge_remote_effect (n : Node) ns items now_ms :
  no_expiry n -> (ns = RESOURCE_NAMESPACE -> Forall (fun ke => Kv.expires_at_ms ke.2 = None) items) ->
  resource_effect n (kv_merge_remote n ns items now_ms).1.
Proof.
  intros Hx Hexp. destruct (merge_items_effect items ns n now_ms Hx Hexp) as (Hc & Hx' & Hpos & Hg & Hs).
  unfold kv_merge_remote. destruct (merge_items n ns items now_ms) as [m applied]; cbn [fst snd] in *.
  destruct (Z.ltb_spec 0 applied) as [Happ|Happ].
  - destruct (decide (ns = RESOURCE_NAMESPACE)) as [->|Hne].
    + split_and!; [done|exact Hx'|]. right. simpl. rewrite <- Hg. reflexivity.
    + apply resource_frame; [done|done| |intros k; apply Hs; by left].
      simpl. unfold bump. by rewrite bool_decide_false.
  - apply resource_frame; [done..|]. apply Hs. right. lia.
Qed.

Lemma gc_effect (n : Node) now_ms : no_expiry n -> resource_effect n (node_gc n now_ms).
Proof.
  intros Hx.
  assert (forall key, stored_at (node_gc n now_ms) key = match stored_at n key with
    | Some e => if Kv.gc_keep now_ms HORIZON_MS e then Some e else None | None => None end) as Hs.
  { intros key. unfold stored_at. simpl. apply entry_at_gc. }
  split_and!; [done| |left; split; [done|]].
  - intros key e. rewrite Hs. destruct (stored_at n key) as [e'|] eqn:E; [|done].
    destruct (Kv.gc_keep _ _ _); [|done]. intros [= <-]. by eapply Hx.
  - intros key. rewrite Hs. destruct (stored_at n key) as [e|] eqn:E; [|done].
    destruct (Kv.gc_keep now_ms HORIZON_MS e) eqn:Ek; [done|]. simpl. unfold Kv.gc_keep, Kv.dead_since in Ek.
    specialize (Hx key e E). rewrite Hx in Ek. by destruct (value e).
Qed.

Lemma node_step_effect (n : Node) op : no_expiry n -> resource_op_ok op -> resource_effect n (node_step n op).
Proof.
  intros Hx Hop. destruct op; cbn [node_step resource_op_ok] in *; try (by apply view_frame).
  - apply view_frame; [done|]. unfold ingest_manifest. destruct (Manifest.ingest _ env) as [ms [[]|]]; try done.
    by destruct (open _ env).
  - apply view_frame; [done|]. apply ingest_claim_view.
  - apply view_frame; [done|]. unfold claim_try. destruct (negb _); [done|]. destruct (hlc_now n now2) as [n1 h] eqn:E.
    pose proof (ingest_claim_view n1 (make_claim (keypair n1) t h ttl_ms) now3) as Hv.
    destruct (ingest_claim _ _ _) as [n2 c]; cbn [fst] in *. etrans; [exact Hv|]. unfold hlc_now in E.
    by destruct (Hlc.now _ _); injection E as <- _.
  - apply view_frame; [done|]. unfold claim_renew. destruct (mine _ t (id n)) as [r|]; [|done].
    destruct (hlc_now n now1) as [n1 h] eqn:E. pose proof (ingest_claim_view n1 (renew (keypair n1) (claim r) h release) now2) as Hv.
    destruct (ingest_claim _ _ _) as [n2 c]; cbn [fst] in *. etrans; [exact Hv|]. unfold hlc_now in E.
    by destruct (Hlc.now _ _); injection E as <- _.
  - unfold kv_put. destruct (starts_with _ _); [by apply put_entry_effect|by apply two_puts_effect].
  - by apply two_puts_effect.
  - by apply merge_remote_effect.
  - apply view_frame; [done|]. unfold admit_public_request. destruct policy; [|done].
    destruct (quota_request_window (inner n)). by destruct (_ <=? _)%Z.
  - apply view_frame; [done|]. unfold set_worker_ports. by case_bool_decide.
  - apply view_frame; [done|]. unfold set_runtime_status.
    destruct (runtime_status (inner n) !! w) as [prior|]; [by destruct (same_status prior v state detail)|done].
  - apply view_frame; [done|]. unfold append_runtime_log. by destruct (clip_message m).
  - by apply gc_effect.
Qed.

Lemma ingest_effect (n : Node) env now1 now2 now3 : no_expiry n -> resource_effect n (Resource.ingest n env now1 now2 now3).1.
Proof.
  intros Hx. unfold Resource.ingest. destruct (open _ env) as [r|]; [|by apply view_frame].
  destruct (validate r); [|by apply view_frame]. cbn [fst].
  set (m := match kv_get _ _ _ _ with Some _ => _ | None => _ end).
  assert (resource_effect n m) as Hm.
  { subst m. destruct (kv_get _ _ _ _); [by apply view_frame|]. unfold kv_put.
    replace (starts_with "__rf" RESOURCE_NAMESPACE) with true by reflexivity. by apply put_entry_effect. }
  destruct (announced (r_kind r)); [|exact Hm]. eapply effect_then_frame; [exact Hm|done..].
Qed.

(** The node is a source: fewer than [2^64] changes are made to the namespace. *)
#[export] Instance node_source : Source Node := {|
  generation_of n := platform_resource_generation (inner n);
  published n := verified_set n (fun _ => 0);
  scans n s := exists now_at, s = verified_set n now_at;
  changes n n' := platform_resource_generation (inner n) < 2 ^ 64 - 1 /\
    ((exists op, resource_op_ok op /\ n' = node_step n op) \/
     (exists env now1 now2 now3, n' = (Resource.ingest n env now1 now2 now3).1));
  good n := no_expiry n /\ 0 <= platform_resource_generation (inner n)
|}.

Lemma change_effect (a b : Node) : good a -> changes a b -> resource_effect a b.
Proof.
  intros [Hx _] [_ [(op & Hop & ->)|(env & t1 & t2 & t3 & ->)]]; [by apply node_step_effect|by apply ingest_effect].
Qed.

#[export] Instance node_source_ok : SourceOk Node.
Proof.
  assert (forall a b : Node, good a -> changes a b ->
    platform_resource_generation (inner b) = platform_resource_generation (inner a) /\ same_values a b \/
    platform_resource_generation (inner b) = platform_resource_generation (inner a) + 1) as Hstep.
  { intros a b Hg Hc. destruct (change_effect a b Hg Hc) as (_ & _ & [?|Hb]); [by left|right].
    destruct Hg as [_ H0], Hc as [Hlt _]. rewrite Hb. unfold wadd, wrap. apply Z.mod_small. lia. }
  split.
  - intros a b Hg Hc. destruct (change_effect a b Hg Hc) as (_ & Hx & _). split; [done|].
    pose proof (Hstep a b Hg Hc) as Hs. destruct Hg as [_ H0]. destruct Hs as [[-> _]| ->]; lia.
  - intros a b Hg Hc. destruct (change_effect a b Hg Hc) as (Hcfg & Hx & _).
    destruct (Hstep a b Hg Hc) as [[Hgen Hv]|?]; [left|by right]. split; [done|].
    symmetry. exact (verified_set_same a b (fun _ => 0) (fun _ => 0) (proj1 Hg) Hx Hcfg Hv).
  - intros a s [Hx _] [now_at ->]. exact (verified_set_same a a now_at (fun _ => 0) Hx Hx eq_refl (fun _ => eq_refl)).
  - intros a _. by exists (fun _ => 0).
Qed.

Lemma verified_empty (n : Node) now_at : (forall key, stored_at n key = None) -> verified_set n now_at = ∅.
Proof.
  intros Hn. assert (kv_dump n RESOURCE_NAMESPACE = []) as Hd.
  { destruct (kv_dump n RESOURCE_NAMESPACE) as [|[k e] l] eqn:E; [done|]. exfalso.
    assert ((k, e) ∈ kv_dump n RESOURCE_NAMESPACE) as Hin by (rewrite E; left). apply kv_dump_elem in Hin.
    change (stored_at n k = Some e) in Hin. by rewrite Hn in Hin. }
  unfold verified_set, hostname_claims, heads, records. by rewrite Hd.
Qed.
End node_source.

(** ** Routes and effective hostnames *)

Lemma app_cancel_r (a b t : string) : (a +:+ t = b +:+ t)%string -> a = b.
Proof.
  intros H. apply as_bytes_inj. apply (f_equal as_bytes) in H. rewrite !as_bytes_app in H. by apply app_inv_tail in H.
Qed.

Section routes.
Context {redb : Redb} {crypto : Crypto}.

Lemma default_inj (n : Node) w w' h :
  default_worker_hostname n w = Some h -> default_worker_hostname n w' = Some h -> w = w'.
Proof.
  unfold default_worker_hostname. destruct (default_domain (cfg n)) as [d|]; [|done]. intros [= <-] [= H].
  symmetry. by apply app_cancel_r in H.
Qed.

Lemma default_routes (n : Node) ws (routes : gmap string string) h w :
  foldl (fun routes w => match default_worker_hostname n w with Some h => <[h := w]> routes | None => routes end)
    routes ws !! h = Some w <->
  (w ∈ ws /\ default_worker_hostname n w = Some h) \/
  (routes !! h = Some w /\ forall w', w' ∈ ws -> default_worker_hostname n w' <> Some h).
Proof.
  revert routes. induction ws as [|x ws IH]; intros routes; cbn [foldl]; [set_solver|]. rewrite IH. clear IH.
  destruct (default_worker_hostname n x) as [hx|] eqn:Ex; [|set_solver].
  destruct (decide (hx = h)) as [->|Hne].
  - rewrite lookup_insert_eq. split.
    + intros [[? ?]|[[= <-] _]]; left; (split; [set_solver|done]).
    + intros [[[->|?]%elem_of_cons Hw]|[_ Hno]].
      * destruct (decide (x ∈ ws)) as [?|Hx]; [by left|right]. split; [done|]. intros w' Hw' E.
        by rewrite (default_inj n w' x h E Ex) in Hw'.
      * by left.
      * destruct (Hno x); [set_solver|done].
  - rewrite lookup_insert_ne by done. split.
    + intros [[? ?]|[? Hno]]; [left; set_solver|right]. split; [done|]. intros w' [->|?]%elem_of_cons; [congruence|by apply Hno].
    + intros [[[->|?]%elem_of_cons ?]|[? Hno]]; [congruence|by left|right]. set_solver.
Qed.
End routes.

Lemma effective_from verified declared acc :
  NoDup acc ->
  NoDup (foldl (add_verified verified) acc declared) /\
  forall h, h ∈ foldl (add_verified verified) acc declared <-> h ∈ acc \/ (h ∈ declared /\ h ∈ verified).
Proof.
  revert acc. induction declared as [|x declared IH]; intros acc Hn; cbn [foldl]; [set_solver|].
  unfold add_verified at 2 4. case_bool_decide as Hv; case_bool_decide as Ha; simpl.
  - destruct (IH acc Hn) as [H1 H2]. split; [done|]. intros h. rewrite H2. set_solver.
  - destruct (IH (acc ++ [x])) as [H1 H2]; [apply NoDup_app; split_and!; [done|set_solver|apply NoDup_singleton]|].
    split; [done|]. intros h. rewrite H2. set_solver.
  - destruct (IH acc Hn) as [H1 H2]. split; [done|]. intros h. rewrite H2. set_solver.
  - destruct (IH acc Hn) as [H1 H2]. split; [done|]. intros h. rewrite H2. set_solver.
Qed.

(** ** Properties *)

(** C34: the cached set is never stale. Whatever calls of
    [verified_custom_hostnames] run at once and whatever the node does meanwhile —
    local writes, merges, ingested resources, collections —
    a call returns the set of verified hostnames of some moment between its
    beginning and its end; and a call that nothing interferes with returns the current one. The
    node starts with the cache of a new process, resource entries carry no
    expiry, and there are fewer than [2^64] changes. *)
Theorem verified_hostnames_are_current {redb : Redb} {crypto : Crypto} {hex : Hex} {json : Json} {claim_json : ClaimJson}
    {pc_env : Postcard Envelope} {pc_manifest : Postcard WorkerManifest} {pc_claim : Postcard Claim}
    {pc_kv : Postcard KvEntry} {pc_audit : Postcard DataMutationAudit} {pc_resource : Postcard ResourceRecord}
    (a : Node) (x : Sys (St := Node)) (i k : nat)
    (Hx : no_expiry a) (Hgen : 0 <= platform_resource_generation (inner a))
    (Hfresh : platform_resource_generation (inner a) = 0 -> forall key, stored_at a key = None)
    (Hreach : reachable (starts_in a) x) :
  (forall s, calls x !! i = Some (k, Done s) ->
     exists j m, (k <= j)%nat /\ past x !! j = Some m /\ s = verified_set m (fun _ => 0)) /\
  (calls x !! i = Some (k, Begin) ->
     exists y, reachable x y /\ cur y = cur x /\ calls y !! i = Some (k, Done (verified_set (cur x) (fun _ => 0)))).
Proof.
  assert (sys_ok x) as Hok.
  { eapply reachable_ok; [|exact Hreach]. apply starts_ok; [by split|done|]. intros H0.
    exact (verified_empty a (fun _ => 0) (Hfresh H0)). }
  split.
  - intros s Hi. destruct (ok_calls x Hok i k _ Hi) as [_ (j & m & Hj & Hm & Hs)]. exists j, m.
    split; [exact Hj|]. split; [exact Hm|exact Hs].
  - intros Hi. exact (solo_call x i k Hok Hi).
Qed.

(** Only owned hostnames are routed. A hostname is routed to a worker exactly
    when it is the default hostname of that live worker, whatever other
    manifests list, or it is nobody's default, its ownership is verified, and the
    manifests route it there. *)
Theorem routes_respect_ownership {redb : Redb} {crypto : Crypto} (n : Node) (verified : gset string) (h w : string) :
  let live := (fun r => name (manifest r)) <$> Manifest.live (manifests (inner n)) in
  node_routes n verified !! h = Some w <->
  (w ∈ live /\ default_worker_hostname n w = Some h) \/
  ((forall w', w' ∈ live -> default_worker_hostname n w' <> Some h) /\
   h ∈ verified /\ Manifest.routes (manifests (inner n)) !! h = Some w).
Proof.
  intros live. unfold node_routes. rewrite default_routes. fold live. rewrite map_lookup_filter_Some. simpl. tauto.
Qed.

(** Effective hostnames are the default and the verified declared ones, each
    once, for workers as for buckets, pipelines, flows and workflows. *)
Theorem effective_hostnames_spec (default : option string) (declared : list string) (verified : gset string) :
  NoDup (effective default declared verified) /\
  (forall h, h ∈ effective default declared verified <-> default = Some h \/ (h ∈ declared /\ h ∈ verified)) /\
  (forall h, default = Some h -> effective default declared verified !! 0%nat = Some h).
Proof.
  unfold effective. set (acc := match default with Some h => [h] | None => [] end).
  destruct (effective_from verified declared acc) as [H1 H2].
  { subst acc. destruct default; [apply NoDup_singleton|constructor]. }
  split_and!; [done| |].
  - intros h. rewrite H2. subst acc. destruct default; set_solver.
  - intros h ->. subst acc. clear H1 H2. generalize (@nil string). induction declared as [|x declared IH]; intros l; [done|].
    cbn [foldl]. unfold add_verified at 2. destruct (_ && _); [|apply IH]. apply (IH (l ++ [x])).
Qed.

Section claims.
Context {redb : Redb} {crypto : Crypto} {hex : Hex} {json : Json} {claim_json : ClaimJson}.
Context {pc_env : Postcard Envelope} {pc_resource : Postcard ResourceRecord}.

Lemma claim_spec_Ok r s : claim_spec r = Ok s ->
  r_kind r = HOSTNAME_CLAIM_KIND /\ r_deleted r = false /\ claim_from_str (spec_json r) = Some s /\
  validate_claim s = Ok tt /\ r_name r = claim_name (cs_hostname s).
Proof.
  unfold claim_spec. case_bool_decide as Hk; simpl; [|done]. destruct (r_deleted r); [done|].
  destruct (claim_from_str _) as [s'|]; [|done]. destruct (validate_claim s') as [[]|] eqn:Hv; [|done].
  case_bool_decide; simpl; [|done]. by intros [= <-].
Qed.

Lemma verified_elem (n : Node) now_at h :
  h ∈ verified_set n now_at <->
  exists v s t, v ∈ heads n (Some HOSTNAME_CLAIM_KIND) now_at /\ claim_spec (resource v) = Ok s /\
    cs_hostname s = h /\ verified_at_ms s = Some t.
Proof.
  unfold verified_set, hostname_claims. rewrite elem_of_list_to_set, list_elem_of_omap. split.
  - intros ([v s] & Hin & Hs). apply list_elem_of_omap in Hin as (v' & [_ Hv]%list_elem_of_filter & Hc).
    destruct (claim_spec (resource v')) as [s'|] eqn:E; [|done]. injection Hc as -> ->. simpl in Hs.
    destruct (verified_at_ms s) as [t|] eqn:Et; [|done]. injection Hs as <-. by exists v, s, t.
  - intros (v & s & t & Hv & Hc & <- & Ht). exists (v, s). simpl. rewrite Ht. split; [|done].
    apply list_elem_of_omap. exists v. rewrite Hc. split; [|done]. apply list_elem_of_filter. split; [|done].
    by apply claim_spec_Ok in Hc as (_ & ? & _).
Qed.
End claims.

(** A hostname is verified exactly by its own claim: the head of the resource
    named by its digest is a live claim of that very hostname with a time of verification.
    No other resource, no older version and no deleted claim opens it. Stored
    records with one digest are one record. *)
Theorem verified_by_own_claim {redb : Redb} {crypto : Crypto} {hex : Hex} {json : Json} {claim_json : ClaimJson}
    {pc_env : Postcard Envelope} {pc_resource : Postcard ResourceRecord} (n : Node) (now_at : string -> Z) (h : string)
    (Hd : forall u v, filed n now_at u -> filed n now_at v -> view_digest u = view_digest v -> u = v) :
  h ∈ verified_set n now_at <->
  exists v s t, head n HOSTNAME_CLAIM_KIND (claim_name h) now_at = Some v /\ claim_spec (resource v) = Ok s /\
    cs_hostname s = h /\ verified_at_ms s = Some t.
Proof.
  rewrite verified_elem.
  assert (forall v s, claim_spec (resource v) = Ok s -> cs_hostname s = h ->
    (v ∈ heads n (Some HOSTNAME_CLAIM_KIND) now_at <-> head n HOSTNAME_CLAIM_KIND (claim_name h) now_at = Some v)) as Hv.
  { intros v s Hs <-. apply claim_spec_Ok in Hs as (Hk & _ & _ & _ & Hn).
    rewrite (proj2 (head_heads n now_at HOSTNAME_CLAIM_KIND (claim_name (cs_hostname s)) v Hd)).
    unfold group_of. rewrite Hk, Hn. tauto. }
  split; intros (v & s & t & Hin & Hs & Hh & Ht); exists v, s, t; (split; [by apply (Hv v s Hs Hh)|done]).
Qed.

(** A prepared claim reads back. The record [prepare_claim_after] makes for a
    hostname is a valid claim of the normalised hostname, with the verification time
    given; the challenge and the creation time of an existing claim are
    kept, so a verified successor proves the original challenge. *)
Theorem prepared_claim_reads_back {crypto : Crypto} {hex : Hex} {json : Json} {claim_json : ClaimJson}
    {claim_json_ok : ClaimJsonOk}
    (hostname : string) (existing : option HostnameClaimSpec) (verified : option Z) (head : option ResourceView)
    (generated : string) (now_ms : Z) (r : ResourceRecord)
    (Hprep : prepare_claim_after hostname existing verified false head generated now_ms = Ok r) :
  exists s, claim_spec r = Ok s /\ cs_hostname s = normal hostname /\ verified_at_ms s = verified /\
    challenge s = match existing with Some e => challenge e | None => generated end /\
    created_at_ms s = match existing with Some e => created_at_ms e | None => now_ms end.
Proof.
  unfold prepare_claim_after in Hprep. case_bool_decide as Hh; simpl in Hprep; [|done].
  set (s := mkClaimSpec _ _ _ _) in Hprep. exists s. destruct (validate_claim s) as [[]|] eqn:Hv; [|done].
  unfold lift in Hprep. destruct (prepare_after _ _ _ _ _) as [r'|] eqn:Hp; [|done]. injection Hprep as ->.
  assert (spec_json r = json_to_string (claim_to_value s)) as Hj.
  { unfold prepare_after in Hp. destruct head as [hd|]; simpl in Hp.
    - destruct (_ || _); [done|]. destruct (decode_digest _); [|done]. destruct (validate _); [|done]. by injection Hp as <-.
    - destruct (validate _); [|done]. by injection Hp as <-. }
  apply prepare_after_fields in Hp as (_ & Hg & Hdel & _). injection Hg as Hk Hn. split_and!.
  - unfold claim_spec. rewrite Hk, Hdel, Hj, claim_json_roundtrip, bool_decide_true by done. simpl. rewrite Hv. simpl.
    rewrite bool_decide_true; [done|]. rewrite Hn. f_equal. symmetry. exact Hh.
  - exact Hh.
  - done.
  - subst s. by destruct existing.
  - subst s. by destruct existing.
Qed.

(** Claims written in binary digits, for witnesses. *)
Module SampleClaim.
#[export] Instance spec_countable : Countable HostnameClaimSpec.
Proof.
  refine (inj_countable' (fun s => (cs_hostname s, challenge s, created_at_ms s, verified_at_ms s))
    (fun '(h, c, t, v) => mkClaimSpec h c t v) _).
  by intros [].
Defined.

Fixpoint bits (p : positive) : string :=
  match p with
  | xH => EmptyString
  | xO p => String "0" (bits p)
  | xI p => String "1" (bits p)
  end.

Fixpoint unbits (s : string) : positive :=
  match s with
  | EmptyString => xH
  | String c s => if bool_decide (c = "0"%char) then xO (unbits s) else xI (unbits s)
  end.

Lemma unbits_bits p : unbits (bits p) = p.
Proof. induction p as [p IH|p IH|]; simpl; [by rewrite IH|by rewrite IH|done]. Qed.

#[export] Instance json : Json := {|
  Value := option HostnameClaimSpec;
  Null := None;
  is_null := fun v => match v with None => true | Some _ => false end;
  is_object := fun v => match v with None => false | Some _ => true end;
  is_empty_object := fun _ => false;
  json_from_str := fun s => decode (unbits s);
  json_to_string := fun v => bits (encode v)
|}.

#[export] Instance claim_json : ClaimJson := {|
  claim_to_value := fun s => Some s;
  claim_from_str := fun s => v ← decode (A := option HostnameClaimSpec) (unbits s); v
|}.

#[export] Instance claim_json_ok : ClaimJsonOk.
Proof. intros s. cbn. by rewrite unbits_bits, decode_encode. Qed.

Definition spec (v : option Z) : HostnameClaimSpec :=
  mkClaimSpec "api.example.com" "abcdefghijklmnopqrstuvwx" 5 v.
Definition record : ResourceRecord :=
  mkResource 1 HOSTNAME_CLAIM_KIND (claim_name (crypto := SampleHash.crypto) (hex := Sample.hex) "api.example.com") 1 None false
    (json_to_string (claim_to_value (spec (Some 9)))).
End SampleClaim.

Lemma prepared_claim_reads_back_witness :
  exists s, claim_spec (crypto := SampleHash.crypto) (hex := Sample.hex) (claim_json := SampleClaim.claim_json)
      SampleClaim.record = Ok s /\
    cs_hostname s = "api.example.com" /\ verified_at_ms s = Some 9.
Proof.
  assert (prepare_claim_after (crypto := SampleHash.crypto) (hex := Sample.hex) (claim_json := SampleClaim.claim_json)
    "API.Example.com." (Some (SampleClaim.spec None)) (Some 9) false None "" 0 = Ok SampleClaim.record) as H
    by (vm_compute; reflexivity).
  destruct (prepared_claim_reads_back (claim_json_ok := SampleClaim.claim_json_ok) "API.Example.com."
    (Some (SampleClaim.spec None)) (Some 9) None "" 0 SampleClaim.record H) as (s & Hs & Hh & Hv & _).
  exists s. split; [exact Hs|]. split; [|exact Hv]. rewrite Hh. reflexivity.
Defined.

(** A node that ingested the verified claim, for witnesses. *)
Module SampleVerified.
Import SampleHash SampleClaim.
#[export] Existing Instance SampleClaim.json.

Definition env : Envelope := seal_any record operator.
Definition claimed : Node := (Resource.ingest (json := SampleClaim.json) start env 1 2 3).1.
Definition view : ResourceView := mkView record (hex_encode (digest env)).

Lemma claimed_filed now_at v : filed (json := SampleClaim.json) claimed now_at v <-> v = view.
Proof.
  assert (open (Some (cfg_operator (cfg start))) env = Ok record) as Ho by (apply open_seal; by intros w [= <-]).
  assert (validate (json := SampleClaim.json) record = Ok tt) as Hv by (vm_compute; reflexivity).
  assert (no_expiry start) as Hx by (intros k e; by rewrite start_empty).
  unfold claimed.
  destruct (ingest_filed (json := SampleClaim.json) start env record 1 2 3 now_at Ho Hv Hx (start_slot record env)) as [_ ->].
  split; [|intros H; right; exact H]. intros [(key & e & He & _)|H]; [|exact H].
  rewrite start_empty in He. discriminate He.
Qed.

Lemma claimed_uniq now_at u v :
  filed (json := SampleClaim.json) claimed now_at u -> filed (json := SampleClaim.json) claimed now_at v ->
  view_digest u = view_digest v -> u = v.
Proof. intros Hu Hv _. apply claimed_filed in Hu. apply claimed_filed in Hv. by rewrite Hu, Hv. Qed.

Lemma claimed_head :
  head (json := SampleClaim.json) claimed HOSTNAME_CLAIM_KIND (claim_name "api.example.com") (fun _ => 7) = Some view.
Proof. vm_compute. reflexivity. Qed.

Lemma record_claim : claim_spec record = Ok (spec (Some 9)).
Proof. vm_compute. reflexivity. Qed.

(** A call begins, then the claim is ingested. *)
Definition called : Sys (St := Node) := set_call (starts_in start) 0 0 Begin.
Definition overtaken : Sys (St := Node) := mkSys claimed [start; claimed] (0, ∅) (calls called).
End SampleVerified.

Import SampleHash SampleClaim.

Lemma verified_by_own_claim_witness :
  "api.example.com" ∈ verified_set (json := SampleClaim.json) SampleVerified.claimed (fun _ => 7).
Proof.
  refine (proj2 (verified_by_own_claim (json := SampleClaim.json) SampleVerified.claimed (fun _ => 7) "api.example.com"
    (SampleVerified.claimed_uniq (fun _ => 7))) _).
  exists SampleVerified.view, (spec (Some 9)), 9.
  split; [exact SampleVerified.claimed_head|]. split; [exact SampleVerified.record_claim|]. split; reflexivity.
Defined.

Lemma verified_hostnames_are_current_witness :
  exists y, reachable (source := node_source (json := SampleClaim.json) (pc_manifest := SampleManifest.codec)
      (pc_claim := SampleCodec.codec Claim)) SampleVerified.overtaken y /\
    cur y = cur SampleVerified.overtaken /\
    calls y !! 0%nat = Some (0%nat, Done (verified_set (json := SampleClaim.json) (cur SampleVerified.overtaken) (fun _ => 0))).
Proof.
  assert (reachable (source := node_source (json := SampleClaim.json) (pc_manifest := SampleManifest.codec)
    (pc_claim := SampleCodec.codec Claim)) (starts_in start) SampleVerified.overtaken) as Hr.
  { eapply reach_step; [eapply reach_step; [apply reach_here|]|].
    - apply (begin_call (starts_in start) 0). reflexivity.
    - apply (change SampleVerified.called SampleVerified.claimed). split; [reflexivity|]. right.
      exists SampleVerified.env, 1, 2, 3. reflexivity. }
  assert (no_expiry start) as Hx by (intros k e He; rewrite start_empty in He; discriminate He).
  assert (0 <= platform_resource_generation (inner start)) as H0 by (simpl; lia).
  refine (proj2 (verified_hostnames_are_current (json := SampleClaim.json) (pc_manifest := SampleManifest.codec)
    (pc_claim := SampleCodec.codec Claim) start SampleVerified.overtaken 0 0 Hx H0 (fun _ => start_empty) Hr) _).
  reflexivity.
Defined.
