(* ===== verification/Queue.v ===== *)
(** * Queue: message queues on replicated databases (crates/rf/src/queue.rs)

    Each queue is one replicated SQLite database with messages, dead letters and
    counters.  [Stmt] has one constructor for each statement the module issues and [exec]
    its meaning; statements are atomic and those of different nodes interleave. The
    handlers ([enqueue], [receive_one], [claim_batch], [settle_batch],
    [move_to_dead_letter], [redrive_dead_letter], ...) are sequences of
    statements.  Random identifiers and clock readings are arguments, the codecs of
    [serde_json] and [base64] parameters; the HTTP delivery is an argument of
    [settle_batch]. *)

From Stdlib Require Import ZArith Lia Ascii.
From stdpp Require Import prelude gmap sorting strings list.
From S2P Require Import Prelude Text Hlc Identity Envelope Kv Claim Manifest Quorum DataAudit Observability Store Node NodeFacts Resource.
Open Scope Z_scope.

Definition QUEUE_KIND : string := "queue".
Definition MAX_MESSAGE_BYTES : Z := 128 * 1024.
Definition MAX_BATCH_MESSAGES : Z := 100.
Definition MAX_DELAY_SECONDS : Z := 12 * 60 * 60.
Definition u16_max : Z := umax 16.

Record QueueSpec := mkQueueSpec {
  description : string;
  consumer_worker : option string;
  batch_size : Z;
  max_wait_ms : Z;
  max_retries : Z;
  visibility_timeout_ms : Z;
  retention_seconds : Z;
  dead_letter_queue : option string;
  suspended : bool
}.

(** [QueueSpec::default]. *)
Definition default_spec : QueueSpec :=
  mkQueueSpec EmptyString None 10 5000 3 120000 (7 * 24 * 60 * 60) None false.

Inductive QueueError :=
| DescriptionTooLong
| BadConsumer
| BadBatchSize
| BadMaxWait
| TooManyRetries
| BadVisibility
| BadRetention
| BadDeadLetterName
| SelfDeadLetter
| NotAQueue
| SpecUnreadable
| QueueResource (e : ResourceError)
| QueueMissing
| BadBatch
| DelayTooLong
| BodyAndBase64
| TextBodyNotString
| BytesBodyNotNull
| Base64Missing
| Base64Invalid
| BadContentType
| MessageTooLarge
| QueueSuspended
| LeaseMoved
| BodyUnreadable
| SqlConstraint.

Definition between (lo hi x : Z) : bool := ((lo <=? x) && (x <=? hi))%Z.

(** [QueueSpec::validate]. *)
Definition validate_queue (s : QueueSpec) (queue_name : option string) : result unit QueueError :=
  if (2000 <? slen (description s))%Z then Err DescriptionTooLong
  else if match consumer_worker s with Some w => negb (valid_name w) | None => false end then Err BadConsumer
  else if negb (between 1 MAX_BATCH_MESSAGES (batch_size s)) then Err BadBatchSize
  else if negb (between 100 60000 (max_wait_ms s)) then Err BadMaxWait
  else if (100 <? max_retries s)%Z then Err TooManyRetries
  else if negb (between 1000 (12 * 60 * 60 * 1000) (visibility_timeout_ms s)) then Err BadVisibility
  else if negb (between 60 (14 * 24 * 60 * 60) (retention_seconds s)) then Err BadRetention
  else
    match dead_letter_queue s with
    | None => Ok tt
    | Some d =>
        if negb (valid_name d) then Err BadDeadLetterName
        else if bool_decide (queue_name = Some d) then Err SelfDeadLetter
        else Ok tt
    end.

(** ** The tables *)

(** A row of [queue_messages], by its primary key. *)
Record Row := mkRow {
  body_json : string;
  content_type : string;
  body_base64 : option string;
  produced_at_ms : Z;
  available_at_ms : Z;
  attempts : Z;
  lease_id : option string;
  lease_until_ms : option Z;
  last_error : option string
}.

(** A row of [queue_dead_letters]. *)
Record Letter := mkLetter {
  l_body_json : string;
  l_content_type : string;
  l_body_base64 : option string;
  l_produced_at_ms : Z;
  dead_letter_at_ms : Z;
  l_attempts : Z;
  l_last_error : option string
}.

Record QueueDb := mkQueueDb {
  messages : gmap string Row;
  letters : gmap string Letter;
  total_produced : Z;
  total_consumed : Z
}.

Definition empty_queue : QueueDb := mkQueueDb ∅ ∅ 0 0.

#[export] Instance Row_eq_dec : EqDecision Row.
Proof. solve_decision. Defined.

#[export] Instance Letter_eq_dec : EqDecision Letter.
Proof. solve_decision. Defined.

#[export] Instance QueueDb_eq_dec : EqDecision QueueDb.
Proof. solve_decision. Defined.

Definition set_messages (d : QueueDb) (m : gmap string Row) : QueueDb :=
  mkQueueDb m (letters d) (total_produced d) (total_consumed d).
Definition set_letters (d : QueueDb) (l : gmap string Letter) : QueueDb :=
  mkQueueDb (messages d) l (total_produced d) (total_consumed d).

(** The statements that write. *)
Inductive Stmt :=
| Insert (rows : list (string * Row))
| InsertOrIgnore (id : string) (row : Row)
| InsertOrReplace (id : string) (row : Row)
| ExpireMessages (before : Z)
| ExpireLetters (before : Z)
| Lease (lease : string) (until now : Z) (limit : nat)
| DeleteLeased (id lease : string)
| Release (id lease : string) (available : Z) (error : string)
| Bury (id lease : string) (at_ms : Z) (error : string)
| DeleteLetter (id : string)
| AddProduced (amount : Z)
| AddConsumed (amount : Z).

(** [available_at_ms <= now AND (lease_id IS NULL OR lease_until_ms <= now)], with
    the three-valued logic of NULL. *)
Definition lease_free (now : Z) (r : Row) : bool :=
  match lease_id r with
  | None => true
  | Some _ => match lease_until_ms r with Some u => (u <=? now)%Z | None => false end
  end.
Definition ready (now : Z) (r : Row) : bool := (available_at_ms r <=? now)%Z && lease_free now r.

(** [ORDER BY available_at_ms, id]. *)
Definition queue_key (ir : string * Row) : Z * string := (available_at_ms ir.2, ir.1).
Definition queue_le (a b : string * Row) : Prop := queue_key a ⪯ queue_key b.

#[export] Instance queue_le_dec : RelDecision queue_le.
Proof. intros a b. unfold queue_le. apply _. Defined.

Definition in_order (m : gmap string Row) : list (string * Row) := merge_sort queue_le (map_to_list m).

(** The rows the subselect of a lease picks. *)
Definition picked (now : Z) (limit : nat) (m : gmap string Row) : list string :=
  (take limit (filter (fun ir => ready now ir.2 = true) (in_order m))).*1.

Definition leased_by (lease : string) (r : Row) : bool := bool_decide (lease_id r = Some lease).

Definition with_lease (r : Row) (lease : string) (until : Z) : Row :=
  mkRow (body_json r) (content_type r) (body_base64 r) (produced_at_ms r) (available_at_ms r) (attempts r + 1)
    (Some lease) (Some until) (last_error r).
Definition released (r : Row) (available : Z) (error : string) : Row :=
  mkRow (body_json r) (content_type r) (body_base64 r) (produced_at_ms r) available (attempts r) None None (Some error).
Definition buried (r : Row) (at_ms : Z) (error : string) : Letter :=
  mkLetter (body_json r) (content_type r) (body_base64 r) (produced_at_ms r) at_ms (attempts r) (Some error).

(** Insertion of fresh keys; a key that exists fails the whole statement. *)
Fixpoint insert_rows (m : gmap string Row) (rows : list (string * Row)) : option (gmap string Row) :=
  match rows with
  | [] => Some m
  | (id, r) :: rows' =>
      match m !! id with
      | Some _ => None
      | None => insert_rows (<[id := r]> m) rows'
      end
  end.

(** One statement: the tables after it and the rows affected; [None] when a
    constraint fails. *)
Definition exec (d : QueueDb) (s : Stmt) : option (QueueDb * Z) :=
  match s with
  | Insert rows =>
      m ← insert_rows (messages d) rows; Some (set_messages d m, Z.of_nat (length rows))
  | InsertOrIgnore id row =>
      match messages d !! id with
      | Some _ => Some (d, 0)
      | None => Some (set_messages d (<[id := row]> (messages d)), 1)
      end
  | InsertOrReplace id row => Some (set_messages d (<[id := row]> (messages d)), 1)
  | ExpireMessages before =>
      let kept := filter (fun ir => before <= produced_at_ms ir.2) (messages d) in
      Some (set_messages d kept, Z.of_nat (size (messages d)) - Z.of_nat (size kept))
  | ExpireLetters before =>
      let kept := filter (fun ir => before <= dead_letter_at_ms ir.2) (letters d) in
      Some (set_letters d kept, Z.of_nat (size (letters d)) - Z.of_nat (size kept))
  | Lease lease until now limit =>
      let ids := picked now limit (messages d) in
      let hit ir := bool_decide (ir.1 ∈ ids) && lease_free now ir.2 in
      Some (set_messages d (map_imap (fun id r => Some (if hit (id, r) then with_lease r lease until else r)) (messages d)),
            Z.of_nat (size (filter (fun ir => hit ir = true) (messages d))))
  | DeleteLeased id lease =>
      match messages d !! id with
      | Some r => if leased_by lease r then Some (set_messages d (delete id (messages d)), 1) else Some (d, 0)
      | None => Some (d, 0)
      end
  | Release id lease available error =>
      match messages d !! id with
      | Some r =>
          if leased_by lease r then Some (set_messages d (<[id := released r available error]> (messages d)), 1)
          else Some (d, 0)
      | None => Some (d, 0)
      end
  | Bury id lease at_ms error =>
      match messages d !! id with
      | Some r =>
          if leased_by lease r then Some (set_letters d (<[id := buried r at_ms error]> (letters d)), 1) else Some (d, 0)
      | None => Some (d, 0)
      end
  | DeleteLetter id => Some (set_letters d (delete id (letters d)), if bool_decide (is_Some (letters d !! id)) then 1 else 0)
  | AddProduced amount => Some (mkQueueDb (messages d) (letters d) (total_produced d + amount) (total_consumed d), 1)
  | AddConsumed amount => Some (mkQueueDb (messages d) (letters d) (total_produced d) (total_consumed d + amount), 1)
  end.

(** A statement that fails changes nothing. *)
Definition after (d : QueueDb) (s : Stmt) : QueueDb := match exec d s with Some (d', _) => d' | None => d end.

(** ** The handlers *)

Class QueueJson {json : Json} := {
  as_str : Value -> option string;
  spec_to_value : QueueSpec -> Value;
  spec_from_value : Value -> option QueueSpec;
  base64_decode : string -> option bytes
}.

Record QueueMessage {json : Json} := mkMessage {
  msg_id : string;
  msg_body : Value;
  msg_content_type : string;
  msg_base64 : option string;
  msg_produced_at_ms : Z;
  msg_attempts : Z
}.

Record DeadLetter {json : Json} := mkDeadLetter {
  dl_id : string;
  dl_body : Value;
  dl_content_type : string;
  dl_base64 : option string;
  dl_produced_at_ms : Z;
  dl_at_ms : Z;
  dl_attempts : Z;
  dl_last_error : option string
}.

Record SendMessage {json : Json} := mkSend {
  send_body : Value;
  send_content_type : string;
  send_base64 : option string;
  delay_seconds : Z
}.

Arguments mkMessage {json}.
Arguments mkDeadLetter {json}.
Arguments mkSend {json}.

Record MessageAction := mkAction {
  act_id : string;
  action : string;
  act_delay_seconds : Z;
  act_error : option string
}.

Record QueueStats := mkStats {
  st_ready : Z;
  st_inflight : Z;
  st_dead_letters : Z;
  st_produced : Z;
  st_consumed : Z
}.

(** [truncate_error]: the first 4000 characters of UTF-8 text. *)
Definition truncate_error (error : string) : string := take_chars (Z.to_nat 4000) error.

Section handlers.
Context {redb : Redb} {crypto : Crypto} {hex : Hex} {json : Json} {queue_json : QueueJson}.
Context {pc_env : Postcard Envelope} {pc_resource : Postcard ResourceRecord}.

(** [queue_spec]. *)
Definition queue_spec (r : ResourceRecord) : result QueueSpec QueueError :=
  if negb (bool_decide (r_kind r = QUEUE_KIND)) then Err NotAQueue
  else
    match json_from_str (spec_json r) ≫= spec_from_value with
    | None => Err SpecUnreadable
    | Some spec => let? _ := validate_queue spec (Some (r_name r)) in Ok spec
    end.

(** [queue_record] and [queue_records]. *)
Definition queue_record (n : Node) (name : string) (now_at : string -> Z) : option (ResourceView * QueueSpec) :=
  view ← head n QUEUE_KIND name now_at;
  if r_deleted (resource view) then None
  else match queue_spec (resource view) with Ok spec => Some (view, spec) | Err _ => None end.

Definition queue_records (n : Node) (now_at : string -> Z) : list (ResourceView * QueueSpec) :=
  omap (fun view => match queue_spec (resource view) with Ok spec => Some (view, spec) | Err _ => None end)
    (filter (fun view => r_deleted (resource view) = false) (heads n (Some QUEUE_KIND) now_at)).

(** [prepare_queue_after]. *)
Definition prepare_queue_after (name : string) (spec : QueueSpec) (deleted : bool) (h : option ResourceView)
  : result ResourceRecord QueueError :=
  let? _ := validate_queue spec (Some name) in
  match prepare_after QUEUE_KIND name (spec_to_value spec) deleted h with
  | Ok r => Ok r
  | Err e => Err (QueueResource e)
  end.

(** [prepare_queue]. *)
Definition prepare_queue (n : Node) (name : string) (spec : QueueSpec) (deleted : bool) (now_at : string -> Z)
  : result ResourceRecord QueueError :=
  let? _ := validate_queue spec (Some name) in
  match prepare n QUEUE_KIND name (spec_to_value spec) deleted now_at with
  | Ok r => Ok r
  | Err e => Err (QueueResource e)
  end.

(** [database_name]. *)
Definition database_name (queue : string) : string :=
  ("queue-" ++ stake 32 (hex_encode (sha256 (as_bytes ("queue/" ++ queue)))))%string.

(** [validate_message]. *)
Definition validate_message (m : SendMessage) : result unit QueueError :=
  let? size :=
    if bool_decide (send_content_type m = "json") || bool_decide (send_content_type m = "v8") then
      if bool_decide (is_Some (send_base64 m)) then Err BodyAndBase64
      else Ok (slen (json_to_string (send_body m)))
    else if bool_decide (send_content_type m = "text") then
      if bool_decide (is_Some (send_base64 m)) || negb (bool_decide (is_Some (as_str (send_body m))))
      then Err TextBodyNotString
      else Ok (slen (default EmptyString (as_str (send_body m))))
    else if bool_decide (send_content_type m = "bytes") then
      if negb (is_null (send_body m)) then Err BytesBodyNotNull
      else
        match send_base64 m with
        | None => Err Base64Missing
        | Some t => match base64_decode t with Some b => Ok (Z.of_nat (length b)) | None => Err Base64Invalid end
        end
    else Err BadContentType in
  if (MAX_MESSAGE_BYTES <? size)%Z then Err MessageTooLarge else Ok tt.

(** The checks of [enqueue] and the rows it will insert. *)
Fixpoint pending_rows (now : Z) (ms : list (string * SendMessage)) : result (list (string * Row)) QueueError :=
  match ms with
  | [] => Ok []
  | (id, m) :: ms' =>
      if (MAX_DELAY_SECONDS <? delay_seconds m)%Z then Err DelayTooLong
      else
        let? _ := validate_message m in
        let? rest := pending_rows now ms' in
        Ok ((id, mkRow (json_to_string (send_body m)) (send_content_type m) (send_base64 m) now
               (sat_add 64 now (Z.min (delay_seconds m * 1000) u64_max)) 0 None None None) :: rest)
  end.

(** [enqueue]: the statements it issues on the queue's database, with the identifiers drawn. *)
Definition enqueue (spec : option QueueSpec) (d : QueueDb) (ms : list (string * SendMessage)) (now : Z)
  : QueueDb * result (list string) QueueError :=
  match spec with
  | None => (d, Err QueueMissing)
  | Some _ =>
      if bool_decide (ms = []) || (MAX_BATCH_MESSAGES <? Z.of_nat (length ms))%Z then (d, Err BadBatch)
      else
        match pending_rows now ms with
        | Err e => (d, Err e)
        | Ok rows =>
            match exec d (Insert rows) with
            | None => (d, Err SqlConstraint)
            | Some (d, _) => (after d (AddProduced (Z.of_nat (length rows))), Ok ms.*1)
            end
        end
  end.

(** [row_to_message] and [row_to_dead_letter]. *)
Definition row_to_message (ir : string * Row) : option QueueMessage :=
  body ← json_from_str (body_json ir.2);
  Some (mkMessage ir.1 body (content_type ir.2) (body_base64 ir.2) (produced_at_ms ir.2) (Z.min (attempts ir.2) u16_max)).

Definition row_to_dead_letter (il : string * Letter) : option DeadLetter :=
  body ← json_from_str (l_body_json il.2);
  Some (mkDeadLetter il.1 body (l_content_type il.2) (l_body_base64 il.2) (l_produced_at_ms il.2) (dead_letter_at_ms il.2)
    (Z.min (l_attempts il.2) u16_max) (l_last_error il.2)).

(** [collect::<Result<Vec<_>>>]. *)
Fixpoint collect {A B} (f : A -> option B) (l : list A) : option (list B) :=
  match l with
  | [] => Some []
  | x :: l' => y ← f x; ys ← collect f l'; Some (y :: ys)
  end.

(** [SELECT ... WHERE lease_id = ?1 ORDER BY available_at_ms, id]. *)
Definition select_leased (d : QueueDb) (lease : string) : list (string * Row) :=
  filter (fun ir => leased_by lease ir.2 = true) (in_order (messages d)).

Definition retention_cut (spec : QueueSpec) (now : Z) : Z := sat_sub now (Z.min (retention_seconds spec * 1000) u64_max).

(** [claim_batch]. *)
Definition claim_batch (spec : QueueSpec) (d : QueueDb) (lease : string) (now : Z)
  : QueueDb * option (list QueueMessage) :=
  let d := after d (ExpireMessages (retention_cut spec now)) in
  let d := after d (ExpireLetters (sat_sub now (30 * 24 * 60 * 60 * 1000))) in
  let d := after d (Lease lease (sat_add 64 now (visibility_timeout_ms spec)) now (Z.to_nat (batch_size spec))) in
  (d, collect row_to_message (select_leased d lease)).

(** [receive_one]; [None] in the result is an empty queue. *)
Definition receive_one (spec : option QueueSpec) (d : QueueDb) (lease : string) (now : Z)
  : QueueDb * result (option QueueMessage) QueueError :=
  match spec with
  | None => (d, Err QueueMissing)
  | Some spec =>
      if suspended spec then (d, Err QueueSuspended)
      else
        let d := after d (ExpireMessages (retention_cut spec now)) in
        let d := after d (Lease lease (sat_add 64 now (visibility_timeout_ms spec)) now 1) in
        match list.head (select_leased d lease) with
        | None => (d, Ok None)
        | Some ir =>
            match row_to_message ir with
            | None => (d, Err BodyUnreadable)
            | Some m =>
                match exec d (DeleteLeased (msg_id m) lease) with
                | Some (d, 1) => (after d (AddConsumed 1), Ok (Some m))
                | Some (d, _) => (d, Err LeaseMoved)
                | None => (d, Err SqlConstraint)
                end
            end
        end
  end.

(** [enqueue_existing], on the target queue. *)
Definition enqueue_existing (spec : option QueueSpec) (d : QueueDb) (m : QueueMessage) (now : Z)
  : QueueDb * result unit QueueError :=
  match spec with
  | None => (d, Err QueueMissing)
  | Some _ =>
      match validate_message (mkSend (msg_body m) (msg_content_type m) (msg_base64 m) 0) with
      | Err e => (d, Err e)
      | Ok _ =>
          match exec d (InsertOrIgnore (msg_id m) (mkRow (json_to_string (msg_body m)) (msg_content_type m) (msg_base64 m)
                  (msg_produced_at_ms m) now 0 None None None)) with
          | Some (d, inserted) => (if (0 <? inserted)%Z then after d (AddProduced 1) else d, Ok tt)
          | None => (d, Err SqlConstraint)
          end
      end
  end.

(** [stats]. *)
Definition stats (d : QueueDb) (now : Z) : QueueStats :=
  mkStats (Z.of_nat (size (filter (fun ir => ready now ir.2 = true) (messages d))))
    (Z.of_nat (size (filter (fun ir => bool_decide (is_Some (lease_id ir.2)) &&
       match lease_until_ms ir.2 with Some u => (now <? u)%Z | None => false end = true) (messages d))))
    (Z.of_nat (size (letters d))) (total_produced d) (total_consumed d).

(** [list_dead_letters]: the latest first. *)
Definition later (a b : string * Letter) : Prop := dead_letter_at_ms b.2 <= dead_letter_at_ms a.2.

#[export] Instance later_dec : RelDecision later.
Proof. intros a b. unfold later. apply _. Defined.

Definition list_dead_letters (d : QueueDb) (limit : Z) : option (list DeadLetter) :=
  collect row_to_dead_letter (take (Z.to_nat (Z.max 1 (Z.min limit 1000))) (merge_sort later (map_to_list (letters d)))).

(** [redrive_dead_letter]. *)
Definition redrive_dead_letter (d : QueueDb) (id : string) (now : Z) : QueueDb * result bool QueueError :=
  match letters d !! id with
  | None => (d, Ok false)
  | Some l =>
      match json_from_str (l_body_json l) with
      | None => (d, Err BodyUnreadable)
      | Some body =>
          let d := after d (InsertOrReplace id (mkRow (json_to_string body) (l_content_type l) (l_body_base64 l)
            (l_produced_at_ms l) now 0 None None None)) in
          (after d (DeleteLetter id), Ok true)
      end
  end.

(** The databases of the cluster's queues, and their definitions. *)
Local Notation World := (gmap string QueueDb).
Definition db (w : World) (queue : string) : QueueDb := default empty_queue (w !! queue).
Definition on (w : World) (queue : string) (s : Stmt) : World := <[queue := after (db w queue) s]> w.

(** [move_to_dead_letter]; the second component says whether [enqueue_existing] succeeded. *)
Definition move_to_dead_letter (specs : string -> option QueueSpec) (w : World) (queue : string) (spec : QueueSpec)
  (lease : string) (m : QueueMessage) (error : string) (now1 now2 : Z) : World * result unit QueueError :=
  let w := on w queue (Bury (msg_id m) lease now1 (truncate_error error)) in
  let '(w, r) :=
    match dead_letter_queue spec with
    | None => (w, Ok tt)
    | Some target =>
        let '(d, r) := enqueue_existing (specs target) (db w target) m now2 in (<[target := d]> w, r)
    end in
  match r with
  | Err e => (w, Err e)
  | Ok _ => (on w queue (DeleteLeased (msg_id m) lease), Ok tt)
  end.

(** The action of a message: the last one given for its identifier. *)
Definition action_for (actions : list MessageAction) (id : string) : option MessageAction :=
  list.last (filter (fun a => act_id a = id) actions).

Definition retry_requested : string := "Worker 请求重试".

(** One message of [settle_batch]: the world, and how many rows the acknowledgement deleted. *)
Definition settle_one (specs : string -> option QueueSpec) (w : World) (queue : string) (spec : QueueSpec)
  (lease : string) (delivery : result (list MessageAction) string) (m : QueueMessage) (now1 now2 : Z)
  : World * result Z QueueError :=
  let action := match delivery with Ok actions => action_for actions (msg_id m) | Err _ => None end in
  let delivery_error := match delivery with Ok _ => None | Err e => Some e end in
  let should_retry := bool_decide (is_Some delivery_error) ||
    match action with Some a => bool_decide (Queue.action a = "retry") | None => false end in
  if negb should_retry then
    match exec (db w queue) (DeleteLeased (msg_id m) lease) with
    | Some (d, affected) => (<[queue := d]> w, Ok affected)
    | None => (w, Err SqlConstraint)
    end
  else
    let error :=
      match action ≫= act_error with
      | Some e => e
      | None => default retry_requested delivery_error
      end in
    let delay := Z.min (match action with Some a => act_delay_seconds a | None => 0 end) MAX_DELAY_SECONDS in
    if (msg_attempts m <=? max_retries spec)%Z then
      (on w queue (Release (msg_id m) lease (sat_add 64 now1 (delay * 1000)) (truncate_error error)), Ok 0)
    else
      let '(w, r) := move_to_dead_letter specs w queue spec lease m error now1 now2 in
      (w, match r with Ok _ => Ok 0 | Err e => Err e end).

(** [settle_batch]: one pair of clock readings for each message. *)
Fixpoint settle_loop (specs : string -> option QueueSpec) (w : World) (queue : string) (spec : QueueSpec)
  (lease : string) (delivery : result (list MessageAction) string) (ms : list QueueMessage) (now : nat -> Z * Z)
  (consumed : Z) : World * result Z QueueError :=
  match ms with
  | [] => (w, Ok consumed)
  | m :: ms' =>
      match settle_one specs w queue spec lease delivery m (now O).1 (now O).2 with
      | (w, Ok affected) => settle_loop specs w queue spec lease delivery ms' (fun i => now (S i)) (consumed + affected)
      | (w, Err e) => (w, Err e)
      end
  end.

Definition settle_batch (specs : string -> option QueueSpec) (w : World) (queue : string) (spec : QueueSpec)
  (lease : string) (delivery : result (list MessageAction) string) (ms : list QueueMessage) (now : nat -> Z * Z)
  : World * result unit QueueError :=
  match settle_loop specs w queue spec lease delivery ms now 0 with
  | (w, Ok consumed) => (if (0 <? consumed)%Z then on w queue (AddConsumed consumed) else w, Ok tt)
  | (w, Err e) => (w, Err e)
  end.
End handlers.

(** ** Statements of others *)

Lemma insert_rows_keep m rows m' id r : insert_rows m rows = Some m' -> m !! id = Some r -> m' !! id = Some r.
Proof.
  revert m. induction rows as [|[k x] rows IH]; intros m H Hr; simpl in H; [by injection H as <-|].
  destruct (m !! k) as [?|] eqn:Ek; [done|]. eapply IH; [exact H|]. rewrite lookup_insert_ne; [done|]. intros ->. congruence.
Qed.

(** What others may do while [lease] holds the row [r] of [id] until [until]. *)
Definition foreign (id lease : string) (until : Z) (r : Row) (s : Stmt) : Prop :=
  match s with
  | InsertOrReplace id' _ => id' <> id
  | ExpireMessages before => before <= produced_at_ms r
  | Lease lease' _ now _ => lease' <> lease /\ now < until
  | DeleteLeased id' lease' | Release id' lease' _ _ => ~ (id' = id /\ lease' = lease)
  | _ => True
  end.

Lemma foreign_keeps d id lease until r s :
  messages d !! id = Some r -> lease_id r = Some lease -> lease_until_ms r = Some until -> foreign id lease until r s ->
  messages (after d s) !! id = Some r.
Proof.
  intros Hr Hl Hu. destruct s; unfold after; cbn [exec foreign].
  - destruct (insert_rows (messages d) rows) as [m|] eqn:E; [|done]. intros _. cbn. by eapply insert_rows_keep.
  - intros _. destruct (messages d !! id0) eqn:E; [done|]. simpl. rewrite lookup_insert_ne; [done|]. intros ->. congruence.
  - intros Hne. simpl. by rewrite lookup_insert_ne.
  - intros Hb. simpl. by apply map_lookup_filter_Some.
  - done.
  - intros [_ Hnow]. simpl. rewrite map_lookup_imap, Hr. simpl.
    assert (lease_free now r = false) as ->; [|by rewrite andb_false_r].
    unfold lease_free. rewrite Hl, Hu. lia.
  - intros Hne. destruct (messages d !! id0) as [r'|] eqn:E; [|done]. destruct (leased_by lease0 r') eqn:El; [|done].
    simpl. rewrite lookup_delete_ne; [done|]. intros ->. apply Hne. split; [done|].
    unfold leased_by in El. apply bool_decide_eq_true in El. congruence.
  - intros Hne. destruct (messages d !! id0) as [r'|] eqn:E; [|done]. destruct (leased_by lease0 r') eqn:El; [|done].
    simpl. rewrite lookup_insert_ne; [done|]. intros ->. apply Hne. split; [done|].
    unfold leased_by in El. apply bool_decide_eq_true in El. congruence.
  - intros _. destruct (messages d !! id0) as [r'|]; [|done]. by destruct (leased_by lease0 r').
  - done.
  - done.
  - done.
Qed.

Lemma foreign_run_keeps stmts d id lease until r :
  messages d !! id = Some r -> lease_id r = Some lease -> lease_until_ms r = Some until ->
  Forall (foreign id lease until r) stmts -> messages (foldl after d stmts) !! id = Some r.
Proof.
  intros Hr Hl Hu Hf. revert d Hr. induction Hf as [|s stmts Hs Hf IH]; intros d Hr; [done|]. apply IH.
  by eapply foreign_keeps.
Qed.

(** ** Claiming *)

Lemma in_order_elem m id r : (id, r) ∈ in_order m <-> m !! id = Some r.
Proof. unfold in_order. rewrite merge_sort_Permutation. apply elem_of_map_to_list. Qed.

Lemma picked_ready now limit m id : id ∈ picked now limit m -> exists r, m !! id = Some r /\ ready now r = true.
Proof.
  unfold picked. intros ([k r] & -> & Hin)%list_elem_of_fmap. apply elem_of_take in Hin as (i & Hi & _).
  apply list_elem_of_lookup_2, list_elem_of_filter in Hi as [Hr Hin]. apply in_order_elem in Hin. by exists r.
Qed.

(** The rows after a lease. *)
Lemma lease_lookup d lease until now limit id :
  messages (after d (Lease lease until now limit)) !! id =
  if decide (id ∈ picked now limit (messages d)) then (fun r => with_lease r lease until) <$> messages d !! id
  else messages d !! id.
Proof.
  cbn. rewrite map_lookup_imap. destruct (messages d !! id) as [r|] eqn:Er; simpl; [|by case_decide].
  case_decide as Hin; [|by rewrite bool_decide_false].
  rewrite bool_decide_true by done. destruct (picked_ready _ _ _ _ Hin) as (r' & Hr' & Hready).
  assert (r' = r) as -> by congruence. unfold ready in Hready. apply andb_true_iff in Hready as [_ ->]. done.
Qed.

Definition queue_lt (a b : string * Row) : Prop := queue_key a ≺ queue_key b.

Lemma in_order_strict m : StronglySorted queue_lt (in_order m).
Proof.
  assert (StronglySorted queue_le (in_order m)) as Hle.
  { apply Sorted_StronglySorted, Sorted_merge_sort; [|intros a b; apply (le_of_total (queue_key a))].
    intros a b c. apply (le_of_trans (queue_key a)). }
  assert (NoDup (in_order m).*1) as Hnd by (unfold in_order; rewrite merge_sort_Permutation; apply NoDup_fst_map_to_list).
  induction Hle as [|x l Hl IH Hf]; constructor; apply NoDup_cons in Hnd as [Hx Hnd]; [by apply IH|].
  rewrite Forall_forall in Hf |- *. intros y Hy. specialize (Hf y Hy). unfold queue_le in Hf.
  apply le_of_lt_or_eq in Hf as [?|He]; [done|]. destruct Hx. injection He as _ ->. by apply list_elem_of_fmap_2.
Qed.

Lemma with_lease_key lease until (l : list (string * Row)) :
  StronglySorted queue_lt l -> StronglySorted queue_lt ((fun ir => (ir.1, with_lease ir.2 lease until)) <$> l).
Proof.
  induction 1 as [|x l Hl IH Hf]; simpl; constructor; [done|]. apply Forall_fmap. eapply Forall_impl; [exact Hf|].
  intros y Hy. exact Hy.
Qed.

(** What a fresh lease selects: the first ready rows, in order. *)
Lemma select_fresh_lease d lease until now limit :
  (forall id r, messages d !! id = Some r -> lease_id r <> Some lease) ->
  select_leased (after d (Lease lease until now limit)) lease =
  (fun ir => (ir.1, with_lease ir.2 lease until)) <$>
    take limit (filter (fun ir => ready now ir.2 = true) (in_order (messages d))).
Proof.
  intros Hfresh. set (chosen := take limit _).
  assert (forall id r, (id, r) ∈ chosen -> messages d !! id = Some r) as Hch.
  { intros id r (i & Hi & _)%elem_of_take. apply list_elem_of_lookup_2, list_elem_of_filter in Hi as [_ Hi].
    by apply in_order_elem. }
  apply (StronglySorted_unique_elems queue_lt).
  - intros x y Hxy Hyx. exact (lt_of_irrefl _ (lt_of_trans _ _ _ Hxy Hyx)).
  - apply StronglySorted_filter, in_order_strict.
  - apply with_lease_key, StronglySorted_take, StronglySorted_filter, in_order_strict.
  - intros [id r]. unfold select_leased. rewrite list_elem_of_filter, in_order_elem, lease_lookup, list_elem_of_fmap. simpl.
    assert (id ∈ picked now limit (messages d) <-> exists r0, (id, r0) ∈ chosen) as Hp.
    { unfold picked. fold chosen. rewrite list_elem_of_fmap. split; [intros ([k r0] & -> & ?); by exists r0|].
      intros [r0 ?]. by exists (id, r0). }
    unfold leased_by. case_decide as Hin.
    + apply Hp in Hin as [r0 H0]. rewrite (Hch id r0 H0). simpl. split.
      * intros [_ [= <-]]. by exists (id, r0).
      * intros ([k r1] & [= -> ->] & H1). assert (r1 = r0) as -> by (apply Hch in H0, H1; congruence).
        split; [by apply bool_decide_true|done].
    + split.
      * intros [Hl%bool_decide_eq_true Hr]. by destruct (Hfresh id r Hr).
      * intros ([k r1] & [= -> ->] & H1). destruct Hin. apply Hp. by exists r1.
Qed.

(** ** Settling *)

(** A message is kept when it is in one of the two tables. *)
Definition kept (d : QueueDb) (id : string) : Prop := is_Some (messages d !! id) \/ is_Some (letters d !! id).

Lemma db_insert (w : gmap string QueueDb) queue d queue' : db (<[queue := d]> w) queue' = if decide (queue = queue') then d else db w queue'.
Proof. unfold db. destruct (decide (queue = queue')) as [->|Hne]; [by rewrite lookup_insert_eq|by rewrite lookup_insert_ne]. Qed.

Lemma db_on w queue s queue' : db (on w queue s) queue' = if decide (queue = queue') then after (db w queue) s else db w queue'.
Proof. unfold on. apply db_insert. Qed.

(** Statements that only add or release. *)
Lemma kept_add d s id :
  match s with Insert _ | InsertOrIgnore _ _ | InsertOrReplace _ _ | Release _ _ _ _ | Bury _ _ _ _ | Lease _ _ _ _
    | AddProduced _ | AddConsumed _ => True | _ => False end ->
  kept d id -> kept (after d s) id.
Proof.
  unfold kept, after. destruct s; try done; cbn [exec]; intros _.
  - destruct (insert_rows (messages d) rows) as [m|] eqn:E; [|done]. simpl. intros [[r Hr]|?]; [left|by right].
    exists r. by eapply insert_rows_keep.
  - destruct (messages d !! id0) eqn:E; [done|]. simpl. intros [?|?]; [left|by right].
    rewrite lookup_insert. by case_decide.
  - simpl. intros [?|?]; [left|by right]. rewrite lookup_insert. by case_decide.
  - simpl. intros [[r Hr]|?]; [left|by right]. rewrite map_lookup_imap, Hr. simpl. by eexists.
  - destruct (messages d !! id0) as [r|]; [|done]. destruct (leased_by lease r); [|done]. simpl.
    intros [?|?]; [left|by right]. rewrite lookup_insert. by case_decide.
  - destruct (messages d !! id0) as [r|]; [|done]. destruct (leased_by lease r); [|done]. simpl.
    intros [?|?]; [by left|right]. rewrite lookup_insert. by case_decide.
Qed.

Section settle.
Context {json : Json} {queue_json : QueueJson}.

Lemma kept_existing spec d m now id : kept d id -> kept (enqueue_existing spec d m now).1 id.
Proof.
  intros Hk. unfold enqueue_existing. destruct spec; [|done]. destruct (validate_message _); [|done].
  set (row := mkRow _ _ _ _ _ _ _ _ _). pose proof (kept_add d (InsertOrIgnore (msg_id m) row) id I Hk) as Hk'.
  unfold after in Hk'. destruct (exec d (InsertOrIgnore (msg_id m) row)) as [[d' k]|]; [|done]. cbn [fst] in *.
  destruct (0 <? k)%Z; [|done]. by apply (kept_add d' (AddProduced 1)).
Qed.

(** Deleting a leased row after burying it. *)
Lemma kept_delete d id lease :
  is_Some (letters d !! id) \/ ~ (exists r, messages d !! id = Some r /\ leased_by lease r = true) ->
  forall id', kept d id' -> kept (after d (DeleteLeased id lease)) id'.
Proof.
  intros H id' Hk. unfold after; cbn [exec]. destruct (messages d !! id) as [r|] eqn:E; [|done].
  destruct (leased_by lease r) eqn:El; [|done]. unfold kept in *; simpl.
  destruct (decide (id' = id)) as [->|Hne]; [|by rewrite lookup_delete_ne].
  destruct H as [?|H]; [by right|]. destruct H. by exists r.
Qed.

Lemma bury_letter d id lease at_ms error :
  is_Some (letters (after d (Bury id lease at_ms error)) !! id) \/
  ~ (exists r, messages (after d (Bury id lease at_ms error)) !! id = Some r /\ leased_by lease r = true).
Proof.
  unfold after; cbn [exec]. destruct (messages d !! id) as [r|] eqn:E; [|right; rewrite E; by intros (? & ? & _)].
  destruct (leased_by lease r) eqn:El; simpl.
  - left. by rewrite lookup_insert_eq.
  - right. rewrite E. intros (r' & [= <-] & ?). congruence.
Qed.

Lemma validated_target spec queue target :
  validate_queue spec (Some queue) = Ok tt -> dead_letter_queue spec = Some target -> target <> queue.
Proof.
  unfold validate_queue. intros H Ht. rewrite Ht in H.
  repeat match type of H with (if ?b then _ else _) = _ => destruct b eqn:?; [done|] end.
  intros ->. match goal with E : bool_decide (Some queue = Some queue) = false |- _ => by apply bool_decide_eq_false in E end.
Qed.

Lemma move_keeps specs w queue spec lease m error now1 now2 id :
  validate_queue spec (Some queue) = Ok tt -> kept (db w queue) id ->
  kept (db (move_to_dead_letter specs w queue spec lease m error now1 now2).1 queue) id.
Proof.
  intros Hv Hk. unfold move_to_dead_letter. set (w1 := on w queue (Bury _ _ _ _)).
  assert (db w1 queue = after (db w queue) (Bury (msg_id m) lease now1 (truncate_error error))) as H1.
  { subst w1. by rewrite db_on, decide_True. }
  assert (kept (db w1 queue) id) as Hk1 by (rewrite H1; by apply kept_add).
  assert (kept (after (db w1 queue) (DeleteLeased (msg_id m) lease)) id) as Hk2.
  { apply kept_delete; [|done]. rewrite H1. apply bury_letter. }
  destruct (dead_letter_queue spec) as [target|] eqn:Et; simpl.
  - pose proof (validated_target spec queue target Hv Et) as Hne.
    destruct (enqueue_existing (specs target) (db w1 target) m now2) as [d r].
    assert (db (<[target := d]> w1) queue = db w1 queue) as H2 by (by rewrite db_insert, decide_False).
    destruct r; simpl; [|by rewrite H2]. by rewrite db_on, decide_True, H2.
  - by rewrite db_on, decide_True.
Qed.

(** [should_retry] of [settle_batch]. *)
Definition acknowledged (delivery : result (list MessageAction) string) (id : string) : Prop :=
  exists actions, delivery = Ok actions /\
    match action_for actions id with Some a => action a <> "retry" | None => True end.

Lemma settle_one_keeps specs w queue spec lease delivery m now1 now2 id :
  validate_queue spec (Some queue) = Ok tt -> kept (db w queue) id ->
  kept (db (settle_one specs w queue spec lease delivery m now1 now2).1 queue) id \/
  (msg_id m = id /\ acknowledged delivery id /\ exists r, messages (db w queue) !! id = Some r /\ lease_id r = Some lease).
Proof.
  intros Hv Hk. unfold settle_one.
  set (a := match delivery with Ok actions => action_for actions (msg_id m) | Err _ => None end).
  destruct (bool_decide (is_Some _) || _) eqn:Er; cbn [negb].
  - left. destruct (_ <=? _)%Z.
    + cbn [fst]. rewrite db_on, decide_True by done. by apply kept_add.
    + destruct (move_to_dead_letter _ _ _ _ _ _ _ _ _) as [w' r] eqn:E. cbn [fst].
      replace w' with (w', r).1 by done. rewrite <- E. by apply move_keeps.
  - apply orb_false_iff in Er as [Ed Ea]. destruct delivery as [actions|]; [|done].
    cbn [exec]. destruct (messages (db w queue) !! msg_id m) as [r|] eqn:Em; cbn [fst].
    + destruct (leased_by lease r) eqn:El; cbn [fst].
      * destruct (decide (msg_id m = id)) as [<-|Hne].
        -- right. split; [done|]. split; [|exists r; split; [done|by apply bool_decide_eq_true in El]].
           exists actions. split; [done|]. fold a. destruct a as [a'|]; [|done]. by apply bool_decide_eq_false in Ea.
        -- left. rewrite db_insert, decide_True by done. unfold kept in *. simpl. by rewrite lookup_delete_ne.
      * left. by rewrite db_insert, decide_True.
    + left. by rewrite db_insert, decide_True.
Qed.

(** Settling leases nothing. *)
Definition leased_in (d : QueueDb) (id lease : string) : Prop :=
  exists r, messages d !! id = Some r /\ lease_id r = Some lease.

Lemma after_leases d s id lease :
  match s with DeleteLeased _ _ | Release _ _ _ _ | Bury _ _ _ _ => True | _ => False end ->
  leased_in (after d s) id lease -> leased_in d id lease.
Proof.
  unfold after, leased_in. destruct s; try done; cbn [exec]; intros _; destruct (messages d !! id0) as [r|]; try done;
    destruct (leased_by lease0 r); try done; simpl; try done.
  - intros (x & Hx & Hl). apply lookup_delete_Some in Hx as [_ Hx]. by exists x.
  - intros (x & Hx & Hl). apply lookup_insert_Some in Hx as [[_ <-]|[_ Hx]]; [done|by exists x].
Qed.

Lemma settle_one_leases specs w queue spec lease delivery m now1 now2 id :
  validate_queue spec (Some queue) = Ok tt ->
  forall r, messages (db (settle_one specs w queue spec lease delivery m now1 now2).1 queue) !! id = Some r ->
    lease_id r = Some lease -> leased_in (db w queue) id lease.
Proof.
  intros Hv r Hr Hl. assert (leased_in (db (settle_one specs w queue spec lease delivery m now1 now2).1 queue) id lease) as H
    by (by exists r). clear r Hr Hl. revert H. unfold settle_one. destruct (negb _).
  - destruct (exec (db w queue) (DeleteLeased (msg_id m) lease)) as [[d k]|] eqn:E; [|done]. cbn [fst].
    rewrite db_insert, decide_True by done. intros H. apply (after_leases _ (DeleteLeased (msg_id m) lease)); [done|].
    unfold after. by rewrite E.
  - destruct (_ <=? _)%Z; cbn [fst].
    + rewrite db_on, decide_True by done. by apply after_leases.
    + set (error := match _ with Some e => e | None => _ end).
      destruct (move_to_dead_letter specs w queue spec lease m error now1 now2) as [w' r] eqn:E. cbn [fst].
      unfold move_to_dead_letter in E. set (w1 := on w queue (Bury _ _ _ _)) in E.
      assert (forall x, leased_in (after (db w1 queue) x) id lease ->
        match x with DeleteLeased _ _ => True | _ => False end -> leased_in (db w queue) id lease) as H1.
      { intros x Hx Hm. apply after_leases in Hx; [|by destruct x]. subst w1. rewrite db_on, decide_True in Hx by done.
        by apply after_leases in Hx. }
      assert (leased_in (db w1 queue) id lease -> leased_in (db w queue) id lease) as H2.
      { subst w1. rewrite db_on, decide_True by done. by apply after_leases. }
      destruct (dead_letter_queue spec) as [target|] eqn:Et.
      * pose proof (validated_target spec queue target Hv Et) as Hne.
        destruct (enqueue_existing _ _ _ _) as [d [u|e]]; injection E as <- _.
        -- rewrite db_on, decide_True, db_insert, decide_False by done. intros H. by eapply H1.
        -- rewrite db_insert, decide_False by done. exact H2.
      * injection E as <- _. rewrite db_on, decide_True by done. intros H. by eapply H1.
Qed.

Lemma settle_loop_keeps ms specs w queue spec lease delivery now consumed id :
  validate_queue spec (Some queue) = Ok tt -> kept (db w queue) id ->
  (~ acknowledged delivery id \/ id ∉ msg_id <$> ms \/
   forall r, messages (db w queue) !! id = Some r -> lease_id r <> Some lease) ->
  kept (db (settle_loop specs w queue spec lease delivery ms now consumed).1 queue) id.
Proof.
  intros Hv. revert w now consumed. induction ms as [|m ms IH]; intros w now consumed Hk Hno; cbn [settle_loop]; [done|].
  pose proof (settle_one_keeps specs w queue spec lease delivery m (now O).1 (now O).2 id Hv Hk) as Hone.
  pose proof (settle_one_leases specs w queue spec lease delivery m (now O).1 (now O).2 id Hv) as Hl.
  destruct (settle_one _ _ _ _ _ _ _ _ _) as [w' r]; cbn [fst] in *.
  assert (kept (db w' queue) id) as Hk'.
  { destruct Hone as [?|(Hm & Ha & x & Hx & Hlx)]; [done|]. destruct Hno as [?|[Hno|Hno]]; [done| |by destruct (Hno x Hx)].
    rewrite <- Hm in Hno. set_solver. }
  destruct r as [affected|e]; [|done]. apply IH; [done|].
  destruct Hno as [?|[Hno|Hno]]; [by left|right; left; set_solver|right; right].
  intros x Hx Hlx. destruct (Hl x Hx Hlx) as (y & Hy & Hly). by destruct (Hno y Hy).
Qed.
End settle.

Lemma collect_some {A B} (f : A -> option B) (l : list A) :
  Forall (fun x => is_Some (f x)) l -> exists ys, collect f l = Some ys /\ Forall2 (fun x y => f x = Some y) l ys.
Proof.
  induction 1 as [|x l [y Hy] Hl (ys & Hys & Hf)]; [by exists []|]. exists (y :: ys). simpl. rewrite Hy, Hys. simpl.
  split; [done|]. by constructor.
Qed.

Lemma claimed_messages {json : Json} (m : gmap string Row) lease until (chosen : list (string * Row)) ys :
  (forall id r, (id, r) ∈ chosen -> m !! id = Some r) ->
  Forall2 (fun x y => row_to_message x = Some y) ((fun ir => (ir.1, with_lease ir.2 lease until)) <$> chosen) ys ->
  msg_id <$> ys = chosen.*1 /\
  Forall (fun y => exists r, m !! msg_id y = Some r /\ msg_attempts y = Z.min (attempts r + 1) u16_max) ys.
Proof.
  revert ys. induction chosen as [|[id r] chosen IH]; intros ys Hch Hf.
  { apply Forall2_nil_inv_l in Hf as ->. by split. }
  cbn [fmap list_fmap] in Hf. apply Forall2_cons_inv_l in Hf as (y & ys' & Hy & Hf & ->).
  unfold row_to_message in Hy. cbn [fst snd] in Hy. apply bind_Some in Hy as (b & _ & [= <-]).
  destruct (IH ys') as [H1 H2]; [intros id' r' Hin; apply Hch; set_solver|done|]. cbn. rewrite H1. split; [done|].
  constructor; [|done]. exists r. split; [apply Hch; set_solver|done].
Qed.

(** The rows a lease leaves out come after those it takes. *)
Lemma picked_first now limit m id r :
  m !! id = Some r -> ready now r = true -> id ∉ picked now limit m ->
  length (picked now limit m) = limit /\
  forall id' r', m !! id' = Some r' -> id' ∈ picked now limit m -> queue_lt (id', r') (id, r).
Proof.
  intros Hr Hready Hno. set (l := filter (fun ir => ready now ir.2 = true) (in_order m)).
  assert (StronglySorted queue_lt l) as Hs by (apply StronglySorted_filter, in_order_strict).
  assert ((id, r) ∈ l) as Hin by (apply list_elem_of_filter; split; [done|by apply in_order_elem]).
  assert ((id, r) ∉ take limit l) as Hnt by (intros H; apply Hno; unfold picked; fold l; apply list_elem_of_fmap; by exists (id, r)).
  assert ((id, r) ∈ drop limit l) as Hd by (rewrite <- (take_drop limit l), elem_of_app in Hin; tauto).
  split.
  - unfold picked. fold l. rewrite length_fmap, length_take.
    assert (drop limit l <> []) as Hne by (intros E; rewrite E in Hd; set_solver).
    destruct (decide (limit <= length l)%nat); [lia|]. destruct Hne. apply drop_ge. lia.
  - intros id' r' Hr' Hp. unfold picked in Hp. fold l in Hp. apply list_elem_of_fmap in Hp as ([k x] & -> & Hx).
    assert (x = r') as ->.
    { assert ((k, x) ∈ l) as Hl by (rewrite <- (take_drop limit l), elem_of_app; by left).
      apply list_elem_of_filter in Hl as [_ Hl]. apply in_order_elem in Hl. simpl in Hr'. congruence. }
    rewrite <- (take_drop limit l) in Hs. apply StronglySorted_app in Hs as (Hs & _ & _).
    by apply (Hs (k, r') (id, r)).
Qed.

(** ** Properties *)


(** A claim takes the first ready messages. After dropping what is past
    retention, [claim_batch] leases the ready messages that come first by
    availability, then identifier, up to the batch size; it returns exactly those, in that order, with one
    more attempt each; every other row is left alone, and a ready message is left only when the batch
    is full and all it took come before. The lease is fresh and bodies are JSON. *)
Theorem claim_takes_first_ready {json : Json}
    (spec : QueueSpec) (d : QueueDb) (lease : string) (now : Z)
    (Hfresh : forall id r, messages d !! id = Some r -> lease_id r <> Some lease)
    (Hbody : forall id r, messages d !! id = Some r -> is_Some (json_from_str (body_json r))) :
  let d0 := after d (ExpireMessages (retention_cut spec now)) in
  let ids := picked now (Z.to_nat (batch_size spec)) (messages d0) in
  let until := sat_add 64 now (visibility_timeout_ms spec) in
  let '(d', ms) := claim_batch spec d lease now in
  (exists l, ms = Some l /\ msg_id <$> l = ids /\
     Forall (fun m => exists r, messages d !! msg_id m = Some r /\ msg_attempts m = Z.min (attempts r + 1) u16_max) l) /\
  (forall id, messages d' !! id =
     if decide (id ∈ ids) then (fun r => with_lease r lease until) <$> messages d0 !! id else messages d0 !! id) /\
  (forall id r, messages d0 !! id = Some r -> ready now r = true -> id ∉ ids ->
     length ids = Z.to_nat (batch_size spec) /\
     forall id' r', messages d0 !! id' = Some r' -> id' ∈ ids -> queue_lt (id', r') (id, r)).
Proof.
  intros d0 ids until. unfold claim_batch. fold d0. set (d1 := after d0 (ExpireLetters _)).
  assert (messages d1 = messages d0) as Hm by done.
  assert (forall id r, messages d0 !! id = Some r -> messages d !! id = Some r) as Hsub.
  { intros id r H. subst d0. cbn in H. by apply map_lookup_filter_Some in H as [? _]. }
  fold until. set (d' := after d1 (Lease lease until now (Z.to_nat (batch_size spec)))). split_and!.
  - assert (select_leased d' lease = (fun ir => (ir.1, with_lease ir.2 lease until)) <$>
      take (Z.to_nat (batch_size spec)) (filter (fun ir => ready now ir.2 = true) (in_order (messages d0)))) as Hsel.
    { subst d'. rewrite select_fresh_lease; [by rewrite Hm|]. intros id r H. rewrite Hm in H. by eapply Hfresh, Hsub. }
    set (chosen := take _ _) in Hsel.
    assert (forall id r, (id, r) ∈ chosen -> messages d !! id = Some r) as Hch.
    { intros id r (i & Hi & _)%elem_of_take. apply list_elem_of_lookup_2, list_elem_of_filter in Hi as [_ Hi].
      by apply Hsub, in_order_elem. }
    destruct (collect_some row_to_message (select_leased d' lease)) as (ys & Hys & Hf).
    { rewrite Hsel. apply Forall_fmap, Forall_forall. intros [id r] Hin. simpl. unfold row_to_message. simpl.
      destruct (Hbody id r (Hch id r Hin)) as [b ->]. by eexists. }
    exists ys. split; [done|]. rewrite Hsel in Hf. change ids with chosen.*1. by apply (claimed_messages (messages d) lease until).
  - intros id. subst d'. rewrite lease_lookup, Hm. done.
  - intros id r Hr Hready Hno. by apply picked_first.
Qed.

(** Settling loses nothing. Whatever a consumer answered or failed with, and
    however the settlement itself ends, a message of the queue that is in its messages or its
    dead letters before is in one of them after, unless the consumer held its
    lease and acknowledged it. *)
Theorem settle_loses_nothing {json : Json} {queue_json : QueueJson}
    (specs : string -> option QueueSpec) (w : gmap string QueueDb) (queue : string) (spec : QueueSpec) (lease : string)
    (delivery : result (list MessageAction) string) (ms : list QueueMessage) (now : nat -> Z * Z) (id : string)
    (Hspec : validate_queue spec (Some queue) = Ok tt) (Hkept : kept (db w queue) id)
    (Hno : ~ acknowledged delivery id \/ id ∉ msg_id <$> ms \/ ~ leased_in (db w queue) id lease) :
  kept (db (settle_batch specs w queue spec lease delivery ms now).1 queue) id.
Proof.
  assert (kept (db (settle_loop specs w queue spec lease delivery ms now 0).1 queue) id) as H.
  { apply settle_loop_keeps; [done..|]. destruct Hno as [?|[?|Hno]]; [by left|by right; left|right; right].
    intros r Hr Hl. apply Hno. by exists r. }
  unfold settle_batch. destruct (settle_loop _ _ _ _ _ _ _ _ _) as [w' [consumed|e]]; cbn [fst] in *; [|done].
  destruct (0 <? consumed)%Z; [|done]. rewrite db_on, decide_True by done. by apply kept_add.
Qed.

(** A lost lease still dead-letters. When a consumer gives up on a message whose
    lease has passed to someone else, its own queue is left alone, but the message is
    inserted into the dead-letter queue all the same, while the other consumer is
    still working on it. *)
Theorem lost_lease_still_dead_letters {json : Json} {queue_json : QueueJson}
    (specs : string -> option QueueSpec) (w : gmap string QueueDb) (queue target lease other error : string)
    (spec tspec : QueueSpec) (m : QueueMessage) (r : Row) (now1 now2 : Z)
    (Hspec : validate_queue spec (Some queue) = Ok tt) (Htarget : dead_letter_queue spec = Some target)
    (Htspec : specs target = Some tspec)
    (Hmessage : validate_message (mkSend (msg_body m) (msg_content_type m) (msg_base64 m) 0) = Ok tt)
    (Hr : messages (db w queue) !! msg_id m = Some r) (Hlease : lease_id r = Some other) (Hother : other <> lease) :
  let w' := (move_to_dead_letter specs w queue spec lease m error now1 now2).1 in
  db w' queue = db w queue /\ is_Some (messages (db w' target) !! msg_id m).
Proof.
  intros w'. pose proof (validated_target spec queue target Hspec Htarget) as Hne.
  assert (leased_by lease r = false) as Hl by (unfold leased_by; rewrite Hlease; apply bool_decide_false; congruence).
  assert (forall s, (s = Bury (msg_id m) lease now1 (truncate_error error) \/ s = DeleteLeased (msg_id m) lease) ->
    after (db w queue) s = db w queue) as Hs.
  { intros s [->| ->]; unfold after; cbn [exec]; rewrite Hr, Hl; done. }
  subst w'. unfold move_to_dead_letter. rewrite Htarget, Htspec. set (w1 := on w queue (Bury _ _ _ _)).
  assert (db w1 queue = db w queue) as H1 by (subst w1; rewrite db_on, decide_True by done; apply Hs; by left).
  unfold enqueue_existing. rewrite Hmessage. set (row := mkRow _ _ _ _ _ _ _ _ _).
  assert (exists d k, exec (db w1 target) (InsertOrIgnore (msg_id m) row) = Some (d, k) /\ is_Some (messages d !! msg_id m)) as (d & k & -> & Hd).
  { cbn [exec]. destruct (messages (db w1 target) !! msg_id m) as [x|] eqn:E; eexists _, _; (split; [done|]); [by exists x|].
    cbn. by rewrite lookup_insert_eq. }
  cbn [fst]. set (d' := if (0 <? k)%Z then _ else _).
  assert (messages d' = messages d) as Hd' by (subst d'; by destruct (0 <? k)%Z). split.
  - rewrite db_on, decide_True by done. rewrite db_insert, decide_False, H1 by done. apply Hs. by right.
  - rewrite db_on, decide_False by done. rewrite db_insert, decide_True by done. by rewrite Hd'.
Qed.

(** Redriving an old dead letter loses it. The redrive keeps the original
    production time, so when that is past the queue's retention the next claim deletes
    the message before delivering it, and its dead letter is already gone. *)
Theorem old_redrive_is_lost {json : Json}
    (spec : QueueSpec) (d : QueueDb) (id lease : string) (l : Letter) (now now' : Z)
    (Hletter : letters d !! id = Some l) (Hbody : is_Some (json_from_str (l_body_json l)))
    (Hold : l_produced_at_ms l < retention_cut spec now') :
  let '(d1, r) := redrive_dead_letter d id now in
  r = Ok true /\ is_Some (messages d1 !! id) /\ ~ kept (claim_batch spec d1 lease now').1 id.
Proof.
  unfold redrive_dead_letter. rewrite Hletter. destruct Hbody as [b ->]. set (row := mkRow _ _ _ _ _ _ _ _ _).
  set (d1 := after _ (DeleteLetter id)).
  assert (messages d1 = <[id := row]> (messages d)) as Hm by done.
  assert (letters d1 !! id = None) as Hl by (cbn; apply lookup_delete_eq).
  split; [done|]. split; [rewrite Hm, lookup_insert_eq; by eexists|]. unfold claim_batch. cbn [fst].
  set (d2 := after (after d1 _) _).
  assert (messages d2 !! id = None) as H2.
  { apply map_lookup_filter_None_2. right. intros x Hx. rewrite Hm, lookup_insert_eq in Hx. injection Hx as <-. simpl. lia. }
  intros [[x Hx]|[x Hx]].
  - rewrite lease_lookup, H2 in Hx. by case_decide.
  - cbn in Hx. apply map_lookup_filter_Some in Hx as [Hx _]. rewrite lookup_delete_eq in Hx. done.
Qed.

(** A small queue, for witnesses. *)
Module SampleQueue.
#[export] Instance json : Json := SampleHash.json.
#[export] Instance queue_json : QueueJson := {|
  as_str := fun _ => None;
  spec_to_value := fun _ => true;
  spec_from_value := fun v : bool => if v then Some default_spec else None;
  base64_decode := fun _ => None
|}.
Definition row (produced available : Z) : Row := mkRow "{}" "json" None produced available 0 None None None.
Definition two : QueueDb := mkQueueDb {["a" := row 5 10; "b" := row 6 9]} ∅ 2 0.
Definition message (id : string) (tries : Z) : QueueMessage := mkMessage id true "json" None 5 tries.
Definition with_target : QueueSpec := mkQueueSpec EmptyString None 10 5000 3 120000 86400 (Some "dead") false.
Definition taken : QueueDb := mkQueueDb {["a" := with_lease (row 5 10) "second" 500]} ∅ 1 0.
Definition letter : Letter := mkLetter "{}" "json" None 5 100 4 None.
End SampleQueue.


Lemma two_rows id r : messages SampleQueue.two !! id = Some r -> r = SampleQueue.row 5 10 \/ r = SampleQueue.row 6 9.
Proof.
  simpl. intros [[_ <-]|[_ [_ <-]%lookup_singleton_Some]]%lookup_insert_Some; [by left|by right].
Qed.

Lemma claim_takes_first_ready_witness :
  exists l, (claim_batch (json := SampleQueue.json) default_spec SampleQueue.two "L1" 20).2 = Some l /\ msg_id <$> l = ["b"; "a"].
Proof.
  assert (forall id r, messages SampleQueue.two !! id = Some r -> lease_id r <> Some "L1") as H1
    by (intros id r [->| ->]%two_rows; discriminate).
  assert (forall id r, messages SampleQueue.two !! id = Some r ->
    is_Some (json_from_str (Json := SampleQueue.json) (body_json r))) as H2
    by (intros id r [->| ->]%two_rows; by eexists).
  pose proof (claim_takes_first_ready default_spec SampleQueue.two "L1" 20 H1 H2) as H.
  destruct (claim_batch (json := SampleQueue.json) default_spec SampleQueue.two "L1" 20) as [d' ms].
  destruct H as ((l & Hl & Hid & _) & _). exists l. split; [exact Hl|]. rewrite Hid. vm_compute. reflexivity.
Defined.

Lemma settle_loses_nothing_witness :
  kept (db (settle_batch (queue_json := SampleQueue.queue_json) (fun _ => None) {["q" := SampleQueue.taken]} "q" default_spec
    "second" (Err "boom") [SampleQueue.message "a" 9] (fun _ => (7, 8))).1 "q") "a".
Proof.
  refine (settle_loses_nothing (fun _ => None) {["q" := SampleQueue.taken]} "q" default_spec
    "second" (Err "boom") [SampleQueue.message "a" 9] (fun _ => (7, 8)) "a" _ _ _).
  - vm_compute. reflexivity.
  - left. vm_compute. by eexists.
  - left. intros (actions & H & _). discriminate H.
Defined.

Lemma lost_lease_still_dead_letters_witness :
  let w' := (move_to_dead_letter (queue_json := SampleQueue.queue_json) (fun _ => Some default_spec) {["q" := SampleQueue.taken]}
    "q" SampleQueue.with_target "first" (SampleQueue.message "a" 9) "boom" 7 8).1 in
  db w' "q" = db {["q" := SampleQueue.taken]} "q" /\ is_Some (messages (db w' "dead") !! "a").
Proof.
  refine (lost_lease_still_dead_letters (fun _ => Some default_spec) {["q" := SampleQueue.taken]} "q" "dead" "first" "second" "boom"
    SampleQueue.with_target default_spec (SampleQueue.message "a" 9) (with_lease (SampleQueue.row 5 10) "second" 500) 7 8
    _ _ _ _ _ _ _); try (vm_compute; reflexivity). discriminate.
Defined.

Lemma old_redrive_is_lost_witness :
  let '(d1, r) := redrive_dead_letter (json := SampleQueue.json) (mkQueueDb ∅ {["a" := SampleQueue.letter]} 1 0) "a" 1000000000 in
  r = Ok true /\ is_Some (messages d1 !! "a") /\ ~ kept (claim_batch (json := SampleQueue.json) default_spec d1 "L1" 1000000001).1 "a".
Proof.
  refine (old_redrive_is_lost (json := SampleQueue.json) default_spec (mkQueueDb ∅ {["a" := SampleQueue.letter]} 1 0) "a" "L1" SampleQueue.letter
    1000000000 1000000001 _ _ _).
  - vm_compute. reflexivity.
  - vm_compute. by eexists.
  - vm_compute. reflexivity.
Defined.
