(* ===== verification/Smtp.v ===== *)
(** * Smtp: the SMTP server sessions (vendor/mailin, vendor/mailin-embedded)

    The vendored SMTP library the mail server is built on.  [Response] and its
    constants are response.rs, [Handler] the trait of lib.rs, [parse] the parser of
    parser.rs, [State], [handle] and [StateMachine] the state machine of fsm.rs,
    [Session] the session of smtp.rs, and [handle_session] and [start_session] the
    connection loop of mailin-embedded's running.rs.  The parser is written with
    the combinators of the [nom] crate, which is not part of the repository:
    [Nom] is what the parser uses of it and [NomOk] the documented behaviour; the
    decoder of the [base64] crate is the parameter [Base64Decode].  Byte slices and
    text are both [string].  Failures of the socket are not modelled. *)

From Stdlib Require Import ZArith Lia Ascii.
From stdpp Require Import prelude gmap sorting strings list pretty.
From S2P Require Import Prelude Text.
Open Scope Z_scope.

Create HintDb smtp.

(** ** Responses *)

Inductive Action : Type := Close | UpgradeTls | NoReply | Reply.
#[export] Instance Action_eq_dec : EqDecision Action.
Proof. solve_decision. Defined.

Inductive Message : Type :=
| Fixed (s : string)
| Custom (s : string)
| Dynamic (head : string) (tail : list string)
| NoMessage.
#[export] Instance Message_eq_dec : EqDecision Message.
Proof. solve_decision. Defined.

Record Response : Type := mkResponse {
  code : Z;
  message : Message;
  is_error : bool;
  action : Action
}.
#[export] Instance Response_eq_dec : EqDecision Response.
Proof. solve_decision. Defined.

Definition action_from_code (code : Z) : Action :=
  if (code =? 221) || (code =? 421) then Close else Reply.
Definition error_code (code : Z) : bool := (code <? 200) || (400 <=? code).
Definition fixed_action (code : Z) (m : string) (a : Action) : Response :=
  mkResponse code (Fixed m) (error_code code) a.
Definition fixed (code : Z) (m : string) : Response := fixed_action code m (action_from_code code).
Definition custom (code : Z) (m : string) : Response :=
  mkResponse code (Custom m) (error_code code) (action_from_code code).
Definition dynamic (code : Z) (head : string) (tail : list string) : Response :=
  mkResponse code (Dynamic head tail) false Reply.

Definition EMPTY_RESPONSE : Response := mkResponse 0 NoMessage false NoReply.
Definition START_TLS : Response := fixed_action 220 "Ready to start TLS" UpgradeTls.
Definition GOODBYE : Response := fixed 221 "Goodbye".
Definition AUTH_OK : Response := fixed 235 "Authentication succeeded".
Definition OK : Response := fixed 250 "OK".
Definition VERIFY_RESPONSE : Response := fixed 252 "Maybe".
Definition EMPTY_AUTH_CHALLENGE : Response := fixed 334 "".
Definition USERNAME_AUTH_CHALLENGE : Response := fixed 334 "VXNlcm5hbWU6".
Definition PASSWORD_AUTH_CHALLENGE : Response := fixed 334 "UGFzc3dvcmQ6".
Definition START_DATA : Response := fixed 354 "Start mail input; end with <CRLF>.<CRLF>".
Definition INVALID_STATE : Response := fixed 421 "Internal service error, closing connection".
Definition SYNTAX_ERROR : Response := fixed 500 "Syntax error".
Definition MISSING_PARAMETER : Response := fixed 502 "Missing parameter".
Definition BAD_SEQUENCE_COMMANDS : Response := fixed 503 "Bad sequence of commands".
Definition INVALID_CREDENTIALS : Response := fixed 535 "Invalid credentials".
Definition NO_MAILBOX : Response := fixed 550 "Mailbox unavailable".
Definition BAD_HELLO : Response := fixed 550 "Bad HELO".
Definition BAD_MAILBOX : Response := fixed 553 "Mailbox name not allowed".
Definition TRANSACTION_FAILED : Response := fixed 554 "Transaction failed".

(** Carriage return and line feed. *)
Definition CR : ascii := ascii_of_nat 13.
Definition LF : ascii := ascii_of_nat 10.
Definition CRLF : string := String CR (String LF EmptyString).

Definition reply_line (code : Z) (sep text : string) : string :=
  (pretty code ++ sep ++ text ++ CRLF)%string.

(** The loop of [write_to] over the continuation lines: the last one has a blank
    after the code. *)
Fixpoint write_tail (code : Z) (tail : list string) : string :=
  match tail with
  | [] => EmptyString
  | [t] => reply_line code " " t
  | t :: tail' => (reply_line code "-" t ++ write_tail code tail')%string
  end.

(** [Response::write_to]: the bytes written. *)
Definition write_to (r : Response) : string :=
  match message r with
  | Dynamic head [] => reply_line (code r) " " head
  | Dynamic head tail => (reply_line (code r) "-" head ++ write_tail (code r) tail)%string
  | Fixed s | Custom s => reply_line (code r) " " s
  | NoMessage => EmptyString
  end.

(** ** Handlers *)

Inductive IpAddr : Type := V4 (bits : Z) | V6 (bits : Z).

Inductive AuthMechanism : Type := Plain | Login.
#[export] Instance AuthMechanism_eq_dec : EqDecision AuthMechanism.
Proof. solve_decision. Defined.

Definition extension (a : AuthMechanism) : string :=
  match a with Plain => "PLAIN" | Login => "LOGIN" end.

(** The trait [Handler]; the state of the handler is passed along.  The error of
    [data] is only logged. *)
Class Handler (H : Type) := {
  helo : H -> IpAddr -> string -> H * Response;
  mail : H -> IpAddr -> string -> string -> H * Response;
  rcpt : H -> string -> H * Response;
  data_start : H -> string -> string -> bool -> list string -> H * Response;
  data : H -> string -> H * result unit string;
  data_end : H -> H * Response;
  auth_plain : H -> string -> string -> string -> H * Response;
  auth_login : H -> string -> string -> H * Response
}.

(** ** Commands *)

Module Cmd.
Inductive t : Type :=
| Ehlo (domain : string)
| Helo (domain : string)
| Mail (reverse_path : string) (is8bit : bool)
| Rcpt (forward_path : string)
| Data
| Rset
| Noop
| StartTls
| Quit
| Vrfy
| AuthLogin (username : string)
| AuthPlain (authorization_id authentication_id password : string)
| AuthLoginEmpty
| AuthPlainEmpty
| AuthResponse (response : string)
| DataEnd
| StartedTls.
End Cmd.

Record Credentials : Type := mkCredentials {
  authorization_id : string;
  authentication_id : string;
  password : string
}.

(** ** The parser *)

(** An error of a [nom] parser. *)
Inductive NomErr : Type := Incomplete | Error | Failure.

Definition IResult (A : Type) : Type := result (string * A) NomErr.
Definition Parser (A : Type) : Type := string -> IResult A.

(** What the parser uses of [nom] 7: the byte parsers of [bytes::complete] and the
    combinators of [branch], [combinator] and [sequence].  [alt] takes its tuple of
    parsers as a list. *)
Class Nom := {
  tag : string -> Parser string;
  tag_no_case : string -> Parser string;
  is_not : string -> Parser string;
  take_while1 : (ascii -> bool) -> Parser string;
  alt : forall {A}, list (Parser A) -> Parser A;
  pair : forall {A B}, Parser A -> Parser B -> Parser (A * B);
  preceded : forall {A B}, Parser A -> Parser B -> Parser B;
  terminated : forall {A B}, Parser A -> Parser B -> Parser A;
  tuple3 : forall {A B C}, Parser A -> Parser B -> Parser C -> Parser (A * B * C);
  nmap : forall {A B}, Parser A -> (A -> B) -> Parser B;
  map_res : forall {A B}, Parser A -> (A -> option B) -> Parser B;
  opt : forall {A}, Parser A -> Parser (option A);
  value : forall {A B}, A -> Parser B -> Parser A
}.

(** The longest prefix whose bytes satisfy [p], and the rest. *)
Fixpoint span (p : ascii -> bool) (s : string) : string * string :=
  match s with
  | EmptyString => (EmptyString, EmptyString)
  | String c s' =>
      if p c then let '(l, r) := span p s' in (String c l, r) else (EmptyString, s)
  end.

(** The rest of [s] after a prefix equal to [p] up to ASCII case, with that prefix. *)
Fixpoint strip_no_case (p s : string) : option (string * string) :=
  match p, s with
  | EmptyString, _ => Some (EmptyString, s)
  | String a p', String b s' =>
      if bool_decide (lower a = lower b) then
        match strip_no_case p' s' with
        | Some (m, r) => Some (String b m, r)
        | None => None
        end
      else None
  | String _ _, EmptyString => None
  end.

Definition at_least_one (r : string * string) : IResult string :=
  match r with
  | (EmptyString, _) => Err Error
  | (m, rest) => Ok (rest, m)
  end.

(** The documented behaviour of [nom]: [tag] recognises the bytes, [tag_no_case]
    up to ASCII case, [is_not] and [take_while1] the longest non-empty run of bytes
    outside the set and inside the predicate; a parser that does not recognise its
    input is an [Error], from which [alt] goes on to the next alternative and [opt]
    recovers. *)
Class NomOk {nom : Nom} : Prop := {
  nom_tag t i : tag t i = match strip_prefix t i with Some r => Ok (r, t) | None => Err Error end;
  nom_tag_no_case t i :
    tag_no_case t i = match strip_no_case t i with Some (m, r) => Ok (r, m) | None => Err Error end;
  nom_is_not set i : is_not set i = at_least_one (span (fun c => negb (contains_byte c set)) i);
  nom_take_while1 p i : take_while1 p i = at_least_one (span p i);
  nom_alt_nil {A} i : @alt _ A [] i = Err Error;
  nom_alt_cons {A} (p : Parser A) ps i :
    alt (p :: ps) i = match p i with Err Error => alt ps i | r => r end;
  nom_pair {A B} (p : Parser A) (q : Parser B) i :
    pair p q i = (let? (i, a) := p i in let? (i, b) := q i in Ok (i, (a, b)));
  nom_preceded {A B} (p : Parser A) (q : Parser B) i :
    preceded p q i = (let? (i, _) := p i in q i);
  nom_terminated {A B} (p : Parser A) (q : Parser B) i :
    terminated p q i = (let? (i, a) := p i in let? (i, _) := q i in Ok (i, a));
  nom_tuple3 {A B C} (p : Parser A) (q : Parser B) (r : Parser C) i :
    tuple3 p q r i =
      (let? (i, a) := p i in let? (i, b) := q i in let? (i, c) := r i in Ok (i, (a, b, c)));
  nom_map {A B} (p : Parser A) (f : A -> B) i :
    nmap p f i = (let? (i, a) := p i in Ok (i, f a));
  nom_map_res {A B} (p : Parser A) (f : A -> option B) i :
    map_res p f i =
      (let? (i, a) := p i in match f a with Some b => Ok (i, b) | None => Err Error end);
  nom_opt {A} (p : Parser A) i :
    opt p i = match p i with Ok (r, a) => Ok (r, Some a) | Err Error => Ok (i, None) | Err e => Err e end;
  nom_value {A B} (a : A) (p : Parser B) i :
    value a p i = (let? (i, _) := p i in Ok (i, a))
}.

Class Base64Decode := b64_decode : string -> option string.

Section parser.
Context {nom : Nom} {b64 : Base64Decode}.

Definition space : Parser string := take_while1 (fun b => bool_decide (b = " "%char)).

Definition cmd (cmd_tag : string) : Parser (string * string) := pair (tag_no_case cmd_tag) space.

Definition next_string (fields : list string) : string * list string :=
  match fields with
  | [] => (EmptyString, [])
  | f :: fields' => (default EmptyString (from_utf8 f), fields')
  end.

Definition decode_sasl_plain (param : string) : Credentials :=
  match b64_decode param with
  | Some bytes =>
      let fields := split zero bytes in
      let '(authorization_id, fields) := next_string fields in
      let '(authentication_id, fields) := next_string fields in
      let '(password, _) := next_string fields in
      mkCredentials authorization_id authentication_id password
  | None => mkCredentials EmptyString EmptyString EmptyString
  end.

Definition decode_sasl_login (param : string) : string :=
  default EmptyString (from_utf8 (default EmptyString (b64_decode param))).

Definition sasl_plain_cmd (param : string) : Cmd.t :=
  if is_empty param then Cmd.AuthPlainEmpty
  else let creds := decode_sasl_plain param in
       Cmd.AuthPlain (authorization_id creds) (authentication_id creds) (password creds).

Definition sasl_login_cmd (param : string) : Cmd.t :=
  if is_empty param then Cmd.AuthLoginEmpty else Cmd.AuthLogin (decode_sasl_login param).

Definition TAB : ascii := ascii_of_nat 9.
Definition hello_domain : Parser string :=
  map_res (is_not (String " " (String TAB CRLF))) from_utf8.
Definition mail_path : Parser string :=
  map_res (is_not (String " " (String "<" (String ">" (String TAB CRLF))))) from_utf8.
Definition take_all : Parser string := map_res (is_not CRLF) from_utf8.

Definition p_helo : Parser Cmd.t := nmap (preceded (cmd "helo") hello_domain) Cmd.Helo.
Definition p_ehlo : Parser Cmd.t := nmap (preceded (cmd "ehlo") hello_domain) Cmd.Ehlo.

Definition has_option (name : string) (options : option string) : bool :=
  match options with
  | Some o => existsb (fun option => eq_ignore_ascii_case option name) (split_ascii_whitespace o)
  | None => false
  end.

Definition p_mail : Parser Cmd.t :=
  let preamble := pair (cmd "mail") (tag_no_case "from:<") in
  let mail_path_parser := preceded preamble mail_path in
  let options := opt (preceded space take_all) in
  map_res (tuple3 mail_path_parser (tag ">") options) (fun '(reverse_path, _, options) =>
    let smtp_utf8 := has_option "SMTPUTF8" options in
    if negb (is_ascii reverse_path) && negb smtp_utf8 then None
    else Some (Cmd.Mail reverse_path (has_option "BODY=8BITMIME" options))).

Definition p_rcpt : Parser Cmd.t :=
  let preamble := pair (cmd "rcpt") (tag_no_case "to:<") in
  nmap (terminated (preceded preamble mail_path) (tag ">")) Cmd.Rcpt.

Definition p_data : Parser Cmd.t := value Cmd.Data (tag_no_case "data").
Definition p_rset : Parser Cmd.t := value Cmd.Rset (tag_no_case "rset").
Definition p_quit : Parser Cmd.t := value Cmd.Quit (tag_no_case "quit").
Definition p_vrfy : Parser Cmd.t := value Cmd.Vrfy (preceded (cmd "vrfy") take_all).
Definition p_noop : Parser Cmd.t := value Cmd.Noop (tag_no_case "noop").
Definition p_starttls : Parser Cmd.t := value Cmd.StartTls (tag_no_case "starttls").

Definition is_base64 (c : ascii) : bool :=
  is_ascii_alphanumeric c || bool_decide (c = "+"%char) || bool_decide (c = "/"%char) || bool_decide (c = "="%char).

Definition auth_initial : Parser string := preceded space (take_while1 is_base64).
Definition auth_response : Parser string := terminated (take_while1 is_base64) (tag CRLF).
Definition empty : Parser string := fun buf => Ok (buf, EmptyString).
Definition p_auth_plain : Parser Cmd.t :=
  nmap (preceded (tag_no_case "plain") (alt [auth_initial; empty])) sasl_plain_cmd.
Definition p_auth_login : Parser Cmd.t :=
  nmap (preceded (tag_no_case "login") (alt [auth_initial; empty])) sasl_login_cmd.
Definition p_auth : Parser Cmd.t := preceded (cmd "auth") (alt [p_auth_plain; p_auth_login]).

Definition command : Parser Cmd.t :=
  terminated
    (alt [p_helo; p_ehlo; p_mail; p_rcpt; p_data; p_rset; p_quit; p_vrfy; p_noop; p_starttls; p_auth])
    (tag CRLF).

(** [parse]: a command or the response to send. *)
Definition parse (line : string) : result Cmd.t Response :=
  match command line with
  | Ok (_, c) => Ok c
  | Err Incomplete => Err MISSING_PARAMETER
  | Err _ => Err SYNTAX_ERROR
  end.

Definition parse_auth_response (line : string) : result string Response :=
  match auth_response line with Ok (_, r) => Ok r | Err _ => Err SYNTAX_ERROR end.
End parser.

(** ** The state machine *)

Inductive TlsState : Type := TlsUnavailable | Inactive | Active.
Inductive AuthState : Type := AuthUnavailable | RequiresAuth | Authenticated.
#[export] Instance TlsState_eq_dec : EqDecision TlsState.
Proof. solve_decision. Defined.
#[export] Instance AuthState_eq_dec : EqDecision AuthState.
Proof. solve_decision. Defined.

(** The implementations of the trait [State]. *)
Inductive State : Type :=
| Idle
| Hello (domain : string)
| HelloAuth (domain : string)
| Auth (domain : string) (mechanism : AuthMechanism) (username : option string)
| Mail (domain reverse_path : string) (is8bit : bool)
| Rcpt (domain reverse_path : string) (is8bit : bool) (forward_path : list string)
| Data (domain : string).

Record StateMachine : Type := mkStateMachine {
  ip : IpAddr;
  auth_mechanisms : list AuthMechanism;
  auth_state : AuthState;
  tls : TlsState;
  smtp : option State;
  sm_auth_plain : bool;
  sm_auth_login : bool;
  insecure_allow_plaintext_auth : bool
}.

Definition set_auth_state (m : StateMachine) (a : AuthState) : StateMachine :=
  mkStateMachine (ip m) (auth_mechanisms m) a (tls m) (smtp m) (sm_auth_plain m) (sm_auth_login m)
    (insecure_allow_plaintext_auth m).
Definition set_tls (m : StateMachine) (t : TlsState) : StateMachine :=
  mkStateMachine (ip m) (auth_mechanisms m) (auth_state m) t (smtp m) (sm_auth_plain m) (sm_auth_login m)
    (insecure_allow_plaintext_auth m).
Definition set_smtp (m : StateMachine) (s : option State) : StateMachine :=
  mkStateMachine (ip m) (auth_mechanisms m) (auth_state m) (tls m) s (sm_auth_plain m) (sm_auth_login m)
    (insecure_allow_plaintext_auth m).

(** [StateMachine::new]. *)
Definition new_machine (ip : IpAddr) (mechanisms : list AuthMechanism) (allow_start_tls insecure : bool) : StateMachine :=
  mkStateMachine ip mechanisms
    (match mechanisms with [] => AuthUnavailable | _ => RequiresAuth end)
    (if allow_start_tls then Inactive else TlsUnavailable)
    (Some Idle)
    (bool_decide (Plain ∈ mechanisms)) (bool_decide (Login ∈ mechanisms)) insecure.

Definition allow_auth (m : StateMachine) : bool :=
  insecure_allow_plaintext_auth m || bool_decide (tls m = Active).
Definition allow_auth_plain (m : StateMachine) : bool := sm_auth_plain m && allow_auth m.
Definition allow_auth_login (m : StateMachine) : bool := sm_auth_login m && allow_auth m.

Definition ehlo_response (m : StateMachine) : Response :=
  let extensions := ["8BITMIME"; "SMTPUTF8"] in
  let extensions := extensions ++ if bool_decide (tls m = Inactive) then ["STARTTLS"] else [] in
  let extensions :=
    extensions ++
    if allow_auth m && negb (bool_decide (auth_mechanisms m = []))
    then [foldl (fun acc auth => acc ++ " " ++ extension auth)%string "AUTH" (auth_mechanisms m)]
    else [] in
  dynamic 250 "server offers extensions:" extensions.

(** [next_state] and [transform_state]: close, stay, or move on. *)
Definition transform_state (current : State) (res : Response) (next : State) : Response * option State :=
  if bool_decide (action res = Close) then (res, None)
  else if is_error res then (res, Some current)
  else (res, Some next).

Definition unhandled (current : State) : Response * option State := (BAD_SEQUENCE_COMMANDS, Some current).

Definition handle_rset (m : StateMachine) (domain : string) : Response * option State :=
  match auth_state m with
  | AuthUnavailable => (OK, Some (Hello domain))
  | _ => (OK, Some (HelloAuth domain))
  end.

Section machine.
Context {nom : Nom} {b64 : Base64Decode} {H : Type} {ops : Handler H}.

Definition handle_helo (current : State) (m : StateMachine) (h : H) (domain : string) : H * (Response * option State) :=
  match auth_state m with
  | AuthUnavailable =>
      let '(h, res) := helo h (ip m) domain in
      (h, transform_state current res (Hello domain))
  | _ => (h, (BAD_HELLO, Some current))
  end.

Definition handle_ehlo (current : State) (m : StateMachine) (h : H) (domain : string) : H * (Response * option State) :=
  let '(h, res) := helo h (ip m) domain in
  let res := if code res =? 250 then ehlo_response m else res in
  (h, match auth_state m with
      | AuthUnavailable => transform_state current res (Hello domain)
      | RequiresAuth | Authenticated => transform_state current res (HelloAuth domain)
      end).

Definition default_handler (current : State) (m : StateMachine) (h : H) (c : Cmd.t) :
  StateMachine * H * (Response * option State) :=
  let '(h, r) :=
    match c with
    | Cmd.Quit => (h, (GOODBYE, None))
    | Cmd.Helo domain => handle_helo current m h domain
    | Cmd.Ehlo domain => handle_ehlo current m h domain
    | Cmd.Noop => (h, (OK, Some current))
    | _ => (h, unhandled current)
    end in
  (m, h, r).

Definition outcome (auth_res : Response) : AuthState :=
  if code auth_res =? 235 then Authenticated else RequiresAuth.

Definition authenticate_plain (m : StateMachine) (h : H) (authorization_id authentication_id password : string) :
  StateMachine * H * Response :=
  let '(h, auth_res) := auth_plain h authorization_id authentication_id password in
  (set_auth_state m (outcome auth_res), h, auth_res).

Definition authenticate_login (m : StateMachine) (h : H) (username password : string) : StateMachine * H * Response :=
  let '(h, auth_res) := auth_login h username password in
  (set_auth_state m (outcome auth_res), h, auth_res).

(** [handle] of [Idle], [Hello], [HelloAuth], [Auth], [Mail], [Rcpt] and [Data]. *)
Definition handle_idle (m : StateMachine) (h : H) (c : Cmd.t) : StateMachine * H * (Response * option State) :=
  match c with
  | Cmd.StartedTls => (set_tls m Active, h, (EMPTY_RESPONSE, Some Idle))
  | Cmd.Rset => (m, h, (OK, Some Idle))
  | _ => default_handler Idle m h c
  end.

Definition handle_hello (domain : string) (m : StateMachine) (h : H) (c : Cmd.t) :
  StateMachine * H * (Response * option State) :=
  let self := Hello domain in
  match c with
  | Cmd.Mail reverse_path is8bit =>
      let '(h, res) := mail h (ip m) domain reverse_path in
      (m, h, transform_state self res (Mail domain reverse_path is8bit))
  | Cmd.StartTls =>
      if bool_decide (tls m = Inactive) then (m, h, (START_TLS, Some Idle))
      else default_handler self m h c
  | Cmd.Vrfy => (m, h, (VERIFY_RESPONSE, Some self))
  | Cmd.Rset => (m, h, handle_rset m domain)
  | _ => default_handler self m h c
  end.

Definition handle_hello_auth (domain : string) (m : StateMachine) (h : H) (c : Cmd.t) :
  StateMachine * H * (Response * option State) :=
  let self := HelloAuth domain in
  match c with
  | Cmd.StartTls => (m, h, (START_TLS, Some Idle))
  | Cmd.AuthPlain authorization_id authentication_id password =>
      if allow_auth_plain m then
        let '(m, h, res) := authenticate_plain m h authorization_id authentication_id password in
        (m, h, transform_state self res (Hello domain))
      else default_handler self m h c
  | Cmd.AuthPlainEmpty =>
      if allow_auth_plain m then (m, h, (EMPTY_AUTH_CHALLENGE, Some (Auth domain Plain None)))
      else default_handler self m h c
  | Cmd.AuthLogin username =>
      if allow_auth_login m then (m, h, (PASSWORD_AUTH_CHALLENGE, Some (Auth domain Login (Some username))))
      else default_handler self m h c
  | Cmd.AuthLoginEmpty =>
      if allow_auth_login m then (m, h, (USERNAME_AUTH_CHALLENGE, Some (Auth domain Login None)))
      else default_handler self m h c
  | Cmd.Rset => (m, h, handle_rset m domain)
  | _ => default_handler self m h c
  end.

Definition handle_auth (domain : string) (mechanism : AuthMechanism) (username : option string)
    (m : StateMachine) (h : H) (c : Cmd.t) : StateMachine * H * (Response * option State) :=
  match c with
  | Cmd.AuthResponse response =>
      match mechanism with
      | Plain =>
          let creds := decode_sasl_plain response in
          let '(m, h, res) :=
            authenticate_plain m h (authorization_id creds) (authentication_id creds) (password creds) in
          (m, h, (res, Some (if is_error res then HelloAuth domain else Hello domain)))
      | Login =>
          let credential := decode_sasl_login response in
          match username with
          | Some username =>
              let '(m, h, res) := authenticate_login m h username credential in
              (m, h, (res, Some (if is_error res then HelloAuth domain else Hello domain)))
          | None => (m, h, (PASSWORD_AUTH_CHALLENGE, Some (Auth domain mechanism (Some credential))))
          end
      end
  | _ => (m, h, unhandled (Auth domain mechanism username))
  end.

Definition handle_mail (domain reverse_path : string) (is8bit : bool) (m : StateMachine) (h : H) (c : Cmd.t) :
  StateMachine * H * (Response * option State) :=
  let self := Mail domain reverse_path is8bit in
  match c with
  | Cmd.Rcpt forward_path =>
      let '(h, res) := rcpt h forward_path in
      (m, h, transform_state self res (Rcpt domain reverse_path is8bit [forward_path]))
  | Cmd.Rset => (m, h, handle_rset m domain)
  | _ => default_handler self m h c
  end.

Definition handle_rcpt (domain reverse_path : string) (is8bit : bool) (forward_path : list string)
    (m : StateMachine) (h : H) (c : Cmd.t) : StateMachine * H * (Response * option State) :=
  let self := Rcpt domain reverse_path is8bit forward_path in
  match c with
  | Cmd.Data =>
      let '(h, res) := data_start h domain reverse_path is8bit forward_path in
      let res := if is_error res then res else START_DATA in
      (m, h, transform_state self res (Data domain))
  | Cmd.Rcpt to =>
      let '(h, res) := rcpt h to in
      (m, h, transform_state self res (Rcpt domain reverse_path is8bit (forward_path ++ [to])))
  | Cmd.Rset => (m, h, handle_rset m domain)
  | _ => default_handler self m h c
  end.

Definition handle_data (domain : string) (m : StateMachine) (h : H) (c : Cmd.t) :
  StateMachine * H * (Response * option State) :=
  match c with
  | Cmd.DataEnd =>
      let '(h, res) := data_end h in
      (m, h, transform_state (Data domain) res (Hello domain))
  | _ => (m, h, unhandled (Data domain))
  end.

Definition handle (s : State) (m : StateMachine) (h : H) (c : Cmd.t) : StateMachine * H * (Response * option State) :=
  match s with
  | Idle => handle_idle m h c
  | Hello domain => handle_hello domain m h c
  | HelloAuth domain => handle_hello_auth domain m h c
  | Auth domain mechanism username => handle_auth domain mechanism username m h c
  | Mail domain reverse_path is8bit => handle_mail domain reverse_path is8bit m h c
  | Rcpt domain reverse_path is8bit forward_path => handle_rcpt domain reverse_path is8bit forward_path m h c
  | Data domain => handle_data domain m h c
  end.

(** [StateMachine::command]. *)
Definition machine_command (m : StateMachine) (h : H) (c : Cmd.t) : StateMachine * H * Response :=
  let '(m, h, (response, next)) :=
    match smtp m with
    | Some last_state => handle last_state (set_smtp m None) h c
    | None => (m, h, (INVALID_STATE, None))
    end in
  (set_smtp m next, h, response).

(** [State::process_line]: the lines of a message in [Data], a response in [Auth],
    a command elsewhere. *)
Definition process_line (m : StateMachine) (h : H) (line : string) : H * (Cmd.t + Response) :=
  match smtp m with
  | Some (Data _) =>
      if bool_decide (line = String "." CRLF) then (h, inl Cmd.DataEnd)
      else
        let line := if starts_with "." line then sdrop 1 line else line in
        let '(h, saved) := data h line in
        (h, inr (match saved with Ok _ => EMPTY_RESPONSE | Err _ => TRANSACTION_FAILED end))
  | Some (Auth _ _ _) =>
      (h, match parse_auth_response line with Ok r => inl (Cmd.AuthResponse r) | Err res => inr res end)
  | Some _ => (h, match parse line with Ok c => inl c | Err res => inr res end)
  | None => (h, inr INVALID_STATE)
  end.

(** ** Sessions *)

Record Session : Type := mkSession {
  name : string;
  handler : H;
  fsm : StateMachine
}.

Definition session_command (s : Session) (c : Cmd.t) : Session * Response :=
  let '(m, h, res) := machine_command (fsm s) (handler s) c in
  (mkSession (name s) h m, res).

Definition greeting (s : Session) : Response := dynamic 220 (name s ++ " ESMTP")%string [].

Definition tls_active (s : Session) : Session := (session_command s Cmd.StartedTls).1.

(** [Session::process]. *)
Definition process (s : Session) (line : string) : Session * Response :=
  let '(h, r) := process_line (fsm s) (handler s) line in
  let s := mkSession (name s) h (fsm s) in
  match r with
  | inl c => session_command s c
  | inr res => (s, res)
  end.

Inductive SessionResult : Type := Finished | UpgradedTls.
Inductive SmtpError : Type := SmtpFailed | UnexpectedEof | CannotUpgrade.

(** The loop of [handle_session] over the lines read; the bytes written are
    returned with the session and the outcome. *)
Fixpoint handle_lines (s : Session) (lines : list string) : Session * string * result SessionResult SmtpError :=
  match lines with
  | [] => (s, EmptyString, Err UnexpectedEof)
  | line :: lines' =>
      let '(s, res) := process s line in
      match action res with
      | Reply => let '(s, out, r) := handle_lines s lines' in (s, (write_to res ++ out)%string, r)
      | Close => (s, write_to res, if is_error res then Err SmtpFailed else Ok Finished)
      | UpgradeTls => (s, write_to res, Ok UpgradedTls)
      | NoReply => handle_lines s lines'
      end
  end.
End machine.
Arguments Session : clear implicits.

(** [BufRead::read_until(b'\n')]: the bytes up to the first line feed, included, and
    the rest. *)
Fixpoint read_until (s : string) : string * string :=
  match s with
  | EmptyString => (EmptyString, EmptyString)
  | String c s' =>
      if bool_decide (c = LF) then (String c EmptyString, s')
      else let '(l, r) := read_until s' in (String c l, r)
  end.

(** The successive lines [read_until] gives, up to the end of the stream. *)
Fixpoint stream_lines (s : string) : list string :=
  match s with
  | EmptyString => []
  | String c s' =>
      if bool_decide (c = LF) then String c EmptyString :: stream_lines s'
      else match stream_lines s' with
           | [] => [String c EmptyString]
           | l :: ls => String c l :: ls
           end
  end.

Section connection.
Context {nom : Nom} {b64 : Base64Decode} {H : Type} {ops : Handler H}.

Definition handle_session (s : Session H) (stream : string) : Session H * string * result SessionResult SmtpError :=
  handle_lines s (stream_lines stream).

(** [SessionBuilder::build]. *)
Definition build (server_name : string) (mechanisms : list AuthMechanism) (start_tls insecure : bool)
    (remote : IpAddr) (h : H) : Session H :=
  mkSession server_name h (new_machine remote mechanisms start_tls insecure).

(** [start_session]: [plain] is what the client sends on the socket and [secure]
    what it sends inside TLS, or nothing when the handshake fails. *)
Definition start_session (s : Session H) (plain : string) (secure : option string) :
  Session H * string * result unit SmtpError :=
  let '(s, out, r) := handle_session s plain in
  let out := (write_to (greeting s) ++ out)%string in
  match r with
  | Err e => (s, out, Err e)
  | Ok Finished => (s, out, Ok tt)
  | Ok UpgradedTls =>
      match secure with
      | None => (s, out, Err CannotUpgrade)
      | Some stream =>
          let s := tls_active s in
          let '(s, out', r) := handle_session s stream in
          (s, (out ++ out')%string, match r with Ok _ => Ok tt | Err e => Err e end)
      end
  end.
End connection.

(** ** Invariants of a handler

    What every method of a handler keeps holds of it after any session. *)

Class Keeps {H : Type} {ops : Handler H} (I : H -> Prop) : Prop := {
  keeps_helo h i d : I h -> I (helo h i d).1;
  keeps_mail h i d f : I h -> I (mail h i d f).1;
  keeps_rcpt h to : I h -> I (rcpt h to).1;
  keeps_data_start h d f b to : I h -> I (data_start h d f b to).1;
  keeps_data h buf : I h -> I (data h buf).1;
  keeps_data_end h : I h -> I (data_end h).1;
  keeps_auth_plain h a b c : I h -> I (auth_plain h a b c).1;
  keeps_auth_login h u p : I h -> I (auth_login h u p).1
}.

Section handler_invariant.
Context {nom : Nom} {b64 : Base64Decode} {H : Type} {ops : Handler H} (I : H -> Prop) {kept : Keeps I}.

Ltac keep := match goal with
  | Hi : I ?h |- context [helo ?h ?i ?d] => pose proof (keeps_helo h i d Hi); destruct (helo h i d)
  | Hi : I ?h |- context [mail ?h ?i ?d ?f] => pose proof (keeps_mail h i d f Hi); destruct (mail h i d f)
  | Hi : I ?h |- context [rcpt ?h ?to] => pose proof (keeps_rcpt h to Hi); destruct (rcpt h to)
  | Hi : I ?h |- context [data_start ?h ?d ?f ?b ?to] => pose proof (keeps_data_start h d f b to Hi); destruct (data_start h d f b to)
  | Hi : I ?h |- context [data_end ?h] => pose proof (keeps_data_end h Hi); destruct (data_end h)
  | Hi : I ?h |- context [auth_plain ?h ?a ?b ?c] => pose proof (keeps_auth_plain h a b c Hi); destruct (auth_plain h a b c)
  | Hi : I ?h |- context [auth_login ?h ?u ?p] => pose proof (keeps_auth_login h u p Hi); destruct (auth_login h u p)
  end.

Lemma default_keeps cur m h c : I h -> I (default_handler cur m h c).1.2.
Proof. intros Hi. unfold default_handler, handle_helo, handle_ehlo. destruct c, (auth_state m); repeat keep; done. Qed.

Lemma handle_keeps s m h c : I h -> I (handle s m h c).1.2.
Proof.
  intros Hi. pose proof (fun cur => default_keeps cur m h c Hi) as Hd.
  destruct s as [|?|?|? [] [?|]|? ? ?|? ? ? ?|?], c; try (apply Hd); try exact Hi; cbn in *; unfold authenticate_plain, authenticate_login;
    repeat keep; repeat case_match; try done; try apply Hd; simplify_eq; done.
Qed.

Lemma command_keeps s c : I (handler s) -> I (handler (session_command s c).1).
Proof.
  intros Hi. unfold session_command, machine_command. destruct (smtp (fsm s)) as [st|]; [|done].
  pose proof (handle_keeps st (set_smtp (fsm s) None) (handler s) c Hi) as Hh.
  by destruct (handle st _ _ c) as [[m h] [r n]].
Qed.

Lemma process_keeps s line : I (handler s) -> I (handler (process s line).1).
Proof.
  intros Hi. unfold process. assert (Hl : I (process_line (fsm s) (handler s) line).1).
  { unfold process_line. destruct (smtp (fsm s)) as [[]|]; try done. case_match; [done|].
    pose proof (fun buf => keeps_data _ buf Hi) as Hd. destruct (data (handler s) _) as [h []] eqn:E; cbn;
      specialize (Hd (if starts_with "." line then sdrop 1 line else line)); by rewrite E in Hd. }
  destruct (process_line (fsm s) (handler s) line) as [h [c|r]]; [|done]. by apply command_keeps.
Qed.

Lemma lines_keep lines s : I (handler s) -> I (handler (handle_lines s lines).1.1).
Proof.
  revert s. induction lines as [|line lines IH]; intros s Hi; [done|]. cbn [handle_lines].
  apply (process_keeps s line) in Hi. destruct (process s line) as [s' res].
  pose proof (IH s' Hi) as Hl. destruct (handle_lines s' lines) as [[s'' out] r]. by destruct (action res).
Qed.

Lemma session_keeps s plain secure : I (handler s) -> I (handler (start_session s plain secure).1.1).
Proof.
  intros Hi. unfold start_session, handle_session. apply (lines_keep (stream_lines plain)) in Hi.
  destruct (handle_lines s (stream_lines plain)) as [[s' out] [[]|e]]; cbn in *; try done.
  destruct secure as [stream|]; [|done]. apply (command_keeps s' Cmd.StartedTls) in Hi. apply (lines_keep (stream_lines stream)) in Hi.
  unfold tls_active. by destruct (handle_lines (session_command s' Cmd.StartedTls).1 (stream_lines stream)) as [[s'' out'] []].
Qed.
End handler_invariant.

(** ** The calls of a session

    A handler that writes down every call made to it, with the answer. *)

Inductive Call : Type :=
| CHelo (from : IpAddr) (domain : string) (r : Response)
| CMail (from : IpAddr) (domain reverse_path : string) (r : Response)
| CRcpt (forward_path : string) (r : Response)
| CDataStart (domain reverse_path : string) (is8bit : bool) (to : list string) (r : Response)
| CData (buf : string)
| CDataEnd (r : Response)
| CAuthPlain (authorization_id authentication_id password : string) (r : Response)
| CAuthLogin (username password : string) (r : Response).

Notation Logged H := (H * list Call)%type.

Definition logging {H R} (log : list Call) (call : R -> Call) (r : H * R) : Logged H * R :=
  ((r.1, log ++ [call r.2]), r.2).

#[export] Instance logged {H} `{Handler H} : Handler (Logged H) := {
  helo '(h, log) ip d := logging log (CHelo ip d) (helo h ip d);
  mail '(h, log) ip d f := logging log (CMail ip d f) (mail h ip d f);
  rcpt '(h, log) to := logging log (CRcpt to) (rcpt h to);
  data_start '(h, log) d f b to := logging log (CDataStart d f b to) (data_start h d f b to);
  data '(h, log) buf := logging log (fun _ => CData buf) (data h buf);
  data_end '(h, log) := logging log CDataEnd (data_end h);
  auth_plain '(h, log) a b c := logging log (CAuthPlain a b c) (auth_plain h a b c);
  auth_login '(h, log) u p := logging log (CAuthLogin u p) (auth_login h u p)
}.

(** What the constructors of [Response] guarantee of the public fields. *)
Definition well_formed (r : Response) : Prop :=
  is_error r = error_code (code r) /\ action r = action_from_code (code r).

(** A handler answers with such responses, and reports a successful
    authentication with code 235 and no other. *)
Class HandlerOk (H : Type) {ops : Handler H} : Prop := {
  helo_ok h i d : well_formed (helo h i d).2;
  auth_plain_ok h a b c : is_error (auth_plain h a b c).2 = false -> code (auth_plain h a b c).2 = 235;
  auth_login_ok h u p : is_error (auth_login h u p).2 = false -> code (auth_login h u p).2 = 235
}.

(** ** The mail transaction

    The order in which a handler is called, as an automaton over its log: the
    client's name, then a sender, then recipients, then the lines of a message. *)

Inductive Phase : Type :=
| NoMail
| Transaction (reverse_path : string) (to : list string)
| Receiving.

Record Track : Type := mkTrack {
  t_domain : option string;
  t_phase : Phase;
  t_authed : bool
}.

Definition accepted (r : Response) : bool := negb (is_error r) && negb (bool_decide (action r = Close)).

Definition track1 (t : Track) (c : Call) : Track :=
  match c with
  | CHelo _ d r => if accepted r then mkTrack (Some d) NoMail false else t
  | CMail _ _ f r => if accepted r then mkTrack (t_domain t) (Transaction f []) (t_authed t) else t
  | CRcpt to r =>
      match t_phase t with
      | Transaction f tos =>
          if accepted r then mkTrack (t_domain t) (Transaction f (tos ++ [to])) (t_authed t) else t
      | _ => t
      end
  | CDataStart _ _ _ _ r => if is_error r then t else mkTrack (t_domain t) Receiving (t_authed t)
  | CData _ => t
  | CDataEnd r => if accepted r then mkTrack (t_domain t) NoMail (t_authed t) else t
  | CAuthPlain _ _ _ r | CAuthLogin _ _ r => mkTrack (t_domain t) (t_phase t) (code r =? 235)
  end.

Definition receiving (t : Track) : bool := match t_phase t with Receiving => true | _ => false end.

(** A call is in order: the name of the client is the one it gave, a sender is
    taken only from a client that is authenticated where that is required, and the
    message starts with the sender and the recipients accepted for it, all of them
    and in order. *)
Definition legal (need_auth : bool) (t : Track) (c : Call) : bool :=
  match c with
  | CHelo _ _ _ => negb (receiving t)
  | CMail _ d _ _ => bool_decide (t_domain t = Some d) && negb (receiving t) && (negb need_auth || t_authed t)
  | CRcpt _ _ => match t_phase t with Transaction _ _ => true | _ => false end
  | CDataStart d f _ to _ =>
      bool_decide (t_domain t = Some d)
      && match t_phase t with
         | Transaction f' to' => bool_decide (f = f') && bool_decide (to = to') && negb (bool_decide (to = []))
         | _ => false
         end
  | CData _ | CDataEnd _ => receiving t
  | CAuthPlain _ _ _ _ | CAuthLogin _ _ _ => need_auth && negb (receiving t)
  end.

Definition track (log : list Call) : Track := foldl track1 (mkTrack None NoMail false) log.

Fixpoint conforms_from (need_auth : bool) (t : Track) (log : list Call) : bool :=
  match log with
  | [] => true
  | c :: log' => legal need_auth t c && conforms_from need_auth (track1 t c) log'
  end.
Definition conforms (need_auth : bool) (log : list Call) : bool :=
  conforms_from need_auth (mkTrack None NoMail false) log.
Arguments track : simpl never.
Arguments conforms : simpl never.

Lemma conforms_from_snoc need t log c :
  conforms_from need t (log ++ [c]) = conforms_from need t log && legal need (foldl track1 t log) c.
Proof.
  revert t; induction log as [|c' log IH]; intros t; cbn; [by rewrite andb_true_r|].
  by rewrite IH, andb_assoc.
Qed.

Lemma conforms_snoc need log c : conforms need (log ++ [c]) = conforms need log && legal need (track log) c.
Proof. apply conforms_from_snoc. Qed.

Lemma track_snoc log c : track (log ++ [c]) = track1 (track log) c.
Proof. unfold track. by rewrite foldl_app. Qed.

(** Whether the mechanisms of a machine ask for authentication. *)
Definition needs_auth (mechanisms : list AuthMechanism) : bool := negb (bool_decide (mechanisms = [])).

(** How the state of the machine stands to the transaction the log describes. *)
Definition state_rel (need : bool) (t : Track) (s : option State) : Prop :=
  match s with
  | None => True
  | Some Idle => receiving t = false
  | Some (Hello d) => t_domain t = Some d /\ receiving t = false /\ (need = true -> t_authed t = true)
  | Some (HelloAuth d) | Some (Auth d _ _) => t_domain t = Some d /\ receiving t = false /\ need = true
  | Some (Mail d f _) =>
      t_domain t = Some d /\ t_phase t = Transaction f [] /\ (need = true -> t_authed t = true)
  | Some (Rcpt d f _ to) =>
      t_domain t = Some d /\ t_phase t = Transaction f to /\ to <> [] /\ (need = true -> t_authed t = true)
  | Some (Data d) => t_domain t = Some d /\ t_phase t = Receiving /\ (need = true -> t_authed t = true)
  end.

(** The configuration of a machine is consistent. *)
Definition config_ok (need : bool) (m : StateMachine) : Prop :=
  needs_auth (auth_mechanisms m) = need /\
  (auth_state m = AuthUnavailable <-> need = false) /\
  (sm_auth_plain m = true -> need = true) /\
  (sm_auth_login m = true -> need = true).

Definition conn_ok {H} (need : bool) (m : StateMachine) (h : Logged H) : Prop :=
  config_ok need m /\ conforms need h.2 = true /\ state_rel need (track h.2) (smtp m).

Section conformance.
Context {nom : Nom} {b64 : Base64Decode} {H : Type} {ops : Handler H} {okh : HandlerOk H}.
Implicit Types (m : StateMachine) (h : Logged H).

(** What one command may do to a connection in order. *)
Definition preserved (need : bool) (r : StateMachine * Logged H * (Response * option State)) : Prop :=
  let '(m, h, (_, s)) := r in conn_ok need (set_smtp m s) h.

Lemma accepted_code r : well_formed r -> code r = 250 -> accepted r = true.
Proof. intros [He Ha] Hc. unfold accepted. by rewrite He, Ha, Hc. Qed.

Lemma transform_cases cur r next :
  (transform_state cur r next = (r, Some next) /\ accepted r = true) \/
  (transform_state cur r next = (r, Some cur) /\ accepted r = false) \/
  (transform_state cur r next = (r, None) /\ accepted r = false).
Proof.
  unfold transform_state, accepted. case_bool_decide; [right; right; split; [done|]; by rewrite andb_false_r|].
  destruct (is_error r); [right; left | left]; done.
Qed.

Lemma call_ok need m (x : H) log c s :
  config_ok need m -> conforms need log = true -> legal need (track log) c = true ->
  state_rel need (track1 (track log) c) s -> conn_ok need (set_smtp m s) (x, log ++ [c]).
Proof.
  intros Hm Hlog Hc Hs. split; [exact Hm|]. cbn [snd]. rewrite conforms_snoc, track_snoc, Hlog, Hc. done.
Qed.

Lemma move_ok need m h s : conn_ok need m h -> state_rel need (track h.2) s -> conn_ok need (set_smtp m s) h.
Proof. by intros (Hm & Hlog & _) Hs. Qed.

(** [HELO] and [EHLO] from any state outside a message. *)
Lemma helo_response_ok need m (x : H) log cur next d i r res :
  conn_ok need m (x, log) -> receiving (track log) = false ->
  state_rel need (track log) (Some cur) ->
  state_rel need (mkTrack (Some d) NoMail false) (Some next) ->
  accepted res = accepted r ->
  conn_ok need (set_smtp m (transform_state cur res next).2) (x, log ++ [CHelo i d r]).
Proof.
  intros (Hm & Hlog & _) Hrecv Hcur Hnext Hres.
  destruct (transform_cases cur res next) as [[-> Ha]|[[-> Ha]|[-> Ha]]]; cbn [snd];
    (apply call_ok; [done | done | cbn; by rewrite Hrecv |]); cbn [track1]; rewrite <- Hres, Ha; done.
Qed.

Lemma helo_ok_state need m h cur d :
  conn_ok need m h -> receiving (track h.2) = false -> state_rel need (track h.2) (Some cur) ->
  conn_ok need (set_smtp m (handle_helo cur m h d).2.2) (handle_helo cur m h d).1.
Proof.
  destruct h as [x log]. intros Hc Hr Hs. pose proof Hc as (Hm & _ & _). destruct Hm as (Hn & Hst & _).
  unfold handle_helo. destruct (auth_state m) eqn:E; [|by apply move_ok..].
  cbn. destruct (helo x (ip m) d) as [x' r]; cbn.
  apply (helo_response_ok need m x' log cur (Hello d) d (ip m) r r); [by destruct Hc | done | done | | done].
  cbn. split_and!; [done | done |]. intros ->. by destruct Hst as [Hst _]; specialize (Hst eq_refl).
Qed.

Lemma ehlo_ok_state need m h cur d :
  conn_ok need m h -> receiving (track h.2) = false -> state_rel need (track h.2) (Some cur) ->
  conn_ok need (set_smtp m (handle_ehlo cur m h d).2.2) (handle_ehlo cur m h d).1.
Proof.
  destruct h as [x log]. intros Hc Hr Hs. pose proof Hc as (Hm & _ & _). destruct Hm as (Hn & Hst & _).
  unfold handle_ehlo. cbn. pose proof (helo_ok x (ip m) d) as Hwf.
  destruct (helo x (ip m) d) as [x' r]; cbn in *.
  assert (Hacc : accepted (if code r =? 250 then ehlo_response m else r) = accepted r).
  { destruct (Z.eqb_spec (code r) 250) as [E|E]; [by rewrite (accepted_code r) | done]. }
  destruct (auth_state m) eqn:E;
    (eapply helo_response_ok; [by destruct Hc | done | done | | exact Hacc]); cbn; split_and!; try done.
  - intros ->. by destruct Hst as [Hst _]; specialize (Hst eq_refl).
  - destruct need; [done|]. by destruct Hst as [_ Hst]; specialize (Hst eq_refl).
  - destruct need; [done|]. by destruct Hst as [_ Hst]; specialize (Hst eq_refl).
Qed.

Lemma default_ok need m h cur c :
  conn_ok need m h -> receiving (track h.2) = false -> state_rel need (track h.2) (Some cur) ->
  preserved need (default_handler cur m h c).
Proof.
  intros Hc Hr Hs. unfold default_handler, preserved.
  destruct c; try (by apply move_ok).
  - pose proof (ehlo_ok_state need m h cur domain Hc Hr Hs). by destruct (handle_ehlo cur m h domain) as [h' [res s]].
  - pose proof (helo_ok_state need m h cur domain Hc Hr Hs). by destruct (handle_helo cur m h domain) as [h' [res s]].
Qed.

Lemma rset_ok need m h d :
  conn_ok need m h -> t_domain (track h.2) = Some d -> receiving (track h.2) = false ->
  conn_ok need (set_smtp m (handle_rset m d).2) h.
Proof.
  intros Hc Hd Hr. pose proof Hc as ((Hn & Hst & _) & _ & _). unfold handle_rset.
  destruct (auth_state m) eqn:E; cbn [snd]; apply move_ok; try done; cbn; split_and!; try done.
  - intros ->. by destruct Hst as [Hst _]; specialize (Hst eq_refl).
  - destruct need; [done|]. by destruct Hst as [_ Hst]; specialize (Hst eq_refl).
  - destruct need; [done|]. by destruct Hst as [_ Hst]; specialize (Hst eq_refl).
Qed.

(** A call whose answer moves the machine on, keeps it or closes it. *)
Lemma transform_ok need m (x : H) log c cur next r :
  config_ok need m -> conforms need log = true -> legal need (track log) c = true ->
  (accepted r = true -> state_rel need (track1 (track log) c) (Some next)) ->
  (accepted r = false -> state_rel need (track1 (track log) c) (Some cur)) ->
  conn_ok need (set_smtp m (transform_state cur r next).2) (x, log ++ [c]).
Proof.
  intros Hm Hlog Hc Hnext Hcur.
  destruct (transform_cases cur r next) as [[-> Ha]|[[-> Ha]|[-> Ha]]]; cbn [snd]; apply call_ok; try done; auto.
Qed.

Lemma idle_ok need m h c :
  conn_ok need m h -> state_rel need (track h.2) (Some Idle) -> preserved need (handle_idle m h c).
Proof.
  intros Hc Hrel. pose proof Hc as (Hm & Hlog & _). cbn in Hrel.
  destruct c; cbn [handle_idle]; try (by apply default_ok); by apply move_ok.
Qed.

Lemma hello_ok need m h d c :
  conn_ok need m h -> state_rel need (track h.2) (Some (Hello d)) -> preserved need (handle_hello d m h c).
Proof.
  intros Hc Hrel. pose proof Hc as (Hm & Hlog & _). destruct Hrel as (Hd & Hr & Ha).
  destruct c; cbn [handle_hello]; try (by apply default_ok).
  - destruct h as [x log]; cbn in *. destruct (mail x (ip m) d reverse_path) as [x' r]; cbn.
    unfold preserved. destruct (transform_state _ _ _) as [r' s'] eqn:E.
    replace s' with (transform_state (Hello d) r (Mail d reverse_path is8bit)).2 by by rewrite E.
    apply transform_ok; try done; cbn [legal track1].
    + rewrite bool_decide_true by done. rewrite Hr. destruct need; [by rewrite Ha | done].
    + by intros ->.
    + by intros ->.
  - unfold preserved. pose proof (rset_ok need m h d Hc Hd Hr). by destruct (handle_rset m d).
  - case_bool_decide; [by apply move_ok | by apply default_ok].
  - by apply move_ok.
Qed.

Lemma auth_call_ok need m (x : H) log c r d :
  config_ok need m -> conforms need log = true -> need = true ->
  t_domain (track log) = Some d -> receiving (track log) = false ->
  legal need (track log) c = true ->
  track1 (track log) c = mkTrack (t_domain (track log)) (t_phase (track log)) (code r =? 235) ->
  (is_error r = false -> code r = 235) ->
  conn_ok need (set_smtp (set_auth_state m (outcome r)) (Some (if is_error r then HelloAuth d else Hello d))) (x, log ++ [c]) /\
  conn_ok need (set_smtp (set_auth_state m (outcome r)) (transform_state (HelloAuth d) r (Hello d)).2) (x, log ++ [c]).
Proof.
  intros (Hn & Hst & Hp & Hl) Hlog -> Hd Hr Hc Ht Hcode.
  assert (Hm' : config_ok true (set_auth_state m (outcome r))).
  { split_and!; try done. unfold outcome; cbn. by destruct (code r =? 235). }
  assert (Hrel : forall b : bool, (b = true -> code r = 235) ->
    state_rel true (track1 (track log) c) (Some (if b then Hello d else HelloAuth d))).
  { intros [] Hb; rewrite Ht; cbn; split_and!; try done. intros _. by rewrite Hb. }
  split.
  - apply call_ok; try done. destruct (is_error r); [by apply (Hrel false) | apply (Hrel true); auto].
  - apply transform_ok; try done; [intros Ha; apply (Hrel true) | intros _; by apply (Hrel false)].
    intros _. apply Hcode. unfold accepted in Ha. by destruct (is_error r).
Qed.

Lemma hello_auth_ok need m h d c :
  conn_ok need m h -> state_rel need (track h.2) (Some (HelloAuth d)) -> preserved need (handle_hello_auth d m h c).
Proof.
  intros Hc Hrel. pose proof Hc as (Hm & Hlog & _). destruct Hrel as (Hd & Hr & Hn).
  destruct c; cbn [handle_hello_auth]; try (by apply default_ok);
    try (destruct (allow_auth_plain m); [|by apply default_ok]);
    try (destruct (allow_auth_login m); [|by apply default_ok]); try (by apply move_ok).
  - unfold preserved. pose proof (rset_ok need m h d Hc Hd Hr). by destruct (handle_rset m d).
  - destruct h as [x log]; cbn in *. unfold authenticate_plain; cbn.
    pose proof (auth_plain_ok x authorization_id0 authentication_id0 password0) as Hcode.
    destruct (auth_plain x authorization_id0 authentication_id0 password0) as [x' r]; cbn in *.
    unfold preserved. destruct (transform_state _ _ _) as [r' s'] eqn:E.
    replace s' with (transform_state (HelloAuth d) r (Hello d)).2 by by rewrite E.
    apply auth_call_ok; try done. cbn. by rewrite Hn, Hr.
Qed.

Lemma auth_ok need m h d mech user c :
  conn_ok need m h -> state_rel need (track h.2) (Some (Auth d mech user)) -> preserved need (handle_auth d mech user m h c).
Proof.
  intros Hc Hrel. pose proof Hc as (Hm & Hlog & _). destruct Hrel as (Hd & Hr & Hn).
  destruct c; cbn [handle_auth]; try (by apply move_ok). destruct mech; [|destruct user as [user|]].
  - destruct h as [x log]; cbn in *. unfold authenticate_plain; cbn.
    match goal with |- context [auth_plain x ?a ?b ?c] =>
      pose proof (auth_plain_ok x a b c) as Hcode; destruct (auth_plain x a b c) as [x' r] end; cbn in *.
    apply auth_call_ok; try done. cbn. by rewrite Hn, Hr.
  - destruct h as [x log]; cbn in *. unfold authenticate_login; cbn.
    match goal with |- context [auth_login x ?a ?b] =>
      pose proof (auth_login_ok x a b) as Hcode; destruct (auth_login x a b) as [x' r] end; cbn in *.
    apply auth_call_ok; try done. cbn. by rewrite Hn, Hr.
  - by apply move_ok.
Qed.

Lemma mail_ok need m h d f b c :
  conn_ok need m h -> state_rel need (track h.2) (Some (Mail d f b)) -> preserved need (handle_mail d f b m h c).
Proof.
  intros Hc Hrel. pose proof Hc as (Hm & Hlog & _).
  pose proof Hrel as (Hd & Hp & Ha).
  assert (Hr : receiving (track h.2) = false) by (unfold receiving; by rewrite Hp).
  destruct c; cbn [handle_mail]; try (by apply default_ok).
  - destruct h as [x log]; cbn in *. destruct (rcpt x forward_path) as [x' r]; cbn.
    unfold preserved. destruct (transform_state _ _ _) as [r' s'] eqn:E.
    replace s' with (transform_state (Mail d f b) r (Rcpt d f b [forward_path])).2 by by rewrite E.
    apply transform_ok; try done; cbn [legal track1]; rewrite Hp; [done | by intros -> | by intros ->].
  - unfold preserved. pose proof (rset_ok need m h d Hc Hd Hr). by destruct (handle_rset m d).
Qed.

Lemma rcpt_ok need m h d f b to c :
  conn_ok need m h -> state_rel need (track h.2) (Some (Rcpt d f b to)) -> preserved need (handle_rcpt d f b to m h c).
Proof.
  intros Hc Hrel. pose proof Hc as (Hm & Hlog & _).
  pose proof Hrel as (Hd & Hp & Hto & Ha).
  assert (Hr : receiving (track h.2) = false) by (unfold receiving; by rewrite Hp).
  destruct c; cbn [handle_rcpt]; try (by apply default_ok).
  - destruct h as [x log]; cbn in *. destruct (rcpt x forward_path) as [x' r]; cbn.
    unfold preserved. destruct (transform_state _ _ _) as [r' s'] eqn:E.
    replace s' with (transform_state (Rcpt d f b to) r (Rcpt d f b (to ++ [forward_path]))).2 by by rewrite E.
    apply transform_ok; try done; cbn [legal track1]; rewrite Hp; [done | | by intros ->].
    intros ->. cbn. split_and!; try done. by destruct to.
  - destruct h as [x log]; cbn in *. destruct (data_start x d f b to) as [x' r]; cbn.
    assert (Hl : legal need (track log) (CDataStart d f b to r) = true).
    { cbn [legal]. rewrite Hd, Hp. rewrite (bool_decide_true (Some d = Some d)), (bool_decide_true (f = f)), (bool_decide_true (to = to)), (bool_decide_false (to = [])) by done. done. }
    unfold preserved. destruct (transform_state _ _ _) as [r' s'] eqn:E. destruct (is_error r) eqn:Er.
    + assert (Hacc : accepted r = false) by (unfold accepted; by rewrite Er).
      replace s' with (transform_state (Rcpt d f b to) r (Data d)).2 by by rewrite E.
      apply transform_ok; try done; rewrite Hacc; [done|]. intros _. cbn [track1]. by rewrite Er.
    + injection E as <- <-. apply call_ok; try done. cbn [track1]. by rewrite Er.
  - unfold preserved. pose proof (rset_ok need m h d Hc Hd Hr). by destruct (handle_rset m d).
Qed.

Lemma data_ok need m h d c :
  conn_ok need m h -> state_rel need (track h.2) (Some (Data d)) -> preserved need (handle_data d m h c).
Proof.
  intros Hc Hrel. pose proof Hc as (Hm & Hlog & _). pose proof Hrel as (Hd & Hp & Ha).
  destruct c; cbn [handle_data]; try (by apply move_ok).
  destruct h as [x log]; cbn in *. destruct (data_end x) as [x' r]; cbn.
  unfold preserved. destruct (transform_state _ _ _) as [r' s'] eqn:E.
  replace s' with (transform_state (Data d) r (Hello d)).2 by by rewrite E.
  apply transform_ok; try done; cbn [legal track1]; [unfold receiving; by rewrite Hp | by intros -> | by intros ->].
Qed.

Lemma handle_ok need m h s c :
  conn_ok need m h -> state_rel need (track h.2) (Some s) -> preserved need (handle s m h c).
Proof.
  destruct s; cbn [handle]; eauto using idle_ok, hello_ok, hello_auth_ok, auth_ok, mail_ok, rcpt_ok, data_ok.
Qed.

Lemma command_ok need m h c :
  conn_ok need m h ->
  let '(m', h', _) := machine_command m h c in conn_ok need m' h'.
Proof.
  intros (Hm & Hlog & Hrel). unfold machine_command. destruct (smtp m) as [s|] eqn:Es.
  - pose proof (handle_ok need (set_smtp m None) h s c (conj Hm (conj Hlog I)) Hrel) as Hp.
    destruct (handle s (set_smtp m None) h c) as [[m' h'] [res next]]. exact Hp.
  - done.
Qed.

Lemma process_ok need (s : Session (Logged H)) line :
  conn_ok need (fsm s) (handler s) ->
  conn_ok need (fsm (process s line).1) (handler (process s line).1).
Proof.
  intros Hc. unfold process.
  assert (Hcmd : forall c, conn_ok need (fsm (session_command s c).1) (handler (session_command s c).1)).
  { intros c. unfold session_command. pose proof (command_ok need (fsm s) (handler s) c Hc) as Hp.
    by destruct (machine_command (fsm s) (handler s) c) as [[m' h'] res]. }
  destruct s as [nm h m]; cbn in *. unfold process_line.
  destruct (smtp m) as [[]|] eqn:Es; cbn; try exact Hc;
    try (by destruct (parse line); [apply Hcmd | exact Hc]);
    try (by destruct (parse_auth_response line); [apply Hcmd | exact Hc]).
  case_bool_decide; [apply Hcmd|].
  pose proof Hc as (Hm & Hlog & Hrel). rewrite Es in Hrel. destruct Hrel as (Hd & Hp & Ha).
  destruct h as [x log]; cbn in *. destruct (data x _) as [x' r]; cbn.
  assert (Hl : legal need (track log) (CData (if starts_with "." line then sdrop 1 line else line)) = true).
  { cbn. unfold receiving. by rewrite Hp. }
  destruct (call_ok need m x' log _ (Some (Data domain)) Hm Hlog Hl) as (Hm' & Hlog' & Hrel').
  { cbn [track1]. done. }
  split_and!; [done | exact Hlog' | by rewrite Es].
Qed.

Lemma lines_ok need lines (s : Session (Logged H)) :
  conn_ok need (fsm s) (handler s) ->
  conn_ok need (fsm (handle_lines s lines).1.1) (handler (handle_lines s lines).1.1).
Proof.
  revert s; induction lines as [|line lines IH]; intros s Hc; [done|]. cbn.
  pose proof (process_ok need s line Hc) as Hp. destruct (process s line) as [s' res]; cbn in Hp.
  destruct (action res); [done | done | by apply IH |].
  specialize (IH s' Hp). by destruct (handle_lines s' lines) as [[s'' out] r].
Qed.

Lemma new_machine_ok remote mechanisms start_tls insecure (x : H) :
  conn_ok (needs_auth mechanisms) (new_machine remote mechanisms start_tls insecure) (x, []).
Proof.
  split_and!; [|done|done]. unfold config_ok, needs_auth; cbn.
  destruct mechanisms as [|a l]; cbn; split_and!; try done.
Qed.
End conformance.

Section connections.
Context {nom : Nom} {b64 : Base64Decode} {H : Type} {ops : Handler H} {okh : HandlerOk H}.

(** C27: Whatever a client sends, in the clear and inside TLS, the handler of its
    connection is called in the order of an SMTP transaction: the calls conform to
    [legal], so a message is started only with the sender and exactly the
    recipients accepted for it, in order, under the name the client last gave, and
    where mechanisms are configured a sender is only taken after an authentication
    that succeeded and was not followed by a new greeting. *)
Theorem callbacks_conform server mechanisms start_tls insecure remote (x : H) plain secure :
  conforms (needs_auth mechanisms)
    (handler (start_session (build server mechanisms start_tls insecure remote (x, [])) plain secure).1.1).2 = true.
Proof.
  set (s0 := build server mechanisms start_tls insecure remote (x, [])).
  assert (H0 : conn_ok (needs_auth mechanisms) (fsm s0) (handler s0)) by apply new_machine_ok.
  pose proof (lines_ok _ (stream_lines plain) s0 H0) as H1.
  unfold start_session, handle_session in *. destruct (handle_lines s0 _) as [[s1 out] r]; cbn in H1.
  destruct r as [[]|]; try apply H1. destruct secure as [stream|]; [|apply H1].
  pose proof (command_ok _ (fsm s1) (handler s1) Cmd.StartedTls H1) as H2.
  unfold tls_active, session_command.
  destruct (machine_command (fsm s1) (handler s1) Cmd.StartedTls) as [[m2 h2] r2]; cbn in *.
  pose proof (lines_ok _ (stream_lines stream) (mkSession (name s1) h2 m2) H2) as H3.
  destruct (handle_lines (mkSession (name s1) h2 m2) (stream_lines stream)) as [[s3 out3] r3]. apply H3.
Qed.
End connections.

(** ** What a client can say *)

Section client.
Context {nom : Nom} {b64 : Base64Decode} {nom_ok : NomOk}.

(** The results of a parser satisfy [P], and it fails only by not recognising. *)
Definition yields {A} (P : A -> Prop) (p : Parser A) : Prop :=
  forall i, match p i with Ok (_, a) => P a | Err e => e = Error end.

Lemma yields_impl {A} (P Q : A -> Prop) (p : Parser A) : (forall a, P a -> Q a) -> yields P p -> yields Q p.
Proof. intros HPQ Hp i. specialize (Hp i). destruct (p i) as [[r a]|e]; auto. Qed.

Lemma yields_tag t : yields (fun _ => True) (tag t).
Proof. intros i. rewrite nom_tag. by destruct (strip_prefix t i). Qed.
Lemma yields_tag_no_case t : yields (fun _ => True) (tag_no_case t).
Proof. intros i. rewrite nom_tag_no_case. by destruct (strip_no_case t i) as [[]|]. Qed.
Lemma yields_is_not set : yields (fun m => m <> EmptyString) (is_not set).
Proof. intros i. rewrite nom_is_not. by destruct (span _ i) as [[] ?]. Qed.
Lemma yields_take_while1 p : yields (fun m => m <> EmptyString) (take_while1 p).
Proof. intros i. rewrite nom_take_while1. by destruct (span p i) as [[] ?]. Qed.
Lemma yields_alt {A} (P : A -> Prop) (ps : list (Parser A)) : Forall (yields P) ps -> yields P (alt ps).
Proof.
  induction 1 as [|p ps Hp _ IH]; intros i; [by rewrite nom_alt_nil|].
  rewrite nom_alt_cons. specialize (Hp i). destruct (p i) as [[r a]|e]; [done|]. subst e. apply IH.
Qed.
Lemma yields_pair {A B} (P : A -> Prop) (Q : B -> Prop) p q :
  yields P p -> yields Q q -> yields (fun '(a, b) => P a /\ Q b) (pair p q).
Proof.
  intros Hp Hq i. rewrite nom_pair. specialize (Hp i). destruct (p i) as [[r a]|e]; [|done].
  specialize (Hq r). by destruct (q r) as [[r' b]|e].
Qed.
Lemma yields_preceded {A B} (P : A -> Prop) (Q : B -> Prop) p q :
  yields P p -> yields Q q -> yields Q (preceded p q).
Proof.
  intros Hp Hq i. rewrite nom_preceded. specialize (Hp i). destruct (p i) as [[r a]|e]; [|done]. apply Hq.
Qed.
Lemma yields_terminated {A B} (P : A -> Prop) (Q : B -> Prop) p q :
  yields P p -> yields Q q -> yields P (terminated p q).
Proof.
  intros Hp Hq i. rewrite nom_terminated. specialize (Hp i). destruct (p i) as [[r a]|e]; [|done].
  specialize (Hq r). by destruct (q r) as [[r' b]|e].
Qed.
Lemma yields_tuple3 {A B C} (P : A -> Prop) (Q : B -> Prop) (R : C -> Prop) p q r :
  yields P p -> yields Q q -> yields R r -> yields (fun '(a, b, c) => P a /\ Q b /\ R c) (tuple3 p q r).
Proof.
  intros Hp Hq Hr i. rewrite nom_tuple3. specialize (Hp i). destruct (p i) as [[i1 a]|e]; [|done].
  specialize (Hq i1). destruct (q i1) as [[i2 b]|e]; [|done]. specialize (Hr i2). by destruct (r i2) as [[i3 c]|e].
Qed.
Lemma yields_map {A B} (P : A -> Prop) (Q : B -> Prop) p (f : A -> B) :
  yields P p -> (forall a, P a -> Q (f a)) -> yields Q (nmap p f).
Proof. intros Hp Hf i. rewrite nom_map. specialize (Hp i). destruct (p i) as [[i1 a]|e]; auto. Qed.
Lemma yields_map_res {A B} (P : A -> Prop) (Q : B -> Prop) p (f : A -> option B) :
  yields P p -> (forall a b, P a -> f a = Some b -> Q b) -> yields Q (map_res p f).
Proof.
  intros Hp Hf i. rewrite nom_map_res. specialize (Hp i). destruct (p i) as [[i1 a]|e]; [|done].
  destruct (f a) as [b|] eqn:E; eauto.
Qed.
Lemma yields_opt {A} (P : A -> Prop) p :
  yields P p -> yields (fun o => match o with Some a => P a | None => True end) (opt p).
Proof.
  intros Hp i. rewrite nom_opt. specialize (Hp i). destruct (p i) as [[i1 a]|e]; [done|]. by subst e.
Qed.
Lemma yields_value {A B} (P : B -> Prop) (Q : A -> Prop) p a : yields P p -> Q a -> yields Q (value a p).
Proof. intros Hp Ha i. rewrite nom_value. specialize (Hp i). by destruct (p i) as [[i1 b]|e]. Qed.
End client.
#[export] Hint Resolve yields_tag yields_tag_no_case yields_is_not yields_take_while1 yields_pair yields_preceded
  yields_terminated yields_tuple3 yields_opt yields_value : smtp.

Section client_commands.
Context {nom : Nom} {b64 : Base64Decode} {nom_ok : NomOk}.

(** The commands a line can stand for: not the three the server makes up itself,
    and no empty name or path. *)
Definition client_cmd (c : Cmd.t) : Prop :=
  match c with
  | Cmd.AuthResponse _ | Cmd.DataEnd | Cmd.StartedTls => False
  | Cmd.Helo p | Cmd.Ehlo p | Cmd.Mail p _ | Cmd.Rcpt p => p <> EmptyString
  | _ => True
  end.

Lemma yields_cmd t : yields (fun _ => True) (cmd t).
Proof. eapply yields_impl; [|unfold cmd, space; eauto with smtp]. by intros []. Qed.
Hint Resolve yields_cmd : smtp.

Lemma yields_text set : yields (fun m => m <> EmptyString) (map_res (is_not set) from_utf8).
Proof.
  eapply yields_map_res; [apply yields_is_not|]. unfold from_utf8. intros a b Ha.
  by destruct (is_utf8 a); intros [= <-].
Qed.

Lemma yields_path {A} (p : Parser A) P : yields P p -> yields (fun m => m <> EmptyString) (preceded p mail_path).
Proof. intros Hp. eapply yields_preceded; [exact Hp | apply yields_text]. Qed.

Lemma yields_mail : yields client_cmd p_mail.
Proof.
  eapply yields_map_res.
  - apply (yields_tuple3 (fun m => m <> EmptyString) (fun _ => True) (fun _ => True)).
    + eapply yields_path, yields_pair; eauto with smtp.
    + apply yields_tag.
    + eapply yields_impl; [|eapply yields_opt, yields_preceded; [unfold space; eauto with smtp | apply yields_text]]. done.
  - intros [[rp u] o] c [Hrp _]. cbv beta iota zeta. destruct (negb (is_ascii rp) && negb (has_option "SMTPUTF8" o)); [done|]. by intros [= <-].
Qed.

Lemma yields_auth_param (p : Parser string) (f : string -> Cmd.t) :
  yields (fun _ => True) p -> (forall a, client_cmd (f a)) ->
  yields client_cmd (nmap (preceded p (alt [auth_initial; empty])) f).
Proof.
  intros Hp Hf. eapply (yields_map (fun _ => True)); [|auto]. eapply yields_preceded; [exact Hp|].
  apply yields_alt. repeat constructor.
  - eapply yields_impl; [|unfold auth_initial, space; eauto with smtp]. done.
Qed.

Lemma yields_command : yields client_cmd command.
Proof.
  unfold command. eapply yields_terminated; [|apply yields_tag]. apply yields_alt.
  assert (Htag : forall c t, client_cmd c -> yields client_cmd (value c (tag_no_case t))).
  { intros c t Hc. eapply yields_value; eauto with smtp. }
  repeat apply Forall_cons_2; try (by apply Htag); [| | apply yields_mail | | | |apply Forall_nil_2].
  - eapply yields_map; [eapply yields_preceded; [apply yields_cmd | apply yields_text] | done].
  - eapply yields_map; [eapply yields_preceded; [apply yields_cmd | apply yields_text] | done].
  - eapply yields_map; [eapply yields_terminated; [eapply yields_path, yields_pair; eauto with smtp | apply yields_tag]|].
    done.
  - eapply yields_value; [eapply yields_preceded; [apply yields_cmd | apply yields_text] | done].
  - eapply yields_preceded; [apply yields_cmd|]. apply yields_alt.
    repeat apply Forall_cons_2; [| |apply Forall_nil_2]; (apply yields_auth_param; [apply yields_tag_no_case|]).
    + intros a. unfold sasl_plain_cmd. by destruct (is_empty a).
    + intros a. unfold sasl_login_cmd. by destruct (is_empty a).
Qed.

Lemma parse_spec line : match parse line with Ok c => client_cmd c | Err r => r = SYNTAX_ERROR end.
Proof.
  unfold parse. pose proof (yields_command line) as Hy. destruct (command line) as [[r c]|e]; [done|]. by subst e.
Qed.
End client_commands.

(** ** Before TLS *)

Section clear.
Context {nom : Nom} {b64 : Base64Decode} {nom_ok : NomOk} {H : Type} {ops : Handler H}.

Definition is_greeting (c : Call) : Prop := match c with CHelo _ _ _ => True | _ => False end.

(** A machine that asks for authentication but does not offer it yet. *)
Definition waiting (m : StateMachine) (h : Logged H) : Prop :=
  tls m <> Active /\ insecure_allow_plaintext_auth m = false /\ auth_state m = RequiresAuth /\
  match smtp m with None | Some Idle | Some (HelloAuth _) => True | _ => False end /\
  Forall is_greeting h.2.

Lemma waiting_no_auth m h : waiting m h -> allow_auth m = false.
Proof. intros (Ht & Hi & _). unfold allow_auth. by rewrite Hi, bool_decide_false. Qed.

Lemma waiting_move m h s :
  waiting m h -> match s with None | Some Idle | Some (HelloAuth _) => True | _ => False end ->
  waiting (set_smtp m s) h.
Proof. intros (Ht & Hi & Ha & _ & Hl) Hs. by split_and!. Qed.

Lemma waiting_default m h cur c :
  waiting m h -> match cur with Idle | HelloAuth _ => True | _ => False end ->
  let '(m', h', (_, s)) := default_handler cur m h c in waiting (set_smtp m' s) h'.
Proof.
  intros Hw Hcur.
  assert (Hc : match Some cur with None | Some Idle | Some (HelloAuth _) => True | _ => False end) by done.
  pose proof Hw as (Ht & Hi & Ha & _ & Hl). unfold default_handler.
  destruct c; try (by apply waiting_move).
  - unfold handle_ehlo. rewrite Ha. destruct h as [x log]; cbn. destruct (helo x (ip m) domain) as [x' r]; cbn.
    match goal with |- context [transform_state ?a ?b ?c] => destruct (transform_cases a b c) as [[-> _]|[[-> _]|[-> _]]] end;
      (apply waiting_move; [|done]); split_and!; try done; try (by destruct Hw as (_ & _ & _ & ? & _));
      cbn; apply Forall_app; by split; [|constructor].
  - unfold handle_helo. rewrite Ha. by apply waiting_move.
Qed.

Lemma waiting_command m h c :
  waiting m h -> c <> Cmd.StartedTls ->
  let '(m', h', _) := machine_command m h c in waiting m' h'.
Proof.
  intros Hw Hc. unfold machine_command. pose proof Hw as (_ & _ & Ha & Hs & _).
  destruct (smtp m) as [s|] eqn:Es; [|by apply waiting_move].
  assert (Hw' : waiting (set_smtp m None) h) by by apply waiting_move.
  pose proof (waiting_no_auth _ _ Hw') as Hno.
  assert (Hdef : match s with Idle | HelloAuth _ => True | _ => False end ->
    let '(m', h', (_, s')) := default_handler s (set_smtp m None) h c in waiting (set_smtp m' s') h').
  { by apply waiting_default. }
  destruct s as [|d|d| | | |]; try done; cbn [handle]; unfold handle_idle, handle_hello_auth, allow_auth_plain, allow_auth_login;
    rewrite ?Hno, ?andb_false_r.
  - destruct c; try done; try (by specialize (Hdef I); destruct (default_handler _ _ _ _) as [[? ?] [? ?]]); by apply waiting_move.
  - destruct c; try done; try (by specialize (Hdef I); destruct (default_handler _ _ _ _) as [[? ?] [? ?]]); try (by apply waiting_move).
    unfold handle_rset; cbn. rewrite Ha. by apply waiting_move.
Qed.

Lemma waiting_process (s : Session (Logged H)) line :
  waiting (fsm s) (handler s) -> waiting (fsm (process s line).1) (handler (process s line).1).
Proof.
  intros Hw. unfold process, process_line. pose proof Hw as (_ & _ & _ & Hs & _).
  destruct s as [nm h m]; cbn in *.
  assert (Hp : match parse line with
    | Ok c => waiting (fsm (session_command (mkSession nm h m) c).1) (handler (session_command (mkSession nm h m) c).1)
    | Err _ => True end).
  { pose proof (parse_spec line) as Hspec. destruct (parse line) as [c|r]; [|done].
    unfold session_command; cbn. assert (c <> Cmd.StartedTls) as Hc by by intros ->.
    pose proof (waiting_command m h c Hw Hc). by destruct (machine_command m h c) as [[m' h'] r]. }
  destruct (smtp m) as [[]|] eqn:Es; cbn; try done; by destruct (parse line).
Qed.

Lemma waiting_lines lines (s : Session (Logged H)) :
  waiting (fsm s) (handler s) -> waiting (fsm (handle_lines s lines).1.1) (handler (handle_lines s lines).1.1).
Proof.
  revert s; induction lines as [|line lines IH]; intros s Hw; [done|]. cbn.
  pose proof (waiting_process s line Hw) as Hp. destruct (process s line) as [s' res]; cbn in Hp.
  destruct (action res); [done | done | by apply IH |].
  specialize (IH s' Hp). by destruct (handle_lines s' lines) as [[s'' out] r].
Qed.

(** C28: Where authentication is required and not explicitly allowed in the clear, a
    client that has not started TLS gets no further than its greeting: whatever it
    sends, the handler sees no credentials, no sender and no message. *)
Theorem no_credentials_in_the_clear server mechanisms start_tls remote (x : H) stream :
  mechanisms <> [] ->
  Forall is_greeting (handler (handle_session (build server mechanisms start_tls false remote (x, [])) stream).1.1).2.
Proof.
  intros Hm. apply waiting_lines. split_and!; try done; cbn; [by destruct start_tls | by destruct mechanisms].
Qed.
End clear.

(** ** The text of a message *)

Definition END_OF_DATA : string := String "." CRLF.

(** What a client sends for a message: each line ended by CR LF, a line that
    starts with a dot with one more dot in front, and a line with a single dot. *)
Definition stuff (line : string) : string := if starts_with "." line then String "." line else line.
Definition unstuff (line : string) : string := if starts_with "." line then sdrop 1 line else line.
Fixpoint wire (bodies : list string) : string :=
  match bodies with
  | [] => END_OF_DATA
  | b :: bodies' => (stuff (b ++ CRLF) ++ wire bodies')%string
  end.

Lemma string_app_assoc (a b c : string) : ((a +:+ b) +:+ c = a +:+ (b +:+ c))%string.
Proof. induction a as [|x a IH]; cbn; [done|]. change (String x ((a +:+ b) +:+ c) = String x (a +:+ (b +:+ c))). by f_equal. Qed.

Lemma string_app_cons x (a b : string) : (String x a +:+ b = String x (a +:+ b))%string.
Proof. done. Qed.

Lemma stream_lines_line l r :
  contains_byte LF l = false ->
  stream_lines (l +:+ String LF r) = (l +:+ String LF EmptyString) :: stream_lines r.
Proof.
  induction l as [|c l IH]; [done|]. rewrite !string_app_cons. cbn [contains_byte].
  intros [Hc Hl]%orb_false_iff. cbn [stream_lines]. apply bool_decide_eq_false_1 in Hc.
  rewrite bool_decide_false by congruence. by rewrite IH.
Qed.

(** The lines of a stream are what repeated calls of [read_until] give. *)
Lemma stream_lines_read s :
  stream_lines s = if is_empty s then [] else (read_until s).1 :: stream_lines (read_until s).2.
Proof.
  induction s as [|c s IH]; [done|]. cbn [is_empty stream_lines read_until].
  case_bool_decide; [done|]. rewrite IH. destruct s as [|c' s']; [done|]. cbn [is_empty].
  by destruct (read_until (String c' s')).
Qed.

Lemma starts_with_dot s : starts_with "." s = match s with String c _ => bool_decide (c = "."%char) | _ => false end.
Proof.
  destruct s as [|c s]; [done|]. unfold starts_with. cbn [String.prefix].
  destruct (ascii_dec "." c) as [E|E]; [subst; by destruct s|]. by rewrite bool_decide_false by congruence.
Qed.

Lemma unstuff_stuff line : unstuff (stuff line) = line.
Proof.
  unfold stuff. destruct (starts_with "." line) eqn:E; [|unfold unstuff; by rewrite E].
  unfold unstuff. by rewrite starts_with_dot, bool_decide_true.
Qed.

Lemma stuff_not_end b : stuff (b +:+ CRLF) <> END_OF_DATA.
Proof.
  unfold stuff, END_OF_DATA. rewrite starts_with_dot. destruct b as [|c b]; [done|]. rewrite string_app_cons.
  case_bool_decide as E; [|congruence]. subst c. discriminate.
Qed.

Lemma stuff_line b : contains_byte LF b = false ->
  exists l, stuff (b +:+ CRLF) = l +:+ String LF EmptyString /\ contains_byte LF l = false.
Proof.
  intros Hb. unfold stuff.
  assert (Hcr : (b +:+ CRLF = (b +:+ String CR EmptyString) +:+ String LF EmptyString)%string) by by rewrite string_app_assoc.
  assert (Hlf : contains_byte LF (b +:+ String CR EmptyString) = false) by by rewrite contains_byte_app, Hb.
  destruct (starts_with "." _); [exists (String "." (b +:+ String CR EmptyString)) | exists (b +:+ String CR EmptyString)];
    rewrite Hcr; split; try done.
Qed.

Lemma stream_lines_wire bodies rest :
  Forall (fun b => contains_byte LF b = false) bodies ->
  stream_lines (wire bodies +:+ rest) =
  map (fun b => stuff (b +:+ CRLF)) bodies ++ END_OF_DATA :: stream_lines rest.
Proof.
  induction 1 as [|b bodies Hb _ IH]; [done|]. cbn [wire map app].
  destruct (stuff_line b Hb) as (l & Hl & Hlf). change (b ++ CRLF)%string with (b +:+ CRLF). rewrite Hl.
  change ((l +:+ String LF "") ++ wire bodies)%string with ((l +:+ String LF "") +:+ wire bodies).
  rewrite !string_app_assoc. change (String LF "" +:+ (wire bodies +:+ rest)) with (String LF (wire bodies +:+ rest)).
  by rewrite stream_lines_line, IH.
Qed.

Section message.
Context {nom : Nom} {b64 : Base64Decode} {H : Type} {ops : Handler H}.

(** The handler stores every line it is given. *)
Definition stores_data : Prop := forall (x : H) buf, (data x buf).2 = Ok tt.

Definition store_lines (x : H) (lines : list string) : H := foldl (fun x l => (data x l).1) x lines.

Lemma process_data s d line :
  stores_data -> smtp (fsm s) = Some (Data d) -> line <> END_OF_DATA ->
  process s line = (mkSession (name s) (data (handler s) (unstuff line)).1 (fsm s), EMPTY_RESPONSE).
Proof.
  intros Hok Hs Hl. unfold process, process_line. rewrite Hs, bool_decide_false by done.
  fold (unstuff line). pose proof (Hok (handler s) (unstuff line)) as E.
  destruct (data (handler s) (unstuff line)) as [x r]; cbn in *. by subst r.
Qed.

Lemma handle_data_lines s d lines rest :
  stores_data -> smtp (fsm s) = Some (Data d) -> Forall (fun l => l <> END_OF_DATA) lines ->
  handle_lines s (lines ++ rest) =
  handle_lines (mkSession (name s) (store_lines (handler s) (map unstuff lines)) (fsm s)) rest.
Proof.
  intros Hok Hs Hl. revert s Hs; induction Hl as [|l lines Hl _ IH]; intros s Hs; [by destruct s|].
  cbn [app handle_lines]. rewrite (process_data s d) by done. cbn [action EMPTY_RESPONSE].
  by rewrite IH.
Qed.

Lemma process_end s d :
  smtp (fsm s) = Some (Data d) ->
  process s END_OF_DATA =
  (mkSession (name s) (data_end (handler s)).1
     (set_smtp (fsm s) (transform_state (Data d) (data_end (handler s)).2 (Hello d)).2), (data_end (handler s)).2).
Proof.
  intros Hs. unfold process, process_line. rewrite Hs, bool_decide_true by done.
  unfold session_command, machine_command; cbn. rewrite Hs; cbn.
  destruct (data_end (handler s)) as [x r]; cbn.
  destruct (transform_cases (Data d) r (Hello d)) as [[-> _]|[[-> _]|[-> _]]]; done.
Qed.

(** The end of a message the handler takes. *)
Lemma end_of_data s d lines :
  smtp (fsm s) = Some (Data d) ->
  let '(x, res) := data_end (handler s) in
  is_error res = false -> action res = Reply ->
  handle_lines s (END_OF_DATA :: lines) =
  let '(s', out, r) := handle_lines (mkSession (name s) x (set_smtp (fsm s) (Some (Hello d)))) lines in
  (s', (write_to res ++ out)%string, r).
Proof.
  intros Hs. destruct (data_end (handler s)) as [x res] eqn:E. intros He Ha.
  cbn [handle_lines]. rewrite (process_end _ d) by done. rewrite E. cbn [fst snd].
  unfold transform_state. rewrite Ha, He, bool_decide_false by done. done.
Qed.

(** C29: A message sent with its dots doubled arrives as it was: the handler is given
    its lines, unchanged and in order, then the end of the message; when it takes
    the message, the session answers and goes on behind the final dot. *)
Theorem message_is_transparent (s : Session H) d bodies rest :
  stores_data -> smtp (fsm s) = Some (Data d) ->
  Forall (fun b => contains_byte LF b = false) bodies ->
  let '(x, res) := data_end (store_lines (handler s) (map (fun b => b +:+ CRLF) bodies)) in
  is_error res = false -> action res = Reply ->
  handle_session s (wire bodies +:+ rest) =
  let '(s', out, r) := handle_session (mkSession (name s) x (set_smtp (fsm s) (Some (Hello d)))) rest in
  (s', (write_to res ++ out)%string, r).
Proof.
  intros Hok Hs Hb. unfold handle_session. rewrite stream_lines_wire by done.
  rewrite (handle_data_lines s d) by (try done; apply Forall_map, Forall_true; intros; apply stuff_not_end).
  rewrite map_map. rewrite (map_ext (fun b => unstuff (stuff (b +:+ CRLF))) (fun b => b +:+ CRLF)) by (intros; apply unstuff_stuff).
  by apply (end_of_data (mkSession (name s) (store_lines (handler s) (map (fun b => b +:+ CRLF) bodies)) (fsm s))).
Qed.

(** After a message the handler refuses, the machine is still inside the message:
    every following command is taken for text, handed to the handler and not
    answered, up to the end of the connection. *)
Theorem refused_message_silences_session (s : Session H) d stream :
  stores_data -> smtp (fsm s) = Some (Data d) ->
  is_error (data_end (handler s)).2 = true -> action (data_end (handler s)).2 = Reply ->
  Forall (fun l => l <> END_OF_DATA) (stream_lines stream) ->
  handle_session s (END_OF_DATA +:+ stream) =
  (mkSession (name s) (store_lines (data_end (handler s)).1 (map unstuff (stream_lines stream))) (fsm s),
   write_to (data_end (handler s)).2, Err UnexpectedEof).
Proof.
  intros Hok Hs He Ha Hl. unfold handle_session.
  change (stream_lines (END_OF_DATA +:+ stream)) with (END_OF_DATA :: stream_lines stream).
  cbn [handle_lines]. rewrite (process_end _ d) by done.
  unfold transform_state. rewrite Ha, He, bool_decide_false by done. cbn [snd fst].
  assert (Hm : set_smtp (fsm s) (Some (Data d)) = fsm s) by (destruct (fsm s); cbn in *; by subst).
  rewrite Hm. pose proof (handle_data_lines (mkSession (name s) (data_end (handler s)).1 (fsm s)) d (stream_lines stream) []) as Hd.
  rewrite app_nil_r in Hd. rewrite Hd by done. cbn. change (?a ++ "")%string with (a +:+ "").
  f_equal. f_equal. induction (write_to _) as [|c w IH]; [done|]. rewrite string_app_cons. by f_equal.
Qed.

(** A line feed alone also starts a new line: a dot after it ends the message,
    although the reply to DATA asks for CR LF, dot, CR LF, and what follows is
    read as commands. *)
Theorem bare_line_feed_ends_message (s : Session H) d body rest :
  stores_data -> smtp (fsm s) = Some (Data d) ->
  contains_byte LF body = false -> ends_with_byte CR body = false ->
  let '(x, res) := data_end (data (handler s) (unstuff (body +:+ String LF EmptyString))).1 in
  is_error res = false -> action res = Reply ->
  handle_session s (body +:+ String LF (END_OF_DATA +:+ rest)) =
  let '(s', out, r) := handle_session (mkSession (name s) x (set_smtp (fsm s) (Some (Hello d)))) rest in
  (s', (write_to res ++ out)%string, r).
Proof.
  intros Hok Hs Hb Hcr. unfold handle_session. rewrite stream_lines_line by done.
  change (stream_lines (END_OF_DATA +:+ rest)) with (END_OF_DATA :: stream_lines rest).
  change (?l :: ?r) with ([l] ++ r) at 1.
  rewrite (handle_data_lines s d [body +:+ String LF EmptyString] _); [| done | done |].
  - apply (end_of_data (mkSession (name s) (data (handler s) (unstuff (body +:+ String LF EmptyString))).1 (fsm s))). done.
  - constructor; [|done]. intros Heq. destruct body as [|a [|b [|? ?]]]; try done; injection Heq; intros; subst; done.
Qed.
End message.

(** ** The parser is determined

    The laws of [Nom] leave no choice: the parser computes the same with any
    implementation as with the one written out here. *)

Definition reference : Nom := {|
  tag t i := match strip_prefix t i with Some r => Ok (r, t) | None => Err Error end;
  tag_no_case t i := match strip_no_case t i with Some (m, r) => Ok (r, m) | None => Err Error end;
  is_not set i := at_least_one (span (fun c => negb (contains_byte c set)) i);
  take_while1 p i := at_least_one (span p i);
  alt A := fix alt (ps : list (Parser A)) : Parser A :=
    match ps with
    | [] => fun _ => Err Error
    | p :: ps => fun i => match p i with Err Error => alt ps i | r => r end
    end;
  pair A B p q i := let? (i, a) := p i in let? (i, b) := q i in Ok (i, (a, b));
  preceded A B p q i := let? (i, _) := p i in q i;
  terminated A B p q i := let? (i, a) := p i in let? (i, _) := q i in Ok (i, a);
  tuple3 A B C p q r i :=
    let? (i, a) := p i in let? (i, b) := q i in let? (i, c) := r i in Ok (i, (a, b, c));
  nmap A B p f i := let? (i, a) := p i in Ok (i, f a);
  map_res A B p f i :=
    let? (i, a) := p i in match f a with Some b => Ok (i, b) | None => Err Error end;
  opt A p i := match p i with Ok (r, a) => Ok (r, Some a) | Err Error => Ok (i, None) | Err e => Err e end;
  value A B a p i := let? (i, _) := p i in Ok (i, a)
|}.

#[local] Instance reference_ok : @NomOk reference.
Proof. by split. Qed.

Section determined.
Context {nom : Nom} {b64 : Base64Decode} {nom_ok : NomOk}.

Definition same {A} (p q : Parser A) : Prop := forall i, p i = q i.

Lemma same_tag t : same (tag t) (@tag reference t).
Proof. intros i. apply nom_tag. Qed.
Lemma same_tag_no_case t : same (tag_no_case t) (@tag_no_case reference t).
Proof. intros i. apply nom_tag_no_case. Qed.
Lemma same_is_not t : same (is_not t) (@is_not reference t).
Proof. intros i. apply nom_is_not. Qed.
Lemma same_take_while1 t : same (take_while1 t) (@take_while1 reference t).
Proof. intros i. apply nom_take_while1. Qed.
Lemma same_alt {A} (ps qs : list (Parser A)) : Forall2 same ps qs -> same (alt ps) (@alt reference A qs).
Proof.
  induction 1 as [|p q ps qs Hp _ IH]; intros i; [apply nom_alt_nil|]. rewrite nom_alt_cons, (Hp i). cbn.
  destruct (q i) as [|[]]; auto.
Qed.
Lemma same_pair {A B} (p p' : Parser A) (q q' : Parser B) :
  same p p' -> same q q' -> same (pair p q) (@pair reference A B p' q').
Proof. intros Hp Hq i. rewrite nom_pair, (Hp i). cbn. destruct (p' i) as [[]|]; [|done]. by rewrite Hq. Qed.
Lemma same_preceded {A B} (p p' : Parser A) (q q' : Parser B) :
  same p p' -> same q q' -> same (preceded p q) (@preceded reference A B p' q').
Proof. intros Hp Hq i. rewrite nom_preceded, (Hp i). cbn. destruct (p' i) as [[]|]; [|done]. by rewrite Hq. Qed.
Lemma same_terminated {A B} (p p' : Parser A) (q q' : Parser B) :
  same p p' -> same q q' -> same (terminated p q) (@terminated reference A B p' q').
Proof. intros Hp Hq i. rewrite nom_terminated, (Hp i). cbn. destruct (p' i) as [[]|]; [|done]. by rewrite Hq. Qed.
Lemma same_tuple3 {A B C} (p p' : Parser A) (q q' : Parser B) (r r' : Parser C) :
  same p p' -> same q q' -> same r r' -> same (tuple3 p q r) (@tuple3 reference A B C p' q' r').
Proof.
  intros Hp Hq Hr i. rewrite nom_tuple3, (Hp i). cbn. destruct (p' i) as [[]|]; [|done].
  rewrite Hq. destruct (q' _) as [[]|]; [|done]. by rewrite Hr.
Qed.
Lemma same_map {A B} (p p' : Parser A) (f : A -> B) : same p p' -> same (nmap p f) (@nmap reference A B p' f).
Proof. intros Hp i. by rewrite nom_map, (Hp i). Qed.
Lemma same_map_res {A B} (p p' : Parser A) (f : A -> option B) :
  same p p' -> same (map_res p f) (@map_res reference A B p' f).
Proof. intros Hp i. by rewrite nom_map_res, (Hp i). Qed.
Lemma same_opt {A} (p p' : Parser A) : same p p' -> same (opt p) (@opt reference A p').
Proof. intros Hp i. by rewrite nom_opt, (Hp i). Qed.
Lemma same_value {A B} (a : A) (p p' : Parser B) : same p p' -> same (value a p) (@value reference A B a p').
Proof. intros Hp i. by rewrite nom_value, (Hp i). Qed.
Lemma same_refl {A} (p : Parser A) : same p p.
Proof. done. Qed.

Hint Resolve same_tag same_tag_no_case same_is_not same_take_while1 same_alt same_pair same_preceded same_terminated
  same_tuple3 same_map same_map_res same_opt same_value same_refl : same.
Hint Constructors Forall2 : same.

Lemma same_auth t (f : string -> Cmd.t) :
  same (nmap (preceded (tag_no_case t) (alt [auth_initial; empty])) f)
    (@nmap reference _ _ (@preceded reference _ _ (@tag_no_case reference t)
      (@alt reference _ [@auth_initial reference; empty])) f).
Proof.
  apply same_map, same_preceded; [apply same_tag_no_case|]. apply same_alt.
  repeat constructor. apply same_preceded; apply same_take_while1.
Qed.

Lemma parse_reference line : parse line = @parse reference b64 line.
Proof.
  unfold parse. replace (command line) with (@command reference b64 line); [done|]. symmetry.
  apply same_terminated; [|apply same_tag]. apply same_alt.
  repeat constructor; try (unfold p_helo, p_ehlo, p_mail, p_rcpt, p_data, p_rset, p_quit, p_vrfy, p_noop,
    p_starttls, hello_domain, mail_path, take_all, cmd, space; by eauto 12 with same).
  apply same_preceded; [unfold cmd, space; by eauto with same|].
  apply same_alt. repeat constructor; apply same_auth.
Qed.
End determined.

(** ** Reading commands back *)

(** The line a client sends for a command without authentication data. *)
Definition print_cmd (c : Cmd.t) : string :=
  match c with
  | Cmd.Ehlo d => "EHLO " +:+ (d +:+ CRLF)
  | Cmd.Helo d => "HELO " +:+ (d +:+ CRLF)
  | Cmd.Mail p b => "MAIL FROM:<" +:+ (p +:+ ((if b then "> BODY=8BITMIME" else ">") +:+ CRLF))
  | Cmd.Rcpt p => "RCPT TO:<" +:+ (p +:+ (">" +:+ CRLF))
  | Cmd.Data => "DATA" +:+ CRLF
  | Cmd.Rset => "RSET" +:+ CRLF
  | Cmd.Noop => "NOOP" +:+ CRLF
  | Cmd.StartTls => "STARTTLS" +:+ CRLF
  | Cmd.Quit => "QUIT" +:+ CRLF
  | Cmd.Vrfy => "VRFY x" +:+ CRLF
  | Cmd.AuthLoginEmpty => "AUTH LOGIN" +:+ CRLF
  | Cmd.AuthPlainEmpty => "AUTH PLAIN" +:+ CRLF
  | _ => EmptyString
  end.

(** Not empty, ASCII, and without the bytes [stop]. *)
Definition word (stop s : string) : Prop :=
  s <> EmptyString /\ is_ascii s = true /\ all_bytes (fun c => negb (contains_byte c stop)) s = true.

Definition printable (c : Cmd.t) : Prop :=
  match c with
  | Cmd.Ehlo d | Cmd.Helo d => word (String " " (String TAB CRLF)) d
  | Cmd.Mail p _ | Cmd.Rcpt p => word (String " " (String "<" (String ">" (String TAB CRLF)))) p
  | Cmd.AuthResponse _ | Cmd.DataEnd | Cmd.StartedTls | Cmd.AuthLogin _ | Cmd.AuthPlain _ _ _ => False
  | _ => True
  end.

Lemma span_word p (s r : string) :
  all_bytes p s = true -> match r with String c _ => p c = false | EmptyString => True end ->
  span p (s +:+ r) = (s, r).
Proof.
  induction s as [|c s IH]; intros Hs Hr.
  - destruct r as [|c r]; [done|]. change (span p (String c r) = (EmptyString, String c r)). cbn [span]. by rewrite Hr.
  - rewrite string_app_cons. cbn [span all_bytes] in *. apply andb_prop in Hs as [Hc Hs]. by rewrite Hc, IH.
Qed.

Lemma word_space stop s r :
  word (String " " stop) s -> @space reference (String " " (s +:+ r)) = Ok (s +:+ r, " "%string).
Proof.
  intros (Hne & _ & Hs). destruct s as [|c s]; [done|]. rewrite string_app_cons. cbn in Hs.
  unfold space; cbn. apply andb_prop in Hs as [Hc _]. case_bool_decide as E; [done|].
  by rewrite (bool_decide_false (c = " "%char)) by congruence.
Qed.

Lemma word_text stop s c r :
  word stop s -> contains_byte c stop = true ->
  @map_res reference _ _ (@is_not reference stop) from_utf8 (s +:+ String c r) = Ok (String c r, s).
Proof.
  intros (Hne & Ha & Hs) Hc. cbn. rewrite span_word; [|done | by rewrite Hc].
  destruct s as [|a s]; [done|]. cbn [at_least_one]. unfold from_utf8. by rewrite is_ascii_utf8.
Qed.

(** The keyword each parser starts with. *)
Definition keywords : list (string * (Base64Decode -> Parser Cmd.t)) :=
  [("helo", fun _ => @p_helo reference); ("ehlo", fun _ => @p_ehlo reference); ("mail", fun _ => @p_mail reference);
   ("rcpt", fun _ => @p_rcpt reference); ("data", fun _ => @p_data reference); ("rset", fun _ => @p_rset reference);
   ("quit", fun _ => @p_quit reference); ("vrfy", fun _ => @p_vrfy reference); ("noop", fun _ => @p_noop reference);
   ("starttls", fun _ => @p_starttls reference); ("auth", fun b64 => @p_auth reference b64)].

Lemma keyword_rejects b64 kw p i : (kw, p) ∈ keywords -> strip_no_case kw i = None -> p b64 i = Err Error.
Proof.
  intros Hin Hi. unfold keywords in Hin. repeat (apply elem_of_cons in Hin as [Hin|Hin]; [apply pair_eq in Hin as [-> ->]|]);
    [..|by apply elem_of_nil in Hin];
    unfold p_helo, p_ehlo, p_mail, p_rcpt, p_data, p_rset, p_quit, p_vrfy, p_noop, p_starttls, p_auth, cmd;
    rewrite ?nom_value, ?nom_map, ?nom_map_res, ?nom_tuple3, ?nom_terminated, ?nom_preceded, ?nom_pair,
      ?nom_tag_no_case, Hi; done.
Qed.

(** The parser chosen is the one whose keyword the line starts with. *)
Lemma parse_chosen b64 n kw p line c :
  keywords !! n = Some (kw, p) ->
  forallb (fun '(k, _) => bool_decide (strip_no_case k line = None)) (take n keywords) = true ->
  p b64 line = Ok (CRLF, c) -> @parse reference b64 line = Ok c.
Proof.
  intros Hn Hpre Hp. unfold parse, command.
  assert (Halt : forall ps, Forall (fun '(k, q) => (k, q) ∈ keywords) ps -> ps !! n = Some (kw, p) ->
    forallb (fun '(k, _) => bool_decide (strip_no_case k line = None)) (take n ps) = true ->
    @alt reference _ (map (fun kp => kp.2 b64) ps) line = Ok (CRLF, c)).
  { clear Hn Hpre. revert n. intros n ps Hps. revert n. induction Hps as [|[k q] ps Hq _ IH]; intros n Hn Hpre; [done|].
    destruct n as [|n]; cbn in Hn, Hpre |- *.
    - apply Some_inj, pair_eq in Hn as [-> ->]. by rewrite Hp.
    - apply andb_prop in Hpre as [Hk Hpre]. apply bool_decide_eq_true_1 in Hk.
      rewrite (keyword_rejects b64 k q line Hq Hk). by apply (IH n). }
  specialize (Halt keywords). cbn [map snd keywords] in Halt. cbn [terminated reference]. rewrite Halt; [done | | done | done].
  apply Forall_forall. by intros [k q].
Qed.

Lemma cmd_word kw line stop s r :
  strip_no_case kw line = Some (stake (String.length kw) line, String " " (s +:+ r)) ->
  word (String " " stop) s -> @cmd reference kw line = Ok (s +:+ r, (stake (String.length kw) line, " "%string)).
Proof. intros Hkw Hs. unfold cmd. cbn -[strip_no_case space]. rewrite Hkw. by rewrite (word_space stop). Qed.

Section roundtrip.
Context {nom : Nom} {b64 : Base64Decode} {nom_ok : NomOk}.

Lemma print_hello kw line n d (f : string -> Cmd.t) p :
  keywords !! n = Some (kw, p) -> p b64 = @nmap reference _ _ (@preceded reference _ _ (@cmd reference kw) (@hello_domain reference)) f ->
  forallb (fun '(k, _) => bool_decide (strip_no_case k line = None)) (take n keywords) = true ->
  strip_no_case kw line = Some (stake (String.length kw) line, String " " (d +:+ CRLF)) ->
  word (String " " (String TAB CRLF)) d -> @parse reference b64 line = Ok (f d).
Proof.
  intros Hn Hpb Hpre Hkw Hd. apply (parse_chosen _ n kw p); [done | done |].
  rewrite Hpb, nom_map, nom_preceded, (cmd_word _ _ (String TAB CRLF) d CRLF) by done. unfold hello_domain.
  by rewrite (word_text _ d CR (String LF EmptyString)).
Qed.

Lemma path_after {A} (pre : Parser A) line w tail u :
  pre line = Ok (w +:+ String ">" tail, u) ->
  word (String " " (String "<" (String ">" (String TAB CRLF)))) w ->
  @preceded reference _ _ pre (@mail_path reference) line = Ok (String ">" tail, w).
Proof.
  intros Hpre Hw. rewrite nom_preceded, Hpre. unfold mail_path. by rewrite word_text.
Qed.

(** The empty path, the sender of every bounce, is not accepted: no line is read
    as a sender without a name, and the line of a bounce is a syntax error. *)
Theorem null_sender_is_refused :
  parse ("MAIL FROM:<>" +:+ CRLF) = Err SYNTAX_ERROR /\ forall line b, parse line <> Ok (Cmd.Mail EmptyString b).
Proof.
  split.
  - rewrite parse_reference. vm_compute. reflexivity.
  - intros line b Hp. pose proof (parse_spec line) as Hs. by rewrite Hp in Hs.
Qed.

(** A command written by a client is read back as that command. *)
Theorem parse_print c : printable c -> parse (print_cmd c) = Ok c.
Proof.
  rewrite parse_reference. destruct c as [d|d|w b|w| | | | | | | | | | | | | ]; intros Hp; try done;
    cbn [printable print_cmd] in *; try match type of Hp with True => vm_compute; reflexivity end.
  - by apply (print_hello "ehlo" _ 1 d Cmd.Ehlo (fun _ => @p_ehlo reference)).
  - by apply (print_hello "helo" _ 0 d Cmd.Helo (fun _ => @p_helo reference)).
  - apply (parse_chosen _ 2 "mail" (fun _ => @p_mail reference)); [done | reflexivity |].
    unfold p_mail. rewrite nom_map_res, nom_tuple3.
    rewrite (path_after _ _ w ((if b then " BODY=8BITMIME" else "") +:+ CRLF) ("MAIL", " ", "FROM:<")); [| by destruct b | done].
    destruct Hp as (_ & Ha & _).
    change (@tag reference ">" (String ">" ((if b then " BODY=8BITMIME" else "") +:+ CRLF)))
      with (@Ok (string * string) NomErr ((if b then " BODY=8BITMIME" else "") +:+ CRLF, ">"%string)).
    cbv beta iota zeta. destruct b.
    + replace (@opt reference _ _ (" BODY=8BITMIME" +:+ CRLF)) with (@Ok (string * option string) NomErr (CRLF, Some "BODY=8BITMIME"%string))
        by reflexivity.
      rewrite Ha. reflexivity.
    + replace (@opt reference _ _ ("" +:+ CRLF)) with (@Ok (string * option string) NomErr (CRLF, None)) by reflexivity.
      rewrite Ha. reflexivity.
  - apply (parse_chosen _ 3 "rcpt" (fun _ => @p_rcpt reference)); [done | reflexivity |].
    unfold p_rcpt. rewrite nom_map, nom_terminated.
    rewrite (path_after _ _ w CRLF ("RCPT", " ", "TO:<")) by done. reflexivity.
Qed.
End roundtrip.

(** ** Examples *)

Module SampleSmtp.
#[export] Instance combinators : Nom := reference.
#[export] Instance combinators_ok : NomOk := reference_ok.
#[export] Instance decoder : Base64Decode := fun s => Some s.

(** A handler that takes everything, keeping the text it is given, and answers the
    end of a message with [verdict]. *)
Definition keeper (verdict : Response) : Handler string := {|
  helo x _ _ := (x, OK);
  mail x _ _ _ := (x, OK);
  rcpt x _ := (x, OK);
  data_start x _ _ _ _ := (x, OK);
  data x buf := (x +:+ buf, Ok tt);
  data_end x := (x, verdict);
  auth_plain x _ _ p := (x, if bool_decide (p = "1234") then AUTH_OK else INVALID_CREDENTIALS);
  auth_login x _ p := (x, if bool_decide (p = "1234") then AUTH_OK else INVALID_CREDENTIALS)
|}.

Definition local : IpAddr := V4 2130706433.

Definition in_data (server : string) : Session string :=
  mkSession server EmptyString (set_smtp (new_machine local [] true false) (Some (Data "a.domain"))).
End SampleSmtp.

Lemma keeper_ok verdict : @HandlerOk string (SampleSmtp.keeper verdict).
Proof.
  split; [done | intros h a b c; cbn | intros h u p; cbn]; case_bool_decide; done.
Qed.

Definition dialogue : string :=
  print_cmd (Cmd.Ehlo "a.domain") +:+ (print_cmd Cmd.AuthPlainEmpty +:+ (print_cmd (Cmd.Mail "ship@sea.com" false) +:+
  (print_cmd (Cmd.Rcpt "fish@sea.com") +:+ (print_cmd Cmd.Data +:+ (wire ["Hello"; ".World"] +:+ print_cmd Cmd.Quit))))).

Lemma callbacks_conform_witness :
  conforms (needs_auth [Plain])
    (handler (@start_session SampleSmtp.combinators SampleSmtp.decoder _ (@logged _ (SampleSmtp.keeper OK))
      (build "mx" [Plain] true false SampleSmtp.local (EmptyString, [])) dialogue (Some dialogue)).1.1).2 = true.
Proof.
  exact (@callbacks_conform SampleSmtp.combinators SampleSmtp.decoder string (SampleSmtp.keeper OK) (keeper_ok OK)
    "mx" [Plain] true false SampleSmtp.local EmptyString dialogue (Some dialogue)).
Defined.

Lemma no_credentials_in_the_clear_witness :
  [Plain] <> [] /\
  Forall is_greeting (handler (@handle_session SampleSmtp.combinators SampleSmtp.decoder _ (@logged _ (SampleSmtp.keeper OK))
    (build "mx" [Plain] true false SampleSmtp.local (EmptyString, [])) dialogue).1.1).2.
Proof.
  split; [discriminate|].
  refine (@no_credentials_in_the_clear SampleSmtp.combinators SampleSmtp.decoder reference_ok string (SampleSmtp.keeper OK)
    "mx" [Plain] true SampleSmtp.local EmptyString dialogue _). discriminate.
Defined.

Lemma message_is_transparent_witness :
  Forall (fun b => contains_byte LF b = false) ["Hello"; ".World"] /\
  @handle_session SampleSmtp.combinators SampleSmtp.decoder _ (SampleSmtp.keeper OK) (SampleSmtp.in_data "mx")
    (wire ["Hello"; ".World"] +:+ print_cmd Cmd.Quit) =
  let '(s', out, r) := @handle_session SampleSmtp.combinators SampleSmtp.decoder _ (SampleSmtp.keeper OK)
    (mkSession "mx" ("Hello" +:+ (CRLF +:+ (".World" +:+ CRLF)))
      (set_smtp (new_machine SampleSmtp.local [] true false) (Some (Hello "a.domain")))) (print_cmd Cmd.Quit) in
  (s', (write_to OK ++ out)%string, r).
Proof.
  assert (Hb : Forall (fun b => contains_byte LF b = false) ["Hello"; ".World"]) by (repeat constructor).
  split; [exact Hb|].
  refine (@message_is_transparent SampleSmtp.combinators SampleSmtp.decoder string (SampleSmtp.keeper OK)
    (SampleSmtp.in_data "mx") "a.domain" ["Hello"; ".World"] (print_cmd Cmd.Quit) _ _ Hb _ _); first [reflexivity | intros ? ?; reflexivity].
Defined.

Lemma refused_message_silences_session_witness :
  Forall (fun l => l <> END_OF_DATA) (stream_lines (print_cmd Cmd.Rset +:+ print_cmd Cmd.Quit)) /\
  @handle_session SampleSmtp.combinators SampleSmtp.decoder _ (SampleSmtp.keeper (custom 451 "later")) (SampleSmtp.in_data "mx")
    (END_OF_DATA +:+ (print_cmd Cmd.Rset +:+ print_cmd Cmd.Quit)) =
  (mkSession "mx" (print_cmd Cmd.Rset +:+ print_cmd Cmd.Quit) (fsm (SampleSmtp.in_data "mx")),
   write_to (custom 451 "later"), Err UnexpectedEof).
Proof.
  assert (Hl : Forall (fun l => l <> END_OF_DATA) (stream_lines (print_cmd Cmd.Rset +:+ print_cmd Cmd.Quit))).
  { vm_compute. repeat constructor; discriminate. }
  split; [exact Hl|].
  refine (@refused_message_silences_session SampleSmtp.combinators SampleSmtp.decoder string
    (SampleSmtp.keeper (custom 451 "later")) (SampleSmtp.in_data "mx") "a.domain" (print_cmd Cmd.Rset +:+ print_cmd Cmd.Quit)
    _ _ _ _ Hl); first [reflexivity | intros ? ?; reflexivity].
Defined.

Lemma bare_line_feed_ends_message_witness :
  @handle_session SampleSmtp.combinators SampleSmtp.decoder _ (SampleSmtp.keeper OK) (SampleSmtp.in_data "mx")
    ("text" +:+ String LF (END_OF_DATA +:+ print_cmd (Cmd.Mail "eve@sea.com" false))) =
  let '(s', out, r) := @handle_session SampleSmtp.combinators SampleSmtp.decoder _ (SampleSmtp.keeper OK)
    (mkSession "mx" ("text" +:+ String LF EmptyString)
      (set_smtp (new_machine SampleSmtp.local [] true false) (Some (Hello "a.domain")))) (print_cmd (Cmd.Mail "eve@sea.com" false)) in
  (s', (write_to OK ++ out)%string, r).
Proof.
  refine (@bare_line_feed_ends_message SampleSmtp.combinators SampleSmtp.decoder string (SampleSmtp.keeper OK)
    (SampleSmtp.in_data "mx") "a.domain" "text" (print_cmd (Cmd.Mail "eve@sea.com" false)) _ _ _ _ _ _); first [reflexivity | intros ? ?; reflexivity].
Defined.

Lemma parse_print_witness :
  printable (Cmd.Mail "ship@sea.com" true) /\
  @parse SampleSmtp.combinators SampleSmtp.decoder (print_cmd (Cmd.Mail "ship@sea.com" true)) = Ok (Cmd.Mail "ship@sea.com" true).
Proof.
  assert (Hp : printable (Cmd.Mail "ship@sea.com" true)) by (split; [discriminate | split; vm_compute; reflexivity]).
  split; [exact Hp|]. exact (@parse_print SampleSmtp.combinators SampleSmtp.decoder reference_ok _ Hp).
Defined.

Lemma null_sender_is_refused_witness :
  @parse SampleSmtp.combinators SampleSmtp.decoder ("MAIL FROM:<>" +:+ CRLF) = Err SYNTAX_ERROR.
Proof. exact (proj1 (@null_sender_is_refused SampleSmtp.combinators SampleSmtp.decoder reference_ok)). Defined.
