(* ===== verification/Email.v ===== *)
(** * Email: mail domains, routes and the life of a message (crates/rf/src/email.rs)

    A mail domain is a platform resource; its messages live in one replicated
    database per domain and their text in the object store.  [EmailDomainSpec],
    [validate_domain], [split_address], [route_for], [encode_send_request] and
    [decode_send_request] are pure functions of the source.  [Stmt] has one constructor for each
    statement that writes and [exec] its meaning.  The handlers are written in a monad over [World]: the
    databases, the object store and a counter that indexes the clock readings, the random
    identifiers and the faults of the database, so that every statement may fail
    before or after it took effect.  DNS, message authentication, the MIME parser
    and DKIM are third-party code; the object store is the interface [R2]. *)

From Stdlib Require Import ZArith Lia Ascii.
From stdpp Require Import prelude gmap sorting strings list pretty.
From S2P Require Import Prelude Text Hlc Identity Envelope Kv Claim Manifest Quorum DataAudit Observability Store Node NodeFacts Resource Hostname.
Open Scope Z_scope.

Definition EMAIL_DOMAIN_KIND : string := "email_domain".
Definition MAX_EMAIL_BYTES : Z := 63 * 1024 * 1024.
Definition DEFAULT_MESSAGE_BYTES : Z := 25 * 1024 * 1024.
Definition MAX_ROUTES : Z := 512.
Definition MAX_SEND_METADATA_BYTES : Z := 64 * 1024.
Definition OUTBOUND_LEASE_MS : Z := 2 * 60 * 1000.
Definition OUTBOUND_MAX_ATTEMPTS : Z := 5.

(** ** Domains and routes *)

Inductive EmailMatcher : Type :=
| Exact (value : string)
| Prefix (value : string)
| CatchAll.

Inductive EmailDestination : Type :=
| ToWorker (worker : string)
| Forward (addresses : list string)
| DropMail.

Record EmailRoute : Type := mkRoute {
  route_id : string;
  priority : Z;
  enabled : bool;
  matcher : EmailMatcher;
  destination : EmailDestination
}.

Record EmailDomainSpec : Type := mkDomainSpec {
  em_description : string;
  em_domain : string;
  verification_challenge : string;
  mx_hostname : string;
  em_bucket : string;
  object_prefix : string;
  routes : list EmailRoute;
  max_message_bytes : Z;
  inbound_per_minute : Z;
  outbound_per_minute : Z;
  retention_days : Z;
  dkim_selector : string;
  dkim_public_key : string;
  dkim_private_key_env : string;
  em_suspended : bool;
  suspend_reason : string
}.

Inductive EmailError : Type :=
| EmDescriptionTooLong
| EmBadDomain
| EmBadMx
| EmBadChallenge
| EmBadBucket
| EmBadPrefix
| EmTooManyRoutes
| EmBadRouteId (id : string)
| EmBadExactRoute (value : string)
| EmBadPrefixRoute (value : string)
| EmBadWorker (worker : string)
| EmBadForward
| EmDuplicateRoute (id : string)
| EmDuplicateExact (value : string)
| EmBadSize
| EmBadRate
| EmBadRetention
| EmBadSelector
| EmBadPublicKey
| EmBadKeyEnv
| EmBadAddress
| EmNotADomain
| EmSpecUnreadable
| EmResource (e : ResourceError)
| EmTruncated
| EmMetadataLength
| EmMetadata
| EmTooLarge
| EmDomainMissing
| EmSuspended
| EmEmpty
| EmRecipientCount
| EmNotVerified
| EmRateLimited
| EmUnavailable
| EmConstraint
| EmStorage (e : string)
| EmNoRecipient
| EmConflict
| EmForeignSender
| EmNoDkim
| EmNotRfc822
| EmNoFrom
| EmLeaseLost
| EmNoRoute
| EmNoObject
| EmWorker (e : string)
| EmBadReject
| EmTooManyHops
| EmBadHeaders.

(** [valid_domain] and [valid_selector]. *)
Definition valid_domain (domain : string) : bool :=
  valid_hostname domain && contains_byte "." domain && (slen domain <=? 253).

Definition valid_selector (selector : string) : bool :=
  negb (is_empty selector) && (slen selector <=? 63)
  && all_bytes (fun b => is_ascii_alphanumeric b || bool_decide (b = "-"%char) || bool_decide (b = "_"%char)) selector.

(** [validate_prefix]. *)
Definition validate_prefix (prefix : string) : result unit EmailError :=
  if is_empty prefix || (512 <? slen prefix) || starts_with "/" prefix || ends_with_byte "/" prefix
     || contains ".." prefix || contains_byte "\" prefix || contains_byte (ascii_of_nat 13) prefix
     || contains_byte (ascii_of_nat 10) prefix
  then Err EmBadPrefix else Ok tt.

(** The ASCII bytes of [valid_local_match_char]. *)
Definition local_byte (b : ascii) : bool :=
  is_ascii_alphanumeric b
  || contains_byte b "!#$%&'*+-/=?^_`{|}~.".

(** The characters of UTF-8 text satisfy [valid_local_match_char]: ASCII characters
    by [local_byte], the others when they are neither control characters (U+0080 to
    U+009F) nor blanks. *)
Fixpoint local_chars (s : string) : bool :=
  match s with
  | EmptyString => true
  | String c s' =>
      (if byte_of c <? 128 then local_byte c
       else if byte_of c <? 192 then true
       else bool_decide (ws_len s = 0%nat)
            && negb (match s' with
                     | String d _ => (byte_of c =? 194) && (byte_of d <? 160)
                     | EmptyString => false
                     end))
      && local_chars s'
  end.

(** [split_address]. *)
Definition split_address (address : string) : result (string * string) EmailError :=
  if (320 <? slen address) || contains_byte (ascii_of_nat 13) address || contains_byte (ascii_of_nat 10) address
     || contains_byte " " address || contains_byte "<" address || contains_byte ">" address
  then Err EmBadAddress
  else
    match rsplit_once "@" address with
    | None => Err EmBadAddress
    | Some (local, domain) =>
        if is_empty local || (64 <? slen local) || starts_with "." local || ends_with_byte "." local
           || contains ".." local || negb (local_chars local) || negb (valid_domain (to_ascii_lowercase domain))
        then Err EmBadAddress
        else Ok (local, domain)
    end.

(** [normalize_address]. *)
Definition normalize_address (address : string) : result string EmailError :=
  let? (local, domain) := split_address address in
  Ok (local ++ "@" ++ to_ascii_lowercase domain)%string.

Fixpoint all_addresses (addresses : list string) : result unit EmailError :=
  match addresses with
  | [] => Ok tt
  | a :: addresses' => let? _ := split_address a in all_addresses addresses'
  end.

(** [EmailRoute::validate]. *)
Definition validate_route (r : EmailRoute) (domain : string) : result unit EmailError :=
  if negb (valid_name (route_id r)) then Err (EmBadRouteId (route_id r))
  else
    let? _ :=
      match matcher r with
      | Exact value =>
          let? (local, address_domain) := split_address value in
          if negb (bool_decide (address_domain = domain)) || (64 <? slen local) then Err (EmBadExactRoute value) else Ok tt
      | Prefix value =>
          if is_empty value || (64 <? slen value) || negb (local_chars value) then Err (EmBadPrefixRoute value) else Ok tt
      | CatchAll => Ok tt
      end in
    match destination r with
    | ToWorker worker => if negb (valid_name worker) then Err (EmBadWorker worker) else Ok tt
    | Forward addresses =>
        if bool_decide (addresses = []) || (32 <? Z.of_nat (length addresses)) then Err EmBadForward
        else all_addresses addresses
    | DropMail => Ok tt
    end.

(** The loop of [EmailDomainSpec::validate] over the routes, with its two sets. *)
Fixpoint check_routes (domain : string) (ids exact : gset string) (rs : list EmailRoute) : result unit EmailError :=
  match rs with
  | [] => Ok tt
  | r :: rs' =>
      let? _ := validate_route r domain in
      if bool_decide (route_id r ∈ ids) then Err (EmDuplicateRoute (route_id r))
      else
        match matcher r with
        | Exact value =>
            if bool_decide (to_ascii_lowercase value ∈ exact) then Err (EmDuplicateExact value)
            else check_routes domain ({[route_id r]} ∪ ids) ({[to_ascii_lowercase value]} ∪ exact) rs'
        | _ => check_routes domain ({[route_id r]} ∪ ids) exact rs'
        end
  end.

Definition challenge_text (c : string) : bool :=
  (16 <=? slen c) && (slen c <=? 256)
  && all_bytes (fun b => is_ascii_alphanumeric b || bool_decide (b = "-"%char) || bool_decide (b = "_"%char)) c.

(** [EmailDomainSpec::validate]. *)
Definition validate_domain (s : EmailDomainSpec) : result unit EmailError :=
  if (2000 <? slen (em_description s)) || (2000 <? slen (suspend_reason s)) then Err EmDescriptionTooLong
  else if negb (valid_domain (em_domain s)) || negb (bool_decide (em_domain s = to_ascii_lowercase (em_domain s))) then Err EmBadDomain
  else if negb (valid_domain (mx_hostname s)) || negb (bool_decide (mx_hostname s = to_ascii_lowercase (mx_hostname s))) then Err EmBadMx
  else if negb (challenge_text (verification_challenge s)) then Err EmBadChallenge
  else if negb (valid_name (em_bucket s)) then Err EmBadBucket
  else
    let? _ := validate_prefix (object_prefix s) in
    if MAX_ROUTES <? Z.of_nat (length (routes s)) then Err EmTooManyRoutes
    else
      let? _ := check_routes (em_domain s) ∅ ∅ (routes s) in
      if negb ((1 <=? max_message_bytes s) && (max_message_bytes s <=? MAX_EMAIL_BYTES)) then Err EmBadSize
      else if (inbound_per_minute s =? 0) || (outbound_per_minute s =? 0) then Err EmBadRate
      else if negb ((1 <=? retention_days s) && (retention_days s <=? 3650)) then Err EmBadRetention
      else if negb (valid_selector (dkim_selector s)) then Err EmBadSelector
      else if negb (is_empty (dkim_public_key s))
              && (negb (starts_with "v=DKIM1;" (dkim_public_key s))
                  || contains_byte (ascii_of_nat 13) (dkim_public_key s)
                  || contains_byte (ascii_of_nat 10) (dkim_public_key s)
                  || (16384 <? slen (dkim_public_key s)))
           then Err EmBadPublicKey
      else if negb (is_empty (dkim_private_key_env s))
              && (negb (starts_with "RF_EMAIL_DKIM_" (dkim_private_key_env s))
                  || (128 <? slen (dkim_private_key_env s))
                  || negb (all_bytes (fun b => is_ascii_upper b || is_ascii_digit b || bool_decide (b = "_"%char))
                             (dkim_private_key_env s)))
           then Err EmBadKeyEnv
      else Ok tt.

Definition ownership_txt_name (s : EmailDomainSpec) : string := ("_randallflare-verify." ++ em_domain s)%string.
Definition ownership_txt_value (s : EmailDomainSpec) : string :=
  ("rf-email-verification=" ++ verification_challenge s)%string.
Definition dkim_txt_name (s : EmailDomainSpec) : string := (dkim_selector s ++ "._domainkey." ++ em_domain s)%string.

(** ** Routing *)

(** The filter of [route_for]. *)
Definition route_matches (local recipient : string) (r : EmailRoute) : bool :=
  enabled r &&
  match matcher r with
  | Exact value => eq_ignore_ascii_case value recipient
  | Prefix value => starts_with (to_ascii_lowercase value) local
  | CatchAll => true
  end.

Definition specificity (m : EmailMatcher) : Z :=
  match m with Exact _ => 0 | Prefix _ => 1 | CatchAll => 2 end.

(** The sort key, [(specificity, priority, id)]. *)
Definition route_key (r : EmailRoute) : Z * (Z * string) := (specificity (matcher r), (priority r, route_id r)).

(** [route_for]: the first of the matching routes in the (stable) order of the key. *)
Definition route_for (s : EmailDomainSpec) (recipient : string) : option EmailRoute :=
  match split_address recipient with
  | Err _ => None
  | Ok (local, domain) =>
      if negb (eq_ignore_ascii_case domain (em_domain s)) then None
      else min_by_key route_key (filter (fun r => route_matches (to_ascii_lowercase local) recipient r = true) (routes s))
  end.

(** ** The wire form of a send request *)

Record EmailSendMetadata : Type := mkSendMetadata {
  send_from : string;
  send_recipients : list string
}.

(** [serde_json] at this type. *)
Class MetadataJson := {
  metadata_to_vec : EmailSendMetadata -> bytes;
  metadata_from_slice : bytes -> option EmailSendMetadata
}.
Class MetadataJsonOk {mj : MetadataJson} : Prop :=
  metadata_roundtrip : forall m, metadata_from_slice (metadata_to_vec m) = Some m.

(** [u32::to_be_bytes] and [u32::from_be_bytes]. *)
Definition u32_be (x : Z) : bytes := [x / 2 ^ 24 mod 256; x / 2 ^ 16 mod 256; x / 2 ^ 8 mod 256; x mod 256].
Definition from_be (b : bytes) : Z := foldl (fun acc x => acc * 256 + x) 0 b.

Definition blen (b : bytes) : Z := Z.of_nat (length b).

(** [encode_send_request]. *)
Definition encode_send_request {mj : MetadataJson} (m : EmailSendMetadata) (raw : bytes) : result bytes EmailError :=
  if MAX_EMAIL_BYTES <? blen raw then Err EmTooLarge
  else
    let encoded := metadata_to_vec m in
    if MAX_SEND_METADATA_BYTES <? blen encoded then Err EmMetadataLength
    else Ok (u32_be (wrap 32 (blen encoded)) ++ encoded ++ raw).

(** [decode_send_request]. *)
Definition decode_send_request {mj : MetadataJson} (body : bytes) : result (EmailSendMetadata * bytes) EmailError :=
  if blen body <? 4 then Err EmTruncated
  else
    let metadata_len := from_be (take 4 body) in
    if (MAX_SEND_METADATA_BYTES <? metadata_len) || (blen body <? 4 + metadata_len) then Err EmMetadataLength
    else
      match metadata_from_slice (take (Z.to_nat metadata_len) (drop 4 body)) with
      | None => Err EmMetadata
      | Some metadata =>
          let raw := drop (4 + Z.to_nat metadata_len) body in
          if MAX_EMAIL_BYTES <? blen raw then Err EmTooLarge else Ok (metadata, raw)
      end.

(** ** The tables of a domain *)

Record EmailVerification : Type := mkVerification {
  v_domain : string;
  ownership_ok : bool;
  mx_ok : bool;
  dkim_ok : bool;
  spf_present : bool;
  verified : bool;
  ownership_observed : list string;
  mx_observed : list string;
  dkim_observed : list string;
  spf_observed : list string;
  checked_at_ms : Z;
  v_error : option string
}.

Record AuthSummary : Type := mkAuthSummary {
  auth_header : string;
  auth_spf : string;
  auth_dkim : string;
  auth_dmarc : string;
  auth_arc : string
}.

(** A row of [email_messages], in four groups of columns: what the message is, how its delivery
    stands, how its failure notice stands, and the transport policy used. *)
Record Source : Type := mkSource {
  direction : string;
  em_mail_from : string;
  rcpt_to : string;
  subject : option string;
  message_id : option string;
  object_key : string;
  em_size : Z;
  em_sha256 : string;
  em_route_id : option string;
  target : option string;
  auth_results : option AuthSummary;
  created_at_ms : Z
}.

Record Life : Type := mkLife {
  status : string;
  attempts : Z;
  next_attempt_ms : option Z;
  last_error : option string;
  smtp_response : option string;
  delivered_at_ms : option Z;
  lease_token : option string;
  lease_until_ms : option Z;
  em_leased_by : option string
}.

Record Dsn : Type := mkDsn {
  dsn_status : option string;
  dsn_message_id : option string;
  dsn_attempts : Z;
  dsn_next_attempt_ms : option Z;
  dsn_last_error : option string;
  dsn_lease_token : option string;
  dsn_lease_until_ms : option Z
}.

Record MtaSts : Type := mkMtaSts {
  mta_sts_mode : option string;
  mta_sts_policy_id : option string;
  mta_sts_result : option string
}.

Record EmailRow : Type := mkEmailRow {
  source : Source;
  life : Life;
  dsn : Dsn;
  mta_sts : MtaSts;
  updated_at_ms : Z
}.

Definition no_dsn : Dsn := mkDsn None None 0 None None None None.
Definition no_mta_sts : MtaSts := mkMtaSts None None None.

(** The values of an audit record's JSON. *)
Inductive Field : Type := FText (s : string) | FNum (z : Z) | FBool (b : bool) | FNull.

Record EmailAuditEvent : Type := mkAudit {
  audit_id : string;
  audit_kind : string;
  audit_detail : list (string * Field);
  audit_created_at_ms : Z
}.

Record EmailDb : Type := mkEmailDb {
  verification : option EmailVerification;
  messages : gmap string EmailRow;
  rates : gmap (string * Z) Z;
  audit : list EmailAuditEvent
}.
Definition empty_db : EmailDb := mkEmailDb None ∅ ∅ [].
Definition set_messages (d : EmailDb) (m : gmap string EmailRow) : EmailDb := mkEmailDb (verification d) m (rates d) (audit d).

(** The statements that write; [?n] parameters are arguments. *)
Inductive Stmt : Type :=
| PutVerification (v : EmailVerification)
| InsertOrIgnore (id : string) (r : EmailRow)
| InsertMessage (id : string) (r : EmailRow)
| RecoverInbound (now : Z)
| RecoverOutbound (now : Z)
| ClaimInbound (lease : string) (until : Z) (by_node : string) (now : Z)
| ClaimOutbound (lease : string) (until : Z) (by_node : string) (now : Z)
| FinishInbound (status : string) (next : option Z) (error response : option string) (now : Z) (id lease : string)
| FinishOutbound (status : string) (next : option Z) (error response : option string) (delivered : option Z) (now : Z) (id lease : string)
| SetMtaSts (m : MtaSts) (now : Z) (id lease : string)
| ClaimDsn (lease : string) (until now : Z)
| FinishDsn (status : string) (mid : option string) (next : option Z) (error : option string) (now : Z) (id lease : string)
| AddRate (scope : string) (window amount : Z)
| AppendAudit (e : EmailAuditEvent)
| DeleteExpired (cutoff : Z)
| DeleteAudit (cutoff : Z)
| DeleteRates (before : Z)
| OtherTable.

Definition with_life (r : EmailRow) (l : Life) (now : Z) : EmailRow := mkEmailRow (source r) l (dsn r) (mta_sts r) now.

(** [COALESCE(x, 0) <= now]. *)
Definition due (x : option Z) (now : Z) : bool := default 0 x <=? now.
(** [x IS NOT NULL AND x < now]. *)
Definition lapsed (x : option Z) (now : Z) : bool := match x with Some u => u <? now | None => false end.

(** The rows a claim may take, and how it takes one. *)
Definition claimable (dir st : string) (now : Z) (r : EmailRow) : bool :=
  bool_decide (direction (source r) = dir) && bool_decide (status (life r) = st)
  && (attempts (life r) <? OUTBOUND_MAX_ATTEMPTS) && due (next_attempt_ms (life r)) now.
Definition claimed (st lease : string) (until : Z) (by_node : string) (now : Z) (r : EmailRow) : EmailRow :=
  let l := life r in
  with_life r (mkLife st (attempts l + 1) (next_attempt_ms l) (last_error l) (smtp_response l) (delivered_at_ms l)
    (Some lease) (Some until) (Some by_node)) now.

(** [ORDER BY created_at_ms, id LIMIT 1] and [ORDER BY updated_at_ms, id LIMIT 1]. *)
Definition first_created (p : EmailRow -> bool) (m : gmap string EmailRow) : option (string * EmailRow) :=
  min_by_key (fun ir => (created_at_ms (source ir.2), ir.1)) (filter (fun ir => p ir.2 = true) (map_to_list m)).
Definition first_updated (p : EmailRow -> bool) (m : gmap string EmailRow) : option (string * EmailRow) :=
  min_by_key (fun ir => (updated_at_ms ir.2, ir.1)) (filter (fun ir => p ir.2 = true) (map_to_list m)).

(** A delivery whose lease lapsed: failed after the last attempt, else to be tried again. *)
Definition stranded (dir st : string) (now : Z) (r : EmailRow) : bool :=
  bool_decide (direction (source r) = dir) && bool_decide (status (life r) = st) && lapsed (lease_until_ms (life r)) now.
Definition recovered (again lost kept : string) (now : Z) (l : Life) : Life :=
  let spent := OUTBOUND_MAX_ATTEMPTS <=? attempts l in
  mkLife (if spent then "failed" else again) (attempts l) (if spent then None else Some now)
    (Some (if spent then lost else kept)) (smtp_response l) (delivered_at_ms l) None None None.

Definition held (st : string) (lease : string) (r : EmailRow) : bool :=
  bool_decide (status (life r) = st) && bool_decide (lease_token (life r) = Some lease).

Definition dsn_claimable (now : Z) (r : EmailRow) : bool :=
  bool_decide (direction (source r) = "outbound") && bool_decide (status (life r) = "failed")
  && (dsn_attempts (dsn r) <? OUTBOUND_MAX_ATTEMPTS)
  && ((bool_decide (default "pending" (dsn_status (dsn r)) = "pending") && due (dsn_next_attempt_ms (dsn r)) now)
      || (bool_decide (dsn_status (dsn r) = Some "generating")
          && match dsn_lease_until_ms (dsn r) with Some u => u <=? now | None => false end)).

Definition terminal (st : string) : bool :=
  bool_decide (st ∈ ["sent"; "failed"; "delivered"; "rejected"; "forwarded"; "dropped"]).

(** Change one row that satisfies [p]; the rows returned. *)
Definition update_one (d : EmailDb) (id : string) (p : EmailRow -> bool) (f : EmailRow -> EmailRow) :
  EmailDb * list (string * EmailRow) :=
  match messages d !! id with
  | Some r => if p r then (set_messages d (<[id := f r]> (messages d)), [(id, f r)]) else (d, [])
  | None => (d, [])
  end.
Definition update_first (d : EmailDb) (pick : option (string * EmailRow)) (f : EmailRow -> EmailRow) :
  EmailDb * list (string * EmailRow) :=
  match pick with
  | Some (id, r) => (set_messages d (<[id := f r]> (messages d)), [(id, f r)])
  | None => (d, [])
  end.
Definition update_all (d : EmailDb) (p : EmailRow -> bool) (f : EmailRow -> EmailRow) : EmailDb * list (string * EmailRow) :=
  (set_messages d ((fun r => if p r then f r else r) <$> messages d),
   map (fun ir => (ir.1, f ir.2)) (filter (fun ir => p ir.2 = true) (map_to_list (messages d)))).

Definition lost_worker : string := "邮件事件节点失联，且已达到最大重试次数".
Definition kept_worker : string := "邮件事件节点失联，租约已恢复".
Definition lost_sender : string := "投递节点失联，且已达到最大重试次数".
Definition kept_sender : string := "投递节点失联，租约已恢复".

(** The columns of the failure notice when a delivery ends. *)
Definition dsn_after (failed delivered : bool) (now : Z) (x : Dsn) : Dsn :=
  mkDsn (if failed then Some (default "pending" (dsn_status x))
         else if delivered then Some "not_needed" else dsn_status x)
    (dsn_message_id x) (dsn_attempts x) (if failed then Some now else dsn_next_attempt_ms x)
    (dsn_last_error x) (dsn_lease_token x) (dsn_lease_until_ms x).

(** One statement: the tables after it and the rows it touched in
    [email_messages]; [None] when a key exists already. *)
Definition run (d : EmailDb) (s : Stmt) : option (EmailDb * list (string * EmailRow)) :=
  match s with
  | PutVerification v => Some (mkEmailDb (Some v) (messages d) (rates d) (audit d), [])
  | InsertOrIgnore id r =>
      match messages d !! id with
      | Some _ => Some (d, [])
      | None => Some (set_messages d (<[id := r]> (messages d)), [(id, r)])
      end
  | InsertMessage id r =>
      match messages d !! id with
      | Some _ => None
      | None => Some (set_messages d (<[id := r]> (messages d)), [(id, r)])
      end
  | RecoverInbound now =>
      Some (update_all d (stranded "inbound" "running" now)
        (fun r => with_life r (recovered "pending" lost_worker kept_worker now (life r)) now))
  | RecoverOutbound now =>
      Some (update_all d (stranded "outbound" "sending" now)
        (fun r => mkEmailRow (source r) (recovered "queued" lost_sender kept_sender now (life r))
           (dsn_after (OUTBOUND_MAX_ATTEMPTS <=? attempts (life r)) false now (dsn r)) (mta_sts r) now))
  | ClaimInbound lease until by_node now =>
      Some (update_first d (first_created (claimable "inbound" "pending" now) (messages d)) (claimed "running" lease until by_node now))
  | ClaimOutbound lease until by_node now =>
      Some (update_first d (first_created (claimable "outbound" "queued" now) (messages d)) (claimed "sending" lease until by_node now))
  | FinishInbound st next error response now id lease =>
      Some (update_one d id (held "running" lease) (fun r =>
        with_life r (mkLife st (attempts (life r)) next error response
          (if bool_decide (st = "delivered") || bool_decide (st = "forwarded") then Some now else None)
          None None None) now))
  | FinishOutbound st next error response delivered now id lease =>
      Some (update_one d id (held "sending" lease) (fun r =>
        mkEmailRow (source r) (mkLife st (attempts (life r)) next error response delivered None None None)
          (dsn_after (bool_decide (st = "failed")) (bool_decide (st = "delivered")) now (dsn r)) (mta_sts r) now))
  | SetMtaSts m now id lease =>
      Some (update_one d id (held "sending" lease) (fun r => mkEmailRow (source r) (life r) (dsn r) m now))
  | ClaimDsn lease until now =>
      Some (update_first d (first_updated (dsn_claimable now) (messages d)) (fun r =>
        let x := dsn r in
        mkEmailRow (source r) (life r)
          (mkDsn (Some "generating") (dsn_message_id x) (dsn_attempts x + 1) (dsn_next_attempt_ms x) (dsn_last_error x)
            (Some lease) (Some until)) (mta_sts r) now))
  | FinishDsn st mid next error now id lease =>
      Some (update_one d id
        (fun r => bool_decide (dsn_status (dsn r) = Some "generating") && bool_decide (dsn_lease_token (dsn r) = Some lease))
        (fun r => mkEmailRow (source r) (life r) (mkDsn (Some st) mid (dsn_attempts (dsn r)) next error None None) (mta_sts r) now))
  | AddRate scope window amount =>
      Some (mkEmailDb (verification d) (messages d)
        (<[(scope, window) := default 0 (rates d !! (scope, window)) + amount]> (rates d)) (audit d), [])
  | AppendAudit e => Some (mkEmailDb (verification d) (messages d) (rates d) (audit d ++ [e]), [])
  | DeleteExpired cutoff =>
      let gone ir := (created_at_ms (source ir.2) <? cutoff) && terminal (status (life ir.2)) in
      Some (set_messages d (filter (fun ir => gone ir = false) (messages d)),
            filter (fun ir => gone ir = true) (map_to_list (messages d)))
  | DeleteAudit cutoff =>
      Some (mkEmailDb (verification d) (messages d) (rates d) (filter (fun e => cutoff <= audit_created_at_ms e) (audit d)), [])
  | DeleteRates before =>
      Some (mkEmailDb (verification d) (messages d) (filter (fun ir => before <= ir.1.2) (rates d)) (audit d), [])
  | OtherTable => Some (d, [])
  end.

(** ** The world of a handler *)

(** What becomes of one statement: it runs; it is refused; or it runs and the
    answer is lost. *)
Inductive Fault : Type := Healthy | Refused | Unacknowledged.

(** The object store, as far as mail uses it.  An object that was put reads back,
    and an operation leaves the other objects alone. *)
Class R2 (O : Type) := {
  put_object : O -> string -> string -> string -> O * result unit string;
  get_object : O -> string -> string -> result (option string) string;
  delete_object : O -> string -> string -> O * result unit string
}.
Class R2Ok (O : Type) {r2 : R2 O} : Prop := {
  put_get o bucket key raw : (put_object o bucket key raw).2 = Ok tt ->
    get_object (put_object o bucket key raw).1 bucket key = Ok (Some raw);
  put_other o bucket key raw b' k' : (bucket, key) <> (b', k') ->
    get_object (put_object o bucket key raw).1 b' k' = get_object o b' k';
  delete_other o bucket key b' k' : (bucket, key) <> (b', k') ->
    get_object (delete_object o bucket key).1 b' k' = get_object o b' k'
}.

(** The mail domains a node knows, by resource name. *)
Class Directory := {
  email_domain_record : string -> option EmailDomainSpec;
  email_domain_records : list (string * EmailDomainSpec)
}.
Class DirectoryOk {dir : Directory} : Prop :=
  directory_agrees : forall name spec,
    (name, spec) ∈ email_domain_records <-> email_domain_record name = Some spec.

Record InboundEnvelope {Ip : Type} : Type := mkInbound {
  env_helo : string;
  env_ip : Ip;
  env_from : string;
  env_recipients : list string
}.
Arguments InboundEnvelope : clear implicits.
Arguments mkInbound {Ip}.

Record ParsedMail : Type := mkParsed {
  p_subject : option string;
  p_message_id : option string;
  p_has_from : bool
}.

(** Third-party code: the authentication of a message against DNS, the MIME
    parser, the calendar of [time] and URL-safe base64. *)
Class MailLib (Ip : Type) := {
  authenticate_message : string -> InboundEnvelope Ip -> string -> option AuthSummary;
  mail_parse : string -> option ParsedMail;
  utc_date : Z -> Z * Z * Z;
  b64url : bytes -> string
}.

(** The status, route and target of an inbound message. *)
Definition dispose (route : option EmailRoute) : string * option string * option string :=
  match route with
  | None => ("rejected", None, None)
  | Some r =>
      match destination r with
      | ToWorker worker => ("pending", Some (route_id r), Some ("worker:" ++ worker)%string)
      | Forward addresses => ("pending", Some (route_id r), Some ("forward:" ++ String.concat "," addresses)%string)
      | DropMail => ("dropped", Some (route_id r), Some "drop")
      end
  end.

(** The rows [ingest_inbound_inner] and [queue_outbound_inner] insert. *)
Definition inbound_row (spec : EmailDomainSpec) (mail_from recipient raw key sha256 : string) (parsed : option ParsedMail)
    (auth : option AuthSummary) (timestamp : Z) : EmailRow :=
  let '(st, rid, tgt) := dispose (route_for spec recipient) in
  mkEmailRow
    (mkSource "inbound" mail_from recipient (parsed ≫= p_subject) (parsed ≫= p_message_id) key (slen raw) sha256 rid tgt auth timestamp)
    (mkLife st 0 None None None None None None None) no_dsn no_mta_sts timestamp.
Definition outbound_row (mail_from recipient raw key sha256 : string) (parsed : ParsedMail) (timestamp : Z) : EmailRow :=
  mkEmailRow
    (mkSource "outbound" mail_from recipient (p_subject parsed) (p_message_id parsed) key (slen raw) sha256 None (Some "smtp") None timestamp)
    (mkLife "queued" 0 (Some timestamp) None None None None None None) no_dsn no_mta_sts timestamp.

Record IngestedMessage : Type := mkIngested {
  ing_id : string;
  ing_recipient : string;
  ing_status : string;
  ing_route_id : option string
}.

Record QueuedMessage : Type := mkQueued {
  q_id : string;
  q_recipient : string;
  q_object_key : string
}.

(** ** Text of messages *)

(** [str::lines]. *)
Definition strip_cr (s : string) : string :=
  if ends_with_byte (ascii_of_nat 13) s then stake (String.length s - 1) s else s.
Definition str_lines (s : string) : list string :=
  let parts := split (ascii_of_nat 10) s in
  map strip_cr (match list.last parts with Some EmptyString => take (length parts - 1) parts | _ => parts end).

(** [header_safe]. *)
Definition header_safe (value : string) : string :=
  String.concat " " (split_whitespace (String.concat EmptyString
    (take 2000 (map (fun ch => if is_control ch then " " else ch) (chars value))))).

(** The header lines of a message: those before the first blank one. *)
Fixpoint take_headers (ls : list string) : list string :=
  match ls with
  | [] => []
  | l :: ls' => if is_empty (trim l) then [] else l :: take_headers ls'
  end.

(** [is_automatic_message]. *)
Definition auto_submitted (line : string) : option string :=
  '(name, value) ← split_once ":" line;
  if eq_ignore_ascii_case name "auto-submitted" then Some (trim value) else None.
Definition is_automatic_message (raw : string) : bool :=
  match list.head (omap auto_submitted (take_headers (str_lines raw))) with
  | Some value => negb (eq_ignore_ascii_case value "no")
  | None => false
  end.

(** [enhanced_status]: the first word of the form [5.1.1]. *)
Definition status_word (value : string) : bool :=
  match value with
  | String a (String b (String c (String d (String e EmptyString)))) =>
      (bool_decide (a = "4"%char) || bool_decide (a = "5"%char)) && bool_decide (b = "."%char) && is_ascii_digit c
      && bool_decide (d = "."%char) && is_ascii_digit e
  | _ => false
  end.
Definition enhanced_status (diagnostic : string) : string :=
  default "5.0.0" (list.head (filter (fun v => status_word v = true) (split_ascii_whitespace diagnostic))).

Definition CRLF : string := String (ascii_of_nat 13) (String (ascii_of_nat 10) EmptyString).

(** The loop of [add_forward_headers] over the additional headers. *)
Fixpoint add_headers (headers : string) (extra : list (string * string)) : result string EmailError :=
  match extra with
  | [] => Ok headers
  | (name, value) :: extra' =>
      if is_empty name || (128 <? slen name)
         || negb (all_bytes (fun b => is_ascii_alphanumeric b || bool_decide (b = "-"%char)) name)
         || (8192 <? slen value) || contains_byte (ascii_of_nat 13) value || contains_byte (ascii_of_nat 10) value
      then Err EmBadHeaders
      else if 32 * 1024 <? Z.min (slen headers + (slen name + slen value + 4)) u64_max then Err EmBadHeaders
      else add_headers (headers ++ name ++ ": " ++ value ++ CRLF)%string extra'
  end.

(** [add_forward_headers]; the lossy decoding of the text does not touch the bytes looked at. *)
Definition add_forward_headers (spec : EmailDomainSpec) (r : EmailRow) (raw : string) (extra : list (string * string)) :
  result string EmailError :=
  let hops := length (filter (fun l => starts_with "x-randallflare-forwarded:" (to_ascii_lowercase l) = true)
    (take_headers (str_lines raw))) in
  if (5 <=? hops)%nat then Err EmTooManyHops
  else if 128 <? Z.of_nat (length extra) then Err EmBadHeaders
  else
    let? headers := add_headers ("X-RandallFlare-Forwarded: " ++ em_domain spec ++ "; hop=" ++ pretty (Z.of_nat hops + 1)
      ++ CRLF ++ "X-RandallFlare-Original-To: " ++ rcpt_to (source r) ++ CRLF)%string extra in
    Ok (headers ++ raw)%string.

(** What the handlers ask of the outside: a worker's verdict on a message, DKIM
    signing, the recipient's transport policy and the delivery over SMTP. *)
Record WorkerEmailOutcome : Type := mkOutcome {
  reject : option string;
  forwards : list (string * list (string * string))
}.
Record MtaStsPolicy : Type := mkPolicy {
  policy_id : string;
  policy_mode : string;
  policy_fetched_at_ms : Z
}.
Record SmtpDelivery : Type := mkDelivery {
  response : string;
  mta_sts_testing_failure : option string
}.
Record DeliveryFailure : Type := mkFailure {
  permanent : bool;
  detail : string
}.
Class Outside := {
  dispatch_email_worker : string -> string * EmailRow -> string -> result WorkerEmailOutcome string;
  sign_dkim : EmailDomainSpec -> string -> result string string;
  discover_mta_sts_policy : string -> bool -> result (option MtaStsPolicy) string;
  deliver_direct_smtp : string -> string -> string -> string -> option MtaStsPolicy -> result SmtpDelivery DeliveryFailure;
  error_text : EmailError -> string
}.

Inductive InboundOutcome : Type :=
| Delivered
| Rejected (reason : string)
| Forwarded (count : Z).

Section pipeline.
Context {crypto : Crypto} {hex : Hex} {Ip : Type} {lib : MailLib Ip} {O : Type} {r2 : R2 O} {dir : Directory} {outside : Outside}.
(** The [n]th reading of the clock, random identifier and fault. *)
Context (now_at : nat -> Z) (id_at : nat -> string) (fault_at : nat -> Fault).
Context (node_id : string).

Record World : Type := mkWorld {
  dbs : gmap string EmailDb;
  objects : O;
  tick : nat
}.

Definition db (w : World) (name : string) : EmailDb := default empty_db (dbs w !! name).
Definition next (w : World) : World := mkWorld (dbs w) (objects w) (S (tick w)).
Definition set_db (w : World) (name : string) (d : EmailDb) : World := mkWorld (<[name := d]> (dbs w)) (objects w) (tick w).
Definition set_objects (w : World) (o : O) : World := mkWorld (dbs w) o (tick w).

(** Computations that change the world and may fail. *)
Definition M (A : Type) : Type := World -> World * result A EmailError.
Definition ret {A} (a : A) : M A := fun w => (w, Ok a).
Definition fail {A} (e : EmailError) : M A := fun w => (w, Err e).
Definition bind {A B} (m : M A) (k : A -> M B) : M B :=
  fun w => match m w with (w, Ok a) => k a w | (w, Err e) => (w, Err e) end.
Local Notation "'let!' x := m 'in' k" := (bind m (fun x => k))
  (at level 10, x pattern, m at level 100, k at level 200).

Definition pure {A} (r : result A EmailError) : M A := fun w => (w, r).
Definition check (b : bool) (e : EmailError) : M unit := if b then fail e else ret tt.

Definition now_ms : M Z := fun w => (next w, Ok (now_at (tick w))).
Definition new_id : M string := fun w => (next w, Ok (id_at (tick w))).

(** A statement on the database of a domain. *)
Definition exec (name : string) (s : Stmt) : M (list (string * EmailRow)) := fun w =>
  match fault_at (tick w) with
  | Refused => (next w, Err EmUnavailable)
  | Healthy =>
      match run (db w name) s with
      | None => (next w, Err EmConstraint)
      | Some (d, rows) => (next (set_db w name d), Ok rows)
      end
  | Unacknowledged =>
      match run (db w name) s with
      | None => (next w, Err EmConstraint)
      | Some (d, _) => (next (set_db w name d), Err EmUnavailable)
      end
  end.

(** A query. *)
Definition query (name : string) : M EmailDb := fun w =>
  match fault_at (tick w) with
  | Healthy => (next w, Ok (db w name))
  | _ => (next w, Err EmUnavailable)
  end.

(** [ensure_schema]: its statements change no row. *)
Definition ensure_schema (name : string) : M unit := let! _ := exec name OtherTable in ret tt.

(** [append_audit]. *)
Definition append_audit (name kind : string) (detail : list (string * Field)) : M unit :=
  let! id := new_id in
  let! now := now_ms in
  let! _ := exec name (AppendAudit (mkAudit id kind detail now)) in
  ret tt.

(** [latest_verification]. *)
Definition latest_verification (name : string) : M (option EmailVerification) :=
  let! _ := ensure_schema name in
  let! d := query name in
  ret (verification d).

Definition get_message (name id : string) : M (option EmailRow) :=
  let! _ := ensure_schema name in
  let! d := query name in
  ret (messages d !! id).

(** [enforce_rate_limit]. *)
Definition enforce_rate_limit (name scope : string) (limit increment : Z) : M unit :=
  let! now := now_ms in
  let window := now / 60000 * 60000 in
  let! _ := exec name (AddRate scope window increment) in
  let! d := query name in
  check (limit <? default 0 (rates d !! (scope, window))) EmRateLimited.

(** [outbound_retry_delay_ms]. *)
Definition outbound_retry_delay_ms (attempt : Z) : Z :=
  Z.min (30000 * 4 ^ Z.min (sat_sub attempt 1) 4) u64_max.

Definition NUL : string := String zero EmptyString.

(** [stable_id]. *)
Definition stable_id (seed : string) : string := b64url (take 16 (sha256 (as_bytes seed))).

Definition two_digits (z : Z) : string := if z <? 10 then ("0" ++ pretty z)%string else pretty z.

(** [object_key]. *)
Definition make_object_key (s : EmailDomainSpec) (direction : string) (timestamp : Z) (id : string) : string :=
  let '(y, m, d) := utc_date (timestamp / 1000) in
  (object_prefix s ++ "/" ++ direction ++ "/" ++ pretty y ++ "/" ++ two_digits m ++ "/" ++ two_digits d ++ "/" ++ id ++ ".eml")%string.

Definition put (bucket key raw : string) : M unit := fun w =>
  let '(o, r) := put_object (objects w) bucket key raw in
  (set_objects w o, match r with Ok _ => Ok tt | Err e => Err (EmStorage e) end).

Definition join2 (a b : string) : string := (a ++ NUL ++ b)%string.

(** One recipient of [ingest_inbound_inner]. *)
Definition ingest_recipient (name : string) (spec : EmailDomainSpec) (mail_from : string) (raw key sha256 : string)
    (parsed : option ParsedMail) (auth : option AuthSummary) (timestamp : Z) (idempotency : option string)
    (recipient : string) : M (option IngestedMessage) :=
  let! (_, recipient_domain) := pure (split_address recipient) in
  if negb (bool_decide (recipient_domain = em_domain spec)) then ret None
  else
    let '(st, rid, _) := dispose (route_for spec recipient) in
    let! id := match idempotency with
               | Some k => ret (stable_id (join2 "inbound-recipient" (join2 k recipient)))
               | None => new_id
               end in
    let! inserted := exec name (InsertOrIgnore id (inbound_row spec mail_from recipient raw key sha256 parsed auth timestamp)) in
    if bool_decide (length inserted = 1%nat) then
      let! _ := append_audit name "inbound_accepted" [("message_id", FText id); ("recipient", FText recipient); ("status", FText st)] in
      ret (Some (mkIngested id recipient st rid))
    else
      let! existing := get_message name id in
      match existing with
      | None => fail EmConflict
      | Some r => ret (Some (mkIngested id (rcpt_to (source r)) (status (life r)) (em_route_id (source r))))
      end.

Fixpoint ingest_recipients (f : string -> M (option IngestedMessage)) (recipients : list string) : M (list IngestedMessage) :=
  match recipients with
  | [] => ret []
  | r :: recipients' =>
      let! one := f r in
      let! rest := ingest_recipients f recipients' in
      ret (match one with Some m => m :: rest | None => rest end)
  end.

(** [ingest_inbound_inner] and [ingest_inbound]. *)
Definition ingest_inbound_inner (name : string) (e : InboundEnvelope Ip) (raw : string) (idempotency : option (string * Z)) :
  M (list IngestedMessage) :=
  match email_domain_record name with
  | None => fail EmDomainMissing
  | Some spec =>
      let! _ := check (em_suspended spec) EmSuspended in
      let! _ := check (max_message_bytes spec <? slen raw) EmTooLarge in
      let! _ := check (is_empty raw) EmEmpty in
      let! _ := check (bool_decide (env_recipients e = []) || (1000 <? Z.of_nat (length (env_recipients e)))) EmRecipientCount in
      let! _ := ensure_schema name in
      let! v := latest_verification name in
      let! _ := check (negb (match v with Some v => verified v | None => false end)) EmNotVerified in
      let! _ := match idempotency with
                | None => enforce_rate_limit name "inbound" (inbound_per_minute spec) (wrap 32 (Z.of_nat (length (env_recipients e))))
                | Some _ => ret tt
                end in
      let auth := authenticate_message (mx_hostname spec) e raw in
      let parsed := mail_parse raw in
      let! timestamp := match idempotency with Some (_, t) => ret t | None => now_ms end in
      let! source_id := match idempotency with
                        | Some (k, _) => ret (stable_id (join2 "inbound-source" k))
                        | None => new_id
                        end in
      let key := make_object_key spec "inbound" timestamp source_id in
      let digest := hex_encode (sha256 (as_bytes raw)) in
      let! _ := put (em_bucket spec) key raw in
      let! ingested :=
        ingest_recipients (ingest_recipient name spec (env_from e) raw key digest parsed auth timestamp (fst <$> idempotency))
          (env_recipients e) in
      let! _ := check (bool_decide (ingested = [])) EmNoRecipient in
      ret ingested
  end.

Definition ingest_inbound (name : string) (e : InboundEnvelope Ip) (raw : string) : M (list IngestedMessage) :=
  ingest_inbound_inner name e raw None.

(** The loop of [queue_outbound_inner] over the recipients: each one normalised, once. *)
Fixpoint unique_recipients (seen : gset string) (recipients : list string) : result (list string) EmailError :=
  match recipients with
  | [] => Ok []
  | r :: recipients' =>
      let? _ := split_address r in
      let? r := normalize_address r in
      if bool_decide (r ∈ seen) then unique_recipients seen recipients'
      else let? rest := unique_recipients ({[r]} ∪ seen) recipients' in Ok (r :: rest)
  end.

(** Deliveries that exist already, and those to be planned. *)
Fixpoint plan_outbound (name mail_from : string) (key : option string) (recipients : list string) :
  M (list QueuedMessage * list (string * string)) :=
  match recipients with
  | [] => ret ([], [])
  | r :: recipients' =>
      let! id := match key with Some k => ret (stable_id (join2 k r)) | None => new_id end in
      let! existing := get_message name id in
      match existing with
      | Some row =>
          if negb (bool_decide (direction (source row) = "outbound")) || negb (bool_decide (em_mail_from (source row) = mail_from))
             || negb (bool_decide (rcpt_to (source row) = r))
          then fail EmConflict
          else
            let! (queued, planned) := plan_outbound name mail_from key recipients' in
            ret (mkQueued id r (object_key (source row)) :: queued, planned)
      | None =>
          let! (queued, planned) := plan_outbound name mail_from key recipients' in
          ret (queued, (id, r) :: planned)
      end
  end.

Fixpoint insert_outbound (name : string) (row : string -> EmailRow) (okey : string) (planned : list (string * string)) :
  M (list QueuedMessage) :=
  match planned with
  | [] => ret []
  | (id, r) :: planned' =>
      let! _ := exec name (InsertMessage id (row r)) in
      let! _ := append_audit name "outbound_queued" [("message_id", FText id); ("recipient", FText r)] in
      let! rest := insert_outbound name row okey planned' in
      ret (mkQueued id r okey :: rest)
  end.

(** [queue_outbound_inner]. *)
Definition queue_outbound_inner (name mail_from : string) (recipients : list string) (raw : string) (key : option string) :
  M (list QueuedMessage) :=
  match email_domain_record name with
  | None => fail EmDomainMissing
  | Some spec =>
      let! _ := check (em_suspended spec) EmSuspended in
      let! _ := check (is_empty raw || (max_message_bytes spec <? slen raw)) EmTooLarge in
      let! mail_from := pure (normalize_address mail_from) in
      let! (_, sender_domain) := pure (split_address mail_from) in
      let! _ := check (negb (bool_decide (sender_domain = em_domain spec))) EmForeignSender in
      let! _ := check (bool_decide (recipients = []) || (1000 <? Z.of_nat (length recipients))) EmRecipientCount in
      let! unique := pure (unique_recipients ∅ recipients) in
      let! _ := check (is_empty (dkim_public_key spec) || is_empty (dkim_private_key_env spec)) EmNoDkim in
      let! _ := ensure_schema name in
      let! v := latest_verification name in
      let! _ := check (negb (match v with Some v => verified v | None => false end)) EmNotVerified in
      let! (queued, planned) := plan_outbound name mail_from key unique in
      if bool_decide (planned = []) then ret queued
      else
        let! _ := enforce_rate_limit name "outbound" (outbound_per_minute spec) (wrap 32 (Z.of_nat (length planned))) in
        match mail_parse raw with
        | None => fail EmNotRfc822
        | Some parsed =>
            let! _ := check (negb (p_has_from parsed)) EmNoFrom in
            let! timestamp := now_ms in
            let! source_id := match key with Some k => ret (stable_id (join2 "source" k)) | None => new_id end in
            let okey := make_object_key spec "outbound" timestamp source_id in
            let digest := hex_encode (sha256 (as_bytes raw)) in
            let! _ := put (em_bucket spec) okey raw in
            let! added := insert_outbound name (fun r => outbound_row mail_from r raw okey digest parsed timestamp) okey planned in
            ret (queued ++ added)
        end
  end.

(** [OutboundClaim]: the message as the claim returned it, and the lease. *)
Record OutboundClaim : Type := mkClaim {
  claim_id : string;
  claim_row : EmailRow;
  claim_lease : string
}.
(** [attempts] of a claimed message, a [u16]. *)
Definition claim_attempts (c : OutboundClaim) : Z := wrap 16 (attempts (life (claim_row c))).

Definition recover_inbound_leases (name : string) : M unit :=
  let! _ := ensure_schema name in
  let! now := now_ms in
  let! _ := exec name (RecoverInbound now) in
  ret tt.

Definition recover_outbound_leases (name : string) : M unit :=
  let! _ := ensure_schema name in
  let! now := now_ms in
  let! _ := exec name (RecoverOutbound now) in
  ret tt.

Definition first_claim (lease : string) (rows : list (string * EmailRow)) : option OutboundClaim :=
  match rows with [] => None | (id, r) :: _ => Some (mkClaim id r lease) end.

Definition claim_inbound (name : string) : M (option OutboundClaim) :=
  let! _ := ensure_schema name in
  let! now := now_ms in
  let! lease := new_id in
  let! rows := exec name (ClaimInbound lease (wadd 64 now OUTBOUND_LEASE_MS) node_id now) in
  ret (first_claim lease rows).

Definition claim_outbound (name : string) : M (option OutboundClaim) :=
  let! _ := ensure_schema name in
  let! now := now_ms in
  let! lease := new_id in
  let! rows := exec name (ClaimOutbound lease (wadd 64 now OUTBOUND_LEASE_MS) node_id now) in
  ret (first_claim lease rows).

(** [queue_forward]; the result is how many deliveries were queued. *)
Definition queue_forward (name : string) (spec : EmailDomainSpec) (source_id : string) (recipients : list string) (raw : string) : M Z :=
  let sender_tag := String.concat EmptyString (take 16 (chars source_id)) in
  let mail_from := ("forward+" ++ sender_tag ++ "@" ++ em_domain spec)%string in
  let key := hex_encode (sha256 (as_bytes (join2 "forward" (join2 source_id raw)))) in
  let! queued := queue_outbound_inner name mail_from recipients raw (Some key) in
  ret (Z.of_nat (length queued)).

Fixpoint queue_forwards (name : string) (spec : EmailDomainSpec) (c : OutboundClaim) (raw : string)
    (forwards : list (string * list (string * string))) : M Z :=
  match forwards with
  | [] => ret 0
  | (recipient, headers) :: forwards' =>
      let! forwarded := pure (add_forward_headers spec (claim_row c) raw headers) in
      let! n := queue_forward name spec (claim_id c) [recipient] forwarded in
      let! rest := queue_forwards name spec c raw forwards' in
      ret (n + rest)
  end.

Definition fetch (bucket key : string) : M string := fun w =>
  (w, match get_object (objects w) bucket key with
      | Ok (Some raw) => Ok raw
      | Ok None => Err EmNoObject
      | Err e => Err (EmStorage e)
      end).

(** [process_inbound_claim]. *)
Definition process_inbound_claim (name : string) (spec : EmailDomainSpec) (c : OutboundClaim) : M InboundOutcome :=
  match em_route_id (source (claim_row c)) ≫= (fun id => List.find (fun r => bool_decide (route_id r = id) && enabled r) (routes spec)) with
  | None => fail EmNoRoute
  | Some route =>
      let! raw := fetch (em_bucket spec) (object_key (source (claim_row c))) in
      match destination route with
      | ToWorker worker =>
          match dispatch_email_worker worker (claim_id c, claim_row c) raw with
          | Err e => fail (EmWorker e)
          | Ok outcome =>
              match reject outcome with
              | Some reason =>
                  let! _ := check (is_empty reason || (1000 <? slen reason) || contains_byte (ascii_of_nat 13) reason
                    || contains_byte (ascii_of_nat 10) reason) EmBadReject in
                  ret (Rejected reason)
              | None =>
                  if bool_decide (forwards outcome = []) then ret Delivered
                  else let! n := queue_forwards name spec c raw (forwards outcome) in ret (Forwarded n)
              end
          end
      | Forward addresses =>
          let! forwarded := pure (add_forward_headers spec (claim_row c) raw []) in
          let! n := queue_forward name spec (claim_id c) addresses forwarded in
          ret (Forwarded n)
      | DropMail => ret Delivered
      end
  end.

(** The columns [finish_inbound] writes: status, next attempt, error and response. *)
Definition inbound_verdict (c : OutboundClaim) (now : Z) (outcome : result InboundOutcome EmailError) :
  string * option Z * option string * option string :=
  match outcome with
  | Ok Delivered => ("delivered", None, None, Some "Worker 已处理")
  | Ok (Rejected reason) => ("rejected", None, Some reason, Some "Worker 已拒收")
  | Ok (Forwarded count) => ("forwarded", None, None, Some ("已建立 " ++ pretty count ++ " 个可靠转发投递")%string)
  | Err e =>
      if OUTBOUND_MAX_ATTEMPTS <=? claim_attempts c then ("failed", None, Some (error_text e), None)
      else ("pending", Some (sat_add 64 now (outbound_retry_delay_ms (claim_attempts c))), Some (error_text e), None)
  end.

Definition inbound_event (st : string) : string :=
  if bool_decide (st = "delivered") then "inbound_delivered"
  else if bool_decide (st = "forwarded") then "inbound_forwarded"
  else if bool_decide (st = "rejected") then "inbound_rejected"
  else if bool_decide (st = "failed") then "inbound_failed"
  else "inbound_retry_scheduled".

Definition finish_audit (c : OutboundClaim) (st : string) : list (string * Field) :=
  [("message_id", FText (claim_id c)); ("recipient", FText (rcpt_to (source (claim_row c))));
   ("attempt", FNum (claim_attempts c)); ("status", FText st)].

(** [finish_inbound]. *)
Definition finish_inbound (name : string) (c : OutboundClaim) (outcome : result InboundOutcome EmailError) : M unit :=
  let! now := now_ms in
  let '(st, nxt, error, resp) := inbound_verdict c now outcome in
  let! rows := exec name (FinishInbound st nxt error resp now (claim_id c) (claim_lease c)) in
  let! _ := check (negb (bool_decide (length rows = 1%nat))) EmLeaseLost in
  append_audit name (inbound_event st) (finish_audit c st).

(** [process_inbound_once]: the outcome of the claim is a value, an error of it too. *)
Definition attempt {A} (m : M A) : M (result A EmailError) := fun w => let '(w, r) := m w in (w, Ok r).

Definition process_inbound_once (name : string) (spec : EmailDomainSpec) : M bool :=
  let! claim := claim_inbound name in
  match claim with
  | None => ret false
  | Some c =>
      let! outcome := attempt (process_inbound_claim name spec c) in
      let! _ := finish_inbound name c outcome in
      ret true
  end.

(** The columns [finish_outbound] writes. *)
Definition outbound_verdict (c : OutboundClaim) (now : Z) (outcome : result string DeliveryFailure) :
  string * option Z * option string * option string * option Z :=
  match outcome with
  | Ok resp => ("delivered", None, None, Some resp, Some now)
  | Err f =>
      if permanent f || (OUTBOUND_MAX_ATTEMPTS <=? claim_attempts c) then ("failed", None, Some (detail f), None, None)
      else ("queued", Some (sat_add 64 now (outbound_retry_delay_ms (claim_attempts c))), Some (detail f), None, None)
  end.

Definition outbound_event (st : string) : string :=
  if bool_decide (st = "delivered") then "outbound_delivered"
  else if bool_decide (st = "failed") then "outbound_failed"
  else "outbound_retry_scheduled".

(** [finish_outbound]. *)
Definition finish_outbound (name : string) (c : OutboundClaim) (outcome : result string DeliveryFailure) : M unit :=
  let! now := now_ms in
  let '(st, nxt, error, resp, delivered) := outbound_verdict c now outcome in
  let! rows := exec name (FinishOutbound st nxt error resp delivered now (claim_id c) (claim_lease c)) in
  let! _ := check (negb (bool_decide (length rows = 1%nat))) EmLeaseLost in
  append_audit name (outbound_event st) (finish_audit c st).

Definition opt_text (o : option string) : Field := match o with Some s => FText s | None => FNull end.

(** [process_outbound_once]. *)
Definition process_outbound_once (name : string) (spec : EmailDomainSpec) : M bool :=
  let! claim := claim_outbound name in
  match claim with
  | None => ret false
  | Some c =>
      let row := claim_row c in
      let abandon (final : bool) (text : string) := let! _ := finish_outbound name c (Err (mkFailure final text)) in ret true in
      let! world := (fun w => (w, Ok (objects w))) in
      match get_object world (em_bucket spec) (object_key (source row)) with
      | Ok None => abandon true "邮件原文对象不存在"
      | Err e => abandon false ("读取邮件原文失败：" ++ e)%string
      | Ok (Some raw) =>
          match sign_dkim spec raw with
          | Err e => abandon false ("DKIM 签名失败：" ++ e)%string
          | Ok signed =>
              match split_address (rcpt_to (source row)) with
              | Err e => abandon true ("收件地址无效：" ++ error_text e)%string
              | Ok (_, recipient_domain) =>
                  match discover_mta_sts_policy recipient_domain (OUTBOUND_MAX_ATTEMPTS <=? claim_attempts c) with
                  | Err e => abandon false ("读取 MTA-STS 策略缓存失败：" ++ e)%string
                  | Ok policy =>
                      let! _ :=
                        match policy with
                        | Some p => append_audit name "mta_sts_policy_applied"
                            [("message_id", FText (claim_id c)); ("recipient_domain", FText recipient_domain);
                             ("policy_id", FText (policy_id p)); ("mode", FText (policy_mode p));
                             ("fetched_at_ms", FNum (policy_fetched_at_ms p))]
                        | None => ret tt
                        end in
                      let outcome := deliver_direct_smtp (mx_hostname spec) (em_mail_from (source row)) (rcpt_to (source row)) signed policy in
                      let sts_result :=
                        match outcome, policy with
                        | Ok d, p =>
                            if bool_decide (is_Some (mta_sts_testing_failure d)) then "testing_failure"
                            else match p with Some _ => "pass" | None => "not_applicable" end
                        | Err _, Some _ => "delivery_failed"
                        | Err _, None => "not_applicable"
                        end in
                      let! now := now_ms in
                      let! _ := exec name (SetMtaSts (mkMtaSts (policy_mode <$> policy) (policy_id <$> policy) (Some sts_result)) now
                        (claim_id c) (claim_lease c)) in
                      let! _ :=
                        match outcome with
                        | Ok (mkDelivery _ (Some text)) => append_audit name "mta_sts_testing_failure"
                            [("message_id", FText (claim_id c)); ("recipient_domain", FText recipient_domain); ("detail", FText text)]
                        | _ => ret tt
                        end in
                      let! _ := finish_outbound name c (match outcome with Ok d => Ok (response d) | Err f => Err f end) in
                      ret true
                  end
              end
          end
      end
  end.

(** ** Failure notices *)

Inductive DsnOutcome : Type :=
| Generated (id : string)
| Skipped (reason : string).

(** The text of the notice. *)
Definition dsn_text (spec : EmailDomainSpec) (id sender recipient diagnostic original_message_id recipient_kind report_type
    delivery_status_type enhanced boundary : string) : string :=
  (let domain := em_domain spec in
   "From: Mail Delivery Subsystem <mailer-daemon@" ++ domain ++ ">" ++ CRLF ++
   "To: " ++ sender ++ CRLF ++
   "Subject: Delivery Status Notification (Failure)" ++ CRLF ++
   "Message-ID: <dsn-" ++ id ++ "@" ++ domain ++ ">" ++ CRLF ++
   "Auto-Submitted: auto-replied" ++ CRLF ++
   "X-RandallFlare-DSN-Of: " ++ id ++ CRLF ++
   "MIME-Version: 1.0" ++ CRLF ++
   "Content-Type: multipart/report; report-type=" ++ report_type ++ "; boundary=" ++ String (ascii_of_nat 34) (boundary ++
   String (ascii_of_nat 34) CRLF) ++ CRLF ++
   "--" ++ boundary ++ CRLF ++
   "Content-Type: text/plain; charset=utf-8" ++ CRLF ++
   "Content-Transfer-Encoding: 8bit" ++ CRLF ++ CRLF ++
   "您的邮件未能投递到 " ++ recipient ++ "。" ++ CRLF ++
   "详细原因：" ++ diagnostic ++ CRLF ++ CRLF ++
   "--" ++ boundary ++ CRLF ++
   "Content-Type: " ++ delivery_status_type ++ CRLF ++ CRLF ++
   "Reporting-MTA: dns; " ++ mx_hostname spec ++ CRLF ++
   "Original-Envelope-Id: " ++ id ++ CRLF ++
   "Original-Message-ID: " ++ original_message_id ++ CRLF ++ CRLF ++
   "Final-Recipient: " ++ recipient_kind ++ "; " ++ recipient ++ CRLF ++
   "Action: failed" ++ CRLF ++
   "Status: " ++ enhanced ++ CRLF ++
   "Diagnostic-Code: X-RandallFlare; " ++ diagnostic ++ CRLF ++ CRLF ++
   "--" ++ boundary ++ "--" ++ CRLF)%string.

(** [generate_delivery_status]; [localhost] is the address 127.0.0.1. *)
Definition generate_delivery_status (localhost : Ip) (name : string) (spec : EmailDomainSpec) (id : string) (r : EmailRow) : M DsnOutcome :=
  let src := source r in
  if is_empty (em_mail_from src) then ret (Skipped "空逆向路径不生成 DSN")
  else
    let! original := fetch (em_bucket spec) (object_key src) in
    if is_automatic_message original then ret (Skipped "自动提交邮件不再生成 DSN，以阻断退信环")
    else
      let! sender := pure (normalize_address (em_mail_from src)) in
      let! (_, sender_domain) := pure (split_address sender) in
      let! _ := check (negb (bool_decide (sender_domain = em_domain spec))) EmForeignSender in
      let diagnostic := header_safe (default "远端 MX 拒绝投递" (last_error (life r))) in
      let plain := is_ascii (em_mail_from src) && is_ascii (rcpt_to src) && is_ascii diagnostic in
      let raw := dsn_text spec id sender (rcpt_to src) diagnostic (header_safe (default "unknown" (message_id src)))
        (if is_ascii (rcpt_to src) then "rfc822" else "utf-8")
        (if plain then "delivery-status" else "global-delivery-status")
        (if plain then "message/delivery-status" else "message/global-delivery-status")
        (enhanced_status diagnostic) ("rf-dsn-" ++ stable_id id)%string in
      let! generated := ingest_inbound_inner name (mkInbound (mx_hostname spec) localhost EmptyString [sender]) raw
        (Some (("dsn:" ++ id)%string, created_at_ms src)) in
      match generated with
      | [] => fail EmNoRecipient
      | m :: _ => ret (Generated (ing_id m))
      end.

(** [process_dsn_once]. *)
Definition dsn_verdict (attempts now : Z) (outcome : result DsnOutcome EmailError) :
  string * option string * option Z * option string * string :=
  match outcome with
  | Ok (Generated id) => ("generated", Some id, None, None, "dsn_generated")
  | Ok (Skipped reason) => ("skipped", None, None, Some reason, "dsn_skipped")
  | Err e =>
      if OUTBOUND_MAX_ATTEMPTS <=? attempts then ("failed", None, None, Some (error_text e), "dsn_failed")
      else ("pending", None, Some (sat_add 64 now (outbound_retry_delay_ms attempts)), Some (error_text e), "dsn_retry_scheduled")
  end.

Definition process_dsn_once (localhost : Ip) (name : string) (spec : EmailDomainSpec) : M bool :=
  let! _ := ensure_schema name in
  let! now := now_ms in
  let! lease := new_id in
  let! rows := exec name (ClaimDsn lease (sat_add 64 now OUTBOUND_LEASE_MS) now) in
  match rows with
  | [] => ret false
  | (id, r) :: _ =>
      let tries := wrap 16 (dsn_attempts (dsn r)) in
      let! outcome := attempt (generate_delivery_status localhost name spec id r) in
      let '(st, mid, nxt, error, event) := dsn_verdict tries now outcome in
      let! at_ms := now_ms in
      let! updated := exec name (FinishDsn st mid nxt error at_ms id lease) in
      let! _ := check (negb (bool_decide (length updated = 1%nat))) EmLeaseLost in
      let! _ := append_audit name event
        [("message_id", FText id); ("recipient", FText (rcpt_to (source r))); ("dsn_message_id", opt_text mid);
         ("attempt", FNum tries); ("status", FText st)] in
      ret true
  end.

(** ** Retention *)

Definition expired (cutoff : Z) (r : EmailRow) : bool := (created_at_ms (source r) <? cutoff) && terminal (status (life r)).

(** [SELECT DISTINCT object_key ... LIMIT 1000]. *)
Definition expired_keys (cutoff : Z) (d : EmailDb) : list string :=
  take 1000 (remove_dups ((fun ir => object_key (source ir.2)) <$> filter (fun ir => expired cutoff ir.2 = true) (map_to_list (messages d)))).

Definition references (d : EmailDb) (key : string) : nat :=
  length (filter (fun ir => object_key (source ir.2) = key) (map_to_list (messages d))).

Definition delete (bucket key : string) : M unit := fun w =>
  let '(o, r) := delete_object (objects w) bucket key in
  (set_objects w o, match r with Ok _ => Ok tt | Err e => Err (EmStorage e) end).

Fixpoint delete_unreferenced (name bucket : string) (keys : list string) : M unit :=
  match keys with
  | [] => ret tt
  | k :: keys' =>
      let! d := query name in
      let! _ := if bool_decide (references d k = 0%nat) then delete bucket k else ret tt in
      delete_unreferenced name bucket keys'
  end.

(** [sweep_retention]. *)
Definition sweep_retention (name : string) (spec : EmailDomainSpec) : M Z :=
  let! _ := ensure_schema name in
  let! now := now_ms in
  let cutoff := sat_sub now (retention_days spec * 86400000) in
  let! d := query name in
  let! gone := exec name (DeleteExpired cutoff) in
  let! _ := delete_unreferenced name (em_bucket spec) (expired_keys cutoff d) in
  let! _ := exec name (DeleteAudit cutoff) in
  let! now := now_ms in
  let! _ := exec name (DeleteRates (sat_sub now (2 * 60 * 60 * 1000))) in
  let! _ := now_ms in
  let! _ := exec name OtherTable in
  let! _ := now_ms in
  let! _ := exec name OtherTable in
  let deleted := Z.of_nat (length gone) in
  let! _ := if 0 <? deleted then append_audit name "retention_sweep" [("deleted_messages", FNum deleted); ("cutoff_ms", FNum cutoff)]
            else ret tt in
  ret deleted.

(** [query_verification] on the records of a DNS answer, and [verify_domain]. *)
Definition normalize_txt (value : string) : string := String.concat EmptyString (split_whitespace value).

Record DnsAnswer : Type := mkDnsAnswer {
  ownership_txt : list string;
  dkim_txt : list string;
  domain_txt : list string;
  mx_exchanges : list string
}.

Definition text_le (a b : string) : Prop := as_bytes a ⪯ as_bytes b.

#[export] Instance text_le_dec : RelDecision text_le.
Proof. intros a b. unfold text_le. apply _. Defined.

(** [Vec::dedup]. *)
Fixpoint dedup (l : list string) : list string :=
  match l with
  | a :: (b :: _) as l' => if bool_decide (a = b) then dedup l' else a :: dedup l'
  | _ => l
  end.

Definition mx_names (a : DnsAnswer) : list string := dedup (merge_sort text_le (map normal (mx_exchanges a))).

Definition verification_of (spec : EmailDomainSpec) (checked_at : Z) (a : DnsAnswer) : EmailVerification :=
  let ownership := existsb (fun v => bool_decide (v = ownership_txt_value spec)) (ownership_txt a) in
  let mx := existsb (fun v => bool_decide (v = mx_hostname spec)) (mx_names a) in
  let dkim := is_empty (dkim_public_key spec)
    || existsb (fun v => bool_decide (normalize_txt v = normalize_txt (dkim_public_key spec))) (dkim_txt a) in
  let spf := existsb (fun v => starts_with "v=spf1" (to_ascii_lowercase v)) (domain_txt a) in
  mkVerification (em_domain spec) ownership mx dkim spf (ownership && mx && dkim)
    (ownership_txt a) (mx_names a) (dkim_txt a) (domain_txt a) checked_at None.

Definition verify_domain (name : string) (answer : result DnsAnswer string) : M EmailVerification :=
  match email_domain_record name with
  | None => fail EmDomainMissing
  | Some spec =>
      let! _ := ensure_schema name in
      let! checked_at := now_ms in
      let v := match answer with
               | Ok a => verification_of spec checked_at a
               | Err e => mkVerification (em_domain spec) false false false false false [] [] [] [] checked_at (Some e)
               end in
      let! _ := exec name (PutVerification v) in
      let! _ := append_audit name "domain_verification"
        [("verified", FBool (verified v)); ("ownership_ok", FBool (ownership_ok v)); ("mx_ok", FBool (mx_ok v));
         ("dkim_ok", FBool (dkim_ok v)); ("spf_present", FBool (spf_present v))] in
      ret v
  end.
End pipeline.
Arguments World : clear implicits.
