(* ===== verification/EmailProps.v ===== *)
(** * EmailProps: routing, deliveries and retention of mail (crates/rf/src/email.rs)

    The route of a recipient is the first in the documented order.  [Sys] is the
    database of a domain with the claims handed out on it; its steps are the
    statements the handlers of any number of nodes issue, in any interleaving, and
    the theorems show that no delivery is stranded and that a claim settles at most
    once. *)

From Stdlib Require Import ZArith Lia Ascii.
From stdpp Require Import prelude gmap sorting strings list pretty relations.
From S2P Require Import Prelude Text Hlc Identity Envelope Kv Claim Manifest Quorum DataAudit Observability Store Node NodeFacts Resource Hostname Email.
Open Scope Z_scope.

(** ** Routes *)

Lemma check_routes_ids domain ids exact rs :
  check_routes domain ids exact rs = Ok tt ->
  NoDup (route_id <$> rs) /\ forall r, r ∈ rs -> route_id r ∉ ids.
Proof.
  revert ids exact; induction rs as [|r rs IH]; intros ids exact; cbn [check_routes].
  { intros _. split; [constructor | intros r Hr; by apply elem_of_nil in Hr]. }
  destruct (validate_route r domain); [|done]. case_bool_decide as Hid; [done|].
  assert (Hrec : forall exact', check_routes domain ({[route_id r]} ∪ ids) exact' rs = Ok tt ->
    NoDup (route_id <$> r :: rs) /\ forall r', r' ∈ r :: rs -> route_id r' ∉ ids).
  { intros exact' [Hnd Hout]%IH. split.
    - constructor; [|done]. intros (r' & Heq & Hr')%list_elem_of_fmap. apply (Hout r' Hr'). set_solver.
    - intros r' [->|Hr']%elem_of_cons; [done|]. specialize (Hout r' Hr'). set_solver. }
  destruct (matcher r); [|apply Hrec..]. case_bool_decide; [done | apply Hrec].
Qed.

Lemma validate_domain_ids s : validate_domain s = Ok tt -> NoDup (route_id <$> routes s).
Proof.
  unfold validate_domain. repeat (case_match; try done).
  intros _. match goal with Hc : check_routes _ _ _ _ = Ok ?u |- _ => destruct u; by apply check_routes_ids in Hc as [? _] end.
Qed.

Lemma route_id_inj s r1 r2 :
  NoDup (route_id <$> routes s) -> r1 ∈ routes s -> r2 ∈ routes s -> route_id r1 = route_id r2 -> r1 = r2.
Proof.
  intros Hnd [i Hi]%list_elem_of_lookup [j Hj]%list_elem_of_lookup Heq.
  assert (i = j) as ->; [|congruence].
  eapply (NoDup_lookup _ _ _ (route_id r1) Hnd); rewrite list_lookup_fmap; [by rewrite Hi | rewrite Hj; cbn; congruence].
Qed.

(** The routes of a domain that take mail for a recipient. *)
Definition takes (s : EmailDomainSpec) (local recipient : string) (r : EmailRoute) : Prop :=
  r ∈ routes s /\ route_matches (to_ascii_lowercase local) recipient r = true.

(** The route a recipient gets: enabled, matching, and before every other enabled
    route that matches in the order exact address, prefix, catch-all, then
    priority, then identifier; no route only if none matches.  In particular the
    choice does not depend on the order the routes are written in. *)
Theorem route_is_first_match s recipient local domain :
  validate_domain s = Ok tt -> split_address recipient = Ok (local, domain) ->
  eq_ignore_ascii_case domain (em_domain s) = true ->
  match route_for s recipient with
  | Some r => takes s local recipient r /\ forall r', takes s local recipient r' -> r' <> r -> route_key r ≺ route_key r'
  | None => forall r, ~ takes s local recipient r
  end.
Proof.
  intros Hv Hs Hd. unfold route_for. rewrite Hs, Hd. cbn [negb].
  set (p := fun r => route_matches (to_ascii_lowercase local) recipient r = true).
  destruct (min_by_key route_key (filter p (routes s))) as [r|] eqn:E.
  - apply min_by_key_Some in E as [Hr Hmin]. apply list_elem_of_filter in Hr as [Hp Hr]. split; [done|].
    intros r' [Hr' Hm] Hne. destruct (proj1 (le_of_lt_or_eq (route_key r) (route_key r'))) as [Hlt|Heq]; [|done|].
    + apply Hmin. by apply list_elem_of_filter.
    + exfalso. apply Hne. symmetry. injection Heq as _ _ Hid.
      by apply (route_id_inj s); [apply validate_domain_ids| | |].
  - apply min_by_key_None in E. intros r [Hr Hm].
    assert (r ∈ filter p (routes s)) as Hin by by apply list_elem_of_filter.
    rewrite E in Hin. by apply elem_of_nil in Hin.
Qed.

(** ** Send requests *)

Lemma from_be_u32 x : 0 <= x < 2 ^ 32 -> from_be (u32_be x) = x.
Proof.
  intros Hx. unfold from_be, u32_be. cbn [foldl].
  pose proof (Z.div_mod x 256). pose proof (Z.div_mod (x / 2 ^ 8) 256). pose proof (Z.div_mod (x / 2 ^ 16) 256).
  assert (x / 2 ^ 8 / 256 = x / 2 ^ 16) by (rewrite Z.div_div by lia; done).
  assert (x / 2 ^ 16 / 256 = x / 2 ^ 24) by (rewrite Z.div_div by lia; done).
  assert (x / 2 ^ 24 mod 256 = x / 2 ^ 24).
  { apply Z.mod_small. split; [apply Z.div_pos; lia | apply Z.div_lt_upper_bound; lia]. }
  change (2 ^ 8) with 256 in *. lia.
Qed.

(** What [encode_send_request] writes, [decode_send_request] reads back: the
    metadata and the text, whatever bytes the text consists of; and it writes
    something exactly when both are within their limits. *)
Theorem send_request_roundtrip {mj : MetadataJson} {mj_ok : MetadataJsonOk} m raw :
  (blen raw <= MAX_EMAIL_BYTES -> blen (metadata_to_vec m) <= MAX_SEND_METADATA_BYTES ->
   exists body, encode_send_request m raw = Ok body /\ decode_send_request body = Ok (m, raw)) /\
  (forall body, encode_send_request m raw = Ok body ->
   blen raw <= MAX_EMAIL_BYTES /\ blen (metadata_to_vec m) <= MAX_SEND_METADATA_BYTES).
Proof.
  unfold encode_send_request. set (enc := metadata_to_vec m). split.
  - intros Hr He. rewrite (proj2 (Z.ltb_ge _ _) Hr), (proj2 (Z.ltb_ge _ _) He). eexists. split; [done|].
    assert (Hw : wrap 32 (blen enc) = blen enc).
    { apply wrap_small. unfold MAX_SEND_METADATA_BYTES, blen in *. lia. }
    rewrite Hw. unfold decode_send_request.
    assert (Hfb : from_be (u32_be (blen enc)) = blen enc).
    { apply from_be_u32. unfold MAX_SEND_METADATA_BYTES, blen in *. lia. }
    assert (Hlen : length (u32_be (blen enc)) = 4%nat) by done.
    revert Hfb Hlen. generalize (u32_be (blen enc)). intros hdr Hfb Hlen.
    assert (Ht : take 4 (hdr ++ enc ++ raw) = hdr) by (rewrite <- Hlen; apply take_app_length).
    assert (Hd : drop 4 (hdr ++ enc ++ raw) = enc ++ raw) by (rewrite <- Hlen; apply drop_app_length).
    assert (Hb : blen (hdr ++ enc ++ raw) = 4 + blen enc + blen raw) by (unfold blen; rewrite !length_app, Hlen; lia).
    rewrite Ht, Hfb, Hb, (proj2 (Z.ltb_ge _ _)) by (unfold blen; lia).
    rewrite (proj2 (Z.ltb_ge _ _) He), (proj2 (Z.ltb_ge _ _)) by (unfold blen; lia). cbn [orb].
    unfold blen at 1. rewrite Nat2Z.id, Hd, take_app_length.
    assert (Hraw : drop (4 + Z.to_nat (blen enc)) (hdr ++ enc ++ raw) = raw).
    { rewrite <- drop_drop, Hd. unfold blen. rewrite Nat2Z.id. apply drop_app_length. }
    rewrite Hraw. unfold enc. rewrite metadata_roundtrip. by rewrite (proj2 (Z.ltb_ge _ _) Hr).
  - intros body. destruct (Z.ltb_spec MAX_EMAIL_BYTES (blen raw)); [done|].
    destruct (Z.ltb_spec MAX_SEND_METADATA_BYTES (blen enc)); [done|]. by intros _.
Qed.

(** ** Deliveries *)

(** The status of a delivery that waits and of one that is under way. *)
Definition waiting_of (dir : string) : string := if bool_decide (dir = "inbound") then "pending" else "queued".
Definition running_of (dir : string) : string := if bool_decide (dir = "inbound") then "running" else "sending".

(** The rows [ingest_inbound_inner] and [queue_outbound_inner] insert. *)
Definition new_inbound (r : EmailRow) : Prop :=
  direction (source r) = "inbound" /\ status (life r) ∈ ["pending"; "dropped"; "rejected"] /\
  attempts (life r) = 0 /\ lease_token (life r) = None.
Definition new_outbound (r : EmailRow) : Prop :=
  direction (source r) = "outbound" /\ status (life r) = "queued" /\ attempts (life r) = 0 /\ lease_token (life r) = None.

Record Sys : Type := mkSys {
  sdb : EmailDb;
  claims : list OutboundClaim;
  used : gset string
}.

Section deliveries.
Context {outside : Outside}.

(** The statements the handlers issue.  A claim draws a lease that was not drawn
    before; a claim is settled with the columns its outcome asks for, whatever the
    outcome and however late. *)
Inductive issues (s : Sys) : Stmt -> Prop :=
| i_ingest id r : new_inbound r -> issues s (InsertOrIgnore id r)
| i_queue id r : new_outbound r -> issues s (InsertMessage id r)
| i_recover_inbound now : issues s (RecoverInbound now)
| i_recover_outbound now : issues s (RecoverOutbound now)
| i_claim_inbound lease until by_node now : lease ∉ used s -> issues s (ClaimInbound lease until by_node now)
| i_claim_outbound lease until by_node now : lease ∉ used s -> issues s (ClaimOutbound lease until by_node now)
| i_finish_inbound c now outcome st nxt error resp :
    c ∈ claims s -> inbound_verdict c now outcome = (st, nxt, error, resp) ->
    issues s (FinishInbound st nxt error resp now (claim_id c) (claim_lease c))
| i_finish_outbound c now outcome st nxt error resp delivered :
    c ∈ claims s -> outbound_verdict c now outcome = (st, nxt, error, resp, delivered) ->
    issues s (FinishOutbound st nxt error resp delivered now (claim_id c) (claim_lease c))
| i_mta_sts m now id lease : issues s (SetMtaSts m now id lease)
| i_claim_dsn lease until now : issues s (ClaimDsn lease until now)
| i_finish_dsn st mid nxt error now id lease : issues s (FinishDsn st mid nxt error now id lease)
| i_verify v : issues s (PutVerification v)
| i_rate scope window amount : issues s (AddRate scope window amount)
| i_audit e : issues s (AppendAudit e)
| i_expire cutoff : issues s (DeleteExpired cutoff)
| i_expire_audit cutoff : issues s (DeleteAudit cutoff)
| i_expire_rates before : issues s (DeleteRates before)
| i_other : issues s OtherTable.

Definition lease_of (s : Stmt) : option string :=
  match s with ClaimInbound lease _ _ _ | ClaimOutbound lease _ _ _ => Some lease | _ => None end.
Definition claims_of (s : Stmt) (rows : list (string * EmailRow)) : list OutboundClaim :=
  match lease_of s with Some lease => map (fun ir => mkClaim ir.1 ir.2 lease) rows | None => [] end.

Definition used_after (s : Sys) (stmt : Stmt) : gset string :=
  match lease_of stmt with Some l => {[l]} ∪ used s | None => used s end.

Definition mail_step (s s' : Sys) : Prop :=
  exists stmt d rows, issues s stmt /\ run (sdb s) stmt = Some (d, rows) /\
    s' = mkSys d (claims s ++ claims_of stmt rows) (used_after s stmt).

Definition start : Sys := mkSys empty_db [] ∅.
Definition mail_reachable (s : Sys) : Prop := rtc mail_step start s.

(** A delivery waits with an attempt left, is under way with a lease, or is over. *)
Definition delivery_ok (r : EmailRow) : Prop :=
  (direction (source r) = "inbound" \/ direction (source r) = "outbound") /\
  0 <= attempts (life r) <= OUTBOUND_MAX_ATTEMPTS /\
  ((status (life r) = waiting_of (direction (source r)) /\ attempts (life r) < OUTBOUND_MAX_ATTEMPTS /\ lease_token (life r) = None) \/
   (status (life r) = running_of (direction (source r)) /\ is_Some (lease_token (life r)) /\ is_Some (lease_until_ms (life r))) \/
   (terminal (status (life r)) = true /\ lease_token (life r) = None)).

Definition row_holds (m : gmap string EmailRow) (id lease : string) (r : EmailRow) : Prop :=
  m !! id = Some r /\ lease_token (life r) = Some lease.

Definition claim_ok (s : Sys) (c : OutboundClaim) : Prop :=
  claim_lease c ∈ used s /\ 0 <= attempts (life (claim_row c)) <= OUTBOUND_MAX_ATTEMPTS /\
  forall r, row_holds (messages (sdb s)) (claim_id c) (claim_lease c) r -> attempts (life r) = attempts (life (claim_row c)).

Definition sys_ok (s : Sys) : Prop :=
  map_Forall (fun _ r => delivery_ok r) (messages (sdb s)) /\
  (forall c, c ∈ claims s -> claim_ok s c) /\
  (forall id lease r, row_holds (messages (sdb s)) id lease r -> lease ∈ used s) /\
  (forall id1 id2 lease r1 r2, row_holds (messages (sdb s)) id1 lease r1 -> row_holds (messages (sdb s)) id2 lease r2 -> id1 = id2).

(** How the rows of a table may change: a row keeps its lease and its attempts, or
    has no lease, or the lease [fresh]. *)
Definition evolves (fresh : option string) (m m' : gmap string EmailRow) : Prop :=
  forall id r', m' !! id = Some r' ->
    lease_token (life r') = None \/ (lease_token (life r') = fresh) \/
    exists r, m !! id = Some r /\ lease_token (life r) = lease_token (life r') /\ attempts (life r) = attempts (life r').

Lemma evolves_refl fresh m : evolves fresh m m.
Proof. intros id r Hr. right. right. eauto. Qed.

Lemma evolves_insert fresh m id r' :
  lease_token (life r') = None \/ lease_token (life r') = fresh \/
  (exists r, m !! id = Some r /\ lease_token (life r) = lease_token (life r') /\ attempts (life r) = attempts (life r')) ->
  evolves fresh m (<[id := r']> m).
Proof.
  intros Hr id' r'' Hl. destruct (decide (id' = id)) as [->|Hne].
  - rewrite lookup_insert_eq in Hl. by injection Hl as <-.
  - rewrite lookup_insert_ne in Hl by done. by apply evolves_refl.
Qed.

Lemma evolves_subseteq fresh m m' : m' ⊆ m -> evolves fresh m m'.
Proof. intros Hsub id r Hr. apply evolves_refl. by eapply lookup_weaken. Qed.

(** What a statement has to satisfy for the invariant to survive it. *)
Definition good_step (s : Sys) (stmt : Stmt) (d : EmailDb) (rows : list (string * EmailRow)) : Prop :=
  (forall l, lease_of stmt = Some l -> l ∉ used s) /\
  map_Forall (fun _ r => delivery_ok r) (messages d) /\
  evolves (lease_of stmt) (messages (sdb s)) (messages d) /\
  (forall id r l, (id, r) ∈ rows -> lease_of stmt = Some l -> messages d !! id = Some r /\ delivery_ok r) /\
  (forall id1 id2 l r1 r2, lease_of stmt = Some l -> row_holds (messages d) id1 l r1 -> row_holds (messages d) id2 l r2 -> id1 = id2).

Lemma sys_ok_step s stmt d rows :
  sys_ok s -> good_step s stmt d rows -> sys_ok (mkSys d (claims s ++ claims_of stmt rows) (used_after s stmt)).
Proof.
  intros (Hrows & Hclaims & Hused & Huniq) (Hfresh & Hd & Hev & Hret & Hone).
  assert (Hsub : forall l, l ∈ used s -> l ∈ used_after s stmt).
  { intros l Hl. unfold used_after. destruct (lease_of stmt); set_solver. }
  split_and!; [exact Hd | | | ]; cbn [sdb claims used].
  - intros c [Hc|Hc]%elem_of_app.
    + destruct (Hclaims c Hc) as (Hu & Hb & Ha). split_and!; [by apply Hsub | lia | lia |]. intros r [Hr Hl].
      destruct (Hev (claim_id c) r Hr) as [Hn|[Hf|(r0 & Hr0 & Hl0 & Ha0)]]; [congruence | |].
      * rewrite Hl in Hf. exfalso. by apply (Hfresh (claim_lease c) (eq_sym Hf)).
      * rewrite <- Ha0. apply Ha. split; [done | congruence].
    + unfold claims_of in Hc. destruct (lease_of stmt) as [l|] eqn:El; [|by apply elem_of_nil in Hc].
      apply list_elem_of_fmap in Hc as ([id r] & -> & Hin). unfold claim_ok; cbn.
      destruct (Hret id r l Hin eq_refl) as [Hr (_ & Hb & _)]. split_and!; [unfold used_after; rewrite El; set_solver | lia | lia |].
      intros r' [Hr' _]. cbn in *. congruence.
  - intros id l r [Hr Hl]. destruct (Hev id r Hr) as [Hn|[Hf|(r0 & Hr0 & Hl0 & _)]]; [congruence | |].
    + rewrite Hl in Hf. unfold used_after. rewrite <- Hf. set_solver.
    + apply Hsub. apply (Hused id l r0). split; [done | congruence].
  - intros id1 id2 l r1 r2 Hh1 Hh2.
    destruct (Hev id1 r1 (proj1 Hh1)) as [Hn|[Hf|(r3 & Hr3 & Hl3 & _)]]; [destruct Hh1; congruence | |].
    { apply (Hone id1 id2 l r1 r2); [|done|done]. by rewrite <- Hf, (proj2 Hh1). }
    destruct (Hev id2 r2 (proj1 Hh2)) as [Hn|[Hf|(r4 & Hr4 & Hl4 & _)]]; [destruct Hh2; congruence | |].
    { apply (Hone id1 id2 l r1 r2); [|done|done]. by rewrite <- Hf, (proj2 Hh2). }
    apply (Huniq id1 id2 l r3 r4); (split; [done|]); [rewrite Hl3; apply Hh1 | rewrite Hl4; apply Hh2].
Qed.

(** ** Each statement *)

Lemma picked_row key p (m : gmap string EmailRow) id r :
  min_by_key (K := Z * string) key (filter (fun ir => p ir.2 = true) (map_to_list m)) = Some (id, r) ->
  m !! id = Some r /\ p r = true.
Proof.
  intros [Hin _]%min_by_key_Some. apply list_elem_of_filter in Hin as [Hp Hin]. by apply elem_of_map_to_list in Hin.
Qed.

Lemma claimed_ok dir st lease until by_node now r :
  delivery_ok r -> claimable dir (waiting_of dir) now r = true -> st = running_of dir ->
  delivery_ok (claimed st lease until by_node now r).
Proof.
  intros (Hd & Hb & _) Hc ->. unfold claimable in Hc. apply andb_prop in Hc as [Hc _]. apply andb_prop in Hc as [Hc Ha].
  apply andb_prop in Hc as [Hdir%bool_decide_eq_true_1 _]. apply Z.ltb_lt in Ha. split_and!; cbn; [done | lia | lia |].
  right. left. rewrite Hdir. eauto.
Qed.

Lemma recovered_ok dir again lost kept now r x u :
  delivery_ok r -> direction (source r) = dir -> again = waiting_of dir ->
  delivery_ok (mkEmailRow (source r) (recovered again lost kept now (life r)) x (mta_sts r) u).
Proof.
  intros (Hd & Hb & _) Hdir ->. unfold recovered. split_and!; cbn; [done | lia | lia |].
  destruct (Z.leb_spec OUTBOUND_MAX_ATTEMPTS (attempts (life r))); [right; right; done | left].
  rewrite Hdir. split_and!; [done | lia | done].
Qed.

Lemma inbound_verdict_ok c now outcome st nxt error resp :
  0 <= attempts (life (claim_row c)) <= OUTBOUND_MAX_ATTEMPTS ->
  inbound_verdict c now outcome = (st, nxt, error, resp) ->
  terminal st = true \/ (st = "pending" /\ attempts (life (claim_row c)) < OUTBOUND_MAX_ATTEMPTS).
Proof.
  intros Hb. unfold inbound_verdict, claim_attempts. rewrite wrap_small by (unfold OUTBOUND_MAX_ATTEMPTS in *; lia).
  destruct outcome as [[]|e]; try (by intros [= <- _ _ _]; left).
  destruct (Z.leb_spec OUTBOUND_MAX_ATTEMPTS (attempts (life (claim_row c)))); intros [= <- _ _ _]; [by left | by right].
Qed.

Lemma outbound_verdict_ok c now outcome st nxt error resp delivered :
  0 <= attempts (life (claim_row c)) <= OUTBOUND_MAX_ATTEMPTS ->
  outbound_verdict c now outcome = (st, nxt, error, resp, delivered) ->
  terminal st = true \/ (st = "queued" /\ attempts (life (claim_row c)) < OUTBOUND_MAX_ATTEMPTS).
Proof.
  intros Hb. unfold outbound_verdict, claim_attempts. rewrite wrap_small by (unfold OUTBOUND_MAX_ATTEMPTS in *; lia).
  destruct outcome as [|f]; [by intros [= <- _ _ _ _]; left|]. destruct (permanent f); [by intros [= <- _ _ _ _]; left|].
  destruct (Z.leb_spec OUTBOUND_MAX_ATTEMPTS (attempts (life (claim_row c)))); intros [= <- _ _ _ _]; [by left | by right].
Qed.

Lemma finished_ok st lease r nxt error resp delivered x u :
  delivery_ok r -> held st lease r = true -> forall st' dir, st = running_of dir ->
  (dir = "inbound" \/ dir = "outbound") ->
  terminal st' = true \/ (st' = waiting_of dir /\ attempts (life r) < OUTBOUND_MAX_ATTEMPTS) ->
  delivery_ok (mkEmailRow (source r) (mkLife st' (attempts (life r)) nxt error resp delivered None None None) x (mta_sts r) u).
Proof.
  intros (Hd & Hb & Hst) Hh st' dir -> Hdir Hst'. unfold held in Hh. apply andb_prop in Hh as [Hh _].
  apply bool_decide_eq_true_1 in Hh. split_and!; cbn; [done | lia | lia |].
  destruct Hst' as [Ht|[-> Ha]]; [right; right; done | left]. split_and!; [|done|done].
  rewrite Hh in Hst. destruct Hd as [Hd|Hd], Hdir as [-> | ->]; rewrite Hd in *; try done;
    exfalso; destruct Hst as [[? _]|[[? _]|[? _]]]; done.
Qed.

Definition rows_ok (d : EmailDb) : Prop := map_Forall (fun _ r => delivery_ok r) (messages d).

(** A change of a row that keeps or drops its lease. *)
Definition keeps (r r' : EmailRow) : Prop :=
  lease_token (life r') = None \/
  (lease_token (life r) = lease_token (life r') /\ attempts (life r) = attempts (life r')).

Lemma update_one_ok d id p f d' rows :
  rows_ok d -> update_one d id p f = (d', rows) ->
  (forall r, messages d !! id = Some r -> p r = true -> delivery_ok (f r) /\ keeps r (f r)) ->
  rows_ok d' /\ evolves None (messages d) (messages d').
Proof.
  intros Hd Hu Hf. unfold update_one in Hu. destruct (messages d !! id) as [r|] eqn:Er.
  - destruct (p r) eqn:Ep; injection Hu as <- _; [|split; [done | apply evolves_refl]].
    destruct (Hf r eq_refl Ep) as [Hok Hk]. split; [by apply map_Forall_insert_2|]. apply evolves_insert.
    destruct Hk as [Hk|[Hl Ha]]; [by left | right; right; eauto].
  - injection Hu as <- _. split; [done | apply evolves_refl].
Qed.

Lemma update_all_ok d p f :
  rows_ok d -> (forall id r, messages d !! id = Some r -> p r = true -> delivery_ok (f r) /\ keeps r (f r)) ->
  rows_ok (update_all d p f).1 /\ evolves None (messages d) (messages (update_all d p f).1).
Proof.
  intros Hd Hf. unfold update_all; cbn. split.
  - intros id r' Hr'. unfold set_messages in Hr'; cbn in Hr'. apply lookup_fmap_Some in Hr' as (r & <- & Hr).
    destruct (p r) eqn:Ep; [by apply (Hf id) | by apply (Hd id)].
  - intros id r' Hr'. cbn in Hr'. apply lookup_fmap_Some in Hr' as (r & <- & Hr).
    destruct (p r) eqn:Ep; [|right; right; eauto].
    destruct (Hf id r Hr Ep) as [_ [Hk|[Hl Ha]]]; [by left | right; right; eauto].
Qed.

(** A claim of either direction. *)
Lemma claim_step_ok d dir st lease until by_node now d' rows :
  rows_ok d -> st = running_of dir -> (forall id r, ~ row_holds (messages d) id lease r) ->
  update_first d (first_created (claimable dir (waiting_of dir) now) (messages d)) (claimed st lease until by_node now) = (d', rows) ->
  rows_ok d' /\ evolves (Some lease) (messages d) (messages d') /\
  (forall id r, (id, r) ∈ rows -> messages d' !! id = Some r /\ delivery_ok r) /\
  (forall id1 id2 r1 r2, row_holds (messages d') id1 lease r1 -> row_holds (messages d') id2 lease r2 -> id1 = id2).
Proof.
  intros Hd Hst Hno Hu. unfold update_first in Hu. destruct (first_created _ _) as [[id r]|] eqn:E.
  - injection Hu as <- <-. apply picked_row in E as [Hr Hc].
    assert (Hok : delivery_ok (claimed st lease until by_node now r)) by (eapply claimed_ok; [by apply (Hd id) | done | done]).
    split_and!; [by apply map_Forall_insert_2 | apply evolves_insert; by right; left | |].
    + intros id' r' Hin. apply list_elem_of_singleton in Hin. injection Hin as -> ->. split; [apply lookup_insert_eq | done].
    + assert (Hat : forall i x, row_holds (<[id := claimed st lease until by_node now r]> (messages d)) i lease x -> i = id).
      { intros i x [Hx Hl]. destruct (decide (i = id)) as [|Hne]; [done|]. rewrite lookup_insert_ne in Hx by done.
        exfalso. by apply (Hno i x). }
      intros id1 id2 r1 r2 H1 H2. by rewrite (Hat _ _ H1), (Hat _ _ H2).
  - injection Hu as <- <-. split_and!; [done | apply evolves_refl | |].
    + intros id r Hin. by apply elem_of_nil in Hin.
    + intros id1 id2 r1 r2 H1 _. exfalso. by apply (Hno id1 r1).
Qed.

Lemma insert_ok d id r :
  rows_ok d -> delivery_ok r -> lease_token (life r) = None ->
  rows_ok (set_messages d (<[id := r]> (messages d))) /\ evolves None (messages d) (<[id := r]> (messages d)).
Proof. intros Hd Hr Hl. split; [by apply map_Forall_insert_2 | apply evolves_insert; by left]. Qed.

Lemma new_inbound_ok r : new_inbound r -> delivery_ok r.
Proof.
  intros (Hd & Hs & Ha & Hl). unfold delivery_ok. rewrite Hd, Ha. split_and!; [by left | done | done |].
  repeat (apply elem_of_cons in Hs as [Hs|Hs]; [rewrite Hs; (left; by split_and!) || (right; right; done)|]).
  by apply elem_of_nil in Hs.
Qed.

Lemma new_outbound_ok r : new_outbound r -> delivery_ok r.
Proof.
  intros (Hd & Hs & Ha & Hl). unfold delivery_ok. rewrite Hd, Ha. split_and!; [by right | done | done |].
  left. by rewrite Hs.
Qed.

(** Statements that draw no lease. *)
Lemma plain_step_ok s stmt d rows :
  lease_of stmt = None -> rows_ok d -> evolves None (messages (sdb s)) (messages d) -> good_step s stmt d rows.
Proof. intros Hl Hd He. unfold good_step. rewrite Hl. by split_and!. Qed.

Lemma recover_keeps again lost kept now r x u :
  keeps r (mkEmailRow (source r) (recovered again lost kept now (life r)) x (mta_sts r) u).
Proof. by left. Qed.

Lemma recover_step_ok d dir st again lost kept now (x : EmailRow -> Dsn) :
  rows_ok d -> again = waiting_of dir ->
  let f r := mkEmailRow (source r) (recovered again lost kept now (life r)) (x r) (mta_sts r) now in
  rows_ok (update_all d (stranded dir st now) f).1 /\
  evolves None (messages d) (messages (update_all d (stranded dir st now) f).1).
Proof.
  intros Hd Hag f. apply update_all_ok; [done|]. intros id r Hr Hp. split; [|apply recover_keeps].
  unfold stranded in Hp. apply andb_prop in Hp as [Hp _]. apply andb_prop in Hp as [Hdir%bool_decide_eq_true_1 _].
  eapply recovered_ok; [by apply (Hd id) | exact Hdir | done].
Qed.

Lemma issued_good s stmt d rows :
  sys_ok s -> issues s stmt -> run (sdb s) stmt = Some (d, rows) -> good_step s stmt d rows.
Proof.
  intros Hs Hi Hrun. pose proof Hs as (Hd & Hc & Hu & _). fold (rows_ok (sdb s)) in Hd.
  destruct Hi; cbn [run] in Hrun.
  all: try (injection Hrun as <- <-; apply plain_step_ok; [done | done | apply evolves_refl]).
  - destruct (messages (sdb s) !! id) eqn:E; injection Hrun as <- <-;
      (apply plain_step_ok; [done | |]); try done; try apply evolves_refl;
      apply insert_ok; try done; try (by apply new_inbound_ok); by destruct H as (_ & _ & _ & ?).
  - destruct (messages (sdb s) !! id) eqn:E; [done|]. injection Hrun as <- <-.
    apply plain_step_ok; [done | |]; apply insert_ok; try done; try (by apply new_outbound_ok);
      by destruct H as (_ & _ & _ & ?).
  - injection Hrun as <- <-.
    destruct (recover_step_ok (sdb s) "inbound" "running" "pending" lost_worker kept_worker now (fun r => dsn r) Hd eq_refl).
    by apply plain_step_ok.
  - injection Hrun as <- <-.
    destruct (recover_step_ok (sdb s) "outbound" "sending" "queued" lost_sender kept_sender now
      (fun r => dsn_after (OUTBOUND_MAX_ATTEMPTS <=? attempts (life r)) false now (dsn r)) Hd eq_refl).
    by apply plain_step_ok.
  - apply Some_inj in Hrun.
    assert (Hno : forall id r, ~ row_holds (messages (sdb s)) id lease r) by (intros id r Hh; by apply Hu in Hh).
    destruct (claim_step_ok (sdb s) "inbound" "running" lease until by_node now d rows Hd eq_refl Hno Hrun) as (Hd' & He & Hr & Hone).
    split_and!; try done; cbn; [by intros l [= <-] | by intros id r l Hin _; apply Hr | by intros id1 id2 l r1 r2 [= <-]; apply Hone].
  - apply Some_inj in Hrun.
    assert (Hno : forall id r, ~ row_holds (messages (sdb s)) id lease r) by (intros id r Hh; by apply Hu in Hh).
    destruct (claim_step_ok (sdb s) "outbound" "sending" lease until by_node now d rows Hd eq_refl Hno Hrun) as (Hd' & He & Hr & Hone).
    split_and!; try done; cbn; [by intros l [= <-] | by intros id r l Hin _; apply Hr | by intros id1 id2 l r1 r2 [= <-]; apply Hone].
  - apply Some_inj in Hrun. destruct (Hc c) as (_ & Hb & Ha); [done|].
    eapply update_one_ok in Hrun as [Hd' He]; [by apply plain_step_ok | done |].
    intros r Hr Hh. split; [|by left]. eapply (finished_ok "running" (claim_lease c)); [by apply (Hd (claim_id c)) | done | | by left |]; [done|].
    rewrite (Ha r) by (split; [done | by unfold held in Hh; apply andb_prop in Hh as [_ ?%bool_decide_eq_true_1]]).
    by eapply inbound_verdict_ok.
  - apply Some_inj in Hrun. destruct (Hc c) as (_ & Hb & Ha); [done|].
    eapply update_one_ok in Hrun as [Hd' He]; [by apply plain_step_ok | done |].
    intros r Hr Hh. split; [|by left]. eapply (finished_ok "sending" (claim_lease c)); [by apply (Hd (claim_id c)) | done | | by right |]; [done|].
    rewrite (Ha r) by (split; [done | by unfold held in Hh; apply andb_prop in Hh as [_ ?%bool_decide_eq_true_1]]).
    by eapply outbound_verdict_ok.
  - apply Some_inj in Hrun. eapply update_one_ok in Hrun as [Hd' He]; [by apply plain_step_ok | done |].
    intros r Hr _. split; [exact (Hd id r Hr) | by right].
  - apply Some_inj in Hrun. unfold update_first in Hrun. destruct (first_updated _ _) as [[id r]|] eqn:E; injection Hrun as <- <-;
      (apply plain_step_ok; [done | |]); try done; try apply evolves_refl; apply picked_row in E as [Hr _].
    + apply map_Forall_insert_2; [exact (Hd id r Hr) | done].
    + apply evolves_insert. right. right. eauto.
  - apply Some_inj in Hrun. eapply update_one_ok in Hrun as [Hd' He]; [by apply plain_step_ok | done |].
    intros r Hr _. split; [exact (Hd id r Hr) | by right].
  - injection Hrun as <- <-. apply plain_step_ok; [done | |].
    + intros id r Hr. apply (Hd id). eapply lookup_weaken; [exact Hr | apply map_filter_subseteq].
    + apply evolves_subseteq, map_filter_subseteq.
Qed.

Lemma mail_step_ok s s' : sys_ok s -> mail_step s s' -> sys_ok s'.
Proof.
  intros Hs (stmt & d & rows & Hi & Hrun & ->). apply sys_ok_step; [done|]. by apply issued_good.
Qed.

(** A lease that was drawn and is on no row stays off the rows. *)
Lemma step_no_lease s s' lease :
  sys_ok s -> mail_step s s' -> lease ∈ used s -> (forall id r, ~ row_holds (messages (sdb s)) id lease r) ->
  forall id r, ~ row_holds (messages (sdb s')) id lease r.
Proof.
  intros Hs (stmt & d & rows & Hi & Hrun & ->) Hu Hno id r [Hr Hl]. cbn in Hr.
  destruct (issued_good s stmt d rows Hs Hi Hrun) as (Hfresh & _ & Hev & _).
  destruct (Hev id r Hr) as [Hn|[Hf|(r0 & Hr0 & Hl0 & _)]]; [congruence | |].
  - by apply (Hfresh lease); [congruence|].
  - apply (Hno id r0). split; [done | congruence].
Qed.

Lemma mail_reachable_ok s : mail_reachable s -> sys_ok s.
Proof.
  apply (rtc_ind_r sys_ok start); [|intros s1 s2 _ Hstep Hok; by eapply mail_step_ok].
  split_and!; [apply map_Forall_empty | intros c Hc; by apply elem_of_nil in Hc | |].
  - intros id l r [Hr _]. cbn in Hr. by rewrite lookup_empty in Hr.
  - intros id1 id2 l r1 r2 [Hr _]. cbn in Hr. by rewrite lookup_empty in Hr.
Qed.

(** The statement that recovers the lapsed leases of one direction. *)
Definition recover_stmt (dir : string) (now : Z) : Stmt :=
  if bool_decide (dir = "inbound") then RecoverInbound now else RecoverOutbound now.

(** Can be claimed by any node from [t] on. *)
Definition claimable_from (t : Z) (r : EmailRow) : Prop :=
  forall now, t <= now -> claimable (direction (source r)) (waiting_of (direction (source r))) now r = true.

Lemma waiting_claimable r :
  status (life r) = waiting_of (direction (source r)) -> attempts (life r) < OUTBOUND_MAX_ATTEMPTS ->
  claimable_from (default 0 (next_attempt_ms (life r))) r.
Proof.
  intros Hst Ha now Hn. unfold claimable, due. rewrite Hst, !bool_decide_true by done.
  by rewrite (proj2 (Z.ltb_lt _ _) Ha), (proj2 (Z.leb_le _ _) Hn).
Qed.

Lemma recover_lapsed d r id dir now u :
  messages d !! id = Some r -> direction (source r) = dir -> (dir = "inbound" \/ dir = "outbound") ->
  status (life r) = running_of dir -> lease_until_ms (life r) = Some u -> u < now ->
  exists d' rows r', run d (recover_stmt dir now) = Some (d', rows) /\ messages d' !! id = Some r' /\
    (terminal (status (life r')) = true \/ claimable_from now r').
Proof.
  intros Hr Hdir Hd Hst Hu Hlt.
  assert (Hs : stranded dir (running_of dir) now r = true).
  { unfold stranded, lapsed. rewrite Hdir, Hst, Hu, !bool_decide_true by done. by apply Z.ltb_lt. }
  assert (Hok : forall x lost kept,
    let r' := mkEmailRow (source r) (recovered (waiting_of dir) lost kept now (life r)) x (mta_sts r) now in
    terminal (status (life r')) = true \/ claimable_from now r').
  { intros x lost kept r'. unfold r', recovered; cbn.
    destruct (Z.leb_spec OUTBOUND_MAX_ATTEMPTS (attempts (life r))) as [|Ha]; [by left | right].
    intros t Ht. unfold claimable, due; cbn. rewrite Hdir, !bool_decide_true by done.
    by rewrite (proj2 (Z.ltb_lt _ _) Ha), (proj2 (Z.leb_le _ _) Ht). }
  destruct Hd as [-> | ->]; [change (running_of "inbound") with "running" in Hs | change (running_of "outbound") with "sending" in Hs];
    (eexists _, _, _; split; [reflexivity|]; split;
      [cbn; rewrite lookup_fmap, Hr; cbn -[stranded]; rewrite Hs; reflexivity | apply Hok]).
Qed.

(** C30: No delivery is stranded.  However the handlers of any number of nodes interleave
    and wherever they stop, a message that is not in a final state either waits with
    an attempt left, and is offered to every claim from its next attempt on, or is
    under way with a lease, and the recovery that runs after the lease has lapsed
    ends it or offers it again. *)
Theorem no_delivery_is_stranded s id r :
  mail_reachable s -> messages (sdb s) !! id = Some r ->
  let dir := direction (source r) in
  0 <= attempts (life r) <= OUTBOUND_MAX_ATTEMPTS /\
  (terminal (status (life r)) = true \/
   claimable_from (default 0 (next_attempt_ms (life r))) r \/
   exists until, lease_until_ms (life r) = Some until /\ forall now, until < now ->
     exists d' rows r', run (sdb s) (recover_stmt dir now) = Some (d', rows) /\ messages d' !! id = Some r' /\
       (terminal (status (life r')) = true \/ claimable_from now r')).
Proof.
  intros Hs Hr dir. apply mail_reachable_ok in Hs as (Hd & _). destruct (Hd id r Hr) as (Hdir & Hb & Hst). split; [done|].
  destruct Hst as [(Hw & Ha & _)|[(Hrun & _ & [u Hu])|[Ht _]]]; [right; left | right; right | by left].
  - by apply waiting_claimable.
  - exists u. split; [done|]. intros now Hn. by eapply recover_lapsed.
Qed.

(** A lease that is on no row never comes back. *)
Lemma lease_dead s s' lease :
  sys_ok s -> rtc mail_step s s' -> lease ∈ used s ->
  (forall id r, ~ row_holds (messages (sdb s)) id lease r) ->
  lease ∈ used s' /\ forall id r, ~ row_holds (messages (sdb s')) id lease r.
Proof.
  intros Hok Hst. revert Hok. induction Hst as [s|s s1 s' Hstep Hst IH]; intros Hok Hu Hno; [done|].
  pose proof (mail_step_ok s s1 Hok Hstep) as Hok1. apply IH; [done | |]; clear IH Hst.
  - destruct Hstep as (stmt & d & rows & _ & _ & ->). cbn. unfold used_after. destruct (lease_of stmt); set_solver.
  - by apply (step_no_lease s s1).
Qed.

(** A claim on an inbound message settles at most once.  After a statement that
    settled a claim, every later attempt to settle under the same lease touches no
    row, whatever the handlers of all nodes did in between. *)
Theorem claim_settles_once s s1 s2 c now outcome st nxt error resp d row :
  mail_reachable s -> c ∈ claims s ->
  inbound_verdict c now outcome = (st, nxt, error, resp) ->
  run (sdb s) (FinishInbound st nxt error resp now (claim_id c) (claim_lease c)) = Some (d, [row]) ->
  s1 = mkSys d (claims s) (used s) -> rtc mail_step s1 s2 ->
  forall st' nxt' error' resp' now' id,
    run (sdb s2) (FinishInbound st' nxt' error' resp' now' id (claim_lease c)) = Some (sdb s2, []).
Proof.
  intros Hs Hc Hv Hrun -> Hst st' nxt' error' resp' now' id. apply mail_reachable_ok in Hs.
  pose proof Hs as (_ & Hclaims & _ & Huniq). destruct (Hclaims c Hc) as (Hu & _).
  assert (Hstep : mail_step s (mkSys d (claims s) (used s))).
  { exists (FinishInbound st nxt error resp now (claim_id c) (claim_lease c)), d, [row].
    split_and!; [by econstructor | done | cbn; by rewrite app_nil_r]. }
  destruct (lease_dead (mkSys d (claims s) (used s)) s2 (claim_lease c)) as [_ Hno]; [by eapply mail_step_ok | done | done | |].
  - cbn [run] in Hrun. apply Some_inj in Hrun. unfold update_one in Hrun.
    destruct (messages (sdb s) !! claim_id c) as [r|] eqn:Er; [|done].
    destruct (held "running" (claim_lease c) r) eqn:Eh; [|done]. injection Hrun as <- _. cbn.
    unfold held in Eh. apply andb_prop in Eh as [_ El%bool_decide_eq_true_1].
    intros i x [Hx Hl]. destruct (decide (i = claim_id c)) as [->|Hne].
    + rewrite lookup_insert_eq in Hx. injection Hx as <-. done.
    + rewrite lookup_insert_ne in Hx by done. apply Hne. by apply (Huniq i (claim_id c) (claim_lease c) x r).
  - cbn [run]. unfold update_one. destruct (messages (sdb s2) !! id) as [r|] eqn:Er; [|done].
    destruct (held "running" (claim_lease c) r) eqn:Eh; [|done]. exfalso.
    unfold held in Eh. apply andb_prop in Eh as [_ El%bool_decide_eq_true_1]. by apply (Hno id r).
Qed.
End deliveries.

(** The rows the handlers insert are the ones the steps speak of. *)
Lemma inbound_row_new spec mail_from recipient raw key sha parsed auth timestamp :
  new_inbound (inbound_row spec mail_from recipient raw key sha parsed auth timestamp).
Proof.
  unfold inbound_row, dispose. destruct (route_for spec recipient) as [r|]; [destruct (destination r)|];
    cbn; split_and!; set_solver.
Qed.

Lemma outbound_row_new mail_from recipient raw key sha parsed timestamp :
  new_outbound (outbound_row mail_from recipient raw key sha parsed timestamp).
Proof. done. Qed.

(** ** Failure notices of a node that dies *)

Module SampleNotice.
Definition failed_row : EmailRow := mkEmailRow
  (mkSource "outbound" "a@rf.example" "b@sea.example" None None "mail/o/1.eml" 4 "00" None (Some "smtp") None 0)
  (mkLife "failed" 5 None (Some "550 5.1.1") None None None None None)
  (mkDsn (Some "pending") None 0 (Some 0) None None None) no_mta_sts 0.

(** The [k]th claim of the notice, three minutes after the one before, by a node
    that dies before it settles it. *)
Definition claim_and_die (d : EmailDb) (k : Z) : EmailDb :=
  match run d (ClaimDsn (pretty k) (k * 180000 + OUTBOUND_LEASE_MS) (k * 180000)) with Some (d', _) => d' | None => d end.

Definition after_deaths : EmailDb :=
  foldl claim_and_die (mkEmailDb None {["m" := failed_row]} ∅ []) [1; 2; 3; 4; 5].
End SampleNotice.

(** A failure notice whose fifth attempt dies with its node is never settled: the
    row says [generating] for ever, since no claim takes a row with five attempts and
    nothing recovers the leases of notices, as it does those of deliveries. *)
Theorem dead_node_wedges_notice :
  exists r, messages SampleNotice.after_deaths !! "m" = Some r /\ dsn_status (dsn r) = Some "generating" /\
    dsn_attempts (dsn r) = OUTBOUND_MAX_ATTEMPTS /\ forall now, dsn_claimable now r = false.
Proof.
  eexists. split; [vm_compute; reflexivity|]. split; [reflexivity|]. split; [reflexivity|]. intros now. reflexivity.
Qed.

(** ** Retention *)

Section retention.
Context {O : Type} {r2 : R2 O} {r2_ok : R2Ok O}.
Context (now_at : nat -> Z) (id_at : nat -> string) (fault_at : nat -> Fault).

Definition same_object (bucket key : string) (w w' : World O) : Prop :=
  get_object (objects w') bucket key = get_object (objects w) bucket key.

(** A computation that leaves an object alone. *)
Definition leaves {A} (bucket key : string) (m : M A) : Prop := forall w, same_object bucket key w (m w).1.

Lemma leaves_bind {A B} bucket key (m : M A) (k : A -> M B) :
  leaves bucket key m -> (forall a, leaves bucket key (k a)) -> leaves bucket key (bind m k).
Proof.
  intros Hm Hk w. unfold bind. specialize (Hm w). destruct (m w) as [w' [a|e]]; cbn in *; [|done].
  unfold same_object. rewrite (Hk a w'). exact Hm.
Qed.
Lemma leaves_ret {A} bucket key (a : A) : leaves bucket key (ret (O := O) a).
Proof. done. Qed.
Lemma leaves_exec bucket key name s : leaves bucket key (exec (O := O) fault_at name s).
Proof. intros w. unfold exec. destruct (fault_at (tick w)), (run (db w name) s) as [[]|]; done. Qed.
Lemma leaves_query bucket key name : leaves bucket key (query (O := O) fault_at name).
Proof. intros w. unfold query. by destruct (fault_at (tick w)). Qed.
Lemma leaves_now bucket key : leaves bucket key (now_ms (O := O) now_at).
Proof. done. Qed.
Lemma leaves_new_id bucket key : leaves bucket key (new_id (O := O) id_at).
Proof. done. Qed.

Lemma leaves_audit bucket key name kind fields : leaves bucket key (append_audit (O := O) now_at id_at fault_at name kind fields).
Proof.
  unfold append_audit. apply leaves_bind; [apply leaves_new_id|]. intros id. apply leaves_bind; [apply leaves_now|].
  intros now. apply leaves_bind; [apply leaves_exec|]. intros _. apply leaves_ret.
Qed.

Lemma leaves_delete_others bucket key name keys :
  key ∉ keys -> leaves bucket key (delete_unreferenced (O := O) fault_at name bucket keys).
Proof.
  induction keys as [|k keys IH]; intros Hk; cbn [delete_unreferenced]; [apply leaves_ret|].
  apply leaves_bind; [apply leaves_query|]. intros d. apply leaves_bind; [|intros _; apply IH; set_solver].
  case_bool_decide; [|apply leaves_ret]. intros w. unfold delete, same_object.
  assert (Hne : (bucket, k) <> (bucket, key)) by (intros [= ->]; set_solver).
  pose proof (delete_other (objects w) bucket k bucket key Hne) as Hd.
  by destruct (delete_object (objects w) bucket k) as [o [|]].
Qed.

(** The messages of a domain are not touched. *)
Definition keeps_messages {A} (name : string) (m : M A) : Prop :=
  forall w : World O, messages (db (m w).1 name) = messages (db w name).

Lemma keeps_bind {A B} name (m : M A) (k : A -> M B) :
  keeps_messages name m -> (forall a, keeps_messages name (k a)) -> keeps_messages name (bind m k).
Proof.
  intros Hm Hk w. unfold bind. specialize (Hm w). destruct (m w) as [w' [a|e]]; cbn in *; [|done]. by rewrite (Hk a w').
Qed.

Definition no_message (s : Stmt) : Prop := forall d d' rows, run d s = Some (d', rows) -> messages d' = messages d.

Lemma db_set (w : World O) name d : db (next (set_db w name d)) name = d.
Proof. unfold db, next, set_db; cbn. by rewrite lookup_insert_eq. Qed.

Lemma keeps_exec name s : no_message s -> keeps_messages name (exec (O := O) fault_at name s).
Proof.
  intros Hs w. unfold exec. destruct (fault_at (tick w)); [|done|]; destruct (run (db w name) s) as [[d rows]|] eqn:E;
    try done; cbn [fst]; rewrite db_set; by apply (Hs (db w name) d rows).
Qed.

Lemma keeps_query name : keeps_messages name (query (O := O) fault_at name).
Proof. intros w. unfold query. by destruct (fault_at (tick w)). Qed.
Lemma keeps_now name : keeps_messages name (now_ms (O := O) now_at).
Proof. done. Qed.
Lemma keeps_new_id name : keeps_messages name (new_id (O := O) id_at).
Proof. done. Qed.
Lemma keeps_ret {A} name (a : A) : keeps_messages name (ret (O := O) a).
Proof. done. Qed.

Lemma quiet_statements e cutoff scope window amount v :
  no_message (AppendAudit e) /\ no_message (DeleteAudit cutoff) /\ no_message (DeleteRates cutoff) /\ no_message OtherTable /\
  no_message (AddRate scope window amount) /\ no_message (PutVerification v).
Proof. split_and!; intros d d' rows [= <- _]; done. Qed.

Lemma keeps_audit name kind fields : keeps_messages name (append_audit (O := O) now_at id_at fault_at name kind fields).
Proof.
  unfold append_audit. apply keeps_bind; [apply keeps_new_id|]. intros id. apply keeps_bind; [apply keeps_now|].
  intros now. apply keeps_bind; [apply keeps_exec; intros d d' rows [= <- _]; done|]. intros _. apply keeps_ret.
Qed.

Lemma keeps_delete name bucket keys : keeps_messages name (delete_unreferenced (O := O) fault_at name bucket keys).
Proof.
  induction keys as [|k keys IH]; cbn [delete_unreferenced]; [apply keeps_ret|].
  apply keeps_bind; [apply keeps_query|]. intros d. apply keeps_bind; [|done].
  case_bool_decide; [|apply keeps_ret]. intros w. unfold delete. by destruct (delete_object (objects w) bucket k) as [o [|]].
Qed.

(** What [sweep_retention] does after it deleted the rows. *)
Definition sweep_rest (name : string) (spec : EmailDomainSpec) (cutoff : Z) (keys : list string) (gone : list (string * EmailRow)) : M Z :=
  bind (delete_unreferenced fault_at name (em_bucket spec) keys) (fun _ =>
  bind (exec fault_at name (DeleteAudit cutoff)) (fun _ =>
  bind (now_ms now_at) (fun now =>
  bind (exec fault_at name (DeleteRates (sat_sub now (2 * 60 * 60 * 1000)))) (fun _ =>
  bind (now_ms now_at) (fun _ =>
  bind (exec fault_at name OtherTable) (fun _ =>
  bind (now_ms now_at) (fun _ =>
  bind (exec fault_at name OtherTable) (fun _ =>
  bind (if 0 <? Z.of_nat (length gone)
        then append_audit now_at id_at fault_at name "retention_sweep"
               [("deleted_messages", FNum (Z.of_nat (length gone))); ("cutoff_ms", FNum cutoff)]
        else ret tt) (fun _ =>
  ret (O := O) (Z.of_nat (length gone))))))))))).

Lemma sweep_rest_keeps name spec cutoff keys gone : keeps_messages name (sweep_rest name spec cutoff keys gone).
Proof.
  unfold sweep_rest. repeat (apply keeps_bind; [|intros ?]); try apply keeps_ret; try apply keeps_now; try apply keeps_delete;
    try (apply keeps_exec; intros d d' rows [= <- _]; done).
  destruct (_ <? _); [apply keeps_audit | apply keeps_ret].
Qed.

Lemma sweep_rest_leaves name spec cutoff keys gone key :
  key ∉ keys -> leaves (em_bucket spec) key (sweep_rest name spec cutoff keys gone).
Proof.
  intros Hk. unfold sweep_rest. repeat (apply leaves_bind; [|intros ?]); try apply leaves_ret; try apply leaves_now;
    try apply leaves_exec; [by apply leaves_delete_others|].
  destruct (_ <? _); [apply leaves_audit | apply leaves_ret].
Qed.

Definition sweep_cutoff (spec : EmailDomainSpec) (w : World O) : Z :=
  sat_sub (now_at (S (tick w))) (retention_days spec * 86400000).

(** The distinct keys of the rows a sweep deletes. *)
Definition swept_keys (cutoff : Z) (d : EmailDb) : list string :=
  remove_dups ((fun ir => object_key (source ir.2)) <$> filter (fun ir => expired cutoff ir.2 = true) (map_to_list (messages d))).

Lemma sweep_unfold name spec w :
  (forall k, fault_at k = Healthy) ->
  let cutoff := sweep_cutoff spec w in
  exists w1 gone, objects w1 = objects w /\
    messages (db w1 name) = filter (fun ir => expired cutoff ir.2 = false) (messages (db w name)) /\
    sweep_retention now_at id_at fault_at name spec w =
    sweep_rest name spec cutoff (expired_keys cutoff (db w name)) gone w1.
Proof.
  intros Hf cutoff. unfold sweep_retention, ensure_schema, bind at 1 2, exec at 1. rewrite Hf. cbn [run ret].
  unfold bind at 1, now_ms at 1. cbn [tick next set_db].
  unfold bind at 1, query at 1. rewrite Hf. cbn [tick next].
  unfold bind at 1, exec at 1. rewrite Hf. cbn [run tick next].
  match goal with |- context [db (next ?x) name] => set (w0 := next x) end.
  assert (Hdb : db w0 name = db w name).
  { unfold w0, db, next, set_db; cbn. by rewrite lookup_insert_eq. }
  eexists _, _. split_and!; [| |rewrite Hdb; reflexivity]; [done|].
  unfold db at 1, next, set_db; cbn. rewrite lookup_insert_eq. cbn. unfold db at 1; cbn. by rewrite lookup_insert_eq.
Qed.

(** A sweep deletes every expired row but looks after at most a thousand objects:
    when the expired rows name more than a thousand, some row is deleted whose
    object stays in the store, and once the row is gone no later sweep can name it. *)
Theorem large_sweep_orphans_objects name spec w :
  (forall k, fault_at k = Healthy) ->
  let cutoff := sweep_cutoff spec w in
  (1000 < length (swept_keys cutoff (db w name)))%nat ->
  let w' := (sweep_retention now_at id_at fault_at name spec w).1 in
  exists id r, messages (db w name) !! id = Some r /\ expired cutoff r = true /\
    get_object (objects w') (em_bucket spec) (object_key (source r)) = get_object (objects w) (em_bucket spec) (object_key (source r)) /\
    messages (db w' name) = filter (fun ir => expired cutoff ir.2 = false) (messages (db w name)).
Proof.
  intros Hf cutoff Hlen w'. destruct (sweep_unfold name spec w Hf) as (w1 & gone & Ho & Hm & Hsweep). fold cutoff in Hm, Hsweep.
  destruct (lookup_lt_is_Some_2 (swept_keys cutoff (db w name)) 1000 Hlen) as [key Hkey].
  assert (Hnot : key ∉ expired_keys cutoff (db w name)).
  { intros (i & Hi)%list_elem_of_lookup. unfold expired_keys in Hi. fold (swept_keys cutoff (db w name)) in Hi.
    pose proof (lookup_lt_Some _ _ _ Hi) as Hlt. rewrite length_take in Hlt. rewrite lookup_take_lt in Hi by lia.
    assert (i = 1000%nat); [|lia]. refine (NoDup_lookup (swept_keys cutoff (db w name)) _ _ key _ Hi Hkey).
    apply NoDup_remove_dups. }
  apply list_elem_of_lookup_2 in Hkey. unfold swept_keys in Hkey. rewrite elem_of_remove_dups in Hkey.
  apply list_elem_of_fmap in Hkey as ([id r] & -> & Hin). apply list_elem_of_filter in Hin as [He Hin].
  apply elem_of_map_to_list in Hin. exists id, r. unfold w'. rewrite Hsweep. split_and!; [done | done | |].
  - pose proof (sweep_rest_leaves name spec cutoff _ gone _ Hnot w1) as Hl. unfold same_object in Hl. cbn [snd] in Hl.
    by rewrite Hl, Ho.
  - by rewrite (sweep_rest_keeps name spec cutoff _ gone w1).
Qed.
End retention.

(** ** Examples *)

Module SampleMail.
Definition spec : EmailDomainSpec := mkDomainSpec "" "rf.example" "0123456789abcdef" "mx.rf.example" "inbox" "mail"
  [mkRoute "all" 0 true CatchAll (ToWorker "reader"); mkRoute "bob" 5 true (Exact "bob@rf.example") DropMail;
   mkRoute "b" 1 true (Prefix "b") (Forward ["x@sea.example"])]
  1000000 60 60 30 "rf1" "" "" false "".

#[export] Instance metadata_json : MetadataJson := {|
  metadata_to_vec m := to_stdvec (Postcard := SampleCodec.codec (string * list string)) (send_from m, send_recipients m);
  metadata_from_slice b :=
    '(f, r) ← from_bytes (Postcard := SampleCodec.codec (string * list string)) b; Some (mkSendMetadata f r)
|}.

#[export] Instance metadata_json_ok : MetadataJsonOk.
Proof. intros [f r]. unfold metadata_from_slice, metadata_to_vec; cbn -[decode encode]. by rewrite decode_encode. Qed.

#[export] Instance outside : Outside := {|
  dispatch_email_worker _ _ _ := Ok (mkOutcome None []);
  sign_dkim _ raw := Ok raw;
  discover_mta_sts_policy _ _ := Ok None;
  deliver_direct_smtp _ _ _ _ _ := Ok (mkDelivery "250 OK" None);
  error_text _ := "error"
|}.

#[export] Instance store : R2 (gmap (string * string) string) := {|
  put_object o bucket key raw := (<[(bucket, key) := raw]> o, Ok tt);
  get_object o bucket key := Ok (o !! (bucket, key));
  delete_object o bucket key := (base.delete (bucket, key) o, Ok tt)
|}.

#[export] Instance store_ok : R2Ok (gmap (string * string) string).
Proof.
  split; cbn; intros; [by rewrite lookup_insert_eq | by rewrite lookup_insert_ne | by rewrite lookup_delete_ne].
Qed.

Definition row : EmailRow := inbound_row spec "a@sea.example" "eve@rf.example" "text" "k" "00" None None 1.
Definition arrived : Sys := mkSys (mkEmailDb None {["m" := row]} ∅ []) [] ∅.
Definition taken : Sys :=
  mkSys (mkEmailDb None {["m" := claimed "running" "l" 1000 "n" 5 row]} ∅ [])
    [mkClaim "m" (claimed "running" "l" 1000 "n" 5 row) "l"] {["l"]}.

Lemma arrived_reachable : mail_reachable arrived.
Proof.
  apply rtc_once. exists (InsertOrIgnore "m" row), (sdb arrived), [("m", row)].
  split_and!; [constructor; apply inbound_row_new | reflexivity | reflexivity].
Qed.

Lemma taken_reachable : mail_reachable taken.
Proof.
  eapply rtc_r; [exact arrived_reachable|].
  exists (ClaimInbound "l" 1000 "n" 5), (sdb taken), [("m", claimed "running" "l" 1000 "n" 5 row)].
  split_and!; [constructor; set_solver | vm_compute; reflexivity | vm_compute; reflexivity].
Qed.

Definition big_db : EmailDb :=
  mkEmailDb None (list_to_map ((fun k => (pretty k, mkEmailRow
    (mkSource "inbound" "" "" None None (pretty k) 0 "" None None None 0)
    (mkLife "delivered" 1 None None None None None None None) no_dsn no_mta_sts 0)) <$> seq 0 1001)) ∅ [].
Definition big : World (gmap (string * string) string) := mkWorld {["d" := big_db]} ∅ 0.
End SampleMail.
#[local] Existing Instances SampleMail.metadata_json SampleMail.metadata_json_ok SampleMail.outside SampleMail.store SampleMail.store_ok.

Lemma sample_spec_valid : validate_domain SampleMail.spec = Ok tt.
Proof. vm_compute. reflexivity. Qed.

Lemma route_is_first_match_witness :
  match route_for SampleMail.spec "Bob@rf.example" with
  | Some r => takes SampleMail.spec "Bob" "Bob@rf.example" r /\
      forall r', takes SampleMail.spec "Bob" "Bob@rf.example" r' -> r' <> r -> route_key r ≺ route_key r'
  | None => forall r, ~ takes SampleMail.spec "Bob" "Bob@rf.example" r
  end.
Proof.
  refine (route_is_first_match SampleMail.spec "Bob@rf.example" "Bob" "rf.example" sample_spec_valid _ _);
    vm_compute; reflexivity.
Defined.

Lemma send_request_roundtrip_witness :
  exists body, encode_send_request (mkSendMetadata "a@rf.example" ["b@sea.example"]) [72; 105] = Ok body /\
    decode_send_request body = Ok (mkSendMetadata "a@rf.example" ["b@sea.example"], [72; 105]).
Proof.
  refine (proj1 (send_request_roundtrip (mkSendMetadata "a@rf.example" ["b@sea.example"]) [72; 105]) _ _);
    vm_compute; discriminate.
Defined.

Lemma no_delivery_is_stranded_witness :
  mail_reachable SampleMail.taken /\
  let r := claimed "running" "l" 1000 "n" 5 SampleMail.row in
  0 <= attempts (life r) <= OUTBOUND_MAX_ATTEMPTS /\
  (terminal (status (life r)) = true \/
   claimable_from (default 0 (next_attempt_ms (life r))) r \/
   exists until, lease_until_ms (life r) = Some until /\ forall now, until < now ->
     exists d' rows r', run (sdb SampleMail.taken) (recover_stmt "inbound" now) = Some (d', rows) /\ messages d' !! "m" = Some r' /\
       (terminal (status (life r')) = true \/ claimable_from now r')).
Proof.
  split; [exact SampleMail.taken_reachable|].
  exact (no_delivery_is_stranded SampleMail.taken "m" (claimed "running" "l" 1000 "n" 5 SampleMail.row)
    SampleMail.taken_reachable (lookup_insert_eq ∅ "m" _)).
Defined.

Lemma claim_settles_once_witness :
  let c := mkClaim "m" (claimed "running" "l" 1000 "n" 5 SampleMail.row) "l" in
  exists d row, run (sdb SampleMail.taken) (FinishInbound "delivered" None None (Some "Worker 已处理") 9 "m" "l") = Some (d, [row]) /\
  run d (FinishInbound "failed" None None None 10 "m" "l") = Some (d, []).
Proof.
  intros c. eexists _, _. split; [vm_compute; reflexivity|].
  eapply (claim_settles_once SampleMail.taken _ (mkSys _ [c] {["l"]}) c 9 (Ok Delivered) "delivered" None None (Some "Worker 已处理"));
    [exact SampleMail.taken_reachable | apply list_elem_of_singleton; reflexivity | reflexivity | vm_compute; reflexivity | reflexivity | apply rtc_refl].
Defined.

Definition late (_ : nat) : Z := 10 ^ 13.
Definition no_fault (_ : nat) : Fault := Healthy.

Lemma remove_dups_nodup (l : list string) : NoDup l -> remove_dups l = l.
Proof. induction 1 as [|x l Hx _ IH]; [done|]. cbn. destruct (decide_rel _ x l); [done | by rewrite IH]. Qed.

Lemma filter_all {A} (P : A -> Prop) `{!forall x, Decision (P x)} (l : list A) : Forall P l -> filter P l = l.
Proof. induction 1 as [|x l Hx _ IH]; [done|]. by rewrite filter_cons_True, IH. Qed.

Lemma big_is_large : (1000 < length (swept_keys (sweep_cutoff late SampleMail.spec SampleMail.big) (db SampleMail.big "d")))%nat.
Proof.
  set (cutoff := sweep_cutoff late SampleMail.spec SampleMail.big).
  assert (Hcut : 0 < cutoff) by reflexivity. clearbody cutoff.
  assert (Hdb : db SampleMail.big "d" = SampleMail.big_db) by reflexivity. rewrite Hdb. clear Hdb.
  unfold swept_keys, SampleMail.big_db. cbn [messages]. set (l := _ <$> seq 0 1001).
  assert (Hkeys : l.*1 = pretty <$> seq 0 1001) by (unfold l; by rewrite <- list_fmap_compose).
  assert (Hnd : NoDup (pretty (A := nat) <$> seq 0 1001)) by (apply (NoDup_fmap_2 pretty), NoDup_seq).
  assert (Hp : map_to_list (list_to_map l : gmap string EmailRow) ≡ₚ l) by (apply map_to_list_to_map; by rewrite Hkeys).
  assert (Hf : filter (fun ir : string * EmailRow => expired cutoff ir.2 = true) l = l).
  { apply filter_all, Forall_forall. intros ir [k [-> _]]%list_elem_of_fmap. unfold expired; cbn.
    by rewrite (proj2 (Z.ltb_lt _ _) Hcut). }
  assert (Hperm : (fun ir : string * EmailRow => object_key (source ir.2)) <$>
    filter (fun ir => expired cutoff ir.2 = true) (map_to_list (list_to_map l : gmap string EmailRow)) ≡ₚ pretty <$> seq 0 1001).
  { rewrite Hp, Hf. unfold l. by rewrite <- list_fmap_compose. }
  rewrite remove_dups_nodup by by rewrite Hperm. rewrite Hperm, length_fmap, length_seq. apply Nat.ltb_lt. reflexivity.
Qed.

Lemma large_sweep_orphans_objects_witness :
  let cutoff := sweep_cutoff late SampleMail.spec SampleMail.big in
  let w' := (sweep_retention late pretty no_fault "d" SampleMail.spec SampleMail.big).1 in
  exists id r, messages (db SampleMail.big "d") !! id = Some r /\ expired cutoff r = true /\
    get_object (objects w') (em_bucket SampleMail.spec) (object_key (source r)) =
    get_object (objects SampleMail.big) (em_bucket SampleMail.spec) (object_key (source r)) /\
    messages (db w' "d") = filter (fun ir => expired cutoff ir.2 = false) (messages (db SampleMail.big "d")).
Proof.
  exact (large_sweep_orphans_objects late pretty no_fault "d" SampleMail.spec SampleMail.big (fun _ => eq_refl) big_is_large).
Defined.
