(* ===== verification/EmailSmtp.v ===== *)
(** * EmailSmtp: receiving mail (crates/rf/src/email.rs on vendor/mailin)

    [SmtpHandler] is the handler the mail server gives to the SMTP library: it
    checks senders and recipients, collects the text and hands accepted mail to
    [ingest_inbound].  The theorems are about whole sessions: what a client is told
    was accepted is stored, and what happens to the session after a refusal. *)

From Stdlib Require Import ZArith Lia Ascii.
From stdpp Require Import prelude gmap sorting strings list pretty.
From S2P Require Import Prelude Text Identity Manifest Resource Email EmailProps Smtp.
Open Scope Z_scope.

Create HintDb mail.

Section smtp_handler.
Context {crypto : Crypto} {hex : Hex} {lib : MailLib IpAddr} {O : Type} {r2 : R2 O} {dir : Directory}.
Context (now_at : nat -> Z) (id_at : nat -> string) (fault_at : nat -> Fault) (own_mx : string).

Record SmtpHandler : Type := mkHandler {
  client_ip : IpAddr;
  helo_domain : string;
  mail_from : string;
  recipients : list (string * string);
  text : string;
  max_bytes : Z;
  overflowed : bool;
  world : World O
}.

(** [SmtpHandler::new]. *)
Definition new_handler (w : World O) : SmtpHandler :=
  mkHandler (V4 0) EmptyString EmptyString [] EmptyString DEFAULT_MESSAGE_BYTES false w.

Definition reset_message (h : SmtpHandler) : SmtpHandler :=
  mkHandler (client_ip h) (helo_domain h) EmptyString [] EmptyString DEFAULT_MESSAGE_BYTES false (world h).

(** [find_recipient_domain]. *)
Definition find_recipient_domain (address : string) : option (string * EmailDomainSpec) :=
  match split_address address with
  | Err _ => None
  | Ok (_, domain) =>
      List.find (fun '(_, spec) =>
        negb (em_suspended spec) && bool_decide (em_domain spec = domain) && bool_decide (mx_hostname spec = own_mx)
        && bool_decide (is_Some (route_id <$> route_for spec address))) email_domain_records
  end.

(** The methods of the trait [Handler]. *)
Definition on_helo (h : SmtpHandler) (from : IpAddr) (domain : string) : SmtpHandler * Response :=
  if negb (valid_domain domain) then (h, BAD_HELLO)
  else (mkHandler from (to_ascii_lowercase domain) (mail_from h) (recipients h) (text h) (max_bytes h) (overflowed h) (world h), OK).

Definition on_mail (h : SmtpHandler) (from : IpAddr) (domain reverse_path : string) : SmtpHandler * Response :=
  let h := reset_message h in
  let started sender := mkHandler from (to_ascii_lowercase domain) sender (recipients h) (text h) (max_bytes h) (overflowed h) (world h) in
  if is_empty reverse_path then (started EmptyString, OK)
  else
    match normalize_address reverse_path with
    | Err _ => (started EmptyString, BAD_MAILBOX)
    | Ok address => (started address, OK)
    end.

Definition with_world (h : SmtpHandler) (w : World O) : SmtpHandler :=
  mkHandler (client_ip h) (helo_domain h) (mail_from h) (recipients h) (text h) (max_bytes h) (overflowed h) w.

Definition on_rcpt (h : SmtpHandler) (to : string) : SmtpHandler * Response :=
  match normalize_address to with
  | Err _ => (h, BAD_MAILBOX)
  | Ok address =>
      match find_recipient_domain address with
      | None => (h, custom 550 "5.1.1 收件地址不存在")
      | Some (name, spec) =>
          let '(w, status) := latest_verification fault_at name (world h) in
          let h := with_world h w in
          if negb (match status with Ok (Some v) => verified v | _ => false end)
          then (h, custom 451 "4.3.0 收件域暂未就绪，请稍后重试")
          else
            (mkHandler (client_ip h) (helo_domain h) (mail_from h) (recipients h ++ [(name, address)]) (text h)
               (Z.min (max_bytes h) (max_message_bytes spec)) (overflowed h) (world h), OK)
      end
  end.

Definition on_data_start (h : SmtpHandler) : SmtpHandler * Response :=
  let h := mkHandler (client_ip h) (helo_domain h) (mail_from h) (recipients h) EmptyString (max_bytes h) false (world h) in
  if bool_decide (recipients h = []) then (h, NO_MAILBOX) else (h, OK).

Definition on_data (h : SmtpHandler) (buf : string) : SmtpHandler * result unit string :=
  if overflowed h then (h, Ok tt)
  else if max_bytes h <? Z.min (slen (text h) + slen buf) u64_max
  then (mkHandler (client_ip h) (helo_domain h) (mail_from h) (recipients h) EmptyString (max_bytes h) true (world h), Ok tt)
  else (mkHandler (client_ip h) (helo_domain h) (mail_from h) (recipients h) (text h ++ buf)%string (max_bytes h) false (world h), Ok tt).

(** The [BTreeMap] from domains to their recipients. *)
Definition by_domain (accepted : list (string * string)) : list (string * list string) :=
  map (fun name => (name, (filter (fun p => p.1 = name) accepted).*2)) (merge_sort text_le (remove_dups accepted.*1)).

(** The loop of [data_end] over the domains: the identifiers of the messages stored. *)
Fixpoint deliver (helo : string) (from : IpAddr) (sender raw : string) (groups : list (string * list string)) : M (O := O) (list string) :=
  match groups with
  | [] => ret []
  | (name, rcpts) :: groups' =>
      bind (ingest_inbound now_at id_at fault_at name (mkInbound helo from sender rcpts) raw) (fun accepted =>
      bind (deliver helo from sender raw groups') (fun rest => ret (map ing_id accepted ++ rest)))
  end.

Definition on_data_end (h : SmtpHandler) : SmtpHandler * Response :=
  if overflowed h then (reset_message h, custom 552 "5.3.4 邮件超过此域允许的大小")
  else
    let '(w, result) := deliver (helo_domain h) (client_ip h) (mail_from h) (text h) (by_domain (recipients h)) (world h) in
    let h := reset_message (with_world h w) in
    match result with
    | Ok ids => (h, custom 250 ("2.0.0 已由 RandallFlare 接收 " ++ pretty (Z.of_nat (length ids)) ++ " 个投递")%string)
    | Err _ => (h, custom 451 "4.3.0 邮件暂存失败，请稍后重试")
    end.

#[export] Instance smtp_handler : Handler SmtpHandler := {|
  helo := on_helo;
  mail := on_mail;
  rcpt := on_rcpt;
  data_start h _ _ _ _ := on_data_start h;
  data := on_data;
  data_end := on_data_end;
  auth_plain h _ _ _ := (h, INVALID_CREDENTIALS);
  auth_login h _ _ := (h, INVALID_CREDENTIALS)
|}.

#[export] Instance smtp_handler_ok : HandlerOk SmtpHandler.
Proof. split; [|done|done]. intros h i d. cbn. unfold on_helo. by destruct (valid_domain d). Qed.
End smtp_handler.
Arguments SmtpHandler : clear implicits.

(** ** Storing *)

Lemma string_app_length (a b : string) : String.length (a +:+ b) = (String.length a + String.length b)%nat.
Proof. induction a as [|c a IH]; [done|]. rewrite string_app_cons. cbn. by rewrite IH. Qed.

Lemma app_prefix (x y a b : string) : (x +:+ a = y +:+ b)%string -> String.length x = String.length y -> x = y.
Proof.
  revert y. induction x as [|c x IH]; intros [|c' y]; rewrite ?string_app_cons; intros Heq Hl; try done.
  injection Heq as -> Heq. injection Hl as Hl. by rewrite (IH y).
Qed.

Lemma slash_segment (a b x y : string) :
  contains_byte "/" x = false -> contains_byte "/" y = false -> (a +:+ String "/" x = b +:+ String "/" y)%string -> x = y.
Proof.
  intros Hx Hy. revert b. induction a as [|c a IH]; intros [|c' b]; rewrite ?string_app_cons; intros Heq.
  - by injection Heq.
  - injection Heq as _ ->. rewrite contains_byte_app in Hx. by destruct (contains_byte "/" b).
  - injection Heq as _ <-. rewrite contains_byte_app in Hy. by destruct (contains_byte "/" a).
  - injection Heq as _ Heq. by apply (IH b).
Qed.

Section storing.
Context {crypto : Crypto} {hex : Hex} {lib : MailLib IpAddr} {O : Type} {r2 : R2 O} {r2_ok : R2Ok O} {dir : Directory}.
Context (now_at : nat -> Z) (id_at : nat -> string) (fault_at : nat -> Fault).
Context (id_inj : forall i j, id_at i = id_at j -> i = j) (id_plain : forall i, contains_byte "/" (id_at i) = false).
Implicit Types (w : World O).

(** The identifiers not yet drawn are on no row. *)
Definition ids_fresh w : Prop := forall k name, (tick w <= k)%nat -> messages (db w name) !! id_at k = None.

(** The key of an object, with one of the first [n] identifiers in it. *)
Definition old_key (n : nat) (key : string) : Prop :=
  exists pre j, (j < n)%nat /\ key = (pre +:+ String "/" (id_at j +:+ ".eml"))%string.

Lemma key_id pre pre' i j : (pre +:+ String "/" (id_at i +:+ ".eml") = pre' +:+ String "/" (id_at j +:+ ".eml"))%string -> i = j.
Proof.
  intros Heq%slash_segment; [|by rewrite contains_byte_app, id_plain..].
  apply id_inj, (app_prefix _ _ ".eml" ".eml"); [done|].
  apply (f_equal String.length) in Heq. rewrite !string_app_length in Heq. lia.
Qed.

Lemma old_key_fresh n pre j : (n <= j)%nat -> ~ old_key n (pre +:+ String "/" (id_at j +:+ ".eml")).
Proof. intros Hn (pre' & i & Hi & Heq%key_id). lia. Qed.

Lemma old_key_le n n' key : (n <= n')%nat -> old_key n key -> old_key n' key.
Proof. intros Hn (pre & j & Hj & ->). exists pre, j. split; [lia | done]. Qed.

(** What a computation that succeeds does to the world: rows are only added, under
    identifiers it drew, and the objects under earlier identifiers stay. *)
Definition grows w w' : Prop :=
  (tick w <= tick w')%nat /\
  (forall name id r, messages (db w name) !! id = Some r -> messages (db w' name) !! id = Some r) /\
  (forall name id r, messages (db w' name) !! id = Some r ->
     messages (db w name) !! id = Some r \/ exists k, (tick w <= k < tick w')%nat /\ id = id_at k) /\
  (forall b k raw, old_key (tick w) k -> get_object (objects w) b k = Ok (Some raw) -> get_object (objects w') b k = Ok (Some raw)).

Lemma grows_refl w : grows w w.
Proof. split_and!; auto. Qed.

Lemma grows_trans w1 w2 w3 : grows w1 w2 -> grows w2 w3 -> grows w1 w3.
Proof.
  intros (Ht1 & Hr1 & Hn1 & Ho1) (Ht2 & Hr2 & Hn2 & Ho2). split_and!; [lia | by auto | | by eauto using old_key_le].
  intros name id r Hr. destruct (Hn2 name id r Hr) as [Hr'|(k & Hk & ->)]; [|right; exists k; split; [lia | done]].
  destruct (Hn1 name id r Hr') as [|(k & Hk & ->)]; [by left | right; exists k; split; [lia | done]].
Qed.

Lemma grows_fresh w w' : grows w w' -> ids_fresh w -> ids_fresh w'.
Proof.
  intros (Ht & _ & Hn & _) Hf k name Hk. destruct (messages (db w' name) !! id_at k) as [r|] eqn:E; [|done].
  destruct (Hn name _ r E) as [Hr|(j & Hj & Heq)].
  - rewrite Hf in Hr by lia. done.
  - apply id_inj in Heq. lia.
Qed.

Lemma bind_ok {A B} (m : M A) (k : A -> M B) w w' b :
  bind m k w = (w', Ok b) -> exists a w1, m w = (w1, Ok a) /\ k a w1 = (w', Ok b).
Proof. unfold bind. destruct (m w) as [w1 [a|e]]; [eauto | by intros [= _ ?]]. Qed.

(** Computations that do no more, whether they succeed or fail. *)
Definition harmless {A} (m : M A) : Prop := forall w w' r, m w = (w', r) -> grows w w'.

Lemma harmless_bind {A B} (m : M A) (k : A -> M B) : harmless m -> (forall a, harmless (k a)) -> harmless (bind m k).
Proof.
  intros Hm Hk w w' r. unfold bind. destruct (m w) as [w1 [a|e]] eqn:E; apply Hm in E; [|by intros [= <- _]].
  intros H2%Hk. by eapply grows_trans.
Qed.
Lemma harmless_ret {A} (a : A) : harmless (ret a).
Proof. intros w w' b [= <- _]. apply grows_refl. Qed.
Lemma harmless_fail {A} e : harmless (fail (A := A) e).
Proof. intros w w' b [= <- _]. apply grows_refl. Qed.
Lemma harmless_check b e : harmless (check b e).
Proof. unfold check. destruct b; [apply harmless_fail | apply harmless_ret]. Qed.
Lemma harmless_pure {A} (r : result A EmailError) : harmless (pure r).
Proof. intros w w' b [= <- _]. apply grows_refl. Qed.

Lemma grows_tick w : grows w (next w).
Proof. split_and!; cbn; auto. Qed.

Lemma harmless_now : harmless (now_ms now_at).
Proof. intros w w' b [= <- _]. apply grows_tick. Qed.
Lemma harmless_id : harmless (new_id id_at).
Proof. intros w w' b [= <- _]. apply grows_tick. Qed.
Lemma harmless_query name : harmless (query fault_at name).
Proof. intros w w' b. unfold query. destruct (fault_at (tick w)); intros [= <- _]; apply grows_tick. Qed.

(** A statement leaves the database as it was or runs. *)
Lemma exec_cases name s w w' r :
  exec fault_at name s w = (w', r) ->
  w' = next w \/ exists d rows, run (db w name) s = Some (d, rows) /\ w' = next (set_db w name d).
Proof.
  unfold exec. destruct (fault_at (tick w)); [|intros [= <- _]; by left|].
  - destruct (run (db w name) s) as [[d rs]|]; intros [= <- _]; eauto.
  - destruct (run (db w name) s) as [[d rs]|]; intros [= <- _]; eauto.
Qed.

Lemma exec_ok name s w w' rows :
  exec fault_at name s w = (w', Ok rows) -> exists d, run (db w name) s = Some (d, rows) /\ w' = next (set_db w name d).
Proof.
  unfold exec. destruct (fault_at (tick w)); [|done|].
  - destruct (run (db w name) s) as [[d rs]|]; [|done]. intros [= <- <-]. eauto.
  - by destruct (run (db w name) s) as [[d rs]|].
Qed.

Lemma db_other w name d name' : name <> name' -> db (next (set_db w name d)) name' = db w name'.
Proof. intros Hne. unfold db, next, set_db; cbn. by rewrite lookup_insert_ne. Qed.

Lemma messages_set w name d name' :
  messages (db (next (set_db w name d)) name') = if decide (name = name') then messages d else messages (db w name').
Proof. destruct (decide (name = name')) as [->|]; [by rewrite db_set | by rewrite db_other]. Qed.

Lemma harmless_exec name s : no_message s -> harmless (exec fault_at name s).
Proof.
  intros Hs w w' r [->|(d & rows & Hrun & ->)]%exec_cases; [apply grows_tick|]. apply Hs in Hrun.
  split_and!; [cbn; lia | | |done]; intros name' id r'; rewrite messages_set; destruct (decide (name = name')) as [->|];
    rewrite ?Hrun; auto.
Qed.

#[local] Hint Resolve harmless_bind harmless_ret harmless_fail harmless_check harmless_pure harmless_now harmless_id
  harmless_query : mail.
#[local] Hint Extern 2 (harmless (exec _ _ _)) => apply harmless_exec; intros ? ? ? [= <- _]; reflexivity : mail.

Lemma harmless_schema name : harmless (ensure_schema fault_at name).
Proof. unfold ensure_schema. auto with mail. Qed.
Lemma harmless_audit name kind fields : harmless (append_audit now_at id_at fault_at name kind fields).
Proof. unfold append_audit. auto 8 with mail. Qed.
#[local] Hint Resolve harmless_schema harmless_audit : mail.
Lemma harmless_verification name : harmless (latest_verification fault_at name).
Proof. unfold latest_verification. auto 8 with mail. Qed.
Lemma harmless_message name id : harmless (get_message fault_at name id).
Proof. unfold get_message. auto 8 with mail. Qed.
Lemma harmless_rate name scope limit increment : harmless (enforce_rate_limit now_at fault_at name scope limit increment).
Proof. unfold enforce_rate_limit. auto 8 with mail. Qed.
#[local] Hint Resolve harmless_verification harmless_message harmless_rate : mail.

(** Storing the text, under an identifier of its own. *)
Lemma make_object_key_id spec kind t id : exists pre, make_object_key spec kind t id = (pre +:+ String "/" (id +:+ ".eml"))%string.
Proof.
  unfold make_object_key. destruct (utc_date (t / 1000)) as [[y m] d].
  eexists (object_prefix spec +:+ ("/" +:+ (kind +:+ ("/" +:+ (pretty y +:+ ("/" +:+ (two_digits m +:+ ("/" +:+ two_digits d))))))))%string.
  by rewrite !string_app_assoc.
Qed.

Lemma put_grows spec kind t raw w w1 w' sid r :
  new_id id_at w = (w1, Ok sid) -> put (em_bucket spec) (make_object_key spec kind t sid) raw w1 = (w', r) -> grows w w'.
Proof.
  intros [= <- <-]. destruct (make_object_key_id spec kind t (id_at (tick w))) as [pre ->]. set (key := (pre +:+ _)%string).
  unfold put. cbn [objects next]. destruct (put_object (objects w) (em_bucket spec) key raw) as [o x] eqn:E. intros [= <- _].
  split_and!; [cbn; lia | auto | auto |]. intros b k raw' Hk Hb. cbn.
  pose proof (put_other (objects w) (em_bucket spec) key raw b k) as Hp. rewrite E in Hp. cbn in Hp. rewrite Hp; [done|].
  intros [= _ <-]. by apply old_key_fresh in Hk.
Qed.

Lemma harmless_put {A} spec kind t raw (k : string -> unit -> M A) :
  (forall sid u, harmless (k sid u)) ->
  harmless (bind (new_id id_at) (fun sid => bind (put (em_bucket spec) (make_object_key spec kind t sid) raw) (k sid))).
Proof.
  intros Hk w w' r. unfold bind at 1. destruct (new_id id_at w) as [w1 [sid|e]] eqn:E1; [|done].
  unfold bind. destruct (put _ _ _ w1) as [w2 [u|e]] eqn:E2; apply (put_grows _ _ _ _ _ _ _ _ _ E1) in E2; [|by intros [= <- _]].
  intros H2%Hk. by eapply grows_trans.
Qed.

Lemma put_ok spec kind t raw w w1 w' sid u :
  new_id id_at w = (w1, Ok sid) -> put (em_bucket spec) (make_object_key spec kind t sid) raw w1 = (w', Ok u) ->
  get_object (objects w') (em_bucket spec) (make_object_key spec kind t sid) = Ok (Some raw) /\
  old_key (tick w') (make_object_key spec kind t sid).
Proof.
  intros [= <- <-]. destruct (make_object_key_id spec kind t (id_at (tick w))) as [pre ->]. set (key := (pre +:+ _)%string).
  unfold put. cbn [objects next]. destruct (put_object (objects w) (em_bucket spec) key raw) as [o [x|e]] eqn:E; intros [= <- _].
  split; [|exists pre, (tick w); split; [cbn; lia | done]].
  pose proof (put_get (objects w) (em_bucket spec) key raw) as Hp. rewrite E in Hp. cbn in Hp. by destruct x; apply Hp.
Qed.

(** A row of the message [raw] for a recipient, with its text in the store. *)
Definition stored (name : string) (spec : EmailDomainSpec) (sender recipient raw : string) w : Prop :=
  exists id r, messages (db w name) !! id = Some r /\ direction (source r) = "inbound" /\
    em_mail_from (source r) = sender /\ rcpt_to (source r) = recipient /\
    status (life r) = (dispose (route_for spec recipient)).1.1 /\
    get_object (objects w) (em_bucket spec) (object_key (source r)) = Ok (Some raw) /\ old_key (tick w) (object_key (source r)).

Lemma stored_grows name spec sender recipient raw w w' :
  grows w w' -> stored name spec sender recipient raw w -> stored name spec sender recipient raw w'.
Proof.
  intros (Ht & Hr & _ & Ho) (id & r & Hid & Hd & Hs & Hrc & Hst & Hobj & Hk). exists id, r. split_and!; eauto using old_key_le.
Qed.

Lemma insert_grows name w w1 w' id r res :
  new_id id_at w = (w1, Ok id) -> exec fault_at name (InsertOrIgnore id r) w1 = (w', res) -> grows w w'.
Proof.
  intros [= <- <-] [->|(d & rows & Hrun & ->)]%exec_cases; [exact (grows_trans _ _ _ (grows_tick w) (grows_tick _))|].
  cbn [run] in Hrun. change (db (next w) name) with (db w name) in Hrun. split_and!; [cbn; lia | | | done];
    intros name' i r'; rewrite messages_set; change (db (next w) name') with (db w name');
    (destruct (decide (name = name')) as [<-|]; [|auto]); destruct (messages (db w name) !! id_at (tick w)) eqn:E;
    injection Hrun as <- <-; auto; cbn [messages set_messages]; destruct (decide (i = id_at (tick w))) as [->|Hne];
    rewrite ?lookup_insert_ne by done; rewrite ?lookup_insert_eq, ?E; auto; try done.
  right. exists (tick w). cbn. split; [lia | done].
Qed.

Lemma harmless_insert {A} name r (k : string -> list (string * EmailRow) -> M A) :
  (forall id rows, harmless (k id rows)) ->
  harmless (bind (new_id id_at) (fun id => bind (exec fault_at name (InsertOrIgnore id r)) (k id))).
Proof.
  intros Hk w w' res. unfold bind at 1. destruct (new_id id_at w) as [w1 [id|e]] eqn:E1; [|done].
  unfold bind. destruct (exec fault_at name _ w1) as [w2 [rows|e]] eqn:E2; apply (insert_grows _ _ _ _ _ _ _ E1) in E2; [|by intros [= <- _]].
  intros H2%Hk. by eapply grows_trans.
Qed.

Lemma insert_stored name id r w w1 w' rows :
  ids_fresh w -> new_id id_at w = (w1, Ok id) -> exec fault_at name (InsertOrIgnore id r) w1 = (w', Ok rows) ->
  rows = [(id, r)] /\ messages (db w' name) !! id = Some r /\ objects w' = objects w.
Proof.
  intros Hf [= <- <-] (d & Hrun & ->)%exec_ok. cbn [run] in Hrun. change (db (next w) name) with (db w name) in Hrun.
  rewrite (Hf (tick w) name) in Hrun by lia. injection Hrun as <- <-.
  split_and!; [done | rewrite db_set; apply lookup_insert_eq | done].
Qed.

Lemma harmless_ingest_recipient name spec sender raw key sha parsed auth timestamp recipient :
  harmless (ingest_recipient now_at id_at fault_at name spec sender raw key sha parsed auth timestamp None recipient).
Proof.
  unfold ingest_recipient. apply harmless_bind; [auto with mail|]. intros [local domain].
  destruct (negb _); [auto with mail|]. destruct (dispose (route_for spec recipient)) as [[st rid] tgt].
  apply harmless_insert. intros id rows. destruct (bool_decide _); [auto with mail|].
  apply harmless_bind; [auto with mail|]. intros [r|]; auto with mail.
Qed.

Lemma harmless_ingest_recipients name spec sender raw key sha parsed auth timestamp rcpts :
  harmless (ingest_recipients (ingest_recipient now_at id_at fault_at name spec sender raw key sha parsed auth timestamp None) rcpts).
Proof.
  induction rcpts as [|r rcpts IH]; cbn [ingest_recipients]; [auto with mail|].
  apply harmless_bind; [apply harmless_ingest_recipient | auto with mail].
Qed.

Lemma harmless_ingest name e raw : harmless (ingest_inbound now_at id_at fault_at name e raw).
Proof.
  unfold ingest_inbound, ingest_inbound_inner. destruct (email_domain_record name) as [spec|]; [|auto with mail].
  do 9 (apply harmless_bind; [auto with mail | intros ?]). apply harmless_put. intros sid _.
  apply harmless_bind; [apply harmless_ingest_recipients | auto with mail].
Qed.

Lemma harmless_deliver helo from sender raw groups : harmless (deliver now_at id_at fault_at helo from sender raw groups).
Proof.
  induction groups as [|[name rcpts] groups IH]; cbn [deliver]; [auto with mail|].
  apply harmless_bind; [apply harmless_ingest | auto with mail].
Qed.

Lemma ingest_recipient_ok name spec sender raw key sha parsed auth timestamp recipient local w w' one :
  ids_fresh w -> split_address recipient = Ok (local, em_domain spec) ->
  get_object (objects w) (em_bucket spec) key = Ok (Some raw) -> old_key (tick w) key ->
  ingest_recipient now_at id_at fault_at name spec sender raw key sha parsed auth timestamp None recipient w = (w', Ok one) ->
  grows w w' /\ stored name spec sender recipient raw w' /\ is_Some one.
Proof.
  intros Hf Hs Hobj Hkey. unfold ingest_recipient. intros (ld & w1 & [= <- Heq] & H1)%bind_ok. rewrite Hs in Heq. injection Heq as <-.
  rewrite bool_decide_true in H1 by done. cbn [negb] in H1.
  destruct (dispose (route_for spec recipient)) as [[st rid] tgt] eqn:Ed.
  apply bind_ok in H1 as (id & w2 & Hid & H1). apply bind_ok in H1 as (rows & w3 & H2 & H1).
  destruct (insert_stored name _ _ w w2 w3 rows Hf Hid H2) as (-> & Hrow & Ho). pose proof (insert_grows _ _ _ _ _ _ _ Hid H2) as Hg.
  rewrite bool_decide_true in H1 by done. apply bind_ok in H1 as (u & w4 & H3 & H1). injection H1 as <- <-.
  assert (Hg4 : grows w3 w4) by by eapply harmless_audit.
  assert (Hst : stored name spec sender recipient raw w3).
  { eexists _, _. split; [exact Hrow|]. unfold inbound_row. rewrite Ed. cbn. split_and!; try done; [by rewrite Ho|].
    eapply old_key_le; [|exact Hkey]. apply Hg. }
  split_and!; [by eapply grows_trans | by eapply stored_grows | done].
Qed.

Lemma ingest_recipients_ok name spec sender raw key sha parsed auth timestamp rcpts w w' l :
  ids_fresh w -> Forall (fun r => exists local, split_address r = Ok (local, em_domain spec)) rcpts ->
  get_object (objects w) (em_bucket spec) key = Ok (Some raw) -> old_key (tick w) key ->
  ingest_recipients (ingest_recipient now_at id_at fault_at name spec sender raw key sha parsed auth timestamp None) rcpts w = (w', Ok l) ->
  grows w w' /\ Forall (fun r => stored name spec sender r raw w') rcpts.
Proof.
  intros Hf Hr. revert w w' l Hf. induction Hr as [|r rcpts [local Hr] _ IH]; intros w w' l Hf Hobj Hkey.
  - intros [= <- _]. split; [apply grows_refl | done].
  - cbn [ingest_recipients]. intros (one & w1 & H1 & H2)%bind_ok. apply bind_ok in H2 as (rest & w2 & H2 & H3). injection H3 as <- _.
    destruct (ingest_recipient_ok _ _ _ _ _ _ _ _ _ _ _ _ _ _ Hf Hr Hobj Hkey H1) as (Hg1 & Hs1 & _).
    destruct (IH w1 w2 rest) as [Hg2 Hs2]; [by eapply grows_fresh | by apply Hg1 | eapply old_key_le; [|exact Hkey]; apply Hg1 | exact H2 |].
    split; [by eapply grows_trans|]. constructor; [by eapply stored_grows | done].
Qed.

Lemma ingest_inbound_ok name spec e raw w w' l :
  ids_fresh w -> email_domain_record name = Some spec ->
  Forall (fun r => exists local, split_address r = Ok (local, em_domain spec)) (env_recipients e) ->
  ingest_inbound now_at id_at fault_at name e raw w = (w', Ok l) ->
  grows w w' /\ Forall (fun r => stored name spec (env_from e) r raw w') (env_recipients e).
Proof.
  intros Hf Hrec Hr. unfold ingest_inbound, ingest_inbound_inner. rewrite Hrec.
  intros (? & w1 & H1 & Hk)%bind_ok. apply bind_ok in Hk as (? & w2 & H2 & Hk). apply bind_ok in Hk as (? & w3 & H3 & Hk).
  apply bind_ok in Hk as (? & w4 & H4 & Hk). apply bind_ok in Hk as (? & w5 & H5 & Hk). apply bind_ok in Hk as (v & w6 & H6 & Hk).
  apply bind_ok in Hk as (? & w7 & H7 & Hk). apply bind_ok in Hk as (? & w8 & H8 & Hk). apply bind_ok in Hk as (t & w9 & H9 & Hk).
  apply bind_ok in Hk as (sid & w10 & H10 & Hk). apply bind_ok in Hk as (? & w11 & H11 & Hk).
  apply bind_ok in Hk as (ing & w12 & H12 & Hk). apply bind_ok in Hk as (? & w13 & H13 & Hk). injection Hk as <- _.
  assert (Hg9 : grows w w9).
  { apply (harmless_check _ _) in H1, H2, H3, H4, H7. apply (harmless_schema _) in H5. apply (harmless_verification _) in H6.
    apply (harmless_rate _ _ _ _) in H8. apply harmless_now in H9.
    clear - H1 H2 H3 H4 H5 H6 H7 H8 H9. eauto 12 using grows_trans. }
  destruct (put_ok _ _ _ _ _ _ _ _ _ H10 H11) as (Hobj & Hkey). pose proof (put_grows _ _ _ _ _ _ _ _ _ H10 H11) as Hg11.
  assert (Hg : grows w w11) by by eapply grows_trans.
  destruct (ingest_recipients_ok _ _ _ _ _ _ _ _ _ _ _ _ _ (grows_fresh _ _ Hg Hf) Hr Hobj Hkey H12) as [Hg12 Hs].
  assert (w12 = w13) as ->. { unfold check in H13. destruct (bool_decide (ing = [])); [done | by injection H13 as <- _]. }
  split; [by eapply grows_trans | done].
Qed.

(** A recipient as [on_rcpt] accepts it: its record serves the address's domain. *)
Definition accepted_ok (p : string * string) : Prop :=
  exists spec local, email_domain_record p.1 = Some spec /\ split_address p.2 = Ok (local, em_domain spec).

Definition stored_at (sender raw : string) w (p : string * string) : Prop :=
  exists spec, email_domain_record p.1 = Some spec /\ stored p.1 spec sender p.2 raw w.

Lemma stored_at_grows sender raw w w' p : grows w w' -> stored_at sender raw w p -> stored_at sender raw w' p.
Proof. intros Hg (spec & Hr & Hs). exists spec. split; [done | by eapply stored_grows]. Qed.

Definition spread (groups : list (string * list string)) : list (string * string) :=
  groups ≫= fun '(name, rcpts) => map (fun r : string => (name, r)) rcpts.

Lemma group_spec name rcpts :
  rcpts <> [] -> Forall accepted_ok (map (fun r : string => (name, r)) rcpts) ->
  exists spec, email_domain_record name = Some spec /\
    Forall (fun r => exists local, split_address r = Ok (local, em_domain spec)) rcpts.
Proof.
  intros Hne Hok. rewrite Forall_map in Hok. destruct rcpts as [|r0 rcpts]; [done|].
  assert (H0 := Hok). apply Forall_cons in H0 as [(spec & l0 & Hrec & _) _]. cbn in Hrec. exists spec. split; [done|].
  eapply Forall_impl; [exact Hok|]. intros r (spec' & local & Hrec' & Hs). cbn in *. rewrite Hrec in Hrec'. injection Hrec' as <-. by exists local.
Qed.

Lemma deliver_ok helo from sender raw groups w w' ids :
  ids_fresh w -> Forall (fun g => g.2 <> []) groups -> Forall accepted_ok (spread groups) ->
  deliver now_at id_at fault_at helo from sender raw groups w = (w', Ok ids) ->
  grows w w' /\ Forall (stored_at sender raw w') (spread groups).
Proof.
  intros Hf Hne. revert w w' ids Hf. induction Hne as [|[name rcpts] groups Hn _ IH]; intros w w' ids Hf Hok.
  - intros [= <- _]. split; [apply grows_refl | constructor].
  - cbn [deliver]. intros (acc & w1 & H1 & H2)%bind_ok. apply bind_ok in H2 as (rest & w2 & H2 & H3). injection H3 as <- _.
    cbn [spread mbind list_bind] in Hok. apply Forall_app in Hok as [Hok1 Hok2].
    destruct (group_spec name rcpts Hn Hok1) as (spec & Hrec & Hr).
    destruct (ingest_inbound_ok name spec (mkInbound helo from sender rcpts) raw w w1 acc Hf Hrec Hr H1) as [Hg1 Hs1].
    destruct (IH w1 w2 rest) as [Hg2 Hs2]; [by eapply grows_fresh | exact Hok2 | exact H2 |].
    split; [by eapply grows_trans|]. cbn [spread mbind list_bind]. apply Forall_app. split; [|exact Hs2].
    apply Forall_map. eapply Forall_impl; [exact Hs1|]. intros r Hst. exists spec. split; [exact Hrec | by eapply stored_grows].
Qed.

Lemma by_domain_spread accepted p : p ∈ spread (by_domain accepted) <-> p ∈ accepted.
Proof.
  destruct p as [name addr]. unfold spread, by_domain. rewrite list_elem_of_bind. split.
  - intros ([n rs] & Hp & Hg). apply list_elem_of_fmap in Hg as (n' & [= -> ->] & _).
    apply list_elem_of_fmap in Hp as (a & [= -> ->] & Ha). apply list_elem_of_fmap in Ha as ([n a'] & -> & Hf).
    apply list_elem_of_filter in Hf as [Hn Hin]. cbn in Hn. by subst n.
  - intros Hin. eexists (name, _). split; [|apply list_elem_of_fmap; exists name; split; [done|]].
    + apply list_elem_of_fmap. exists addr. split; [done|]. apply list_elem_of_fmap. exists (name, addr). split; [done|].
      by apply list_elem_of_filter.
    + rewrite merge_sort_Permutation, elem_of_remove_dups. apply list_elem_of_fmap. by exists (name, addr).
Qed.

Lemma Forall_spread (P : string * string -> Prop) accepted : Forall P accepted -> Forall P (spread (by_domain accepted)).
Proof. rewrite !Forall_forall. intros HP p Hp. by apply HP, by_domain_spread. Qed.

Lemma by_domain_filled accepted : Forall (fun g => g.2 <> []) (by_domain accepted).
Proof.
  apply Forall_map, Forall_forall. intros name Hin. cbn. rewrite merge_sort_Permutation, elem_of_remove_dups in Hin.
  apply list_elem_of_fmap in Hin as ([n a] & -> & Hin). intros Hnil.
  assert (Hp : a ∈ (filter (fun p : string * string => p.1 = n) accepted).*2).
  { apply list_elem_of_fmap. exists (n, a). split; [done|]. by apply list_elem_of_filter. }
  cbn in Hnil. rewrite Hnil in Hp. by apply elem_of_nil in Hp.
Qed.
End storing.

(** ** What a client was promised

    The client's side of a session, from the calls and their answers alone: the
    transaction it is in, and for every text the server took with 250, its sender
    and each recipient the server had accepted. *)

Record View : Type := mkView {
  v_from : string;
  v_to : list string;
  v_text : string;
  v_promised : list (string * string * string)
}.

Definition view1 (v : View) (c : Call) : View :=
  match c with
  | CMail _ _ from _ => mkView from [] EmptyString (v_promised v)
  | CRcpt to r => if is_error r then v else mkView (v_from v) (v_to v ++ [to]) (v_text v) (v_promised v)
  | CDataStart _ _ _ _ _ => mkView (v_from v) (v_to v) EmptyString (v_promised v)
  | CData buf => mkView (v_from v) (v_to v) (v_text v +:+ buf) (v_promised v)
  | CDataEnd r =>
      mkView EmptyString [] EmptyString
        (v_promised v ++ if is_error r then [] else map (fun to => (v_from v, to, v_text v)) (v_to v))
  | _ => v
  end.

Definition view (log : list Call) : View := foldl view1 (mkView EmptyString [] EmptyString []) log.
Definition promised (log : list Call) : list (string * string * string) := v_promised (view log).

Lemma view_snoc log c : view (log ++ [c]) = view1 (view log) c.
Proof. unfold view. by rewrite foldl_app. Qed.

(** The sender as it is stored: the null sender and a refused one are empty. *)
Definition sender_of (from : string) : string :=
  if is_empty from then EmptyString else match normalize_address from with Ok a => a | Err _ => EmptyString end.

Section promises.
Context {nom : Nom} {b64 : Base64Decode} {crypto : Crypto} {hex : Hex} {lib : MailLib IpAddr} {O : Type} {r2 : R2 O} {r2_ok : R2Ok O} {dir : Directory} {dir_ok : DirectoryOk}.
Context (now_at : nat -> Z) (id_at : nat -> string) (fault_at : nat -> Fault) (own_mx : string).
Context (id_inj : forall i j, id_at i = id_at j -> i = j) (id_plain : forall i, contains_byte "/" (id_at i) = false).
#[local] Instance handler_ops : Handler (SmtpHandler O) := smtp_handler now_at id_at fault_at own_mx.

(** A promise kept: a row for the recipient's address, and the text, whole. *)
Definition kept (w : World O) (p : string * string * string) : Prop :=
  let '(from, to, raw) := p in
  exists name addr, normalize_address to = Ok addr /\ stored_at id_at (sender_of from) raw w (name, addr).

Lemma kept_grows w w' p : grows id_at w w' -> kept w p -> kept w' p.
Proof.
  destruct p as [[from to] raw]. intros Hg (name & addr & Hn & Hs). exists name, addr. split; [done|]. by eapply stored_at_grows.
Qed.

(** The handler against the client's side. *)
Definition serves (h : Logged (SmtpHandler O)) : Prop :=
  let v := view h.2 in
  mail_from h.1 = sender_of (v_from v) /\
  Forall2 (fun p to => accepted_ok p /\ normalize_address to = Ok p.2) (recipients h.1) (v_to v) /\
  (overflowed h.1 = false -> text h.1 = v_text v) /\
  ids_fresh id_at (world h.1) /\ Forall (kept (world h.1)) (v_promised v).

Lemma recipient_accepted address name spec :
  find_recipient_domain own_mx address = Some (name, spec) -> accepted_ok (name, address).
Proof.
  unfold find_recipient_domain. destruct (split_address address) as [[local domain]|e] eqn:E; [|done].
  intros [Hin%list_elem_of_In Hd]%List.find_some. apply directory_agrees in Hin.
  rewrite !andb_true_iff in Hd. destruct Hd as [[[_ Hd%bool_decide_eq_true] _] _]. exists spec, local. split; [done | cbn; by rewrite E, Hd].
Qed.

Lemma serves_rcpt h to : serves h -> serves (rcpt h to).1.
Proof.
  destruct h as [h log]. intros (Hf & Hr & Ht & Hi & Hk). cbn [fst snd] in *. cbn -[on_rcpt view]. unfold logging; cbn -[on_rcpt view].
  unfold serves. cbn -[on_rcpt view]. rewrite view_snoc. unfold on_rcpt.
  destruct (normalize_address to) as [addr|e] eqn:En; [|by rewrite ?E].
  destruct (find_recipient_domain own_mx addr) as [[name spec]|] eqn:Ef; [|done].
  destruct (latest_verification fault_at name (world h)) as [w status] eqn:El.
  assert (Hg : grows id_at (world h) w) by (eapply harmless_verification, El).
  assert (Hk' : Forall (kept w) (v_promised (view log))) by (eapply Forall_impl; [exact Hk | intros; by eapply kept_grows]).
  destruct (negb _); cbn -[view]; split_and!; try done; try (by eapply grows_fresh).
  apply Forall2_app; [done|]. repeat constructor; [|done]. by eapply recipient_accepted.
Qed.

Lemma serves_mail h i d from : serves h -> serves (mail h i d from).1.
Proof.
  destruct h as [h log]. intros (_ & _ & _ & Hi & Hk). cbn -[on_mail view]. unfold serves, logging. cbn -[on_mail view]. rewrite view_snoc.
  unfold on_mail. cbn -[view]. unfold sender_of. destruct (is_empty from); [|destruct (normalize_address from)]; cbn -[view]; split_and!; done.
Qed.

Lemma serves_data h buf : serves h -> serves (data h buf).1.
Proof.
  destruct h as [h log]. intros (Hf & Hr & Ht & Hi & Hk). cbn [fst snd] in *. cbn -[on_data view]. unfold serves, logging. cbn -[on_data view]. rewrite view_snoc.
  unfold on_data. destruct (overflowed h) eqn:Eo; [|destruct (_ <? _)]; cbn -[view]; split_and!; try done.
  - by rewrite Eo.
  - intros _. by rewrite Ht.
Qed.

Lemma serves_data_end h : serves h -> serves (data_end h).1.
Proof.
  destruct h as [h log]. intros (Hf & Hr & Ht & Hi & Hk). cbn [fst snd] in *. cbn -[on_data_end view]. unfold serves, logging. cbn -[on_data_end view]. rewrite view_snoc.
  unfold on_data_end. destruct (overflowed h); [cbn -[view]; rewrite app_nil_r; split_and!; done|].
  destruct (deliver _ _ _ _ _ _ _ _ _) as [w res] eqn:Ed. assert (Hg : grows id_at (world h) w) by (by eapply harmless_deliver).
  assert (Hk' : Forall (kept w) (v_promised (view log))) by (eapply Forall_impl; [exact Hk | intros; by eapply kept_grows]).
  assert (Hi' : ids_fresh id_at w) by by eapply grows_fresh.
  destruct res as [ids|e]; cbn -[view]; [|rewrite app_nil_r; split_and!; done].
  split_and!; try done. apply Forall_app. split; [done|]. apply Forall_map.
  assert (Hacc : Forall accepted_ok (recipients h)).
  { clear -Hr. induction Hr as [|p to ps tos [Hp _] _ IH]; by constructor. }
  destruct (deliver_ok now_at id_at fault_at id_inj id_plain _ _ _ _ _ _ _ _ Hi (by_domain_filled _)
    (Forall_spread _ _ Hacc) Ed) as [_ Hst].
  rewrite Hf in Hst. rewrite Ht in Hst by done. rewrite Forall_forall in Hst.
  apply Forall_forall. intros to Hto. cbn. apply list_elem_of_lookup in Hto as [n Hn].
  destruct (Forall2_lookup_r _ _ _ _ _ Hr Hn) as ([name addr] & Hp & _ & Hnorm). exists name, addr. split; [done|].
  apply Hst, by_domain_spread. by eapply list_elem_of_lookup_2.
Qed.

#[local] Instance serves_kept : Keeps serves.
Proof.
  split.
  - intros [h log] i d (Hf & Hr & Ht & Hi & Hk). cbn [fst snd] in *. unfold serves. cbn -[on_helo view]. rewrite view_snoc.
    unfold on_helo. destruct (negb _); cbn -[view]; split_and!; done.
  - apply serves_mail.
  - apply serves_rcpt.
  - intros [h log] d f b to (Hf & Hr & Ht & Hi & Hk). cbn [fst snd] in *. unfold serves. cbn -[on_data_start view]. rewrite view_snoc.
    unfold on_data_start. destruct (bool_decide _); cbn -[view]; split_and!; done.
  - apply serves_data.
  - apply serves_data_end.
  - intros [h log] a b c Hs. unfold serves. cbn -[view]. by rewrite view_snoc.
  - intros [h log] u q Hs. unfold serves. cbn -[view]. by rewrite view_snoc.
Qed.

(** C6: Mail a client was told is accepted is stored: whatever bytes a client sends,
    before and after TLS, and whichever statements the databases refuse or lose, at
    the end of the session every recipient of every message answered with 250 has a
    row with the message's sender, whose object holds exactly the text the client
    sent, dot-stuffing removed. *)
Theorem accepted_mail_is_stored server start_tls remote w plain secure :
  ids_fresh id_at w ->
  let h := handler (start_session (build server [] start_tls false remote (new_handler w, [])) plain secure).1.1 in
  Forall (kept (world h.1)) (promised h.2).
Proof.
  intros Hi. assert (Hs : serves (new_handler w, [])) by (unfold serves; cbn; split_and!; done).
  by destruct (session_keeps serves (build server [] start_tls false remote (new_handler w, [])) plain secure Hs) as (_ & _ & _ & _ & Hk).
Qed.
End promises.

(** ** After a refused message *)

Section refused.
Context {nom : Nom} {b64 : Base64Decode} {crypto : Crypto} {hex : Hex} {lib : MailLib IpAddr} {O : Type} {r2 : R2 O} {dir : Directory}.
Context (now_at : nat -> Z) (id_at : nat -> string) (fault_at : nat -> Fault) (own_mx : string).
#[local] Instance refusing_ops : Handler (SmtpHandler O) := smtp_handler now_at id_at fault_at own_mx.

Definition nothing_stored : Response := custom 250 "2.0.0 已由 RandallFlare 接收 0 个投递".

Definition text_size (lines : list string) : Z := foldr (fun l n => slen l + n) 0 lines.

Lemma text_size_nonneg lines : 0 <= text_size lines.
Proof. induction lines as [|x lines IH]; cbn; [lia|]. fold (text_size lines). unfold slen. lia. Qed.

Lemma handler_stores_data : stores_data (H := SmtpHandler O).
Proof. intros h buf. cbn. unfold on_data. by repeat case_match. Qed.

(** A handler that has dropped its transaction takes text for nobody. *)
Definition idle (w : World O) (h : SmtpHandler O) : Prop :=
  recipients h = [] /\ overflowed h = false /\ max_bytes h = DEFAULT_MESSAGE_BYTES /\ world h = w.

Lemma idle_lines w lines h :
  idle w h -> slen (text h) + text_size lines <= DEFAULT_MESSAGE_BYTES -> idle w (store_lines h lines).
Proof.
  revert h. induction lines as [|l lines IH]; intros h Hi Hs; [done|]. cbn [store_lines foldl text_size foldr] in *. fold (text_size lines) in Hs.
  pose proof (text_size_nonneg lines) as Hn.
  destruct Hi as (Hr & Ho & Hm & Hw). cbn [data refusing_ops smtp_handler]. unfold on_data. rewrite Ho, Hm.
  rewrite (proj2 (Z.ltb_ge _ _)) by (unfold slen in *; lia). cbn [fst]. apply IH; [done|]. cbn [text].
  unfold slen in *. rewrite string_app_length. lia.
Qed.

Lemma idle_end w h : idle w h -> data_end h = (reset_message h, nothing_stored).
Proof. intros (Hr & Ho & Hm & Hw). cbn. unfold on_data_end. rewrite Ho, Hr. cbn. by destruct h. Qed.

Lemma refused_idle h : is_error (data_end h).2 = true -> action (data_end h).2 = Reply /\ idle (world (data_end h).1) (data_end h).1 /\ text (data_end h).1 = EmptyString.
Proof.
  cbn. unfold on_data_end. destruct (overflowed h); [done|]. by destruct (deliver _ _ _ _ _ _ _ _ _) as [w [ids|e]].
Qed.

(** C31: A message sent after a refused one is lost: the library goes on reading text,
    so a client that does not wait for answers has its next transaction, commands and
    all, swallowed, and the dot at its end is answered with 250 although no recipient
    was seen and nothing is stored. *)
Theorem message_after_refusal_is_lost (s : Session (SmtpHandler O)) d lines rest :
  smtp (fsm s) = Some (Data d) -> is_error (data_end (handler s)).2 = true ->
  Forall (fun l => l <> END_OF_DATA) lines -> text_size (map unstuff lines) <= DEFAULT_MESSAGE_BYTES ->
  exists h', world h' = world (data_end (handler s)).1 /\
    handle_lines s (END_OF_DATA :: lines ++ END_OF_DATA :: rest) =
    let '(s', out, r) := handle_lines (mkSession (name s) h' (set_smtp (fsm s) (Some (Hello d)))) rest in
    (s', (write_to (data_end (handler s)).2 ++ write_to nothing_stored ++ out)%string, r).
Proof.
  intros Hs He Hl Hsize. destruct (refused_idle _ He) as (Ha & Hi & Ht).
  assert (Hi' := idle_lines _ (map unstuff lines) _ Hi). rewrite Ht in Hi'. specialize (Hi' Hsize).
  eexists (reset_message (store_lines (data_end (handler s)).1 (map unstuff lines))). split; [apply Hi'|].
  cbn [handle_lines]. rewrite (process_end _ d) by done. unfold transform_state. rewrite Ha, He, bool_decide_false by done. cbn [snd fst].
  assert (Hm : set_smtp (fsm s) (Some (Data d)) = fsm s) by (destruct (fsm s); cbn in *; by subst).
  rewrite Hm, (handle_data_lines _ d) by (try done; apply handler_stores_data). cbn [name handler fsm].
  pose proof (end_of_data (mkSession (name s) (store_lines (data_end (handler s)).1 (map unstuff lines)) (fsm s)) d rest Hs) as Hend.
  cbn [handler name fsm] in Hend. rewrite (idle_end _ _ Hi') in Hend. rewrite Hend by done.
  destruct (handle_lines _ rest) as [[s' out] r]. done.
Qed.
End refused.

(** ** A session with a mail server of one domain *)

Module SampleServer.
Definition mail_lib : MailLib IpAddr := {|
  authenticate_message _ _ _ := None;
  mail_parse _ := None;
  utc_date _ := (2026, 1, 1);
  b64url b := foldr (fun z s => String (ascii_of_N (Z.to_N z)) s) EmptyString b
|}.

Definition directory : Directory := {|
  email_domain_record name := if bool_decide (name = "d") then Some SampleMail.spec else None;
  email_domain_records := [("d", SampleMail.spec)]
|}.

Fixpoint id_of (k : nat) : string := match k with O => EmptyString | S k => String "a" (id_of k) end.
Definition clock (_ : nat) : Z := 1767225600000.
Definition healthy (_ : nat) : Fault := Healthy.

Definition checked : EmailVerification :=
  mkVerification "rf.example" true true true true true [] [] [] [] 0 None.
Definition world0 : World (gmap (string * string) string) :=
  mkWorld {["d" := mkEmailDb (Some checked) ∅ ∅ []]} ∅ 0.

Definition dialogue : string :=
  print_cmd (Cmd.Ehlo "sea.example") +:+ (print_cmd (Cmd.Mail "ship@sea.example" false) +:+
  (print_cmd (Cmd.Rcpt "Bob@rf.example") +:+ (print_cmd (Cmd.Rcpt "eve@rf.example") +:+ (print_cmd Cmd.Data +:+
  (wire ["Hello"; ".World"] +:+ print_cmd Cmd.Quit))))).
End SampleServer.
#[local] Existing Instances SampleHash.crypto SampleHash.hex SampleMail.store SampleMail.store_ok SampleServer.mail_lib
  SampleServer.directory SampleSmtp.combinators SampleSmtp.decoder.

#[local] Instance sample_directory_ok : DirectoryOk.
Proof.
  intros name spec. cbn. rewrite list_elem_of_singleton. destruct (bool_decide (name = "d")) eqn:E.
  - apply bool_decide_eq_true in E as ->. naive_solver.
  - apply bool_decide_eq_false in E. naive_solver.
Qed.

Lemma sample_id_inj i j : SampleServer.id_of i = SampleServer.id_of j -> i = j.
Proof. revert j. induction i as [|i IH]; intros [|j]; cbn; intros Heq; try done. injection Heq as Heq. by rewrite (IH j). Qed.

Lemma sample_id_plain i : contains_byte "/" (SampleServer.id_of i) = false.
Proof. by induction i as [|i IH]. Qed.

Lemma sample_fresh : ids_fresh SampleServer.id_of SampleServer.world0.
Proof.
  intros k name _. unfold SampleServer.world0, db. cbn [dbs]. destruct (decide (name = "d")) as [->|Hne].
  - by rewrite lookup_singleton_eq.
  - by rewrite lookup_singleton_ne by done.
Qed.

Definition served : Logged (SmtpHandler (gmap (string * string) string)) :=
  handler (@start_session _ _ _ (@logged _ (smtp_handler SampleServer.clock SampleServer.id_of SampleServer.healthy "mx.rf.example"))
    (build "mx.rf.example" [] true false SampleSmtp.local (new_handler SampleServer.world0, [])) SampleServer.dialogue None).1.1.

Lemma served_promises : promised served.2 = [("ship@sea.example", "Bob@rf.example", "Hello" +:+ (CRLF +:+ (".World" +:+ CRLF)));
    ("ship@sea.example", "eve@rf.example", "Hello" +:+ (CRLF +:+ (".World" +:+ CRLF)))].
Proof. vm_compute. reflexivity. Qed.

Lemma accepted_mail_is_stored_witness :
  ids_fresh SampleServer.id_of SampleServer.world0 /\ promised served.2 <> [] /\
  Forall (kept SampleServer.id_of (world served.1)) (promised served.2).
Proof.
  split; [exact sample_fresh|]. split; [rewrite served_promises; discriminate|].
  exact (accepted_mail_is_stored SampleServer.clock SampleServer.id_of SampleServer.healthy "mx.rf.example" sample_id_inj sample_id_plain
    "mx.rf.example" true SampleSmtp.local SampleServer.world0 SampleServer.dialogue None sample_fresh).
Defined.

Definition refusing : Session (SmtpHandler (gmap (string * string) string)) :=
  mkSession "mx.rf.example"
    (mkHandler SampleSmtp.local "sea.example" "ship@sea.example" [("d", "eve@rf.example")] EmptyString 10 true SampleServer.world0)
    (set_smtp (new_machine SampleSmtp.local [] true false) (Some (Data "sea.example"))).

Definition second : list string :=
  [print_cmd (Cmd.Mail "ship@sea.example" false); print_cmd (Cmd.Rcpt "eve@rf.example"); print_cmd Cmd.Data; "Hello" +:+ CRLF].

Lemma message_after_refusal_is_lost_witness :
  exists h', world h' = SampleServer.world0 /\
    @handle_lines _ _ _ (smtp_handler SampleServer.clock SampleServer.id_of SampleServer.healthy "mx.rf.example")
      refusing (END_OF_DATA :: second ++ [END_OF_DATA]) =
    (mkSession "mx.rf.example" h' (set_smtp (fsm refusing) (Some (Hello "sea.example"))),
     (write_to (custom 552 "5.3.4 邮件超过此域允许的大小") ++ write_to nothing_stored)%string, Err UnexpectedEof).
Proof.
  destruct (message_after_refusal_is_lost SampleServer.clock SampleServer.id_of SampleServer.healthy "mx.rf.example"
    refusing "sea.example" second []) as (h' & Hw & Hh); [reflexivity | reflexivity | | vm_compute; discriminate |].
  - repeat constructor; discriminate.
  - exists h'. split; [exact Hw|]. etransitivity; [exact Hh | reflexivity].
Defined.
