(* ===== verification/Script.v ===== *)
(** * Script: operations on a replicated database, one statement at a time

    The platform services (workflows, flows, pipelines) keep their state in a
    replicated SQLite database and reach it over the network.  A [Script] is an operation
    as the code writes it: a sequence of statements, reads, clock readings, random
    identifiers and questions to other programs, each continuing with the answer.
    A statement answers with the rows it affected, or with an error.

    [play] runs one script alone, the environment given by oracles.  [step] runs many
    scripts at once: statements are atomic and interleave freely; with [faults] a
    statement may be refused, be applied with its answer lost, or its script end. *)

From Stdlib Require Import ZArith Lia.
From stdpp Require Import prelude gmap strings list.
From S2P Require Import Prelude.
Open Scope Z_scope.

Section script.
Context {Db Stmt Q Ans E : Type}.

Inductive Script {A : Type} : Type :=
| Ret (a : A)
| Stop (e : E)
| Exec (s : Stmt) (k : option Z -> Script)
| Read {X : Type} (q : Db -> X) (k : option X -> Script)
| ClockRead (k : Z -> Script)
| Draw (k : string -> Script)
| Ask (q : Q) (k : Ans -> Script).
Arguments Script : clear implicits.

Fixpoint bind {A B} (m : Script A) (f : A -> Script B) : Script B :=
  match m with
  | Ret a => f a
  | Stop e => Stop e
  | Exec s k => Exec s (fun r => bind (k r) f)
  | Read q k => Read q (fun x => bind (k x) f)
  | ClockRead k => ClockRead (fun z => bind (k z) f)
  | Draw k => Draw (fun i => bind (k i) f)
  | Ask q k => Ask q (fun a => bind (k a) f)
  end.

(** The outcome of an operation as a value, where the code goes on after an error. *)
Fixpoint catch {A} (m : Script A) : Script (result A E) :=
  match m with
  | Ret a => Ret (Ok a)
  | Stop e => Ret (Err e)
  | Exec s k => Exec s (fun r => catch (k r))
  | Read q k => Read q (fun x => catch (k x))
  | ClockRead k => ClockRead (fun z => catch (k z))
  | Draw k => Draw (fun i => catch (k i))
  | Ask q k => Ask q (fun a => catch (k a))
  end.

(** ** Properties of the statements an operation issues *)

Fixpoint issues (P : Stmt -> Prop) {A} (m : Script A) : Prop :=
  match m with
  | Ret _ | Stop _ => True
  | Exec s k => P s /\ forall r, issues P (k r)
  | Read _ k => forall x, issues P (k x)
  | ClockRead k => forall z, issues P (k z)
  | Draw k => forall i, issues P (k i)
  | Ask _ k => forall a, issues P (k a)
  end.

Lemma issues_bind P {A B} (m : Script A) (f : A -> Script B) :
  issues P m -> (forall a, issues P (f a)) -> issues P (bind m f).
Proof. intros Hm Hf. induction m; cbn in *; naive_solver. Qed.

Lemma issues_catch P {A} (m : Script A) : issues P m -> issues P (catch m).
Proof. induction m; cbn; naive_solver. Qed.

Lemma issues_impl (P P' : Stmt -> Prop) {A} (m : Script A) : (forall s, P s -> P' s) -> issues P m -> issues P' m.
Proof. intros HP. induction m; cbn; naive_solver. Qed.

Lemma issues_and (P P' : Stmt -> Prop) {A} (m : Script A) : issues P m -> issues P' m -> issues (fun s => P s /\ P' s) m.
Proof. induction m; cbn; naive_solver. Qed.

(** The statements an operation issues satisfy [P], its errors [F] and its results [post],
    whatever the answers. *)
Fixpoint goes (P : Stmt -> Prop) (F : E -> Prop) {A} (post : A -> Prop) (m : Script A) : Prop :=
  match m with
  | Ret a => post a
  | Stop e => F e
  | Exec s k => P s /\ forall r, goes P F post (k r)
  | Read _ k => forall x, goes P F post (k x)
  | ClockRead k => forall z, goes P F post (k z)
  | Draw k => forall i, goes P F post (k i)
  | Ask _ k => forall a, goes P F post (k a)
  end.

Lemma goes_issues P {A} (m : Script A) : goes P (fun _ => True) (fun _ => True) m <-> issues P m.
Proof. induction m; cbn; naive_solver. Qed.

Lemma goes_mono (P P' : Stmt -> Prop) (F F' : E -> Prop) {A} (post post' : A -> Prop) (m : Script A) :
  (forall s, P s -> P' s) -> (forall e, F e -> F' e) -> (forall a, post a -> post' a) -> goes P F post m -> goes P' F' post' m.
Proof. intros Hs He Hp. induction m; cbn; naive_solver. Qed.

Lemma goes_bind P F {A B} (post : A -> Prop) (post' : B -> Prop) (m : Script A) (f : A -> Script B) :
  goes P F post m -> (forall a, post a -> goes P F post' (f a)) -> goes P F post' (bind m f).
Proof. intros Hm Hf. induction m; cbn in *; naive_solver. Qed.

Lemma goes_catch P F F' {A} (post : A -> Prop) (m : Script A) :
  goes P F post m -> goes P F' (fun r => match r with Ok a => post a | Err e => F e end) (catch m).
Proof. induction m; cbn; naive_solver. Qed.

(** ** One script alone *)

Inductive Fault : Type := Healthy | Refused | ReplyLost.

Section play.
Context (run : Db -> Stmt -> option (Db * Z)).
Context (now_at : nat -> Z) (id_at : nat -> string) (fault_at : nat -> Fault) (answer : nat -> Q -> Ans).

Definition apply (d : Db) (s : Stmt) : Db := match run d s with Some (d', _) => d' | None => d end.
Definition affected (d : Db) (s : Stmt) : option Z := snd <$> run d s.

(** The state and the number of interactions so far. *)
Fixpoint play {A} (m : Script A) (d : Db) (t : nat) : Db * nat * result A E :=
  match m with
  | Ret a => (d, t, Ok a)
  | Stop e => (d, t, Err e)
  | Exec s k =>
      match fault_at t with
      | Healthy => play (k (affected d s)) (apply d s) (S t)
      | Refused => play (k None) d (S t)
      | ReplyLost => play (k None) (apply d s) (S t)
      end
  | Read q k => play (k (match fault_at t with Healthy => Some (q d) | _ => None end)) d (S t)
  | ClockRead k => play (k (now_at t)) d (S t)
  | Draw k => play (k (id_at t)) d (S t)
  | Ask q k => play (k (answer t q)) d (S t)
  end.

Lemma play_bind {A B} (m : Script A) (f : A -> Script B) d t :
  play (bind m f) d t =
  let '(d', t', r) := play m d t in match r with Ok a => play (f a) d' t' | Err e => (d', t', Err e) end.
Proof.
  revert d t. induction m as [a|e|s k IH|X q k IH|k IH|k IH|q k IH]; intros d t; cbn [bind play]; auto.
  destruct (fault_at t); auto.
Qed.

Lemma play_catch {A} (m : Script A) d t : play (catch m) d t = let '(d', t', r) := play m d t in (d', t', Ok r).
Proof.
  revert d t. induction m as [a|e|s k IH|X q k IH|k IH|k IH|q k IH]; intros d t; cbn [catch play]; auto. destruct (fault_at t); auto.
Qed.

(** An invariant of the statements an operation issues holds after it. *)
Lemma play_keeps (I : Db -> Prop) (P : Stmt -> Prop) {A} (m : Script A) d t :
  (forall d s, P s -> I d -> I (apply d s)) -> issues P m -> I d -> I (play m d t).1.1.
Proof.
  intros Hs. revert d t. induction m as [a|e|s k IH|X q k IH|k IH|k IH|q k IH]; intros d t Hm Hd; cbn in *; auto.
  destruct Hm as [HP Hk]. destruct (fault_at t); auto.
Qed.
End play.

(** ** Many scripts at once *)

Record Sys : Type := mkSys {
  state : Db;
  pool : list (Script unit);
  drawn : gset string
}.

Section interleaving.
Context (run : Db -> Stmt -> option (Db * Z)) (started : Script unit -> Prop) (faults : Prop).

Inductive step : Sys -> Sys -> Prop :=
| step_exec i s k d p u : p !! i = Some (Exec s k) ->
    step (mkSys d p u) (mkSys (apply run d s) (<[i := k (affected run d s)]> p) u)
| step_refused i s k d p u : faults -> p !! i = Some (Exec s k) ->
    step (mkSys d p u) (mkSys d (<[i := k None]> p) u)
| step_reply_lost i s k d p u : faults -> p !! i = Some (Exec s k) ->
    step (mkSys d p u) (mkSys (apply run d s) (<[i := k None]> p) u)
| step_read i X (q : Db -> X) k d p u : p !! i = Some (Read q k) ->
    step (mkSys d p u) (mkSys d (<[i := k (Some (q d))]> p) u)
| step_unread i X (q : Db -> X) k d p u : faults -> p !! i = Some (Read q k) ->
    step (mkSys d p u) (mkSys d (<[i := k None]> p) u)
| step_clock i k z d p u : p !! i = Some (ClockRead k) ->
    step (mkSys d p u) (mkSys d (<[i := k z]> p) u)
| step_draw i k x d p u : p !! i = Some (Draw k) -> x ∉ u ->
    step (mkSys d p u) (mkSys d (<[i := k x]> p) ({[x]} ∪ u))
| step_ask i q k a d p u : p !! i = Some (Ask q k) ->
    step (mkSys d p u) (mkSys d (<[i := k a]> p) u)
| step_start t d p u : started t ->
    step (mkSys d p u) (mkSys d (p ++ [t]) u)
| step_crash i t d p u : faults -> p !! i = Some t ->
    step (mkSys d p u) (mkSys d (<[i := Ret tt]> p) u).

Definition reachable (d : Db) (s : Sys) : Prop := rtc step (mkSys d [] ∅) s.

(** The statements a system issues are those of the operations started in it. *)
Lemma step_issues (P : Stmt -> Prop) x y :
  (forall t, started t -> issues P t) -> step x y -> Forall (issues P) (pool x) -> Forall (issues P) (pool y).
Proof.
  intros Hst Hxy HP.
  assert (Hn : forall i t t', pool x !! i = Some t -> (issues P t -> issues P t') -> Forall (issues P) (<[i := t']> (pool x))).
  { intros i t t' Hi Ht. apply Forall_insert; [done|]. apply Ht. by eapply Forall_lookup_1 in HP. }
  destruct Hxy; cbn in *; try (eapply Hn; [eassumption | cbn; naive_solver]).
  apply Forall_app; split; [done|]. constructor; [by apply Hst | done].
Qed.

Lemma step_state (R : Db -> Db -> Prop) (P : Stmt -> Prop) x y :
  (forall d, R d d) -> (forall d s, P s -> R d (apply run d s)) -> Forall (issues P) (pool x) -> step x y -> R (state x) (state y).
Proof.
  intros Hr Hs HP Hxy. assert (Hx : forall i s k, pool x !! i = Some (Exec s k) -> P s).
  { intros i s' k Hi. eapply Forall_lookup_1 in HP; [|exact Hi]. apply HP. }
  destruct Hxy; cbn in *; eauto.
Qed.

(** An invariant every statement keeps holds in every reachable state. *)
Lemma reachable_keeps (I : Db -> Prop) (P : Stmt -> Prop) d s :
  (forall t, started t -> issues P t) -> (forall d s, P s -> I d -> I (apply run d s)) ->
  I d -> reachable d s -> I (state s) /\ Forall (issues P) (pool s).
Proof.
  intros Hst Hs Hd. apply (rtc_ind_r (fun s => I (state s) /\ Forall (issues P) (pool s))); [split; [done | constructor]|].
  intros x y _ Hxy [HI HP]. split; [|by eapply step_issues].
  eapply (step_state (fun d d' => I d -> I d') P) in Hxy; eauto.
Qed.

(** A script that runs alone is one of the interleavings: what [play] computes is reached,
    and the identifiers it will draw next are still fresh. *)
Section alone.
Context (now_at : nat -> Z) (id_at : nat -> string) (fault_at : nat -> Fault) (answer : nat -> Q -> Ans).
Context (id_inj : forall n m, id_at n = id_at m -> n = m) (may_fail : forall n, fault_at n <> Healthy -> faults).
Notation playing := (play run now_at id_at fault_at answer).

Definition fresh_from (t : nat) (u : gset string) : Prop := forall n, (t <= n)%nat -> id_at n ∉ u.

Definition ending (r : result unit E) : Script unit := match r with Ok a => Ret a | Err e => Stop e end.

Lemma fresh_later t u : fresh_from t u -> fresh_from (S t) u.
Proof. intros H n Hn. apply H. lia. Qed.

Lemma play_alone (m : Script unit) d p u t : fresh_from t u ->
  exists u', rtc step (mkSys d (p ++ [m]) u) (mkSys (playing m d t).1.1 (p ++ [ending (playing m d t).2]) u') /\ fresh_from (playing m d t).1.2 u'.
Proof.
  assert (Hi : forall x y, <[length p := y]> (p ++ [x]) = p ++ [y]).
  { intros x y. replace (length p) with (length p + 0)%nat by lia. by rewrite insert_app_r. }
  assert (Hl : forall x, (p ++ [x]) !! length p = Some x) by (intros x; by rewrite lookup_app_r, Nat.sub_diag).
  revert d u t. induction m as [a|e|s k IH|X q k IH|k IH|k IH|q k IH]; intros d u t Hu; cbn [play];
    [by exists u; split; [reflexivity | done]..| | | | |].
  - assert (Hu' := fresh_later _ _ Hu). destruct (fault_at t) eqn:Ef; cbn [play].
    + destruct (IH (affected run d s) (apply run d s) u (S t) Hu') as (u' & Hr & Hf). exists u'. split; [|done].
      eapply rtc_l; [eapply step_exec, Hl|]. by rewrite Hi.
    + destruct (IH None d u (S t) Hu') as (u' & Hr & Hf). exists u'. split; [|done].
      eapply rtc_l; [eapply step_refused; [by apply (may_fail t); rewrite Ef | apply Hl]|]. by rewrite Hi.
    + destruct (IH None (apply run d s) u (S t) Hu') as (u' & Hr & Hf). exists u'. split; [|done].
      eapply rtc_l; [eapply step_reply_lost; [by apply (may_fail t); rewrite Ef | apply Hl]|]. by rewrite Hi.
  - assert (Hu' := fresh_later _ _ Hu). set (x := match fault_at t with Healthy => _ | _ => _ end).
    destruct (IH x d u (S t) Hu') as (u' & Hr & Hf). exists u'. split; [|done]. subst x. destruct (fault_at t) eqn:Ef;
      (eapply rtc_l; [|rewrite <- (Hi (Read q k)) in Hr; exact Hr]); first [eapply step_read, Hl | eapply step_unread; [by apply (may_fail t); rewrite Ef | apply Hl]].
  - destruct (IH (now_at t) d u (S t) (fresh_later _ _ Hu)) as (u' & Hr & Hf). exists u'. split; [|done].
    eapply rtc_l; [eapply step_clock, Hl|]. by rewrite Hi.
  - destruct (IH (id_at t) d ({[id_at t]} ∪ u) (S t)) as (u' & Hr & Hf).
    { intros n Hn [->%elem_of_singleton%id_inj|Hx]%elem_of_union; [lia|]. apply (Hu n); [lia | done]. }
    exists u'. split; [|done]. eapply rtc_l; [eapply step_draw; [apply Hl | by apply Hu]|]. by rewrite Hi.
  - destruct (IH (answer t q) d u (S t) (fresh_later _ _ Hu)) as (u' & Hr & Hf). exists u'. split; [|done].
    eapply rtc_l; [eapply step_ask, Hl|]. by rewrite Hi.
Qed.

(** Scripts one after the other. *)
Fixpoint play_all (ms : list (Script unit)) (d : Db) (t : nat) : Db * nat :=
  match ms with
  | [] => (d, t)
  | m :: ms' => let '(d', t', _) := playing m d t in play_all ms' d' t'
  end.

Definition finished (p : list (Script unit)) : Prop := Forall (fun m => (exists a, m = Ret a) \/ (exists e, m = Stop e)) p.

Lemma play_all_runs ms p u d t : Forall started ms -> fresh_from t u -> finished p ->
  exists p' u', rtc step (mkSys d p u) (mkSys (play_all ms d t).1 p' u') /\ fresh_from (play_all ms d t).2 u' /\ finished p'.
Proof.
  intros Hms. revert p u d t. induction Hms as [|m ms Hm _ IH]; intros p u d t Hu Hp; cbn [play_all].
  { exists p, u. split_and!; [reflexivity | done..]. }
  destruct (play_alone m d p u t Hu) as (u' & Hr & Hf). destruct (playing m d t) as [[d' t'] r]. cbn in Hr, Hf.
  destruct (IH (p ++ [ending r]) u' d' t' Hf) as (p2 & u2 & Hr2 & Hf2 & Hp2).
  { apply Forall_app. split; [done|]. constructor; [|done]. destruct r; cbn; eauto. }
  exists p2, u2. split_and!; [|done..]. eapply rtc_l; [by apply step_start|]. by etransitivity.
Qed.

Lemma play_all_app ms ms' d t : play_all (ms ++ ms') d t = let '(d', t') := play_all ms d t in play_all ms' d' t'.
Proof. revert d t. induction ms as [|m ms IH]; intros d t; cbn; [done|]. destruct (playing m d t) as [[d' t'] r]. apply IH. Qed.
End alone.

(** ** Rely and guarantee

    [wp m Q QE d]: begun in [d], with other scripts changing the state by [rely]
    between its own statements, [m] only asks questions and issues statements that
    [asks_ok] and [execs_ok] allow, and ends with [Q] or, on an error, with [QE]. *)
Section wp.
Context (rely : Db -> Db -> Prop) (asks_ok : Q -> Db -> Prop) (execs_ok : Stmt -> Db -> Prop).

Fixpoint wp {A} (m : Script A) (post : A -> Db -> Prop) (epost : E -> Db -> Prop) (d : Db) : Prop :=
  match m with
  | Ret a => post a d
  | Stop e => epost e d
  | Exec s k => forall d1, rely d d1 ->
      execs_ok s d1 /\ wp (k (affected run d1 s)) post epost (apply run d1 s) /\
      wp (k None) post epost d1 /\ wp (k None) post epost (apply run d1 s)
  | Read q k => forall d1, rely d d1 -> wp (k (Some (q d1))) post epost d1 /\ wp (k None) post epost d1
  | ClockRead k => forall z, wp (k z) post epost d
  | Draw k => forall i, wp (k i) post epost d
  | Ask q k => forall d1, rely d d1 -> asks_ok q d1 /\ forall a, wp (k a) post epost d1
  end.

Lemma wp_mono {A} (m : Script A) (post post' : A -> Db -> Prop) (epost epost' : E -> Db -> Prop) d :
  (forall a d, post a d -> post' a d) -> (forall e d, epost e d -> epost' e d) -> wp m post epost d -> wp m post' epost' d.
Proof. intros Hp He. revert d. induction m; cbn; naive_solver. Qed.

Lemma wp_bind {A B} (m : Script A) (f : A -> Script B) post epost d :
  wp m (fun a => wp (f a) post epost) epost d -> wp (bind m f) post epost d.
Proof. revert d. induction m; cbn; naive_solver. Qed.

Lemma wp_catch {A} (m : Script A) post epost d :
  wp m (fun a => post (Ok a)) (fun e => post (Err e)) d -> wp (catch m) post epost d.
Proof. revert d. induction m; cbn; naive_solver. Qed.

(** A script begun later, after interference. *)
Lemma wp_rely {A} (m : Script A) post epost d d' :
  Transitive rely -> (forall a d d', rely d d' -> post a d -> post a d') -> (forall e d d', rely d d' -> epost e d -> epost e d') ->
  rely d d' -> wp m post epost d -> wp m post epost d'.
Proof.
  intros Ht Hp He. revert d d'. induction m as [a|e|s k IH|X q k IH|k IH|k IH|q k IH]; intros d d' Hr; cbn; eauto.
Qed.

(** A script whose statements are all allowed keeps what interference cannot take away. *)
Lemma wp_stable {A} (m : Script A) (J : Db -> Prop) (got : A -> Prop) d :
  (forall q d, asks_ok q d) -> goes (fun s => forall d, execs_ok s d /\ rely d (apply run d s)) (fun _ => True) got m ->
  (forall d d', rely d d' -> J d -> J d') -> J d -> wp m (fun a d' => got a /\ J d') (fun _ d' => J d') d.
Proof.
  intros Ha Hm HJ. revert d. induction m as [a|e|s k IH|X q k IH|k IH|k IH|q k IH]; intros d Hd; cbn in *; eauto.
  - intros d1 Hr. destruct Hm as [Hs Hk]. destruct (Hs d1) as [Hx Hrs]. assert (Hd1 := HJ _ _ Hr Hd).
    split_and!; [done | apply IH; eauto..].
  - intros d1 Hr. split; apply IH; eauto.
Qed.

(** In a system whose statements keep [rely], a thread that satisfies [wp] goes on
    satisfying it, from a state before the present one. *)
Definition guarded (t : Script unit) (d : Db) : Prop :=
  exists d0, rely d0 d /\ wp t (fun _ _ => True) (fun _ _ => True) d0.

Context {rely_pre : PreOrder rely}.

Lemma guarded_own s s' i t t' :
  step s s' -> pool s !! i = Some t -> guarded t (state s) -> pool s' !! i = Some t' ->
  rely (state s) (state s') -> guarded t' (state s').
Proof.
  intros Hs Ht (d0 & Hr & Hw) Ht' Hrs.
  assert (Hid : guarded t (state s')) by (exists d0; split; [by etransitivity | done]).
  assert (Hsame : forall j x, j <> i -> pool s' = <[j := x]> (pool s) -> guarded t' (state s')).
  { intros j x Hj Hp. rewrite Hp, list_lookup_insert_ne in Ht' by done. rewrite Ht in Ht'. by injection Ht' as <-. }
  destruct Hs as [j s0 k d p u Hj|j s0 k d p u _ Hj|j s0 k d p u _ Hj|j X q k d p u Hj|j X q k d p u _ Hj|j k z d p u Hj
    |j k x d p u Hj Hx|j q k a d p u Hj|t0 d p u Hst|j t0 d p u _ Hj]; cbn [state pool] in *.
  9: { rewrite lookup_app_l in Ht' by (by eapply lookup_lt_Some). rewrite Ht in Ht'. by injection Ht' as <-. }
  all: destruct (decide (j = i)) as [->|Hne]; [|by eapply Hsame]; rewrite list_lookup_insert_eq in Ht' by (by eapply lookup_lt_Some);
    injection Ht' as <-; rewrite Hj in Ht; injection Ht as <-; cbn in Hw.
  - exists (apply run d s0). split; [reflexivity | by apply Hw].
  - exists d. split; [reflexivity | by apply Hw].
  - exists (apply run d s0). split; [reflexivity | by apply Hw].
  - exists d. split; [reflexivity | by apply Hw].
  - exists d. split; [reflexivity | by apply Hw].
  - exists d0. split; [done | by apply Hw].
  - exists d0. split; [done | by apply Hw].
  - exists d. split; [reflexivity | by apply Hw].
  - exists d. split; [reflexivity | done].
Qed.

(** One guarded thread among threads whose statements keep [rely]. *)
Lemma guarded_thread (P : Stmt -> Prop) s s' i t :
  (forall d s, P s -> rely d (apply run d s)) -> (forall t, started t -> issues P t) -> Forall (issues P) (pool s) ->
  pool s !! i = Some t -> guarded t (state s) -> rtc step s s' ->
  exists t', pool s' !! i = Some t' /\ guarded t' (state s').
Proof.
  intros Hx Hst HP Ht Hg Hrun.
  enough (Forall (issues P) (pool s') /\ exists t', pool s' !! i = Some t' /\ guarded t' (state s')) by tauto.
  revert s' Hrun. apply rtc_ind_r; [by eauto|]. intros y z _ Hyz (HPy & t0 & Ht0 & Hg0).
  split; [by eapply step_issues|]. assert (Hr : rely (state y) (state z)).
  { eapply (step_state rely P); [reflexivity | exact Hx | exact HPy | exact Hyz]. }
  assert (Hz : is_Some (pool z !! i)).
  { apply lookup_lt_is_Some. apply lookup_lt_Some in Ht0. destruct Hyz; cbn in *; rewrite ?length_insert, ?length_app; lia. }
  destruct Hz as [t' Ht']. exists t'. split; [done|]. by eapply guarded_own.
Qed.

(** When every thread is guarded at its start and what [execs_ok] allows keeps [rely] and an
    invariant, every thread stays guarded and the invariant holds throughout. *)
Lemma guarded_run (I : Db -> Prop) s s' :
  (forall s d, execs_ok s d -> rely d (apply run d s)) -> (forall s d, execs_ok s d -> I d -> I (apply run d s)) ->
  (forall t d, started t -> I d -> wp t (fun _ _ => True) (fun _ _ => True) d) ->
  Forall (fun t => guarded t (state s)) (pool s) -> I (state s) -> rtc step s s' ->
  I (state s') /\ Forall (fun t => guarded t (state s')) (pool s').
Proof.
  intros Hx HI Hst Hp Hi. apply (rtc_ind_r (fun s' => I (state s') /\ Forall (fun t => guarded t (state s')) (pool s'))); [done|].
  intros y z _ Hyz [Hr Hy]. rewrite Forall_lookup in Hy.
  assert (Hex : forall i s0 k, pool y !! i = Some (Exec s0 k) -> execs_ok s0 (state y)).
  { intros i s0 k Hi0. destruct (Hy _ _ Hi0) as (d0 & Hd0 & Hw). by apply Hw. }
  assert (Hyz' : rely (state y) (state z)) by (destruct Hyz; cbn in *; eauto; reflexivity).
  split; [destruct Hyz; cbn in *; eauto|]. apply Forall_lookup. intros i t Hti.
  destruct (pool y !! i) as [t0|] eqn:Ei; [by eapply guarded_own; eauto|].
  destruct Hyz; cbn in *; try (apply lookup_lt_Some in Hti; rewrite length_insert in Hti; apply lookup_ge_None in Ei; lia).
  exists d. split; [reflexivity|]. apply Hst; [|done]. apply lookup_app_Some in Hti as [Hti|[Hle Hti]]; [by rewrite Ei in Hti|].
  by apply list_lookup_singleton_Some in Hti as [_ <-].
Qed.

(** A script keeps the relation between its start and its end. *)
Lemma wp_keeps {A} (m : Script A) post epost d0 d :
  (forall s d, execs_ok s d -> rely d (apply run d s)) -> rely d0 d -> wp m post epost d ->
  wp m (fun a d' => rely d0 d' /\ post a d') (fun e d' => rely d0 d' /\ epost e d') d.
Proof.
  intros Hx. revert d. induction m as [a|e|s k IH|X q k IH|k IH|k IH|q k IH]; intros d Hd; cbn; auto.
  - intros Hw d1 Hr. destruct (Hw d1 Hr) as (Hs & H1 & H2 & H3). assert (Hd1 : rely d0 d1) by by etransitivity.
    assert (Hd2 : rely d0 (apply run d1 s)) by (etransitivity; [exact Hd1 | by apply Hx]). eauto 10.
  - intros Hw d1 Hr. destruct (Hw d1 Hr). assert (Hd1 : rely d0 d1) by by etransitivity. eauto.
  - intros Hw d1 Hr. destruct (Hw d1 Hr). assert (Hd1 : rely d0 d1) by by etransitivity. eauto.
Qed.

(** What holds under interference holds of the script alone. *)
Lemma wp_play now_at id_at fault_at answer {A} (m : Script A) post epost d t :
  wp m post epost d ->
  let '(d', _, r) := play run now_at id_at fault_at answer m d t in match r with Ok a => post a d' | Err e => epost e d' end.
Proof.
  revert d t. induction m as [a|e|s k IH|X q k IH|k IH|k IH|q k IH]; intros d t Hw; cbn [wp play] in *; auto.
  - destruct (Hw d ltac:(reflexivity)) as (_ & H1 & H2 & H3). destruct (fault_at t); apply IH; auto.
  - destruct (Hw d ltac:(reflexivity)) as [H1 H2]. destruct (fault_at t); apply IH; auto.
  - apply IH, Hw.
  - apply IH, Hw.
  - apply IH, Hw. reflexivity.
Qed.
End wp.

(** A schedule: the thread to take the next step, the clock standing still. *)
Section schedule.
Context (now : Z).

Definition advance_one (d : Db) (t : Script unit) : option (Db * Script unit) :=
  match t with
  | Exec s k => Some (apply run d s, k (affected run d s))
  | Read q k => Some (d, k (Some (q d)))
  | ClockRead k => Some (d, k now)
  | _ => None
  end.
Fixpoint follow (l : list nat) (d : Db) (p : list (Script unit)) : Db * list (Script unit) :=
  match l with
  | [] => (d, p)
  | i :: l' =>
      match p !! i ≫= advance_one d with
      | Some (d', t') => follow l' d' (<[i := t']> p)
      | None => follow l' d p
      end
  end.

Lemma follow_runs l d p u : rtc step (mkSys d p u) (mkSys (follow l d p).1 (follow l d p).2 u).
Proof.
  revert d p. induction l as [|i l IH]; intros d p; cbn [follow]; [reflexivity|].
  destruct (p !! i) as [t|] eqn:Hi; cbn [mbind option_bind]; [|apply IH].
  destruct t as [a|e|s k|X q k|k|k|q k]; cbn [advance_one]; try apply IH.
  - eapply rtc_l; [by apply step_exec | apply IH].
  - eapply rtc_l; [by apply step_read | apply IH].
  - eapply rtc_l; [by apply (step_clock i k now) | apply IH].
Qed.

Lemma follow_behind p l d q : follow (map (Nat.add (length p)) l) d (p ++ q) = ((follow l d q).1, p ++ (follow l d q).2).
Proof.
  revert d q. induction l as [|i l IH]; intros d q; cbn [map follow]; [done|]. rewrite lookup_app_r, Nat.add_comm, Nat.add_sub by lia.
  destruct (q !! i ≫= advance_one d) as [[d' t']|] eqn:Ei; [|apply IH]. rewrite Nat.add_comm, insert_app_r. apply IH.
Qed.

Lemma start_all d p u ms : Forall started ms -> rtc step (mkSys d p u) (mkSys d (p ++ ms) u).
Proof.
  intros Hm. revert p. induction Hm as [|m ms Hm _ IH]; intros p; [by rewrite app_nil_r|].
  eapply rtc_l; [by apply step_start|]. specialize (IH (p ++ [m])). by rewrite <- app_assoc in IH.
Qed.

(** Threads started behind others, then run by a schedule. *)
Lemma follow_after d p u ms l : Forall started ms -> rtc step (mkSys d p u) (mkSys (follow l d ms).1 (p ++ (follow l d ms).2) u).
Proof.
  intros Hm. etransitivity; [by apply start_all|]. assert (H := follow_runs (map (Nat.add (length p)) l) d (p ++ ms) u). by rewrite follow_behind in H.
Qed.
End schedule.
End interleaving.
End script.
Arguments Script : clear implicits.
Arguments Sys : clear implicits.

(** ** Operations of another component

    A script on a part of the state, as a script on the whole. *)
Section lift.
Context {Db Stmt Q Ans E Db' Stmt' E' : Type} (get : Db' -> Db) (stmt : Stmt -> Stmt') (err : E -> E').

Fixpoint lift {A} (m : Script Db Stmt Q Ans E A) : Script Db' Stmt' Q Ans E' A :=
  match m with
  | Ret a => Ret a
  | Stop e => Stop (err e)
  | Exec s k => Exec (stmt s) (fun r => lift (k r))
  | Read q k => Read (fun d => q (get d)) (fun x => lift (k x))
  | ClockRead k => ClockRead (fun z => lift (k z))
  | Draw k => Draw (fun i => lift (k i))
  | Ask q k => Ask q (fun a => lift (k a))
  end.

Lemma issues_lift (P : Stmt' -> Prop) {A} (m : Script Db Stmt Q Ans E A) : issues (fun s => P (stmt s)) m -> issues P (lift m).
Proof. induction m; cbn; naive_solver. Qed.

Lemma wp_lift_bind run rely asks_ok execs_ok {A B} (m : Script Db Stmt Q Ans E A) (f : A -> Script Db Stmt Q Ans E B) post epost d :
  wp run rely asks_ok execs_ok (lift m) (fun a => wp run rely asks_ok execs_ok (lift (f a)) post epost) epost d ->
  wp run rely asks_ok execs_ok (lift (bind m f)) post epost d.
Proof. revert d. induction m; cbn; naive_solver. Qed.
End lift.

(** ** The operations scripts are made of *)

Class Unavailable (E : Type) := unavailable : E.

Section operations.
Context {Db Stmt Q Ans E : Type} {U : Unavailable E}.
Notation Op A := (Script Db Stmt Q Ans E A).

Definition ret {A} (a : A) : Op A := Ret a.
Definition fail {A} (e : E) : Op A := Stop e.
Definition exec (s : Stmt) : Op Z := Exec s (fun r => match r with Some n => Ret n | None => Stop unavailable end).
Definition select {X} (q : Db -> X) : Op X := Read q (fun r => match r with Some x => Ret x | None => Stop unavailable end).
Definition now_ms : Op Z := ClockRead (fun z => Ret z).
Definition new_id (prefix : string) : Op string := Draw (fun i => Ret (prefix ++ "_" ++ i)%string).
Definition check {A} (r : result A E) : Op A := match r with Ok a => Ret a | Err e => Stop e end.
Definition guard (b : bool) (e : E) : Op unit := if b then Ret tt else Stop e.
Definition ignore {A} (m : Op A) : Op unit := bind (catch m) (fun _ => Ret tt).

Section issuing.
Context (P : Stmt -> Prop).

Lemma issues_ret {A} (a : A) : issues P (ret a).
Proof. done. Qed.
Lemma issues_fail {A} e : issues P (fail (A := A) e).
Proof. done. Qed.
Lemma issues_exec s : P s -> issues P (exec s).
Proof. intros Hs. split; [done|]. by intros [n|]. Qed.
Lemma issues_select {X} (q : Db -> X) : issues P (select q).
Proof. by intros [x|]. Qed.
Lemma issues_now : issues P now_ms.
Proof. done. Qed.
Lemma issues_id prefix : issues P (new_id prefix).
Proof. done. Qed.
Lemma issues_check {A} (r : result A E) : issues P (check r).
Proof. by destruct r. Qed.
Lemma issues_guard b e : issues P (guard b e).
Proof. by destruct b. Qed.
Lemma issues_ask {A} q (k : Ans -> Op A) : (forall a, issues P (k a)) -> issues P (Ask q k).
Proof. done. Qed.
Lemma issues_if {A} (b : bool) (m n : Op A) : issues P m -> issues P n -> issues P (if b then m else n).
Proof. by destruct b. Qed.
Lemma issues_ignore {A} (m : Op A) : issues P m -> issues P (ignore m).
Proof. intros Hm. apply issues_bind; [by apply issues_catch | done]. Qed.
End issuing.

Section going.
Context (P : Stmt -> Prop) (F : E -> Prop).
Notation any := (fun _ => True).

Lemma goes_seq {A B} (post : B -> Prop) (m : Op A) (f : A -> Op B) : goes P F any m -> (forall a, goes P F post (f a)) -> goes P F post (bind m f).
Proof. intros Hm Hf. by eapply goes_bind. Qed.
Lemma goes_weaken {A} (post : A -> Prop) (m : Op A) : goes P F post m -> goes P F any m.
Proof. by apply goes_mono. Qed.
Lemma goes_caught {A} (m : Op A) : goes P any any m -> goes P F any (catch m).
Proof. intros Hm. eapply (goes_mono P P F F), goes_catch, Hm; auto. Qed.
Lemma goes_ret {A} (post : A -> Prop) a : post a -> goes P F post (ret a).
Proof. done. Qed.
Lemma goes_done {A} (a : A) : goes P F any (ret a).
Proof. done. Qed.
Lemma goes_fail {A} (post : A -> Prop) e : F e -> goes P F post (fail e).
Proof. done. Qed.
Lemma goes_exec s : P s -> F unavailable -> goes P F any (exec s).
Proof. intros Hs Hf. split; [done|]. by intros [n|]. Qed.
Lemma goes_select {X} (q : Db -> X) : F unavailable -> goes P F any (select q).
Proof. by intros Hf [x|]. Qed.
Lemma goes_now : goes P F any now_ms.
Proof. done. Qed.
Lemma goes_id prefix : goes P F any (new_id prefix).
Proof. done. Qed.
Lemma goes_guard b e : F e -> goes P F any (guard b e).
Proof. by destruct b. Qed.
Lemma goes_if {A} (post : A -> Prop) (b : bool) (m n : Op A) : goes P F post m -> goes P F post n -> goes P F post (if b then m else n).
Proof. by destruct b. Qed.
End going.
End operations.

Create HintDb goes.
#[export] Hint Resolve goes_seq goes_caught goes_ret goes_done goes_fail goes_exec goes_select goes_now goes_id goes_guard goes_if : goes.
#[export] Hint Extern 1 (goes _ _ _ (match ?x with _ => _ end)) => destruct x : goes.

Create HintDb issues.
#[export] Hint Resolve issues_bind issues_catch issues_ret issues_fail issues_exec issues_select issues_now issues_id issues_check
  issues_guard issues_ask issues_if issues_ignore : issues.
#[export] Hint Extern 1 (issues _ (match ?x with _ => _ end)) => destruct x : issues.
#[export] Hint Extern 1 (issues _ (let '(_, _) := ?x in _)) => destruct x : issues.
