(* ===== verification/Workflow.v ===== *)
(** * Workflow: durable workflows (crates/rf/src/workflow.rs, the step functions of runtime.rs)

    A workflow is one replicated database with its instances, the log of their steps,
    their signals and events.  [Stmt] has one constructor for each statement the module
    issues, [run] gives their meaning, and the operations are scripts of statements:
    [create_instance_in_group], [send_signal], [step_record], [step_sleep],
    [step_signal], [claim_one], [advance] and the others.  [Prog] is the user's code as
    the step functions of the JavaScript runtime see it and [run_prog] is that
    runtime: looking steps up, calling user functions, parking.

    A JSON value is represented by the text [serde_json] writes for it. *)

From Stdlib Require Import ZArith Lia Ascii.
From stdpp Require Import prelude gmap sorting strings list pretty.
From S2P Require Import Prelude Text Script Hlc Identity Envelope Kv Cron Claim Manifest Quorum DataAudit Observability Store Node NodeFacts Resource.
Open Scope Z_scope.

Definition WORKFLOW_KIND : string := "workflow".
Definition MAX_INPUT_BYTES : Z := 4 * 1024 * 1024.
Definition MAX_RESULT_BYTES : Z := 4 * 1024 * 1024.
Definition LEASE_MS : Z := 5 * 60 * 1000.

Record WorkflowToken : Type := mkToken {
  token_id : string;
  label : string;
  sha256_hex : string;
  last_four : string;
  token_created_at_ms : Z
}.

Record WorkflowSpec : Type := mkWorkflowSpec {
  wf_description : string;
  worker : string;
  wf_entrypoint : string;
  wf_suspended : bool;
  wf_suspend_reason : string;
  wf_retention_days : Z;
  wf_instance_retries : Z;
  wf_instance_timeout_seconds : Z;
  cron : option string;
  webhook_enabled : bool;
  hostnames : list string;
  tokens : list WorkflowToken;
  max_concurrent_instances : Z;
  max_concurrent_instances_per_group : Z
}.

(** [WorkflowSpec::default]. *)
Definition default_workflow : WorkflowSpec :=
  mkWorkflowSpec EmptyString "worker" "MyWorkflow" false EmptyString 30 3 (25 * 60) None false [] [] 32 1.

Inductive WfError : Type :=
| WfDescriptionTooLong
| WfBadWorker
| WfBadEntrypoint
| WfBadRetention
| WfTooManyRetries
| WfBadTimeout
| WfBadCron (e : CronParseError)
| WfTooConcurrent
| WfGroupTooConcurrent
| WfTooManyHostnames
| WfBadHostname (h : string)
| WfTooManyTokens
| WfBadToken
| WfTokenMissing
| NotAWorkflow
| WfUnreadable
| WfResource (e : ResourceError)
| WfMissing
| WfSuspended (reason : string)
| BadInstanceKey
| BadGroup
| BadStepName
| BadStatus
| ValueTooLarge
| InstanceVanished
| KeyConflict
| IdConflict
| InstanceMissing
| InstanceEnded
| LeaseLost
| BadStepStatus
| StepNameTaken
| NoWakeTime
| Unavailable
| EventNotStored
| DispatchFailed (text : string)
| LoopBound.

Definition within (lo hi x : Z) : bool := (lo <=? x) && (x <=? hi).

(** [valid_identifier]. *)
Definition identifier_start (c : ascii) : bool := is_ascii_lowercase c || is_ascii_upper c || bool_decide (c = "_"%char) || bool_decide (c = "$"%char).
Definition identifier_part (c : ascii) : bool := is_ascii_alphanumeric c || bool_decide (c = "_"%char) || bool_decide (c = "$"%char).
Definition valid_identifier (value : string) : bool :=
  match value with
  | EmptyString => false
  | String c rest => identifier_start c && all_bytes identifier_part rest && (slen value <=? 128)
  end.

Definition is_ascii_hexdigit (c : ascii) : bool :=
  is_ascii_digit c || between 97 102 c || between 65 70 c.

Fixpoint check_hostnames (l : list string) : result unit WfError :=
  match l with
  | [] => Ok tt
  | h :: l' => if negb (valid_hostname h) then Err (WfBadHostname h) else check_hostnames l'
  end.

Fixpoint check_tokens (seen : list string) (l : list WorkflowToken) : result unit WfError :=
  match l with
  | [] => Ok tt
  | t :: l' =>
      if negb (slen (token_id t) =? 16) || negb (all_bytes is_ascii_hexdigit (token_id t))
         || negb (slen (sha256_hex t) =? 64) || negb (all_bytes is_ascii_hexdigit (sha256_hex t))
         || negb (slen (last_four t) =? 4) || (128 <? slen (label t)) || bool_decide (token_id t ∈ seen)
      then Err WfBadToken
      else check_tokens (token_id t :: seen) l'
  end.

(** [WorkflowSpec::validate]. *)
Definition validate_workflow (s : WorkflowSpec) : result unit WfError :=
  if (2000 <? slen (wf_description s)) || (2000 <? slen (wf_suspend_reason s)) then Err WfDescriptionTooLong
  else if negb (valid_name (worker s)) then Err WfBadWorker
  else if negb (valid_identifier (wf_entrypoint s)) then Err WfBadEntrypoint
  else if negb (within 1 365 (wf_retention_days s)) then Err WfBadRetention
  else if 100 <? wf_instance_retries s then Err WfTooManyRetries
  else if negb (within 30 (12 * 60 * 60) (wf_instance_timeout_seconds s)) then Err WfBadTimeout
  else
    let? _ := match cron s with
              | Some e => match Cron.parse e with Ok _ => Ok tt | Err x => Err (WfBadCron x) end
              | None => Ok tt
              end in
    if 1000 <? max_concurrent_instances s then Err WfTooConcurrent
    else if 1000 <? max_concurrent_instances_per_group s then Err WfGroupTooConcurrent
    else if 64 <? Z.of_nat (length (hostnames s)) then Err WfTooManyHostnames
    else
      let? _ := check_hostnames (hostnames s) in
      if 64 <? Z.of_nat (length (tokens s)) then Err WfTooManyTokens
      else
        let? _ := check_tokens [] (tokens s) in
        if webhook_enabled s && bool_decide (tokens s = []) then Err WfTokenMissing else Ok tt.

(** ** The tables *)

Inductive Status : Type := Queued | Running | Waiting | SPaused | Complete | SFailed | Terminated.
#[export] Instance Status_eq_dec : EqDecision Status.
Proof. solve_decision. Defined.

Definition ended (s : Status) : bool := match s with Complete | SFailed | Terminated => true | _ => false end.

(** A row of [workflow_instances]: the columns fixed at its creation, and the others. *)
Record Config : Type := mkConfig {
  instance_key : option string;
  concurrency_group : option string;
  concurrency_group_limit : Z;
  input_json : string;
  started_at_ms : Z;
  definition_version : Z;
  entrypoint : string;
  instance_retries : Z;
  instance_timeout_seconds : Z
}.

Record Life : Type := mkLife {
  output_json : option string;
  status : Status;
  waiting_for : option string;
  sleep_until_ms : option Z;
  lease_token : option string;
  lease_until_ms : option Z;
  last_error : option string;
  retry_count : Z;
  finished_at_ms : option Z;
  updated_at_ms : Z
}.

Record Instance : Type := mkInstance {
  config : Config;
  life : Life
}.

Inductive StepStatus : Type := StepOk | StepFailed | Slept.
Inductive StepKind : Type := KDo | KSleep.
#[export] Instance StepStatus_eq_dec : EqDecision StepStatus.
Proof. solve_decision. Defined.
#[export] Instance StepKind_eq_dec : EqDecision StepKind.
Proof. solve_decision. Defined.

Record Step : Type := mkStep {
  seq : Z;
  kind : StepKind;
  step_status : StepStatus;
  result_json : option string;
  step_error : option string;
  wake_at_ms : option Z;
  step_attempts : Z;
  step_started_at_ms : Z;
  step_finished_at_ms : option Z
}.

Record Signal : Type := mkSignal {
  sig_instance : string;
  sig_name : string;
  payload_json : string;
  delivered_at_ms : option Z;
  sig_created_at_ms : Z
}.

Record Event : Type := mkEvent {
  ev_instance : string;
  ev_seq : Z;
  ev_kind : string;
  ev_detail : list (string * string);
  ev_created_at_ms : Z
}.

Record Db : Type := mkDb {
  instances : gmap string Instance;
  steps : gmap (string * string) Step;
  signals : gmap string Signal;
  events : list Event
}.

Definition empty_db : Db := mkDb ∅ ∅ ∅ [].

Definition set_instances (d : Db) (m : gmap string Instance) : Db := mkDb m (steps d) (signals d) (events d).
Definition set_steps (d : Db) (m : gmap (string * string) Step) : Db := mkDb (instances d) m (signals d) (events d).
Definition set_signals (d : Db) (m : gmap string Signal) : Db := mkDb (instances d) (steps d) m (events d).

Definition with_life (i : Instance) (l : Life) : Instance := mkInstance (config i) l.

(** ** The statements *)

Inductive Stmt : Type :=
| InsertInstance (id : string) (c : Config) (now : Z)
| Transition (id : string) (target : Status) (guard : list Status) (now : Z)
| Terminate (id : string) (now : Z)
| ClearSteps (id : string)
| Requeue (id : string) (now : Z)
| InsertSignal (sid id name payload : string) (now : Z)
| WakeWaiting (id : string) (now : Z) (name : string)
| RecordStep (id name : string) (st : StepStatus) (res error : option string) (attempts now : Z) (lease : string)
| InsertSleep (id name : string) (wake now : Z) (lease : string)
| FinishSleep (id name : string) (now : Z)
| Park (id lease : string) (sleep : option Z) (waiting : option string) (now : Z)
| WakeIfSignalled (id name : string) (now : Z)
| DeliverSignal (sid : string) (now : Z) (id lease : string)
| RequeueExpired (now : Z)
| ClaimInstance (id lease : string) (until now max : Z) (group : option string) (limit : Z)
| Renew (id lease : string) (until now : Z)
| FinishInstance (id lease output : string) (now : Z)
| FailInstance (id lease error : string) (now : Z)
| RetryInstance (id lease : string) (count : Z) (error : string) (sleep now : Z)
| Collect (cutoff : Z)
| AppendEvent (id kind : string) (detail : list (string * string)) (now : Z).

(** [UPDATE workflow_instances SET .. WHERE id=? AND p]. *)
Definition update_where (d : Db) (id : string) (p : Life -> bool) (f : Life -> Life) : Db * Z :=
  match instances d !! id with
  | Some i => if p (life i) then (set_instances d (<[id := with_life i (f (life i))]> (instances d)), 1) else (d, 0)
  | None => (d, 0)
  end.

(** [status='running' AND lease_token=?]. *)
Definition holds (lease : string) (l : Life) : bool :=
  bool_decide (status l = Running) && bool_decide (lease_token l = Some lease).
Definition held (d : Db) (id lease : string) : bool :=
  match instances d !! id with Some i => holds lease (life i) | None => false end.

Definition expired (now : Z) (l : Life) : bool :=
  bool_decide (status l = Running) && match lease_until_ms l with Some u => u <=? now | None => false end.

(** [status IN ('queued','waiting') AND sleep_until_ms IS NOT NULL AND sleep_until_ms<=?]. *)
Definition due (now : Z) (l : Life) : bool :=
  (bool_decide (status l = Queued) || bool_decide (status l = Waiting))
  && match sleep_until_ms l with Some t => t <=? now | None => false end.

Definition running (i : Instance) : bool := bool_decide (status (life i) = Running).
Definition in_group (g : string) (i : Instance) : bool := running i && bool_decide (concurrency_group (config i) = Some g).
Definition count (p : Instance -> bool) (m : gmap string Instance) : Z := Z.of_nat (size (filter (fun ir => p ir.2 = true) m)).

(** The room the claim statement checks. *)
Definition room (d : Db) (max : Z) (group : option string) (limit : Z) : bool :=
  ((max =? 0) || (count running (instances d) <? max))
  && match group with
     | None => true
     | Some g => (limit =? 0) || (count (in_group g) (instances d) <? limit)
     end.

Definition to_queue (l : Life) (now : Z) : Life :=
  mkLife (output_json l) Queued (waiting_for l) (Some now) None None (last_error l) (retry_count l) (finished_at_ms l) now.
Definition woken (l : Life) (now : Z) : Life :=
  mkLife (output_json l) Queued None (Some now) (lease_token l) (lease_until_ms l) (last_error l) (retry_count l)
    (finished_at_ms l) now.

Definition max_seq (id : string) (m : gmap (string * string) Step) : Z :=
  map_fold (fun k s acc => if bool_decide (k.1 = id) then Z.max (seq s) acc else acc) 0 m.

Definition undelivered (id name : string) (s : Signal) : bool :=
  bool_decide (sig_instance s = id) && bool_decide (sig_name s = name) && negb (bool_decide (is_Some (delivered_at_ms s))).
Definition signalled (d : Db) (id name : string) : bool :=
  negb (bool_decide (filter (fun ks => undelivered id name ks.2 = true) (signals d) = ∅)).

Definition collectable (cutoff : Z) (i : Instance) : bool :=
  match finished_at_ms (life i) with Some t => t <? cutoff | None => false end.

Definition key_taken (d : Db) (key : option string) : bool :=
  match key with
  | None => false
  | Some k => negb (bool_decide (filter (fun ir => instance_key (config ir.2) = Some k) (instances d) = ∅))
  end.

Definition new_life (now : Z) : Life := mkLife None Queued None (Some now) None None None 0 None now.

(** The [INSERT .. SELECT COALESCE(MAX(seq),0)+1 .. HAVING EXISTS] of a step. *)
Definition insert_step (d : Db) (id name : string) (s : Z -> Step) : Db * Z :=
  (set_steps d (<[(id, name) := s (max_seq id (steps d) + 1)]> (steps d)), 1).

(** One statement: the tables after it and the rows affected; [None] when a
    constraint fails. *)
Definition run (d : Db) (s : Stmt) : option (Db * Z) :=
  match s with
  | InsertInstance id c now =>
      Some (if bool_decide (is_Some (instances d !! id)) || key_taken d (instance_key c) then (d, 0)
            else (set_instances d (<[id := mkInstance c (new_life now)]> (instances d)), 1))
  | Transition id target guard now =>
      Some (update_where d id (fun l => bool_decide (status l ∈ guard)) (fun l =>
        mkLife (output_json l) target (waiting_for l) (if bool_decide (target = Queued) then Some now else sleep_until_ms l)
          None None (last_error l) (retry_count l) (finished_at_ms l) now))
  | Terminate id now =>
      Some (update_where d id (fun l => negb (ended (status l))) (fun l =>
        mkLife (output_json l) Terminated None None None None (last_error l) (retry_count l) (Some now) now))
  | ClearSteps id =>
      Some (if match instances d !! id with Some i => ended (status (life i)) | None => false end
            then let kept := filter (fun ks => ~ (ks.1.1 = id /\ step_status ks.2 = StepFailed)) (steps d) in
                 (set_steps d kept, Z.of_nat (size (steps d)) - Z.of_nat (size kept))
            else (d, 0))
  | Requeue id now =>
      Some (update_where d id (fun l => ended (status l)) (fun l =>
        mkLife None Queued None (Some now) None None None (retry_count l) None now))
  | InsertSignal sid id name payload now =>
      match instances d !! id with
      | Some i =>
          if ended (status (life i)) then Some (d, 0)
          else match signals d !! sid with
               | Some _ => None
               | None => Some (set_signals d (<[sid := mkSignal id name payload None now]> (signals d)), 1)
               end
      | None => Some (d, 0)
      end
  | WakeWaiting id now name =>
      Some (update_where d id (fun l => bool_decide (status l = Waiting)
        && match waiting_for l with Some w => bool_decide (w = name) | None => true end) (fun l => woken l now))
  | RecordStep id name st res error attempts now lease =>
      Some (if held d id lease then
              match steps d !! (id, name) with
              | None => insert_step d id name (fun n => mkStep n KDo st res error None attempts now (Some now))
              | Some x =>
                  if bool_decide (step_status x = StepOk) then (d, 0)
                  else (set_steps d (<[(id, name) := mkStep (seq x) (kind x) st res error (wake_at_ms x) attempts
                          (step_started_at_ms x) (Some now)]> (steps d)), 1)
              end
            else (d, 0))
  | InsertSleep id name wake now lease =>
      Some (if held d id lease && negb (bool_decide (is_Some (steps d !! (id, name))))
            then insert_step d id name (fun n => mkStep n KSleep Slept None None (Some wake) 1 now None)
            else (d, 0))
  | FinishSleep id name now =>
      Some (match steps d !! (id, name) with
            | Some x => (set_steps d (<[(id, name) := mkStep (seq x) (kind x) (step_status x) (result_json x) (step_error x)
                           (wake_at_ms x) (step_attempts x) (step_started_at_ms x) (Some now)]> (steps d)), 1)
            | None => (d, 0)
            end)
  | Park id lease sleep waiting now =>
      Some (update_where d id (holds lease) (fun l =>
        mkLife (output_json l) Waiting waiting sleep None None (last_error l) (retry_count l) (finished_at_ms l) now))
  | WakeIfSignalled id name now =>
      Some (if signalled d id name
            then update_where d id (fun l => bool_decide (status l = Waiting) && bool_decide (waiting_for l = Some name))
                   (fun l => woken l now)
            else (d, 0))
  | DeliverSignal sid now id lease =>
      Some (match signals d !! sid with
            | Some g =>
                if negb (bool_decide (is_Some (delivered_at_ms g))) && held d id lease
                then (set_signals d (<[sid := mkSignal (sig_instance g) (sig_name g) (payload_json g) (Some now)
                        (sig_created_at_ms g)]> (signals d)), 1)
                else (d, 0)
            | None => (d, 0)
            end)
  | RequeueExpired now =>
      Some (set_instances d ((fun i => if expired now (life i) then with_life i (to_queue (life i) now) else i) <$> instances d),
            count (fun i => expired now (life i)) (instances d))
  | ClaimInstance id lease until now max group limit =>
      Some (if room d max group limit
            then update_where d id (due now) (fun l =>
                   mkLife (output_json l) Running None (sleep_until_ms l) (Some lease) (Some until) (last_error l)
                     (retry_count l) (finished_at_ms l) now)
            else (d, 0))
  | Renew id lease until now =>
      Some (update_where d id (holds lease) (fun l =>
        mkLife (output_json l) (status l) (waiting_for l) (sleep_until_ms l) (lease_token l) (Some until) (last_error l)
          (retry_count l) (finished_at_ms l) now))
  | FinishInstance id lease output now =>
      Some (update_where d id (holds lease) (fun l =>
        mkLife (Some output) Complete None None None None None (retry_count l) (Some now) now))
  | FailInstance id lease error now =>
      Some (update_where d id (holds lease) (fun l =>
        mkLife (output_json l) SFailed None None None None (Some error) (retry_count l) (Some now) now))
  | RetryInstance id lease n error sleep now =>
      Some (update_where d id (holds lease) (fun l =>
        mkLife (output_json l) Queued (waiting_for l) (Some sleep) None None (Some error) n (finished_at_ms l) now))
  | Collect cutoff =>
      let kept := filter (fun ir => collectable cutoff ir.2 = false) (instances d) in
      let alive id := bool_decide (is_Some (kept !! id)) in
      Some (mkDb kept (filter (fun ks => alive ks.1.1 = true) (steps d)) (filter (fun ks => alive (sig_instance ks.2) = true) (signals d))
              (filter (fun e => alive (ev_instance e) = true) (events d)),
            Z.of_nat (size (instances d)) - Z.of_nat (size kept))
  | AppendEvent id kind detail now =>
      match instances d !! id with
      | None => None
      | Some _ =>
          let n := foldr (fun e acc => if bool_decide (ev_instance e = id) then Z.max (ev_seq e) acc else acc) 0 (events d) in
          Some (mkDb (instances d) (steps d) (signals d) (events d ++ [mkEvent id (n + 1) kind detail now]), 1)
      end
  end.

(** ** The operations *)

(** Questions to other programs: a user function, and the request to the Worker. *)
Inductive Question : Type :=
| UserFn (name : string) (attempt : nat)
| Transport.
Definition Answer : Type := result string (bool * string).

Notation Op A := (Script Db Stmt Question Answer WfError A).
#[local] Notation "'let!' x := m 'in' k" := (Script.bind m (fun x => k)) (at level 200, x pattern, m at level 100, k at level 200).

#[export] Instance wf_unavailable : Script.Unavailable WfError := Unavailable.

(** [ensure_schema]: the tables exist; creating them again changes nothing but may fail. *)
Definition ensure_schema : Op unit := select (fun _ => tt).

(** The validations. *)
Definition bounded_text (s : string) : bool := negb (is_empty s) && (slen s <=? 256) && all_bytes (fun c => negb (is_ascii_control c)) s.
Definition validate_instance_key (key : option string) : result unit WfError :=
  match key with Some k => if bounded_text k then Ok tt else Err BadInstanceKey | None => Ok tt end.
Definition validate_concurrency_group (group : option string) : result unit WfError :=
  match group with
  | None => Ok tt
  | Some g =>
      if is_empty g || (256 <? slen g) || negb (bool_decide (trim g = g)) || existsb is_control (chars g)
      then Err BadGroup else Ok tt
  end.
Definition validate_step_name (name : string) : result unit WfError :=
  if bounded_text name then Ok tt else Err BadStepName.
Definition validate_json_size (value : string) (max : Z) : result unit WfError :=
  if max <? slen value then Err ValueTooLarge else Ok tt.
Definition truncate_error (error : string) : string := take_chars (Z.to_nat 4000) error.

(** [append_event]. *)
Definition append_event (id kind : string) (detail : list (string * string)) : Op unit :=
  let! now := now_ms in
  let! n := exec (AppendEvent id kind detail now) in
  guard (n =? 1) EventNotStored.

(** [instance] and [instance_by_key]. *)
Definition instance (id : string) : Op (option Instance) :=
  let! _ := ensure_schema in
  select (fun d => instances d !! id).
Definition find_key (key : string) (d : Db) : option (string * Instance) :=
  List.find (fun ir => bool_decide (instance_key (config ir.2) = Some key)) (map_to_list (instances d)).
Definition instance_by_key (key : string) : Op (option (string * Instance)) := select (find_key key).

Definition group_detail (c : Config) : list (string * string) :=
  [("concurrency_group", default "null" (concurrency_group c)); ("concurrency_group_limit", pretty (concurrency_group_limit c))].

(** [create_instance_in_group]: the definition is the record's version and spec. *)
Definition create_instance_in_group (definition : option (Z * WorkflowSpec)) (key group : option string) (input : string) :
  Op (string * Instance) :=
  match definition with
  | None => fail WfMissing
  | Some (version, spec) =>
      if wf_suspended spec then fail (WfSuspended (wf_suspend_reason spec))
      else
        let! _ := check (validate_instance_key key) in
        let! _ := check (validate_concurrency_group group) in
        let! _ := check (validate_json_size input MAX_INPUT_BYTES) in
        let! _ := ensure_schema in
        let! existing := match key with Some k => instance_by_key k | None => ret None end in
        match existing with
        | Some i => ret i
        | None =>
            let! id := new_id "wfi" in
            let! now := now_ms in
            let! inserted := exec (InsertInstance id (mkConfig key group (max_concurrent_instances_per_group spec) input now
                                     version (wf_entrypoint spec) (wf_instance_retries spec) (wf_instance_timeout_seconds spec)) now) in
            if inserted =? 1 then
              let! i := instance id in
              match i with
              | None => fail InstanceVanished
              | Some i =>
                  let! _ := append_event id "created" (group_detail (config i)) in
                  ret (id, i)
              end
            else
              match key with
              | None => fail IdConflict
              | Some k =>
                  let! i := instance_by_key k in
                  match i with None => fail KeyConflict | Some i => ret i end
              end
        end
  end.

(** [create_instance]. *)
Definition create_instance (definition : option (Z * WorkflowSpec)) (key : option string) (input : string) : Op (string * Instance) :=
  create_instance_in_group definition key None input.

(** The reads of the API: [instances], [steps], [signals], [events] and [stats]; rows that
    SQLite may order either way are in the order of their keys. *)
Definition newer_started (a b : string * Instance) : Prop := started_at_ms (config b.2) <= started_at_ms (config a.2).
#[local] Instance newer_started_dec : RelDecision newer_started.
Proof. intros a b. unfold newer_started. apply _. Defined.
Definition list_instances (st : option Status) (limit : Z) : Op (list (string * Instance)) :=
  let! _ := ensure_schema in
  select (fun d =>
    truncate_to (clamp 1 1000 limit)
      (merge_sort newer_started (filter (fun ir => match st with Some x => bool_decide (status (life ir.2) = x) | None => true end = true) (map_to_list (instances d))))).

Definition by_seq (a b : string * Step) : Prop := seq a.2 <= seq b.2.
#[local] Instance by_seq_dec : RelDecision by_seq.
Proof. intros a b. unfold by_seq. apply _. Defined.
Definition list_steps (id : string) : Op (list (string * Step)) :=
  let! _ := ensure_schema in
  select (fun d => merge_sort by_seq (omap (fun ks : string * string * Step => if bool_decide (ks.1.1 = id) then Some (ks.1.2, ks.2) else None)
                                       (map_to_list (steps d)))).

Definition by_creation (a b : string * Signal) : Prop :=
  le_of (sig_created_at_ms a.2, a.1) (sig_created_at_ms b.2, b.1).
#[local] Instance by_creation_dec : RelDecision by_creation.
Proof. intros a b. unfold by_creation. apply _. Defined.
Definition list_signals (id : string) : Op (list (string * Signal)) :=
  let! _ := ensure_schema in
  select (fun d => merge_sort by_creation (filter (fun ks => sig_instance ks.2 = id) (map_to_list (signals d)))).

Definition later_event (a b : Event) : Prop := ev_seq b <= ev_seq a.
#[local] Instance later_event_dec : RelDecision later_event.
Proof. intros a b. unfold later_event. apply _. Defined.
Definition list_events (id : string) (limit : Z) : Op (list Event) :=
  let! _ := ensure_schema in
  select (fun d => reverse (truncate_to (clamp 1 1000 limit) (merge_sort later_event (filter (fun e => ev_instance e = id) (events d))))).

Definition stats : Op (Status -> Z) :=
  let! _ := ensure_schema in
  select (fun d st => count (fun i => bool_decide (status (life i) = st)) (instances d)).

(** [transition], [pause], [resume], [terminate] and [restart]. *)
Definition transition (id : string) (target : Status) (from : list Status) (event : string) : Op bool :=
  let! _ := ensure_schema in
  let! now := now_ms in
  let! n := exec (Transition id target from now) in
  let! _ := if n =? 1 then append_event id event [] else ret tt in
  ret (n =? 1).
Definition pause (id : string) : Op bool := transition id SPaused [Queued; Running; Waiting] "paused".
Definition resume (id : string) : Op bool := transition id Queued [SPaused] "resumed".

Definition terminate (id : string) : Op bool :=
  let! now := now_ms in
  let! n := exec (Terminate id now) in
  let! _ := if n =? 1 then append_event id "terminated" [] else ret tt in
  ret (n =? 1).

Definition restart (id : string) : Op bool :=
  let! _ := ensure_schema in
  let! now := now_ms in
  let! _ := exec (ClearSteps id) in
  let! n := exec (Requeue id now) in
  let! _ := if n =? 1 then append_event id "restarted" [] else ret tt in
  ret (n =? 1).

(** [send_signal]. *)
Definition send_signal (id name payload : string) : Op string :=
  let! _ := check (validate_step_name name) in
  let! _ := check (validate_json_size payload MAX_RESULT_BYTES) in
  let! i := instance id in
  match i with
  | None => fail InstanceMissing
  | Some i =>
      let! _ := guard (negb (ended (status (life i)))) InstanceEnded in
      let! sid := new_id "sig" in
      let! now := now_ms in
      let! inserted := exec (InsertSignal sid id name payload now) in
      let! _ := guard (inserted =? 1) InstanceEnded in
      let! _ := exec (WakeWaiting id now name) in
      let! _ := append_event id "signal_received" [("name", name); ("signal_id", sid)] in
      ret sid
  end.

(** [validate_step_request]. *)
Definition validate_step_request (id lease name : string) : Op unit :=
  let! _ := check (validate_step_name name) in
  let! valid := select (fun d => held d id lease) in
  guard valid LeaseLost.

Inductive Lookup : Type :=
| Cached (result : string)
| AlreadyFailed (error : string)
| NotCached.

(** [step_lookup]. *)
Definition step_lookup (id lease name : string) : Op Lookup :=
  let! _ := validate_step_request id lease name in
  let! row := select (fun d => steps d !! (id, name)) in
  ret (match row with
       | None => NotCached
       | Some s =>
           match step_status s with
           | StepOk => Cached (default "null" (result_json s))
           | StepFailed => AlreadyFailed (default "未知步骤错误" (step_error s))
           | Slept => NotCached
           end
       end).

Definition parse_step_status (s : string) : option StepStatus :=
  if bool_decide (s = "ok") then Some StepOk else if bool_decide (s = "failed") then Some StepFailed else None.

(** [step_record]. *)
Definition step_record (id lease name st : string) (res error : option string) (attempts : Z) : Op unit :=
  let! _ := validate_step_request id lease name in
  match parse_step_status st with
  | None => fail BadStepStatus
  | Some st =>
      let! _ := match res with Some v => check (validate_json_size v MAX_RESULT_BYTES) | None => ret tt end in
      let! now := now_ms in
      let error := truncate_error <$> error in
      let! n := exec (RecordStep id name st res error attempts now lease) in
      if n =? 0 then
        let! row := select (fun d => steps d !! (id, name)) in
        guard (match row with
               | Some s => bool_decide (step_status s = st) && bool_decide (result_json s = res) && bool_decide (step_error s = error)
               | None => false
               end) StepNameTaken
      else
        append_event id (match st with StepOk => "step_complete" | _ => "step_failed" end)
          [("name", name); ("attempts", pretty attempts)]
  end.

(** [park]. *)
Definition park (id lease : string) (sleep : option Z) (waiting : option string) : Op bool :=
  let! now := now_ms in
  let! n := exec (Park id lease sleep waiting now) in
  ret (n =? 1).

Inductive SleepReply : Type := Wake | SleepUntil (wake : Z).

Definition MAX_SLEEP_MS : Z := 365 * 24 * 60 * 60 * 1000.

(** [step_sleep]. *)
Definition step_sleep (id lease name : string) (duration_ms : Z) : Op SleepReply :=
  let! _ := validate_step_request id lease name in
  let! now := now_ms in
  let proposed := sat_add 64 now (Z.min duration_ms MAX_SLEEP_MS) in
  let! now := now_ms in
  let! _ := exec (InsertSleep id name proposed now lease) in
  let! row := select (fun d => steps d !! (id, name)) in
  match row with
  | None => fail LeaseLost
  | Some s =>
      let! _ := guard (bool_decide (kind s = KSleep) && bool_decide (step_status s = Slept)) StepNameTaken in
      match wake_at_ms s with
      | None => fail NoWakeTime
      | Some wake =>
          let! now := now_ms in
          if wake <=? now then
            let! now := now_ms in
            let! _ := exec (FinishSleep id name now) in
            ret Wake
          else
            let! parked := park id lease (Some wake) (Some name) in
            let! _ := guard parked LeaseLost in
            let! _ := append_event id "sleep" [("name", name); ("wake_at_ms", pretty wake)] in
            ret (SleepUntil wake)
      end
  end.

Inductive SignalReply : Type := Delivered (payload : string) | WaitSignal.

(** [ORDER BY created_at_ms,id LIMIT 1]. *)
Definition next_signal (id name : string) (d : Db) : option (string * Signal) :=
  min_by_key (fun ks => (sig_created_at_ms ks.2, ks.1))
    (filter (fun ks => undelivered id name ks.2 = true) (map_to_list (signals d))).

(** The branch of [step_signal] without a signal: park, then look again. *)
Definition wait_signal (id lease name : string) : Op SignalReply :=
  let! parked := park id lease None (Some name) in
  let! _ := guard parked LeaseLost in
  let! now := now_ms in
  let! n := exec (WakeIfSignalled id name now) in
  let! _ := append_event id "signal_wait" [("name", name)] in
  let! _ := if n =? 1 then append_event id "signal_ready" [("name", name)] else ret tt in
  ret WaitSignal.

(** The loop of [step_signal], at most [fuel] times round. *)
Fixpoint signal_loop (fuel : nat) (id lease name : string) : Op SignalReply :=
  match fuel with
  | O => fail LoopBound
  | S fuel =>
      let! signal := select (next_signal id name) in
      match signal with
      | None => wait_signal id lease name
      | Some (sid, s) =>
          let! now := now_ms in
          let! n := exec (DeliverSignal sid now id lease) in
          if n =? 0 then
            let! _ := validate_step_request id lease name in
            signal_loop fuel id lease name
          else
            let! _ := append_event id "signal_delivered" [("name", name); ("signal_id", sid)] in
            ret (Delivered (payload_json s))
      end
  end.
Definition step_signal (fuel : nat) (id lease name : string) : Op SignalReply :=
  let! _ := validate_step_request id lease name in
  signal_loop fuel id lease name.

(** ** The driver *)

Record WfClaim : Type := mkClaim { claim_id : string; claim_instance : Instance; claim_lease : string }.

(** [ORDER BY sleep_until_ms,started_at_ms LIMIT 1]; the order of equals, which SQLite
    leaves open, is by id. *)
Definition due_key (ir : string * Instance) : Z * (Z * string) :=
  (default 0 (sleep_until_ms (life ir.2)), (started_at_ms (config ir.2), ir.1)).
Definition candidate (now : Z) (d : Db) : option (string * Instance) :=
  min_by_key due_key (filter (fun ir => due now (life ir.2) = true) (map_to_list (instances d))).

(** [claim_one]. *)
Definition claim_one (node : string) (max : Z) : Op (option WfClaim) :=
  let! _ := ensure_schema in
  let! now := now_ms in
  let! _ := exec (RequeueExpired now) in
  let! found := select (candidate now) in
  match found with
  | None => ret None
  | Some (id, i) =>
      let! lease := new_id "lease" in
      let! n := exec (ClaimInstance id lease (sat_add 64 now LEASE_MS) now max (concurrency_group (config i))
                        (concurrency_group_limit (config i))) in
      if negb (n =? 1) then ret None
      else
        let! i := instance id in
        match i with
        | None => fail InstanceVanished
        | Some i =>
            let! _ := append_event id "advance_claimed" (("node", node) :: group_detail (config i)) in
            ret (Some (mkClaim id i lease))
        end
  end.

(** [renew], and the heartbeat of [dispatch] for [beats] rounds. *)
Definition renew (id lease : string) : Op bool :=
  let! now := now_ms in
  let! now' := now_ms in
  let! n := exec (Renew id lease (sat_add 64 now LEASE_MS) now') in
  ret (n =? 1).
Fixpoint heartbeat (beats : nat) (id lease : string) : Op unit :=
  match beats with
  | O => ret tt
  | S beats =>
      let! r := catch (renew id lease) in
      match r with Ok true => heartbeat beats id lease | _ => ret tt end
  end.

(** [finish], [fail_terminal] and [fail_system]. *)
Definition finish (id lease output : string) : Op unit :=
  let! _ := check (validate_json_size output MAX_RESULT_BYTES) in
  let! now := now_ms in
  let! n := exec (FinishInstance id lease output now) in
  if n =? 1 then append_event id "complete" [] else ret tt.

Definition fail_terminal (id lease error : string) : Op unit :=
  let error := truncate_error error in
  let! now := now_ms in
  let! n := exec (FailInstance id lease error now) in
  if n =? 1 then append_event id "failed" [("error", error)] else ret tt.

Definition backoff_ms (retry : Z) : Z := Z.shiftl 1 (Z.min retry 8) * 1000.

Definition fail_system (max_retries : Z) (id lease error : string) : Op unit :=
  let! current := instance id in
  match current with
  | None => fail InstanceMissing
  | Some i =>
      let error := truncate_error error in
      let! now := now_ms in
      if retry_count (life i) <? max_retries then
        let retry := retry_count (life i) + 1 in
        let! n := exec (RetryInstance id lease retry error (sat_add 64 now (backoff_ms retry)) now) in
        if n =? 1
        then append_event id "system_retry" [("error", error); ("retry", pretty retry); ("backoff_ms", pretty (backoff_ms retry))]
        else ret tt
      else fail_terminal id lease error
  end.

Inductive AdvanceResponse : Type :=
| AComplete (output : string)
| AParked
| AFailed (error : string).

(** [advance], over the request to the Worker. *)
Definition advance (error_text : WfError -> string) (dispatch : WfClaim -> Op AdvanceResponse) (c : WfClaim) : Op unit :=
  let id := claim_id c in
  let lease := claim_lease c in
  let retries := instance_retries (config (claim_instance c)) in
  let! r := catch (dispatch c) in
  match r with
  | Ok (AComplete output) => ignore (finish id lease output)
  | Ok AParked =>
      let! i := catch (instance id) in
      match i with
      | Ok (Some i) =>
          if running i
          then ignore (fail_system retries id lease "Workflow 返回 parked，但没有持久化等待边界")
          else ret tt
      | _ => ret tt
      end
  | Ok (AFailed error) => ignore (fail_terminal id lease error)
  | Err e => ignore (fail_system retries id lease (error_text e))
  end.

(** One round of [spawn_driver] for a workflow: the cron instance of the minute, and
    the collection of instances past their retention. *)
Definition cron_key (version minute : Z) : string := ("cron:v" ++ pretty version ++ ":" ++ pretty minute)%string.
Definition cron_round (definition : Z * WorkflowSpec) (input : string -> Z -> string) (minute : Z) : Op unit :=
  let '(version, spec) := definition in
  if wf_suspended spec then ret tt
  else
    match cron spec with
    | Some expression =>
        match Cron.parse expression with
        | Ok c => if Cron.matches c (minute * 60)
                  then ignore (create_instance (Some definition) (Some (cron_key version minute)) (input expression minute))
                  else ret tt
        | Err _ => ret tt
        end
    | None => ret tt
    end.
Definition collect (spec : WorkflowSpec) : Op unit :=
  let! now := now_ms in
  ignore (exec (Collect (sat_sub now (wf_retention_days spec * 86400000)))).

(** ** The JavaScript runtime (the generated source in runtime.rs)

    User code, as the step functions see it: what it does next depends on the values,
    and the exceptions, the steps give it.  The exception that parks a workflow is
    not given to user code. *)
Inductive Prog : Type :=
| Return (output : string)
| Throw (error : string)
| Do (name : string) (limit : nat) (k : result string string -> Prog)
| Sleep (name : string) (duration_ms : Z) (k : result unit string -> Prog)
| WaitForSignal (name : string) (k : result string string -> Prog).

Section runtime.
Context (error_text : WfError -> string) (fuel : nat).

(** [__rfWorkflowCall]: an error of the service becomes an exception. *)
Definition call {A} (m : Op A) : Op (result A string) :=
  let! r := catch m in
  ret (match r with Ok a => Ok a | Err e => Err ("WORKFLOW_STEP_ERROR: 422 " ++ error_text e)%string end).

(** The retry loop of [do]: [more] attempts left. *)
Fixpoint attempts_loop (name : string) (attempt more : nat) : Op (Z * result string string) :=
  Ask (UserFn name attempt) (fun r =>
    match r, more with
    | Ok v, _ => ret (Z.of_nat attempt + 1, Ok v)
    | Err (true, e), _ | Err (false, e), O => ret (Z.of_nat attempt + 1, Err e)
    | Err (false, _), S more => attempts_loop name (S attempt) more
    end).

Definition QUOTE : string := String (ascii_of_nat 34) EmptyString.

(** [step.do]. *)
Definition do_step (id lease name : string) (limit : nat) : Op (result string string) :=
  let! cached := call (step_lookup id lease name) in
  match cached with
  | Err e => ret (Err e)
  | Ok (Cached v) => ret (Ok v)
  | Ok (AlreadyFailed e) => ret (Err ("step " ++ QUOTE ++ name ++ QUOTE ++ " already failed: " ++ e)%string)
  | Ok NotCached =>
      let! outcome := attempts_loop name 0 (Nat.min limit 100) in
      match outcome with
      | (attempts, Err e) =>
          let! r := call (step_record id lease name "failed" None (Some e) attempts) in
          ret (match r with Ok _ => Err e | Err e' => Err e' end)
      | (attempts, Ok v) =>
          let! r := call (step_record id lease name "ok" (Some v) None attempts) in
          ret (match r with Ok _ => Ok v | Err e' => Err e' end)
      end
  end.

(** [entry.run(input, step)] under [__rfWorkflowEvent]. *)
Fixpoint run_prog (id lease : string) (p : Prog) : Op AdvanceResponse :=
  match p with
  | Return output => ret (AComplete output)
  | Throw e => ret (AFailed (take_chars (Z.to_nat 4000) e))
  | Do name limit k => let! r := do_step id lease name limit in run_prog id lease (k r)
  | Sleep name duration k =>
      let! r := call (step_sleep id lease name duration) in
      match r with
      | Ok Wake => run_prog id lease (k (Ok tt))
      | Ok (SleepUntil _) => ret AParked
      | Err e => run_prog id lease (k (Err e))
      end
  | WaitForSignal name k =>
      let! r := call (step_signal fuel id lease name) in
      match r with
      | Ok (Delivered payload) => run_prog id lease (k (Ok payload))
      | Ok WaitSignal => ret AParked
      | Err e => run_prog id lease (k (Err e))
      end
  end.

(** [dispatch]: the request may fail before or after the Worker has run. *)
Definition dispatch (entry : string -> Prog) (c : WfClaim) : Op AdvanceResponse :=
  Ask Transport (fun r =>
    match r with
    | Err (_, e) => fail (DispatchFailed e)
    | Ok _ =>
        let! response := run_prog (claim_id c) (claim_lease c) (entry (input_json (config (claim_instance c)))) in
        Ask Transport (fun r => match r with Ok _ => ret response | Err (_, e) => fail (DispatchFailed e) end)
    end).

(** One claim of the driver and what follows it. *)
Definition drive (entry : string -> Prog) (node : string) (max : Z) : Op unit :=
  let! c := claim_one node max in
  match c with
  | None => ret tt
  | Some c => advance error_text (dispatch entry) c
  end.
End runtime.

(** ** Definitions of workflows *)

Class WorkflowJson {json : Json} := {
  workflow_to_value : WorkflowSpec -> Value;
  workflow_from_value : Value -> option WorkflowSpec
}.

Section definitions.
Context {redb : Redb} {crypto : Crypto} {hex : Hex} {json : Json} {wf_json : WorkflowJson}.
Context {pc_env : Postcard Envelope} {pc_resource : Postcard ResourceRecord}.

(** [workflow_spec]. *)
Definition workflow_spec (r : ResourceRecord) : result WorkflowSpec WfError :=
  if negb (bool_decide (r_kind r = WORKFLOW_KIND)) then Err NotAWorkflow
  else
    match json_from_str (spec_json r) ≫= workflow_from_value with
    | None => Err WfUnreadable
    | Some spec => let? _ := validate_workflow spec in Ok spec
    end.

(** [workflow_record] and [workflow_records]. *)
Definition workflow_record (n : Node) (name : string) (now_at : string -> Z) : option (ResourceView * WorkflowSpec) :=
  view ← head n WORKFLOW_KIND name now_at;
  if r_deleted (resource view) then None
  else match workflow_spec (resource view) with Ok spec => Some (view, spec) | Err _ => None end.
Definition workflow_records (n : Node) (now_at : string -> Z) : list (ResourceView * WorkflowSpec) :=
  omap (fun view => match workflow_spec (resource view) with Ok spec => Some (view, spec) | Err _ => None end)
    (filter (fun view => r_deleted (resource view) = false) (heads n (Some WORKFLOW_KIND) now_at)).

(** [prepare_workflow_after]. *)
Definition prepare_workflow_after (name : string) (spec : WorkflowSpec) (deleted : bool) (h : option ResourceView) :
  result ResourceRecord WfError :=
  let? _ := validate_workflow spec in
  match prepare_after WORKFLOW_KIND name (workflow_to_value spec) deleted h with
  | Ok r => Ok r
  | Err e => Err (WfResource e)
  end.

(** [database_name]. *)
Definition database_name (workflow : string) : string :=
  ("workflow-" ++ stake 32 (hex_encode (sha256 (as_bytes ("workflow/" ++ workflow)))))%string.

(** [constant_time_eq] and [token_matches]. *)
Definition constant_time_eq (a b : bytes) : bool :=
  if negb (bool_decide (length a = length b)) then false
  else foldl (fun difference lr => Z.lor difference (Z.lxor lr.1 lr.2)) 0 (zip a b) =? 0.
Definition token_matches (spec : WorkflowSpec) (plaintext : string) : bool :=
  existsb (fun t => match hex_decode (sha256_hex t) with
                    | Ok expected => constant_time_eq (sha256 (as_bytes plaintext)) expected
                    | Err _ => false
                    end) (tokens spec).

(** [mint_token]: [secret] is the base64 text of 32 random bytes, [id] 8 random bytes. *)
Definition mint_token (text secret : string) (id : bytes) (now : Z) : result (WorkflowToken * string) WfError :=
  if 128 <? slen text then Err WfBadToken
  else
    let plaintext := ("rfw_" ++ secret)%string in
    Ok (mkToken (hex_encode id) text (hex_encode (sha256 (as_bytes plaintext)))
          (sdrop (String.length plaintext - 4) plaintext) now, plaintext).
End definitions.
