(* ===== verification/WorkflowProps.v ===== *)
(** * WorkflowProps: what workflows guarantee

    The life of an instance as an invariant of every interleaving of operations,
    failures and crashes included; fenced leases; the bound on concurrency; recorded
    steps and replays; and the exchange of signals. *)

From Stdlib Require Import ZArith Lia Ascii.
From stdpp Require Import prelude gmap sorting strings list pretty.
From S2P Require Import Prelude Text Script Workflow.
Open Scope Z_scope.

(** ** The effect of a statement on an instance *)

Lemma update_where_lookup d id p f j :
  instances (update_where d id p f).1 !! j =
  if decide (j = id) then (fun i => if p (life i) then with_life i (f (life i)) else i) <$> instances d !! j else instances d !! j.
Proof.
  unfold update_where. destruct (instances d !! id) as [i|] eqn:E; [destruct (p (life i)) eqn:Ep|]; cbn;
    destruct (decide (j = id)) as [->|Hne]; rewrite ?E; cbn; rewrite ?Ep; try done.
  - by rewrite lookup_insert_eq.
  - by rewrite lookup_insert_ne.
Qed.

Lemma update_where_steps d id p f : steps (update_where d id p f).1 = steps d.
Proof. unfold update_where. by repeat case_match. Qed.
Lemma update_where_signals d id p f : signals (update_where d id p f).1 = signals d.
Proof. unfold update_where. by repeat case_match. Qed.

(** Every statement changes the life of an instance as [moves] allows; it never
    changes its configuration. *)
Inductive moves (d : Db) (id : string) (l : Life) : Stmt -> Life -> Prop :=
| moves_transition target from now : status l ∈ from ->
    moves d id l (Transition id target from now)
      (mkLife (output_json l) target (waiting_for l) (if bool_decide (target = Queued) then Some now else sleep_until_ms l)
         None None (last_error l) (retry_count l) (finished_at_ms l) now)
| moves_terminate now : ended (status l) = false ->
    moves d id l (Terminate id now) (mkLife (output_json l) Terminated None None None None (last_error l) (retry_count l) (Some now) now)
| moves_requeue now : ended (status l) = true ->
    moves d id l (Requeue id now) (mkLife None Queued None (Some now) None None None (retry_count l) None now)
| moves_wake now name : status l = Waiting -> waiting_for l = Some name \/ waiting_for l = None ->
    moves d id l (WakeWaiting id now name) (woken l now)
| moves_park lease sleep waiting now : holds lease l = true ->
    moves d id l (Park id lease sleep waiting now)
      (mkLife (output_json l) Waiting waiting sleep None None (last_error l) (retry_count l) (finished_at_ms l) now)
| moves_signalled name now : status l = Waiting -> waiting_for l = Some name -> signalled d id name = true ->
    moves d id l (WakeIfSignalled id name now) (woken l now)
| moves_expire now : expired now l = true -> moves d id l (RequeueExpired now) (to_queue l now)
| moves_claim lease until now max group limit : due now l = true -> room d max group limit = true ->
    moves d id l (ClaimInstance id lease until now max group limit)
      (mkLife (output_json l) Running None (sleep_until_ms l) (Some lease) (Some until) (last_error l) (retry_count l)
         (finished_at_ms l) now)
| moves_renew lease until now : holds lease l = true ->
    moves d id l (Renew id lease until now)
      (mkLife (output_json l) (status l) (waiting_for l) (sleep_until_ms l) (lease_token l) (Some until) (last_error l)
         (retry_count l) (finished_at_ms l) now)
| moves_finish lease output now : holds lease l = true ->
    moves d id l (FinishInstance id lease output now) (mkLife (Some output) Complete None None None None None (retry_count l) (Some now) now)
| moves_fail lease error now : holds lease l = true ->
    moves d id l (FailInstance id lease error now)
      (mkLife (output_json l) SFailed None None None None (Some error) (retry_count l) (Some now) now)
| moves_retry lease n error sleep now : holds lease l = true ->
    moves d id l (RetryInstance id lease n error sleep now)
      (mkLife (output_json l) Queued (waiting_for l) (Some sleep) None None (Some error) n (finished_at_ms l) now).

Lemma run_instances d s id :
  match instances d !! id, instances (apply run d s) !! id with
  | Some i, Some i' => i' = i \/ exists l, i' = with_life i l /\ moves d id (life i) s l
  | None, Some i' => exists c now, s = InsertInstance id c now /\ i' = mkInstance c (new_life now)
  | Some i, None => exists cutoff, s = Collect cutoff /\ collectable cutoff i = true
  | None, None => True
  end.
Proof.
  set (G m := match instances d !! id, m with
    | Some i, Some i' => i' = i \/ exists l, i' = with_life i l /\ moves d id (life i) s l
    | None, Some i' => exists c now, s = InsertInstance id c now /\ i' = mkInstance c (new_life now)
    | Some i, None => exists cutoff, s = Collect cutoff /\ collectable cutoff i = true
    | None, None => True
    end). change (G (instances (apply run d s) !! id)).
  assert (Hid : G (instances d !! id)) by (unfold G; destruct (instances d !! id); auto).
  assert (Hu : forall x p f, (forall i, x = id -> p (life i) = true -> moves d id (life i) s (f (life i))) ->
    G (instances (update_where d x p f).1 !! id)).
  { intros x p f Hm. rewrite update_where_lookup. unfold G in *. destruct (instances d !! id) as [i|] eqn:E; destruct (decide (id = x)) as [->|]; cbn; auto.
    destruct (p (life i)) eqn:Ep; eauto. }
  unfold apply. destruct s as [id0 c now| | | | | |id0 now name| | | | |id0 name now| |now| | | | | |cutoff|]; cbn [run];
    try (apply Hu; intros i -> Hp; to_prop; by constructor);
    try (unfold insert_step; repeat case_match; simplify_eq; exact Hid).
  - destruct (bool_decide _) eqn:Eb; cbn [orb]; [exact Hid|]. destruct (key_taken d _); [exact Hid|]. cbn.
    apply bool_decide_eq_false in Eb. destruct (decide (id = id0)) as [->|Hne]; [|by rewrite lookup_insert_ne].
    rewrite lookup_insert_eq. unfold G. destruct (instances d !! id0); [by destruct Eb|]. eauto.
  - apply Hu. intros i -> [Hs Hw]%andb_prop. to_prop. constructor; [done|]. destruct (waiting_for (life i)); [left|by right]. to_prop. by subst.
  - destruct (signalled d id0 name) eqn:Es; [|exact Hid]. apply Hu. intros i -> [Hs Hw]%andb_prop. to_prop. by constructor.
  - cbn. rewrite lookup_fmap. unfold G in *. destruct (instances d !! id) as [i|] eqn:E; cbn; [|done].
    destruct (expired now (life i)) eqn:Ee; [|by left]. right. eexists. split; [done|]. by constructor.
  - destruct (room _ _ _ _) eqn:Er; [|exact Hid]. apply Hu. intros i -> Hp. by constructor.
  - cbn. unfold G. rewrite map_lookup_filter. destruct (instances d !! id) as [i|] eqn:E; cbn; [|done].
    case_guard; cbn; [by left|]. exists cutoff. split; [done|]. by destruct (collectable cutoff i).
Qed.

(** ** The operations of a workflow *)

(** Anything that may run on some node: the requests of the API, the steps of
    Workers, the driver, heartbeats and the collection of old instances; [entries] are the
    programs the Workers may have deployed. *)
Inductive operation (entries : (string -> Prog) -> Prop) : Op unit -> Prop :=
| op_create definition key group input : operation entries (ignore (create_instance_in_group definition key group input))
| op_pause id : operation entries (ignore (pause id))
| op_resume id : operation entries (ignore (resume id))
| op_terminate id : operation entries (ignore (terminate id))
| op_restart id : operation entries (ignore (restart id))
| op_signal id name payload : operation entries (ignore (send_signal id name payload))
| op_lookup id lease name : operation entries (ignore (step_lookup id lease name))
| op_record id lease name st res error attempts : operation entries (ignore (step_record id lease name st res error attempts))
| op_sleep id lease name duration : operation entries (ignore (step_sleep id lease name duration))
| op_wait fuel id lease name : operation entries (ignore (step_signal fuel id lease name))
| op_drive error_text fuel entry node max : entries entry -> operation entries (drive error_text fuel entry node max)
| op_heartbeat beats id lease : operation entries (heartbeat beats id lease)
| op_cron definition input minute : operation entries (cron_round definition input minute)
| op_collect spec : operation entries (collect spec).

(** What the statements of these operations have in common. *)
Definition proper (s : Stmt) : Prop :=
  match s with
  | Transition _ target from _ => (target = SPaused /\ from = [Queued; Running; Waiting]) \/ (target = Queued /\ from = [SPaused])
  | Park _ _ sleep waiting _ => is_Some waiting
  | RecordStep _ _ st _ _ _ _ _ => st <> Slept
  | _ => True
  end.

Definition not_collect (s : Stmt) : Prop := match s with Collect _ => False | _ => True end.
Definition free (s : Stmt) : Prop :=
  match s with InsertSignal _ _ _ _ _ | Park _ _ None _ _ => False | _ => True end.
Definition not_finish (s : Stmt) : Prop := match s with FinishInstance _ _ _ _ => False | _ => True end.
Definition not_claim (s : Stmt) : Prop := match s with ClaimInstance _ _ _ _ _ _ _ => False | _ => True end.

(** Statements that none of the theorems is about. *)
Definition plain (s : Stmt) : Prop := proper s /\ not_collect s /\ not_finish s /\ free s /\ not_claim s.

Ltac issuing := intros; cbn [claim_id claim_instance claim_lease]; eauto 40 with issues.

(** The statements of each operation, by the statements of its parts. *)
Section statements.
Context (P : Stmt -> Prop) (HP : forall s, plain s -> P s).

#[local] Hint Extern 0 (P _) => apply HP; unfold plain; cbn; auto 10; fail : issues.

Lemma issues_append_event id k detail : issues P (append_event id k detail).
Proof. unfold append_event. issuing. Qed.
#[local] Hint Resolve issues_append_event : issues.
Lemma issues_instance id : issues P (instance id).
Proof. unfold instance, ensure_schema. issuing. Qed.
Lemma issues_by_key k : issues P (instance_by_key k).
Proof. unfold instance_by_key. issuing. Qed.
Lemma issues_validate id lease name : issues P (validate_step_request id lease name).
Proof. unfold validate_step_request. issuing. Qed.
#[local] Hint Resolve issues_instance issues_by_key issues_validate : issues.

Lemma issues_create definition key group input : issues P (create_instance_in_group definition key group input).
Proof. unfold create_instance_in_group, ensure_schema. issuing. Qed.
#[local] Hint Resolve issues_create : issues.
Lemma issues_cron definition input minute : issues P (cron_round definition input minute).
Proof. unfold cron_round, create_instance, ignore. issuing. Qed.
Lemma issues_pause id : issues P (pause id).
Proof. unfold pause, transition, ensure_schema. issuing. Qed.
Lemma issues_resume id : issues P (resume id).
Proof. unfold resume, transition, ensure_schema. issuing. Qed.
Lemma issues_terminate id : issues P (terminate id).
Proof. unfold terminate. issuing. Qed.
Lemma issues_restart id : issues P (restart id).
Proof. unfold restart, ensure_schema. issuing. Qed.
Lemma issues_step_lookup id lease name : issues P (step_lookup id lease name).
Proof. unfold step_lookup. issuing. Qed.
Lemma issues_step_record id lease name st res error attempts : issues P (step_record id lease name st res error attempts).
Proof.
  unfold step_record. apply issues_bind; [issuing|]. intros _. destruct (parse_step_status st) as [x|] eqn:E; [|issuing].
  assert (x <> Slept). { unfold parse_step_status in E. repeat case_match; by simplify_eq. }
  issuing.
Qed.
Lemma issues_park id lease wake waiting : is_Some waiting -> issues P (park id lease (Some wake) waiting).
Proof. unfold park. issuing. Qed.
#[local] Hint Resolve issues_step_lookup issues_step_record issues_park : issues.
Lemma issues_step_sleep id lease name duration : issues P (step_sleep id lease name duration).
Proof. unfold step_sleep. issuing. Qed.
#[local] Hint Resolve issues_step_sleep : issues.
Lemma issues_claim_one node max :
  (forall id lease until now group limit, P (ClaimInstance id lease until now max group limit)) -> issues P (claim_one node max).
Proof. unfold claim_one, ensure_schema. issuing. Qed.
Lemma issues_heartbeat beats id lease : issues P (heartbeat beats id lease).
Proof. induction beats as [|beats IH]; cbn [heartbeat]; unfold renew; issuing. Qed.
#[local] Hint Resolve issues_claim_one issues_heartbeat issues_cron issues_pause issues_resume issues_terminate issues_restart : issues.

Lemma issues_finish id lease output : (forall now, P (FinishInstance id lease output now)) -> issues P (finish id lease output).
Proof. unfold finish. issuing. Qed.
Lemma issues_fail_terminal id lease error : issues P (fail_terminal id lease error).
Proof. unfold fail_terminal. issuing. Qed.
#[local] Hint Resolve issues_finish issues_fail_terminal : issues.
Lemma issues_fail_system retries id lease error : issues P (fail_system retries id lease error).
Proof. unfold fail_system. issuing. Qed.
#[local] Hint Resolve issues_fail_system : issues.

Lemma issues_call {A} error_text (m : Op A) : issues P m -> issues P (call error_text m).
Proof. intros Hm. unfold call. issuing. Qed.
#[local] Hint Resolve issues_call : issues.
Lemma issues_attempts name attempt more : issues P (attempts_loop name attempt more).
Proof. revert attempt. induction more as [|more IH]; intros attempt; cbn; intros [v|[[] e]]; cbn; auto. Qed.
#[local] Hint Resolve issues_attempts : issues.
Lemma issues_do_step error_text id lease name limit : issues P (do_step error_text id lease name limit).
Proof. unfold do_step. issuing. Qed.
#[local] Hint Resolve issues_do_step : issues.

(** The operations that send or await signals. *)
Section signalling.
Context (HS : forall sid id name payload now, P (InsertSignal sid id name payload now)).
Context (HW : forall id lease name now, P (Park id lease None (Some name) now)).
#[local] Hint Resolve HS HW : issues.

Lemma issues_send_signal id name payload : issues P (send_signal id name payload).
Proof. unfold send_signal. issuing. Qed.
#[local] Hint Resolve issues_send_signal : issues.
Lemma issues_wait_signal id lease name : issues P (wait_signal id lease name).
Proof. unfold wait_signal, park. issuing. Qed.
#[local] Hint Resolve issues_wait_signal : issues.
Lemma issues_signal_loop fuel id lease name : issues P (signal_loop fuel id lease name).
Proof. induction fuel as [|fuel IH]; cbn [signal_loop]; issuing. Qed.
#[local] Hint Resolve issues_signal_loop : issues.
Lemma issues_step_signal fuel id lease name : issues P (step_signal fuel id lease name).
Proof. unfold step_signal. issuing. Qed.
#[local] Hint Resolve issues_step_signal : issues.
Lemma issues_run_prog error_text fuel id lease p : issues P (run_prog error_text fuel id lease p).
Proof. induction p as [o|e|name limit k IH|name duration k IH|name k IH]; cbn [run_prog]; issuing. Qed.
#[local] Hint Resolve issues_run_prog : issues.
Lemma issues_dispatch error_text fuel entry c : issues P (dispatch error_text fuel entry c).
Proof. unfold dispatch. issuing. Qed.
#[local] Hint Resolve issues_dispatch : issues.
Lemma issues_advance error_text fuel entry c :
  (forall id lease output now, P (FinishInstance id lease output now)) -> issues P (advance error_text (dispatch error_text fuel entry) c).
Proof. unfold advance. issuing. Qed.
#[local] Hint Resolve issues_advance : issues.

Lemma issues_operation entries t :
  (forall cutoff, P (Collect cutoff)) -> (forall id lease output now, P (FinishInstance id lease output now)) ->
  (forall id lease until now max group limit, P (ClaimInstance id lease until now max group limit)) ->
  operation entries t -> issues P t.
Proof. intros HC HF HL. destruct 1; unfold drive, collect; issuing. Qed.
End signalling.
End statements.

Definition any_entry (_ : string -> Prog) : Prop := True.

Lemma operation_proper entries t : operation entries t -> issues proper t.
Proof. intros Ho. eapply issues_operation; [by intros s [? _] | .. | exact Ho]; cbn; eauto. Qed.

(** ** The life of an instance *)

(** What the columns of an instance say together. *)
Definition life_ok (l : Life) : Prop :=
  match status l with
  | Queued => is_Some (sleep_until_ms l) /\ lease_token l = None /\ finished_at_ms l = None
  | Running => is_Some (lease_token l) /\ is_Some (lease_until_ms l) /\ finished_at_ms l = None
  | Waiting => is_Some (waiting_for l) /\ lease_token l = None /\ finished_at_ms l = None
  | SPaused => lease_token l = None /\ finished_at_ms l = None
  | Complete => is_Some (output_json l) /\ lease_token l = None /\ is_Some (finished_at_ms l)
  | SFailed => is_Some (last_error l) /\ lease_token l = None /\ is_Some (finished_at_ms l)
  | Terminated => lease_token l = None /\ is_Some (finished_at_ms l)
  end.

Lemma holds_running lease l : holds lease l = true -> status l = Running /\ lease_token l = Some lease.
Proof. unfold holds. intros [Hs Hl]%andb_prop. by to_prop. Qed.

Lemma moves_ok d id l s l' : proper s -> moves d id l s l' -> life_ok l -> life_ok l'.
Proof.
  intros Hp Hm Hl. destruct Hm; unfold life_ok in *; cbn in *; try (by eauto);
    try (match goal with H : holds _ _ = true |- _ => apply holds_running in H as [Hs Hk]; rewrite Hs in Hl; rewrite ?Hs; naive_solver end).
  - destruct Hp as [[-> ->]|[-> ->]]; cbn; repeat (apply elem_of_cons in H as [H|H]; [rewrite H in Hl; naive_solver|]); by apply elem_of_nil in H.
  - rewrite H in Hl. naive_solver.
  - rewrite H in Hl. naive_solver.
  - unfold expired in H. apply andb_prop in H as [Hs _]. to_prop. rewrite Hs in Hl. naive_solver.
  - unfold due in H. apply andb_prop in H as [Hs _]. apply orb_prop in Hs as [Hs|Hs]; to_prop; rewrite Hs in Hl; naive_solver.
Qed.

Definition db_ok (d : Db) : Prop := map_Forall (fun _ i => life_ok (life i)) (instances d).

Lemma run_ok d s : proper s -> db_ok d -> db_ok (apply run d s).
Proof.
  intros Hp Hd id i' Hi'. pose proof (run_instances d s id) as Hr. rewrite Hi' in Hr.
  destruct (instances d !! id) as [i|] eqn:E.
  - destruct Hr as [->|(l & -> & Hm)]; [by eapply Hd|]. eapply moves_ok; [done | exact Hm |]. by eapply Hd.
  - destruct Hr as (c & now & -> & ->). by cbn.
Qed.

Definition wf_reachable (faults : Prop) (s : Sys Db Stmt Question Answer WfError) : Prop :=
  reachable run (operation any_entry) faults empty_db s.

Lemma reachable_lives faults s : wf_reachable faults s -> db_ok (state s).
Proof.
  intros Hr. eapply (reachable_keeps run (operation any_entry) faults db_ok proper) in Hr as [Hd _];
    [exact Hd | apply operation_proper | apply run_ok | by intros id i].
Qed.

(** C7: No instance is ever stranded: after any interleaving of operations, with lost
    statements, lost answers and crashed nodes, an instance has ended, is paused by its
    owner, waits for a signal it names, can be claimed from some time on, or runs under
    a lease whose expiry makes it claimable. *)
Theorem no_instance_is_stranded s id i :
  wf_reachable True s -> instances (state s) !! id = Some i ->
  let l := life i in
  ended (status l) = true \/ status l = SPaused \/
  (status l = Waiting /\ is_Some (waiting_for l) /\ sleep_until_ms l = None) \/
  (exists t, forall now, t <= now -> due now l = true) \/
  (exists u, lease_until_ms l = Some u /\ forall now, u <= now ->
     exists i', instances (apply run (state s) (RequeueExpired now)) !! id = Some i' /\
       forall now', now <= now' -> due now' (life i') = true).
Proof.
  intros Hr Hi l. assert (Hl : life_ok l) by (eapply reachable_lives in Hr; by eapply Hr). unfold life_ok in Hl.
  assert (Hdue : forall l t, status l = Queued \/ status l = Waiting -> sleep_until_ms l = Some t ->
    forall now, t <= now -> due now l = true).
  { intros l' t Hs Ht now Hn. unfold due. rewrite Ht. apply andb_true_intro. split; [|by apply Z.leb_le].
    destruct Hs as [Hs|Hs]; rewrite Hs; done. }
  destruct (status l) eqn:Es; try (by left); try (by right; left).
  - destruct Hl as [[t Ht] _]. do 3 right. left. exists t. apply (Hdue l t); auto.
  - destruct Hl as (_ & [u Hu] & _). do 4 right. exists u. split; [done|]. intros now Hn.
    exists (with_life i (to_queue l now)). split.
    + unfold apply. cbn [run instances set_instances]. rewrite lookup_fmap, Hi. cbn. unfold expired. fold l. rewrite Es, Hu.
      by rewrite (proj2 (Z.leb_le u now) Hn).
    + apply (Hdue (to_queue l now) now); auto.
  - destruct Hl as ([w Hw] & _). destruct (sleep_until_ms l) as [t|] eqn:Et.
    + do 3 right. left. exists t. apply (Hdue l t); auto.
    + do 2 right. left. rewrite Hw. eauto.
Qed.

(** ** Concurrency *)

Definition claims_at_most (max : Z) (s : Stmt) : Prop :=
  match s with ClaimInstance _ _ _ _ m _ _ => m = max | _ => True end.

Lemma filter_size_le {A} (m m' : gmap string A) (P : A -> bool) :
  (forall id a', m' !! id = Some a' -> P a' = true -> exists a, m !! id = Some a /\ P a = true) ->
  (size (filter (fun ir => P ir.2 = true) m') <= size (filter (fun ir => P ir.2 = true) m))%nat.
Proof.
  intros H. rewrite <- !size_dom. apply subseteq_size. intros id Hid.
  apply elem_of_dom in Hid as [a' [Ha' Hp]%map_lookup_filter_Some]. destruct (H id a' Ha' Hp) as (a & Ha & Hpa).
  apply elem_of_dom. exists a. by apply map_lookup_filter_Some.
Qed.

Lemma filter_size_insert {A} (m m' : gmap string A) (P : A -> bool) x :
  (forall id a', m' !! id = Some a' -> P a' = true -> id = x \/ exists a, m !! id = Some a /\ P a = true) ->
  (size (filter (fun ir => P ir.2 = true) m') <= S (size (filter (fun ir => P ir.2 = true) m)))%nat.
Proof.
  intros H. destruct (m' !! x) as [ax|] eqn:Ex.
  - transitivity (size (<[x := ax]> (filter (fun ir => P ir.2 = true) m))).
    + rewrite <- !size_dom. apply subseteq_size. intros id Hid. apply elem_of_dom in Hid as [a' [Ha' Hp]%map_lookup_filter_Some].
      apply elem_of_dom. destruct (decide (id = x)) as [->|Hne]; [rewrite lookup_insert_eq; eauto|]. rewrite lookup_insert_ne by done.
      destruct (H id a' Ha' Hp) as [|(a & Ha & Hpa)]; [done|]. exists a. by apply map_lookup_filter_Some.
    + rewrite map_size_insert. case_match; unfold id; lia.
  - transitivity (size (filter (fun ir => P ir.2 = true) m)); [|lia]. apply filter_size_le. intros id a' Ha' Hp.
    destruct (H id a' Ha' Hp) as [->|]; [by rewrite Ex in Ha' | done].
Qed.

Lemma running_moves d id l s l' : proper s -> moves d id l s l' -> status l' = Running -> status l = Running \/
  exists lease until now max group limit, s = ClaimInstance id lease until now max group limit /\ room d max group limit = true.
Proof.
  intros Hp. destruct 1; cbn; intros Hr; try done; try (left; by apply holds_running in H as [Hs _]); eauto 12.
  subst target. destruct Hp as [[? _]|[? _]]; done.
Qed.

Lemma running_after d s id i' : proper s -> instances (apply run d s) !! id = Some i' -> running i' = true ->
  (exists i, instances d !! id = Some i /\ running i = true) \/
  exists lease until now max group limit, s = ClaimInstance id lease until now max group limit /\ room d max group limit = true.
Proof.
  intros Hp Hi' Hr. pose proof (run_instances d s id) as H. rewrite Hi' in H. unfold running in *. to_prop.
  destruct (instances d !! id) as [i|] eqn:E.
  - destruct H as [->|(l & -> & Hm)]; [left; exists i; split; [done|]; by to_prop; apply bool_decide_eq_true|].
    destruct (running_moves _ _ _ _ _ Hp Hm Hr) as [Hs|Hc]; [left; exists i; split; [done|]; by apply bool_decide_eq_true | by right].
  - by destruct H as (c & now & -> & ->).
Qed.

Lemma run_bounded max d s :
  0 < max -> proper s -> claims_at_most max s -> count running (instances d) <= max -> count running (instances (apply run d s)) <= max.
Proof.
  intros Hm Hp Hc Hd. pose proof (running_after d s) as Ha. unfold count in *.
  destruct s; try (transitivity (Z.of_nat (size (filter (fun ir => running ir.2 = true) (instances d)))); [|done];
    apply inj_le, filter_size_le; intros id' a' Ha' Hr; destruct (Ha id' a' Hp Ha' Hr) as [|Hx]; [done | naive_solver]; fail).
  cbn in Hc. subst. destruct (room d max group limit) eqn:Er.
  - assert (Hlt : Z.of_nat (size (filter (fun ir => running ir.2 = true) (instances d))) < max).
    { unfold room, count in Er. apply andb_prop in Er as [Er _]. apply orb_prop in Er as [Er|Er]; to_prop; lia. }
    enough (size (filter (fun ir => running ir.2 = true) (instances (apply run d (ClaimInstance id lease until now max group limit))))
      <= S (size (filter (fun ir => running ir.2 = true) (instances d))))%nat by lia.
    apply filter_size_insert with (x := id). intros id' a' Ha' Hr. destruct (Ha id' a' Hp Ha' Hr) as [|Hx]; [by right|].
    left. by destruct Hx as (? & ? & ? & ? & ? & ? & [= <- _ _ _ _ _ _] & _).
  - unfold apply. cbn [run]. by rewrite Er.
Qed.

(** At most [max] instances run at once, when every driver of the workflow has the same
    positive limit, whatever fails in between. *)
Theorem concurrency_is_bounded max s :
  0 < max ->
  reachable run (fun t => operation any_entry t /\ issues (claims_at_most max) t) True empty_db s ->
  count running (instances (state s)) <= max.
Proof.
  intros Hm Hr.
  eapply (reachable_keeps run _ True (fun d => count running (instances d) <= max) (fun s => proper s /\ claims_at_most max s)) in Hr
    as [Hd _]; [exact Hd | | |].
  - intros t [Ho Hc]. apply operation_proper in Ho. by apply issues_and.
  - intros d s' [Hp Hc] Hd. by apply run_bounded.
  - unfold count. cbn. rewrite map_filter_empty, map_size_empty. lia.
Qed.

(** ** Recorded steps *)

(** What no statement but the collection of old instances takes back: the result of
    a completed step, and the configuration of an instance. *)
Definition retains (d d' : Db) : Prop :=
  (forall k x, steps d !! k = Some x -> step_status x = StepOk ->
     exists x', steps d' !! k = Some x' /\ step_status x' = StepOk /\ result_json x' = result_json x) /\
  (forall id i, instances d !! id = Some i -> exists i', instances d' !! id = Some i' /\ config i' = config i).

#[export] Instance retains_pre : PreOrder retains.
Proof.
  split.
  - intros d. split; eauto.
  - intros d1 d2 d3 [Hs1 Hi1] [Hs2 Hi2]. split.
    + intros k x Hx Ho. destruct (Hs1 k x Hx Ho) as (x2 & Hx2 & Ho2 & Hr2). destruct (Hs2 k x2 Hx2 Ho2) as (x3 & Hx3 & Ho3 & Hr3).
      exists x3. by rewrite Hr3.
    + intros id i Hi. destruct (Hi1 id i Hi) as (i2 & Hi2' & Hc2). destruct (Hi2 id i2 Hi2') as (i3 & Hi3 & Hc3). exists i3. by rewrite Hc3.
Qed.

Lemma let_fst (p : Db * Z) : (let (d, _) := p in d) = p.1.
Proof. by destruct p. Qed.

(** A statement on the steps leaves those completed. *)
Lemma run_steps d s k x :
  not_collect s -> steps d !! k = Some x -> step_status x = StepOk ->
  exists x', steps (apply run d s) !! k = Some x' /\ step_status x' = StepOk /\ result_json x' = result_json x.
Proof.
  intros Hn Hx Ho. assert (Hid : exists x', steps d !! k = Some x' /\ step_status x' = StepOk /\ result_json x' = result_json x) by eauto.
  assert (Hins : forall key y, (forall z, steps d !! key = Some z -> step_status z <> StepOk) ->
    exists x', <[key := y]> (steps d) !! k = Some x' /\ step_status x' = StepOk /\ result_json x' = result_json x).
  { intros key y Hz. rewrite lookup_insert_ne; [eauto|]. intros ->. by apply (Hz x). }
  unfold apply. destruct s as [| | |id0| | | |id0 n st r e at_ now l|id0 n w now l|id0 n now| | | | | | | | | | |]; try done; cbn [run];
    rewrite ?let_fst, ?update_where_steps; auto; try (repeat case_match; simplify_eq; rewrite ?update_where_steps; auto; fail).
  - destruct (match instances d !! id0 with Some i => _ | None => _ end); [|auto]. exists x. split; [|done].
    apply map_lookup_filter_Some. split; [done|]. cbn. intros [_ Hf]. congruence.
  - destruct (held d id0 l); [|auto]. destruct (steps d !! (id0, n)) as [y|] eqn:Ey.
    + destruct (bool_decide (step_status y = StepOk)) eqn:Eo; [auto|]. to_prop. apply Hins. intros z Hz. congruence.
    + apply Hins. congruence.
  - destruct (held d id0 l); cbn [andb]; [|auto]. destruct (steps d !! (id0, n)) as [y|] eqn:Ey; [done|]. apply Hins. congruence.
  - destruct (steps d !! (id0, n)) as [y|] eqn:Ey; [|auto]. cbn. destruct (decide (k = (id0, n))) as [->|Hne].
    + rewrite lookup_insert_eq. rewrite Hx in Ey. injection Ey as <-. eexists. by split_and!.
    + rewrite lookup_insert_ne by done. auto.
Qed.

Lemma run_retains d s : not_collect s -> retains d (apply run d s).
Proof.
  intros Hn. split; [intros; by eapply run_steps|]. intros id i Hi. pose proof (run_instances d s id) as Hr. rewrite Hi in Hr.
  destruct (instances (apply run d s) !! id) as [i'|].
  - exists i'. split; [done|]. by destruct Hr as [->|(l & -> & _)].
  - by destruct Hr as (cutoff & -> & _).
Qed.

(** Rules for the parts of operations. *)
Section rules.
Context (asks_ok : Question -> Db -> Prop) (execs_ok : Stmt -> Db -> Prop).
Notation wp := (Script.wp run retains asks_ok execs_ok).

Lemma wp_select {X} (q : Db -> X) (post : X -> Db -> Prop) epost d :
  (forall d1, retains d d1 -> post (q d1) d1 /\ epost Unavailable d1) -> wp (select q : Op X) post epost d.
Proof. intros H d1 Hr. split; by apply H. Qed.

Lemma wp_exec s (post : Z -> Db -> Prop) epost d :
  (forall d1, retains d d1 -> execs_ok s d1 /\
     match affected run d1 s with Some n => post n (apply run d1 s) | None => epost Unavailable (apply run d1 s) end /\
     epost Unavailable d1 /\ epost Unavailable (apply run d1 s)) ->
  wp (exec s : Op Z) post epost d.
Proof. intros H d1 Hr. destruct (H d1 Hr) as (Hx & Hp & He & He'). split_and!; try done. by destruct (affected run d1 s). Qed.

Lemma wp_check r (post : unit -> Db -> Prop) (epost : WfError -> Db -> Prop) d :
  (r = Ok tt -> post tt d) -> (forall e, epost e d) -> wp (check r : Op unit) post epost d.
Proof. intros Hp He. destruct r as [[]|e]; cbn; auto. Qed.

Lemma wp_guard b e (post : unit -> Db -> Prop) (epost : WfError -> Db -> Prop) d :
  (b = true -> post tt d) -> epost e d -> wp (guard b e : Op unit) post epost d.
Proof. intros Hp He. destruct b; cbn; auto. Qed.

(** Statements that need no care: any outcome is as good as another. *)
Lemma wp_any {A} (m : Op A) (post : A -> Db -> Prop) (epost : WfError -> Db -> Prop) (I : Db -> Prop) d :
  (forall q d, asks_ok q d) -> issues (fun s => forall d, execs_ok s d /\ retains d (apply run d s)) m ->
  (forall d d', retains d d' -> I d -> I d') -> I d ->
  (forall a d, I d -> post a d) -> (forall e d, I d -> epost e d) -> wp m post epost d.
Proof.
  intros Ha Hm HI Hd Hp He. apply goes_issues in Hm. eapply wp_mono; [| |by apply (wp_stable run retains asks_ok execs_ok m I (fun _ => True))].
  - intros a d' [_ H]. auto.
  - auto.
Qed.

Lemma wp_validate id lease name (post : unit -> Db -> Prop) (epost : WfError -> Db -> Prop) d :
  (forall d1, retains d d1 -> post tt d1) -> (forall e d1, retains d d1 -> epost e d1) ->
  wp (validate_step_request id lease name) post epost d.
Proof.
  intros Hp He. apply wp_bind, wp_check; [|intros; by apply He]. intros _. apply wp_bind, wp_select. intros d1 Hr.
  split; [|by apply He]. apply wp_guard; [intros _; by apply Hp | by apply He].
Qed.

(** What [step_lookup] answers is in the table. *)
Definition cached (d : Db) (id name v : string) : Prop :=
  exists x, steps d !! (id, name) = Some x /\ step_status x = StepOk /\ default "null" (result_json x) = v.

Lemma cached_retained d d' id name v : retains d d' -> cached d id name v -> cached d' id name v.
Proof. intros [Hs _] (x & Hx & Ho & Hv). destruct (Hs _ _ Hx Ho) as (x' & Hx' & Ho' & Hr). exists x'. by rewrite Hr. Qed.

Lemma wp_lookup id lease name (post : Lookup -> Db -> Prop) (epost : WfError -> Db -> Prop) d :
  (forall r d1, retains d d1 -> match r with Cached v => cached d1 id name v | _ => forall v, ~ cached d1 id name v end -> post r d1) ->
  (forall e d1, retains d d1 -> epost e d1) -> wp (step_lookup id lease name) post epost d.
Proof.
  intros Hp He. apply wp_bind, wp_validate; [|done]. intros d1 Hr1. apply wp_bind, wp_select. intros d2 Hr2.
  assert (Hr : retains d d2) by by etransitivity. split; [|by apply He]. cbn. apply Hp; [done|]. unfold cached.
  destruct (steps d2 !! (id, name)) as [x|]; [|by intros v (y & [=] & _)].
  destruct (step_status x) eqn:Es; [by eauto | intros v (y & [= <-] & Ho & _); congruence..].
Qed.
End rules.


(** ** The output of a workflow *)

(** The value of a program on the recorded steps: the results of its steps are those in the
    table; what a failed step, a sleep or a signal gives is open. *)
Inductive follows (d : Db) (id : string) : Prog -> string -> Prop :=
| follows_return o : follows d id (Return o) o
| follows_do name limit k v o : cached d id name v -> follows d id (k (Ok v)) o -> follows d id (Do name limit k) o
| follows_do_failed name limit k e o : follows d id (k (Err e)) o -> follows d id (Do name limit k) o
| follows_sleep name duration k r o : follows d id (k r) o -> follows d id (Sleep name duration k) o
| follows_signal name k r o : follows d id (k r) o -> follows d id (WaitForSignal name k) o.

Lemma follows_retained d d' id p o : retains d d' -> follows d id p o -> follows d' id p o.
Proof.
  intros Hr. induction 1; [constructor | | by eapply follows_do_failed | by eapply follows_sleep | by eapply follows_signal].
  eapply follows_do; [by eapply cached_retained | done].
Qed.

Section output.
Context (entry : string -> Prog).

(** A finished instance has an output its program gives. *)
Definition finish_ok (s : Stmt) (d : Db) : Prop :=
  proper s /\ not_collect s /\
  match s with
  | FinishInstance id _ o _ => forall i, instances d !! id = Some i -> follows d id (entry (input_json (config i))) o
  | _ => True
  end.
Notation wp := (Script.wp run retains (fun _ _ => True) finish_ok).

Lemma finish_ok_retains s d : finish_ok s d -> retains d (apply run d s).
Proof. intros (_ & Hn & _). by apply run_retains. Qed.

Lemma plain_ok s : plain s -> forall d, finish_ok s d /\ retains d (apply run d s).
Proof. intros (Hp & Hc & Hf & _) d. split; [split_and!; [done | done |] | by apply run_retains]. by destruct s. Qed.

Lemma sending_ok s : not_collect s -> not_finish s -> proper s -> forall d, finish_ok s d /\ retains d (apply run d s).
Proof. intros Hc Hf Hp d. split; [split_and!; [done | done |] | by apply run_retains]. by destruct s. Qed.

(** Operations that do not finish instances, under what interference cannot take away. *)
Lemma wp_plain {A} (m : Op A) (post : A -> Db -> Prop) (epost : WfError -> Db -> Prop) (I : Db -> Prop) d :
  issues (fun s => forall d, finish_ok s d /\ retains d (apply run d s)) m ->
  (forall d d', retains d d' -> I d -> I d') -> I d ->
  (forall a d, I d -> post a d) -> (forall e d, I d -> epost e d) -> wp m post epost d.
Proof. intros Hm HI Hd Hp He. by eapply wp_any. Qed.

Lemma record_ok d id name v attempts now lease n :
  affected run d (RecordStep id name StepOk (Some v) None attempts now lease) = Some n -> n <> 0 ->
  cached (apply run d (RecordStep id name StepOk (Some v) None attempts now lease)) id name v.
Proof.
  unfold affected, apply. cbn [run]. destruct (held d id lease); [|intros [= <-]; done].
  destruct (steps d !! (id, name)) as [x|] eqn:Ex.
  - destruct (bool_decide _); [intros [= <-]; done|]. intros _ _. eexists. cbn. rewrite lookup_insert_eq. by split_and!.
  - intros _ _. eexists. cbn. rewrite lookup_insert_eq. by split_and!.
Qed.

Lemma wp_record_ok id lease name v attempts d :
  wp (step_record id lease name "ok" (Some v) None attempts) (fun _ d' => cached d' id name v) (fun _ _ => True) d.
Proof.
  apply wp_bind, wp_validate; [|done]. intros d1 _. change (parse_step_status "ok") with (Some StepOk). cbn iota.
  apply wp_bind, wp_check; [|done]. intros _. cbn [now_ms Script.bind Script.wp]. intros now.
  apply wp_bind, wp_exec. intros d2 _. split_and!; try done.
  destruct (affected run d2 _) as [n|] eqn:En; [|done]. destruct (Z.eqb_spec n 0) as [->|Hn].
  - apply wp_bind, wp_select. intros d3 _. split; [|done]. apply wp_guard; [|done]. intros Hg.
    destruct (steps d3 !! (id, name)) as [x|] eqn:Ex; [|done]. apply andb_prop in Hg as [[Hs Hv]%andb_prop _]. to_prop.
    exists x. by rewrite Hs, Hv.
  - apply (wp_plain _ _ _ (fun d => cached d id name v)); [apply issues_append_event, plain_ok | | by eapply record_ok | done | done].
    intros ? ? Hr Hc. by eapply cached_retained.
Qed.

Lemma wp_call {A} error_text (m : Op A) (post : result A string -> Db -> Prop) epost d :
  wp m (fun a => post (Ok a)) (fun e => post (Err ("WORKFLOW_STEP_ERROR: 422 " ++ error_text e)%string)) d ->
  wp (call error_text m) post epost d.
Proof. intros Hm. apply wp_bind, wp_catch. exact Hm. Qed.

Lemma wp_attempts name attempt more (post : Z * result string string -> Db -> Prop) d :
  (forall r d, post r d) -> wp (attempts_loop name attempt more) post (fun _ _ => True) d.
Proof.
  intros Hp. apply (wp_plain _ _ _ (fun _ => True)); auto. apply issues_attempts.
Qed.

Lemma wp_do_step error_text id lease name limit d :
  wp (do_step error_text id lease name limit)
    (fun r d' => match r with Ok v => cached d' id name v | Err _ => True end) (fun _ _ => True) d.
Proof.
  apply wp_bind, wp_call, wp_lookup; [|done]. intros r d1 _ Hc. destruct r as [v|e|]; [done | done |].
  apply wp_bind, wp_attempts. intros [n [v|e]] d2; apply wp_bind, wp_call.
  - eapply wp_mono; [| |apply wp_record_ok]; done.
  - apply (wp_plain _ _ _ (fun _ => True)); try done. apply issues_step_record, plain_ok.
Qed.

Lemma wp_run_prog error_text fuel id lease p d :
  wp (run_prog error_text fuel id lease p)
    (fun r d' => match r with AComplete o => follows d' id p o | _ => True end) (fun _ _ => True) d.
Proof.
  revert d. induction p as [o|e|name limit k IH|name duration k IH|name k IH]; intros d; cbn [run_prog]; [constructor | done | | |].
  - apply wp_bind. eapply wp_mono; [| |apply wp_do_step]; [|done]. intros r d1 Hc.
    eapply wp_mono; [| |eapply (wp_keeps run retains _ finish_ok _ _ _ d1); [apply finish_ok_retains | reflexivity | apply IH]]; [|done].
    intros [o| |e] d2 [Hr Hf]; try done. destruct r as [v|e]; [|by eapply follows_do_failed].
    eapply follows_do; [by eapply cached_retained | done].
  - apply wp_bind, wp_call, (wp_plain _ _ _ (fun _ => True)); try done; [apply issues_step_sleep, plain_ok | |].
    + intros [|w] d1 _; [|done]. eapply wp_mono; [| |apply (IH (Ok tt))]; [|done]. intros [o| |e] d2 Hf; try done. by eapply follows_sleep.
    + intros e d1 _. eapply wp_mono; [| |apply (IH (Err _))]; [|done]. intros [o| |e'] d2 Hf; try done. by eapply follows_sleep.
  - apply wp_bind, wp_call, (wp_plain _ _ _ (fun _ => True)); try done; [apply issues_step_signal; [apply plain_ok | intros; apply sending_ok; cbn; eauto..] | |].
    + intros [v|] d1 _; [|done]. eapply wp_mono; [| |apply (IH (Ok v))]; [|done]. intros [o| |e] d2 Hf; try done. by eapply follows_signal.
    + intros e d1 _. eapply wp_mono; [| |apply (IH (Err _))]; [|done]. intros [o| |e'] d2 Hf; try done. by eapply follows_signal.
Qed.

(** A claim knows the configuration of its instance. *)
Definition claim_ok (c : WfClaim) (d : Db) : Prop :=
  exists i, instances d !! claim_id c = Some i /\ config i = config (claim_instance c).

Lemma claim_ok_retained c d d' : retains d d' -> claim_ok c d -> claim_ok c d'.
Proof. intros [_ Hi] (i & Hc & Heq). destruct (Hi _ _ Hc) as (i' & Hi' & Hc'). exists i'. by rewrite Hc'. Qed.

Lemma wp_claim_one node max d :
  wp (claim_one node max) (fun r d' => match r with Some c => claim_ok c d' | None => True end) (fun _ _ => True) d.
Proof.
  apply wp_bind, wp_select. intros d1 _. split; [|done]. cbn [now_ms Script.bind Script.wp]. intros now.
  apply wp_bind, (wp_plain _ _ _ (fun _ => True)); try done; [by apply issues_exec, sending_ok|]. intros _ d2 _.
  apply wp_bind, wp_select. intros d3 _. split; [|done]. destruct (candidate now d3) as [[id i]|]; [|done].
  cbn [new_id Script.bind Script.wp]. intros raw.
  apply wp_bind, (wp_plain _ _ _ (fun _ => True)); try done; [by apply issues_exec, sending_ok|]. intros n d4 _.
  destruct (negb (n =? 1)); [done|]. apply wp_bind, wp_bind, wp_select. intros d5 _. split; [|done].
  apply wp_select. intros d6 _. split; [|done]. destruct (instances d6 !! id) as [i'|] eqn:Ei; [|done].
  apply wp_bind, (wp_plain _ _ _ (claim_ok (mkClaim id i' ("lease_" ++ raw)%string))); try done.
  - apply issues_append_event, plain_ok.
  - intros ? ? Hr Hc. by eapply claim_ok_retained.
  - by exists i'.
Qed.

Lemma wp_finish c output d :
  claim_ok c d -> follows d (claim_id c) (entry (input_json (config (claim_instance c)))) output ->
  wp (finish (claim_id c) (claim_lease c) output) (fun _ _ => True) (fun _ _ => True) d.
Proof.
  intros Hc Hf. apply wp_bind, wp_check; [|done]. intros _. cbn [now_ms Script.bind Script.wp]. intros now.
  apply wp_bind, wp_exec. intros d1 Hr. split_and!; try done.
  - split_and!; [done | done |]. intros i Hi. destruct (claim_ok_retained _ _ _ Hr Hc) as (i' & Hi' & Heq). rewrite Hi in Hi'. injection Hi' as <-.
    rewrite Heq. by eapply follows_retained.
  - destruct (affected run d1 _) as [n|]; [|done]. destruct (n =? 1); [|done].
    apply (wp_plain _ _ _ (fun _ => True)); try done. apply issues_append_event, plain_ok.
Qed.

Lemma wp_dispatch error_text fuel c d :
  claim_ok c d ->
  wp (dispatch error_text fuel entry c)
    (fun r d' => claim_ok c d' /\
       match r with AComplete o => follows d' (claim_id c) (entry (input_json (config (claim_instance c)))) o | _ => True end)
    (fun _ _ => True) d.
Proof.
  intros Hc. cbn. intros d1 Hr. split; [done|]. intros [v|[b e]]; [|done]. assert (Hc1 := claim_ok_retained _ _ _ Hr Hc).
  apply wp_bind. eapply wp_mono; [| |eapply (wp_keeps run retains _ finish_ok _ _ _ d1); [apply finish_ok_retains | reflexivity | apply wp_run_prog]]; [|done].
  intros r d2 [Hr2 Hf]. cbn. intros d3 Hr3. split; [done|]. intros [w|[b e]]; [|done]. cbn.
  split; [eapply claim_ok_retained; [|exact Hc1]; by etransitivity|]. destruct r as [o| |e]; try done. by eapply follows_retained.
Qed.

Lemma wp_ignore {A} (m : Op A) d : wp m (fun _ _ => True) (fun _ _ => True) d -> wp (ignore m) (fun _ _ => True) (fun _ _ => True) d.
Proof. intros Hm. by apply wp_bind, wp_catch. Qed.

Lemma wp_trivial {A} (m : Op A) d :
  issues (fun s => forall d, finish_ok s d /\ retains d (apply run d s)) m -> wp m (fun _ _ => True) (fun _ _ => True) d.
Proof. intros Hm. by apply (wp_plain _ _ _ (fun _ => True)). Qed.

Lemma wp_drive error_text fuel node max d :
  wp (drive error_text fuel entry node max) (fun _ _ => True) (fun _ _ => True) d.
Proof.
  apply wp_bind. eapply wp_mono; [| |apply wp_claim_one]; [|done]. intros [c|] d1 Hc; [|done].
  apply wp_bind, wp_catch. eapply wp_mono; [| |by apply wp_dispatch].
  - intros [o| |e] d2 [Hc2 Hf]; [by apply wp_ignore, wp_finish | |].
    + apply wp_trivial. apply issues_bind; [apply issues_catch, issues_instance | intros [[i|]|e]; try done].
      destruct (running i); [|done]. apply issues_ignore, issues_fail_system, plain_ok.
    + apply wp_ignore, wp_trivial, issues_fail_terminal, plain_ok.
  - intros e d2 _. apply wp_ignore, wp_trivial, issues_fail_system, plain_ok.
Qed.

Lemma wp_operation t d :
  operation (eq entry) t -> issues not_collect t -> wp t (fun _ _ => True) (fun _ _ => True) d.
Proof.
  intros Ho Hn. destruct Ho; [apply wp_trivial, issues_ignore..|subst; apply wp_drive|apply wp_trivial|apply wp_trivial|by destruct (Hn 0)];
    first [apply issues_create | apply issues_pause | apply issues_resume | apply issues_terminate | apply issues_restart
      | apply issues_send_signal | apply issues_step_lookup | apply issues_step_record | apply issues_step_sleep
      | apply issues_step_signal | apply issues_heartbeat | apply issues_cron]; first [apply plain_ok | intros; apply sending_ok; cbn; eauto].
Qed.

Definition outputs_ok (d : Db) : Prop := forall id i, instances d !! id = Some i -> status (life i) = Complete ->
  exists o, output_json (life i) = Some o /\ follows d id (entry (input_json (config i))) o.

Lemma run_outputs s d : finish_ok s d -> outputs_ok d -> outputs_ok (apply run d s).
Proof.
  intros Hs Hd id i' Hi' Hc. pose proof (finish_ok_retains _ _ Hs) as Hr. pose proof (run_instances d s id) as H. rewrite Hi' in H.
  destruct (instances d !! id) as [i|] eqn:Ei; [|by destruct H as (c & now & -> & ->)].
  destruct H as [->|(l & -> & Hm)].
  - destruct (Hd id i Ei Hc) as (o & Ho & Hf). exists o. split; [done|]. by eapply follows_retained.
  - destruct Hs as (Hp & _ & Hf). cbn in Hc. destruct Hm; cbn in Hc; try done.
    + subst target. by destruct Hp as [[? _]|[? _]].
    + apply holds_running in H as [H _]. congruence.
    + exists output. split; [done|]. eapply follows_retained; [exact Hr|]. exact (Hf i Ei).
Qed.

End output.

(** ** Idempotency keys *)

Definition keys_unique (d : Db) : Prop := forall id1 id2 i1 i2 key,
  instances d !! id1 = Some i1 -> instances d !! id2 = Some i2 ->
  instance_key (config i1) = Some key -> instance_key (config i2) = Some key -> id1 = id2.

Lemma insert_key_free d id c now i' : instances d !! id = None ->
  instances (apply run d (InsertInstance id c now)) !! id = Some i' -> key_taken d (instance_key c) = false.
Proof.
  intros Hn. unfold apply. cbn [run]. rewrite Hn. destruct (key_taken d (instance_key c)); [|done].
  rewrite orb_true_r. cbn. by rewrite Hn.
Qed.

Lemma key_free d key id i : key_taken d (Some key) = false -> instances d !! id = Some i -> instance_key (config i) <> Some key.
Proof.
  cbn. intros Ht%negb_false_iff Hi Hk. to_prop.
  assert (Hf : filter (fun ir : string * Instance => instance_key (config ir.2) = Some key) (instances d) !! id = Some i)
    by by apply map_lookup_filter_Some.
  by rewrite Ht, lookup_empty in Hf.
Qed.

Lemma run_keys d s : keys_unique d -> keys_unique (apply run d s).
Proof.
  intros Hd id1 id2 i1 i2 key H1 H2 Hk1 Hk2.
  pose proof (run_instances d s id1) as R1. pose proof (run_instances d s id2) as R2. rewrite H1 in R1. rewrite H2 in R2.
  destruct (instances d !! id1) as [j1|] eqn:E1, (instances d !! id2) as [j2|] eqn:E2.
  - assert (config i1 = config j1) as C1 by (by destruct R1 as [->|(? & -> & _)]).
    assert (config i2 = config j2) as C2 by (by destruct R2 as [->|(? & -> & _)]).
    rewrite C1 in Hk1. rewrite C2 in Hk2. by eapply Hd.
  - assert (config i1 = config j1) as C1 by (by destruct R1 as [->|(? & -> & _)]). destruct R2 as (c & now & -> & ->).
    apply insert_key_free in H2; [|done]. cbn in Hk2. rewrite Hk2 in H2. rewrite C1 in Hk1. by eapply key_free in H2.
  - assert (config i2 = config j2) as C2 by (by destruct R2 as [->|(? & -> & _)]). destruct R1 as (c & now & -> & ->).
    apply insert_key_free in H1; [|done]. cbn in Hk1. rewrite Hk1 in H1. rewrite C2 in Hk2. by eapply key_free in H1.
  - destruct R1 as (c & now & -> & ->), R2 as (c2 & now2 & Heq & _). by injection Heq.
Qed.

(** An idempotency key names one instance, however many nodes create it at once and
    whatever fails; in particular a minute of a schedule starts one. *)
Theorem one_instance_per_key s id1 id2 i1 i2 key :
  wf_reachable True s -> instances (state s) !! id1 = Some i1 -> instances (state s) !! id2 = Some i2 ->
  instance_key (config i1) = Some key -> instance_key (config i2) = Some key -> id1 = id2.
Proof.
  intros Hr. eapply (reachable_keeps run _ True keys_unique (fun _ => True)) in Hr as [Hd _];
    [apply Hd | | intros; by apply run_keys | by intros ? ? ? ? ? ?].
  intros t _. clear. induction t; cbn; auto.
Qed.

(** ** Signals *)

(** The next statement of a script wakes an instance that waits for a signal. *)
Fixpoint wakes {A} (id name : string) (m : Op A) : Prop :=
  match m with
  | Exec (WakeWaiting id' _ name') _ => id' = id /\ name' = name
  | Exec (WakeIfSignalled id' name' _) _ => id' = id /\ name' = name
  | ClockRead k => forall z, wakes id name (k z)
  | _ => False
  end.

(** Whoever sends a signal, or parks an instance to wait for one, wakes the instance next. *)
Definition duty {A} (s : Stmt) (k : option Z -> Op A) : Prop :=
  match s with
  | InsertSignal _ id name _ _ => wakes id name (k (Some 1))
  | Park id _ None (Some name) _ => wakes id name (k (Some 1))
  | _ => True
  end.
Fixpoint wakeful {A} (m : Op A) : Prop :=
  match m with
  | Ret _ | Stop _ => True
  | Exec s k => duty s k /\ forall r, wakeful (k r)
  | Read _ k => forall x, wakeful (k x)
  | ClockRead k => forall z, wakeful (k z)
  | Draw k => forall i, wakeful (k i)
  | Ask _ k => forall a, wakeful (k a)
  end.

Lemma wakes_bind {A B} id name (m : Op A) (f : A -> Op B) : wakes id name m -> wakes id name (Script.bind m f).
Proof. induction m as [a|e|s k IH|X q k IH|k IH|k IH|q k IH]; cbn; try done; auto. Qed.
Lemma wakes_catch {A} id name (m : Op A) : wakes id name m -> wakes id name (catch m).
Proof. induction m as [a|e|s k IH|X q k IH|k IH|k IH|q k IH]; cbn; try done; auto. Qed.

Lemma wakeful_bind {A B} (m : Op A) (f : A -> Op B) : wakeful m -> (forall a, wakeful (f a)) -> wakeful (Script.bind m f).
Proof.
  intros Hm Hf. induction m as [a|e|s k IH|X q k IH|k IH|k IH|q k IH]; cbn in *; auto.
  destruct Hm as [Hd Hk]. split; [|auto]. destruct s; cbn in *; try done; [by apply wakes_bind|].
  destruct sleep, waiting; try done. by apply wakes_bind.
Qed.
Lemma wakeful_catch {A} (m : Op A) : wakeful m -> wakeful (catch m).
Proof.
  induction m as [a|e|s k IH|X q k IH|k IH|k IH|q k IH]; cbn; auto.
  intros [Hd Hk]. split; [|auto]. destruct s; cbn in *; try done; [by apply wakes_catch|].
  destruct sleep, waiting; try done. by apply wakes_catch.
Qed.

Lemma wakeful_free {A} (m : Op A) : issues free m -> wakeful m.
Proof.
  induction m as [a|e|s k IH|X q k IH|k IH|k IH|q k IH]; cbn; auto.
  intros [Hf Hk]. split; [|auto]. destruct s; try done. by destruct sleep.
Qed.

#[local] Hint Extern 0 (free _) => exact I : issues.
Ltac wake_free := apply wakeful_free; issuing.

Lemma plain_free s : plain s -> free s.
Proof. by intros (_ & _ & _ & ? & _). Qed.
#[local] Hint Resolve plain_free issues_append_event issues_instance issues_validate issues_do_step issues_step_sleep issues_fail_system
  issues_fail_terminal issues_finish issues_claim_one issues_ignore : issues.

Lemma wakeful_send_signal id name payload : wakeful (send_signal id name payload).
Proof.
  unfold send_signal. do 2 (apply wakeful_bind; [wake_free|]; intros _). apply wakeful_bind; [wake_free|]. intros [i|]; [|done].
  apply wakeful_bind; [wake_free|]. intros _. cbn [new_id now_ms Script.bind wakeful]. intros sid now. split; [cbn; done|].
  intros [n|]; [|done]. wake_free.
Qed.

Lemma wakeful_wait_signal id lease name : wakeful (wait_signal id lease name).
Proof.
  unfold wait_signal, park. cbn [now_ms Script.bind wakeful]. intros now. split; [cbn; done|]. intros [n|]; [|done]. cbn -[append_event].
  destruct (n =? 1); cbn -[append_event]; [|done]. intros now'. split; [done|]. intros [w|]; [|done]. wake_free.
Qed.

Lemma wakeful_signal_loop fuel id lease name : wakeful (signal_loop fuel id lease name).
Proof.
  induction fuel as [|fuel IH]; cbn [signal_loop]; [done|]. apply wakeful_bind; [wake_free|]. intros [[sid g]|]; [|apply wakeful_wait_signal].
  do 2 (apply wakeful_bind; [wake_free|]; intros ?). destruct (_ =? 0); [|wake_free]. apply wakeful_bind; [wake_free | done].
Qed.

Lemma wakeful_step_signal fuel id lease name : wakeful (step_signal fuel id lease name).
Proof. apply wakeful_bind; [wake_free|]. intros _. apply wakeful_signal_loop. Qed.

Lemma wakeful_call {A} error_text (m : Op A) : wakeful m -> wakeful (call error_text m).
Proof. intros Hm. apply wakeful_bind; [by apply wakeful_catch | done]. Qed.

Lemma wakeful_run_prog error_text fuel id lease p : wakeful (run_prog error_text fuel id lease p).
Proof.
  induction p as [o|e|name limit k IH|name duration k IH|name k IH]; cbn [run_prog]; try done.
  - apply wakeful_bind; [wake_free | auto].
  - apply wakeful_bind; [apply wakeful_call; wake_free | intros [[]|]; auto; done].
  - apply wakeful_bind; [apply wakeful_call, wakeful_step_signal | intros [[]|]; auto; done].
Qed.

Lemma wakeful_advance error_text fuel entry c : wakeful (advance error_text (dispatch error_text fuel entry) c).
Proof.
  unfold advance. apply wakeful_bind.
  - apply wakeful_catch. unfold dispatch. cbn. intros [v|[b e]]; [|done]. apply wakeful_bind; [apply wakeful_run_prog|]. by intros r [w|[b e]].
  - intros [[o| |e]|e]; wake_free.
Qed.

Lemma wakeful_operation entries t : operation entries t -> wakeful t.
Proof.
  destruct 1; try (apply wakeful_free; (apply issues_ignore + idtac);
    (apply issues_create || apply issues_pause || apply issues_resume || apply issues_terminate || apply issues_restart
     || apply issues_step_lookup || apply issues_step_record || apply issues_step_sleep || apply issues_heartbeat || apply issues_cron); apply plain_free).
  - apply wakeful_bind; [apply wakeful_catch, wakeful_send_signal | done].
  - apply wakeful_bind; [apply wakeful_catch, wakeful_step_signal | done].
  - apply wakeful_bind; [wake_free|]. intros [c|]; [apply wakeful_advance | done].
  - wake_free.
Qed.

Lemma signalled_spec d id name :
  signalled d id name = true <-> exists sid g, signals d !! sid = Some g /\ undelivered id name g = true.
Proof.
  unfold signalled. rewrite negb_true_iff, bool_decide_eq_false. split.
  - intros Hne. apply map_choose in Hne as (sid & g & Hg%map_lookup_filter_Some). exists sid, g. by destruct Hg.
  - intros (sid & g & Hg & Hu) He.
    assert (Hf : filter (fun ks : string * Signal => undelivered id name ks.2 = true) (signals d) !! sid = Some g)
      by by apply map_lookup_filter_Some.
    by rewrite He, lookup_empty in Hf.
Qed.

Lemma signalled_after d s id name :
  signalled (apply run d s) id name = true -> signalled d id name = true \/
  exists sid payload now, s = InsertSignal sid id name payload now /\ affected run d s = Some 1.
Proof.
  rewrite !signalled_spec. intros (sid & g & Hg & Hu). unfold apply, affected in *.
  destruct s as [| | | | |sid0 id0 name0 p0 now| | | | | | |sid0 now id0 lease| | | | | | |cutoff|]; cbn [run] in *; rewrite ?let_fst, ?update_where_signals in Hg;
    try (left; by eauto); try (left; repeat case_match; simplify_eq; rewrite ?update_where_signals in Hg; by eauto).
  - destruct (instances d !! id0) as [i|]; [|left; by eauto]. destruct (ended (status (life i))); [left; by eauto|].
    destruct (signals d !! sid0) eqn:E; [left; by eauto|]. cbn in Hg. destruct (decide (sid = sid0)) as [->|Hne].
    + rewrite lookup_insert_eq in Hg. injection Hg as <-. unfold undelivered in Hu. cbn in Hu.
      apply andb_prop in Hu as [[Hi Hn]%andb_prop _]. to_prop. subst. right. eauto 6.
    + rewrite lookup_insert_ne in Hg by done. left. by eauto.
  - destruct (signals d !! sid0) as [g0|] eqn:E; [|left; by eauto]. destruct (negb _ && _); [|left; by eauto]. cbn in Hg.
    destruct (decide (sid = sid0)) as [->|Hne]; [|rewrite lookup_insert_ne in Hg by done; left; by eauto].
    rewrite lookup_insert_eq in Hg. injection Hg as <-. unfold undelivered in Hu. cbn in Hu. by rewrite andb_false_r in Hu.
  - cbn in Hg. apply map_lookup_filter_Some in Hg as [Hg _]. left. by eauto.
Qed.

(** An instance that waits for a signal which is there. *)
Definition stuck (d : Db) (id name : string) : Prop :=
  exists i, instances d !! id = Some i /\ status (life i) = Waiting /\ waiting_for (life i) = Some name /\
    sleep_until_ms (life i) = None /\ signalled d id name = true.

Lemma woken_not_stuck d s id name i :
  instances d !! id = Some i -> status (life i) = Waiting -> waiting_for (life i) = Some name -> signalled d id name = true ->
  (exists now, s = WakeWaiting id now name) \/ (exists now, s = WakeIfSignalled id name now) -> ~ stuck (apply run d s) id name.
Proof.
  intros Hi Hs Hw Hg Hx (i' & Hi' & Hs' & _). unfold apply in Hi'. destruct Hx as [[now ->]|[now ->]]; cbn [run] in Hi'.
  - rewrite let_fst, update_where_lookup, decide_True, Hi in Hi' by done. cbn in Hi'. rewrite Hs, Hw, !bool_decide_true in Hi' by done.
    by injection Hi' as <-.
  - rewrite Hg, let_fst, update_where_lookup, decide_True, Hi in Hi' by done. cbn in Hi'. rewrite Hs, Hw, !bool_decide_true in Hi' by done.
    by injection Hi' as <-.
Qed.

Lemma moved_to_waiting d id l s l' : proper s -> moves d id l s l' -> status l' = Waiting -> sleep_until_ms l' = None ->
  exists lease now name, s = Park id lease None (Some name) now /\ waiting_for l' = Some name /\ holds lease l = true.
Proof.
  intros Hp. destruct 1; cbn; intros Hs Hn; try done.
  - subst target. destruct Hp as [[? _]|[? _]]; done.
  - subst. destruct Hp as [name ->]. eauto 6.
  - apply holds_running in H as [H _]. congruence.
Qed.

Lemma park_affected d id i lease sleep waiting now :
  instances d !! id = Some i -> holds lease (life i) = true -> affected run d (Park id lease sleep waiting now) = Some 1.
Proof. intros Hi Hh. unfold affected. cbn [run]. unfold update_where. by rewrite Hi, Hh. Qed.

Lemma stuck_after d s id name :
  proper s -> stuck (apply run d s) id name ->
  (stuck d id name /\ forall k : option Z -> Op unit, ~ wakes id name (Exec s k)) \/
  (forall k : option Z -> Op unit, duty s k -> wakes id name (k (affected run d s))).
Proof.
  intros Hp Hst. pose proof Hst as (i' & Hi' & Hs & Hw & Hn & Hg). pose proof (run_instances d s id) as H. rewrite Hi' in H.
  destruct (instances d !! id) as [i|] eqn:Ei; [|by destruct H as (c & now & -> & ->)].
  destruct H as [->|(l & -> & Hm)].
  - apply signalled_after in Hg as [Hg|(sid & payload & now & -> & Ha)].
    + left. split; [by exists i|]. intros k Hk. assert (Hx : (exists now, s = WakeWaiting id now name) \/ (exists now, s = WakeIfSignalled id name now)).
      { destruct s; cbn in Hk; try done; destruct Hk as [-> ->]; eauto. }
      by eapply woken_not_stuck in Hst.
    + right. intros k Hk. rewrite Ha. exact Hk.
  - cbn in Hs, Hw, Hn. destruct (moved_to_waiting _ _ _ _ _ Hp Hm Hs Hn) as (lease & now & name' & -> & Hw' & Hh).
    right. intros k Hk. rewrite (park_affected _ _ i) by done. rewrite Hw in Hw'. injection Hw' as <-. exact Hk.
Qed.

Definition over {A} (m : Op A) : Prop := (exists a, m = Ret a) \/ (exists e, m = Stop e).

Definition awake (s : Sys Db Stmt Question Answer WfError) : Prop :=
  Forall wakeful (pool s) /\ Forall (issues proper) (pool s) /\
  forall id name, stuck (state s) id name -> Exists (wakes id name) (pool s).

Lemma Exists_insert_other {A} (P : A -> Prop) (l : list A) i x y :
  l !! i = Some x -> ~ P x -> Exists P l -> Exists P (<[i := y]> l).
Proof.
  intros Hi Hx. rewrite !Exists_exists. intros (z & Hz & Hp). exists z. split; [|done].
  apply list_elem_of_lookup in Hz as [j Hj]. apply list_elem_of_lookup. exists j. rewrite list_lookup_insert_ne; [done|].
  intros ->. congruence.
Qed.

Lemma Exists_insert_new {A} (P : A -> Prop) (l : list A) i x y : l !! i = Some x -> P y -> Exists P (<[i := y]> l).
Proof.
  intros Hi Hp. apply Exists_exists. exists y. split; [|done]. apply list_elem_of_lookup. exists i.
  apply list_lookup_insert_eq. by eapply lookup_lt_Some.
Qed.

Lemma awake_wakeful s s' : step run (operation any_entry) False s s' -> Forall wakeful (pool s) -> Forall wakeful (pool s').
Proof.
  intros Hs Hw.
  assert (Hn : forall i t t', pool s !! i = Some t -> (wakeful t -> wakeful t') -> Forall wakeful (<[i := t']> (pool s))).
  { intros i t t' Hi Ht. apply Forall_insert; [done|]. apply Ht. by eapply Forall_lookup_1 in Hw. }
  destruct Hs; cbn in *; try done; try (eapply Hn; [eassumption | cbn; naive_solver]).
  apply Forall_app; split; [done|]. constructor; [by eapply wakeful_operation | done].
Qed.

Lemma awake_step s s' : step run (operation any_entry) False s s' -> awake s -> awake s'.
Proof.
  intros Hs (Hw & Hp & Hk). split_and!; [by eapply awake_wakeful | eapply step_issues; [|exact Hs|done]; intros; by eapply operation_proper|].
  intros id name Hst. destruct Hs as [i s0 k d p u Hi| | |i X q k d p u Hi| |i k z d p u Hi|i k x d p u Hi Hx|i q k a d p u Hi|t d p u Ht|];
    cbn [state pool] in *; try done.
  - assert (Hps : proper s0) by (eapply Forall_lookup_1 in Hp; [|exact Hi]; apply Hp).
    destruct (stuck_after _ _ _ _ Hps Hst) as [[Hst0 Hno]|Hd].
    + eapply Exists_insert_other; [exact Hi | apply Hno | by apply Hk].
    + eapply Exists_insert_new; [exact Hi|]. apply Hd. eapply Forall_lookup_1 in Hw; [|exact Hi]. apply Hw.
  - eapply Exists_insert_other; [exact Hi | by cbn; intros [] | by apply Hk].
  - specialize (Hk _ _ Hst). rewrite Exists_exists in Hk. destruct Hk as (t & Ht & Hwt). apply list_elem_of_lookup in Ht as [j Hj].
    destruct (decide (i = j)) as [<-|Hne].
    + eapply Exists_insert_new; [exact Hi|]. rewrite Hi in Hj. injection Hj as <-. apply Hwt.
    + apply Exists_exists. exists t. split; [|done]. apply list_elem_of_lookup. exists j. by rewrite list_lookup_insert_ne.
  - eapply Exists_insert_other; [exact Hi | by cbn; intros [] | by apply Hk].
  - eapply Exists_insert_other; [exact Hi | by cbn; intros [] | by apply Hk].
  - apply Exists_app. left. by apply Hk.
Qed.

(** C11: Signals are never missed while nothing fails: in whatever order senders and waiting
    workflows interleave their statements, when all operations have ended no instance waits
    for a signal that has been sent and not delivered. *)
Theorem signals_always_wake s id name :
  wf_reachable False s -> Forall over (pool s) -> ~ stuck (state s) id name.
Proof.
  intros Hr Ho Hst. assert (Ha : awake s).
  { revert Hr. unfold wf_reachable, reachable. apply rtc_ind_r; [|intros; by eapply awake_step].
    split_and!; [constructor | constructor |]. intros id' name' (i & Hi & _). cbn in Hi. by rewrite lookup_empty in Hi. }
  destruct Ha as (_ & _ & Hk). specialize (Hk _ _ Hst). apply Exists_exists in Hk as (t & Ht & Hw).
  rewrite Forall_forall in Ho. destruct (Ho t Ht) as [[a ->]|[e ->]]; done.
Qed.
