(* ===== verification/WorkflowLease.v ===== *)
(** * WorkflowLease: leases of workflow instances are fences

    A driver draws a fresh token for each claim and nothing else writes tokens, so a token
    that has been replaced never comes back; and what is written under a token has no
    effect without it.  Together: a node that lost its lease can no longer change
    its instance, however late its statements arrive. *)

From Stdlib Require Import ZArith Lia Ascii.
From stdpp Require Import prelude gmap sorting strings list pretty.
From S2P Require Import Prelude Text Script Workflow WorkflowProps.
Open Scope Z_scope.

(** A script that claims only with the token it has just drawn; [tok] is that token. *)
Fixpoint calm {A} (tok : option string) (m : Op A) : Prop :=
  match m with
  | Ret _ | Stop _ => True
  | Exec s k => match s with ClaimInstance _ l _ _ _ _ _ => tok = Some l | _ => True end /\ forall r, calm None (k r)
  | Read _ k => forall x, calm None (k x)
  | ClockRead k => forall z, calm None (k z)
  | Draw k => forall i, calm (Some ("lease_" +:+ i)) (k i)
  | Ask _ k => forall a, calm None (k a)
  end.

Lemma calm_weaken {A} tok (m : Op A) : calm None m -> calm tok m.
Proof. destruct m as [| |s k| | | |]; cbn; auto. intros [Hs Hk]. split; [by destruct s | done]. Qed.

Lemma calm_issues {A} tok (m : Op A) : issues not_claim m -> calm tok m.
Proof.
  revert tok. induction m as [a|e|s k IH|X q k IH|k IH|k IH|q k IH]; intros tok; cbn; auto.
  intros [Hs Hk]. split; [by destruct s | auto].
Qed.

Lemma calm_bind {A B} tok (m : Op A) (f : A -> Op B) : calm tok m -> (forall a, calm None (f a)) -> calm tok (Script.bind m f).
Proof.
  intros Hm Hf. revert tok Hm. induction m as [a|e|s k IH|X q k IH|k IH|k IH|q k IH]; intros tok; cbn; auto.
  - intros _. by apply calm_weaken.
  - intros [Hs Hk]. auto.
Qed.

Lemma plain_not_claim s : plain s -> not_claim s.
Proof. by intros (_ & _ & _ & _ & ?). Qed.

#[local] Hint Extern 0 (not_claim _) => exact I : issues.
#[local] Hint Resolve plain_not_claim issues_append_event issues_instance issues_advance issues_ignore : issues.

Lemma calm_claim_one node max : calm None (claim_one node max).
Proof.
  unfold claim_one. apply calm_bind; [by intros [x|]|]. intros _. apply calm_bind; [done|]. intros now.
  apply calm_bind; [by split; [|intros [n|]]|]. intros _. apply calm_bind; [by intros [x|]|]. intros [[id i]|]; [|done].
  cbn -[instance append_event]. intros raw. split; [done|]. intros [n|]; [|done]. cbn -[instance append_event].
  destruct (negb _); [done|]. apply calm_issues. issuing.
Qed.

Lemma calm_operation entries t : operation entries t -> calm None t.
Proof.
  intros Ho. destruct Ho;
    try (apply calm_issues; (apply issues_ignore + idtac);
      first [apply issues_create | apply issues_pause | apply issues_resume | apply issues_terminate | apply issues_restart
      | apply issues_send_signal | apply issues_step_lookup | apply issues_step_record | apply issues_step_sleep
      | apply issues_step_signal | apply issues_heartbeat | apply issues_cron | apply issues_exec]; first [exact plain_not_claim | done]).
  - apply calm_bind; [apply calm_claim_one|]. intros [c|]; [|done]. apply calm_issues, issues_advance; first [exact plain_not_claim | done].
  - apply calm_issues. unfold collect. issuing.
Qed.

(** ** Tokens *)

Definition used (d : Db) (l : string) : Prop := exists id i, instances d !! id = Some i /\ lease_token (life i) = Some l.

Lemma moves_lease d id l s l' tok : moves d id l s l' -> lease_token l' = Some tok ->
  lease_token l = Some tok \/ exists until now max group limit, s = ClaimInstance id tok until now max group limit.
Proof. destruct 1; cbn; intros Hl; try done; auto. simplify_eq. eauto 8. Qed.

Lemma lease_after d s id i' tok : instances (apply run d s) !! id = Some i' -> lease_token (life i') = Some tok ->
  (exists i, instances d !! id = Some i /\ lease_token (life i) = Some tok) \/
  exists until now max group limit, s = ClaimInstance id tok until now max group limit.
Proof.
  intros Hi' Hl. pose proof (run_instances d s id) as H. rewrite Hi' in H. destruct (instances d !! id) as [i|] eqn:E.
  - destruct H as [->|(l & -> & Hm)]; [by eauto|]. destruct (moves_lease _ _ _ _ _ _ Hm Hl) as [Ht|Hc]; [by eauto | by right].
  - by destruct H as (c & now & -> & ->).
Qed.

Lemma used_after d s tok : used (apply run d s) tok ->
  used d tok \/ exists id until now max group limit, s = ClaimInstance id tok until now max group limit.
Proof. intros (id & i' & Hi' & Hl). destruct (lease_after _ _ _ _ _ Hi' Hl) as [(i & Hi & Ht)|Hc]; [left; by exists id, i | right; by eauto]. Qed.

Definition minted (u : gset string) (l : string) : Prop := exists raw, raw ∈ u /\ l = "lease_" +:+ raw.

(** Which thread may claim with which token, and that such tokens are new. *)
Record fences (s : Sys Db Stmt Question Answer WfError) (tok : nat -> option string) : Prop := {
  f_calm : forall i t, pool s !! i = Some t -> calm (tok i) t;
  f_own : forall i j l, tok i = Some l -> tok j = Some l -> i = j;
  f_new : forall i l, tok i = Some l -> minted (drawn s) l /\ ~ used (state s) l;
  f_minted : forall l, used (state s) l -> minted (drawn s) l
}.

Definition retoken (tok : nat -> option string) (i : nat) (o : option string) (j : nat) : option string :=
  if decide (j = i) then o else tok j.

Lemma calm_pool (p : list (Op unit)) tok i t o :
  (forall j t, p !! j = Some t -> calm (tok j) t) -> is_Some (p !! i) -> calm o t ->
  forall j t', <[i := t]> p !! j = Some t' -> calm (retoken tok i o j) t'.
Proof.
  intros Hp [x Hx] Ht j t'. unfold retoken. destruct (decide (j = i)) as [->|Hne].
  - rewrite list_lookup_insert_eq by by eapply lookup_lt_Some. by intros [= <-].
  - rewrite list_lookup_insert_ne by done. apply Hp.
Qed.

Section stepping.
Context (d : Db) (p : list (Op unit)) (u : gset string) (tok : nat -> option string).
Context (F : fences (mkSys d p u) tok).

(** A thread that goes on, without a statement, gives its token up. *)
Lemma fences_go i t : is_Some (p !! i) -> calm None t -> fences (mkSys d (<[i := t]> p) u) (retoken tok i None).
Proof.
  intros Hi Ht. destruct F as [Hc Ho Hn Hm]. cbn in *. split; cbn.
  - by apply calm_pool.
  - unfold retoken. intros j k l. repeat case_decide; try done. apply Ho.
  - unfold retoken. intros j l. case_decide; [done | apply Hn].
  - apply Hm.
Qed.

Lemma fences_exec i s k r : p !! i = Some (Exec s k) -> fences (mkSys (apply run d s) (<[i := k r]> p) u) (retoken tok i None).
Proof.
  intros Hi. destruct F as [Hc Ho Hn Hm]. cbn in *. destruct (Hc _ _ Hi) as [Hs Hk]. split; cbn.
  - apply calm_pool; [done | by eauto | apply Hk].
  - unfold retoken. intros j j' l. repeat case_decide; try done. apply Ho.
  - unfold retoken. intros j l. case_decide; [done|]. intros Hj. split; [by eapply Hn|].
    intros [Hu|(? & ? & ? & ? & ? & ? & ->)]%used_after; [by eapply Hn | by eapply H, Ho].
  - intros l [Hu|(? & ? & ? & ? & ? & ? & ->)]%used_after; [by apply Hm | by eapply Hn].
Qed.

Lemma fences_draw i k x : p !! i = Some (Draw k) -> x ∉ u ->
  fences (mkSys d (<[i := k x]> p) ({[x]} ∪ u)) (retoken tok i (Some ("lease_" +:+ x))).
Proof.
  intros Hi Hx. destruct F as [Hc Ho Hn Hm]. cbn in *.
  assert (Hmint : forall l, minted u l -> minted ({[x]} ∪ u) l) by (intros l (raw & Hr & ->); exists raw; split; [set_solver | done]).
  assert (Hfresh : ~ minted u ("lease_" +:+ x)) by (intros (raw & Hr & He); apply (inj (String.append _)) in He; congruence).
  split; cbn.
  - apply calm_pool; [done | by eauto | by apply Hc in Hi].
  - unfold retoken. intros j j' l. repeat case_decide; subst; try done; [intros [= <-] Hj|intros Hj [= <-]|apply Ho]; by apply Hn in Hj as [? _].
  - unfold retoken. intros j l. case_decide; [|intros Hj; apply Hn in Hj as [? ?]; by auto].
    intros [= <-]. split; [exists x; split; [set_solver | done]|]. intros Hu. by apply Hm in Hu.
  - auto.
Qed.

Lemma fences_start t : calm None t -> fences (mkSys d (p ++ [t]) u) (retoken tok (length p) None).
Proof.
  intros Ht. destruct F as [Hc Ho Hn Hm]. cbn in *. split; cbn; [| | |done].
  - intros j t' [Hj|[Hle Hj]]%lookup_app_Some.
    + unfold retoken. rewrite decide_False by (apply lookup_lt_Some in Hj; lia). by apply Hc.
    + apply list_lookup_singleton_Some in Hj as [Hj <-]. by apply calm_weaken.
  - unfold retoken. intros j j' l. repeat case_decide; try done. apply Ho.
  - unfold retoken. intros j l. case_decide; [done | apply Hn].
Qed.
End stepping.

(** Nobody can claim with [l] any more. *)
Definition spent (s : Sys Db Stmt Question Answer WfError) (l : string) : Prop :=
  exists tok, fences s tok /\ minted (drawn s) l /\ forall i, tok i <> Some l.

Lemma spent_retoken tok i o l : (forall i, tok i <> Some l) -> o <> Some l -> forall j, retoken tok i o j <> Some l.
Proof. unfold retoken. intros Ht Ho j. by case_decide. Qed.

Lemma fences_step s s' tok : step run (operation any_entry) True s s' -> fences s tok ->
  exists tok', fences s' tok' /\ drawn s ⊆ drawn s' /\
    forall l, minted (drawn s) l -> (forall i, tok i <> Some l) -> forall i, tok' i <> Some l.
Proof.
  intros Hs F. assert (Hc := f_calm _ _ F).
  assert (Hn : forall i l, minted (drawn s) l -> (forall i, tok i <> Some l) -> forall j, retoken tok i None j <> Some l)
    by (intros; by apply spent_retoken).
  destruct Hs as [i s0 k d p u Hi|i s0 k d p u _ Hi|i s0 k d p u _ Hi|i X q k d p u Hi|i X q k d p u _ Hi|i k z d p u Hi
    |i k x d p u Hi Hx|i q k a d p u Hi|t d p u Ht|i t d p u _ Hi]; cbn [drawn pool] in *;
    try (exists (retoken tok i None); split; [|split; [done | apply Hn]]; first [by apply fences_exec | apply fences_go; [done | by eauto | by first [done | apply Hc in Hi; apply Hi]]]).
  - exists (retoken tok i (Some ("lease_" +:+ x))). split; [by apply fences_draw|]. split; [set_solver|]. intros l Hl Ht.
    apply spent_retoken; [done|]. intros [= <-]. destruct Hl as (raw & Hr & He). apply (inj (String.append _)) in He. congruence.
  - exists (retoken tok (length p) None). split; [|split; [done | apply Hn]]. apply fences_start; [done | by eapply calm_operation].
Qed.

Lemma reachable_fences s : wf_reachable True s -> exists tok, fences s tok.
Proof.
  unfold wf_reachable, reachable. apply (rtc_ind_r (fun s => exists tok, fences s tok)).
  - exists (fun _ => None). split; cbn; try done. intros l (id & i & Hi & _). cbn in Hi. by rewrite lookup_empty in Hi.
  - intros y z _ Hyz [tok F]. destruct (fences_step _ _ _ Hyz F) as (tok' & F' & _). by exists tok'.
Qed.

Lemma spent_step s s' l : step run (operation any_entry) True s s' -> spent s l -> spent s' l.
Proof.
  intros Hs (tok & F & Hm & Ht). destruct (fences_step _ _ _ Hs F) as (tok' & F' & Hu & Hn). exists tok'. split_and!; [done | | by apply Hn].
  destruct Hm as (raw & Hr & ->). exists raw. split; [set_solver | done].
Qed.

Lemma spent_used s l : (exists tok, fences s tok) -> used (state s) l -> spent s l.
Proof. intros [tok F] Hu. exists tok. split_and!; [done | by apply (f_minted _ _ F) | intros i Hi; by apply (f_new _ _ F) in Hi as [_ ?]]. Qed.

Lemma spent_leases s s' l id i' : step run (operation any_entry) True s s' -> spent s l ->
  instances (state s') !! id = Some i' -> lease_token (life i') = Some l ->
  exists i, instances (state s) !! id = Some i /\ lease_token (life i) = Some l.
Proof.
  intros Hs (tok & F & _ & Ht) Hi' Hl. assert (Hx : forall i s0 k, pool s !! i = Some (Exec s0 k) -> instances (apply run (state s) s0) !! id = Some i' ->
    exists i, instances (state s) !! id = Some i /\ lease_token (life i) = Some l).
  { intros j s0 k Hj Ha. destruct (lease_after _ _ _ _ _ Ha Hl) as [?|(? & ? & ? & ? & ? & ->)]; [done|]. apply (f_calm _ _ F) in Hj as [Hj _]. by apply Ht in Hj. }
  destruct Hs; cbn in *; eauto.
Qed.

(** ** Fencing *)

(** The instance and the token a statement is written under. *)
Definition leased (s : Stmt) : option (string * string) :=
  match s with
  | RecordStep id _ _ _ _ _ _ lease | InsertSleep id _ _ _ lease | Park id lease _ _ _ | DeliverSignal _ _ id lease | Renew id lease _ _
  | FinishInstance id lease _ _ | FailInstance id lease _ _ | RetryInstance id lease _ _ _ _ => Some (id, lease)
  | _ => None
  end.

Lemma leased_no_effect d s id lease : leased s = Some (id, lease) -> held d id lease = false -> apply run d s = d.
Proof.
  intros Hl Hh. unfold apply. assert (Hu : forall f, update_where d id (holds lease) f = (d, 0)).
  { intros f. unfold update_where, held in *. destruct (instances d !! id); [by rewrite Hh | done]. }
  destruct s; simplify_eq/=; rewrite ?Hh, ?Hu; try done. destruct (signals d !! sid); [|done]. by rewrite andb_false_r.
Qed.

Lemma held_used d id l : held d id l = true -> exists i, instances d !! id = Some i /\ lease_token (life i) = Some l.
Proof. unfold held. destruct (instances d !! id) as [i|]; [|done]. intros [_ Ht]%holds_running. eauto. Qed.

(** C8: A lease that is lost stays lost, and fences its old holder off: once an instance is
    no longer held under a token it was held under, it never is again, and no statement
    written under that token has any effect, in whatever order statements arrive and
    whatever fails. *)
Theorem lost_lease_is_fenced s1 s2 s3 id lease s :
  wf_reachable True s1 -> held (state s1) id lease = true ->
  rtc (step run (operation any_entry) True) s1 s2 -> held (state s2) id lease = false ->
  rtc (step run (operation any_entry) True) s2 s3 ->
  held (state s3) id lease = false /\ (leased s = Some (id, lease) -> apply run (state s3) s = state s3).
Proof.
  intros Hr Hh H12 Hl H23. enough (Hf : held (state s3) id lease = false) by (split; [done | intros; by eapply leased_no_effect]).
  assert (Hsp : spent s1 lease).
  { apply spent_used; [by apply reachable_fences|]. apply held_used in Hh as (i & Hi & Ht). by exists id, i. }
  assert (Hr2 : wf_reachable True s2) by (unfold wf_reachable, reachable in *; by etransitivity).
  assert (Hsp2 : spent s2 lease) by (clear -Hsp H12; induction H12; eauto using spent_step).
  assert (Hfree : forall i, instances (state s2) !! id = Some i -> lease_token (life i) <> Some lease).
  { intros i Hi Ht. assert (Hok : life_ok (life i)) by by eapply reachable_lives. unfold held, holds, life_ok in *. rewrite Hi in Hl.
    rewrite (bool_decide_true _ Ht), andb_true_r in Hl. apply bool_decide_eq_false in Hl. destruct (status (life i)); naive_solver congruence. }
  destruct (held (state s3) id lease) eqn:E; [|done]. apply held_used in E as (i & Hi & Ht). exfalso.
  clear -Hsp2 Hfree H23 Hi Ht. induction H23 as [|x y z Hxy _ IH]; [by eapply Hfree|]. apply IH; [by eapply spent_step | | done].
  intros j Hj Hjt. destruct (spent_leases _ _ _ _ _ Hxy Hsp2 Hj Hjt) as (j0 & Hj0 & Hjt0). by eapply Hfree.
Qed.
