(* ===== verification/WorkflowTrace.v ===== *)
(** * WorkflowTrace: runs of workflows worth knowing

    What a replay does with a signal it has been given before, a lost answer between
    parking and looking again, a full concurrency group, and a lost read of a step;
    and sample runs for the theorems of [WorkflowProps]. *)

From Stdlib Require Import ZArith Lia Ascii.
From stdpp Require Import prelude gmap sorting strings list pretty.
From S2P Require Import Prelude Text Script Workflow WorkflowProps WorkflowLease.
Open Scope Z_scope.

#[local] Arguments take_chars : simpl never.
#[local] Arguments truncate_error : simpl never.
#[local] Arguments Z.to_nat : simpl never.

Section traces.
Context (now_at : nat -> Z) (id_at : nat -> string) (answer : nat -> Question -> Answer).
Notation healthy := (fun _ : nat => Healthy).
Notation play := (Script.play run now_at id_at).

Lemma play_ret {A} fault_at (a : A) d t : play fault_at answer (ret a : Op A) d t = (d, t, Ok a).
Proof. done. Qed.

Lemma next_signal_none d id name : signalled d id name = false -> next_signal id name d = None.
Proof.
  intros Hs. unfold next_signal. apply min_by_key_None. destruct (filter _ _) as [|[sid g] l] eqn:E; [done|]. exfalso.
  assert (Hin : (sid, g) ∈ filter (fun ks : string * Signal => undelivered id name ks.2 = true) (map_to_list (signals d)))
    by (rewrite E; left).
  apply list_elem_of_filter in Hin as [Hu Hin%elem_of_map_to_list].
  enough (signalled d id name = true) by congruence. apply signalled_spec. eauto.
Qed.

Lemma append_event_ok d id i k detail t :
  instances d !! id = Some i ->
  exists d' t', play healthy answer (append_event id k detail) d t = (d', t', Ok tt) /\ instances d' = instances d /\ signals d' = signals d.
Proof. intros Hi. cbn -[run]. unfold affected, apply. cbn [run]. rewrite Hi. cbn. eauto. Qed.

Definition parked (l : Life) (name : string) (now : Z) : Life :=
  mkLife (output_json l) Waiting (Some name) None None None (last_error l) (retry_count l) (finished_at_ms l) now.

Lemma park_run d id i lease name now :
  instances d !! id = Some i -> holds lease (life i) = true ->
  run d (Park id lease None (Some name) now) =
  Some (set_instances d (<[id := with_life i (parked (life i) name now)]> (instances d)), 1).
Proof. intros Hi Hh. cbn [run]. unfold update_where. by rewrite Hi, Hh. Qed.

Lemma wait_signal_run d id i lease name t :
  instances d !! id = Some i -> holds lease (life i) = true -> signalled d id name = false ->
  exists d' t', play healthy answer (wait_signal id lease name) d t = (d', t', Ok WaitSignal) /\
    exists now, instances d' !! id = Some (with_life i (parked (life i) name now)).
Proof.
  intros Hi Hh Hs. unfold wait_signal, park. cbn -[append_event run affected apply].
  unfold affected at 1. unfold apply at 1. rewrite (park_run d id i) by done. cbn -[append_event run affected apply].
  set (d1 := set_instances d _). assert (Hi1 : instances d1 !! id = Some (with_life i (parked (life i) name (now_at t)))) by apply lookup_insert_eq.
  assert (Hw : forall now, run d1 (WakeIfSignalled id name now) = Some (d1, 0)) by (intros now; cbn [run]; change (signalled d1) with (signalled d); by rewrite Hs).
  unfold affected, apply. rewrite Hw. cbn -[append_event run]. rewrite play_bind.
  destruct (append_event_ok d1 id _ "signal_wait" [("name", name)] (S (S (S (S t)))) Hi1) as (d2 & t2 & -> & Hd2 & _).
  cbn. eexists _, _. split; [done|]. exists (now_at t). by rewrite Hd2.
Qed.

(** C32: A replay waits again for a signal it was given before: [waitForSignal] looks only
    at signals not yet delivered, and delivering one records no step.  Whatever
    the program does with the signal, a run that comes back to the call without
    another signal of that name parks there, to no time, and is never due again. *)
Theorem delivered_signal_is_not_replayed error_text fuel id lease name k d t i :
  validate_step_name name = Ok tt -> instances d !! id = Some i -> holds lease (life i) = true -> signalled d id name = false ->
  exists d' t' i', play healthy answer (run_prog error_text (S fuel) id lease (WaitForSignal name k)) d t = (d', t', Ok AParked) /\
    instances d' !! id = Some i' /\ waiting_for (life i') = Some name /\ forall now, due now (life i') = false.
Proof.
  intros Hn Hi Hh Hs. cbn [run_prog]. rewrite play_bind. unfold call. rewrite play_bind, play_catch. unfold step_signal.
  rewrite play_bind. unfold validate_step_request. rewrite Hn. cbn -[signal_loop held run_prog]. unfold held at 1. rewrite Hi, Hh. cbn -[signal_loop run_prog].
  cbn [signal_loop]. rewrite play_bind. cbn -[wait_signal next_signal run_prog]. rewrite next_signal_none by done.
  destruct (wait_signal_run d id i lease name (S (S t)) Hi Hh Hs) as (d' & t' & -> & now & Hi').
  cbn. eexists _, _, _. split_and!; [done | exact Hi' | done | done].
Qed.

(** The wake-up lives in the node that parks: when the answer to the parking statement is
    lost, the node stops before it looks for signals again, and a signal that came
    while the instance was running is left with an instance that waits for it. *)
Theorem lost_answer_strands_signal fault_at id lease name d t i :
  instances d !! id = Some i -> holds lease (life i) = true -> signalled d id name = true -> fault_at (S t) = ReplyLost ->
  exists d' t' i', play fault_at answer (wait_signal id lease name) d t = (d', t', Err Unavailable) /\
    stuck d' id name /\ instances d' !! id = Some i' /\ forall now, due now (life i') = false.
Proof.
  intros Hi Hh Hs Hf. unfold wait_signal, park. cbn -[append_event run affected apply]. rewrite Hf. cbn -[append_event run affected apply].
  unfold apply. rewrite (park_run d id i) by done. set (d1 := set_instances d _).
  assert (Hi1 : instances d1 !! id = Some (with_life i (parked (life i) name (now_at t)))) by apply lookup_insert_eq.
  eexists _, _, _. split_and!; [done | | exact Hi1 | done]. eexists. by split_and!.
Qed.

(** The claim looks at one instance only: while the group of the first due instance is
    full, no driver claims anything, although another due instance has room. *)
Theorem full_group_blocks_others node max d t id i j i' :
  let now := now_at (S t) in
  let d1 := apply run d (RequeueExpired now) in
  candidate now d1 = Some (id, i) ->
  room d1 max (concurrency_group (config i)) (concurrency_group_limit (config i)) = false ->
  instances d1 !! j = Some i' -> due now (life i') = true ->
  room d1 max (concurrency_group (config i')) (concurrency_group_limit (config i')) = true ->
  j <> id /\ exists t', play healthy answer (claim_one node max) d t = (d1, t', Ok None).
Proof.
  intros now d1 Hc Hr Hj Hd Hj'. split.
  - intros ->. apply min_by_key_Some in Hc as [Hin _]. apply list_elem_of_filter in Hin as [_ Hin%elem_of_map_to_list].
    rewrite Hin in Hj. injection Hj as <-. congruence.
  - unfold claim_one. cbn -[run affected apply candidate room]. fold now.
    unfold affected at 1. cbn [run]. cbn -[run affected apply candidate room]. fold d1. rewrite Hc. cbn -[run affected apply room].
    unfold affected, apply. cbn [run]. fold d1. rewrite Hr. cbn. eauto.
Qed.

Lemma fail_terminal_run fault_at id lease e d t i :
  instances d !! id = Some i -> holds lease (life i) = true -> (forall u, (t <= u)%nat -> fault_at u = Healthy) ->
  exists d' t' r, play fault_at answer (fail_terminal id lease e) d t = (d', t', r) /\
    exists i', instances d' !! id = Some i' /\ status (life i') = SFailed /\ retry_count (life i') = retry_count (life i).
Proof.
  intros Hi Hh Hf. unfold fail_terminal. cbn -[append_event run affected apply]. rewrite Hf by lia.
  unfold affected, apply. cbn [run]. unfold update_where. rewrite Hi, Hh. cbn -[append_event]. set (d1 := set_instances d _).
  assert (Hi1 : exists i', instances d1 !! id = Some i' /\ status (life i') = SFailed /\ retry_count (life i') = retry_count (life i)).
  { eexists. split; [apply lookup_insert_eq | done]. }
  pose proof (play_keeps run now_at id_at fault_at answer (fun d => instances d = instances d1) (fun s => match s with AppendEvent _ _ _ _ => True | _ => False end)
    (append_event id "failed" [("error", truncate_error e)]) d1 (S (S t))) as Hk.
  destruct (Script.play _ _ _ _ _ (append_event _ _ _) d1 (S (S t))) as [[d' t'] r]. cbn in Hk.
  eexists _, _, _. split; [done|]. rewrite Hk; [done | | intros z; split; [done|]; intros [n|]; cbn; [by destruct (n =? 1) | done] | done].
  intros d0 [] Hs Hd0; try done. unfold apply. cbn [run]. by destruct (instances d0 !! _).
Qed.

(** One read that fails while a step starts ends the workflow: the step function throws,
    the run answers that the program failed, and the instance fails for good, retries left
    or not. *)
Theorem lost_read_fails_workflow error_text fuel entry c d t i name limit k fault_at :
  entry (input_json (config (claim_instance c))) = Do name limit k -> (forall e, k (Err e) = Throw e) ->
  validate_step_name name = Ok tt -> instances d !! claim_id c = Some i -> holds (claim_lease c) (life i) = true ->
  (forall t q, is_ok (answer t q) = true) -> fault_at (S t) = Refused -> (forall u, (S t < u)%nat -> fault_at u = Healthy) ->
  exists d' t' i', play fault_at answer (advance error_text (dispatch error_text fuel entry) c) d t = (d', t', Ok tt) /\
    instances d' !! claim_id c = Some i' /\ status (life i') = SFailed /\ retry_count (life i') = retry_count (life i).
Proof.
  intros He Hk Hn Hi Hh Ha Hf Hf'. unfold advance. rewrite play_bind, play_catch. unfold dispatch. cbn [Script.play].
  specialize (Ha t Transport) as Ha0. destruct (answer t Transport) as [v0|]; [|done]. rewrite play_bind, He. cbn [run_prog].
  rewrite play_bind. unfold do_step, call. rewrite !play_bind, play_catch. unfold step_lookup. rewrite play_bind.
  unfold validate_step_request. rewrite Hn. cbn -[run_prog ignore fail_terminal]. rewrite Hf. cbn -[run_prog ignore fail_terminal]. rewrite Hk. cbn -[ignore fail_terminal].
  specialize (Ha (S (S t)) Transport) as Ha1. destruct (answer (S (S t)) Transport) as [v1|]; [|done].
  set (e := take_chars _ _). clearbody e. rewrite play_ret. cbv beta iota. unfold ignore. rewrite play_bind, play_catch.
  destruct (fail_terminal_run fault_at (claim_id c) (claim_lease c) e d (S (S (S t))) i Hi Hh) as (d' & t' & r & -> & i' & Hi' & Hst & Hrc).
  { intros u Hu. apply Hf'. lia. }
  cbn. eauto 8.
Qed.
End traces.

(** ** Sample runs *)

Module WorkflowSample.
Definition now_at (n : nat) : Z := 1000 + Z.of_nat n.
Definition id_at (n : nat) : string := pretty n.
Definition answer (_ : nat) (_ : Question) : Answer := Ok "v".
Definition texts (_ : WfError) : string := "error".
Definition healthy (_ : nat) : Fault := Healthy.
(** The database is away between two interactions. *)
Definition away (n m : nat) (t : nat) : Fault := if Nat.leb n t && Nat.ltb t m then Refused else Healthy.

(** One step, whose result is the output. *)
Definition entry (_ : string) : Prog := Do "a" 0 (fun r => match r with Ok v => Return v | Err e => Throw e end).
(** A signal, whose payload is the output. *)
Definition listener (_ : string) : Prog := WaitForSignal "go" (fun r => match r with Ok v => Return v | Err e => Throw e end).

(** A signal, then a short sleep. *)
Definition sleeper (_ : string) : Prog := WaitForSignal "go" (fun _ => Sleep "nap" 5 (fun _ => Return "done")).

Definition create_in (key : string) (group : option string) : Op unit :=
  ignore (create_instance_in_group (Some (1, default_workflow)) (Some key) group "{}").
Notation create := (create_in "k" (Some "g")).
Definition send : Op unit := ignore (send_signal "wfi_2" "go" "p").
Definition driver (entry : string -> Prog) : Op unit := drive texts 1 entry "node" 1.

Definition after (fault_at : nat -> Fault) (ops : list (Op unit)) : Db := (play_all run now_at id_at fault_at answer ops empty_db 0).1.

(** What these runs compute is reached. *)
Lemma reached (started : Op unit -> Prop) (faults : Prop) fault_at ops ops' :
  Forall started ops -> Forall started ops' -> (forall n, fault_at n <> Healthy -> faults) ->
  exists s s', reachable run started faults empty_db s /\ state s = after fault_at ops /\ Forall over (pool s) /\
    rtc (step run started faults) s s' /\ state s' = after fault_at (ops ++ ops').
Proof.
  intros Ho Ho' Hf. assert (Hinj : forall n m, id_at n = id_at m -> n = m) by (intros n m Hnm; by apply (inj pretty) in Hnm).
  destruct (play_all_runs run started faults now_at id_at fault_at answer Hinj Hf ops [] ∅ empty_db 0 Ho) as (p & u & Hr & Hu & Hp);
    [intros n _; set_solver | constructor |].
  unfold after. rewrite play_all_app. destruct (play_all _ _ _ _ _ ops empty_db 0) as [d t]. cbn in *.
  destruct (play_all_runs run started faults now_at id_at fault_at answer Hinj Hf ops' p u d t Ho' Hu Hp) as (p' & u' & Hr' & _).
  eexists _, _. split_and!; [exact Hr | done | exact Hp | exact Hr' | done].
Qed.

(** A node that goes away after its claim. *)
Notation claimed := [create; driver entry].
Definition claim_lost : nat -> Fault := away 15 16.
(** An instance that was given its signal, slept, and is claimed again. *)
Definition replaying : Db := after (away 75 76) [create; driver sleeper; send; driver sleeper; driver sleeper].
(** One instance runs, one of its group and one without a group wait. *)
Definition crowded : Db := after claim_lost [create; driver entry; create_in "k2" (Some "g"); create_in "k3" None].

Lemma create_op entries key group : operation entries (create_in key group).
Proof. exact (op_create entries _ _ _ _). Qed.
Lemma driver_op (entries : (string -> Prog) -> Prop) e : entries e -> operation entries (driver e).
Proof. exact (op_drive entries _ _ e _ _). Qed.
Lemma send_op entries : operation entries send.
Proof. exact (op_signal entries _ _ _). Qed.
#[export] Hint Resolve create_op driver_op send_op : sample.
#[export] Hint Extern 0 (any_entry _) => exact I : sample.
#[export] Hint Constructors Forall : sample.

Definition sample_config (key : string) (group : option string) (now : Z) : Config :=
  mkConfig (Some key) group 1 "{}" now 1 "MyWorkflow" 3 1500.
Definition in_flight : Instance :=
  mkInstance (sample_config "k" (Some "g") 1003) (mkLife None Running None (Some 1003) (Some "lease_13") (Some 301010) None 0 None 1010).

Lemma in_flight_claimed : instances (after claim_lost claimed) !! "wfi_2" = Some in_flight.
Proof. vm_compute. reflexivity. Qed.
End WorkflowSample.
Import WorkflowSample.


Lemma no_instance_is_stranded_witness : exists s,
  wf_reachable True s /\ instances (state s) !! "wfi_2" = Some in_flight /\ forall now, 301010 <= now ->
     exists i', instances (apply run (state s) (RequeueExpired now)) !! "wfi_2" = Some i' /\
       forall now', now <= now' -> due now' (life i') = true.
Proof.
  destruct (reached (operation any_entry) True claim_lost claimed []) as (s & _ & Hr & Hs & _); [by auto 10 with sample.. | done |].
  assert (Hi : instances (state s) !! "wfi_2" = Some in_flight) by (rewrite Hs; exact in_flight_claimed).
  exists s. split; [exact Hr|]. split; [exact Hi|].
  destruct (no_instance_is_stranded s "wfi_2" in_flight Hr Hi) as [H|[H|[[H _]|[[t H]|(u & Hu & H)]]]].
  - discriminate H.
  - discriminate H.
  - discriminate H.
  - specialize (H t (Z.le_refl t)). discriminate H.
  - injection Hu as <-. exact H.
Defined.

Lemma plain_claims max s : plain s -> claims_at_most max s.
Proof. intros (_ & _ & _ & _ & Hc). by destruct s. Qed.
Lemma create_claims max key group : issues (claims_at_most max) (create_in key group).
Proof. apply issues_ignore, issues_create. exact (plain_claims max). Qed.
Lemma driver_claims e : issues (claims_at_most 1) (driver e).
Proof.
  apply issues_bind; [apply issues_claim_one; [exact (plain_claims 1) | done]|].
  intros [c|]; [apply issues_advance; first [exact (plain_claims 1) | done] | done].
Qed.
#[local] Hint Resolve create_claims driver_claims : sample.

Lemma concurrency_is_bounded_witness : exists s : Sys Db Stmt Question Answer WfError,
  count running (instances (state s)) <= 1 /\ instances (state s) !! "wfi_2" = Some in_flight.
Proof.
  destruct (reached (fun t => operation any_entry t /\ issues (claims_at_most 1) t) True claim_lost claimed []) as (s & _ & Hr & Hs & _);
    [by auto 10 with sample.. | done |].
  exists s. split; [exact (concurrency_is_bounded 1 s ltac:(lia) Hr)|]. rewrite Hs. exact in_flight_claimed.
Defined.

Lemma plain_not_collect s : plain s -> not_collect s.
Proof. by intros (_ & ? & _). Qed.
Lemma create_keeps key group : issues not_collect (create_in key group).
Proof. apply issues_ignore, issues_create. exact plain_not_collect. Qed.
Lemma driver_keeps e : issues not_collect (driver e).
Proof.
  apply issues_bind; [apply issues_claim_one; [exact plain_not_collect | done]|].
  intros [c|]; [apply issues_advance; first [exact plain_not_collect | done] | done].
Qed.
#[local] Hint Resolve create_keeps driver_keeps : sample.

Definition done_step : Step := mkStep 1 KDo StepOk (Some "v") None None 1 1024 (Some 1024).
Lemma step_done : steps (after healthy claimed) !! ("wfi_2", "a") = Some done_step.
Proof. vm_compute. reflexivity. Qed.
Definition completed : Instance :=
  mkInstance (sample_config "k" (Some "g") 1003) (mkLife (Some "v") Complete None None None None None 0 (Some 1029) 1029).
Lemma instance_completed : instances (after healthy claimed) !! "wfi_2" = Some completed.
Proof. vm_compute. reflexivity. Qed.



Lemma one_instance_per_key_witness : exists s : Sys Db Stmt Question Answer WfError,
  forall id i, instances (state s) !! id = Some i -> instance_key (config i) = Some "k" -> id = "wfi_2".
Proof.
  destruct (reached (operation any_entry) True healthy [create; create] []) as (s & _ & Hr & Hs & _); [by auto 10 with sample.. | done |].
  exists s. intros id i Hi Hk. assert (H2 : exists i2, instances (state s) !! "wfi_2" = Some i2 /\ instance_key (config i2) = Some "k")
    by (rewrite Hs; vm_compute; eexists; split; reflexivity).
  destruct H2 as (i2 & H2 & Hk2). exact (one_instance_per_key s id "wfi_2" i i2 "k" Hr Hi H2 Hk Hk2).
Defined.

Lemma signals_always_wake_witness : exists s, wf_reachable False s /\
  signalled (state s) "wfi_2" "go" = true /\ ~ stuck (state s) "wfi_2" "go".
Proof.
  destruct (reached (operation any_entry) False healthy [create; driver listener; send] []) as (s & _ & Hr & Hs & Ho & _);
    [by auto 10 with sample.. | done |].
  exists s. split; [exact Hr|]. split; [rewrite Hs; vm_compute; reflexivity|]. exact (signals_always_wake s "wfi_2" "go" Hr Ho).
Defined.

Lemma lost_lease_is_fenced_witness : exists s : Sys Db Stmt Question Answer WfError,
  held (state s) "wfi_2" "lease_13" = false /\
  apply run (state s) (FinishInstance "wfi_2" "lease_13" "late" 2000) = state s.
Proof.
  destruct (reached (operation any_entry) True claim_lost claimed [ignore (pause "wfi_2")]) as (s & s' & Hr & Hs & _ & Hr' & Hs');
    [by auto 10 with sample | repeat constructor | done |].
  assert (H1 : held (state s) "wfi_2" "lease_13" = true) by (rewrite Hs; vm_compute; reflexivity).
  assert (H2 : held (state s') "wfi_2" "lease_13" = false) by (rewrite Hs'; vm_compute; reflexivity).
  destruct (lost_lease_is_fenced s s' s' "wfi_2" "lease_13" (FinishInstance "wfi_2" "lease_13" "late" 2000) Hr H1 Hr' H2 (rtc_refl _ _)) as [Hl He].
  exists s'. split; [exact Hl | exact (He eq_refl)].
Defined.

Lemma replaying_instance : exists i, instances replaying !! "wfi_2" = Some i /\ holds "lease_73" (life i) = true /\
  signals replaying !! "sig_33" = Some (mkSignal "wfi_2" "go" "p" (Some 1052) 1034) /\ signalled replaying "wfi_2" "go" = false.
Proof. vm_compute. eexists. repeat split; reflexivity. Qed.

(** The signal came, and the replay waits for it for ever. *)
Lemma delivered_signal_is_not_replayed_witness :
  signals replaying !! "sig_33" = Some (mkSignal "wfi_2" "go" "p" (Some 1052) 1034) /\
  exists d' t' i', play run now_at id_at healthy answer (run_prog texts 1 "wfi_2" "lease_73" (sleeper "{}")) replaying 80 = (d', t', Ok AParked) /\
    instances d' !! "wfi_2" = Some i' /\ waiting_for (life i') = Some "go" /\ forall now, due now (life i') = false.
Proof.
  destruct replaying_instance as (i & Hi & Hh & Hg & Hn). split; [exact Hg|].
  exact (delivered_signal_is_not_replayed now_at id_at answer texts 0 "wfi_2" "lease_73" "go" _ replaying 80 i eq_refl Hi Hh Hn).
Defined.

Definition signalled_in_flight : Db := after claim_lost [create; driver entry; send].
Lemma in_flight_signalled : exists i, instances signalled_in_flight !! "wfi_2" = Some i /\ holds "lease_13" (life i) = true /\
  signalled signalled_in_flight "wfi_2" "go" = true.
Proof. vm_compute. eexists. repeat split; reflexivity. Qed.

Lemma lost_answer_strands_signal_witness :
  exists d' t' i', play run now_at id_at (fun _ => ReplyLost) answer (wait_signal "wfi_2" "lease_13" "go") signalled_in_flight 30 = (d', t', Err Unavailable) /\
    stuck d' "wfi_2" "go" /\ instances d' !! "wfi_2" = Some i' /\ forall now, due now (life i') = false.
Proof.
  destruct in_flight_signalled as (i & Hi & Hh & Hg).
  exact (lost_answer_strands_signal now_at id_at answer (fun _ => ReplyLost) "wfi_2" "lease_13" "go" signalled_in_flight 30 i Hi Hh Hg eq_refl).
Defined.

Definition queued_at (key : string) (group : option string) (now : Z) : Instance := mkInstance (sample_config key group now) (new_life now).

Lemma full_group_blocks_others_witness :
  let d1 := apply run crowded (RequeueExpired 1041) in
  due 1041 (life (queued_at "k3" None 1028)) = true /\
  "wfi_27" <> "wfi_18" /\ exists t', play run now_at id_at healthy answer (claim_one "node" 10) crowded 40 = (d1, t', Ok None).
Proof.
  intros d1. split; [reflexivity|].
  refine (full_group_blocks_others now_at id_at answer "node" 10 crowded 40 "wfi_18" (queued_at "k2" (Some "g") 1019)
    "wfi_27" (queued_at "k3" None 1028) _ _ _ _ _); vm_compute; reflexivity.
Defined.

Lemma lost_read_fails_workflow_witness : exists d' t' i',
  play run now_at id_at (away 51 52) answer (advance texts (dispatch texts 1 entry) (mkClaim "wfi_2" in_flight "lease_13"))
    (after claim_lost claimed) 50 = (d', t', Ok tt) /\
  instances d' !! "wfi_2" = Some i' /\ status (life i') = SFailed /\ retry_count (life i') = 0.
Proof.
  refine (lost_read_fails_workflow now_at id_at answer texts 1 entry (mkClaim "wfi_2" in_flight "lease_13") (after claim_lost claimed) 50 in_flight
    "a" 0 _ (away 51 52) eq_refl _ eq_refl in_flight_claimed eq_refl _ eq_refl _).
  - intros e. reflexivity.
  - intros t q. reflexivity.
  - intros u Hu. unfold away. destruct (Nat.ltb_spec u 52); [lia|]. rewrite andb_false_r. reflexivity.
Defined.
