(* ===== verification/WorkflowBind.v ===== *)
(** * WorkflowBind: requests of Workers to their workflows (crates/rf/src/workflowbind.rs)

    The loopback service between the Workers of a node and the workflow databases: the
    operations a Worker may use through a binding of its manifest, and the step
    operations of the workflows it executes.  The body of a request is read by
    [serde_json], a parameter. *)

From Stdlib Require Import ZArith Lia Ascii.
From stdpp Require Import prelude gmap strings list.
From S2P Require Import Prelude Text Script Hlc Identity Envelope Kv Cron Claim Manifest Quorum DataAudit Observability Store Node NodeFacts Resource Workflow.
Open Scope Z_scope.

Definition WORKFLOW_HEADER : string := "x-rf-workflow".
Definition WORKER_HEADER : string := "x-rf-worker".

Inductive BindingRequest : Type :=
| Create (id group : option string) (params : string)
| BStatus (id : string)
| Pause (id : string)
| Resume (id : string)
| BTerminate (id : string)
| Restart (id : string)
| SendEvent (id event_type payload : string).

Inductive StepRequest : Type :=
| SLookup (workflow id lease name : string)
| SRecord (workflow id lease name st : string) (res error : option string) (attempts : Z)
| SSleep (workflow id lease name : string) (duration_ms : Z)
| SSignal (workflow id lease name : string).

Definition step_workflow (r : StepRequest) : string :=
  match r with SLookup w _ _ _ | SRecord w _ _ _ _ _ _ _ | SSleep w _ _ _ _ | SSignal w _ _ _ => w end.

Inductive BindError : Type := NotLoopback | NoHeader | BadHeader | NoWorkflow | BadRequest | WrongWorker.

(** What the service answers. *)
Inductive BindReply : Type :=
| Created (id : string) (st : Status)
| StatusOf (id : string) (i : Instance)
| BOk
| SignalSent (signal_id : string)
| LookupReply (l : Lookup)
| SleepAnswer (r : SleepReply)
| SignalAnswer (r : SignalReply).

Definition loopback (is_loopback : bool) : result unit BindError := if is_loopback then Ok tt else Err NotLoopback.
Definition header (headers : gmap string string) (name : string) : result string BindError :=
  match headers !! name with Some v => Ok v | None => Err NoHeader end.

(** [action_result]. *)
Definition action_result (changed : bool) : Op BindReply := if changed then ret BOk else fail InstanceMissing.

#[local] Notation "'let!' x := m 'in' k" := (Script.bind m (fun x => k)) (at level 200, x pattern, m at level 100, k at level 200).

Section service.
Context {redb : Redb} {crypto : Crypto} {hex : Hex} {json : Json} {wf_json : WorkflowJson}.
Context {pc_env : Postcard Envelope} {pc_resource : Postcard ResourceRecord}.
Context (binding_from_slice : bytes -> option BindingRequest) (step_from_slice : bytes -> option StepRequest).
Context (n : Node) (now_at : string -> Z) (fuel : nat).

(** What [create_instance_in_group] finds when it reads the definition itself. *)
Definition definition_of (workflow : string) : option (Z * WorkflowSpec) :=
  (fun vs => (r_version (resource vs.1), vs.2)) <$> workflow_record n workflow now_at.

(** The operation of a request, on the database of its workflow. *)
Definition binding_op (workflow : string) (r : BindingRequest) : Op BindReply :=
  match r with
  | Create id group params =>
      let! i := create_instance_in_group (definition_of workflow) id group params in
      ret (Created i.1 (status (life i.2)))
  | BStatus id =>
      let! i := instance id in
      match i with Some i => ret (StatusOf id i) | None => fail InstanceMissing end
  | Pause id => let! b := pause id in action_result b
  | Resume id => let! b := resume id in action_result b
  | BTerminate id => let! b := terminate id in action_result b
  | Restart id => let! b := restart id in action_result b
  | SendEvent id event_type payload =>
      let! s := send_signal id event_type payload in
      ret (SignalSent s)
  end.

(** [binding_inner]: the workflow whose database is used, and the operation. *)
Definition binding_inner (is_loopback : bool) (headers : gmap string string) (body : bytes) : result (string * Op BindReply) BindError :=
  let? _ := loopback is_loopback in
  let? workflow := header headers WORKFLOW_HEADER in
  if negb (valid_name workflow) then Err BadHeader
  else
    match workflow_record n workflow now_at with
    | None => Err NoWorkflow
    | Some _ =>
        match binding_from_slice body with
        | None => Err BadRequest
        | Some r => Ok (workflow, binding_op workflow r)
        end
    end.

Definition step_op (r : StepRequest) : Op BindReply :=
  match r with
  | SLookup _ id lease name => let! l := step_lookup id lease name in ret (LookupReply l)
  | SRecord _ id lease name st res error attempts => let! _ := step_record id lease name st res error attempts in ret BOk
  | SSleep _ id lease name duration => let! r := step_sleep id lease name duration in ret (SleepAnswer r)
  | SSignal _ id lease name => let! r := step_signal fuel id lease name in ret (SignalAnswer r)
  end.

(** [step_inner]. *)
Definition step_inner (is_loopback : bool) (headers : gmap string string) (body : bytes) : result (string * Op BindReply) BindError :=
  let? _ := loopback is_loopback in
  let? worker_name := header headers WORKER_HEADER in
  if negb (valid_name worker_name) then Err BadHeader
  else
    match step_from_slice body with
    | None => Err BadRequest
    | Some r =>
        match workflow_record n (step_workflow r) now_at with
        | None => Err NoWorkflow
        | Some (_, spec) =>
            if negb (bool_decide (worker spec = worker_name)) then Err WrongWorker
            else Ok (step_workflow r, step_op r)
        end
    end.
End service.

(** The instance and the lease a step request names. *)
Definition step_lease (r : StepRequest) : string * string :=
  match r with
  | SLookup _ id lease _ | SRecord _ id lease _ _ _ _ _ | SSleep _ id lease _ _ | SSignal _ id lease _ => (id, lease)
  end.

Section guarding.
Context {redb : Redb} {crypto : Crypto} {hex : Hex} {json : Json} {wf_json : WorkflowJson}.
Context {pc_env : Postcard Envelope} {pc_resource : Postcard ResourceRecord}.
Context (times : nat -> Z) (ids : nat -> string) (fault_at : nat -> Fault) (answer : nat -> Question -> Answer).
Notation playing := (play run times ids fault_at answer).

Lemma validate_refuses id lease name d t :
  held d id lease = false -> exists t' e, playing (validate_step_request id lease name) d t = (d, t', Err e).
Proof.
  intros Hh. unfold validate_step_request. destruct (validate_step_name name) as [[]|e]; [|by eexists _, _].
  cbn. destruct (fault_at t); cbn; rewrite ?Hh; by eexists _, _.
Qed.

Lemma play_after_refusal {A B} (m : Op A) (f : A -> Op B) d t :
  (exists t' e, playing m d t = (d, t', Err e)) -> exists t' e, playing (Script.bind m f) d t = (d, t', Err e).
Proof. intros (t' & e & Hm). rewrite play_bind, Hm. eauto. Qed.

Lemma step_op_refuses fuel r d t :
  held d (step_lease r).1 (step_lease r).2 = false -> exists t' e, playing (step_op fuel r) d t = (d, t', Err e).
Proof. intros Hh. destruct r; cbn in Hh; do 2 apply play_after_refusal; by apply validate_refuses. Qed.

(** C12: A step request reaches a workflow's database only from the Worker the signed definition
    names, through the loopback interface, and without the lease its instance is held
    under it is answered with an error and changes nothing, whatever the database does. *)
Theorem step_needs_worker_and_lease step_from_slice n now_at fuel is_loopback headers body workflow op :
  step_inner step_from_slice n now_at fuel is_loopback headers body = Ok (workflow, op) ->
  is_loopback = true /\
  (exists view spec, workflow_record n workflow now_at = Some (view, spec) /\ headers !! WORKER_HEADER = Some (worker spec)) /\
  exists r, step_from_slice body = Some r /\ step_workflow r = workflow /\
    forall d t, held d (step_lease r).1 (step_lease r).2 = false -> exists t' e, playing op d t = (d, t', Err e).
Proof.
  unfold step_inner, loopback, header. intros H. destruct is_loopback; [|done]. destruct (headers !! WORKER_HEADER) as [w|] eqn:Ew; [|done].
  cbn in H. destruct (negb (valid_name w)); [done|]. destruct (step_from_slice body) as [r|]; [|done].
  destruct (workflow_record n (step_workflow r) now_at) as [[view spec]|] eqn:Er; [|done].
  destruct (negb _) eqn:Eb; [done|]. apply negb_false_iff, bool_decide_eq_true in Eb. injection H as <- <-.
  split; [done|]. split; [by exists view, spec; subst|]. exists r. split_and!; [done..|]. intros d t Hh. by apply step_op_refuses.
Qed.
End guarding.

(** A node with one workflow, executed by the Worker [app], for the witness. *)
Module SampleBinding.
Import SampleHash.
#[export] Instance wf_json : WorkflowJson (json := SampleHash.json) := {|
  workflow_to_value := fun _ => true;
  workflow_from_value := fun v => if v then Some (mkWorkflowSpec "" "app" "MyWorkflow" false "" 30 3 1500 None false [] [] 0 1) else None
|}.
Definition record : ResourceRecord := mkResource 1 WORKFLOW_KIND "orders" 1 None false "{}".
Definition node : Node := (Resource.ingest start (seal_any record operator) 1 2 3).1.
Definition request (_ : bytes) : option StepRequest := Some (SLookup "orders" "wfi_1" "lease_1" "charge").
Definition from (name : string) : gmap string string := {[WORKER_HEADER := name]}.

Lemma accepted : exists op, step_inner request node (fun _ => 7) 1 true (from "app") [] = Ok ("orders", op).
Proof. eexists. vm_compute. reflexivity. Qed.
End SampleBinding.

Import SampleHash SampleBinding.

Lemma step_needs_worker_and_lease_witness : exists op,
  step_inner SampleBinding.request SampleBinding.node (fun _ => 7) 1 true (SampleBinding.from "app") [] = Ok ("orders", op) /\
  exists t' e, play run (fun _ => 5) (fun _ => "x") (fun _ => Healthy) (fun _ _ => Ok "v") op empty_db 0 = (empty_db, t', Err e).
Proof.
  destruct SampleBinding.accepted as [op Hop]. exists op. split; [exact Hop|].
  destruct (step_needs_worker_and_lease (fun _ => 5) (fun _ => "x") (fun _ => Healthy) (fun _ _ => Ok "v") SampleBinding.request
    SampleBinding.node (fun _ => 7) 1 true (SampleBinding.from "app") [] "orders" op Hop) as (_ & _ & r & Hr & _ & H).
  injection Hr as <-. exact (H empty_db 0%nat eq_refl).
Defined.
