(* ===== verification/Json.v ===== *)
(** * Json: the values of [serde_json]

    [Value] with its accessors, as the flow engine uses them.  An object is the list of its
    entries in the order of its keys; numbers are the three kinds of [Number], with
    IEEE doubles as the Standard Library specifies them.  Reading and writing text
    is the library's: a parameter. *)

From Stdlib Require Import ZArith Lia Ascii SpecFloat.
From stdpp Require Import prelude gmap strings list.
From S2P Require Import Prelude Text.
Open Scope Z_scope.

(** [f64]. *)
Definition F64 : Type := spec_float.
Definition f64_of_Z (z : Z) : F64 := binary_normalize 53 1024 z 0 false.
Definition f64_is_finite (f : F64) : bool := match f with S754_zero _ | S754_finite _ _ _ => true | _ => false end.

Inductive Number : Type :=
| PosInt (n : Z)
| NegInt (n : Z)
| Float (f : F64).

Inductive J : Type :=
| JNull
| JBool (b : bool)
| JNum (n : Number)
| JStr (s : string)
| JArr (l : list J)
| JObj (m : list (string * J)).

(** The entries of an object, by key; a later entry replaces an earlier one. *)
Fixpoint obj_insert {A} (k : string) (v : A) (m : list (string * A)) : list (string * A) :=
  match m with
  | [] => [(k, v)]
  | (k', v') :: m' =>
      match cmp k k' with
      | Lt => (k, v) :: m
      | Eq => (k, v) :: m'
      | Gt => (k', v') :: obj_insert k v m'
      end
  end.
Definition obj_of {A} (l : list (string * A)) : list (string * A) := foldl (fun m kv => obj_insert kv.1 kv.2 m) [] l.
Fixpoint obj_get {A} (k : string) (m : list (string * A)) : option A :=
  match m with
  | [] => None
  | (k', v) :: m' => if bool_decide (k = k') then Some v else obj_get k m'
  end.

Definition jobject (l : list (string * J)) : J := JObj (obj_of l).

(** The accessors. *)
Definition as_str (v : J) : option string := match v with JStr s => Some s | _ => None end.
Definition as_u64 (v : J) : option Z := match v with JNum (PosInt n) => Some n | _ => None end.
Definition number_as_f64 (n : Number) : F64 := match n with PosInt z | NegInt z => f64_of_Z z | Float f => f end.
Definition as_f64 (v : J) : option F64 := match v with JNum n => Some (number_as_f64 n) | _ => None end.
Definition as_array (v : J) : option (list J) := match v with JArr l => Some l | _ => None end.
Definition jget (k : string) (v : J) : option J := match v with JObj m => obj_get k m | _ => None end.

(** [==]. *)
Definition number_eqb (a b : Number) : bool :=
  match a, b with
  | PosInt x, PosInt y | NegInt x, NegInt y => x =? y
  | Float x, Float y => SFeqb x y
  | _, _ => false
  end.
Fixpoint jeqb (a b : J) {struct a} : bool :=
  match a, b with
  | JNull, JNull => true
  | JBool x, JBool y => Bool.eqb x y
  | JNum x, JNum y => number_eqb x y
  | JStr x, JStr y => bool_decide (x = y)
  | JArr l, JArr l' =>
      (fix go (l l' : list J) : bool :=
         match l, l' with
         | [], [] => true
         | x :: l, y :: l' => jeqb x y && go l l'
         | _, _ => false
         end) l l'
  | JObj m, JObj m' =>
      (fix go (m m' : list (string * J)) : bool :=
         match m, m' with
         | [], [] => true
         | (k, x) :: m, (k', y) :: m' => bool_decide (k = k') && jeqb x y && go m m'
         | _, _ => false
         end) m m'
  | _, _ => false
  end.

(** [serde_json::to_string] and [serde_json::from_str]. *)
Class SerdeJson := {
  to_text : J -> string;
  from_text : string -> option J
}.
Class SerdeJsonOk `{SerdeJson} : Prop := from_to_text : forall v, from_text (to_text v) = Some v.

(** ** Lemmas *)

Lemma J_nested_ind (P : J -> Prop) :
  P JNull -> (forall b, P (JBool b)) -> (forall n, P (JNum n)) -> (forall s, P (JStr s)) ->
  (forall l, Forall P l -> P (JArr l)) -> (forall m, Forall (fun kv => P kv.2) m -> P (JObj m)) -> forall v, P v.
Proof.
  intros H0 H1 H2 H3 H4 H5. refine (fix go (v : J) : P v := _). destruct v as [|b|n|s|l|m].
  - exact H0.
  - apply H1.
  - apply H2.
  - apply H3.
  - apply H4. induction l as [|x l IH]; constructor; [apply go | exact IH].
  - apply H5. induction m as [|[k x] m IH]; constructor; [apply go | exact IH].
Qed.

Lemma obj_get_insert {A} k v (m : list (string * A)) j : obj_get j (obj_insert k v m) = if bool_decide (j = k) then Some v else obj_get j m.
Proof.
  induction m as [|[k' v'] m IH]; cbn; [done|]. destruct (cmp k k') eqn:E; cbn.
  - apply cmp_eq_iff in E as ->. by destruct (bool_decide (j = k')).
  - done.
  - rewrite IH. destruct (bool_decide (j = k')) eqn:Ej, (bool_decide (j = k)) eqn:Ek; try done. to_prop. subst.
    by rewrite cmp_refl in E.
Qed.

Lemma obj_get_of {A} (l : list (string * A)) k :
  obj_get k (obj_of l) = snd <$> last (filter (fun kv => kv.1 = k) l).
Proof.
  unfold obj_of. induction l as [|[k' v] l IH] using rev_ind; [done|]. rewrite foldl_snoc, filter_app. cbn [fst snd].
  rewrite obj_get_insert, IH. destruct (decide (k' = k)) as [->|Hne].
  - rewrite bool_decide_true by done. rewrite (filter_cons_True _ (k, v)) by done. by rewrite filter_nil, last_snoc.
  - rewrite bool_decide_false by done. rewrite (filter_cons_False _ (k', v)) by done. by rewrite filter_nil, app_nil_r.
Qed.
