(* ===== verification/FlowGraph.v ===== *)
(** * FlowGraph: the graphs of flows (crates/rf/src/flow.rs)

    Nodes, edges and their validation: node settings without credentials, one trigger, and a
    graph without cycles, checked by counting incoming edges; and the body of a loop.
    The iteration order of the hash maps of the source is a parameter. *)

From Stdlib Require Import ZArith Lia Ascii SpecFloat.
From stdpp Require Import prelude gmap strings list relations.
From S2P Require Import Prelude Text Json.
Open Scope Z_scope.

Definition MAX_GRAPH_BYTES : Z := 768 * 1024.
Definition MAX_NODES : Z := 500.
Definition MAX_EDGES : Z := 2000.
Definition MAX_JSONATA_EXPRESSION_BYTES : Z := 16 * 1024.

Record FlowPosition : Type := mkPosition { pos_x : F64; pos_y : F64 }.

(** [FlowNode] with its [FlowNodeData]. *)
Record FlowNode : Type := mkFlowNode {
  node_id : string;
  render_type : string;
  position : FlowPosition;
  node_type : string;
  node_label : string;
  on_error : string;
  node_config : list (string * J)
}.

Record FlowEdge : Type := mkEdge {
  edge_id : string;
  source : string;
  target : string;
  source_handle : option string;
  target_handle : option string
}.

Record FlowGraph : Type := mkGraph { nodes : list FlowNode; edges : list FlowEdge }.

Inductive GraphError : Type :=
| NoNodes
| TooLargeGraph
| BadGraphId (id : string)
| DuplicateNode (id : string)
| LabelTooLong
| DuplicateLabel (label : string)
| BadPosition (id : string)
| BadOnError
| BadNodeType (ty : string)
| BadConfig
| EmbeddedSecret
| BadSecretEnv
| ExpressionTooLong (id field : string)
| TriggerCount
| DuplicateEdge (id : string)
| BadEdge (id : string)
| IndexCorrupt
| HasCycle.

(** [validate_graph_id], [validate_secret_env]. *)
Definition graph_id_char (c : ascii) : bool :=
  is_ascii_alphanumeric c || bool_decide (c = "_"%char) || bool_decide (c = "-"%char) || bool_decide (c = "."%char).
Definition validate_graph_id (value : string) : result unit GraphError :=
  if is_empty value || (128 <? slen value) || negb (all_bytes graph_id_char value) then Err (BadGraphId value) else Ok tt.

Definition secret_env_char (c : ascii) : bool := is_ascii_upper c || is_ascii_digit c || bool_decide (c = "_"%char).
Definition validate_secret_env (name : string) : result unit GraphError :=
  if negb (starts_with "RF_FLOW_CREDENTIAL_" name) || (128 <? slen name) || negb (all_bytes secret_env_char name)
  then Err BadSecretEnv else Ok tt.

(** The words that betray a credential. *)
Definition SECRET_WORDS : list string := ["secret"; "password"; "token"; "authorization"; "apikey"; "api_key"].
Definition secret_key (key : string) : bool := existsb (fun needle => contains needle (to_ascii_lowercase key)) SECRET_WORDS.

(** [reject_nested_secret]. *)
Fixpoint nested_secret (v : J) : bool :=
  match v with
  | JObj m =>
      (fix go (m : list (string * J)) : bool :=
         match m with [] => false | (k, x) :: m => secret_key k || nested_secret x || go m end) m
  | JArr l => (fix go (l : list J) : bool := match l with [] => false | x :: l => nested_secret x || go l end) l
  | _ => false
  end.

Definition KINDS : list string :=
  ["trigger"; "worker"; "http"; "branch"; "loop"; "transform"; "subflow"; "kv"; "d1"; "queue"; "analytics"; "workflow"; "r2";
   "pipeline"; "email"].

Definition bad_key (key : string) : bool :=
  (128 <? slen key) || contains_byte "013" key || contains_byte "010" key || contains_byte "000" key.

Fixpoint check_config (m : list (string * J)) : result unit GraphError :=
  match m with
  | [] => Ok tt
  | (key, v) :: m' =>
      if bad_key key then Err BadConfig
      else if secret_key key && negb (bool_decide (to_ascii_lowercase key = "credentialenv")) then Err EmbeddedSecret
      else if nested_secret v then Err EmbeddedSecret
      else check_config m'
  end.

Fixpoint check_fields (n : FlowNode) (fields : list string) : result unit GraphError :=
  match fields with
  | [] => Ok tt
  | f :: fields' =>
      match obj_get f (node_config n) ≫= as_str with
      | Some text => if MAX_JSONATA_EXPRESSION_BYTES <? slen text then Err (ExpressionTooLong (node_id n) f) else check_fields n fields'
      | None => check_fields n fields'
      end
  end.

Section validation.
Context {serde : SerdeJson}.
(** What [serde_json] writes for a graph, and the order of a hash map. *)
Context (graph_text : FlowGraph -> string) (order : list string -> list string).

(** [validate_node_config]. *)
Definition validate_node_config (n : FlowNode) : result unit GraphError :=
  if negb (bool_decide (node_type n ∈ KINDS)) then Err (BadNodeType (node_type n))
  else if 64 <? Z.of_nat (length (node_config n)) then Err BadConfig
  else if 128 * 1024 <? slen (to_text (JObj (node_config n))) then Err BadConfig
  else
    let? _ := check_config (node_config n) in
    let? _ := match obj_get "credentialEnv" (node_config n) with Some (JStr name) => validate_secret_env name | _ => Ok tt end in
    check_fields n ["expression"; "condition"; "items"; "itemsPath"].

Definition MILLION : F64 := f64_of_Z 1000000.
Definition bad_coordinate (f : F64) : bool := negb (f64_is_finite f) || SFltb MILLION (SFabs f).

(** The loop over the nodes: the ids and labels seen, and the triggers. *)
Fixpoint check_nodes (ids labels : list string) (triggers : Z) (l : list FlowNode) : result Z GraphError :=
  match l with
  | [] => Ok triggers
  | n :: l' =>
      let? _ := validate_graph_id (node_id n) in
      if bool_decide (node_id n ∈ ids) then Err (DuplicateNode (node_id n))
      else if 128 <? slen (node_label n) then Err LabelTooLong
      else if negb (is_empty (node_label n)) && bool_decide (node_label n ∈ labels) then Err (DuplicateLabel (node_label n))
      else if bad_coordinate (pos_x (position n)) || bad_coordinate (pos_y (position n)) then Err (BadPosition (node_id n))
      else if negb (bool_decide (on_error n ∈ [""; "stop"; "continue"; "branch"])) then Err BadOnError
      else
        let? _ := validate_node_config n in
        check_nodes (node_id n :: ids) (if is_empty (node_label n) then labels else node_label n :: labels)
          (if bool_decide (node_type n = "trigger") then triggers + 1 else triggers) l'
  end.

(** The loop over the edges. *)
Fixpoint check_edges (ids seen : list string) (pairs : list (string * string * string)) (l : list FlowEdge) : result unit GraphError :=
  match l with
  | [] => Ok tt
  | e :: l' =>
      let? _ := validate_graph_id (edge_id e) in
      if bool_decide (edge_id e ∈ seen) then Err (DuplicateEdge (edge_id e))
      else if bool_decide (source e = target e) || negb (bool_decide (source e ∈ ids)) || negb (bool_decide (target e ∈ ids))
      then Err (BadEdge (edge_id e))
      else
        let pair := (source e, target e, default "" (source_handle e)) in
        if bool_decide (pair ∈ pairs) then Err (DuplicateEdge (edge_id e))
        else check_edges ids (edge_id e :: seen) (pair :: pairs) l'
  end.

(** The edges still to come into each node, and the targets of a node in the order of
    the edges. *)
Definition indegrees (g : FlowGraph) : gmap string nat :=
  foldl (fun m e => <[target e := S (default 0%nat (m !! target e))]> m)
    (list_to_map (map (fun n => (node_id n, 0%nat)) (nodes g))) (edges g).
Definition outgoing (g : FlowGraph) (id : string) : list string := map target (filter (fun e => source e = id) (edges g)).

(** One node taken from the queue: [None] when a degree is missing; a degree below zero
    would be a panic and is [None] too. *)
Fixpoint relax (ts : list string) (ready : list string) (degree : gmap string nat) : option (list string * gmap string nat) :=
  match ts with
  | [] => Some (ready, degree)
  | t :: ts' =>
      match degree !! t with
      | Some (S k) => relax ts' (if bool_decide (k = 0%nat) then ready ++ [t] else ready) (<[t := k]> degree)
      | _ => None
      end
  end.

(** The queue of [validate_graph], and the number of nodes visited. *)
Fixpoint visit (fuel : nat) (g : FlowGraph) (ready : list string) (degree : gmap string nat) (visited : nat) : option nat :=
  match ready with
  | [] => Some visited
  | id :: ready' =>
      match fuel with
      | O => None
      | S fuel' =>
          match relax (outgoing g id) ready' degree with
          | Some (ready'', degree') => visit fuel' g ready'' degree' (S visited)
          | None => None
          end
      end
  end.

Definition sources (g : FlowGraph) : list string :=
  order (map fst (filter (fun kd => kd.2 = 0%nat) (map_to_list (indegrees g)))).

Definition check_cycles (g : FlowGraph) : result unit GraphError :=
  match visit (length (nodes g)) g (sources g) (indegrees g) 0 with
  | Some visited => if bool_decide (visited = length (nodes g)) then Ok tt else Err HasCycle
  | None => Err IndexCorrupt
  end.

(** [validate_graph]. *)
Definition validate_graph (g : FlowGraph) : result unit GraphError :=
  if bool_decide (nodes g = []) then Err NoNodes
  else if (MAX_NODES <? Z.of_nat (length (nodes g))) || (MAX_EDGES <? Z.of_nat (length (edges g))) then Err TooLargeGraph
  else if MAX_GRAPH_BYTES <? slen (graph_text g) then Err TooLargeGraph
  else
    let? triggers := check_nodes [] [] 0 (nodes g) in
    if negb (triggers =? 1) then Err TriggerCount
    else
      let? _ := check_edges (map node_id (nodes g)) [] [] (edges g) in
      check_cycles g.
End validation.

(** ** The body of a loop ([loop_body]) *)

Definition handle_targets (g : FlowGraph) (id handle : string) : list string :=
  remove_dups (map target (filter (fun e => source e = id /\ source_handle e = Some handle) (edges g))).

(** The nodes after the loop: the first queue; [None] without fuel. *)
Fixpoint push_new (id : string) (ts : list string) (queue : list string) (stop : gset string) : list string * gset string :=
  match ts with
  | [] => (queue, stop)
  | t :: ts' =>
      if negb (bool_decide (t = id)) && negb (bool_decide (t ∈ stop)) then push_new id ts' (queue ++ [t]) ({[t]} ∪ stop)
      else push_new id ts' queue stop
  end.
Fixpoint after_loop (fuel : nat) (g : FlowGraph) (id : string) (queue : list string) (stop : gset string) : option (gset string) :=
  match queue with
  | [] => Some stop
  | u :: queue' =>
      match fuel with
      | O => None
      | S fuel' => let '(queue'', stop') := push_new id (outgoing g u) queue' stop in after_loop fuel' g id queue'' stop'
      end
  end.

(** The nodes inside: the second queue. *)
Fixpoint inside_loop (fuel : nat) (g : FlowGraph) (stop : gset string) (queue : list string) (body : gset string) : option (gset string) :=
  match queue with
  | [] => Some body
  | u :: queue' =>
      match fuel with
      | O => None
      | S fuel' =>
          if bool_decide (u ∈ stop) || bool_decide (u ∈ body) then inside_loop fuel' g stop queue' body
          else inside_loop fuel' g stop (queue' ++ outgoing g u) ({[u]} ∪ body)
      end
  end.

Definition loop_body (id : string) (g : FlowGraph) : option (gset string * list string) :=
  let each := handle_targets g id "each" in
  let exits := handle_targets g id "done" in
  let fuel := (2 * length (edges g))%nat in
  stop ← after_loop fuel g id exits (list_to_set exits);
  body ← inside_loop fuel g ({[id]} ∪ stop) each ∅;
  Some (body, filter (fun t => t ∈ body) each).

(** ** Cycles *)

Definition edge_rel (g : FlowGraph) (u v : string) : Prop := exists e, e ∈ edges g /\ source e = u /\ target e = v.
Definition acyclic (g : FlowGraph) : Prop := forall u, ~ tc (edge_rel g) u u.
Definition node_ids (g : FlowGraph) : list string := map node_id (nodes g).

(** What the checks before the search for cycles establish. *)
Record well_linked (g : FlowGraph) : Prop := {
  wl_ids : NoDup (node_ids g);
  wl_edges : forall e, e ∈ edges g -> source e ∈ node_ids g /\ target e ∈ node_ids g
}.

(** Among nodes without a cycle, one has no predecessor: following predecessors would come
    back to a node. *)
Section finite.
Context (R : string -> string -> Prop) (S : list string).

Inductive chain : list string -> Prop :=
| chain_one v : v ∈ S -> chain [v]
| chain_more u v l : u ∈ S -> R u v -> chain (v :: l) -> chain (u :: v :: l).

Lemma chain_in l : chain l -> Forall (.∈ S) l.
Proof. induction 1; auto. Qed.

Lemma chain_before u l : chain (u :: l) -> forall v, v ∈ l -> tc R u v.
Proof.
  revert u. induction l as [|w l IH]; intros u Hc v Hv; [by apply elem_of_nil in Hv|]. inversion Hc; subst.
  apply elem_of_cons in Hv as [->|Hv]; [by apply tc_once|]. eapply tc_l; [done|]. by apply IH.
Qed.

Lemma chain_nodup l : (forall u, ~ tc R u u) -> chain l -> NoDup l.
Proof.
  intros Ha. induction l as [|u l IH]; intros Hc; [constructor|]. constructor.
  - intros Hu. by apply (Ha u), (chain_before u l).
  - inversion Hc; subst; [constructor | by apply IH].
Qed.

Lemma chain_long : (forall v, v ∈ S -> exists u, u ∈ S /\ R u v) -> forall v, v ∈ S -> forall k, exists l, chain l /\ length l = Datatypes.S k.
Proof.
  intros Hp v Hv. induction k as [|k IH]; [exists [v]; split; [by constructor | done]|].
  destruct IH as (l & Hc & Hl). destruct l as [|w l]; [done|]. pose proof (chain_in _ Hc) as Hin. apply Forall_cons in Hin as [Hw _].
  destruct (Hp w Hw) as (u & Hu & Hr). exists (u :: w :: l). split; [by constructor | cbn in *; lia].
Qed.

Lemma acyclic_has_source : (forall u, ~ tc R u u) -> (forall u v, Decision (R u v)) -> S <> [] ->
  exists v, v ∈ S /\ forall u, u ∈ S -> ~ R u v.
Proof.
  intros Ha Hd Hne. destruct (decide (Exists (fun v => Forall (fun u => ~ R u v) S) S)) as [He|Hn].
  - apply Exists_exists in He as (v & Hv & Hf). exists v. split; [done|]. by rewrite Forall_forall in Hf.
  - exfalso. assert (Hp : forall v, v ∈ S -> exists u, u ∈ S /\ R u v).
    { intros v Hv. rewrite <- Forall_Exists_neg in Hn. rewrite Forall_forall in Hn. specialize (Hn v Hv).
      apply not_Forall_Exists in Hn; [|apply _]. apply Exists_exists in Hn as (u & Hu & Hr). exists u. split; [done|].
      destruct (Hd u v); [done|]. by destruct Hr. }
    assert (exists v, v ∈ S) as [v Hv] by (destruct S as [|v S']; [done | exists v; left]).
    destruct (chain_long Hp v Hv (length S)) as (l & Hc & Hl).
    pose proof (chain_nodup _ Ha Hc) as Hnd. pose proof (chain_in _ Hc) as Hin. rewrite Forall_forall in Hin.
    assert (length l <= length S)%nat; [|lia]. by apply submseteq_length, NoDup_submseteq.
Qed.
End finite.

(** ** The search for cycles *)

Definition occurrences (t : string) (ts : list string) : nat := length (filter (fun x => x = t) ts).

Lemma occurrences_cons t x ts : occurrences t (x :: ts) = ((if decide (x = t) then 1 else 0) + occurrences t ts)%nat.
Proof. unfold occurrences. rewrite filter_cons. by destruct (decide (x = t)). Qed.

Lemma occurrences_zero t ts : occurrences t ts = 0%nat <-> t ∉ ts.
Proof.
  induction ts as [|x ts IH]; [split; [intros _; apply not_elem_of_nil | done]|]. rewrite occurrences_cons, not_elem_of_cons, <- IH.
  destruct (decide (x = t)); split; intros; [lia | naive_solver | split; [by apply not_eq_sym | lia] | lia].
Qed.

Lemma relax_spec ts ready degree :
  (forall t, t ∈ ts -> exists d, degree !! t = Some d /\ (occurrences t ts <= d)%nat) ->
  exists new degree', relax ts ready degree = Some (ready ++ new, degree') /\
    (forall v, degree' !! v = (fun d => d - occurrences v ts)%nat <$> degree !! v) /\ NoDup new /\
    (forall v, v ∈ new <-> v ∈ ts /\ degree !! v = Some (occurrences v ts)).
Proof.
  revert ready degree. induction ts as [|t ts IH]; intros ready degree Hd.
  { exists [], degree. cbn. rewrite app_nil_r. split_and!; [done | | constructor |].
    - intros v. destruct (degree !! v) as [d|]; cbn; [|done]. f_equal. lia.
    - intros v. split; [intros H; by apply elem_of_nil in H | intros [H _]; by apply elem_of_nil in H]. }
  destruct (Hd t (list_elem_of_here _ _)) as (d & Ht & Hle). rewrite occurrences_cons, decide_True in Hle by done.
  destruct d as [|k]; [lia|]. cbn [relax]. rewrite Ht.
  destruct (IH (if bool_decide (k = 0%nat) then ready ++ [t] else ready) (<[t := k]> degree)) as (new & degree' & Hr & Hdeg & Hnd & Hnew).
  { intros v Hv. destruct (decide (v = t)) as [->|Hne]; [rewrite lookup_insert_eq; exists k; split; [done | lia]|].
    rewrite lookup_insert_ne by done. destruct (Hd v ltac:(by right)) as (d & Hvd & Hled). exists d. split; [done|].
    rewrite occurrences_cons in Hled. lia. }
  rewrite Hr. assert (Hdeg' : forall v, degree' !! v = (fun d => d - occurrences v (t :: ts))%nat <$> degree !! v).
  { intros v. rewrite Hdeg, occurrences_cons. destruct (decide (v = t)) as [->|Hne].
    - rewrite lookup_insert_eq, Ht, decide_True by done. cbn. f_equal.
    - rewrite lookup_insert_ne by done. rewrite decide_False by done. done. }
  destruct (bool_decide (k = 0%nat)) eqn:Ek; to_prop.
  - subst k. assert (Hnt : t ∉ ts) by (apply occurrences_zero; lia). exists (t :: new), degree'. rewrite <- app_assoc. split_and!; [done | done | |].
    + constructor; [|done]. rewrite Hnew. tauto.
    + intros v. rewrite !elem_of_cons, Hnew, occurrences_cons. destruct (decide (v = t)) as [->|Hne].
      * rewrite decide_True, (proj2 (occurrences_zero t ts)) by done. rewrite Ht. tauto.
      * rewrite decide_False, lookup_insert_ne by done. cbn. tauto.
  - exists new, degree'. split_and!; [done | done | done |]. intros v. rewrite Hnew, elem_of_cons, occurrences_cons.
    destruct (decide (v = t)) as [->|Hne].
    + rewrite decide_True, lookup_insert_eq, Ht by done. split.
      * intros [Hv [= He]]. split; [by right | f_equal; lia].
      * intros [_ [= He]]. split; [|f_equal; lia]. apply dec_stable. intros Hn. apply occurrences_zero in Hn. lia.
    + rewrite decide_False, lookup_insert_ne by done. cbn. tauto.
Qed.

Section kahn.
Context (g : FlowGraph) (WL : well_linked g).

(** The edges into [v] from nodes not yet visited. *)
Definition pending (P : list string) (v : string) : nat :=
  length (filter (fun e => target e = v /\ source e ∉ P) (edges g)).

Lemma pending_zero P v : pending P v = 0%nat <-> forall u, edge_rel g u v -> u ∈ P.
Proof.
  unfold pending. rewrite length_zero_iff_nil. split.
  - intros Hf u (e & He & <- & <-). apply dec_stable. intros Hn. assert (H : e ∈ filter (fun e' => target e' = target e /\ source e' ∉ P) (edges g))
      by by apply list_elem_of_filter. rewrite Hf in H. by apply elem_of_nil in H.
  - intros Hp. destruct (filter _ (edges g)) as [|e l] eqn:E; [done|]. exfalso.
    assert (H : e ∈ filter (fun e' => target e' = v /\ source e' ∉ P) (edges g)) by (rewrite E; left).
    apply list_elem_of_filter in H as [[Ht Hs] He]. apply Hs, Hp. by exists e.
Qed.

Lemma pending_visit P u v : u ∉ P -> pending P v = (pending (P ++ [u]) v + occurrences v (outgoing g u))%nat.
Proof.
  intros Hu. unfold pending, outgoing, occurrences. induction (edges g) as [|e l IH]; [done|]. rewrite !filter_cons.
  destruct (decide (source e = u)) as [Hs|Hs].
  - rewrite (decide_False (P := target e = v /\ source e ∉ P ++ [u])) by (intros [_ Hn]; apply Hn, elem_of_app; right; rewrite Hs; left).
    cbn [map]. rewrite filter_cons. destruct (decide (target e = v)) as [Ht|Ht].
    + rewrite decide_True by (split; [done | by rewrite Hs]). cbn [length]. rewrite IH. lia.
    + rewrite decide_False by tauto. exact IH.
  - destruct (decide (target e = v /\ source e ∉ P)) as [[Ht Hn]|Hn].
    + rewrite decide_True by (split; [done|]; rewrite not_elem_of_app; split; [done|]; by intros H%list_elem_of_singleton). cbn [length]. lia.
    + rewrite decide_False by (rewrite not_elem_of_app; tauto). exact IH.
Qed.

Lemma zero_degrees v : list_to_map (M := gmap string nat) (map (fun n => (node_id n, 0%nat)) (nodes g)) !! v =
  if decide (v ∈ node_ids g) then Some 0%nat else None.
Proof.
  unfold node_ids. induction (nodes g) as [|n l IH]; [done|]. cbn. destruct (decide (node_id n = v)) as [->|Hne].
  - by rewrite lookup_insert_eq, decide_True by left.
  - rewrite lookup_insert_ne by done. rewrite IH. destruct (decide (v ∈ map node_id l)) as [Hi|Hi].
    + by rewrite decide_True by by right.
    + rewrite decide_False; [done|]. rewrite elem_of_cons. naive_solver.
Qed.

Lemma indegrees_spec v : indegrees g !! v = if decide (v ∈ node_ids g) then Some (pending [] v) else None.
Proof.
  unfold indegrees. assert (H : forall l, Forall (fun e => target e ∈ node_ids g) l ->
    foldl (fun m e => <[target e := S (default 0%nat (m !! target e))]> m) (list_to_map (M := gmap string nat) (map (fun n => (node_id n, 0%nat)) (nodes g))) l !! v =
    if decide (v ∈ node_ids g) then Some (length (filter (fun e => target e = v /\ source e ∉ []) l)) else None).
  { intros l. induction l as [|e l IH] using rev_ind; intros Hl; [by rewrite zero_degrees|]. apply Forall_app in Hl as [Hl He].
    apply Forall_cons in He as [He _]. rewrite foldl_snoc, filter_app, length_app. specialize (IH Hl). destruct (decide (target e = v)) as [<-|Hne].
    - rewrite lookup_insert_eq, IH. destruct (decide (target e ∈ node_ids g)) as [Hi|Hi]; [|done]. rewrite filter_cons_True by (split; [done | apply not_elem_of_nil]). cbn. f_equal. lia.
    - rewrite lookup_insert_ne, IH by done. rewrite filter_cons_False by tauto. cbn. by rewrite Nat.add_0_r. }
  apply H, Forall_forall. intros e He. by apply WL.
Qed.

(** The state of the search: the nodes visited, in order, and those waiting. *)
Record search (P ready : list string) (degree : gmap string nat) : Prop := {
  se_degree : forall v, degree !! v = if decide (v ∈ node_ids g) then Some (pending P v) else None;
  se_nodup : NoDup (P ++ ready);
  se_nodes : forall v, v ∈ P ++ ready <-> v ∈ node_ids g /\ pending P v = 0%nat;
  se_order : forall P1 v P2, P = P1 ++ v :: P2 -> forall u, edge_rel g u v -> u ∈ P1
}.

Lemma outgoing_spec u v : v ∈ outgoing g u <-> edge_rel g u v.
Proof.
  unfold outgoing, edge_rel. rewrite list_elem_of_fmap. split.
  - intros (e & -> & [Hs He]%list_elem_of_filter). by exists e.
  - intros (e & He & Hs & <-). exists e. split; [done|]. by apply list_elem_of_filter.
Qed.

Lemma search_step P u ready degree : search P (u :: ready) degree ->
  exists new degree', relax (outgoing g u) ready degree = Some (ready ++ new, degree') /\ search (P ++ [u]) (ready ++ new) degree'.
Proof.
  intros [Hd Hn Hv Ho]. assert (Hu : u ∉ P) by (apply NoDup_app in Hn as (_ & Hn & _); intros H; apply (Hn u H); left).
  assert (Huz : u ∈ node_ids g /\ pending P u = 0%nat) by (apply Hv, elem_of_app; right; left).
  destruct (relax_spec (outgoing g u) ready degree) as (new & degree' & Hr & Hd' & Hnd & Hnew).
  { intros t (e & He & _ & <-)%outgoing_spec. exists (pending P (target e)). split; [rewrite Hd, decide_True; [done | by apply WL]|].
    rewrite (pending_visit P u) by done. lia. }
  exists new, degree'. split; [done|].
  assert (Hnv : forall v, v ∈ new <-> v ∈ node_ids g /\ pending P v <> 0%nat /\ pending (P ++ [u]) v = 0%nat).
  { intros v. rewrite Hnew, Hd. pose proof (pending_visit P u v Hu) as Hp.
    pose proof (occurrences_zero v (outgoing g u)) as Hz. destruct (decide (v ∈ node_ids g)) as [Hi|Hi].
    - split; [intros [Hin [= He]] | intros (_ & Hne & He)].
      + split_and!; [done | | lia]. intros H0. apply Hz in Hin; [done | lia].
      + split; [|f_equal; lia]. apply dec_stable. intros Hno. apply Hz in Hno. lia.
    - split; [intros [_ [=]] | tauto]. }
  split.
  - intros v. rewrite Hd', Hd. destruct (decide (v ∈ node_ids g)); [|done]. cbn. f_equal. rewrite (pending_visit P u) by done. lia.
  - replace ((P ++ [u]) ++ ready ++ new) with ((P ++ u :: ready) ++ new) by by rewrite <- !app_assoc.
    apply NoDup_app. split_and!; [done | | done]. intros v Hi%Hv Hnv'. apply Hnv in Hnv'. tauto.
  - intros v. replace ((P ++ [u]) ++ ready ++ new) with ((P ++ u :: ready) ++ new) by by rewrite <- !app_assoc.
    rewrite elem_of_app, Hv, Hnv. pose proof (pending_visit P u v Hu). split; [intros [[Hi Hz]|Hz]; [split; [done | lia] | tauto]|].
    intros [Hi Hz]. destruct (decide (pending P v = 0%nat)); tauto.
  - intros P1 v P2 HP w Hw. destruct P2 as [|x P2].
    + apply app_inj_tail in HP as [<- <-]. apply (proj1 (pending_zero P u)); [apply Huz | done].
    + destruct (exists_last (l := x :: P2)) as (P3 & y & HP3); [done|]. rewrite HP3, app_comm_cons, app_assoc in HP.
      apply app_inj_tail in HP as [HP <-]. by eapply Ho.
Qed.

Lemma search_length P ready degree : search P ready degree -> (length P + length ready <= length (nodes g))%nat.
Proof.
  intros [_ Hn Hv _]. rewrite <- length_app. rewrite <- (length_map node_id (nodes g)). apply submseteq_length, NoDup_submseteq; [done|].
  intros v Hi. by apply Hv in Hi as [? _].
Qed.

Lemma visit_spec fuel P ready degree : search P ready degree -> (length (nodes g) <= length P + fuel)%nat ->
  exists P' degree', visit fuel g ready degree (length P) = Some (length P') /\ search P' [] degree'.
Proof.
  revert P ready degree. induction fuel as [|fuel IH]; intros P ready degree Hs Hf; pose proof (search_length _ _ _ Hs) as Hl.
  - destruct ready; [by exists P, degree | cbn in Hl; lia].
  - destruct ready as [|u ready]; [by exists P, degree|]. destruct (search_step _ _ _ _ Hs) as (new & degree' & Hr & Hs').
    cbn [visit]. rewrite Hr. replace (S (length P)) with (length (P ++ [u])) by (rewrite length_app; cbn; lia).
    apply IH; [done|]. rewrite length_app. cbn. lia.
Qed.

Lemma search_start order : (forall l, order l ≡ₚ l) -> search [] (sources order g) (indegrees g).
Proof.
  intros Hp. assert (Hin : forall v, v ∈ sources order g <-> v ∈ node_ids g /\ pending [] v = 0%nat).
  { intros v. unfold sources. rewrite Hp, list_elem_of_fmap. split.
    - intros ([k d] & -> & [Hd Hi]%list_elem_of_filter). apply elem_of_map_to_list in Hi. cbn in *. rewrite indegrees_spec in Hi.
      destruct (decide (k ∈ node_ids g)); [|done]. injection Hi as Hi. by rewrite Hi.
    - intros [Hi Hz]. exists (v, 0%nat). split; [done|]. apply list_elem_of_filter. split; [done|]. apply elem_of_map_to_list.
      by rewrite indegrees_spec, decide_True, Hz. }
  split; [apply indegrees_spec | | exact Hin | by intros [] ? ? [=]]. cbn. unfold sources. rewrite Hp.
  apply NoDup_fmap_fst; [|apply NoDup_filter, NoDup_map_to_list].
  intros k d d' [_ Hd%elem_of_map_to_list]%list_elem_of_filter [_ Hd'%elem_of_map_to_list]%list_elem_of_filter. congruence.
Qed.

Lemma search_before P degree u v : search P [] degree -> tc (edge_rel g) u v -> forall P1 P2, P = P1 ++ v :: P2 -> u ∈ P1.
Proof.
  intros Hs. induction 1 as [u v Huv|u w v Huw _ IH]; intros P1 P2 HP; [by eapply (se_order _ _ _ Hs)|].
  specialize (IH P1 P2 HP). apply list_elem_of_split in IH as (A & B & ->). apply elem_of_app. left.
  eapply (se_order _ _ _ Hs A w (B ++ v :: P2)); [|done]. by rewrite HP, <- app_assoc.
Qed.

Lemma search_complete P degree : search P [] degree -> length P = length (nodes g) <-> acyclic g.
Proof.
  intros Hs. pose proof (se_nodes _ _ _ Hs) as Hv. pose proof (se_nodup _ _ _ Hs) as Hn. rewrite app_nil_r in Hn. setoid_rewrite app_nil_r in Hv.
  assert (Hsub : P ⊆+ node_ids g) by (apply NoDup_submseteq; [done|]; intros v Hi; by apply Hv in Hi as [? _]). split.
  - intros Hl u Hu. assert (Hperm : P ≡ₚ node_ids g) by (apply submseteq_length_Permutation; [done|]; unfold node_ids; rewrite length_map; lia).
    assert (Hi : u ∈ P).
    { rewrite Hperm. clear -Hu WL. assert (H : forall v, tc (edge_rel g) u v -> v ∈ node_ids g); [|by apply H].
      clear Hu. induction 1 as [x y (e & He & _ & <-)|]; [by apply WL | done]. }
    apply list_elem_of_split in Hi as (A & B & HP). pose proof (search_before _ _ _ _ Hs Hu A B HP) as HA.
    rewrite HP in Hn. apply NoDup_app in Hn as (_ & Hn & _). by apply (Hn u HA); left.
  - intros Ha. destruct (decide (filter (fun v => v ∉ P) (node_ids g) = [])) as [He|Hne].
    + apply Nat.le_antisymm; [unfold node_ids in Hsub; apply submseteq_length in Hsub; by rewrite length_map in Hsub|].
      rewrite <- (length_map node_id (nodes g)). apply submseteq_length, NoDup_submseteq; [apply WL|]. intros v Hi. apply dec_stable. intros Hno.
      assert (H : v ∈ filter (fun v => v ∉ P) (node_ids g)) by by apply list_elem_of_filter. rewrite He in H. by apply elem_of_nil in H.
    + exfalso. assert (forall u v, Decision (edge_rel g u v)) as Hdec.
      { intros u v. destruct (decide (v ∈ outgoing g u)) as [H|H]; [left | right]; by rewrite <- outgoing_spec. }
      destruct (acyclic_has_source (edge_rel g) (filter (fun v => v ∉ P) (node_ids g)) Ha Hdec Hne) as (v & [Hno Hi]%list_elem_of_filter & Hsrc).
      apply Hno, Hv. split; [done|]. apply pending_zero. intros u Hu. apply dec_stable. intros Hnu. apply (Hsrc u); [|done].
      apply list_elem_of_filter. split; [done|]. destruct Hu as (e & He & <- & _). by apply WL.
Qed.

Lemma check_cycles_exact order : (forall l, order l ≡ₚ l) ->
  (check_cycles order g = Ok tt /\ acyclic g) \/ (check_cycles order g = Err HasCycle /\ ~ acyclic g).
Proof.
  intros Hp. unfold check_cycles. destruct (visit_spec (length (nodes g)) [] _ _ (search_start order Hp)) as (P & degree & Hvis & Hs); [cbn; lia|].
  cbn [length] in Hvis. rewrite Hvis. rewrite <- (search_complete _ _ Hs). destruct (bool_decide_reflect (length P = length (nodes g))); [by left | by right].
Qed.
End kahn.

(** ** What a valid graph is *)

Section valid.
Context {serde : SerdeJson}.

Lemma check_nodes_ids ids labels triggers l t :
  check_nodes ids labels triggers l = Ok t -> NoDup ids -> NoDup (reverse (map node_id l) ++ ids) /\
  t = triggers + Z.of_nat (length (filter (fun n => node_type n = "trigger") l)).
Proof.
  revert ids labels triggers. induction l as [|n l IH]; intros ids labels triggers H Hn; cbn [check_nodes] in H.
  { injection H as <-. split; [done | cbn; lia]. }
  destruct (validate_graph_id (node_id n)); [|done]. cbn in H. destruct (bool_decide (node_id n ∈ ids)) eqn:Ei; [done|]. to_prop.
  destruct (128 <? _); [done|]. destruct (_ && _); [done|]. destruct (_ || _); [done|]. destruct (negb _); [done|].
  destruct (validate_node_config n); [|done]. cbn in H. apply IH in H as [Hnd ->]; [|by constructor].
  cbn [map]. rewrite reverse_cons, <- app_assoc. split; [exact Hnd|]. rewrite filter_cons.
  destruct (decide (node_type n = "trigger")) as [Ht|Ht]; [rewrite bool_decide_true by done; cbn [length]; lia | by rewrite bool_decide_false by done].
Qed.

Lemma check_edges_refer ids seen pairs l e :
  check_edges ids seen pairs l = Ok tt -> e ∈ l -> source e ∈ ids /\ target e ∈ ids.
Proof.
  revert seen pairs. induction l as [|e' l IH]; intros seen pairs H He; [by apply elem_of_nil in He|]. cbn [check_edges] in H.
  destruct (validate_graph_id (edge_id e')); [|done]. cbn in H. destruct (bool_decide (edge_id e' ∈ seen)); [done|].
  destruct (_ || _) eqn:Eb; [done|]. destruct (bool_decide (_ ∈ pairs)); [done|].
  apply elem_of_cons in He as [->|He]; [|by eapply IH]. apply orb_false_iff in Eb as [[_ Es]%orb_false_iff Et].
  apply negb_false_iff, bool_decide_eq_true in Es, Et. done.
Qed.

(** The errors of the search for cycles come from it alone. *)
Definition late (e : GraphError) : Prop := e = HasCycle \/ e = IndexCorrupt.
Definition early {A} (r : result A GraphError) : Prop := forall e, r = Err e -> ~ late e.

Lemma early_ok {A} (a : A) : early (Ok a).
Proof. by intros e [=]. Qed.
Lemma early_err {A} e : ~ late e -> early (A := A) (Err e).
Proof. by intros H e' [= <-]. Qed.
Lemma early_then {A B} (r : result A GraphError) (f : A -> result B GraphError) :
  early r -> (forall a, early (f a)) -> early (let? a := r in f a).
Proof. intros Hr Hf. destruct r as [a|e]; [apply Hf|]. intros e' [= <-]. by apply Hr. Qed.
Lemma early_if {A} (b : bool) (r r' : result A GraphError) : early r -> early r' -> early (if b then r else r').
Proof. by destruct b. Qed.
#[local] Hint Resolve early_ok early_then early_if : early.
#[local] Hint Extern 1 (early (Err _)) => apply early_err; intros [?|?]; discriminate : early.
#[local] Hint Extern 1 (early (match ?x with _ => _ end)) => destruct x : early.

Lemma early_id v : early (validate_graph_id v).
Proof. unfold validate_graph_id. auto with early. Qed.
Lemma early_env v : early (validate_secret_env v).
Proof. unfold validate_secret_env. auto with early. Qed.
Lemma early_config m : early (check_config m).
Proof. induction m as [|[k v] m IH]; cbn; auto with early. Qed.
Lemma early_fields n l : early (check_fields n l).
Proof. induction l as [|f l IH]; cbn; auto with early. Qed.
#[local] Hint Resolve early_id early_env early_config early_fields : early.
Lemma early_node n : early (validate_node_config n).
Proof. unfold validate_node_config. auto 10 with early. Qed.
#[local] Hint Resolve early_node : early.
Lemma early_nodes ids labels t l : early (check_nodes ids labels t l).
Proof. revert ids labels t. induction l as [|n l IH]; intros; cbn [check_nodes]; auto 20 with early. Qed.
Lemma early_edges ids seen pairs l : early (check_edges ids seen pairs l).
Proof. revert seen pairs. induction l as [|e l IH]; intros; cbn [check_edges]; auto 20 with early. Qed.

Context (graph_text : FlowGraph -> string) (order : list string -> list string).

Lemma validated_parts g : (exists e, validate_graph graph_text order g = Err e /\ ~ late e) \/
  (well_linked g /\ length (filter (fun n => node_type n = "trigger") (nodes g)) = 1%nat /\
   validate_graph graph_text order g = check_cycles order g).
Proof.
  unfold validate_graph. assert (Hearly : forall e, ~ late e -> exists e', Err (A := unit) e = Err e' /\ ~ late e') by eauto.
  destruct (bool_decide _); [left; apply Hearly; by intros [?|?]|]. destruct (_ || _); [left; apply Hearly; by intros [?|?]|].
  destruct (MAX_GRAPH_BYTES <? _); [left; apply Hearly; by intros [?|?]|].
  destruct (check_nodes [] [] 0 (nodes g)) as [t|e] eqn:En; [|left; apply Hearly; by apply early_nodes in En].
  destruct (check_nodes_ids _ _ _ _ _ En ltac:(constructor)) as [Hn Ht]. rewrite app_nil_r, reverse_Permutation in Hn. cbn.
  destruct (negb (t =? 1)) eqn:E1; [left; apply Hearly; by intros [?|?]|].
  destruct (check_edges (map node_id (nodes g)) [] [] (edges g)) as [[]|e] eqn:Ee; [|left; apply Hearly; by apply early_edges in Ee].
  right. split_and!; [split; [done | intros e He; by eapply check_edges_refer] | apply negb_false_iff in E1; lia | done].
Qed.

Lemma valid_acyclic g : (forall l, order l ≡ₚ l) -> validate_graph graph_text order g = Ok tt -> well_linked g /\ acyclic g.
Proof.
  intros Hp. destruct (validated_parts g) as [(e & -> & He)|(WL & Ht & ->)]; [done|].
  by destruct (check_cycles_exact g WL order Hp) as [[-> Ha]|[-> Ha]].
Qed.

(** C25: A valid graph has one trigger, no two nodes of one id, edges between its nodes and no cycle;
    and a graph is rejected for a cycle only when it has one, in whatever order the hash maps
    of the search are traversed. *)
Theorem graph_validation_is_exact g :
  (forall l, order l ≡ₚ l) ->
  (validate_graph graph_text order g = Ok tt ->
     well_linked g /\ acyclic g /\ length (filter (fun n => node_type n = "trigger") (nodes g)) = 1%nat) /\
  (validate_graph graph_text order g = Err HasCycle -> ~ acyclic g) /\
  validate_graph graph_text order g <> Err IndexCorrupt.
Proof.
  intros Hp. destruct (validated_parts g) as [(e & -> & He)|(WL & Ht & ->)].
  - split_and!; [done | intros [= ->]; by destruct He; left | intros [= ->]; by destruct He; right].
  - destruct (check_cycles_exact g WL order Hp) as [[-> Ha]|[-> Ha]]; done.
Qed.
End valid.
