(* ===== verification/FlowLoop.v ===== *)
(** * FlowLoop: the body of a loop (crates/rf/src/flow.rs, [loop_body])

    The two searches end within their bounds, and on a valid graph the body is what a loop's
    [each] edges reach and its [done] edges do not. *)

From Stdlib Require Import ZArith Lia.
From stdpp Require Import prelude gmap sorting strings list relations.
From S2P Require Import Prelude Text Json FlowGraph.
Open Scope nat_scope.

(** ** The nodes after a loop *)

Section searches.
Context (g : FlowGraph) (id : string).

Definition targets : list string := remove_dups (map target (edges g)).
Definition unseen (stop : gset string) : nat := length (filter (fun t => t ∉ stop) targets).

Lemma edge_target u v : edge_rel g u v -> v ∈ targets.
Proof. intros (e & He & _ & <-). apply elem_of_remove_dups, list_elem_of_fmap. by exists e. Qed.

Lemma unseen_add t stop : t ∈ targets -> t ∉ stop -> unseen stop = S (unseen ({[t]} ∪ stop)).
Proof.
  unfold unseen. intros Ht Hs. assert (Hn : NoDup targets) by apply NoDup_remove_dups. induction targets as [|x l IH]; [by apply elem_of_nil in Ht|].
  apply NoDup_cons in Hn as [Hx Hn]. rewrite !filter_cons. destruct (decide (x = t)) as [->|Hne].
  - rewrite decide_True by done. rewrite decide_False by set_solver. cbn. f_equal. f_equal.
    clear -Hx. induction l as [|y l IH]; [done|]. apply not_elem_of_cons in Hx as [Hy Hx]. rewrite !filter_cons, (IH Hx). repeat case_decide; set_solver.
  - apply elem_of_cons in Ht as [->|Ht]; [done|]. specialize (IH Ht Hn). repeat case_decide; cbn; try set_solver; by rewrite IH.
Qed.

(** Reached without passing the loop. *)
Definition onward (u v : string) : Prop := edge_rel g u v /\ v <> id.

Lemma push_new_spec ts queue stop queue' stop' :
  push_new id ts queue stop = (queue', stop') -> (forall t, t ∈ ts -> t ∈ targets) ->
  length queue' + unseen stop' = length queue + unseen stop /\
  (forall v, v ∈ stop' <-> v ∈ stop \/ (v ∈ ts /\ v <> id)) /\
  (forall v, v ∈ queue' <-> v ∈ queue \/ (v ∈ ts /\ v <> id /\ v ∉ stop)).
Proof.
  revert queue stop. induction ts as [|t ts IH]; intros queue stop; cbn; intros Hp Ht.
  { injection Hp as <- <-. split; [done|]. split; intros v; rewrite elem_of_nil; tauto. }
  assert (Hts : forall x, x ∈ ts -> x ∈ targets) by (intros; apply Ht; by right).
  assert (Hv : forall v, v ∈ t :: ts <-> v = t \/ v ∈ ts) by (intros; apply elem_of_cons).
  destruct (bool_decide_reflect (t = id)) as [Hid|Hid], (bool_decide_reflect (t ∈ stop)) as [Hs|Hs]; cbn [negb andb] in Hp;
    destruct (IH _ _ Hp Hts) as (H1 & H2 & H3).
  1-3: split; [done|]; split; intros v; rewrite ?H2, ?H3, Hv; destruct (decide (v = t)) as [->|]; tauto.
  rewrite length_app in H1. cbn in H1. rewrite (unseen_add t stop) by (done || apply Ht; by left). split; [lia|].
  split; intros v; rewrite ?H2, ?H3, Hv, ?elem_of_app, ?elem_of_union, ?elem_of_singleton, ?list_elem_of_singleton;
    destruct (decide (v = t)) as [->|]; tauto.
Qed.

(** The search ends, in a set closed under [onward]. *)
Lemma after_loop_spec (R : string -> Prop) fuel queue stop :
  (forall u v, R u -> onward u v -> R v) -> length queue + unseen stop <= fuel ->
  (forall v, v ∈ queue -> v ∈ stop) -> (forall v, v ∈ stop -> R v) -> (forall u, u ∈ stop -> u ∈ queue \/ forall v, onward u v -> v ∈ stop) ->
  exists S, after_loop fuel g id queue stop = Some S /\ stop ⊆ S /\ (forall v, v ∈ S -> R v) /\ (forall u v, u ∈ S -> onward u v -> v ∈ S).
Proof.
  intros HR. revert queue stop. induction fuel as [|fuel IH]; intros [|u queue] stop Hf Hq Hs Hc; cbn in *.
  1,3: exists stop; split_and!; [done | done | done |]; intros u v Hu Hv; destruct (Hc u Hu) as [Hn|H]; [by apply elem_of_nil in Hn | by apply H].
  { lia. }
  destruct (push_new id (outgoing g u) queue stop) as [queue' stop'] eqn:E.
  destruct (push_new_spec _ _ _ _ _ E) as (Hl & Hs' & Hq'). { intros t Ht. apply (edge_target u). by apply outgoing_spec. }
  assert (Hu : u ∈ stop) by (apply Hq; by left). assert (Hout : forall t, t ∈ outgoing g u /\ t <> id <-> onward u t) by (intros; unfold onward; by rewrite outgoing_spec).
  destruct (IH queue' stop') as (S & HS & Hsub & H1 & H2); [lia| | | |].
  - intros v [Hv|(Hv & Hid & _)]%Hq'; apply Hs'; [left; apply Hq; by right | by right].
  - intros v [Hv|Hv%Hout]%Hs'; [by apply Hs | by eapply HR; [apply Hs, Hu |]].
  - intros x [Hx|Hx]%Hs'.
    + destruct (decide (x = u)) as [->|Hne]; [right; intros v Hv%Hout; apply Hs'; by right|].
      destruct (Hc x Hx) as [[->|Hin]%elem_of_cons|Hcl]; [done | left; apply Hq'; by left | right; intros v Hv; apply Hs'; left; by apply Hcl].
    + destruct (decide (x ∈ stop)) as [Hin|Hin]; [|left; apply Hq'; right; tauto].
      destruct (decide (x = u)) as [->|Hne]; [right; intros v Hv%Hout; apply Hs'; by right|].
      destruct (Hc x Hin) as [[->|Hiq]%elem_of_cons|Hcl]; [done | left; apply Hq'; by left | right; intros v Hv; apply Hs'; left; by apply Hcl].
  - exists S. split; [done|]. split; [|done]. intros v Hv. apply Hsub, Hs'. by left.
Qed.

(** ** The nodes inside *)

Definition unvisited (body : gset string) : nat := length (filter (fun e => source e ∉ body) (edges g)).

Lemma unvisited_add u body : u ∉ body -> unvisited body = unvisited ({[u]} ∪ body) + length (outgoing g u).
Proof.
  unfold unvisited, outgoing. intros Hu. rewrite length_map. induction (edges g) as [|e l IH]; [done|]. rewrite !filter_cons.
  destruct (decide (source e = u)) as [He|He].
  - rewrite decide_True by (by rewrite He). rewrite decide_False by set_solver. cbn. rewrite IH. lia.
  - destruct (decide (source e ∉ body)) as [H|H]; [rewrite decide_True by set_solver; cbn; lia | rewrite decide_False by set_solver; done].
Qed.

Lemma inside_loop_spec (stop : gset string) (R : string -> Prop) fuel queue body :
  (forall u v, R u -> u ∉ stop -> edge_rel g u v -> R v) -> length queue + unvisited body <= fuel ->
  (forall v, v ∈ queue -> R v) -> (forall v, v ∈ body -> R v /\ v ∉ stop) ->
  (forall u v, u ∈ body -> edge_rel g u v -> v ∈ stop \/ v ∈ body \/ v ∈ queue) ->
  exists B, inside_loop fuel g stop queue body = Some B /\ body ⊆ B /\ (forall v, v ∈ queue -> v ∈ stop \/ v ∈ B) /\
    (forall v, v ∈ B -> R v /\ v ∉ stop) /\ (forall u v, u ∈ B -> edge_rel g u v -> v ∈ stop \/ v ∈ B).
Proof.
  intros HR. revert queue body. induction fuel as [|fuel IH]; intros [|u queue] body Hf Hq Hb Hc; cbn in *.
  1,3: exists body; split_and!; [done | done | by intros v Hv%elem_of_nil | done |]; intros u v Hu Hv;
    destruct (Hc u v Hu Hv) as [H|[H|H%elem_of_nil]]; tauto.
  { lia. }
  assert (Hin : forall v, v ∈ u :: queue <-> v = u \/ v ∈ queue) by (intros; apply elem_of_cons).
  destruct (bool_decide_reflect (u ∈ stop)) as [Hs|Hs]; [|destruct (bool_decide_reflect (u ∈ body)) as [Hub|Hub]]; cbn [orb].
  3: { destruct (IH (queue ++ outgoing g u) ({[u]} ∪ body)) as (B & HB & Hsub & H1 & H2 & H3).
       - rewrite length_app. rewrite (unvisited_add u body Hub) in Hf. lia.
       - intros v [Hv|Hv%outgoing_spec]%elem_of_app; [apply Hq, Hin; by right|]. eapply HR; [apply Hq, Hin; by left | done | done].
       - intros v [->%elem_of_singleton|Hv]%elem_of_union; [split; [apply Hq, Hin; by left | done] | by apply Hb].
       - intros x v [->%elem_of_singleton|Hx]%elem_of_union Hv; [do 2 right; apply elem_of_app; right; by apply outgoing_spec|].
         destruct (Hc x v Hx Hv) as [H|[H|[->|H]%Hin]]; [by left | right; left; set_solver | right; left; set_solver | do 2 right; apply elem_of_app; by left].
       - exists B. split_and!; [done | set_solver | | done | done].
         intros v [->|Hv]%Hin; [right; apply Hsub; set_solver | apply H1, elem_of_app; by left]. }
  all: destruct (IH queue body) as (B & HB & Hsub & H1 & H2 & H3);
    [lia | intros v Hv; apply Hq, Hin; by right | done
    | intros x v Hx Hv; destruct (Hc x v Hx Hv) as [H|[H|[->|H]%Hin]]; tauto
    | exists B; split_and!; [done | done | | done | done]; intros v [->|Hv]%Hin; [set_solver | by apply H1]].
Qed.

(** ** The body *)

Lemma handle_target h t : t ∈ handle_targets g id h <-> exists e, e ∈ edges g /\ source e = id /\ source_handle e = Some h /\ target e = t.
Proof.
  unfold handle_targets. rewrite elem_of_remove_dups, list_elem_of_fmap. split.
  - intros (e & -> & [[Hs Hh] He]%list_elem_of_filter). by exists e.
  - intros (e & He & Hs & Hh & <-). exists e. split; [done|]. by apply list_elem_of_filter.
Qed.

Lemma handle_bound h : length (handle_targets g id h) + unseen (list_to_set (handle_targets g id h)) <= length (edges g).
Proof.
  set (l := handle_targets g id h). assert (Hin : forall t, t ∈ l -> t ∈ targets).
  { intros t (e & He & Hs & _ & Ht)%handle_target. apply (edge_target id). by exists e. }
  unfold unseen. rewrite <- length_app. transitivity (length targets).
  - apply submseteq_length, NoDup_submseteq.
    + apply NoDup_app. split_and!; [apply NoDup_remove_dups | | apply NoDup_filter, NoDup_remove_dups].
      intros t Ht [Hn _]%list_elem_of_filter. apply Hn. by apply elem_of_list_to_set.
    + intros t [Ht|[_ Ht]%list_elem_of_filter]%elem_of_app; [by apply Hin | done].
  - unfold targets. rewrite <- (length_map target (edges g)). apply submseteq_length, NoDup_submseteq; [apply NoDup_remove_dups|].
    intros t. by rewrite elem_of_remove_dups.
Qed.

Definition loop_reach (h v : string) : Prop :=
  exists e, e ∈ edges g /\ source e = id /\ source_handle e = Some h /\ rtc (edge_rel g) (target e) v.

Lemma loop_reach_edge h u v : loop_reach h u -> edge_rel g u v -> loop_reach h v.
Proof. intros (e & He & Hs & Hh & Hr) Huv. exists e. split_and!; [done..|]. by eapply rtc_r. Qed.

Lemma loop_reach_not_id h : acyclic g -> ~ loop_reach h id.
Proof. intros Ha (e & He & Hs & Hh & Hr). apply (Ha id). eapply tc_rtc_r; [apply tc_once; by exists e | done]. Qed.

Lemma after_loop_exact : acyclic g ->
  exists stop, after_loop (2 * length (edges g)) g id (handle_targets g id "done") (list_to_set (handle_targets g id "done")) = Some stop /\
    forall v, v ∈ stop <-> loop_reach "done" v.
Proof.
  intros Ha. pose proof (handle_bound "done") as Hb. set (l := handle_targets g id "done") in *.
  destruct (after_loop_spec (loop_reach "done") (2 * length (edges g)) l (list_to_set l)) as (S & HS & Hsub & H1 & H2); [| lia | | | |].
  - intros u v Hu [Huv _]. by eapply loop_reach_edge.
  - intros v. by rewrite elem_of_list_to_set.
  - intros v (e & He & Hs & Hh & <-)%elem_of_list_to_set%handle_target. by exists e.
  - intros u Hu%elem_of_list_to_set. by left.
  - exists S. split; [done|]. intros v. split; [apply H1|]. intros (e & He & Hs & Hh & Hr).
    assert (Ht : target e ∈ S) by (apply Hsub, elem_of_list_to_set, handle_target; by exists e).
    assert (Hreach : loop_reach "done" (target e)) by (by exists e). clear He Hs Hh. induction Hr as [x|x y z Hxy Hr IH]; [done|].
    assert (Hy : loop_reach "done" y) by (by eapply loop_reach_edge). apply IH; [|done]. apply (H2 x); [done|]. split; [done|].
    intros ->. by apply (loop_reach_not_id "done").
Qed.

(** The searches end on any graph. *)
Lemma loop_body_total : is_Some (loop_body id g).
Proof.
  unfold loop_body. pose proof (handle_bound "done") as Hd. pose proof (handle_bound "each") as He.
  destruct (after_loop_spec (fun _ => True) (2 * length (edges g)) (handle_targets g id "done") (list_to_set (handle_targets g id "done")))
    as (stop & -> & _); [done | lia | intros v; by rewrite elem_of_list_to_set | done | intros u Hu%elem_of_list_to_set; by left|].
  cbn [mbind option_bind].
  destruct (inside_loop_spec ({[id]} ∪ stop) (fun _ => True) (2 * length (edges g)) (handle_targets g id "each") ∅)
    as (B & -> & _); [done | | done | set_solver | set_solver | by eexists].
  assert (unvisited ∅ <= length (edges g)) by apply length_filter. lia.
Qed.

(** The body of a loop is found within the bounds of its two searches, and on a graph without
    cycles it is exactly what the loop's [each] edges reach and its [done] edges do not;
    its entries are the nodes of it that an [each] edge leads to. *)
Theorem loop_body_is_exact : acyclic g ->
  exists body entries, loop_body id g = Some (body, entries) /\
    (forall v, v ∈ body <-> loop_reach "each" v /\ ~ loop_reach "done" v) /\
    (forall t, t ∈ entries <-> t ∈ body /\ exists e, e ∈ edges g /\ source e = id /\ source_handle e = Some "each" /\ target e = t).
Proof.
  intros Ha. destruct (after_loop_exact Ha) as (stop & Hstop & HS). unfold loop_body. rewrite Hstop. cbn [mbind option_bind].
  pose proof (handle_bound "each") as Hb. set (l := handle_targets g id "each") in *.
  destruct (inside_loop_spec ({[id]} ∪ stop) (loop_reach "each") (2 * length (edges g)) l ∅) as (B & HB & _ & H1 & H2 & H3); [| | | | |].
  - intros u v Hu _ Huv. by eapply loop_reach_edge.
  - assert (unvisited ∅ <= length (edges g)) by apply length_filter. lia.
  - intros v (e & He & Hs & Hh & <-)%handle_target. by exists e.
  - set_solver.
  - set_solver.
  - assert (Hout : forall v, v ∉ ({[id]} ∪ stop : gset string) <-> v <> id /\ ~ loop_reach "done" v) by (intros v; rewrite <- HS; set_solver).
    rewrite HB. cbn [mbind option_bind]. exists B, (filter (fun t => t ∈ B) l). split; [done|]. split.
    + intros v. split; [intros Hv; destruct (H2 v Hv) as [Hr Hn]; split; [done | by apply Hout]|].
      intros [(e & He & Hs & Hh & Hr) Hn]. assert (Hreach : loop_reach "each" (target e)) by (by exists e).
      assert (Hstay : forall x, loop_reach "each" x -> rtc (edge_rel g) x v -> x ∉ ({[id]} ∪ stop : gset string)).
      { intros x Hx Hxv. apply Hout. split; [intros ->; by apply (loop_reach_not_id "each")|]. intros Hd. apply Hn.
        clear -Hd Hxv. induction Hxv; [done|]. apply IHHxv. by eapply loop_reach_edge. }
      assert (Ht : target e ∈ B) by (destruct (H1 (target e)) as [H|H]; [apply handle_target; by exists e | by destruct (Hstay (target e)) | done]).
      clear He Hs Hh. induction Hr as [x|x y z Hxy Hr IH]; [done|]. assert (Hy : loop_reach "each" y) by (by eapply loop_reach_edge).
      apply IH; [done | done | done |]. destruct (H3 x y) as [H|H]; [done | done | by destruct (Hstay y) | done].
    + intros t. rewrite list_elem_of_filter. unfold l. by rewrite (handle_target "each").
Qed.
End searches.
