(* ===== verification/Flow.v ===== *)
(** * Flow: visual flows (crates/rf/src/flow.rs)

    A flow is a graph; a run of it freezes the graph and records the result of every
    node in the flow's database.  [FStmt] has the statements of the module, [frun] their meaning,
    and the operations are scripts: [create_run], [claim_run], [advance_run] with the
    scheduler, [execute_loop], [execute_node] and the expressions of node settings.
    JSONata and the platform services a node calls are questions of the script.

    A JSON column holds the value it is the text of. *)

From Stdlib Require Import ZArith Lia Ascii SpecFloat.
From stdpp Require Import prelude gmap sorting strings list pretty.
From S2P Require Import Prelude Text Json Script Hlc Identity Envelope Kv Cron Claim Manifest Quorum DataAudit Observability Store Node NodeFacts Resource Workflow FlowGraph.
Open Scope Z_scope.

Definition FLOW_KIND : string := "flow".
Definition MAX_RUN_INPUT_BYTES : Z := 4 * 1024 * 1024.
Definition MAX_NODE_RESULT_BYTES : Z := 4 * 1024 * 1024.
Definition MAX_LOOP_ITEMS : Z := 1000.
Definition FLOW_LEASE_MS : Z := 5 * 60 * 1000.
Definition MAX_NODES_PER_ADVANCE : nat := 40.
Definition MAX_SUBFLOW_DEPTH : Z := 3.

(** ** Definitions of flows *)

Inductive FlowTrigger : Type := Manual | Webhook | CronTrigger.
#[export] Instance FlowTrigger_eq_dec : EqDecision FlowTrigger.
Proof. solve_decision. Defined.

(** [FlowToken] has the fields of a workflow's token. *)
Definition FlowToken : Type := WorkflowToken.

Record FlowSpec : Type := mkFlowSpec {
  fl_description : string;
  graph : FlowGraph;
  fl_trigger : FlowTrigger;
  fl_cron : option string;
  fl_hostnames : list string;
  fl_tokens : list FlowToken;
  fl_suspended : bool;
  fl_suspend_reason : string;
  fl_retention_days : Z;
  max_concurrent_runs : Z;
  alert_webhook_env : option string
}.

(** [FlowSpec::default]. *)
Definition default_flow : FlowSpec := mkFlowSpec "" (mkGraph [] []) Manual None [] [] false "" 30 32 None.

Inductive FlowSpecError : Type :=
| FlDescriptionTooLong
| FlBadRetention
| FlTooConcurrent
| FlCronMissing
| FlBadCron
| FlUnexpectedCron
| FlTooManyHostnames
| FlBadHostname
| FlTooManyTokens
| FlBadToken
| FlTokenMissing
| FlBadEnv
| FlBadGraph (e : GraphError)
| NotAFlow
| FlUnreadable
| FlResource (e : ResourceError).

Section specs.
Context {serde : SerdeJson} (graph_text : FlowGraph -> string) (order : list string -> list string).

(** [FlowSpec::validate]. *)
Definition validate_flow (s : FlowSpec) : result unit FlowSpecError :=
  if (2000 <? slen (fl_description s)) || (2000 <? slen (fl_suspend_reason s)) then Err FlDescriptionTooLong
  else if negb (within 1 365 (fl_retention_days s)) then Err FlBadRetention
  else if 1000 <? max_concurrent_runs s then Err FlTooConcurrent
  else
    let? _ := match fl_trigger s, fl_cron s with
              | CronTrigger, None => Err FlCronMissing
              | CronTrigger, Some e => match Cron.parse e with Ok _ => Ok tt | Err _ => Err FlBadCron end
              | _, Some _ => Err FlUnexpectedCron
              | _, None => Ok tt
              end in
    if 64 <? Z.of_nat (length (fl_hostnames s)) then Err FlTooManyHostnames
    else if negb (forallb valid_hostname (fl_hostnames s)) then Err FlBadHostname
    else if 64 <? Z.of_nat (length (fl_tokens s)) then Err FlTooManyTokens
    else
      let? _ := match check_tokens [] (fl_tokens s) with Ok _ => Ok tt | Err _ => Err FlBadToken end in
      if bool_decide (fl_trigger s = Webhook) && bool_decide (fl_tokens s = []) then Err FlTokenMissing
      else
        let? _ := match alert_webhook_env s with
                  | Some name => match validate_secret_env name with Ok _ => Ok tt | Err _ => Err FlBadEnv end
                  | None => Ok tt
                  end in
        match validate_graph graph_text order (graph s) with Ok _ => Ok tt | Err e => Err (FlBadGraph e) end.

Class FlowJson {json : Json} := {
  flow_to_value : FlowSpec -> Value;
  flow_from_value : Value -> option FlowSpec
}.

Context {redb : Redb} {crypto : Crypto} {hex : Hex} {json : Json} {fl_json : FlowJson}.
Context {pc_env : Postcard Envelope} {pc_resource : Postcard ResourceRecord}.

(** [flow_spec], [flow_record], [flow_records], [prepare_flow_after]. *)
Definition flow_spec (r : ResourceRecord) : result FlowSpec FlowSpecError :=
  if negb (bool_decide (r_kind r = FLOW_KIND)) then Err NotAFlow
  else
    match json_from_str (spec_json r) ≫= flow_from_value with
    | None => Err FlUnreadable
    | Some spec => let? _ := validate_flow spec in Ok spec
    end.
Definition flow_record (n : Node) (name : string) (now_at : string -> Z) : option (ResourceView * FlowSpec) :=
  view ← head n FLOW_KIND name now_at;
  if r_deleted (resource view) then None
  else match flow_spec (resource view) with Ok spec => Some (view, spec) | Err _ => None end.
Definition flow_records (n : Node) (now_at : string -> Z) : list (ResourceView * FlowSpec) :=
  omap (fun view => match flow_spec (resource view) with Ok spec => Some (view, spec) | Err _ => None end)
    (filter (fun view => r_deleted (resource view) = false) (heads n (Some FLOW_KIND) now_at)).
Definition prepare_flow_after (name : string) (spec : FlowSpec) (deleted : bool) (h : option ResourceView) :
  result ResourceRecord FlowSpecError :=
  let? _ := validate_flow spec in
  match prepare_after FLOW_KIND name (flow_to_value spec) deleted h with
  | Ok r => Ok r
  | Err e => Err (FlResource e)
  end.

(** [database_name], [mint_token] and [token_matches] of flows. *)
Definition flow_database_name (flow : string) : string :=
  ("flow-" ++ stake 32 (hex_encode (sha256 (as_bytes ("flow/" ++ flow)))))%string.
Definition mint_flow_token (text secret : string) (id : bytes) (now : Z) : result (FlowToken * string) FlowSpecError :=
  if 128 <? slen text then Err FlBadToken
  else
    let plaintext := ("rff_" ++ secret)%string in
    Ok (mkToken (hex_encode id) text (hex_encode (sha256 (as_bytes plaintext)))
          (sdrop (String.length plaintext - 4) plaintext) now, plaintext).
Definition flow_token_matches (spec : FlowSpec) (plaintext : string) : bool :=
  existsb (fun t => match hex_decode (sha256_hex t) with
                    | Ok expected => constant_time_eq (sha256 (as_bytes plaintext)) expected
                    | Err _ => false
                    end) (fl_tokens spec).
End specs.

(** ** The tables *)

Inductive RunStatus : Type := RQueued | RRunning | RComplete | RFailed | RCancelled.
#[export] Instance RunStatus_eq_dec : EqDecision RunStatus.
Proof. solve_decision. Defined.
Definition run_ended (s : RunStatus) : bool := match s with RComplete | RFailed | RCancelled => true | _ => false end.

(** What a run is created with, and what changes. *)
Record RunConfig : Type := mkRunConfig {
  run_key : option string;
  run_trigger : string;
  run_input : J;
  run_graph : FlowGraph;
  graph_version : Z;
  run_created_at_ms : Z
}.
Record RunLife : Type := mkRunLife {
  run_status : RunStatus;
  run_output : option J;
  run_error : option string;
  retry_of : option string;
  due_at_ms : Z;
  run_lease_token : option string;
  run_lease_until_ms : option Z;
  run_started_at_ms : option Z;
  run_finished_at_ms : option Z;
  run_updated_at_ms : Z
}.
Record FlowRun : Type := mkFlowRun { run_config : RunConfig; run_life : RunLife }.

Record FlowStep : Type := mkFlowStep {
  fs_node_type : string;
  fs_seq : Z;
  fs_status : string;
  fs_route_status : string;
  fs_taken : option string;
  fs_input : J;
  fs_output : J;
  fs_error : option string;
  fs_at_ms : Z
}.

Record FlowEvent : Type := mkFlowEvent {
  fe_run : string;
  fe_seq : Z;
  fe_kind : string;
  fe_detail : list (string * string);
  fe_created_at_ms : Z
}.

(** Steps by run, node and iteration; iteration 0 is the node outside loops. *)
Record FlowDb : Type := mkFlowDb {
  flow_runs : gmap string FlowRun;
  flow_steps : gmap (string * string * Z) FlowStep;
  flow_events : list FlowEvent
}.
Definition empty_flow_db : FlowDb := mkFlowDb ∅ ∅ [].
Definition set_runs (d : FlowDb) (m : gmap string FlowRun) : FlowDb := mkFlowDb m (flow_steps d) (flow_events d).

(** [ExecResult], as it is recorded. *)
Record ExecResult : Type := mkExecResult {
  er_status : string;
  er_route_status : string;
  er_output : J;
  er_taken : option string;
  er_error : option string
}.

Inductive FStmt : Type :=
| InsertRun (id : string) (c : RunConfig) (now limit : Z)
| CancelRun (id : string) (now : Z)
| SetRetryOf (id previous : string)
| RecoverExpired (now : Z)
| ClaimRun (id lease : string) (now until : Z)
| InsertFlowStep (run node ty : string) (iteration : Z) (r : ExecResult) (input : J) (now : Z) (lease : string)
| RenewRun (run : string) (now until : Z) (lease : string)
| RequeueRun (id lease : string) (now : Z)
| FailRun (id lease error : string) (now : Z)
| CompleteRun (id lease : string) (output : J) (now : Z)
| GcRuns (threshold : Z)
| AppendFlowEvent (run kind : string) (detail : list (string * string)) (now : Z).

Definition active (r : FlowRun) : bool := match run_status (run_life r) with RQueued | RRunning => true | _ => false end.
Definition count_runs (p : FlowRun -> bool) (m : gmap string FlowRun) : Z := Z.of_nat (size (filter (fun ir => p ir.2 = true) m)).
Definition run_key_taken (d : FlowDb) (key : option string) : bool :=
  match key with
  | None => false
  | Some k => negb (bool_decide (filter (fun ir => run_key (run_config ir.2) = Some k) (flow_runs d) = ∅))
  end.
Definition new_run_life (now : Z) : RunLife := mkRunLife RQueued None None None now None None None None now.

Definition update_run (d : FlowDb) (id : string) (p : RunLife -> bool) (f : RunLife -> RunLife) : FlowDb * Z :=
  match flow_runs d !! id with
  | Some r => if p (run_life r) then (set_runs d (<[id := mkFlowRun (run_config r) (f (run_life r))]> (flow_runs d)), 1) else (d, 0)
  | None => (d, 0)
  end.

(** [lease_token=?], and [status='running' AND lease_token=?]. *)
Definition leased_by (lease : string) (l : RunLife) : bool := bool_decide (run_lease_token l = Some lease).
Definition running_by (lease : string) (l : RunLife) : bool := bool_decide (run_status l = RRunning) && leased_by lease l.
Definition run_held (d : FlowDb) (id lease : string) : bool :=
  match flow_runs d !! id with Some r => running_by lease (run_life r) | None => false end.

Definition run_expired (now : Z) (l : RunLife) : bool :=
  bool_decide (run_status l = RRunning) && match run_lease_until_ms l with Some u => u <? now | None => false end.
Definition run_due (now : Z) (l : RunLife) : bool := bool_decide (run_status l = RQueued) && (due_at_ms l <=? now).
Definition requeued (l : RunLife) (now : Z) : RunLife :=
  mkRunLife RQueued (run_output l) (run_error l) (retry_of l) now None None (run_started_at_ms l) (run_finished_at_ms l) now.
Definition next_seq (run : string) (m : gmap (string * string * Z) FlowStep) : Z :=
  map_fold (fun k s acc => if bool_decide (k.1.1 = run) then Z.max (fs_seq s) acc else acc) 0 m + 1.

(** One statement: the tables after it and the rows affected; [None] when a constraint
    fails. *)
Definition frun (d : FlowDb) (s : FStmt) : option (FlowDb * Z) :=
  match s with
  | InsertRun id c now limit =>
      Some (if bool_decide (is_Some (flow_runs d !! id)) || run_key_taken d (run_key c)
               || negb ((limit =? 0) || (count_runs active (flow_runs d) <? limit))
            then (d, 0)
            else (set_runs d (<[id := mkFlowRun c (new_run_life now)]> (flow_runs d)), 1))
  | CancelRun id now =>
      Some (update_run d id (fun l => negb (run_ended (run_status l))) (fun l =>
        mkRunLife RCancelled (run_output l) (run_error l) (retry_of l) (due_at_ms l) None None (run_started_at_ms l) (Some now) now))
  | SetRetryOf id previous =>
      Some (update_run d id (fun _ => true) (fun l =>
        mkRunLife (run_status l) (run_output l) (run_error l) (Some previous) (due_at_ms l) (run_lease_token l) (run_lease_until_ms l)
          (run_started_at_ms l) (run_finished_at_ms l) (run_updated_at_ms l)))
  | RecoverExpired now =>
      Some (set_runs d ((fun r => if run_expired now (run_life r) then mkFlowRun (run_config r) (requeued (run_life r) now) else r)
              <$> flow_runs d),
            count_runs (fun r => run_expired now (run_life r)) (flow_runs d))
  | ClaimRun id lease now until =>
      Some (update_run d id (run_due now) (fun l =>
        mkRunLife RRunning (run_output l) (run_error l) (retry_of l) (due_at_ms l) (Some lease) (Some until)
          (Some (default now (run_started_at_ms l))) (run_finished_at_ms l) now))
  | InsertFlowStep run node ty iteration r input now lease =>
      Some (if run_held d run lease && negb (bool_decide (is_Some (flow_steps d !! (run, node, iteration))))
            then (mkFlowDb (flow_runs d)
                    (<[(run, node, iteration) := mkFlowStep ty (next_seq run (flow_steps d)) (er_status r) (er_route_status r) (er_taken r)
                         input (er_output r) (er_error r) now]> (flow_steps d)) (flow_events d), 1)
            else (d, 0))
  | RenewRun run now until lease =>
      Some (update_run d run (leased_by lease) (fun l =>
        mkRunLife (run_status l) (run_output l) (run_error l) (retry_of l) (due_at_ms l) (run_lease_token l) (Some until)
          (run_started_at_ms l) (run_finished_at_ms l) now))
  | RequeueRun id lease now => Some (update_run d id (leased_by lease) (fun l => requeued l now))
  | FailRun id lease error now =>
      Some (update_run d id (leased_by lease) (fun l =>
        mkRunLife RFailed (run_output l) (Some error) (retry_of l) (due_at_ms l) None None (run_started_at_ms l) (Some now) now))
  | CompleteRun id lease output now =>
      Some (update_run d id (leased_by lease) (fun l =>
        mkRunLife RComplete (Some output) None (retry_of l) (due_at_ms l) None None (run_started_at_ms l) (Some now) now))
  | GcRuns threshold =>
      let dead r := run_ended (run_status (run_life r))
                    && match run_finished_at_ms (run_life r) with Some t => t <? threshold | None => false end in
      let kept := filter (fun ir => dead ir.2 = false) (flow_runs d) in
      let alive id := bool_decide (is_Some (kept !! id)) in
      Some (mkFlowDb kept (filter (fun ks => alive ks.1.1.1 = true) (flow_steps d)) (filter (fun e => alive (fe_run e) = true) (flow_events d)),
            Z.of_nat (size (flow_runs d)) - Z.of_nat (size kept))
  | AppendFlowEvent run kind detail now =>
      match flow_runs d !! run with
      | None => None
      | Some _ =>
          let n := foldr (fun e acc => if bool_decide (fe_run e = run) then Z.max (fe_seq e) acc else acc) 0 (flow_events d) in
          Some (mkFlowDb (flow_runs d) (flow_steps d) (flow_events d ++ [mkFlowEvent run (n + 1) kind detail now]), 1)
      end
  end.

(** ** Scripts *)

(** [ExecContext]. *)
Record ExecContext : Type := mkContext {
  ctx_input : J;
  ctx_trigger : J;
  ctx_nodes : list (string * J);
  ctx_item : option J;
  ctx_depth : Z
}.

Inductive FQuestion : Type :=
| Jsonata (expression : string) (ctx : ExecContext)
| NowText
| Service (kind : string) (config : list (string * J)) (ctx : ExecContext).
Definition FAnswer : Type := result J string.

(** An error with its message, a panic, which ends the task, a statement without answer, and a
    bound of these definitions, which no operation reaches ([FlowEnds]). *)
Inductive FlowError : Type := Failed (message : string) | Panicked | DbError | OutOfFuel.
#[export] Instance flow_unavailable : Script.Unavailable FlowError := DbError.

Notation FOp A := (Script FlowDb FStmt FQuestion FAnswer FlowError A).
#[local] Notation "'let!' x := m 'in' k" := (Script.bind m (fun x => k)) (at level 200, x pattern, m at level 100, k at level 200).

Definition ask (q : FQuestion) : FOp J := Ask q (fun r => match r with Ok v => Ret v | Err e => Stop (Failed e) end).

(** ** Routing *)

(** [StepState]. *)
Record StepState : Type := mkState { route_status : string; output : J; taken : option string }.
Notation States := (gmap string StepState).

Definition incoming (g : FlowGraph) (id : string) : list FlowEdge := filter (fun e => target e = id) (edges g).

(** [edge_is_live]. *)
Definition edge_is_live (states : States) (e : FlowEdge) : bool :=
  match states !! source e with
  | None => false
  | Some s =>
      if bool_decide (route_status s ∈ ["failed"; "skipped"]) then false
      else match taken s with
           | Some t => bool_decide (default "default" (source_handle e) = t)
           | None => match source_handle e with None => true | Some h => bool_decide (h = "default") end
           end
  end.

(** [collect_input], [final_output], [node_context]. *)
Definition collect_input (root : J) (live : list FlowEdge) (states : States) : J :=
  match live with
  | [] => root
  | [e] => match states !! source e with Some s => output s | None => JNull end
  | _ => jobject (omap (fun e => (fun s => (source e, output s)) <$> states !! source e) live)
  end.

Definition is_sink (g : FlowGraph) (n : FlowNode) : bool := negb (existsb (fun e => bool_decide (source e = node_id n)) (edges g)).
Definition final_output (g : FlowGraph) (states : States) : J :=
  let sinks := filter (fun n => is_sink g n = true /\
    match states !! node_id n with Some s => bool_decide (route_status s <> "skipped") | None => false end = true) (nodes g) in
  match sinks with
  | [n] => match states !! node_id n with Some s => output s | None => JNull end
  | _ => jobject (omap (fun n => (fun s => (if is_empty (node_label n) then node_id n else node_label n, output s)) <$> states !! node_id n) sinks)
  end.

Definition with_node (states : States) (m : list (string * J)) (n : FlowNode) : list (string * J) :=
  match states !! node_id n with
  | None => m
  | Some s =>
      let m := obj_insert (node_id n) (output s) m in
      if is_empty (node_label n) then m else obj_insert (node_label n) (output s) m
  end.
Definition node_context (ns : list FlowNode) (states : States) (m : list (string * J)) : list (string * J) :=
  foldl (with_node states) m ns.

(** The node a scheduler takes next: the first whose predecessors all have a state. *)
Definition ready (g : FlowGraph) (states : States) (n : FlowNode) : bool :=
  negb (bool_decide (is_Some (states !! node_id n)))
  && forallb (fun e => bool_decide (is_Some (states !! source e))) (incoming g (node_id n)).
Definition pick (g : FlowGraph) (states : States) : option FlowNode := List.find (ready g states) (nodes g).

Definition live_edges (g : FlowGraph) (states : States) (n : FlowNode) : list FlowEdge :=
  filter (fun e => edge_is_live states e = true) (incoming g (node_id n)).
Definition is_skipped (g : FlowGraph) (states : States) (n : FlowNode) : bool :=
  negb (bool_decide (length (incoming g (node_id n)) = 0%nat)) && bool_decide (length (live_edges g states n) = 0%nat).

Definition success (v : J) : ExecResult := mkExecResult "complete" "success" v None None.
Definition skipped : ExecResult := mkExecResult "skipped" "skipped" JNull None None.
Definition state_of (r : ExecResult) : StepState := mkState (er_route_status r) (er_output r) (er_taken r).

(** What [onError] makes of a failure; [None] stops. *)
Definition on_failure (n : FlowNode) (message : string) : option ExecResult :=
  let v := jobject [("error", JStr message)] in
  if bool_decide (on_error n = "continue") then Some (mkExecResult "failed" "continued" v None (Some message))
  else if bool_decide (on_error n = "branch") then Some (mkExecResult "failed" "error" v (Some "error") (Some message))
  else None.
Definition stopped (message : string) : ExecResult := mkExecResult "failed" "failed" JNull None (Some message).

(** ** Expressions *)

Definition DQ : string := String (ascii_of_nat 34) EmptyString.

(** [legacy_path_expression]. *)
Definition path_start (c : ascii) : bool := is_ascii_lowercase c || is_ascii_upper c || bool_decide (c = "_"%char) || bool_decide (c = "$"%char).
Definition path_char (c : ascii) : bool :=
  is_ascii_alphanumeric c || bool_decide (c ∈ ["_"; "$"; "."; "["; "]"; "'"; "-"]%char) || bool_decide (c = ascii_of_nat 34).
Definition legacy_path_expression (s : string) : bool :=
  match s with EmptyString => false | String c _ => path_start c && all_bytes path_char s end.

(** The dotted path of [eval_expression]. *)
Definition normalize_path (s : string) : string :=
  replace "]" "" (replace "[" "." (replace "']" "" (replace (DQ ++ "]") "" (replace "['" "." (replace ("[" ++ DQ) "." s))))).
Definition path_of (normalized : string) : string :=
  default normalized (strip_prefix "$" (default normalized (strip_prefix "$." normalized))).

(** The rest of a path. *)
Fixpoint walk (source : string) (parts : list string) (v : J) : result J string :=
  match parts with
  | [] => Ok v
  | part :: parts' =>
      match (match v with
             | JObj m => obj_get part m
             | JArr l => match parse_u64 part with Some i => l !! Z.to_nat i | None => None end
             | _ => None
             end) with
      | Some v' => walk source parts' v'
      | None => Err ("Flow 表达式路径不存在：" ++ source)%string
      end
  end.

Definition eval_path (source : string) (ctx : ExecContext) : result J string :=
  match split "." (path_of (normalize_path source)) with
  | [] => Err ""
  | root :: parts =>
      let? v := if bool_decide (root ∈ ["input"; "json"]) then Ok (ctx_input ctx)
                else if bool_decide (root = "trigger") then Ok (ctx_trigger ctx)
                else if bool_decide (root ∈ ["node"; "nodes"]) then Ok (JObj (ctx_nodes ctx))
                else if bool_decide (root = "item") then Ok (default JNull (ctx_item ctx))
                else match jget root (ctx_input ctx) with
                     | Some v => Ok v
                     | None => Err ("Flow 表达式找不到 " ++ root)%string
                     end in
      walk source parts v
  end.

Section engine.
Context {serde : SerdeJson}.

(** [eval_jsonata_expression]. *)
Definition eval_jsonata (source : string) (ctx : ExecContext) : FOp J :=
  if MAX_JSONATA_EXPRESSION_BYTES <? slen source then fail (Failed "Flow JSONata 表达式不得超过 16 KiB") else ask (Jsonata source ctx).

(** [eval_expression]. *)
Definition of_result {A} (r : result A string) : FOp A := match r with Ok a => ret a | Err e => fail (Failed e) end.
Definition eval_expression (source : string) (ctx : ExecContext) : FOp J :=
  let source := trim source in
  if is_empty source then ret JNull
  else if bool_decide (source = "$") then ret (ctx_input ctx)
  else if bool_decide (source ∈ ["$now"; "now"]) then ask NowText
  else
    match from_text source with
    | Some v => ret v
    | None => if negb (legacy_path_expression source) then eval_jsonata source ctx else of_result (eval_path source ctx)
    end.

(** [truthy], [compare_values], [string_comparison_value]. *)
Definition truthy (v : J) : bool :=
  match v with
  | JNull => false
  | JBool b => b
  | JNum n => negb (SFeqb (number_as_f64 n) (S754_zero false))
  | JStr s => negb (is_empty s)
  | JArr l => negb (bool_decide (length l = 0%nat))
  | JObj m => negb (bool_decide (length m = 0%nat))
  end.
Definition compare_values (a b : J) (operator : string) : result bool string :=
  if bool_decide (operator = "==") then Ok (jeqb a b)
  else if bool_decide (operator = "!=") then Ok (negb (jeqb a b))
  else
    match as_f64 a with
    | None => Err "Flow 条件左值不是数字"
    | Some x =>
        match as_f64 b with
        | None => Err "Flow 条件右值不是数字"
        | Some y =>
            Ok (if bool_decide (operator = ">") then SFltb y x
                else if bool_decide (operator = ">=") then SFleb y x
                else if bool_decide (operator = "<") then SFltb x y
                else SFleb x y)
        end
    end.
Definition string_comparison_value (v : J) : string := match v with JStr s => s | JNull => EmptyString | _ => to_text v end.

Definition legacy_expression_operand (s : string) : bool :=
  bool_decide (is_Some (from_text (trim s))) || legacy_path_expression (trim s).

(** [str::split_once] at a text. *)
Fixpoint split_at (pat s : string) : option (string * string) :=
  if starts_with pat s then Some (EmptyString, sdrop (String.length pat) s)
  else match s with
       | EmptyString => None
       | String c s' => match split_at pat s' with Some (l, r) => Some (String c l, r) | None => None end
       end.

(** [eval_condition]: the first operator between two plain operands. *)
Fixpoint condition_split (operators : list string) (source : string) : option (string * string * string) :=
  match operators with
  | [] => None
  | op :: operators' =>
      match split_at op source with
      | Some (l, r) =>
          if legacy_expression_operand l && legacy_expression_operand r then Some (op, l, r) else condition_split operators' source
      | None => condition_split operators' source
      end
  end.
Definition eval_condition (source : string) (ctx : ExecContext) : FOp bool :=
  match condition_split ["=="; "!="; ">="; "<="; ">"; "<"] source with
  | Some (op, l, r) =>
      let! a := eval_expression l ctx in
      let! b := eval_expression r ctx in
      of_result (compare_values a b op)
  | None =>
      let! v := eval_jsonata source ctx in
      ret (truthy v)
  end.

(** [render_string]: [fuel] bounds the number of templates by the length. *)
Fixpoint occurrences_of (pat : string) (skip : nat) (s : string) : nat :=
  match s with
  | EmptyString => O
  | String _ s' =>
      match skip with
      | S k => occurrences_of pat k s'
      | O => if starts_with pat s then S (occurrences_of pat (String.length pat - 1) s') else occurrences_of pat 0 s'
      end
  end.
Definition shown (v : J) : string := match v with JStr s => s | _ => to_text v end.
Fixpoint render_parts (fuel : nat) (output remaining : string) (ctx : ExecContext) : FOp J :=
  match find_sub "{{" remaining with
  | None => ret (JStr (output ++ remaining))
  | Some start =>
      match fuel with
      | O => fail OutOfFuel
      | S fuel' =>
          let output := (output ++ stake start remaining)%string in
          let tail := sdrop (start + 2) remaining in
          match find_sub "}}" tail with
          | None => fail (Failed "Flow 模板表达式缺少 }}")
          | Some stop =>
              let! v := eval_expression (trim (stake stop tail)) ctx in
              render_parts fuel' (output ++ shown v) (sdrop (stop + 2) tail) ctx
          end
      end
  end.
Definition render_string (source : string) (ctx : ExecContext) : FOp J :=
  let trimmed := trim source in
  if starts_with "{{" trimmed && ends_with "}}" trimmed && bool_decide (occurrences_of "{{" 0 trimmed = 1%nat)
  then eval_expression (trim (sdrop 2 (stake (String.length trimmed - 2) trimmed))) ctx
  else render_parts (String.length source) "" source ctx.

(** [render_value] and [render_config]. *)
Fixpoint render_value (v : J) (ctx : ExecContext) {struct v} : FOp J :=
  match v with
  | JStr s => render_string s ctx
  | JArr l =>
      let! l' := (fix go (l : list J) : FOp (list J) :=
                    match l with
                    | [] => ret []
                    | x :: l => let! y := render_value x ctx in let! l' := go l in ret (y :: l')
                    end) l in
      ret (JArr l')
  | JObj m =>
      let! m' := (fix go (m : list (string * J)) : FOp (list (string * J)) :=
                    match m with
                    | [] => ret []
                    | (k, x) :: m => let! y := render_value x ctx in let! m' := go m in ret ((k, y) :: m')
                    end) m in
      ret (JObj m')
  | _ => ret v
  end.
Fixpoint render_config (m : list (string * J)) (ctx : ExecContext) : FOp (list (string * J)) :=
  match m with
  | [] => ret []
  | (k, x) :: m' => let! y := render_value x ctx in let! m'' := render_config m' ctx in ret ((k, y) :: m'')
  end.

(** ** Executing nodes *)

(** [eval_reference_branch]. *)
Definition eval_reference_branch (n : FlowNode) (config : list (string * J)) (ctx : ExecContext) : FOp bool :=
  let path := default "$" (obj_get "path" (node_config n) ≫= as_str) in
  let! value := eval_expression path ctx in
  let wanted := default JNull (obj_get "value" config) in
  let operation := default "truthy" (obj_get "op" config ≫= as_str) in
  let a := string_comparison_value value in
  let b := string_comparison_value wanted in
  if bool_decide (operation = "truthy") then ret (truthy value)
  else if bool_decide (operation = "eq") then ret (bool_decide (a = b))
  else if bool_decide (operation = "ne") then ret (negb (bool_decide (a = b)))
  else if bool_decide (operation = "gt") then of_result (compare_values value wanted ">")
  else if bool_decide (operation = "lt") then of_result (compare_values value wanted "<")
  else if bool_decide (operation = "contains") then ret (contains b a)
  else fail (Failed "Flow branch op 只允许 truthy、eq、ne、gt、lt 或 contains").

(** [required_string_alias]. *)
Fixpoint required_string_alias (config : list (string * J)) (keys : list string) (what : string) : FOp string :=
  match keys with
  | [] => fail (Failed ("Flow 节点缺少" ++ what))
  | k :: keys' =>
      match obj_get k config ≫= as_str with
      | Some v => if is_empty v then required_string_alias config keys' what else ret v
      | None => required_string_alias config keys' what
      end
  end.

Context (db_error : string).
(** [anyhow::Error::to_string] and [safe_error]: [String::truncate] panics inside a character. *)
Definition text_of (e : FlowError) : string := match e with Failed m => m | DbError => db_error | Panicked | OutOfFuel => EmptyString end.
Definition safe_error (e : FlowError) : FOp string :=
  let m := text_of e in
  if 2000 <? slen m then if is_char_boundary m (Z.to_nat 2000) then ret (stake (Z.to_nat 2000) m) else fail Panicked
  else ret m.

(** The outcome of an operation; a panic is no outcome. *)
Definition attempt {A} (m : FOp A) : FOp (result A FlowError) :=
  let! r := catch m in
  match r with Err Panicked => fail Panicked | Err OutOfFuel => fail OutOfFuel | _ => ret r end.

Definition validate_value_size (v : J) (limit : Z) (what : string) : FOp unit :=
  if limit <? slen (to_text v) then fail (Failed (what ++ "不得超过 4 MiB")) else ret tt.

(** [execute_with_retries] around one execution: [more] attempts left. *)
Definition retries_of (n : FlowNode) : nat := Z.to_nat (Z.min 10 (default 0 (obj_get "retries" (node_config n) ≫= as_u64))).
Fixpoint with_retries (more : nat) (m : FOp ExecResult) : FOp ExecResult :=
  let! r := attempt m in
  match r, more with
  | Ok x, _ => ret x
  | Err e, O => fail e
  | Err _, S more' => with_retries more' m
  end.

(** The loop of [execute_subflow_inline] over an executor of nodes. *)
Fixpoint subflow_loop (fuel : nat) (execute : FlowNode -> ExecContext -> FOp ExecResult) (g : FlowGraph) (input : J) (depth : Z) (states : States) :
  FOp ExecResult :=
  match pick g states with
  | None =>
      if negb (bool_decide (size states = length (nodes g))) then fail (Failed "子 Flow 图无法继续推进；请检查节点依赖和路由条件")
      else ret (success (final_output g states))
  | Some n =>
      match fuel with
      | O => fail OutOfFuel
      | S fuel' =>
          if is_skipped g states n then subflow_loop fuel' execute g input depth (<[node_id n := mkState "skipped" JNull None]> states)
          else
            let ctx := mkContext (collect_input input (live_edges g states n) states) input (node_context (nodes g) states []) None (depth + 1) in
            let! executed := if bool_decide (node_type n = "loop") then ret (Ok skipped)
                             else attempt (with_retries (retries_of n) (execute n ctx)) in
            let! r := match executed with
                      | Ok r => ret r
                      | Err e =>
                          let! message := safe_error e in
                          match on_failure n message with
                          | Some r => ret r
                          | None => fail (Failed ("子 Flow 节点 " ++ node_id n ++ " 失败：" ++ message))
                          end
                      end in
            let! _ := validate_value_size (er_output r) MAX_NODE_RESULT_BYTES "子 Flow 节点输出" in
            subflow_loop fuel' execute g input depth (<[node_id n := state_of r]> states)
      end
  end.

(** The definitions of other flows on the node. *)
Context (flow_named : string -> option FlowSpec).

Definition SERVICES : list string := ["worker"; "http"; "kv"; "d1"; "queue"; "analytics"; "workflow"; "r2"; "pipeline"; "email"].

(** [execute_node], with [execute_subflow_inline] for its subflows. *)
Fixpoint execute_node (fuel : nat) (flow : string) (n : FlowNode) (ctx : ExecContext) {struct fuel} : FOp ExecResult :=
  let! config := render_config (node_config n) ctx in
  let ty := node_type n in
  if bool_decide (ty = "trigger") then ret (success (ctx_input ctx))
  else if bool_decide (ty = "transform") then
    let! v := match obj_get "template" config with
              | Some t => ret t
              | None => match obj_get "expression" (node_config n) ≫= as_str with
                        | Some e => eval_expression e ctx
                        | None => ret (ctx_input ctx)
                        end
              end in
    ret (success v)
  else if bool_decide (ty = "branch") then
    let! b := match obj_get "condition" (node_config n) ≫= as_str with
              | Some c => eval_condition c ctx
              | None => eval_reference_branch n config ctx
              end in
    ret (mkExecResult "complete" "success" (ctx_input ctx) (Some (if b : bool then "true" else "false")) None)
  else if bool_decide (ty = "loop") then
    let! items := match obj_get "items" (node_config n) ≫= as_str with
                  | Some e => eval_expression e ctx
                  | None => ret (ctx_input ctx)
                  end in
    match as_array items with
    | None => fail (Failed "Flow loop 节点输入必须是数组")
    | Some l =>
        if MAX_LOOP_ITEMS <? Z.of_nat (length l) then fail (Failed "Flow loop 一次最多处理 1000 个项目")
        else ret (mkExecResult "complete" "success" (jobject [("items", JArr l); ("count", JNum (PosInt (Z.of_nat (length l))))])
                    (Some (if bool_decide (length l = 0%nat) then "done" else "each")) None)
    end
  else if bool_decide (ty = "subflow") then
    let! name := required_string_alias config ["flow"; "flowId"] "子 Flow 名称" in
    let input := default (ctx_input ctx) (obj_get "input" config) in
    if bool_decide (name = flow) then fail (Failed "Flow 不能直接触发自身；请拆分公共子流程")
    else if MAX_SUBFLOW_DEPTH <=? ctx_depth ctx then fail (Failed "子 Flow 嵌套不得超过 3 层")
    else
      match flow_named name with
      | None => fail (Failed "子 Flow 不存在")
      | Some spec =>
          if fl_suspended spec then fail (Failed ("子 Flow 已暂停：" ++ fl_suspend_reason spec))
          else
            match fuel with
            | O => fail OutOfFuel
            | S fuel' => subflow_loop (length (nodes (graph spec))) (execute_node fuel' name) (graph spec) input (ctx_depth ctx) ∅
            end
      end
  else if bool_decide (ty ∈ SERVICES) then
    let! v := ask (Service ty config ctx) in
    ret (success v)
  else fail (Failed ("尚不支持的 Flow 节点类型：" ++ ty)).

Definition NODE_FUEL : nat := 4.
Definition execute_with_retries (flow : string) (n : FlowNode) (ctx : ExecContext) : FOp ExecResult :=
  with_retries (retries_of n) (execute_node NODE_FUEL flow n ctx).
End engine.

(** ** Runs *)

(** [validate_run_key]. *)
Definition validate_run_key (key : option string) : bool :=
  match key with
  | None => true
  | Some k => negb (is_empty k || (256 <? slen k) || contains_byte "013" k || contains_byte "010" k || contains_byte "000" k
                    || existsb is_control (chars k))
  end.
Definition RUN_TRIGGERS : list string := ["manual"; "webhook"; "cron"; "subflow"; "retry"].

Definition flow_schema : FOp unit := select (fun _ => tt).
Definition append_flow_event (run kind : string) (detail : list (string * string)) : FOp unit :=
  let! now := now_ms in
  let! n := exec (AppendFlowEvent run kind detail now) in
  guard (n =? 1) (Failed "Flow 审计事件未能持久化").

(** [run] and [run_by_key]. *)
Definition get_run (id : string) : FOp (option FlowRun) :=
  let! _ := flow_schema in
  select (fun d => flow_runs d !! id).
Definition find_run_key (key : string) (d : FlowDb) : option (string * FlowRun) :=
  List.find (fun ir => bool_decide (run_key (run_config ir.2) = Some key)) (map_to_list (flow_runs d)).
Definition run_by_key (key : string) : FOp (option (string * FlowRun)) := select (find_run_key key).

(** [ClaimedRun]. *)
Record ClaimedRun : Type := mkClaimed { claimed_id : string; claimed_run : FlowRun; claimed_lease : string }.
Definition claimed_graph (c : ClaimedRun) : FlowGraph := run_graph (run_config (claimed_run c)).

Section runs.
Context {serde : SerdeJson} (db_error : string) (graph_text : FlowGraph -> string) (order : list string -> list string).

(** [create_run]; the definition is the record's version and spec. *)
Definition create_run (definition : option (Z * FlowSpec)) (key : option string) (trigger : string) (input : J) : FOp (string * FlowRun) :=
  match definition with
  | None => fail (Failed "Flow 不存在")
  | Some (version, spec) =>
      if fl_suspended spec then fail (Failed ("Flow 已暂停：" ++ fl_suspend_reason spec))
      else if negb (bool_decide (trigger ∈ RUN_TRIGGERS)) then fail (Failed "Flow 触发来源无效")
      else if negb (validate_run_key key) then fail (Failed "Flow 幂等键必须是 1 至 256 个安全字符")
      else
        let! _ := validate_value_size input MAX_RUN_INPUT_BYTES "Flow 输入" in
        let! _ := flow_schema in
        let! existing := match key with Some k => run_by_key k | None => ret None end in
        match existing with
        | Some r => ret r
        | None =>
            let! id := new_id "flr" in
            let! now := now_ms in
            let! inserted := exec (InsertRun id (mkRunConfig key trigger input (graph spec) version now) now (max_concurrent_runs spec)) in
            if inserted =? 1 then
              let! r := get_run id in
              match r with
              | None => fail (Failed "Flow 运行创建后不可见")
              | Some r =>
                  let! _ := append_flow_event id "created" [("trigger", trigger)] in
                  ret (id, r)
              end
            else
              match key with
              | None => fail (Failed "Flow 已达到最大并发运行数")
              | Some k =>
                  let! r := run_by_key k in
                  match r with None => fail (Failed "Flow 幂等运行创建冲突，或并发上限已达到") | Some r => ret r end
              end
        end
  end.

(** [cancel] and [retry]. *)
Definition cancel (id : string) : FOp bool :=
  let! _ := flow_schema in
  let! now := now_ms in
  let! n := exec (CancelRun id now) in
  let! _ := if n =? 1 then append_flow_event id "cancelled" [] else ret tt in
  ret (n =? 1).
Definition retry (definition : option (Z * FlowSpec)) (id : string) : FOp (string * FlowRun) :=
  let! previous := get_run id in
  match previous with
  | None => fail (Failed "Flow 运行不存在")
  | Some p =>
      if negb (run_ended (run_status (run_life p))) then fail (Failed "只有终态 Flow 运行可以重试")
      else
        let! fresh := new_id "attempt" in
        let! r := create_run definition (Some ("retry:" ++ id ++ ":" ++ fresh)%string) "retry" (run_input (run_config p)) in
        let! _ := exec (SetRetryOf r.1 id) in
        let! r' := get_run r.1 in
        match r' with None => fail (Failed "Flow 重试运行不可见") | Some r' => ret (r.1, r') end
  end.

(** [recover_expired], [claim_run]. *)
Definition recover_expired : FOp unit :=
  let! _ := flow_schema in
  let! now := now_ms in
  let! _ := exec (RecoverExpired now) in
  ret tt.

Definition run_due_key (ir : string * FlowRun) : Z * (Z * string) :=
  (due_at_ms (run_life ir.2), (run_created_at_ms (run_config ir.2), ir.1)).
Definition run_candidate (now : Z) (d : FlowDb) : option (string * FlowRun) :=
  min_by_key run_due_key (filter (fun ir => run_due now (run_life ir.2) = true) (map_to_list (flow_runs d))).
Definition claim_run : FOp (option ClaimedRun) :=
  let! _ := flow_schema in
  let! now := now_ms in
  let! found := select (run_candidate now) in
  match found with
  | None => ret None
  | Some (id, _) =>
      let! lease := new_id "lease" in
      let! n := exec (ClaimRun id lease now (sat_add 64 now FLOW_LEASE_MS)) in
      if negb (n =? 1) then ret None
      else
        let! r := select (fun d => match flow_runs d !! id with Some r => if leased_by lease (run_life r) then Some r else None | None => None end) in
        match r with
        | None => fail (Failed "Flow 租约成功后运行不可见")
        | Some r =>
            match validate_graph graph_text order (run_graph (run_config r)) with
            | Err _ => fail (Failed "Flow 图无效")
            | Ok _ => ret (Some (mkClaimed id r lease))
            end
        end
  end.

(** [persist_step] and [persist_iteration_step]. *)
Definition persist (c : ClaimedRun) (n : FlowNode) (iteration : Z) (input : J) (r : ExecResult) : FOp unit :=
  let! now := now_ms in
  let! changed := exec (InsertFlowStep (claimed_id c) (node_id n) (node_type n) iteration r input now (claimed_lease c)) in
  if negb (changed =? 1)
  then fail (Failed (if iteration =? 0 then "Flow 步骤提交失败：租约可能已转移" else "Flow loop 步骤提交失败：租约可能已转移"))
  else
    let! _ := exec (RenewRun (claimed_id c) now (sat_add 64 now FLOW_LEASE_MS) (claimed_lease c)) in
    ret tt.

(** [requeue_claim], [fail_claim], [complete_claim], [gc_runs]. *)
Definition requeue_claim (c : ClaimedRun) : FOp unit :=
  let! now := now_ms in
  let! _ := exec (RequeueRun (claimed_id c) (claimed_lease c) now) in
  ret tt.
Definition fail_claim (c : ClaimedRun) (error : string) : FOp unit :=
  let! now := now_ms in
  let! n := exec (FailRun (claimed_id c) (claimed_lease c) error now) in
  if n =? 1 then append_flow_event (claimed_id c) "failed" [("error", error)] else ret tt.
Definition complete_claim (c : ClaimedRun) (v : J) : FOp unit :=
  let! _ := validate_value_size v MAX_NODE_RESULT_BYTES "Flow 最终输出" in
  let! now := now_ms in
  let! n := exec (CompleteRun (claimed_id c) (claimed_lease c) v now) in
  if n =? 1 then append_flow_event (claimed_id c) "completed" [] else ret tt.
Definition gc_runs (retention_days : Z) : FOp unit :=
  let! _ := flow_schema in
  let! now := now_ms in
  let! _ := exec (GcRuns (sat_sub now (retention_days * 86400000))) in
  ret tt.

(** The states the recorded steps of a run give, for one iteration. *)
Definition recorded (run : string) (iteration : Z) (keep : string -> bool) (d : FlowDb) : States :=
  list_to_map (omap (fun ks : string * string * Z * FlowStep =>
    if bool_decide (ks.1.1.1 = run) && bool_decide (ks.1.2 = iteration) && keep ks.1.1.2
    then Some (ks.1.1.2, mkState (fs_route_status ks.2) (fs_output ks.2) (fs_taken ks.2)) else None)
    (map_to_list (flow_steps d))).

(** ** Loops ([execute_loop]) *)

Context (flow_named : string -> option FlowSpec) (flow : string).

Definition body_graph (g : FlowGraph) (body : gset string) : FlowGraph :=
  mkGraph (filter (fun n => node_id n ∈ body) (nodes g)) (filter (fun e => source e ∈ body /\ target e ∈ body) (edges g)).

(** The items of a loop. *)
Definition loop_items (n : FlowNode) (ctx : ExecContext) : FOp (list J) :=
  let max := Z.min MAX_LOOP_ITEMS (Z.max 1 (default 10 (obj_get "maxIterations" (node_config n) ≫= as_u64))) in
  if bool_decide (obj_get "mode" (node_config n) ≫= as_str = Some "count") then
    let count := Z.min (default 1 (obj_get "count" (node_config n) ≫= as_u64)) max in
    ret (map (fun i => JNum (PosInt (Z.of_nat i))) (List.seq 0 (Z.to_nat count)))
  else
    let! v := match (match obj_get "items" (node_config n) with Some v => Some v | None => obj_get "itemsPath" (node_config n) end) ≫= as_str with
              | Some e => eval_expression e ctx
              | None => ret (ctx_input ctx)
              end in
    ret (match v with
         | JArr l => take (Z.to_nat max) l
         | JNull => []
         | v => [v]
         end).

(** One iteration: the scheduler on the body; the states when no node is left. *)
Fixpoint iteration_loop (fuel : nat) (c : ClaimedRun) (g : FlowGraph) (entries : list string) (outer : States) (ctx : ExecContext)
    (item : J) (iteration : Z) (states : States) : FOp States :=
  match pick g states with
  | None => ret states
  | Some n =>
      match fuel with
      | O => fail OutOfFuel
      | S fuel' =>
          if is_skipped g states n then
            let! _ := persist c n iteration JNull skipped in
            iteration_loop fuel' c g entries outer ctx item iteration (<[node_id n := mkState "skipped" JNull None]> states)
          else
            let input := if bool_decide (node_id n ∈ entries) || bool_decide (length (incoming g (node_id n)) = 0%nat) then item
                         else collect_input item (live_edges g states n) states in
            let body_ctx := mkContext input (ctx_trigger ctx) (node_context (nodes g) states (node_context (nodes (claimed_graph c)) outer []))
                              (Some item) (ctx_depth ctx) in
            let! executed := if bool_decide (node_type n = "loop") then ret (Err (Failed "Flow 暂不允许嵌套 loop 节点"))
                             else attempt (execute_with_retries db_error flow_named flow n body_ctx) in
            let! r := match executed with
                      | Ok r => ret r
                      | Err e =>
                          let! message := safe_error db_error e in
                          match on_failure n message with
                          | Some r => ret r
                          | None =>
                              let! _ := persist c n iteration input (stopped message) in
                              fail (Failed ("Flow loop 第 " ++ pretty iteration ++ " 次迭代失败：" ++ message))
                          end
                      end in
            let! _ := validate_value_size (er_output r) MAX_NODE_RESULT_BYTES "Flow loop 节点输出" in
            let! _ := persist c n iteration input r in
            iteration_loop fuel' c g entries outer ctx item iteration (<[node_id n := state_of r]> states)
      end
  end.

Fixpoint iterations (c : ClaimedRun) (g : FlowGraph) (entries : list string) (outer : States) (ctx : ExecContext) (persisted : Z -> States)
    (items : list J) (iteration : Z) : FOp (list J) :=
  match items with
  | [] => ret []
  | item :: items' =>
      let! states := iteration_loop (length (nodes g)) c g entries outer ctx item iteration (persisted iteration) in
      if negb (bool_decide (size states = length (nodes g)))
      then fail (Failed ("Flow loop 第 " ++ pretty iteration ++ " 次迭代的子图无法继续推进"))
      else
        let v := if bool_decide (length (nodes g) = 0%nat) then item else final_output g states in
        let! rest := iterations c g entries outer ctx persisted items' (iteration + 1) in
        ret (v :: rest)
  end.

Definition execute_loop (c : ClaimedRun) (n : FlowNode) (ctx : ExecContext) (outer : States) : FOp ExecResult :=
  match loop_body (node_id n) (claimed_graph c) with
  | None => fail OutOfFuel
  | Some (body, entries) =>
      let! items := loop_items n ctx in
      let! _ := flow_schema in
      let! persisted := select (fun d i => recorded (claimed_id c) i (fun id => bool_decide (id ∈ body)) d) in
      let! results := iterations c (body_graph (claimed_graph c) body) entries outer ctx persisted items 1 in
      ret (mkExecResult "complete" "success" (JArr results) (Some "done") None)
  end.

(** ** The scheduler ([advance_run]) *)

(** [send_failure_alert]: a request whose outcome is ignored. *)
Definition send_failure_alert (c : ClaimedRun) (n : FlowNode) (message : string) : FOp unit :=
  match flow_named flow ≫= alert_webhook_env with
  | None => ret tt
  | Some env =>
      Ask (Service "alert" [("env", JStr env); ("error", JStr message); ("nodeId", JStr (node_id n)); ("runId", JStr (claimed_id c))]
             (mkContext JNull JNull [] None 0)) (fun _ => Ret tt)
  end.

Fixpoint advance_loop (budget : nat) (c : ClaimedRun) (states : States) : FOp unit :=
  let g := claimed_graph c in
  let input := run_input (run_config (claimed_run c)) in
  match budget with
  | O => requeue_claim c
  | S budget' =>
      match pick g states with
      | None =>
          if negb (bool_decide (size states = length (nodes g))) then fail_claim c "Flow 图无法继续推进；请检查节点依赖和路由条件"
          else complete_claim c (final_output g states)
      | Some n =>
          if is_skipped g states n then
            let! _ := persist c n 0 JNull skipped in
            advance_loop budget' c (<[node_id n := mkState "skipped" JNull None]> states)
          else
            let step_input := collect_input input (live_edges g states n) states in
            let ctx := mkContext step_input input (node_context (nodes g) states []) None 0 in
            let! executed := attempt (if bool_decide (node_type n = "loop") then execute_loop c n ctx states
                                      else execute_with_retries db_error flow_named flow n ctx) in
            let! r := match executed with
                      | Ok r => ret (Ok r)
                      | Err e =>
                          let! message := safe_error db_error e in
                          ret (match on_failure n message with Some r => Ok r | None => Err message end)
                      end in
            match r with
            | Err message =>
                let! _ := persist c n 0 step_input (stopped message) in
                let! _ := fail_claim c message in
                send_failure_alert c n message
            | Ok r =>
                let! sized := attempt (validate_value_size (er_output r) MAX_NODE_RESULT_BYTES "Flow 节点输出") in
                match sized with
                | Err e =>
                    let! message := safe_error db_error e in
                    let! _ := persist c n 0 step_input (stopped message) in
                    fail_claim c message
                | Ok _ =>
                    let! _ := persist c n 0 step_input r in
                    advance_loop budget' c (<[node_id n := state_of r]> states)
                end
            end
      end
  end.

Definition advance_run (c : ClaimedRun) : FOp unit :=
  let! _ := flow_schema in
  let! states := select (recorded (claimed_id c) 0 (fun _ => true)) in
  advance_loop MAX_NODES_PER_ADVANCE c states.

(** One round of [spawn_driver] for a flow: the cron run of the minute, recovery, a claim. *)
Definition flow_cron_key (minute : Z) : string := ("cron:" ++ pretty minute)%string.
Definition flow_cron_round (definition : Z * FlowSpec) (minute : Z) : FOp unit :=
  let '(_, spec) := definition in
  if bool_decide (fl_trigger spec = CronTrigger) && negb (fl_suspended spec) then
    match fl_cron spec with
    | Some e =>
        match Cron.parse e with
        | Ok x => if Cron.matches x (minute * 60)
                  then ignore (create_run (Some definition) (Some (flow_cron_key minute)) "cron"
                                 (jobject [("scheduledAtMs", JNum (PosInt (minute * 60000))); ("cron", JStr e)]))
                  else ret tt
        | Err _ => ret tt
        end
    | None => ret tt
    end
  else ret tt.
Definition flow_drive (spec : FlowSpec) : FOp unit :=
  let! recovered := catch recover_expired in
  match recovered with
  | Err _ => ret tt
  | Ok _ =>
      if fl_suspended spec then ret tt
      else
        let! c := claim_run in
        match c with None => ret tt | Some c => advance_run c end
  end.
End runs.
