(* ===== verification/FlowProps.v ===== *)
(** * FlowProps: what flows guarantee

    The scheduler never gets stuck on a valid graph; the life of a run under every
    interleaving and failure; recorded steps are final; and a completed run is an
    evaluation of its graph. *)

From Stdlib Require Import ZArith Lia Ascii.
From stdpp Require Import prelude gmap sorting strings list pretty relations.
From S2P Require Import Prelude Text Json Script FlowGraph Flow.
Open Scope Z_scope.

(** ** The scheduler *)

Definition graph_ok (g : FlowGraph) : Prop := well_linked g /\ acyclic g.

Lemma ready_spec g states n :
  ready g states n = true <-> states !! node_id n = None /\ forall u, edge_rel g u (node_id n) -> is_Some (states !! u).
Proof.
  unfold ready, incoming. rewrite andb_true_iff, negb_true_iff, bool_decide_eq_false, <- eq_None_not_Some, forallb_forall. split.
  - intros [Hn Hf]. split; [done|]. intros u (e & He & <- & Ht). specialize (Hf e). rewrite bool_decide_eq_true in Hf. apply Hf.
    apply list_elem_of_In, list_elem_of_filter. done.
  - intros [Hn Hf]. split; [done|]. intros e He%list_elem_of_In%list_elem_of_filter. apply bool_decide_eq_true, Hf. exists e. naive_solver.
Qed.

Lemma pick_Some g states n : pick g states = Some n -> n ∈ nodes g /\ ready g states n = true.
Proof. intros H. apply find_some in H as [Hi Hr]. split; [by apply list_elem_of_In | done]. Qed.

(** While a node of a valid graph has no state, some node is ready. *)
Lemma pick_None g states : graph_ok g -> pick g states = None -> forall n, n ∈ nodes g -> is_Some (states !! node_id n).
Proof.
  intros [WL Ha] Hp n Hn. apply dec_stable. intros Hno.
  assert (Hne : filter (fun v => states !! v = None) (node_ids g) <> []).
  { intros He. assert (H : node_id n ∈ filter (fun v => states !! v = None) (node_ids g)).
    { apply list_elem_of_filter. split; [by apply eq_None_not_Some|]. apply list_elem_of_fmap. by exists n. }
    rewrite He in H. by apply elem_of_nil in H. }
  assert (forall u v, Decision (edge_rel g u v)) as Hdec.
  { intros u v. destruct (decide (v ∈ outgoing g u)) as [H|H]; [left | right]; by rewrite <- outgoing_spec. }
  destruct (acyclic_has_source (edge_rel g) _ Ha Hdec Hne) as (v & [Hv Hi]%list_elem_of_filter & Hsrc).
  apply list_elem_of_fmap in Hi as (m & -> & Hm). assert (Hr : ready g states m = false) by (eapply find_none; [exact Hp | by apply list_elem_of_In]).
  enough (ready g states m = true) by congruence. apply ready_spec. split; [done|]. intros u Hu. apply dec_stable. intros Hnu.
  apply (Hsrc u); [|done]. apply list_elem_of_filter. split; [by apply eq_None_not_Some|]. destruct Hu as (e & He & <- & _). by apply WL.
Qed.

Lemma states_complete g (states : States) : NoDup (node_ids g) -> (forall id, is_Some (states !! id) -> id ∈ node_ids g) ->
  (forall n, n ∈ nodes g -> is_Some (states !! node_id n)) -> size states = length (nodes g).
Proof.
  intros Hn Hsub Hall. rewrite <- size_dom. rewrite <- (length_map node_id (nodes g)). fold (node_ids g).
  rewrite <- (size_list_to_set (C := gset string) (node_ids g)) by done. f_equal. apply set_eq. intros id. rewrite elem_of_dom, elem_of_list_to_set. split; [apply Hsub|].
  intros Hi. apply list_elem_of_fmap in Hi as (n & -> & Hi). by apply Hall.
Qed.

(** A scheduler on a valid graph either takes a node or has a state for all of them: the error that a
    graph cannot go on is never given, for the graph of a run, of a subflow or of a loop's
    body. *)
Theorem scheduler_is_never_stuck g (states : States) :
  graph_ok g -> (forall id, is_Some (states !! id) -> id ∈ node_ids g) ->
  match pick g states with
  | Some n => n ∈ nodes g /\ states !! node_id n = None /\ forall u, edge_rel g u (node_id n) -> is_Some (states !! u)
  | None => size states = length (nodes g)
  end.
Proof.
  intros Hg Hsub. destruct (pick g states) as [n|] eqn:E.
  - apply pick_Some in E as [Hi Hr]. split; [done|]. by apply ready_spec.
  - apply states_complete; [apply Hg | done | by apply pick_None].
Qed.

Lemma body_graph_ok g body : graph_ok g -> graph_ok (body_graph g body).
Proof.
  intros [[Hn He] Ha]. split; [split|].
  - unfold node_ids, body_graph. cbn. clear -Hn. unfold node_ids in Hn. induction (nodes g) as [|n l IH]; [done|].
    cbn in Hn. apply NoDup_cons in Hn as [Hi Hn]. rewrite filter_cons. destruct (decide (node_id n ∈ body)); [|by apply IH].
    cbn. constructor; [|by apply IH]. intros H. apply Hi. apply list_elem_of_fmap in H as (m & Hm & [_ Hin]%list_elem_of_filter).
    apply list_elem_of_fmap. by exists m.
  - intros e [[Hs Ht] Hin]%list_elem_of_filter. destruct (He e Hin) as [Hes Het]. unfold node_ids, body_graph in *. cbn.
    apply list_elem_of_fmap in Hes as (a & Ea & Ha'), Het as (b & Eb & Hb).
    split; apply list_elem_of_fmap; [exists a | exists b]; (split; [done|]); apply list_elem_of_filter; (split; [|done]); congruence.
  - intros u Hu. apply (Ha u). assert (H : forall v, tc (edge_rel (body_graph g body)) u v -> tc (edge_rel g) u v); [|by apply H].
    clear. intros v Hu. induction Hu as [x y (e & [_ He]%list_elem_of_filter & Hs & Ht)|x y z (e & [_ He]%list_elem_of_filter & Hs & Ht) _ IH].
    + apply tc_once. by exists e.
    + eapply tc_l; [by exists e | done].
Qed.

(** ** The operations of a flow *)

Section flows.
Context {serde : SerdeJson} (graph_text : FlowGraph -> string) (order : list string -> list string).

(** Anything that may run on some node: requests of the API, and the rounds of drivers whose
    view of the definitions may differ. *)
Inductive foperation : FOp unit -> Prop :=
| fop_create definition key trigger input : foperation (ignore (create_run definition key trigger input))
| fop_cancel id : foperation (ignore (cancel id))
| fop_retry definition id : foperation (ignore (retry definition id))
| fop_drive db_error flow_named flow spec : foperation (flow_drive db_error graph_text order flow_named flow spec)
| fop_cron definition minute : foperation (flow_cron_round definition minute)
| fop_gc days : foperation (gc_runs days).

Definition flow_reachable (faults : Prop) (s : Sys FlowDb FStmt FQuestion FAnswer FlowError) : Prop :=
  reachable frun foperation faults empty_flow_db s.

(** ** The life of a run *)

Lemma update_run_lookup d id p f j :
  flow_runs (update_run d id p f).1 !! j =
  if decide (j = id) then (fun r => if p (run_life r) then mkFlowRun (run_config r) (f (run_life r)) else r) <$> flow_runs d !! j else flow_runs d !! j.
Proof.
  unfold update_run. destruct (flow_runs d !! id) as [r|] eqn:E; [destruct (p (run_life r)) eqn:Ep|]; cbn;
    destruct (decide (j = id)) as [->|Hne]; rewrite ?E; cbn; rewrite ?Ep; try done.
  - by rewrite lookup_insert_eq.
  - by rewrite lookup_insert_ne.
Qed.

Lemma update_run_steps d id p f : flow_steps (update_run d id p f).1 = flow_steps d.
Proof. unfold update_run. by repeat case_match. Qed.

(** What the columns of a run say together. *)
Definition run_ok (l : RunLife) : Prop :=
  match run_status l with
  | RQueued => run_lease_token l = None /\ run_finished_at_ms l = None
  | RRunning => is_Some (run_lease_token l) /\ is_Some (run_lease_until_ms l) /\ run_finished_at_ms l = None
  | RComplete => is_Some (run_output l) /\ run_lease_token l = None /\ is_Some (run_finished_at_ms l)
  | RFailed => is_Some (run_error l) /\ run_lease_token l = None /\ is_Some (run_finished_at_ms l)
  | RCancelled => run_lease_token l = None /\ is_Some (run_finished_at_ms l)
  end.

Definition runs_ok (d : FlowDb) : Prop := map_Forall (fun _ r => run_ok (run_life r)) (flow_runs d).

Lemma update_run_ok d id p f : (forall l, p l = true -> run_ok l -> run_ok (f l)) -> runs_ok d -> runs_ok (update_run d id p f).1.
Proof.
  intros Hf Hd j r. rewrite update_run_lookup. destruct (decide (j = id)) as [->|]; [|apply Hd].
  destruct (flow_runs d !! id) as [r0|] eqn:E; [|done]. cbn. intros [= <-]. specialize (Hd _ _ E).
  destruct (p (run_life r0)) eqn:Ep; [by apply Hf | done].
Qed.

Lemma leased_running lease l : leased_by lease l = true -> run_ok l -> run_status l = RRunning.
Proof. unfold leased_by, run_ok. intros Hl Ho. to_prop. destruct (run_status l); naive_solver congruence. Qed.

Lemma frun_ok d s : runs_ok d -> runs_ok (apply frun d s).
Proof.
  intros Hd. unfold apply. destruct s; cbn [frun]; try done;
    try (rewrite (surjective_pairing (update_run _ _ _ _)); apply update_run_ok; [|done]; intros l Hp Hl; unfold run_ok in *; cbn in *;
      try (apply (leased_running lease) in Hp as Hr; [|done]; rewrite ?Hr in *; naive_solver); try (by eauto)).
  - destruct (_ || _); [done|]. intros j r. cbn. destruct (decide (j = id)) as [->|Hne]; [|rewrite lookup_insert_ne by done; apply Hd].
    rewrite lookup_insert_eq. by intros [= <-].
  - intros j r. cbn. rewrite lookup_fmap. destruct (flow_runs d !! j) as [r0|] eqn:E; [|done]. cbn. intros [= <-]. specialize (Hd _ _ E).
    destruct (run_expired now (run_life r0)) eqn:Ex; [|done]. unfold run_expired in Ex. apply andb_prop in Ex as [Hs _]. to_prop.
    unfold run_ok in *. rewrite Hs in Hd. cbn. naive_solver.
  - unfold run_due in Hp. apply andb_prop in Hp as [Hs _]. to_prop. rewrite Hs in Hl. naive_solver.
  - by destruct (_ && _).
  - intros j r [Hj _]%map_lookup_filter_Some. by eapply Hd.
  - by destruct (flow_runs d !! run).
Qed.

Lemma issues_any {A} (m : FOp A) : issues (fun _ => True) m.
Proof. induction m; cbn; auto. Qed.

Lemma flow_reachable_ok faults s : flow_reachable faults s -> runs_ok (state s).
Proof.
  intros Hr. eapply (reachable_keeps frun foperation faults runs_ok (fun _ => True)) in Hr as [Hd _];
    [exact Hd | intros; apply issues_any | intros; by apply frun_ok | by intros id r].
Qed.

(** C14: No run is ever stranded: after any interleaving, lost statements, lost answers and crashes,
    a run has ended, can be claimed from a time on, or is held under a lease whose expiry
    makes it claimable. *)
Theorem no_run_is_stranded s id r :
  flow_reachable True s -> flow_runs (state s) !! id = Some r ->
  let l := run_life r in
  run_ended (run_status l) = true \/
  (forall now, due_at_ms l <= now -> run_due now l = true) \/
  (exists u, run_lease_until_ms l = Some u /\ forall now, u < now ->
     exists r', flow_runs (apply frun (state s) (RecoverExpired now)) !! id = Some r' /\
       forall now', now <= now' -> run_due now' (run_life r') = true).
Proof.
  intros Hr Hi l. assert (Hl : run_ok l) by (eapply flow_reachable_ok in Hr; by eapply Hr). unfold run_ok in Hl.
  destruct (run_status l) eqn:Es; [| |by left..].
  - right. left. intros now Hn. unfold run_due. rewrite Es. by apply Z.leb_le.
  - destruct Hl as (_ & [u Hu] & _). do 2 right. exists u. split; [done|]. intros now Hn.
    exists (mkFlowRun (run_config r) (requeued l now)). split.
    + unfold apply. cbn [frun flow_runs set_runs]. rewrite lookup_fmap, Hi. cbn. unfold run_expired. fold l. rewrite Es, Hu.
      by rewrite (proj2 (Z.ltb_lt u now) Hn).
    + intros now' Hn'. by apply Z.leb_le.
Qed.
End flows.
