(* ===== verification/FlowEnds.v ===== *)
(** * FlowEnds: the work of a flow ends

    Every search, template, loop and subflow of [Flow] ends within the bound its definition
    gives it, so that no operation ever stops because of a bound; what a node returns
    always has a route. *)

From Stdlib Require Import ZArith Lia Ascii.
From stdpp Require Import prelude gmap sorting strings list pretty relations.
From S2P Require Import Prelude Text Json Script FlowGraph FlowLoop Flow FlowProps.
Open Scope Z_scope.

(** Any error but a bound. *)
Definition unbounded (e : FlowError) : Prop := e <> OutOfFuel.

Lemma unbounded_failed m : unbounded (Failed m).
Proof. done. Qed.
Lemma unbounded_panicked : unbounded Panicked.
Proof. done. Qed.
Lemma unbounded_db : unbounded unavailable.
Proof. done. Qed.
#[export] Hint Resolve unbounded_failed unbounded_panicked unbounded_db : goes.

(** ** Expressions and templates *)

Section executing.
Context {serde : SerdeJson} (P : FStmt -> Prop).

Notation tame m := (goes P unbounded (fun _ => True) m).

Lemma goes_ask q : tame (ask q).
Proof. by intros [v|e]. Qed.
Lemma goes_of_result {A} (r : result A string) : tame (of_result r).
Proof. by destruct r. Qed.
#[local] Hint Resolve goes_ask goes_of_result : goes.

Lemma goes_expression source ctx : tame (eval_expression source ctx).
Proof. unfold eval_expression, eval_jsonata. auto 20 with goes. Qed.
#[local] Hint Resolve goes_expression : goes.
Lemma goes_condition source ctx : tame (eval_condition source ctx).
Proof. unfold eval_condition, eval_jsonata. destruct (condition_split _ source) as [[[op l] r]|]; auto 20 with goes. Qed.
#[local] Hint Resolve goes_condition : goes.
Lemma goes_branch n config ctx : tame (eval_reference_branch n config ctx).
Proof. unfold eval_reference_branch. auto 20 with goes. Qed.
Lemma goes_alias config keys what : tame (required_string_alias config keys what).
Proof. induction keys as [|k keys IH]; cbn; auto 20 with goes. Qed.
#[local] Hint Resolve goes_branch goes_alias : goes.

Lemma sdrop_shorter k s : (String.length (sdrop k s) = String.length s - k)%nat.
Proof. revert k. induction s as [|c s IH]; intros [|k]; cbn; auto. Qed.

Lemma goes_parts fuel output remaining ctx : (String.length remaining <= fuel)%nat -> tame (render_parts fuel output remaining ctx).
Proof.
  revert output remaining. induction fuel as [|fuel IH]; intros output remaining Hf; cbn.
  - by destruct remaining; [|cbn in Hf; lia].
  - destruct (find_sub "{{" remaining) as [start|] eqn:E; [|done]. assert (String.length remaining <> 0%nat) by (by destruct remaining).
    destruct (find_sub "}}" _) as [stop|]; [|done]. apply goes_seq; [apply goes_expression|]. intros v. apply IH. rewrite !sdrop_shorter. lia.
Qed.

Lemma goes_render_string source ctx : tame (render_string source ctx).
Proof. unfold render_string. apply goes_if; [apply goes_expression | by apply goes_parts]. Qed.

Lemma goes_render_value v ctx : tame (render_value v ctx).
Proof.
  induction v as [|b|n|s|l Hl|m Hm] using J_nested_ind; try done; [apply goes_render_string | |]; cbn; apply goes_seq; try done.
  - induction Hl as [|x l Hx Hl IH]; [done|]. apply goes_seq; [done|]. intros y. by apply goes_seq.
  - induction Hm as [|[k x] m Hx Hm IH]; [done|]. apply goes_seq; [done|]. intros y. by apply goes_seq.
Qed.

Lemma goes_render_config m ctx : tame (render_config m ctx).
Proof. induction m as [|[k x] m IH]; cbn; [done|]. apply goes_seq; [apply goes_render_value|]. auto 20 with goes. Qed.
#[local] Hint Resolve goes_render_config : goes.

(** ** Nodes *)

Context (db_error : string).

Lemma goes_safe_error e : tame (safe_error db_error e).
Proof. unfold safe_error. auto 20 with goes. Qed.
Lemma goes_size v limit what : tame (validate_value_size v limit what).
Proof. unfold validate_value_size. auto 20 with goes. Qed.
#[local] Hint Resolve goes_safe_error goes_size : goes.

Lemma goes_attempt {A} (post : A -> Prop) (m : FOp A) :
  goes P unbounded post m -> goes P unbounded (fun r => match r with Ok a => post a | Err e => unbounded e end) (attempt m).
Proof.
  intros Hm. eapply goes_bind; [eapply goes_catch, Hm|]. intros [a|[]] H; done.
Qed.

Lemma goes_retries post more m : goes P unbounded post m -> goes P unbounded post (with_retries more m).
Proof.
  intros Hm. induction more as [|more IH]; cbn; (eapply goes_bind; [apply goes_attempt, Hm|]); intros [x|e] Hx; done.
Qed.

(** How many nodes have no state yet. *)
Definition missing (g : FlowGraph) (states : States) : nat := length (filter (fun n => states !! node_id n = None) (nodes g)).

Lemma missing_insert g (states : States) n st :
  n ∈ nodes g -> states !! node_id n = None -> (missing g (<[node_id n := st]> states) < missing g states)%nat.
Proof.
  unfold missing. intros Hn Hs. assert (Hle : forall l, (length (filter (fun m => <[node_id n := st]> states !! node_id m = None) l) <=
    length (filter (fun m => states !! node_id m = None) l))%nat).
  { induction l as [|m l IH]; [done|]. rewrite !filter_cons. destruct (decide (node_id m = node_id n)) as [E|E].
    - rewrite decide_False by (rewrite E, lookup_insert_eq; done). rewrite E, decide_True by done. cbn. lia.
    - rewrite lookup_insert_ne by done. case_decide; cbn; lia. }
  induction (nodes g) as [|m l IH]; [by apply elem_of_nil in Hn|]. rewrite !filter_cons. specialize (Hle l).
  apply elem_of_cons in Hn as [<-|Hn].
  - rewrite lookup_insert_eq, decide_False, Hs, decide_True by done. cbn. lia.
  - specialize (IH Hn). destruct (decide (node_id m = node_id n)) as [E|E].
    + rewrite decide_False by (rewrite E, lookup_insert_eq; done). case_decide; cbn; lia.
    + rewrite lookup_insert_ne by done. case_decide; cbn; lia.
Qed.

Lemma pick_missing g states n st fuel :
  pick g states = Some n -> (missing g states <= fuel)%nat ->
  exists fuel', fuel = S fuel' /\ (missing g (<[node_id n := st]> states) <= fuel')%nat.
Proof.
  intros [Hn [Hs _]%ready_spec]%pick_Some Hf. pose proof (missing_insert g states n st Hn Hs) as Hm. destruct fuel as [|fuel]; [lia|]. exists fuel. lia.
Qed.

Lemma missing_bound g states : (missing g states <= length (nodes g))%nat.
Proof. apply length_filter. Qed.

(** What is recorded of an executed node. *)
Definition has_route (r : ExecResult) : Prop := er_route_status r <> "skipped".

Lemma on_failure_route n message r : on_failure n message = Some r -> has_route r.
Proof. unfold on_failure. repeat case_match; intros [= <-]; done. Qed.

Lemma goes_subflow fuel execute g input depth states :
  (forall n ctx, ctx_depth ctx = depth + 1 -> tame (execute n ctx)) -> (missing g states <= fuel)%nat ->
  goes P unbounded has_route (subflow_loop db_error fuel execute g input depth states).
Proof.
  intros He. revert states. induction fuel as [|fuel IH]; intros states Hf; cbn; destruct (pick g states) as [n|] eqn:E.
  1,3: destruct (pick_missing g states n (mkState "skipped" JNull None) _ E Hf) as (fuel' & Hf' & Hm); [try done..].
  1: { injection Hf' as <-. apply goes_if; [by apply IH|]. apply goes_seq.
       - apply goes_if; [done|]. by eapply goes_weaken, goes_attempt, goes_retries, He.
       - intros r. apply goes_seq; [destruct r; auto 20 with goes|]. intros r'. apply goes_seq; [apply goes_size|]. intros _.
         apply IH. destruct (pick_missing g states n (state_of r') _ E Hf) as (fuel' & [= <-] & Hm'). done. }
  all: by apply goes_if.
Qed.

Context (flow_named : string -> option FlowSpec).

(** A node below the limit of nesting has fuel left for the subflows under it. *)
Lemma goes_node fuel flow n ctx :
  MAX_SUBFLOW_DEPTH < ctx_depth ctx + Z.of_nat fuel -> goes P unbounded has_route (execute_node db_error flow_named fuel flow n ctx).
Proof.
  revert flow n ctx. induction fuel as [|fuel IH]; intros flow n ctx Hf; cbn [execute_node]; (apply goes_seq; [apply goes_render_config|]); intros config;
    (apply goes_if; [done|]); do 2 (apply goes_if; [apply goes_seq; [auto 20 with goes | done]|]).
  all: apply goes_if; [apply goes_seq; [auto 20 with goes|]; intros items; repeat case_match; done|].
  all: apply goes_if; [|apply goes_if; [|done]; apply goes_seq; [apply goes_ask | done]].
  all: apply goes_seq; [apply goes_alias|]; intros name; apply goes_if; [done|]; destruct (Z.leb_spec MAX_SUBFLOW_DEPTH (ctx_depth ctx)); [done|].
  all: destruct (flow_named name) as [spec|]; [|done]; apply goes_if; [done|].
  - exfalso. unfold MAX_SUBFLOW_DEPTH in *. lia.
  - apply goes_subflow; [|apply missing_bound]. intros m c Hc. eapply goes_weaken, IH. lia.
Qed.

Lemma goes_execute flow n ctx : 0 <= ctx_depth ctx -> goes P unbounded has_route (execute_with_retries db_error flow_named flow n ctx).
Proof. intros Hd. apply goes_retries, goes_node. unfold MAX_SUBFLOW_DEPTH, NODE_FUEL. lia. Qed.

(** ** Loops *)

Context (flow : string).
Hypothesis step_ok : forall run node ty i r input now lease, 1 <= i -> P (InsertFlowStep run node ty i r input now lease).
Hypothesis renew_ok : forall run now until lease, P (RenewRun run now until lease).

Lemma goes_items n ctx : tame (loop_items n ctx).
Proof. unfold loop_items. apply goes_if; [done|]. apply goes_seq; [destruct (_ ≫= as_str); auto 20 with goes | done]. Qed.

Lemma goes_persist c n i input r : 1 <= i -> tame (persist c n i input r).
Proof. intros Hi. unfold persist. auto 20 with goes. Qed.

Lemma goes_iteration fuel c g entries outer ctx item i states : 0 <= ctx_depth ctx -> 1 <= i -> (missing g states <= fuel)%nat ->
  tame (iteration_loop db_error flow_named flow fuel c g entries outer ctx item i states).
Proof.
  intros Hd Hi. revert states. induction fuel as [|fuel IH]; intros states Hf; cbn [iteration_loop]; destruct (pick g states) as [n|] eqn:E; try done.
  { destruct (pick_missing g states n (mkState "skipped" JNull None) _ E Hf) as (fuel' & Hf' & _). done. }
  assert (Hnext : forall st, tame (iteration_loop db_error flow_named flow fuel c g entries outer ctx item i (<[node_id n := st]> states))).
  { intros st. apply IH. by destruct (pick_missing g states n st _ E Hf) as (fuel' & [= <-] & Hm). }
  apply goes_if; [apply goes_seq; [by apply goes_persist | by intros _]|]. apply goes_seq.
  - apply goes_if; [done|]. by eapply goes_weaken, goes_attempt, goes_execute.
  - intros r. apply goes_seq.
    + destruct r as [r|e]; [done|]. apply goes_seq; [apply goes_safe_error|]. intros m. destruct (on_failure n m); [done|].
      apply goes_seq; [by apply goes_persist | done].
    + intros r'. apply goes_seq; [apply goes_size|]. intros _. apply goes_seq; [by apply goes_persist | done].
Qed.

Lemma goes_iterations c g entries outer ctx persisted items i : 0 <= ctx_depth ctx -> 1 <= i ->
  tame (iterations db_error flow_named flow c g entries outer ctx persisted items i).
Proof.
  intros Hd. revert i. induction items as [|item items IH]; intros i Hi; cbn [iterations]; [done|].
  apply goes_seq; [apply goes_iteration; [done | done | apply missing_bound]|]. intros states. apply goes_if; [done|].
  apply goes_seq; [apply IH; lia | done].
Qed.

Lemma goes_loop c n ctx outer : 0 <= ctx_depth ctx -> goes P unbounded has_route (execute_loop db_error flow_named flow c n ctx outer).
Proof.
  intros Hd. unfold execute_loop. destruct (loop_body_total (claimed_graph c) (node_id n)) as [[body entries] ->].
  apply goes_seq; [apply goes_items|]. intros items. apply goes_seq; [by apply goes_select|]. intros _. apply goes_seq; [by apply goes_select|].
  intros persisted. apply goes_seq; [by apply goes_iterations | done].
Qed.
End executing.

(** ** Operations *)

Definition no_gc (s : FStmt) : Prop := match s with GcRuns _ => False | _ => True end.

Section ending.
Context {serde : SerdeJson} (P : FStmt -> Prop).
Hypothesis plain_ok : forall s, no_gc s -> P s.

Notation tame m := (goes P unbounded (fun _ => True) m).
#[local] Hint Extern 1 (P _) => apply plain_ok; exact I : goes.
#[local] Hint Resolve goes_size goes_safe_error : goes.
#[local] Hint Extern 1 (goes _ _ _ (let '(_, _) := ?x in _)) => destruct x : goes.

Lemma goes_event run kind detail : tame (append_flow_event run kind detail).
Proof. unfold append_flow_event. auto 20 with goes. Qed.
#[local] Hint Resolve goes_event : goes.

Lemma goes_write c n input r : tame (persist c n 0 input r).
Proof. unfold persist. auto 20 with goes. Qed.
Lemma goes_fail_claim c e : tame (fail_claim c e).
Proof. unfold fail_claim. auto 20 with goes. Qed.
#[local] Hint Resolve goes_write goes_fail_claim : goes.

Lemma goes_advance db_error flow_named flow budget c states : tame (advance_loop db_error flow_named flow budget c states).
Proof.
  revert states. induction budget as [|budget IH]; intros states; cbn [advance_loop].
  { unfold requeue_claim. auto 20 with goes. }
  destruct (pick (claimed_graph c) states) as [n|]; [|unfold complete_claim; auto 20 with goes].
  apply goes_if; [auto 20 with goes|]. apply goes_seq.
  - eapply goes_weaken, goes_attempt, goes_if; [apply goes_loop; [intros; by apply plain_ok.. | done] | by apply goes_execute].
  - intros r. apply goes_seq; [destruct r; auto 20 with goes|]. intros [r'|message].
    + apply goes_seq; [eapply goes_weaken, goes_attempt, goes_size|]. intros [|e]; auto 20 with goes.
    + apply goes_seq; [auto with goes|]. intros _. apply goes_seq; [auto with goes|]. intros _. unfold send_failure_alert. case_match; [by intros a | done].
Qed.

Lemma goes_ignored {A} (m : FOp A) : tame m -> tame (ignore m).
Proof. intros Hm. apply goes_seq; [|done]. eapply goes_weaken, goes_catch, Hm. Qed.

Lemma goes_create definition key trigger input : tame (create_run definition key trigger input).
Proof.
  unfold create_run. destruct definition as [[version spec]|]; [|done]. do 3 (apply goes_if; [done|]).
  unfold get_run, run_by_key, flow_schema. auto 30 with goes.
Qed.

Lemma goes_cancel id : tame (cancel id).
Proof. unfold cancel, flow_schema. auto 20 with goes. Qed.

Lemma goes_retry definition id : tame (retry definition id).
Proof.
  unfold retry, get_run, flow_schema. apply goes_seq; [auto 20 with goes|]. intros [p|]; [|done]. apply goes_if; [done|].
  apply goes_seq; [auto with goes|]. intros fresh. apply goes_seq; [eapply goes_weaken, goes_create|]. auto 30 with goes.
Qed.

Lemma goes_drive db_error graph_text order flow_named flow spec : tame (flow_drive db_error graph_text order flow_named flow spec).
Proof.
  unfold flow_drive. apply goes_seq; [unfold recover_expired, flow_schema; auto 20 with goes|]. intros [|]; [|done]. apply goes_if; [done|].
  apply goes_seq; [unfold claim_run, flow_schema; auto 30 with goes|]. intros [c|]; [|done]. unfold advance_run, flow_schema.
  auto 20 using goes_advance with goes.
Qed.

Lemma goes_cron definition minute : tame (flow_cron_round definition minute).
Proof.
  unfold flow_cron_round. destruct definition as [v s]. apply goes_if; [|done]. repeat case_match; try done. apply goes_ignored, goes_create.
Qed.
End ending.

(** C24: Every operation of a flow ends: none of the bounds of the searches, templates, loops,
    subflows and schedulers is reached, whatever the answers. *)
Theorem flow_work_is_bounded {serde : SerdeJson} graph_text order t :
  foperation graph_text order t -> goes (fun _ => True) unbounded (fun _ => True) t.
Proof.
  intros Ho. destruct Ho; first [apply goes_drive | apply goes_cron | apply goes_ignored | idtac]; try done.
  - by apply goes_create.
  - by apply goes_cancel.
  - by apply goes_retry.
  - unfold gc_runs, flow_schema. auto 20 with goes.
Qed.
