(* ===== verification/FlowEval.v ===== *)
(** * FlowEval: a completed run is an evaluation of its graph

    Whatever interleaves, fails or crashes, the recorded steps of a run are those of one
    pass of the scheduler over the graph the run was created with: in the order of the
    dependencies, routed by the recorded results, each recorded once; and the
    output of a completed run is the output these steps give. *)

From Stdlib Require Import ZArith Lia Ascii.
From stdpp Require Import prelude gmap sorting strings list pretty relations.
From S2P Require Import Prelude Text Json Script FlowGraph Flow FlowProps FlowEnds.
Open Scope Z_scope.

(** ** The recorded states *)

Definition step_state (x : FlowStep) : StepState := mkState (fs_route_status x) (fs_output x) (fs_taken x).
Definition result_of (x : FlowStep) : ExecResult := mkExecResult (fs_status x) (fs_route_status x) (fs_output x) (fs_taken x) (fs_error x).
Definition states_of (run : string) (d : FlowDb) : States := recorded run 0 (fun _ => true) d.

Lemma NoDup_omap_fst {K V K' V'} (f : K * V -> option (K' * V')) (l : list (K * V)) :
  (forall x y a b, f x = Some a -> f y = Some b -> a.1 = b.1 -> x.1 = y.1) -> NoDup l.*1 -> NoDup (omap f l).*1.
Proof.
  intros Hf. induction l as [|x l IH]; cbn; [constructor|]. intros [Hx Hl]%NoDup_cons. destruct (f x) as [a|] eqn:E; [|by apply IH].
  cbn. constructor; [|by apply IH]. intros (b & Hb & (y & Hy & Ey)%list_elem_of_omap)%list_elem_of_fmap.
  apply Hx. rewrite (Hf x y a b E Ey Hb). apply list_elem_of_fmap. by exists y.
Qed.

Lemma recorded_lookup run i keep d id :
  recorded run i keep d !! id = if keep id then step_state <$> flow_steps d !! (run, id, i) else None.
Proof.
  unfold recorded. set (f := fun ks : string * string * Z * FlowStep => _).
  assert (Hf : forall k x b, f (k, x) = Some b <-> k = (run, b.1, i) /\ keep b.1 = true /\ b.2 = step_state x).
  { intros [[r n] j] x [n' st]. unfold f. cbn. destruct (bool_decide_reflect (r = run)), (bool_decide_reflect (j = i)), (keep n) eqn:E; cbn;
      (split; [intros H; simplify_eq; done | intros (? & ? & ?); simplify_eq; try done; congruence]). }
  apply option_eq. intros st. rewrite <- elem_of_list_to_map.
  2: { apply NoDup_omap_fst; [|apply NoDup_fst_map_to_list]. intros [k x] [k' x'] a b (-> & _)%Hf (-> & _)%Hf ->. done. }
  rewrite list_elem_of_omap. split.
  - intros ([k x] & Hx%elem_of_map_to_list & (-> & Hk & Hs)%Hf). cbn [fst snd] in *. rewrite Hk, Hx, Hs. done.
  - destruct (keep id) eqn:Hk; [|done]. intros (x & Hx & ->)%fmap_Some. exists ((run, id, i), x).
    split; [by apply elem_of_map_to_list | by apply Hf].
Qed.

Lemma states_of_lookup run d id : states_of run d !! id = step_state <$> flow_steps d !! (run, id, 0).
Proof. apply recorded_lookup. Qed.

Lemma states_of_grow run d d' : flow_steps d ⊆ flow_steps d' -> states_of run d ⊆ states_of run d'.
Proof.
  intros H. apply map_subseteq_spec. intros id st. rewrite !states_of_lookup. intros (x & Hx & ->)%fmap_Some.
  by rewrite (lookup_weaken _ _ _ _ Hx H).
Qed.

(** ** Routing depends on the predecessors *)

Lemma filter_agree {A} (P Q : A -> Prop) `{!forall x, Decision (P x), !forall x, Decision (Q x)} (l : list A) :
  (forall x, x ∈ l -> P x <-> Q x) -> filter P l = filter Q l.
Proof.
  induction l as [|x l IH]; [done|]. intros Hl. rewrite !filter_cons. rewrite IH by (intros; apply Hl; by right).
  specialize (Hl x (list_elem_of_here _ _)). repeat case_decide; tauto.
Qed.

Lemma omap_agree {A B} (f g : A -> option B) (l : list A) : (forall x, x ∈ l -> f x = g x) -> omap f l = omap g l.
Proof. induction l as [|x l IH]; [done|]. intros H. cbn. rewrite (H x), IH; [done | intros; apply H; by right | apply list_elem_of_here]. Qed.

Section routing.
Context (g : FlowGraph) (s s' : States) (n : FlowNode).
Hypothesis grow : s ⊆ s'.
Hypothesis before : forall u, edge_rel g u (node_id n) -> is_Some (s !! u).

Lemma source_same e : e ∈ incoming g (node_id n) -> s' !! source e = s !! source e.
Proof.
  intros [Ht He]%list_elem_of_filter. destruct (before (source e)) as [st Hs]; [by exists e|]. rewrite Hs. by eapply lookup_weaken.
Qed.

Lemma live_edges_same : live_edges g s' n = live_edges g s n.
Proof. apply filter_agree. intros e He. unfold edge_is_live. by rewrite source_same. Qed.

Lemma is_skipped_same : is_skipped g s' n = is_skipped g s n.
Proof. unfold is_skipped. by rewrite live_edges_same. Qed.

Lemma collect_input_same root : collect_input root (live_edges g s' n) s' = collect_input root (live_edges g s n) s.
Proof.
  rewrite live_edges_same. assert (Hl : forall e, e ∈ live_edges g s n -> s' !! source e = s !! source e).
  { intros e [_ He]%list_elem_of_filter. by apply source_same. }
  unfold collect_input. destruct (live_edges g s n) as [|e [|e' l]]; [done | by rewrite Hl by apply list_elem_of_here|].
  f_equal. apply omap_agree. intros x Hx. by rewrite Hl.
Qed.
End routing.

(** ** What the tables hold *)

(** The result [r] of a node on [input] is what the scheduler records over [states]. *)
Definition routed (g : FlowGraph) (root : J) (states : States) (n : FlowNode) (r : ExecResult) (input : J) : Prop :=
  (forall u, edge_rel g u (node_id n) -> is_Some (states !! u)) /\
  if is_skipped g states n then r = skipped /\ input = JNull
  else er_route_status r <> "skipped" /\ input = collect_input root (live_edges g states n) states.

Lemma routed_grow g root s s' n r input : s ⊆ s' -> routed g root s n r input -> routed g root s' n r input.
Proof.
  intros Hs [Hb Hr]. split; [intros u Hu; destruct (Hb u Hu) as [x Hx]; exists x; by eapply lookup_weaken|].
  by rewrite (is_skipped_same g s s'), (collect_input_same g s s') by done.
Qed.

(** The steps of a run are those of a pass over its graph. *)
Definition evaluated (d : FlowDb) (run : string) (c : RunConfig) : Prop := forall node x,
  flow_steps d !! (run, node, 0) = Some x ->
  exists n, n ∈ nodes (run_graph c) /\ node_id n = node /\ node_type n = fs_node_type x /\
    routed (run_graph c) (run_input c) (states_of run d) n (result_of x) (fs_input x) /\
    forall u, edge_rel (run_graph c) u node -> exists y, flow_steps d !! (run, u, 0) = Some y /\ fs_seq y < fs_seq x.

(** The output [o] is that of the steps, and there is a step for every node. *)
Definition finished_with (d : FlowDb) (run : string) (c : RunConfig) (o : option J) : Prop :=
  (forall n, n ∈ nodes (run_graph c) -> is_Some (flow_steps d !! (run, node_id n, 0))) /\
  o = Some (final_output (run_graph c) (states_of run d)).

Record tables_ok (d : FlowDb) : Prop := {
  ok_runs : runs_ok d;
  ok_steps : forall run node i x, flow_steps d !! (run, node, i) = Some x -> is_Some (flow_runs d !! run);
  ok_evaluated : forall run r, flow_runs d !! run = Some r -> evaluated d run (run_config r);
  ok_finished : forall run r, flow_runs d !! run = Some r -> run_status (run_life r) = RComplete ->
    finished_with d run (run_config r) (run_output (run_life r))
}.

(** What a statement needs to keep this. *)
Definition can_record (d : FlowDb) (run : string) (c : RunConfig) (node ty : string) (r : ExecResult) (input : J) : Prop :=
  exists n, n ∈ nodes (run_graph c) /\ node_id n = node /\ node_type n = ty /\ routed (run_graph c) (run_input c) (states_of run d) n r input.

Definition allowed (s : FStmt) (d : FlowDb) : Prop :=
  match s with
  | InsertFlowStep run node ty i r input _ _ => i = 0 -> tables_ok d -> forall fr, flow_runs d !! run = Some fr -> can_record d run (run_config fr) node ty r input
  | CompleteRun run _ v _ => tables_ok d -> forall fr, flow_runs d !! run = Some fr -> finished_with d run (run_config fr) (Some v)
  | GcRuns _ => False
  | _ => True
  end.

(** What others may do to the tables. *)
Definition fkeeps (d d' : FlowDb) : Prop :=
  (forall id r, flow_runs d !! id = Some r -> exists r', flow_runs d' !! id = Some r' /\ run_config r' = run_config r) /\
  flow_steps d ⊆ flow_steps d'.
Definition frely (d d' : FlowDb) : Prop := fkeeps d d' /\ (tables_ok d -> tables_ok d').

#[export] Instance frely_pre : PreOrder frely.
Proof.
  split.
  - intros d. split; [split; [by eauto | done] | done].
  - intros a b c [[Hr1 Hs1] Ho1] [[Hr2 Hs2] Ho2]. split; [split|]; [|by etransitivity | by auto].
    intros id r Hr. destruct (Hr1 id r Hr) as (r' & Hr' & Hc'), (Hr2 id r' Hr') as (r'' & Hr'' & Hc''). exists r''. split; [done | congruence].
Qed.

Lemma update_run_keeps d id p f : fkeeps d (update_run d id p f).1.
Proof.
  split; [|by rewrite update_run_steps]. intros j r Hr. rewrite update_run_lookup, Hr. destruct (decide (j = id)); [|by eauto].
  cbn. eexists. split; [done|]. by destruct (p (run_life r)).
Qed.

Lemma same_steps d d' run : flow_steps d' = flow_steps d -> states_of run d' = states_of run d.
Proof. intros H. apply map_eq. intros id. by rewrite !states_of_lookup, H. Qed.

Lemma evaluated_same d d' run c : flow_steps d' = flow_steps d -> evaluated d run c -> evaluated d' run c.
Proof. intros H He. unfold evaluated. by rewrite H, (same_steps d d') by done. Qed.

Lemma finished_same d d' run c o : flow_steps d' = flow_steps d -> finished_with d run c o -> finished_with d' run c o.
Proof. intros H He. unfold finished_with. by rewrite H, (same_steps d d') by done. Qed.

(** A change of runs that keeps the steps. *)
Lemma runs_tables d d' : tables_ok d -> runs_ok d' -> flow_steps d' = flow_steps d ->
  (forall id r, flow_runs d !! id = Some r -> is_Some (flow_runs d' !! id)) ->
  (forall id r', flow_runs d' !! id = Some r' ->
     (flow_runs d !! id = None /\ run_status (run_life r') = RQueued) \/
     exists r, flow_runs d !! id = Some r /\ run_config r' = run_config r /\
       (run_status (run_life r') = RComplete ->
          (run_status (run_life r) = RComplete /\ run_output (run_life r') = run_output (run_life r)) \/
          finished_with d id (run_config r) (run_output (run_life r')))) -> tables_ok d'.
Proof.
  intros [Ho Hs He Hf] Hr Hst Hk Hn. split; [done| | |].
  - intros run node i x Hx. rewrite Hst in Hx. destruct (Hs _ _ _ _ Hx) as [r Hrn]. by eapply Hk.
  - intros run r' Hr'. destruct (Hn _ _ Hr') as [[Hno _]|(r & Hrn & -> & _)]; [|by eapply evaluated_same, He].
    intros node x Hx. rewrite Hst in Hx. destruct (Hs _ _ _ _ Hx) as [r Hrn]. congruence.
  - intros run r' Hr' Hc. destruct (Hn _ _ Hr') as [[Hno Hq]|(r & Hrn & -> & Hd)]; [congruence|].
    eapply finished_same; [done|]. destruct (Hd Hc) as [[Hc' ->]|Hfin]; [by apply Hf | done].
Qed.

Lemma update_tables d id p f : tables_ok d -> runs_ok (update_run d id p f).1 ->
  (forall r, flow_runs d !! id = Some r -> p (run_life r) = true -> run_status (f (run_life r)) = RComplete ->
     (run_status (run_life r) = RComplete /\ run_output (f (run_life r)) = run_output (run_life r)) \/
     finished_with d id (run_config r) (run_output (f (run_life r)))) -> tables_ok (update_run d id p f).1.
Proof.
  intros Hok Hr Hf. apply (runs_tables d); [done | done | by rewrite update_run_steps | |].
  - intros j r Hj. rewrite update_run_lookup, Hj. by case_decide.
  - intros j r'. rewrite update_run_lookup. destruct (decide (j = id)) as [->|]; [|right; exists r'; by eauto].
    destruct (flow_runs d !! id) as [r|] eqn:E; [|done]. cbn. intros [= <-]. right. exists r. split; [done|].
    destruct (p (run_life r)) eqn:Ep; split; try done; [by apply Hf | by left].
Qed.

(** The numbers of steps grow. *)
Lemma next_seq_above run m k x : m !! k = Some x -> k.1.1 = run -> fs_seq x < next_seq run m.
Proof.
  intros Hk Hr. unfold next_seq. apply Z.lt_succ_r.
  revert k x Hk Hr. apply (map_fold_weak_ind (fun acc m => forall (k : string * string * Z) x, m !! k = Some x -> k.1.1 = run -> fs_seq x <= acc)).
  - intros k x Hk. by rewrite lookup_empty in Hk.
  - intros k' x' m' acc Hno IH k x. destruct (decide (k = k')) as [->|Hne].
    + rewrite lookup_insert_eq. intros [= <-] ->. rewrite bool_decide_true by done. lia.
    + rewrite lookup_insert_ne by done. intros Hk Hr. specialize (IH _ _ Hk Hr). case_bool_decide; lia.
Qed.

(** A step outside the scheduler's own changes nothing here. *)
Lemma insert_states d run node i x run' : (run' = run -> i <> 0) ->
  states_of run' (mkFlowDb (flow_runs d) (<[(run, node, i) := x]> (flow_steps d)) (flow_events d)) = states_of run' d.
Proof. intros H. apply map_eq. intros id. rewrite !states_of_lookup. cbn. rewrite lookup_insert_ne; [done | naive_solver]. Qed.

Lemma evaluated_insert d run node i x fr : tables_ok d -> flow_runs d !! run = Some fr -> flow_steps d !! (run, node, i) = None ->
  (i = 0 -> can_record d run (run_config fr) node (fs_node_type x) (result_of x) (fs_input x) /\ fs_seq x = next_seq run (flow_steps d)) ->
  forall run' r, flow_runs d !! run' = Some r ->
    evaluated (mkFlowDb (flow_runs d) (<[(run, node, i) := x]> (flow_steps d)) (flow_events d)) run' (run_config r).
Proof.
  intros Hok Hfr Hno Hcan run' r Hr node' y Hy. set (d' := mkFlowDb _ _ _) in *.
  assert (Hsub : flow_steps d ⊆ flow_steps d') by (by apply insert_subseteq).
  assert (Hgrow := states_of_grow run' d d' Hsub). destruct (decide ((run', node', 0) = (run, node, i))) as [[= -> -> <-]|Hne].
  - cbn [d' flow_steps] in Hy. rewrite lookup_insert_eq in Hy. injection Hy as <-. rewrite Hfr in Hr. injection Hr as <-.
    destruct (Hcan eq_refl) as [(n & Hn & Hid & Hty & Hrt) Hseq]. exists n. split_and!; [done.. | by eapply routed_grow |].
    intros u Hu. rewrite <- Hid in Hu. destruct (proj1 Hrt u Hu) as [st Hst]. rewrite states_of_lookup in Hst.
    apply fmap_Some in Hst as (y & Hy & _). exists y. split; [by eapply lookup_weaken|]. rewrite Hseq. by eapply next_seq_above.
  - cbn [d' flow_steps] in Hy. rewrite lookup_insert_ne in Hy by congruence.
    destruct (ok_evaluated d Hok _ _ Hr _ _ Hy) as (n & Hn & Hid & Hty & Hrt & Hbefore). exists n.
    split_and!; [done.. | by eapply routed_grow |]. intros u Hu. destruct (Hbefore u Hu) as (z & Hz & Hlt).
    exists z. split; [by eapply lookup_weaken | done].
Qed.

Lemma insert_tables d run node i x fr : tables_ok d -> flow_runs d !! run = Some fr -> run_status (run_life fr) = RRunning ->
  flow_steps d !! (run, node, i) = None ->
  (i = 0 -> can_record d run (run_config fr) node (fs_node_type x) (result_of x) (fs_input x) /\ fs_seq x = next_seq run (flow_steps d)) ->
  tables_ok (mkFlowDb (flow_runs d) (<[(run, node, i) := x]> (flow_steps d)) (flow_events d)).
Proof.
  intros Hok Hfr Hrun Hno Hcan. split; cbn [flow_runs flow_steps].
  - exact (ok_runs d Hok).
  - intros run' node' j y. destruct (decide ((run', node', j) = (run, node, i))) as [[= -> -> ->]|Hne]; [by rewrite Hfr|].
    rewrite lookup_insert_ne by congruence. apply (ok_steps d Hok).
  - by eapply evaluated_insert.
  - intros run' r Hr Hc. assert (run' <> run) by congruence. destruct (ok_finished d Hok _ _ Hr Hc) as [Hall Ho]. split.
    + intros n Hn. destruct (Hall n Hn) as [y Hy]. exists y. cbn. rewrite lookup_insert_ne; [done | congruence].
    + by rewrite insert_states.
Qed.

Lemma frun_keeps d s : (forall t, s <> GcRuns t) -> fkeeps d (apply frun d s).
Proof.
  intros Hgc. assert (Hid : fkeeps d d) by (split; [by eauto | done]). unfold apply.
  destruct s; cbn [frun]; try (rewrite (surjective_pairing (update_run _ _ _ _)); apply update_run_keeps).
  - destruct (bool_decide_reflect (is_Some (flow_runs d !! id))) as [|Hn]; [done|]. cbn [orb]. destruct (_ || _); [done|]. split; [|done].
    intros j r Hj. exists r. split; [|done]. cbn. rewrite lookup_insert_ne; [done|]. intros ->. apply Hn. by rewrite Hj.
  - split; [|done]. intros j r Hj. cbn. rewrite lookup_fmap, Hj. cbn. eexists. split; [done|]. by destruct (run_expired now (run_life r)).
  - destruct (run_held d run lease); [|done]. cbn [andb]. destruct (bool_decide_reflect (is_Some (flow_steps d !! (run, node, iteration)))) as [|Hn]; [done|].
    split; [by eauto|]. apply insert_subseteq. by apply eq_None_not_Some.
  - by destruct (Hgc threshold).
  - by destruct (flow_runs d !! run).
Qed.

Lemma record_tables d run node ty i r input now lease :
  allowed (InsertFlowStep run node ty i r input now lease) d -> tables_ok d -> tables_ok (apply frun d (InsertFlowStep run node ty i r input now lease)).
Proof.
  intros Ha Hok. unfold apply. cbn [frun]. destruct (run_held d run lease) eqn:Eh; [|done].
  destruct (bool_decide_reflect (is_Some (flow_steps d !! (run, node, i)))) as [|Hn]; [done|]. cbn [andb negb]. unfold run_held in Eh.
  destruct (flow_runs d !! run) as [fr|] eqn:E; [|done]. unfold running_by in Eh. apply andb_prop in Eh as [Hs _]. to_prop.
  eapply insert_tables; [done | done | done | by apply eq_None_not_Some |]. intros ->. split; [|done]. destruct r. by apply Ha.
Qed.

(** The statements that are allowed keep the tables. *)
Lemma allowed_keeps d s : allowed s d -> frely d (apply frun d s).
Proof.
  intros Ha. split; [apply frun_keeps; by intros t -> |]. intros Hok. assert (Hr : runs_ok (apply frun d s)) by (apply frun_ok, Hok).
  destruct s; try (by apply record_tables); unfold apply in *; cbn [frun] in *; try done;
    try (rewrite (surjective_pairing (update_run _ _ _ _)) in *; apply update_tables; [done | done |]; intros r Hl Hp; cbn; try done; try (by left)).
  - destruct (bool_decide_reflect (is_Some (flow_runs d !! id))) as [|Hn]; [done|]. cbn [orb] in *. destruct (_ || _); [done|].
    apply eq_None_not_Some in Hn. apply (runs_tables d); [done..| |]; cbn; intros j r Hj.
    + destruct (decide (j = id)) as [->|]; [by rewrite lookup_insert_eq | by rewrite lookup_insert_ne].
    + destruct (decide (j = id)) as [->|]; [rewrite lookup_insert_eq in Hj; injection Hj as <-; by left | rewrite lookup_insert_ne in Hj by done; right; by eauto 6].
  - apply (runs_tables d); [done..| |]; cbn; intros j r; rewrite lookup_fmap; [by intros ->|].
    destruct (flow_runs d !! j) as [r0|] eqn:E; [|done]. cbn. intros [= <-]. right. exists r0. split; [done|].
    destruct (run_expired now (run_life r0)); split; try done. by left.
  - intros _. right. by apply Ha.
  - destruct (flow_runs d !! run); [|done]. apply (runs_tables d); [done..| |]; cbn; intros j r Hj; [by rewrite Hj | right; by eauto 6].
Qed.

(** ** Operations *)

#[local] Hint Extern 1 (allowed _ _) => exact I : issues.
#[local] Notation wp := (wp frun frely (fun _ _ => True) allowed).

Lemma wp_steady {A} (m : FOp A) (J : FlowDb -> Prop) (got : A -> Prop) d :
  goes (fun s => forall d, allowed s d) (fun _ => True) got m -> (forall d d', frely d d' -> J d -> J d') -> J d ->
  wp m (fun a d' => got a /\ J d') (fun _ _ => True) d.
Proof.
  intros Hm HJ Hd. eapply wp_mono; [| |apply (wp_stable frun frely (fun _ _ => True) allowed m J got); [done | | exact HJ | exact Hd]]; [done | done |].
  eapply goes_mono, Hm; [|done..]. intros s Hs d'. split; [done | by apply allowed_keeps].
Qed.

(** An operation none of whose statements needs care. *)
Lemma wp_careless {A} (m : FOp A) d : issues (fun s => forall d, allowed s d) m -> wp m (fun _ _ => True) (fun _ _ => True) d.
Proof. intros Hm%goes_issues. eapply wp_mono; [| |apply (wp_steady m (fun _ => True)); [exact Hm | done | done]]; done. Qed.

Lemma wp_read {X} (q : FlowDb -> X) (post : X -> FlowDb -> Prop) d :
  (forall d1, frely d d1 -> post (q d1) d1) -> wp (select q : FOp X) post (fun _ _ => True) d.
Proof. intros Hp d1 Hr. split; [by apply Hp | done]. Qed.

Section evaluation.
Context {serde : SerdeJson} (graph_text : FlowGraph -> string) (order : list string -> list string).
Hypothesis order_perm : forall l, order l ≡ₚ l.

Definition known (c : ClaimedRun) (d : FlowDb) : Prop :=
  exists fr, flow_runs d !! claimed_id c = Some fr /\ run_config fr = run_config (claimed_run c).

(** What a driver knows that holds a run and has read [states]. *)
Definition holding (c : ClaimedRun) (states : States) (d : FlowDb) : Prop :=
  tables_ok d /\ known c d /\ states ⊆ states_of (claimed_id c) d.

Lemma known_kept c d d' : frely d d' -> known c d -> known c d'.
Proof. intros [[Hr _] _] (fr & Hfr & Hc). destruct (Hr _ _ Hfr) as (fr' & Hfr' & Hc'). exists fr'. split; [done | congruence]. Qed.

Lemma holding_kept c states d d' : frely d d' -> holding c states d -> holding c states d'.
Proof.
  intros Hr (Hok & Hk & Hs). split_and!; [by apply Hr | by eapply known_kept | etransitivity; [done|]; apply states_of_grow, Hr].
Qed.

Lemma record_allowed c n states r input now lease d :
  holding c states d -> n ∈ nodes (claimed_graph c) ->
  routed (claimed_graph c) (run_input (run_config (claimed_run c))) states n r input ->
  allowed (InsertFlowStep (claimed_id c) (node_id n) (node_type n) 0 r input now lease) d.
Proof.
  intros (Hok & (fr & Hfr & Hc) & Hs) Hn Hrt _ _ fr' Hfr'. rewrite Hfr in Hfr'. injection Hfr' as <-. rewrite Hc.
  exists n. split_and!; [done..|]. by eapply routed_grow.
Qed.

Lemma recorded_after c n states r input now lease d :
  holding c states d -> affected frun d (InsertFlowStep (claimed_id c) (node_id n) (node_type n) 0 r input now lease) = Some 1 ->
  let d' := apply frun d (InsertFlowStep (claimed_id c) (node_id n) (node_type n) 0 r input now lease) in
  tables_ok d' -> holding c (<[node_id n := state_of r]> states) d'.
Proof.
  intros (Hok & Hk & Hs). unfold affected, apply. cbn [frun].
  destruct (run_held d (claimed_id c) lease && negb (bool_decide (is_Some (flow_steps d !! (claimed_id c, node_id n, 0))))) eqn:E; [|done].
  apply andb_prop in E as [_ Hn]. to_prop. apply eq_None_not_Some in Hn. intros _ Hok'. split_and!; [done | by destruct Hk as (fr & Hfr); exists fr |].
  apply map_subseteq_spec. intros id st Hid. rewrite states_of_lookup. cbn [flow_steps]. destruct (decide (id = node_id n)) as [->|Hne].
  - rewrite lookup_insert_eq in Hid. rewrite lookup_insert_eq. by rewrite <- Hid.
  - rewrite lookup_insert_ne in Hid by done. rewrite lookup_insert_ne by congruence. rewrite <- states_of_lookup. by eapply lookup_weaken.
Qed.

Lemma wp_persist c n states r input (post : unit -> FlowDb -> Prop) d :
  holding c states d -> n ∈ nodes (claimed_graph c) ->
  routed (claimed_graph c) (run_input (run_config (claimed_run c))) states n r input ->
  (forall d', holding c (<[node_id n := state_of r]> states) d' -> post tt d') ->
  wp (persist c n 0 input r) post (fun _ _ => True) d.
Proof.
  intros Hh Hn Hrt Hpost. unfold persist. cbn [bind now_ms exec wp Script.wp]. intros now d1 Hr.
  assert (Hh1 := holding_kept _ _ _ _ Hr Hh). assert (Ha := record_allowed c n states r input now (claimed_lease c) d1 Hh1 Hn Hrt).
  split_and!; [done | | done | done]. set (s := InsertFlowStep _ _ _ _ _ _ _ _) in *.
  destruct (affected frun d1 s) as [k|] eqn:Ek; [|done]. cbn [bind]. destruct (Z.eqb_spec k 1) as [->|]; [|done].
  assert (Hh2 := recorded_after c n states r input now (claimed_lease c) d1 Hh1 Ek (proj2 (allowed_keeps d1 s Ha) (proj1 Hh1))).
  cbn [negb]. intros d2 Hr2. assert (Hh3 := holding_kept _ _ _ _ Hr2 Hh2). split_and!; [done | | done | done].
  destruct (affected frun d2 _); [|done]. cbn [bind Script.wp ret]. apply Hpost. eapply holding_kept, Hh3. by apply allowed_keeps.
Qed.

(** When no node is left, the states read are those of the tables. *)
Lemma holding_all c states d : graph_ok (claimed_graph c) -> holding c states d -> pick (claimed_graph c) states = None ->
  finished_with d (claimed_id c) (run_config (claimed_run c)) (Some (final_output (claimed_graph c) states)).
Proof.
  intros Hg (Hok & (fr & Hfr & Hc) & Hs) Hp. assert (Hall := pick_None _ _ Hg Hp).
  assert (Heq : states = states_of (claimed_id c) d).
  { apply (anti_symm (⊆)); [done|]. apply map_subseteq_spec. intros id st Hst. assert (Hst' := Hst).
    rewrite states_of_lookup in Hst'. apply fmap_Some in Hst' as (x & Hx & _).
    destruct (ok_evaluated d Hok _ _ Hfr _ _ Hx) as (n & Hn & <- & _). rewrite Hc in Hn. destruct (Hall n Hn) as [st' Hst'].
    rewrite Hst'. rewrite <- Hst. symmetry. by eapply lookup_weaken. }
  split; [|by rewrite <- Heq]. intros n Hn. destruct (Hall n Hn) as [st Hst]. rewrite Heq, states_of_lookup in Hst.
  apply fmap_Some in Hst as (x & -> & _). done.
Qed.

Lemma complete_allowed c states lease now d : graph_ok (claimed_graph c) -> holding c states d -> pick (claimed_graph c) states = None ->
  allowed (CompleteRun (claimed_id c) lease (final_output (claimed_graph c) states) now) d.
Proof.
  intros Hg Hh Hp _ fr Hfr. destruct (holding_all c states d Hg Hh Hp) as [H1 H2]. destruct Hh as (_ & (fr' & Hfr' & Hc) & _).
  rewrite Hfr' in Hfr. injection Hfr as <-. by rewrite Hc.
Qed.

Lemma event_careless run kind detail d : wp (append_flow_event run kind detail) (fun _ _ => True) (fun _ _ => True) d.
Proof. apply wp_careless. unfold append_flow_event. auto 10 with issues. Qed.

Lemma wp_complete c states d : graph_ok (claimed_graph c) -> holding c states d -> pick (claimed_graph c) states = None ->
  wp (complete_claim c (final_output (claimed_graph c) states)) (fun _ _ => True) (fun _ _ => True) d.
Proof.
  intros Hg Hh Hp. unfold complete_claim, validate_value_size. destruct (_ <? _); [done|]. cbn [bind ret now_ms exec Script.wp].
  intros now d1 Hr. split_and!; [by eapply complete_allowed, Hp; [|eapply holding_kept]| | done | done].
  destruct (affected frun d1 _) as [k|]; [|done]. cbn [bind]. destruct (k =? 1); [apply event_careless | done].
Qed.

Lemma wp_fail_claim c e d : wp (fail_claim c e) (fun _ _ => True) (fun _ _ => True) d.
Proof. apply wp_careless. unfold fail_claim, append_flow_event. auto 20 with issues. Qed.

Lemma routed_stopped g root states n message : (forall u, edge_rel g u (node_id n) -> is_Some (states !! u)) -> is_skipped g states n = false ->
  routed g root states n (stopped message) (collect_input root (live_edges g states n) states).
Proof. intros Hb Hs. split; [done|]. by rewrite Hs. Qed.

(** What runs between two records: it keeps what the driver knows. *)
Lemma wp_between {A} (m : FOp A) c states (got : A -> Prop) (post : A -> FlowDb -> Prop) d :
  goes (fun s => forall d, allowed s d) unbounded got m -> holding c states d ->
  (forall a d', got a -> holding c states d' -> post a d') -> wp m post (fun _ _ => True) d.
Proof.
  intros Hm Hh Hp. eapply wp_mono; [| |apply (wp_steady m (holding c states) got); [eapply goes_mono, Hm | |exact Hh]]; try done.
  - intros a d' [Ha Hd]. by apply Hp.
  - intros d1 d2 Hr. by apply holding_kept.
Qed.

Lemma loop_careless c n ctx states db_error flow_named flow : 0 <= ctx_depth ctx ->
  goes (fun s => forall d, allowed s d) unbounded (fun r => match r with Ok r => has_route r | Err e => unbounded e end)
    (attempt (if bool_decide (node_type n = "loop") then execute_loop db_error flow_named flow c n ctx states
              else execute_with_retries db_error flow_named flow n ctx)).
Proof.
  intros Hd. apply goes_attempt, goes_if; [apply goes_loop; [|done | done] | by apply goes_execute].
  intros run node ty i r input now lease Hi d ->. lia.
Qed.

Lemma wp_advance db_error flow_named flow budget c states d : graph_ok (claimed_graph c) -> holding c states d ->
  wp (advance_loop db_error flow_named flow budget c states) (fun _ _ => True) (fun _ _ => True) d.
Proof.
  intros Hg. revert states d. induction budget as [|budget IH]; intros states d Hh; cbn [advance_loop].
  { apply wp_careless. unfold requeue_claim. auto 20 with issues. }
  destruct (pick (claimed_graph c) states) as [n|] eqn:Ep.
  2: { destruct (negb _); [apply wp_fail_claim | by apply wp_complete]. }
  apply pick_Some in Ep as [Hn [_ Hb]%ready_spec]. destruct (is_skipped (claimed_graph c) states n) eqn:Es.
  { apply wp_bind. eapply wp_persist; [done | done | split; [done | by rewrite Es] |]. intros d' Hh'. by apply IH. }
  apply wp_bind. eapply wp_between; [by apply loop_careless | done |]. intros executed d1 Hex Hh1.
  apply wp_bind. eapply (wp_between _ c states (fun r => match r with Ok r => has_route r | Err _ => True end)); [| done |].
  { destruct executed as [r|e]; [done|]. apply goes_seq; [apply goes_safe_error|]. intros message. cbn.
    destruct (on_failure n message) eqn:Ef; [by eapply on_failure_route | done]. }
  assert (Hstop := routed_stopped (claimed_graph c) (run_input (run_config (claimed_run c))) states n). intros [r|message] d2 Hr Hh2.
  2: { apply wp_bind. eapply wp_persist; [done | done | by apply Hstop |]. intros d3 Hh3. apply wp_bind.
       eapply wp_mono; [| |apply wp_fail_claim]; [|done]. intros _ d4 _. unfold send_failure_alert. by case_match. }
  apply wp_bind. eapply wp_between; [eapply goes_attempt, goes_size | done |]. intros [u|e] d3 _ Hh3; apply wp_bind.
  - eapply wp_persist; [done | done | split; [done | by rewrite Es] |]. intros d4 Hh4. by apply IH.
  - eapply wp_between; [apply goes_safe_error | done |]. intros message d4 _ Hh4. apply wp_bind.
    eapply wp_persist; [done | done | by apply Hstop |]. intros d5 _. apply wp_fail_claim.
Qed.

Lemma wp_claim (post : option ClaimedRun -> FlowDb -> Prop) d : tables_ok d -> (forall d', tables_ok d' -> post None d') ->
  (forall c d', graph_ok (claimed_graph c) -> tables_ok d' -> known c d' -> post (Some c) d') ->
  wp (claim_run graph_text order) post (fun _ _ => True) d.
Proof.
  intros Hok Hnone Hsome. unfold claim_run, flow_schema. cbn [bind select now_ms new_id exec Script.wp].
  intros d1 Hr1. split; [|done]. cbn [bind Script.wp]. intros now d2 Hr2. split; [|done]. assert (Hok2 : tables_ok d2) by (apply Hr2, Hr1, Hok).
  cbn [bind]. destruct (run_candidate now d2) as [[id r0]|]; [|by apply Hnone]. cbn [Script.wp bind]. intros i d3 Hr3.
  split_and!; [done | | done | done]. destruct (affected frun d3 _) as [k|]; [|done]. cbn [bind]. set (s := ClaimRun _ _ _ _).
  assert (Hok3 : tables_ok (apply frun d3 s)) by (apply (allowed_keeps d3 s); [done | by apply Hr3]).
  destruct (negb (k =? 1)); [by apply Hnone|]. cbn [Script.wp bind]. intros d4 Hr4. split; [|done]. cbn [bind].
  assert (Hok4 : tables_ok d4) by by apply Hr4. destruct (flow_runs d4 !! id) as [r|] eqn:Er; [|done].
  destruct (leased_by _ (run_life r)); [|done]. destruct (validate_graph graph_text order (run_graph (run_config r))) as [[]|] eqn:Ev; [|done].
  cbn [Script.wp]. apply Hsome; [by eapply valid_acyclic | done | by exists r].
Qed.

Lemma wp_flow_drive db_error flow_named flow spec d : tables_ok d ->
  wp (flow_drive db_error graph_text order flow_named flow spec) (fun _ _ => True) (fun _ _ => True) d.
Proof.
  intros Hok. unfold flow_drive. apply wp_bind.
  eapply wp_mono; [| |apply (wp_steady _ tables_ok (fun _ => True)); [ | |exact Hok]]; try done.
  2: { apply goes_issues. unfold recover_expired, flow_schema. auto 10 with issues. }
  2: { intros d1 d2 Hr. apply Hr. }
  intros [u|e] d1 [_ Hok1]; [|done]. destruct (fl_suspended spec); [done|]. apply wp_bind, wp_claim; [done | done|].
  intros c d2 Hg Hok2 Hk. apply wp_bind, wp_read. intros d3 Hr3. apply wp_bind, wp_read. intros d4 Hr4.
  apply wp_advance; [done|]. split_and!; [by apply Hr4, Hr3 | eapply known_kept, known_kept, Hk; done | done].
Qed.

(** ** Completed runs *)

Lemma create_careless definition key trigger input : issues (fun s => forall d, allowed s d) (create_run definition key trigger input).
Proof.
  unfold create_run. destruct definition as [[version spec]|]; [|done]. unfold validate_value_size, get_run, run_by_key, append_flow_event, flow_schema.
  auto 30 with issues.
Qed.

Lemma wp_foperation t d : foperation graph_text order t -> issues no_gc t -> tables_ok d -> wp t (fun _ _ => True) (fun _ _ => True) d.
Proof.
  intros Ho Hgc Hok. destruct Ho.
  - apply wp_careless, issues_ignore, create_careless.
  - apply wp_careless, issues_ignore. unfold cancel, append_flow_event, flow_schema. auto 20 with issues.
  - apply wp_careless, issues_ignore. unfold retry, get_run, flow_schema. apply issues_bind; [auto 10 with issues|].
    intros [p|]; [|done]. apply issues_if; [done|]. apply issues_bind; [done|]. intros fresh. apply issues_bind; [apply create_careless|]. auto 20 with issues.
  - by apply wp_flow_drive.
  - apply wp_careless. unfold flow_cron_round. destruct definition as [v s]. apply issues_if; [|done]. repeat case_match; try done.
    apply issues_ignore, create_careless.
  - exfalso. by destruct (Hgc (Some tt) 0).
Qed.

(** C13: Until retention deletes runs, a run that is complete is an evaluation of the graph it was created with, after any
    interleaving, lost statements, lost answers and crashes: every node has one
    recorded step, recorded after those it depends on; a node was skipped exactly when it has incoming
    edges and none is live, and otherwise had the outputs of its live edges as input; and
    the run's output is that of the recorded steps. *)
Theorem completed_run_is_evaluation s id r :
  reachable frun (fun t => foperation graph_text order t /\ issues no_gc t) True empty_flow_db s ->
  flow_runs (state s) !! id = Some r -> run_status (run_life r) = RComplete ->
  evaluated (state s) id (run_config r) /\ finished_with (state s) id (run_config r) (run_output (run_life r)).
Proof.
  intros Hr Hi Hc. eapply (guarded_run frun _ True frely (fun _ _ => True) allowed tables_ok) in Hr as [Hok _].
  - split; [by apply (ok_evaluated _ Hok) | by apply (ok_finished _ Hok)].
  - intros. by apply allowed_keeps.
  - intros st d Ha. by apply allowed_keeps.
  - intros t d [Ho Hn] Hok. by apply wp_foperation.
  - constructor.
  - split; cbn; intros *; by rewrite ?lookup_empty.
Qed.
End evaluation.
