(* ===== verification/FlowTrace.v ===== *)
(** * FlowTrace: runs of flows worth knowing

    A failure recorded before a crash, an output too large for the last statement, an error
    text cut inside a character, a path that begins with [$.]; and sample runs
    for the theorems on flows. *)

From Stdlib Require Import ZArith Lia Ascii SpecFloat.
From stdpp Require Import prelude gmap sorting strings list pretty relations.
From S2P Require Import Prelude Text Json Script Observability FlowGraph FlowLoop Flow FlowProps FlowEnds FlowEval.
Open Scope Z_scope.

#[local] Arguments MAX_NODES_PER_ADVANCE : simpl never.
#[local] Arguments Z.to_nat : simpl never.

(** ** Replays *)

Section traces.
Context {serde : SerdeJson} (now_at : nat -> Z) (id_at : nat -> string) (answer : nat -> FQuestion -> FAnswer).
Context (db_error : string) (flow_named : string -> option FlowSpec) (flow : string).
Notation healthy := (fun _ : nat => Healthy).
Notation play := (Script.play frun now_at id_at healthy answer).
Notation advance := (advance_run db_error flow_named flow).

(** What a driver does first: it reads the recorded states. *)
Lemma advance_reads c d t :
  play (advance c) d t = play (advance_loop db_error flow_named flow MAX_NODES_PER_ADVANCE c (states_of (claimed_id c) d)) d (S (S t)).
Proof.
  unfold advance_run. rewrite play_bind. change (play flow_schema d t) with (d, S t, Ok tt : result unit FlowError).
  cbv beta iota. by rewrite play_bind.
Qed.

Lemma advance_complete c d t : pick (claimed_graph c) (states_of (claimed_id c) d) = None ->
  size (states_of (claimed_id c) d) = length (nodes (claimed_graph c)) ->
  play (advance c) d t = play (complete_claim c (final_output (claimed_graph c) (states_of (claimed_id c) d))) d (S (S t)).
Proof.
  intros Hp Hs. rewrite advance_reads. change MAX_NODES_PER_ADVANCE with (S 39). generalize 39%nat as budget. intros budget. cbn [advance_loop]. rewrite Hp.
  by rewrite bool_decide_true.
Qed.


(** An output over the limit is refused after all nodes are recorded: the driver stops, the
    run stays as it is, and the next driver does the same. *)
Theorem large_output_never_completes c d t :
  let states := states_of (claimed_id c) d in
  pick (claimed_graph c) states = None -> size states = length (nodes (claimed_graph c)) ->
  MAX_NODE_RESULT_BYTES < slen (to_text (final_output (claimed_graph c) states)) ->
  exists t' e, play (advance c) d t = (d, t', Err (Failed e)).
Proof.
  intros states Hp Hs Hv. rewrite advance_complete by done. fold states. unfold complete_claim, validate_value_size.
  apply Z.ltb_lt in Hv. rewrite Hv. cbn. eauto.
Qed.

(** The text of an error is cut at byte 2000, and cutting inside a character is a panic: it
    comes before the failure is recorded, so that the step has no record, whatever
    the node's error policy says, and the next driver executes the node again. *)
Theorem long_error_is_never_recorded c d t n m :
  let states := states_of (claimed_id c) d in
  let input := run_input (run_config (claimed_run c)) in
  let ctx := mkContext (collect_input input (live_edges (claimed_graph c) states n) states) input
               (node_context (nodes (claimed_graph c)) states []) None 0 in
  pick (claimed_graph c) states = Some n -> is_skipped (claimed_graph c) states n = false -> node_type n <> "loop" ->
  (forall t, exists t', play (execute_with_retries db_error flow_named flow n ctx) d t = (d, t', Err (Failed m))) ->
  2000 < slen m -> is_char_boundary m (Z.to_nat 2000) = false ->
  exists t', play (advance c) d t = (d, t', Err Panicked).
Proof.
  intros states input ctx Hp Hs Hl He Hm Hb. rewrite advance_reads. change MAX_NODES_PER_ADVANCE with (S 39). generalize 39%nat as budget. intros budget. cbn [advance_loop]. fold states.
  rewrite Hp, Hs. rewrite (bool_decide_false (node_type n = "loop")) by done. fold input ctx. rewrite play_bind. unfold attempt at 1.
  rewrite play_bind, play_catch. destruct (He (S (S t))) as [t' ->]. cbn [Script.play ret]. rewrite play_bind, play_bind.
  unfold safe_error. cbn [text_of]. apply Z.ltb_lt in Hm. rewrite Hm, Hb. cbn. eauto.
Qed.
End traces.

(** ** Paths *)

Lemma replace_absent c p rep s : contains_byte c s = false -> replace (String c p) rep s = s.
Proof.
  unfold replace. induction s as [|x s IH]; [done|]. cbn. intros [Hx Hs]%orb_false_iff. to_prop.
  rewrite IH by done. unfold starts_with. cbn. destruct (ascii_dec c x) as [->|]; [done | done].
Qed.

Lemma plain_absent (p : ascii -> bool) c s : all_bytes p s = true -> p c = false -> contains_byte c s = false.
Proof. induction s as [|x s IH]; [done|]. cbn. intros [Hx Hs]%andb_prop Hc. rewrite IH by done. rewrite bool_decide_false; [done | congruence]. Qed.

Definition plain_name (s : string) : bool := negb (is_empty s) && all_bytes is_ascii_alphanumeric s.

Lemma normalize_plain s : (forall c, c ∈ ["["; "]"; "'"; ascii_of_nat 34]%char -> contains_byte c s = false) -> normalize_path s = s.
Proof.
  intros H. assert (R : forall c p rep, c ∈ ["["; "]"; "'"; ascii_of_nat 34]%char -> replace (String c p) rep s = s) by (intros; by apply replace_absent, H).
  unfold normalize_path, DQ. cbv [String.append]. by rewrite !R by set_solver.
Qed.

Lemma plain_normal pre name : all_bytes is_ascii_alphanumeric name = true -> (pre = "$" \/ pre = "$.")%string -> normalize_path (pre ++ name) = (pre ++ name)%string.
Proof.
  intros Hn Hp. apply normalize_plain. intros c Hc. assert (Hx : contains_byte c name = false).
  { eapply plain_absent; [exact Hn|]. rewrite !elem_of_cons, elem_of_nil in Hc. by destruct Hc as [->|[->|[->|[->|[]]]]]. }
  rewrite !elem_of_cons, elem_of_nil in Hc. destruct Hp as [->| ->], Hc as [->|[->|[->|[->|[]]]]]; exact Hx.
Qed.

Lemma split_plain name : all_bytes is_ascii_alphanumeric name = true -> split "." name = [name].
Proof.
  induction name as [|c s IH]; [done|]. cbn [all_bytes]. intros [Hc Hs]%andb_prop. cbn [split]. rewrite bool_decide_false by (by intros ->). by rewrite IH.
Qed.

(** A path that begins with [$.] loses neither character: taking [$.] off and then [$] falls
    back to the whole text when the second is missing, the root is read as [$], and the
    path is not found, while the same name after [$] alone is. *)
Theorem dollar_dot_path_is_lost name ctx v :
  plain_name name = true -> name ∉ ["input"; "json"; "trigger"; "node"; "nodes"; "item"] ->
  jget name (ctx_input ctx) = Some v -> jget "$" (ctx_input ctx) = None ->
  legacy_path_expression ("$." ++ name) = true /\ (exists e, eval_path ("$." ++ name) ctx = Err e) /\ eval_path ("$" ++ name) ctx = Ok v.
Proof.
  intros [Hne Hn]%andb_prop Hres Hv Hd. destruct name as [|c s]; [done|]. split_and!.
  - apply andb_true_intro. split; [done|]. change (all_bytes path_char (String c s) = true). clear -Hn.
    induction (String c s) as [|x l IH]; [done|]. cbn in *. apply andb_prop in Hn as [Hx Hl]. rewrite (IH Hl). unfold path_char. by rewrite Hx.
  - exists ("Flow 表达式找不到 " ++ "$")%string. unfold eval_path. rewrite plain_normal by auto. change ("$." ++ String c s)%string with (String "$" (String "." (String c s))).
    assert (Hc : c <> "$"%char) by (cbn in Hn; apply andb_prop in Hn as [Hc _]; by intros ->).
    assert (Hpath : path_of (String "$" (String "." (String c s))) = String "$" (String "." (String c s))).
    { unfold path_of. rewrite (strip_prefix_app "$." (String c s) : strip_prefix "$." (String "$" (String "." (String c s))) = _).
      cbn [from_option id strip_prefix]. by rewrite (bool_decide_false ("$"%char = c)) by congruence. }
    assert (Hsplit : split "." (String "$" (String "." (String c s))) = "$" :: split "." (String c s)) by reflexivity.
    rewrite Hpath, Hsplit. cbv beta iota. rewrite !bool_decide_false by set_solver. by rewrite Hd.
  - unfold eval_path. rewrite plain_normal by auto. change ("$" ++ String c s)%string with (String "$" (String c s)).
    assert (Hc : c <> "."%char) by (cbn in Hn; apply andb_prop in Hn as [Hc _]; by intros ->).
    assert (Hpath : path_of (String "$" (String c s)) = String c s) .
    { unfold path_of. cbn [strip_prefix]. rewrite (bool_decide_true ("$"%char = "$"%char)), (bool_decide_false ("."%char = c)) by congruence.
      cbn [from_option id strip_prefix]. by rewrite bool_decide_true. }
    rewrite Hpath, split_plain by done. cbv beta iota. rewrite !bool_decide_false by set_solver. by rewrite Hv.
Qed.

(** ** Sample runs *)

Module FlowSample.
Definition now_at (n : nat) : Z := 100000 * Z.of_nat n.
Definition id_at (n : nat) : string := pretty n.
(** Services that answer, and services that refuse. *)
Definition answer (_ : nat) (_ : FQuestion) : FAnswer := Ok (JStr "v").
Definition refusal (_ : nat) (_ : FQuestion) : FAnswer := Err "boom".
Definition healthy (_ : nat) : Fault := Healthy.
(** The database is away between two interactions. *)
Definition away (n m : nat) (t : nat) : Fault := if Nat.leb n t && Nat.ltb t m then Refused else Healthy.

#[export] Instance sample_serde : SerdeJson := {| to_text := fun _ => ""; from_text := fun _ => None |}.
Definition graph_text (_ : FlowGraph) : string := "".
Definition order (l : list string) : list string := l.
Definition origin : FlowPosition := mkPosition (S754_zero false) (S754_zero false).

(** A trigger and a request after it. *)
Definition start : FlowNode := mkFlowNode "t" "" origin "trigger" "" "stop" [].
Definition request : FlowNode := mkFlowNode "h" "" origin "http" "" "stop" [].
Definition sample_graph : FlowGraph := mkGraph [start; request] [mkEdge "e" "t" "h" None None].
Definition sample_flow : FlowSpec := mkFlowSpec "" sample_graph Manual None [] [] false "" 30 32 None.

Definition create : FOp unit := ignore (create_run (Some (1, sample_flow)) None "manual" JNull).
Definition drive : FOp unit := flow_drive "db" graph_text order (fun _ => None) "f" sample_flow.

Definition after (fault_at : nat -> Fault) (answer : nat -> FQuestion -> FAnswer) (ops : list (FOp unit)) : FlowDb :=
  (play_all frun now_at id_at fault_at answer ops empty_flow_db 0).1.

(** What these runs compute is reached. *)
Lemma flow_reached (started : FOp unit -> Prop) fault_at answer ops :
  Forall started ops -> exists s, reachable frun started True empty_flow_db s /\ state s = after fault_at answer ops.
Proof.
  intros Ho. assert (Hinj : forall n m, id_at n = id_at m -> n = m) by (intros n m Hnm; by apply (inj pretty) in Hnm).
  destruct (play_all_runs frun started True now_at id_at fault_at answer Hinj (fun _ _ => I) ops [] ∅ empty_flow_db 0 Ho) as (p & u & Hr & _);
    [intros n _; set_solver | constructor |].
  eexists. split; [exact Hr | done].
Qed.

Lemma create_fop : foperation graph_text order create.
Proof. exact (fop_create graph_text order (Some (1, sample_flow)) None "manual" JNull). Qed.
Lemma drive_fop : foperation graph_text order drive.
Proof. exact (fop_drive graph_text order "db" (fun _ => None) "f" sample_flow). Qed.

Definition sample_run (l : RunLife) : FlowRun := mkFlowRun (mkRunConfig None "manual" JNull sample_graph 1 200000) l.
(** The run of a driver that is lost after its claim. *)
Definition claimed_life : RunLife := mkRunLife RRunning None None None 200000 (Some "lease_14") (Some 1500000) (Some 1200000) None 1200000.
Lemma run_claimed : flow_runs (after (away 16 17) answer [create; drive]) !! "flr_1" = Some (sample_run claimed_life).
Proof. vm_compute. reflexivity. Qed.
Definition complete_life : RunLife := mkRunLife RComplete (Some (JStr "v")) None None 200000 None None (Some 1200000) (Some 2600000) 2600000.
Lemma run_completed : flow_runs (after healthy answer [create; drive]) !! "flr_1" = Some (sample_run complete_life).
Proof. vm_compute. reflexivity. Qed.

(** The failure of the request is recorded, that of the run is not; another driver claims the
    run and has done nothing yet. *)
Definition half_failed : FlowDb := after (fun t => if bool_decide (t = 27%nat \/ t = 37%nat) then Refused else Healthy) refusal [create; drive; drive].
Definition second_life : RunLife := mkRunLife RRunning None None None 2900000 (Some "lease_34") (Some 3500000) (Some 1200000) None 3200000.
Definition second_claim : ClaimedRun := mkClaimed "flr_1" (sample_run second_life) "lease_34".
Definition failed_step : FlowStep := mkFlowStep "http" 2 "failed" "failed" None JNull JNull (Some "boom") 2300000.
Lemma half_failed_run : flow_runs half_failed !! "flr_1" = Some (sample_run second_life).
Proof. vm_compute. reflexivity. Qed.
Lemma half_failed_step : flow_steps half_failed !! ("flr_1", "h", 0) = Some failed_step.
Proof. vm_compute. reflexivity. Qed.

(** The trigger is recorded, the request is not. *)
Definition half_done : FlowDb := after (away 24 25) answer [create; drive].
Definition half_life : RunLife := mkRunLife RRunning None None None 200000 (Some "lease_14") (Some 2200000) (Some 1200000) None 1900000.
Definition half_claim : ClaimedRun := mkClaimed "flr_1" (sample_run half_life) "lease_14".
Lemma half_done_run : flow_runs half_done !! "flr_1" = Some (sample_run half_life).
Proof. vm_compute. reflexivity. Qed.

(** Both nodes are recorded, and the last statement was refused. *)
Definition all_done : FlowDb := after (away 27 28) answer [create; drive].

Fixpoint srepeat (n : nat) (c : ascii) : string := match n with O => EmptyString | S n' => String c (srepeat n' c) end.
Lemma srepeat_length n c : String.length (srepeat n c) = n.
Proof. induction n as [|n IH]; cbn; [done | by rewrite IH]. Qed.
(** Values whose text is over the limit. *)
Definition long_serde : SerdeJson := {| to_text := fun _ => srepeat (Z.to_nat 4194305) "x"; from_text := fun _ => None |}.
Lemma long_text v : MAX_NODE_RESULT_BYTES < slen (@to_text long_serde v).
Proof. unfold slen. cbn [to_text long_serde]. rewrite srepeat_length, Z2Nat.id; [done | done]. Qed.

(** An error text with a character across byte 2000. *)
Definition long_error : string := srepeat 1999 "a" ++ "é".
Definition long_refusal (_ : nat) (_ : FQuestion) : FAnswer := Err long_error.

(** A loop with one node inside and one after. *)
Definition loop_graph : FlowGraph :=
  mkGraph [start; mkFlowNode "l" "" origin "loop" "" "stop" []; mkFlowNode "b" "" origin "http" "" "stop" []; mkFlowNode "a" "" origin "http" "" "stop" []]
    [mkEdge "e1" "t" "l" None None; mkEdge "e2" "l" "b" (Some "each") None; mkEdge "e3" "l" "a" (Some "done") None].
End FlowSample.
Import FlowSample.

Lemma no_run_is_stranded_witness : exists s,
  flow_reachable graph_text order True s /\ flow_runs (state s) !! "flr_1" = Some (sample_run claimed_life) /\ forall now, 1500000 < now ->
     exists r', flow_runs (apply frun (state s) (RecoverExpired now)) !! "flr_1" = Some r' /\
       forall now', now <= now' -> run_due now' (run_life r') = true.
Proof.
  destruct (flow_reached (foperation graph_text order) (away 16 17) answer [create; drive]) as (s & Hr & Hs);
    [exact (Forall_cons_2 _ _ _ create_fop (Forall_cons_2 _ _ _ drive_fop (Forall_nil_2 _)))|].
  assert (Hi : flow_runs (state s) !! "flr_1" = Some (sample_run claimed_life)) by (rewrite Hs; exact run_claimed).
  exists s. split; [exact Hr|]. split; [exact Hi|]. destruct (no_run_is_stranded graph_text order s "flr_1" _ Hr Hi) as [H|[H|(u & Hu & H)]].
  - discriminate H.
  - specialize (H 200000 (Z.le_refl _)). discriminate H.
  - injection Hu as <-. exact H.
Defined.

Lemma tame_no_gc (t : FOp unit) : goes no_gc unbounded (fun _ => True) t -> issues no_gc t.
Proof. intros H. apply goes_issues. eapply goes_mono, H; done. Qed.
Lemma create_no_gc : issues no_gc create.
Proof. apply tame_no_gc, goes_ignored, goes_create. done. Qed.
Lemma drive_no_gc : issues no_gc drive.
Proof. apply tame_no_gc, goes_drive. done. Qed.

Lemma completed_run_is_evaluation_witness : exists s : Sys FlowDb FStmt FQuestion FAnswer FlowError,
  flow_runs (state s) !! "flr_1" = Some (sample_run complete_life) /\
  finished_with (state s) "flr_1" (run_config (sample_run complete_life)) (Some (JStr "v")).
Proof.
  destruct (flow_reached (fun t => foperation graph_text order t /\ issues no_gc t) healthy answer [create; drive]) as (s & Hr & Hs);
    [exact (Forall_cons_2 _ _ _ (conj create_fop create_no_gc) (Forall_cons_2 _ _ _ (conj drive_fop drive_no_gc) (Forall_nil_2 _)))|].
  assert (Hi : flow_runs (state s) !! "flr_1" = Some (sample_run complete_life)) by (rewrite Hs; exact run_completed).
  exists s. split; [exact Hi|].
  exact (proj2 (completed_run_is_evaluation graph_text order (fun l => Permutation_refl l) s "flr_1" _ Hr Hi eq_refl)).
Defined.

Lemma flow_work_is_bounded_witness : goes (fun _ => True) unbounded (fun _ => True) drive.
Proof. exact (flow_work_is_bounded graph_text order drive drive_fop). Defined.

Lemma graph_validation_is_exact_witness : well_linked sample_graph /\ acyclic sample_graph.
Proof.
  destruct (graph_validation_is_exact graph_text order sample_graph (fun l => Permutation_refl l)) as [H _].
  destruct H as (H1 & H2 & _); [vm_compute; reflexivity|]. exact (conj H1 H2).
Defined.

Lemma loop_acyclic : acyclic loop_graph.
Proof. apply (valid_acyclic graph_text order); [done|]. vm_compute. reflexivity. Qed.

Lemma loop_body_is_exact_witness : exists body entries, loop_body "l" loop_graph = Some (body, entries) /\
  forall v, v ∈ body <-> loop_reach loop_graph "l" "each" v /\ ~ loop_reach loop_graph "l" "done" v.
Proof.
  destruct (loop_body_is_exact loop_graph "l" loop_acyclic) as (body & entries & H1 & H2 & _).
  exists body, entries. split; [exact H1 | exact H2].
Defined.


Lemma large_output_never_completes_witness :
  exists t' e, play frun now_at id_at healthy answer (@advance_run long_serde "db" (fun _ => None) "f" half_claim) all_done 40 = (all_done, t', Err (Failed e)).
Proof.
  apply (@large_output_never_completes long_serde now_at id_at answer "db" (fun _ => None) "f" half_claim all_done 40).
  - vm_compute. reflexivity.
  - vm_compute. reflexivity.
  - exact (long_text _).
Defined.

Lemma long_error_is_never_recorded_witness :
  exists t', play frun now_at id_at healthy long_refusal (advance_run "db" (fun _ => None) "f" half_claim) half_done 40 = (half_done, t', Err Panicked).
Proof.
  apply (long_error_is_never_recorded now_at id_at long_refusal "db" (fun _ => None) "f" half_claim half_done 40 request long_error).
  - vm_compute. reflexivity.
  - vm_compute. reflexivity.
  - discriminate.
  - intros t. exists (S t). reflexivity.
  - vm_compute. reflexivity.
  - vm_compute. reflexivity.
Defined.

Lemma dollar_dot_path_is_lost_witness : let ctx := mkContext (jobject [("name", JStr "v")]) JNull [] None 0 in
  (exists e, eval_path "$.name" ctx = Err e) /\ eval_path "$name" ctx = Ok (JStr "v").
Proof.
  intros ctx. destruct (dollar_dot_path_is_lost "name" ctx (JStr "v")) as (_ & H1 & H2).
  - vm_compute. reflexivity.
  - apply (bool_decide_unpack _). vm_compute. exact I.
  - vm_compute. reflexivity.
  - vm_compute. reflexivity.
  - exact (conj H1 H2).
Defined.
