(* ===== verification/FlowNet.v ===== *)
(** * FlowNet: the addresses a flow may reach (crates/rf/src/flow.rs, [is_public_ip] and [safe_http_client])

    The same test of addresses guards the policies of [email.rs].  An address is the number
    its bytes are; what a name resolves to is an argument. *)

From Stdlib Require Import ZArith Lia.
From stdpp Require Import prelude strings list.
From S2P Require Import Prelude Text.
Open Scope Z_scope.

Inductive IpAddr : Type := V4 (n : Z) | V6 (n : Z).

(** [Ipv4Addr::octets] and [Ipv6Addr::segments]. *)
Definition octet (n : Z) (i : Z) : Z := n / 2 ^ (24 - 8 * i) mod 256.
Definition segment (n : Z) (i : Z) : Z := n / 2 ^ (112 - 16 * i) mod 65536.

(** The tests of the standard library. *)
Definition is_private (n : Z) : bool :=
  (octet n 0 =? 10) || ((octet n 0 =? 172) && (16 <=? octet n 1) && (octet n 1 <=? 31)) || ((octet n 0 =? 192) && (octet n 1 =? 168)).
Definition is_loopback4 (n : Z) : bool := octet n 0 =? 127.
Definition is_link_local (n : Z) : bool := (octet n 0 =? 169) && (octet n 1 =? 254).
Definition is_multicast4 (n : Z) : bool := (224 <=? octet n 0) && (octet n 0 <=? 239).
Definition is_unspecified4 (n : Z) : bool := n =? 0.
Definition is_loopback6 (n : Z) : bool := n =? 1.
Definition is_unspecified6 (n : Z) : bool := n =? 0.
Definition is_multicast6 (n : Z) : bool := Z.land (segment n 0) 65280 =? 65280.
Definition to_ipv4_mapped (n : Z) : option Z :=
  if (segment n 0 =? 0) && (segment n 1 =? 0) && (segment n 2 =? 0) && (segment n 3 =? 0) && (segment n 4 =? 0) && (segment n 5 =? 65535)
  then Some (n mod 2 ^ 32) else None.

(** [is_public_ip]. *)
Definition is_public_v4 (n : Z) : bool :=
  negb (is_private n || is_loopback4 n || is_link_local n || is_multicast4 n || is_unspecified4 n
        || (octet n 0 =? 0) || (224 <=? octet n 0)
        || ((octet n 0 =? 100) && (64 <=? octet n 1) && (octet n 1 <=? 127))
        || ((octet n 0 =? 192) && (octet n 1 =? 0) && (octet n 2 =? 0))
        || ((octet n 0 =? 198) && ((octet n 1 =? 18) || (octet n 1 =? 19)))).
Definition is_public_ip (ip : IpAddr) : bool :=
  match ip with
  | V4 n => is_public_v4 n
  | V6 n =>
      match to_ipv4_mapped n with
      | Some m => is_public_v4 m
      | None =>
          negb (is_loopback6 n || is_unspecified6 n || is_multicast6 n || (Z.land (segment n 0) 65024 =? 64512)
                || (Z.land (segment n 0) 65472 =? 65152))
      end
  end.

(** [safe_http_client]: the address a client is bound to; the last argument is what the host
    resolves to, [None] when that fails. *)
Record Url : Type := mkUrl { scheme : string; username : string; password : option string; host_str : option string; url_port : option Z }.
Inductive NetError : Type := BadUrl | NoHost | BadPort | NoAddress | ForbiddenAddress.
Definition safe_http_client (url : Url) (lookup_host : string -> Z -> option (list IpAddr)) : result (string * IpAddr) NetError :=
  if negb (bool_decide (scheme url ∈ ["http"; "https"])) || negb (is_empty (username url)) || bool_decide (is_Some (password url)) then Err BadUrl
  else
    match host_str url with
    | None => Err NoHost
    | Some host =>
        match url_port url with
        | None => Err BadPort
        | Some port =>
            match lookup_host host port with
            | None => Err NoAddress
            | Some addresses =>
                match addresses with
                | [] => Err ForbiddenAddress
                | a :: _ => if existsb (fun a => negb (is_public_ip a)) addresses then Err ForbiddenAddress else Ok (host, a)
                end
            end
        end
    end.

(** ** The ranges *)

(** A range of addresses: those that agree with [base] in all but the last [bits]. *)
Definition within (base bits n : Z) : Prop := base * 2 ^ bits <= n < (base + 1) * 2 ^ bits.

Definition ip4 (a b c d : Z) : Z := ((a * 256 + b) * 256 + c) * 256 + d.

(** 0/8, 10/8, 100.64/10, 127/8, 169.254/16, 172.16/12, 192.0.0/24, 192.168/16, 198.18/15 and
    everything from 224/4 on. *)
Definition special4 (n : Z) : Prop :=
  within 0 24 n \/ within 10 24 n \/ within (100 * 4 + 1) 22 n \/ within 127 24 n \/ within (169 * 256 + 254) 16 n \/
  within (172 * 16 + 1) 20 n \/ within (192 * 65536) 8 n \/ within (192 * 256 + 168) 16 n \/ within (198 * 128 + 9) 17 n \/ ip4 224 0 0 0 <= n.

(** ::, ::1, fc00::/7, fe80::/10 and ff00::/8. *)
Definition special6 (n : Z) : Prop :=
  n = 0 \/ n = 1 \/ within 126 121 n \/ within 1018 118 n \/ within 255 120 n.

Definition mapped (n : Z) : Prop := within 65535 32 n.

Definition valid_ip (ip : IpAddr) : Prop := match ip with V4 n => 0 <= n < 2 ^ 32 | V6 n => 0 <= n < 2 ^ 128 end.
Definition special (ip : IpAddr) : Prop :=
  match ip with V4 n => special4 n | V6 n => if decide (mapped n) then special4 (n - 65535 * 2 ^ 32) else special6 n end.

(** ** Exactness *)

Lemma octets_of n : 0 <= n < 2 ^ 32 -> exists a b c d, n = ip4 a b c d /\ octet n 0 = a /\ octet n 1 = b /\ octet n 2 = c /\
  0 <= a < 256 /\ 0 <= b < 256 /\ 0 <= c < 256 /\ 0 <= d < 256.
Proof.
  intros Hn. exists (octet n 0), (octet n 1), (octet n 2), (n mod 256). unfold octet, ip4. cbn -[Z.div Z.modulo].
  change (2 ^ 32) with 4294967296 in Hn. change (2 ^ 24) with 16777216. change (2 ^ 16) with 65536. change (2 ^ 8) with 256.
  Z.to_euclidean_division_equations. lia.
Qed.

Lemma public_v4 n : 0 <= n < 2 ^ 32 -> is_public_v4 n = true <-> ~ special4 n.
Proof.
  intros Hn. destruct (octets_of n Hn) as (a & b & c & d & E & H0 & H1 & H2 & Ha & Hb & Hc & Hd).
  unfold is_public_v4, is_private, is_loopback4, is_link_local, is_multicast4, is_unspecified4. rewrite H0, H1, H2.
  rewrite negb_true_iff, <- not_true_iff_false. apply not_iff_compat.
  rewrite !orb_true_iff, !andb_true_iff, !orb_true_iff, !Z.eqb_eq, !Z.leb_le. unfold special4, within, ip4 in *. clear H0 H1 H2 Hn. split; lia.
Qed.

(** Masks of the high bits. *)
Lemma land_high s k : 0 <= k <= 16 -> 0 <= s < 65536 -> Z.land s (65536 - 2 ^ k) = s / 2 ^ k * 2 ^ k.
Proof.
  intros Hk Hs. rewrite <- Z.shiftr_div_pow2, <- Z.shiftl_mul_pow2, <- Z.ldiff_ones_r by lia.
  apply Z.bits_inj'. intros i Hi. rewrite Z.land_spec, Z.ldiff_spec. destruct (Z.testbit s i) eqn:Eb; [|done]. cbn [andb].
  assert (Hi16 : i < 16).
  { destruct (Z.lt_ge_cases i 16) as [|H16]; [done|]. rewrite Z.bits_above_log2 in Eb; [done | lia |].
    destruct (Z.eq_dec s 0) as [->|]; [cbn; lia|]. apply Z.log2_lt_pow2; [lia|]. eapply Z.lt_le_trans with (2 ^ 16); [lia|]. by apply Z.pow_le_mono_r. }
  replace (65536 - 2 ^ k) with (Z.ldiff (Z.ones 16) (Z.ones k)).
  - by rewrite Z.ldiff_spec, (Z.ones_spec_low 16 i) by lia.
  - rewrite Z.ldiff_ones_r, Z.shiftr_div_pow2, Z.shiftl_mul_pow2 by lia. rewrite Z.ones_equiv. change (2 ^ 16) with (65536).
    assert (Hp : 65536 = 2 ^ k * 2 ^ (16 - k)) by (rewrite <- Z.pow_add_r by lia; by replace (k + (16 - k)) with 16 by lia).
    assert (0 < 2 ^ k) by (apply Z.pow_pos_nonneg; lia). replace (Z.pred 65536) with ((2 ^ (16 - k) - 1) * 2 ^ k + (2 ^ k - 1)) by lia.
    rewrite Z.div_add_l by lia. rewrite (Z.div_small (2 ^ k - 1)) by lia. lia.
Qed.

Lemma first_segment n : 0 <= n < 2 ^ 128 -> segment n 0 = n / 2 ^ 112 /\ 0 <= n / 2 ^ 112 < 65536.
Proof.
  intros Hn. unfold segment. cbn -[Z.div Z.modulo Z.pow]. assert (H : 0 <= n / 2 ^ 112 < 65536).
  { split; [apply Z.div_pos; [apply Hn | done] | apply Z.div_lt_upper_bound; [done|]; change 65536 with (2 ^ 16); rewrite <- Z.pow_add_r by lia; apply Hn]. }
  split; [by apply Z.mod_small | done].
Qed.

Lemma masked n k base : 0 <= k <= 16 -> 0 <= n < 2 ^ 128 ->
  Z.land (segment n 0) (65536 - 2 ^ k) = base * 2 ^ k <-> within base (112 + k) n.
Proof.
  intros Hk Hn. destruct (first_segment n Hn) as [-> Hs]. rewrite land_high by done. unfold within.
  rewrite Z.mul_cancel_r by (apply Z.pow_nonzero; lia). rewrite Z.div_div by (done || apply Z.pow_pos_nonneg; lia). rewrite <- Z.pow_add_r by lia.
  assert (0 < 2 ^ (112 + k)) by (apply Z.pow_pos_nonneg; lia).
  set (p := 2 ^ (112 + k)) in *. split; [intros <-; pose proof (Z.mul_div_le n p); pose proof (Z.mul_succ_div_gt n p); nia|].
  intros Hb. symmetry. apply Z.div_unique with (n - base * p); nia.
Qed.

Lemma mapped_digits n : 0 <= n < 2 ^ 128 ->
  segment n 0 = 0 /\ segment n 1 = 0 /\ segment n 2 = 0 /\ segment n 3 = 0 /\ segment n 4 = 0 /\ segment n 5 = 65535 <-> n / 2 ^ 32 = 65535.
Proof.
  intros Hn. destruct (first_segment n Hn) as [-> Hs].
  assert (Hd : forall a, 0 <= a -> n / 2 ^ (a + 16) = n / 2 ^ a / 65536)
    by (intros a Ha; change 65536 with (2 ^ 16); rewrite Z.div_div by (done || apply Z.pow_nonzero; lia); by rewrite <- Z.pow_add_r by lia).
  change (segment n 1) with (n / 2 ^ (80 + 16) mod 65536). change (segment n 2) with (n / 2 ^ (64 + 16) mod 65536).
  change (segment n 3) with (n / 2 ^ (48 + 16) mod 65536). change (segment n 4) with (n / 2 ^ (32 + 16) mod 65536).
  change (segment n 5) with (n / 2 ^ 32 mod 65536). change 112 with (96 + 16) in *. rewrite !Hd in * by lia.
  change 96 with (80 + 16) in *. rewrite !Hd in * by lia. change 80 with (64 + 16) in *. rewrite !Hd in * by lia.
  change 64 with (48 + 16) in *. rewrite !Hd in * by lia. change 48 with (32 + 16) in *. rewrite !Hd in * by lia.
  clear Hd Hn. revert Hs. generalize (n / 2 ^ 32). intros q Hs. Z.to_euclidean_division_equations. lia.
Qed.

Lemma mapped_spec n : 0 <= n < 2 ^ 128 -> to_ipv4_mapped n = if decide (mapped n) then Some (n - 65535 * 2 ^ 32) else None.
Proof.
  intros Hn. assert (Hm : n / 2 ^ 32 = 65535 <-> mapped n).
  { unfold mapped, within. change (2 ^ 32) with 4294967296. Z.to_euclidean_division_equations. lia. }
  unfold to_ipv4_mapped. destruct (_ && _) eqn:E.
  - rewrite !andb_true_iff, !Z.eqb_eq in E. rewrite decide_True; [f_equal | apply Hm, mapped_digits; [done | tauto]].
    assert (H : n / 2 ^ 32 = 65535) by (apply mapped_digits; [done | tauto]). rewrite Z.mod_eq by done. rewrite H. lia.
  - rewrite decide_False; [done|]. intros [H0 H1]%Hm%mapped_digits; [|done].
    rewrite H0 in E. destruct H1 as (-> & -> & -> & -> & ->) in E. done.
Qed.

Lemma public_v6 n : 0 <= n < 2 ^ 128 ->
  negb (is_loopback6 n || is_unspecified6 n || is_multicast6 n || (Z.land (segment n 0) 65024 =? 64512) || (Z.land (segment n 0) 65472 =? 65152)) = true <->
  ~ special6 n.
Proof.
  intros Hn. pose proof (masked n 9 126 ltac:(lia) Hn) as H9. pose proof (masked n 6 1018 ltac:(lia) Hn) as H6. pose proof (masked n 8 255 ltac:(lia) Hn) as H8.
  unfold is_loopback6, is_unspecified6, is_multicast6. rewrite negb_true_iff, <- not_true_iff_false. apply not_iff_compat.
  rewrite !orb_true_iff, !Z.eqb_eq. unfold special6. change (65536 - 2 ^ 9) with 65024 in H9. change (65536 - 2 ^ 6) with 65472 in H6. change (65536 - 2 ^ 8) with 65280 in H8.
  change (126 * 2 ^ 9) with 64512 in H9. change (1018 * 2 ^ 6) with 65152 in H6. change (255 * 2 ^ 8) with 65280 in H8.
  change (112 + 9) with 121 in H9. change (112 + 6) with 118 in H6. change (112 + 8) with 120 in H8. rewrite H9, H6, H8. tauto.
Qed.

(** The test of addresses is exactly the ranges it means to keep out, for both families, with
    the mapped IPv4 addresses of IPv6 judged as IPv4. *)
Lemma public_ip_is_exact ip : valid_ip ip -> is_public_ip ip = true <-> ~ special ip.
Proof.
  destruct ip as [n|n]; intros Hv; cbn [is_public_ip special]; [by apply public_v4|]. rewrite mapped_spec by exact Hv.
  destruct (decide (mapped n)) as [Hm|Hm]; [|by apply public_v6]. apply public_v4. unfold mapped, within in Hm. lia.
Qed.

(** C26: A client is bound to an address its host resolved to, and only when every address of the
    host is outside the special ranges. *)
Theorem client_reaches_public_addresses url lookup_host host a :
  (forall h p l b, lookup_host h p = Some l -> b ∈ l -> valid_ip b) -> safe_http_client url lookup_host = Ok (host, a) ->
  exists port l, lookup_host host port = Some l /\ a ∈ l /\ (forall b, b ∈ l -> ~ special b) /\
    scheme url ∈ ["http"; "https"] /\ username url = "" /\ password url = None.
Proof.
  intros Hl. unfold safe_http_client. destruct (negb (bool_decide (scheme url ∈ ["http"; "https"]))) eqn:E1; [done|].
  destruct (is_empty (username url)) eqn:E2; [|done]. destruct (password url) eqn:E3; [done|]. rewrite bool_decide_false by (by intros [? ?]). cbn [negb orb].
  destruct (host_str url) as [h|]; [|done]. destruct (url_port url) as [p|]; [|done]. destruct (lookup_host h p) as [[|x l]|] eqn:El; [done | | done].
  destruct (existsb _ (x :: l)) eqn:Ee; [done|]. intros [= -> ->]. exists p, (a :: l). split_and!; [done | apply list_elem_of_here | | | |].
  - intros b Hb. apply (proj1 (public_ip_is_exact b (Hl _ _ _ _ El Hb))). destruct (is_public_ip b) eqn:Eb; [done|]. exfalso.
    apply not_true_iff_false in Ee. apply Ee, existsb_exists. exists b. split; [by apply list_elem_of_In | by rewrite Eb].
  - apply negb_false_iff in E1. by to_prop.
  - by destruct (username url).
  - done.
Qed.

Definition sample_lookup (h : string) (p : Z) : option (list IpAddr) := if bool_decide (h = "one") then Some [V4 (ip4 1 1 1 1)] else None.
Lemma client_reaches_public_addresses_witness : ~ special (V4 (ip4 1 1 1 1)).
Proof.
  destruct (client_reaches_public_addresses (mkUrl "https" "" None (Some "one") (Some 443)) sample_lookup "one" (V4 (ip4 1 1 1 1))) as (p & l & H1 & H2 & H3 & _).
  - unfold sample_lookup. intros h p l b H Hb. destruct (bool_decide (h = "one")); [|discriminate H]. injection H as <-.
    apply list_elem_of_singleton in Hb. subst b. vm_compute. split; [discriminate | reflexivity].
  - vm_compute. reflexivity.
  - exact (H3 _ H2).
Defined.
