(* ===== verification/Storage.v ===== *)
(** * Storage: where bytes live, and the definitions of buckets (crates/rf/src/objectstore.rs,
    storage_policy.rs, r2.rs)

    [StorageLocation] is what metadata records of the place of some bytes; [place] is the
    file or the remote object it stands for, on a given node.  A [StoragePolicy] chooses one
    of several remotes by the digest of the bytes, a [BucketSpec] fixes a location or names the policy.
    Policies and buckets are platform resources.

    [serde] is third-party code. *)

From Stdlib Require Import ZArith Lia Ascii.
From stdpp Require Import prelude gmap sorting strings list.
From S2P Require Import Prelude Text Hlc Identity Envelope Kv Cron Claim Manifest Quorum DataAudit Observability Store Node NodeFacts Resource.
Open Scope Z_scope.

(** ** Locations *)

(** The JSON text of a location determines it, so that a [storage_json] column is a value of this type. *)
Inductive StorageLocation : Type :=
| Local
| Rclone (remote prefix : string)
| RcloneShard (remote prefix : string).
#[export] Instance StorageLocation_eq_dec : EqDecision StorageLocation.
Proof. solve_decision. Defined.
#[export] Instance StorageLocation_countable : Countable StorageLocation.
Proof.
  refine (inj_countable'
    (fun l => match l with Local => inl () | Rclone r p => inr (inl (r, p)) | RcloneShard r p => inr (inr (r, p)) end)
    (fun x => match x with inl _ => Local | inr (inl (r, p)) => Rclone r p | inr (inr (r, p)) => RcloneShard r p end) _).
  by intros [].
Defined.

(** [valid_remote], [validate_prefix], [StorageLocation::validate]. *)
Definition remote_byte (c : ascii) : bool := is_ascii_alphanumeric c || bool_decide (c ∈ ["-"; "_"; "."]%char).
Definition valid_remote (remote : string) : bool :=
  negb (is_empty remote) && (slen remote <=? 128) && negb (starts_with_byte "-" remote) && all_bytes remote_byte remote.
Definition valid_prefix (prefix : string) : bool :=
  negb ((512 <? slen prefix) || starts_with_byte "/" prefix || contains_byte "000" prefix
        || existsb (fun c => bool_decide (c ∈ ["."; ".."])) (split "/" prefix)).
Definition valid_location (l : StorageLocation) : bool :=
  match l with Local => true | Rclone r p | RcloneShard r p => valid_remote r && valid_prefix p end.

(** [trim_matches], on one byte. *)
Fixpoint trim_byte_start (c : ascii) (s : string) : string :=
  match s with String d s' => if bool_decide (d = c) then trim_byte_start c s' else s | EmptyString => EmptyString end.
Definition trim_byte (c : ascii) (s : string) : string := srev (trim_byte_start c (srev (trim_byte_start c s))).

(** [rclone_target], [rclone_shard_target]; digests are in hexadecimal. *)
Definition rclone_target (remote prefix sha : string) : string :=
  let key := ("blobs/" ++ stake 2 sha ++ "/" ++ sha)%string in
  if is_empty prefix then (remote ++ ":" ++ key)%string else (remote ++ ":" ++ trim_byte "/" prefix ++ "/" ++ key)%string.
Definition rclone_shard_target (remote prefix sha : string) : string :=
  if is_empty prefix then (remote ++ ":" ++ sha)%string else (remote ++ ":" ++ trim_byte "/" prefix ++ "/" ++ sha)%string.

(** A file of a node's object root, or an object of a remote. *)
Inductive Place : Type := OnNode (node sha : string) | OnRemote (target : string).
#[export] Instance Place_eq_dec : EqDecision Place.
Proof. solve_decision. Defined.
#[export] Instance Place_countable : Countable Place.
Proof.
  refine (inj_countable' (fun p => match p with OnNode n s => inl (n, s) | OnRemote t => inr t end)
    (fun x => match x with inl (n, s) => OnNode n s | inr t => OnRemote t end) _).
  by intros [].
Defined.
Definition place (node : string) (l : StorageLocation) (sha : string) : Place :=
  match l with
  | Local => OnNode node sha
  | Rclone r p => OnRemote (rclone_target r p sha)
  | RcloneShard r p => OnRemote (rclone_shard_target r p sha)
  end.

(** [ObjectStore::supports], of a node with or without rclone. *)
Definition supports (rclone : bool) (l : StorageLocation) : bool := match l with Local => true | _ => rclone end.

(** ** Storage policies *)

Definition STORAGE_POLICY_KIND : string := "storage_policy".
Definition DEFAULT_POLICY_NAME : string := "default".
Definition STORAGE_POLICY_SCHEMA : Z := 1.
Definition MAX_SHARD_REMOTES : Z := 256.
Definition MAX_D1_BACKUP_POLICIES : Z := 256.

Inductive StorageError : Type :=
| BadBackupName | BadPrefix | BadInterval | BadRetention | BadPolicySchema | TooManyRemotes | BadRemote (r : string) | DuplicateRemote (r : string)
| TooManyBackups | DuplicateBackup (db : string) | NoShards | NotAPolicy | PolicyUnreadable | UnknownPolicy (p : string)
| DescriptionTooLong | BadLocation | ShardLocation | PolicyAndRemote | ZeroQuota | BadLifecycle | TooManyOrigins | BadOrigin | TooManyBucketHostnames
| BadBucketHostname (h : string) | NotABucket | BucketUnreadable | StorageResource (e : ResourceError)
| PolicyInUse | BackupUses (db : string) | BackupDatabaseMissing (db : string) | BackupBucketMissing (b : string) | RemotesInUse (rs : list (string * Z))
| ReferencesUnknown.

Record D1BackupPolicy : Type := mkBackup {
  bk_database : string;
  bk_bucket : string;
  bk_prefix : string;
  interval_hours : Z;
  retention_days : Z;
  bk_suspended : bool
}.

(** [D1BackupPolicy::validate]. *)
Definition validate_backup (b : D1BackupPolicy) : result unit StorageError :=
  if negb (valid_name (bk_database b)) || negb (valid_name (bk_bucket b)) then Err BadBackupName
  else if negb (valid_prefix (bk_prefix b)) then Err BadPrefix
  else if negb ((1 <=? interval_hours b) && (interval_hours b <=? 720)) then Err BadInterval
  else if negb ((1 <=? retention_days b) && (retention_days b <=? 3650)) then Err BadRetention
  else Ok tt.

Inductive NewBucketBackend : Type := BackendLocal | BackendSharded.
#[export] Instance NewBucketBackend_eq_dec : EqDecision NewBucketBackend.
Proof. solve_decision. Defined.

Record StoragePolicy : Type := mkStoragePolicy {
  sp_schema : Z;
  new_bucket_backend : NewBucketBackend;
  shard_remotes : list string;
  shard_prefix : string;
  d1_backups : list D1BackupPolicy
}.
Definition default_storage_policy : StoragePolicy := mkStoragePolicy STORAGE_POLICY_SCHEMA BackendLocal [] "" [].

Fixpoint check_remotes (seen : list string) (l : list string) : result unit StorageError :=
  match l with
  | [] => Ok tt
  | r :: l' =>
      if negb (valid_remote r) then Err (BadRemote r)
      else if bool_decide (r ∈ seen) then Err (DuplicateRemote r) else check_remotes (r :: seen) l'
  end.
Fixpoint check_backups (seen : list string) (l : list D1BackupPolicy) : result unit StorageError :=
  match l with
  | [] => Ok tt
  | b :: l' =>
      let? _ := validate_backup b in
      if bool_decide (bk_database b ∈ seen) then Err (DuplicateBackup (bk_database b)) else check_backups (bk_database b :: seen) l'
  end.

(** [StoragePolicy::validate]. *)
Definition validate_storage_policy (p : StoragePolicy) : result unit StorageError :=
  if negb (sp_schema p =? STORAGE_POLICY_SCHEMA) then Err BadPolicySchema
  else if MAX_SHARD_REMOTES <? Z.of_nat (length (shard_remotes p)) then Err TooManyRemotes
  else
    let? _ := check_remotes [] (shard_remotes p) in
    if negb (valid_prefix (shard_prefix p)) then Err BadPrefix
    else if MAX_D1_BACKUP_POLICIES <? Z.of_nat (length (d1_backups p)) then Err TooManyBackups
    else
      let? _ := check_backups [] (d1_backups p) in
      if bool_decide (new_bucket_backend p = BackendSharded) && bool_decide (shard_remotes p = []) then Err NoShards else Ok tt.

(** [shard_index]: the first four bytes of the digest, big-endian. *)
Definition shard_index (sha : bytes) (remote_count : Z) : option Z :=
  if remote_count =? 0 then None
  else Some (foldl (fun acc b => acc * 256 + b) 0 (take 4 sha) mod remote_count).

(** [resolve], with the current policy. *)
Definition resolve_shard (current : result StoragePolicy StorageError) (policy_name : string) (sha : bytes) : result StorageLocation StorageError :=
  if negb (bool_decide (policy_name = DEFAULT_POLICY_NAME)) then Err (UnknownPolicy policy_name)
  else
    let? policy := current in
    match shard_index sha (Z.of_nat (length (shard_remotes policy))) ≫= fun i => shard_remotes policy !! Z.to_nat i with
    | Some remote => Ok (RcloneShard remote (shard_prefix policy))
    | None => Err NoShards
    end.

(** ** Buckets *)

Definition BUCKET_KIND : string := "r2_bucket".

Record BucketSpec : Type := mkBucketSpec {
  b_description : string;
  public_access : bool;
  storage : StorageLocation;
  storage_policy : option string;
  max_bytes : option Z;
  max_objects : option Z;
  expire_objects_after_days : option Z;
  cors_origins : list string;
  b_hostnames : list string
}.

Definition bad_origin (o : string) : bool :=
  (negb (bool_decide (o = "*")) && negb (starts_with "https://" o || starts_with "http://" o))
  || (512 <? slen o) || contains_byte "013" o || contains_byte "010" o.
Fixpoint check_bucket_hostnames (l : list string) : result unit StorageError :=
  match l with [] => Ok tt | h :: l' => if valid_hostname h then check_bucket_hostnames l' else Err (BadBucketHostname h) end.

(** [BucketSpec::validate] and [uses_local_storage]. *)
Definition validate_bucket (s : BucketSpec) : result unit StorageError :=
  if 2000 <? slen (b_description s) then Err DescriptionTooLong
  else if negb (valid_location (storage s)) then Err BadLocation
  else if match storage s with RcloneShard _ _ => true | _ => false end then Err ShardLocation
  else
    let? _ := match storage_policy s with
              | Some p =>
                  if negb (bool_decide (p = DEFAULT_POLICY_NAME)) then Err (UnknownPolicy p)
                  else if negb (bool_decide (storage s = Local)) then Err PolicyAndRemote else Ok tt
              | None => Ok tt
              end in
    if bool_decide (max_bytes s = Some 0) || bool_decide (max_objects s = Some 0) then Err ZeroQuota
    else if match expire_objects_after_days s with Some d => (d =? 0) || (36500 <? d) | None => false end then Err BadLifecycle
    else if 256 <? Z.of_nat (length (cors_origins s)) then Err TooManyOrigins
    else if existsb bad_origin (cors_origins s) then Err BadOrigin
    else if 64 <? Z.of_nat (length (b_hostnames s)) then Err TooManyBucketHostnames
    else check_bucket_hostnames (b_hostnames s).
Definition uses_local_storage (s : BucketSpec) : bool := bool_decide (storage_policy s = None) && bool_decide (storage s = Local).

(** ** Policies and buckets as platform resources *)

Class StorageJson {json : Json} := {
  policy_to_value : StoragePolicy -> Value;
  policy_from_value : Value -> option StoragePolicy;
  bucket_to_value : BucketSpec -> Value;
  bucket_from_value : Value -> option BucketSpec
}.

Section definitions.
Context {redb : Redb} {crypto : Crypto} {hex : Hex} {json : Json} {st_json : StorageJson}.
Context {pc_env : Postcard Envelope} {pc_resource : Postcard ResourceRecord}.

(** [storage_policy::policy_spec] and [current]; without a policy, or with a deleted one, the default. *)
Definition storage_policy_spec (r : ResourceRecord) : result StoragePolicy StorageError :=
  if negb (bool_decide (r_kind r = STORAGE_POLICY_KIND)) || r_deleted r || negb (bool_decide (r_name r = DEFAULT_POLICY_NAME)) then Err NotAPolicy
  else
    match json_from_str (spec_json r) ≫= policy_from_value with
    | None => Err PolicyUnreadable
    | Some p => let? _ := validate_storage_policy p in Ok p
    end.
Definition current_storage_policy (n : Node) (now_at : string -> Z) : result StoragePolicy StorageError :=
  match head n STORAGE_POLICY_KIND DEFAULT_POLICY_NAME now_at with
  | None => Ok default_storage_policy
  | Some view => if r_deleted (resource view) then Ok default_storage_policy else storage_policy_spec (resource view)
  end.

(** [storage_policy::prepare_after]. *)
Definition backup_le (a b : D1BackupPolicy) : Prop := le_of (bk_database a) (bk_database b).
#[export] Instance backup_le_dec : RelDecision backup_le.
Proof. intros a b. unfold backup_le. apply _. Defined.
Definition normalize_policy (p : StoragePolicy) : StoragePolicy :=
  mkStoragePolicy (sp_schema p) (new_bucket_backend p)
    (filter (fun r => r <> "") (map trim (shard_remotes p))) (trim_byte "/" (shard_prefix p))
    (merge_sort backup_le
      (map (fun b => mkBackup (to_ascii_lowercase (trim (bk_database b))) (to_ascii_lowercase (trim (bk_bucket b))) (trim_byte "/" (bk_prefix b))
                      (interval_hours b) (retention_days b) (bk_suspended b)) (d1_backups p))).
Definition prepare_storage_policy (p : StoragePolicy) (h : option ResourceView) : result ResourceRecord StorageError :=
  let p := normalize_policy p in
  let? _ := validate_storage_policy p in
  match prepare_after STORAGE_POLICY_KIND DEFAULT_POLICY_NAME (policy_to_value p) false h with Ok r => Ok r | Err e => Err (StorageResource e) end.

(** [bucket_spec], [bucket_record], [bucket_records], [prepare_bucket], [prepare_bucket_after]. *)
Definition bucket_spec (r : ResourceRecord) : result BucketSpec StorageError :=
  if negb (bool_decide (r_kind r = BUCKET_KIND)) then Err NotABucket
  else
    match json_from_str (spec_json r) ≫= bucket_from_value with
    | None => Err BucketUnreadable
    | Some s => let? _ := validate_bucket s in Ok s
    end.
Definition bucket_record (n : Node) (name : string) (now_at : string -> Z) : option (ResourceView * BucketSpec) :=
  view ← head n BUCKET_KIND name now_at;
  if r_deleted (resource view) then None
  else match bucket_spec (resource view) with Ok s => Some (view, s) | Err _ => None end.
Definition bucket_records (n : Node) (now_at : string -> Z) : list (ResourceView * BucketSpec) :=
  omap (fun view => match bucket_spec (resource view) with Ok s => Some (view, s) | Err _ => None end)
    (filter (fun view => r_deleted (resource view) = false) (heads n (Some BUCKET_KIND) now_at)).
Definition prepare_bucket_after (name : string) (s : BucketSpec) (deleted : bool) (h : option ResourceView) : result ResourceRecord StorageError :=
  let? _ := validate_bucket s in
  match prepare_after BUCKET_KIND name (bucket_to_value s) deleted h with Ok r => Ok r | Err e => Err (StorageResource e) end.
Definition prepare_bucket (n : Node) (name : string) (s : BucketSpec) (deleted : bool) (now_at : string -> Z) : result ResourceRecord StorageError :=
  let? _ := validate_bucket s in
  match prepare n BUCKET_KIND name (bucket_to_value s) deleted now_at with Ok r => Ok r | Err e => Err (StorageResource e) end.

(** [metadata_database]. *)
Definition metadata_database (bucket : string) : string :=
  ("r2-" ++ stake 32 (hex_encode (sha256 (as_bytes ("r2/" ++ bucket)))))%string.

(** [validate_bucket_admission]. *)
Definition validate_bucket_admission (n : Node) (r : ResourceRecord) (now_at : string -> Z) : result unit StorageError :=
  let? s := bucket_spec r in
  let? _ := if r_deleted r then
              let? p := current_storage_policy n now_at in
              match list_find (fun b => bk_bucket b = r_name r) (d1_backups p) with
              | Some (_, b) => Err (BackupUses (bk_database b))
              | None => Ok tt
              end
            else Ok tt in
  match storage_policy s with
  | Some p => let? _ := resolve_shard (current_storage_policy n now_at) p (replicate 32 0) in Ok tt
  | None => Ok tt
  end.

(** [storage_policy::validate_admission] and [validate_transition]; [references] is what
    [shard_references] counted, or that it failed. *)
Definition validate_policy_admission (n : Node) (r : ResourceRecord) (now_at : string -> Z) : result unit StorageError :=
  if negb (bool_decide (r_kind r = STORAGE_POLICY_KIND)) then Ok tt
  else
    let referenced := existsb (fun vs => bool_decide (storage_policy vs.2 = Some DEFAULT_POLICY_NAME)) (bucket_records n now_at) in
    if r_deleted r then if referenced then Err PolicyInUse else Ok tt
    else
      let? p := storage_policy_spec r in
      if bool_decide (shard_remotes p = []) && referenced then Err PolicyInUse else Ok tt.
Fixpoint check_backup_targets (n : Node) (databases : list string) (now_at : string -> Z) (l : list D1BackupPolicy) : result unit StorageError :=
  match l with
  | [] => Ok tt
  | b :: l' =>
      if negb (bool_decide (bk_database b ∈ databases)) then Err (BackupDatabaseMissing (bk_database b))
      else if bool_decide (bucket_record n (bk_bucket b) now_at = None) then Err (BackupBucketMissing (bk_bucket b))
      else check_backup_targets n databases now_at l'
  end.
Definition removed_remotes (current next : StoragePolicy) : list string := filter (fun r => r ∉ shard_remotes next) (shard_remotes current).
Definition validate_policy_transition (n : Node) (r : ResourceRecord) (databases : list string) (references : option (gmap string Z))
  (now_at : string -> Z) : result unit StorageError :=
  let? _ := validate_policy_admission n r now_at in
  if negb (bool_decide (r_kind r = STORAGE_POLICY_KIND)) || r_deleted r then Ok tt
  else
    let? next := storage_policy_spec r in
    let? _ := check_backup_targets n databases now_at (d1_backups next) in
    let? current := current_storage_policy n now_at in
    let removed := removed_remotes current next in
    if bool_decide (removed = []) then Ok tt
    else
      match references with
      | None => Err ReferencesUnknown
      | Some refs =>
          let in_use := merge_sort le_of (map_to_list (filter (fun rc => rc.1 ∈ removed /\ 0 < rc.2) refs)) in
          if bool_decide (in_use = []) then Ok tt else Err (RemotesInUse in_use)
      end.

(** [default_bucket_policy]. *)
Definition default_bucket_policy (n : Node) (now_at : string -> Z) : result (option string) StorageError :=
  let? p := current_storage_policy n now_at in
  Ok (if bool_decide (new_bucket_backend p = BackendSharded) then Some DEFAULT_POLICY_NAME else None).
End definitions.
