(* ===== verification/Quota.v ===== *)
(** * Quota: the cluster's quota policy (crates/rf/src/quota.rs)

    The limits an operator signs for the whole cluster, as a platform resource. *)

From Stdlib Require Import ZArith Lia Ascii.
From stdpp Require Import prelude gmap sorting strings list.
From S2P Require Import Prelude Text Hlc Identity Envelope Kv Cron Claim Manifest Quorum DataAudit Observability Store Node NodeFacts Resource.
Open Scope Z_scope.

Definition POLICY_KIND : string := "cluster_policy".
Definition POLICY_NAME : string := "default".
Definition POLICY_SCHEMA : Z := 1.

Record ClusterQuotaPolicy : Type := mkQuota {
  q_schema : Z;
  max_workers : Z;
  max_custom_hostnames : Z;
  max_worker_bytes : Z;
  max_requests_per_minute : Z;
  worker_outbound_allowed : bool;
  max_r2_local_bytes : Z;
  max_r2_objects : Z
}.
Definition default_quota : ClusterQuotaPolicy := mkQuota POLICY_SCHEMA 50 10 50000000 10000 true (1024 * 1024 * 1024) 10000.

Inductive QuotaError : Type :=
| BadQuotaSchema | BadMaxWorkers | BadMaxHostnames | BadMaxBytes | BadMaxRequests | BadMaxR2Bytes | BadMaxR2Objects
| NotAQuota | QuotaUnreadable | QuotaResource (e : ResourceError).

Definition outside (hi x : Z) : bool := (x =? 0) || (hi <? x).

(** [ClusterQuotaPolicy::validate]. *)
Definition validate_quota (q : ClusterQuotaPolicy) : result unit QuotaError :=
  if negb (q_schema q =? POLICY_SCHEMA) then Err BadQuotaSchema
  else if outside 1000000 (max_workers q) then Err BadMaxWorkers
  else if outside 1000000 (max_custom_hostnames q) then Err BadMaxHostnames
  else if outside (8 * 1024 * 1024 * 1024) (max_worker_bytes q) then Err BadMaxBytes
  else if outside 1000000000 (max_requests_per_minute q) then Err BadMaxRequests
  else if outside (2 ^ 63 - 1) (max_r2_local_bytes q) then Err BadMaxR2Bytes
  else if outside (2 ^ 63 - 1) (max_r2_objects q) then Err BadMaxR2Objects
  else Ok tt.

(** [worker_bytes]; [sum] wraps around. *)
Definition worker_bytes (m : WorkerManifest) : Z :=
  foldr (wadd 64) 0 (map mod_size (modules m) ++ map asset_size (assets m)).

Class QuotaJson {json : Json} := {
  quota_to_value : ClusterQuotaPolicy -> Value;
  quota_from_value : Value -> option ClusterQuotaPolicy
}.

Section definitions.
Context {redb : Redb} {crypto : Crypto} {hex : Hex} {json : Json} {q_json : QuotaJson}.
Context {pc_env : Postcard Envelope} {pc_resource : Postcard ResourceRecord}.

(** [policy_spec], [policy], [prepare_after]. *)
Definition quota_spec (r : ResourceRecord) : result ClusterQuotaPolicy QuotaError :=
  if negb (bool_decide (r_kind r = POLICY_KIND)) || negb (bool_decide (r_name r = POLICY_NAME)) then Err NotAQuota
  else
    match json_from_str (spec_json r) ≫= quota_from_value with
    | None => Err QuotaUnreadable
    | Some q => let? _ := validate_quota q in Ok q
    end.
Definition quota_policy (n : Node) (now_at : string -> Z) : result ClusterQuotaPolicy QuotaError :=
  match head n POLICY_KIND POLICY_NAME now_at with
  | None => Ok default_quota
  | Some view => if r_deleted (resource view) then Ok default_quota else quota_spec (resource view)
  end.
Definition prepare_quota (q : ClusterQuotaPolicy) (h : option ResourceView) : result ResourceRecord QuotaError :=
  let? _ := validate_quota q in
  match prepare_after POLICY_KIND POLICY_NAME (quota_to_value q) false h with Ok r => Ok r | Err e => Err (QuotaResource e) end.
End definitions.
