(* ===== verification/R2.v ===== *)
(** * R2: buckets of objects (crates/rf/src/r2.rs)

    The metadata of a bucket is in its replicated database ([Tables]); bytes are
    content-addressed, in the object roots of nodes or on remotes ([blobs]).  [RStmt] has the
    statements of the module and the writes of the object store, [rrun] their meaning;
    the operations are scripts, on a node with the definitions it knows ([View]).

    Requests forwarded to other nodes are questions with any answer: the other node runs the operation as
    a script of its own.  MD5 and [serde_json] are third-party code. *)

From Stdlib Require Import ZArith Lia Ascii SpecFloat.
From stdpp Require Import prelude gmap sorting strings list pretty.
From S2P Require Import Prelude Text Json Script Hlc Identity Envelope Kv Cron Claim Manifest Quorum DataAudit Observability Store Node NodeFacts Resource Storage Quota.
Open Scope Z_scope.

Definition MAX_OBJECT_KEY_BYTES : Z := 1024.
Definition MAX_LIST_LIMIT : Z := 1000.
Definition MAX_DIRECT_OBJECT_BYTES : Z := 5 * 1024 * 1024 * 1024.
Definition MAX_MULTIPART_PART_BYTES : Z := 5 * 1024 * 1024 * 1024.
Definition MAX_MULTIPART_OBJECT_BYTES : Z := 5 * 1024 * 1024 * 1024 * 1024 - MAX_MULTIPART_PART_BYTES.
Definition MIN_MULTIPART_PART_BYTES : Z := 5 * 1024 * 1024.
Definition MAX_BUFFERED_OBJECT_BYTES : Z := 63 * 1024 * 1024.
Definition MAX_BUFFERED_PART_BYTES : Z := 63 * 1024 * 1024.
Definition MAX_MULTIPART_PARTS : Z := 10000.
Definition MULTIPART_TTL_MS : Z := 7 * 24 * 60 * 60 * 1000.
Definition ORPHAN_GRACE_MS : Z := 24 * 60 * 60 * 1000.
Definition MAX_PUT_OPTIONS_BYTES : Z := 32 * 1024.

Inductive R2Error : Type :=
| BadKey | BadUploadId | BadPartNumber | BadParts | BadContentType | MetadataTooLarge | ObjectTooLarge | PartTooLarge | NoBucket
| StorageFailed (e : StorageError) | NoStoragePeer | NotReplicated (stored required : Z) | QuotaInvalid (e : QuotaError) | LocalQuota (bytes : Z)
| ObjectQuota (objects : Z) | BucketQuota | UploadMissing | UploadExpired | UploadGone | PartMissing (n : Z) | EtagMismatch (n : Z)
| PartTooSmall (n : Z) | UnevenParts | LastPartTooLarge | MultipartTooLarge | PartSize (n : Z) | PartDigest (n : Z) | BlobMissing
| DigestMismatch | SizeMismatch | BorrowFailed | ListArguments | BadDelimiter | OptionsTooLarge | Truncated | BadLength | BadOptions | R2Unavailable.
#[export] Instance r2_unavailable : Script.Unavailable R2Error := R2Unavailable.

(** ** The tables *)

Record ObjectMeta : Type := mkMeta {
  o_key : string;
  o_sha256 : string;
  o_size : Z;
  o_etag : string;
  o_content_type : option string;
  o_custom_metadata : list (string * J);
  o_http_metadata : list (string * J);
  o_storage : StorageLocation;
  o_uploaded_at_ms : Z
}.

Record PutOptions : Type := mkOptions {
  content_type : option string;
  custom_metadata : list (string * J);
  http_metadata : list (string * J)
}.

Record Upload : Type := mkUpload {
  u_key : string;
  u_options : PutOptions;
  u_storage : StorageLocation;
  u_storage_policy : option string;
  u_created_at_ms : Z;
  u_expires_at_ms : Z
}.

Record Part : Type := mkPart {
  p_sha256 : string;
  p_size : Z;
  p_etag : string;
  p_storage : StorageLocation;
  p_uploaded_at_ms : Z
}.

Record Orphan : Type := mkOrphan { x_size : Z; eligible_at_ms : Z }.

Record Tables : Type := mkTables {
  objects : gmap string ObjectMeta;
  uploads : gmap string Upload;
  parts : gmap (string * Z) Part;
  orphans : gmap (string * StorageLocation) Orphan
}.
Definition no_tables : Tables := mkTables ∅ ∅ ∅ ∅.

(** The databases of all buckets and the bytes of all stores. *)
Record Stores : Type := mkStores {
  databases : gmap string Tables;
  blobs : gmap Place bytes
}.
Definition bucket_tables (d : Stores) (b : string) : Tables := default no_tables (databases d !! b).
Definition set_tables (d : Stores) (b : string) (t : Tables) : Stores := mkStores (<[b := t]> (databases d)) (blobs d).
Definition set_objects (t : Tables) m := mkTables m (uploads t) (parts t) (orphans t).
Definition set_uploads (t : Tables) m := mkTables (objects t) m (parts t) (orphans t).
Definition set_parts (t : Tables) m := mkTables (objects t) (uploads t) m (orphans t).
Definition set_orphans (t : Tables) m := mkTables (objects t) (uploads t) (parts t) m.
Definition set_blobs (d : Stores) m := mkStores (databases d) m.

(** [SELECT COALESCE(SUM(size), 0) FROM objects]. *)
Definition total_size (m : gmap string ObjectMeta) : Z := map_fold (fun _ o acc => o_size o + acc) 0 m.
Definition object_count (m : gmap string ObjectMeta) : Z := Z.of_nat (size m).

Inductive RStmt : Type :=
| IndexObject (b : string) (o : ObjectMeta) (max_bytes max_objects : Z)
| DeleteObject (b key : string)
| DeleteVersion (b key sha : string) (uploaded_at : Z)
| InsertUpload (b id : string) (u : Upload)
| IndexPart (b id : string) (n : Z) (p : Part) (key : string)
| DeleteParts (b id : string)
| DeleteUpload (b id key : string)
| ScheduleOrphan (b sha : string) (l : StorageLocation) (size eligible : Z)
| RemoveOrphan (b sha : string) (l : StorageLocation)
| PutBlob (p : Place) (content : bytes)
| PutFile (p : Place) (content : bytes)
| DropBlob (p : Place).

(** The condition of the [INSERT .. SELECT .. WHERE] of an object. *)
Definition fits (m : gmap string ObjectMeta) (o : ObjectMeta) (max_bytes max_objects : Z) : bool :=
  ((max_bytes =? 0) || (total_size m - match m !! o_key o with Some x => o_size x | None => 0 end + o_size o <=? max_bytes))
  && ((max_objects =? 0) || bool_decide (is_Some (m !! o_key o)) || (object_count m <? max_objects)).

Definition upload_open (t : Tables) (id key : string) (now : Z) : bool :=
  match uploads t !! id with Some u => bool_decide (u_key u = key) && (now <? u_expires_at_ms u) | None => false end.

Definition schedule (t : Tables) (sha : string) (l : StorageLocation) (size eligible : Z) : Tables :=
  set_orphans t (<[(sha, l) := match orphans t !! (sha, l) with
                               | Some x => mkOrphan (x_size x) (Z.max (eligible_at_ms x) eligible)
                               | None => mkOrphan size eligible
                               end]> (orphans t)).

Section statements.
Context {crypto : Crypto}.

(** [put_local] keeps a file that exists; [put_file_verified] replaces one whose digest or size differs; a remote is overwritten. *)
Definition put_blob (m : gmap Place bytes) (p : Place) (content : bytes) : gmap Place bytes :=
  match p, m !! p with OnNode _ _, Some _ => m | _, _ => <[p := content]> m end.
Definition put_file (m : gmap Place bytes) (p : Place) (content : bytes) : gmap Place bytes :=
  match p, m !! p with
  | OnNode _ _, Some c => if bool_decide (sha256 c = sha256 content) && bool_decide (length c = length content) then m else <[p := content]> m
  | _, _ => <[p := content]> m
  end.

(** One statement: the stores after it and the rows affected; [None] when a constraint fails. *)
Definition rrun (d : Stores) (s : RStmt) : option (Stores * Z) :=
  match s with
  | IndexObject b o mb mo =>
      let t := bucket_tables d b in
      Some (if fits (objects t) o mb mo then (set_tables d b (set_objects t (<[o_key o := o]> (objects t))), 1) else (d, 0))
  | DeleteObject b key =>
      let t := bucket_tables d b in
      Some (match objects t !! key with Some _ => (set_tables d b (set_objects t (delete key (objects t))), 1) | None => (d, 0) end)
  | DeleteVersion b key sha at_ms =>
      let t := bucket_tables d b in
      Some (match objects t !! key with
            | Some o => if bool_decide (o_sha256 o = sha) && (o_uploaded_at_ms o =? at_ms)
                        then (set_tables d b (set_objects t (delete key (objects t))), 1) else (d, 0)
            | None => (d, 0)
            end)
  | InsertUpload b id u =>
      let t := bucket_tables d b in
      match uploads t !! id with Some _ => None | None => Some (set_tables d b (set_uploads t (<[id := u]> (uploads t))), 1) end
  | IndexPart b id n p key =>
      let t := bucket_tables d b in
      if negb (upload_open t id key (p_uploaded_at_ms p)) then Some (d, 0)
      else if (1 <=? n) && (n <=? MAX_MULTIPART_PARTS) then Some (set_tables d b (set_parts t (<[(id, n) := p]> (parts t))), 1)
      else None
  | DeleteParts b id =>
      let t := bucket_tables d b in
      let kept := filter (fun kp => kp.1.1 <> id) (parts t) in
      Some (set_tables d b (set_parts t kept), Z.of_nat (size (parts t)) - Z.of_nat (size kept))
  | DeleteUpload b id key =>
      let t := bucket_tables d b in
      Some (match uploads t !! id with
            | Some u => if bool_decide (u_key u = key) then (set_tables d b (set_uploads t (delete id (uploads t))), 1) else (d, 0)
            | None => (d, 0)
            end)
  | ScheduleOrphan b sha l size eligible => Some (set_tables d b (schedule (bucket_tables d b) sha l size eligible), 1)
  | RemoveOrphan b sha l =>
      let t := bucket_tables d b in
      Some (match orphans t !! (sha, l) with Some _ => (set_tables d b (set_orphans t (delete (sha, l) (orphans t))), 1) | None => (d, 0) end)
  | PutBlob p content => Some (set_blobs d (put_blob (blobs d) p content), 1)
  | PutFile p content => Some (set_blobs d (put_file (blobs d) p content), 1)
  | DropBlob p => Some (set_blobs d (delete p (blobs d)), 1)
  end.
End statements.

(** ** Validation *)

Definition is_hexdigit (c : ascii) : bool := is_ascii_digit c || between 65 70 c || between 97 102 c.

(** [validate_key], [validate_upload_id], [validate_published_parts], [validate_metadata]. *)
Definition validate_key (key : string) : result unit R2Error :=
  if is_empty key || (MAX_OBJECT_KEY_BYTES <? slen key) || contains_byte "000" key || contains_byte "013" key || contains_byte "010" key
  then Err BadKey else Ok tt.
Definition validate_upload_id (id : string) : result unit R2Error :=
  if negb (slen id =? 40) || negb (all_bytes is_hexdigit id) then Err BadUploadId else Ok tt.
Record PublishedPart : Type := mkPublished { part_number : Z; pub_etag : string }.
Fixpoint check_published (previous : Z) (l : list PublishedPart) : result unit R2Error :=
  match l with
  | [] => Ok tt
  | p :: l' =>
      if negb ((1 <=? part_number p) && (part_number p <=? MAX_MULTIPART_PARTS)) || (part_number p <=? previous) || (256 <? slen (pub_etag p)) then Err BadParts
      else check_published (part_number p) l'
  end.
Definition validate_published_parts (l : list PublishedPart) : result unit R2Error :=
  if bool_decide (l = []) || (MAX_MULTIPART_PARTS <? Z.of_nat (length l)) then Err BadParts else check_published 0 l.

(** [constant_time_string_eq]. *)
Fixpoint xor_all (l m : bytes) : Z := match l, m with a :: l', b :: m' => Z.lor (Z.lxor a b) (xor_all l' m') | _, _ => 0 end.
Definition constant_time_string_eq (a b : string) : bool := (slen a =? slen b) && (xor_all (as_bytes a) (as_bytes b) =? 0).

Section metadata.
Context {serde : SerdeJson}.
Definition validate_metadata (o : PutOptions) : result unit R2Error :=
  if match content_type o with Some v => (512 <? slen v) || contains_byte "013" v || contains_byte "010" v | None => false end then Err BadContentType
  else if (8 * 1024 <? slen (to_text (JObj (custom_metadata o)))) || (8 * 1024 <? slen (to_text (JObj (http_metadata o)))) then Err MetadataTooLarge
  else Ok tt.
End metadata.

(** [escape_like]. *)
Definition like_special (c : ascii) : bool := bool_decide (c ∈ ["\"; "%"; "_"]%char).
Fixpoint escape_like (prefix : string) : string :=
  match prefix with
  | EmptyString => EmptyString
  | String c s => if like_special c then String "\" (String c (escape_like s)) else String c (escape_like s)
  end.

(** The [LIKE] of SQLite with [ESCAPE '\']: ASCII letters match in either case. *)
Definition same_letter (c d : ascii) : bool := bool_decide (lower c = lower d).
Fixpoint skip_continuation (s : string) : string :=
  match s with String c s' => if is_continuation c then skip_continuation s' else s | EmptyString => EmptyString end.
Fixpoint like (p s : string) : bool :=
  match p with
  | EmptyString => is_empty s
  | String "%" p' => (fix any (s : string) : bool := like p' s || match s with EmptyString => false | String _ s' => any s' end) s
  | String "\" (String c p') => match s with String d s' => same_letter c d && like p' s' | EmptyString => false end
  | String "\" EmptyString => false
  | String "_" p' => match s with String _ s' => like p' (skip_continuation s') | EmptyString => false end
  | String c p' => match s with String d s' => same_letter c d && like p' s' | EmptyString => false end
  end.

(** ** The node an operation runs on *)

Record Peer : Type := mkPeer { peer_id : string; has_api : bool; has_rclone : bool }.

(** What a node knows while an operation runs: the heads of bucket resources with their deletion flag, the policies,
    the data group of each bucket's database, and its peers. *)
Record View : Type := mkNodeView {
  v_node : string;
  v_rclone : bool;
  v_buckets : list (string * (bool * BucketSpec));
  v_policy : result StoragePolicy StorageError;
  v_quota : result ClusterQuotaPolicy QuotaError;
  v_group : string -> list string;
  v_peers : list Peer
}.
Definition live_bucket (v : View) (b : string) : option BucketSpec :=
  match list_find (fun e => e.1 = b) (v_buckets v) with
  | Some (_, (_, (false, s))) => Some s
  | _ => None
  end.
Definition live_buckets (v : View) : list (string * BucketSpec) := omap (fun e => if e.2.1 : bool then None else Some (e.1, e.2.2)) (v_buckets v).
Definition storage_peers (v : View) : list string := map peer_id (filter (fun p => has_rclone p && has_api p = true) (v_peers v)).
Definition api_of (v : View) (member : string) : bool :=
  match list_find (fun p => peer_id p = member) (v_peers v) with Some (_, p) => has_api p | None => false end.

Section node_view.
Context {redb : Redb} {crypto : Crypto} {hex : Hex} {json : Json} {st_json : StorageJson} {q_json : QuotaJson}.
Context {pc_env : Postcard Envelope} {pc_resource : Postcard ResourceRecord}.
Definition node_view (n : Node) (id : string) (rclone : bool) (group : string -> list string) (peers : list Peer) (now_at : string -> Z) : View :=
  mkNodeView id rclone
    (omap (fun view => match bucket_spec (resource view) with Ok s => Some (r_name (resource view), (r_deleted (resource view), s)) | Err _ => None end)
       (heads n (Some BUCKET_KIND) now_at))
    (current_storage_policy n now_at) (quota_policy n now_at) group peers.
End node_view.

(** ** Questions to other nodes *)

Inductive RQuestion : Type :=
| QPut (peer b key : string) (content : bytes) (o : PutOptions)
| QPart (peer b key id : string) (n : Z) (content : bytes)
| QComplete (peer b key id : string) (l : list PublishedPart)
| QStream (peer b key sha : string).
Inductive RAnswer : Type :=
| GotMeta (m : ObjectMeta)
| GotPart (n : Z) (etag : string) (size : Z)
| GotBytes (content : bytes)
| GotNothing
| GotError.

Notation ROp A := (Script Stores RStmt RQuestion RAnswer R2Error A).
#[local] Notation "'let!' x := m 'in' k" := (Script.bind m (fun x => k)) (at level 200, x pattern, m at level 100, k at level 200).

Record UploadedPart : Type := mkUploaded { up_number : Z; up_etag : string; up_size : Z }.

(** [ensure_schema]: the tables exist; creating them again changes nothing but may fail. *)
Definition r2_ensure_schema : ROp unit := select (fun _ => tt).

Class Md5 := md5 : bytes -> bytes.

Section operations.
Context {crypto : Crypto} {hex : Hex} {serde : SerdeJson} {md : Md5}.

Definition digest_hex (content : bytes) : string := hex_encode (sha256 content).
Definition md5_hex (content : bytes) : string := hex_encode (md5 content).
Definition blen (content : bytes) : Z := Z.of_nat (length content).

Definition known_bucket (v : View) (b : string) : ROp BucketSpec :=
  match live_bucket v b with Some s => ret s | None => fail NoBucket end.
Definition storage_check {A} (r : result A StorageError) : ROp A := match r with Ok a => ret a | Err e => fail (StorageFailed e) end.

(** [resolve_write_storage], [resolve_multipart_storage], [validate_write_backend]. *)
Definition resolve_storage (v : View) (l : StorageLocation) (policy : option string) (sha : bytes) : result StorageLocation StorageError :=
  match policy with Some p => resolve_shard (v_policy v) p sha | None => Ok l end.
Definition validate_write_backend (v : View) (s : BucketSpec) : ROp unit :=
  let! l := storage_check (resolve_storage v (storage s) (storage_policy s) (replicate 32 0)) in
  guard (supports (v_rclone v) l || existsb (fun p => has_api p && has_rclone p) (v_peers v)) NoStoragePeer.

(** [schedule_orphan], [schedule_orphan_parts]. *)
Definition schedule_orphan_parts (b sha : string) (size : Z) (l : StorageLocation) : ROp unit :=
  let! now := now_ms in
  let! _ := exec (ScheduleOrphan b sha l size (sat_add 64 now ORPHAN_GRACE_MS)) in
  ret tt.
Definition schedule_orphan (b : string) (o : ObjectMeta) : ROp unit := schedule_orphan_parts b (o_sha256 o) (o_size o) (o_storage o).

(** [head_object], [bucket_usage]. *)
Definition head_object (v : View) (b key : string) : ROp (option ObjectMeta) :=
  let! _ := check (validate_key key) in
  let! _ := known_bucket v b in
  let! _ := r2_ensure_schema in
  select (fun d => objects (bucket_tables d b) !! key).
Definition bucket_usage (v : View) (b : string) : ROp (Z * Z) :=
  let! _ := known_bucket v b in
  let! _ := r2_ensure_schema in
  select (fun d => (total_size (objects (bucket_tables d b)), object_count (objects (bucket_tables d b)))).

(** [quota::usage] (bytes in local storage and objects) and [quota::validate_r2_write]. *)
Fixpoint r2_usage (v : View) (l : list (string * BucketSpec)) (local_bytes objects : Z) : ROp (Z * Z) :=
  match l with
  | [] => ret (local_bytes, objects)
  | (b, s) :: l' =>
      let! (bytes, count) := bucket_usage v b in
      r2_usage v l' (if uses_local_storage s then sat_add 64 local_bytes bytes else local_bytes) (sat_add 64 objects count)
  end.
Definition validate_r2_write (v : View) (b : string) (previous : option ObjectMeta) (incoming : Z) : ROp unit :=
  let! quota := match v_quota v with Ok q => ret q | Err e => fail (QuotaInvalid e) end in
  let! (local_bytes, count) := r2_usage v (live_buckets v) 0 0 in
  let! s := known_bucket v b in
  let objects := sat_add 64 count (match previous with None => 1 | Some _ => 0 end) in
  let bytes := if uses_local_storage s
               then sat_add 64 (sat_sub local_bytes (match previous with Some o => o_size o | None => 0 end)) incoming else local_bytes in
  let! _ := guard (bytes <=? max_r2_local_bytes quota) (LocalQuota bytes) in
  guard (objects <=? max_r2_objects quota) (ObjectQuota objects).

(** [replicate_local_blob] and [replicate_local_blob_file]: the copies needed are a majority of the data group. *)
Fixpoint replicate_to (v : View) (put : Place -> bytes -> RStmt) (sha : string) (content : bytes) (required : nat) (stored : gset string)
  (members : list string) : ROp (gset string) :=
  match members with
  | [] => ret stored
  | m :: members' =>
      if (required <=? size stored)%nat then ret stored
      else if bool_decide (m = v_node v) || negb (api_of v m) then replicate_to v put sha content required stored members'
      else
        let! r := catch (exec (put (OnNode m sha) content)) in
        replicate_to v put sha content required (match r with Ok _ => {[m]} ∪ stored | Err _ => stored end) members'
  end.
Definition replicate_blob (v : View) (put : Place -> bytes -> RStmt) (b sha : string) (content : bytes) : ROp unit :=
  let group := v_group v b in
  let required := (length group / 2 + 1)%nat in
  let! stored := replicate_to v put sha content required (if bool_decide (v_node v ∈ group) then {[v_node v]} else ∅) group in
  guard (required <=? size stored)%nat (NotReplicated (Z.of_nat (size stored)) (Z.of_nat required)).

(** [index_committed_object]. *)
Definition index_committed_object (b key sha : string) (size : Z) (etag : string) (l : StorageLocation) (o : PutOptions) (s : BucketSpec)
  (previous : option ObjectMeta) : ROp ObjectMeta :=
  let! now := now_ms in
  let meta := mkMeta key sha size etag (content_type o) (custom_metadata o) (http_metadata o) l now in
  let! n := exec (IndexObject b meta (default 0 (max_bytes s)) (default 0 (max_objects s))) in
  let! _ := guard (n =? 1) BucketQuota in
  let! _ := match previous with
            | Some p => if bool_decide (o_sha256 p = sha) then ret tt else schedule_orphan b p
            | None => ret tt
            end in
  ret meta.

(** [forward_put_to_storage_peer] and its variants: the peers in turn until one answers. *)
Fixpoint forward {A} (ask : string -> RQuestion) (accept : RAnswer -> option A) (peers : list string) : ROp A :=
  match peers with
  | [] => fail NoStoragePeer
  | p :: peers' => Ask (ask p) (fun a => match accept a with Some x => ret x | None => forward ask accept peers' end)
  end.
Definition meta_answer (a : RAnswer) : option ObjectMeta := match a with GotMeta m => Some m | _ => None end.
Definition part_answer (a : RAnswer) : option UploadedPart := match a with GotPart n e z => Some (mkUploaded n e z) | _ => None end.

(** [commit_object] and [put_object]. *)
Definition commit_object (v : View) (b key : string) (content : bytes) (o : PutOptions) : ROp ObjectMeta :=
  let! s := known_bucket v b in
  let sha := digest_hex content in
  let! l := storage_check (resolve_storage v (storage s) (storage_policy s) (sha256 content)) in
  if negb (supports (v_rclone v) l) then forward (fun p => QPut p b key content o) meta_answer (storage_peers v)
  else
    let! _ := r2_ensure_schema in
    let! previous := head_object v b key in
    let! _ := validate_r2_write v b previous (blen content) in
    let! _ := exec (PutBlob (place (v_node v) l sha) content) in
    let! _ := if bool_decide (l = Local) then replicate_blob v PutBlob b sha content else ret tt in
    index_committed_object b key sha (blen content) (md5_hex content) l o s previous.
Definition put_object (v : View) (b key : string) (content : bytes) (o : PutOptions) : ROp ObjectMeta :=
  let! _ := check (validate_key key) in
  let! _ := check (validate_metadata o) in
  let! _ := guard (blen content <=? MAX_BUFFERED_OBJECT_BYTES) ObjectTooLarge in
  commit_object v b key content o.

(** [commit_object_file] and [put_object_file], of a staged file with this content. *)
Definition commit_object_file (v : View) (b key : string) (content : bytes) (etag : string) (o : PutOptions) : ROp ObjectMeta :=
  let! s := known_bucket v b in
  let sha := digest_hex content in
  let! l := storage_check (resolve_storage v (storage s) (storage_policy s) (sha256 content)) in
  if negb (supports (v_rclone v) l) then forward (fun p => QPut p b key content o) meta_answer (storage_peers v)
  else
    let! _ := r2_ensure_schema in
    let! previous := head_object v b key in
    let! _ := validate_r2_write v b previous (blen content) in
    let! _ := guard (valid_location l) (StorageFailed BadLocation) in
    let! _ := exec (PutFile (place (v_node v) l sha) content) in
    let! _ := if bool_decide (l = Local) then replicate_blob v PutFile b sha content else ret tt in
    index_committed_object b key sha (blen content) etag l o s previous.
Definition put_object_file (v : View) (b key : string) (content : bytes) (o : PutOptions) : ROp ObjectMeta :=
  let! _ := check (validate_key key) in
  let! _ := check (validate_metadata o) in
  let! _ := guard (blen content <=? MAX_DIRECT_OBJECT_BYTES) ObjectTooLarge in
  commit_object_file v b key content (md5_hex content) o.

(** [delete_object]. *)
Definition delete_object (v : View) (b key : string) : ROp bool :=
  let! _ := check (validate_key key) in
  let! _ := known_bucket v b in
  let! _ := r2_ensure_schema in
  let! previous := head_object v b key in
  let! n := exec (DeleteObject b key) in
  let! _ := match previous with Some p => if 0 <? n then schedule_orphan b p else ret tt | None => ret tt end in
  ret (0 <? n).

(** [create_multipart_upload], [multipart_row], [index_uploaded_part]. *)
Definition create_multipart_upload (v : View) (b key : string) (o : PutOptions) : ROp string :=
  let! _ := check (validate_key key) in
  let! _ := check (validate_metadata o) in
  let! s := known_bucket v b in
  let! _ := validate_write_backend v s in
  let! _ := r2_ensure_schema in
  let! id := Draw (fun i => ret i) in
  let! now := now_ms in
  let! created := now_ms in
  let! _ := exec (InsertUpload b id (mkUpload key o (storage s) (storage_policy s) created (sat_add 64 now MULTIPART_TTL_MS))) in
  ret id.
Definition multipart_row (b key id : string) : ROp Upload :=
  let! u := select (fun d => uploads (bucket_tables d b) !! id) in
  match u with
  | Some u => if bool_decide (u_key u = key) then ret u else fail UploadMissing
  | None => fail UploadMissing
  end.
Definition index_uploaded_part (b key id : string) (n : Z) (sha etag : string) (size : Z) (l : StorageLocation) : ROp UploadedPart :=
  let! now := now_ms in
  let! r := exec (IndexPart b id n (mkPart sha size etag l now) key) in
  let! _ := guard (r =? 1) UploadGone in
  ret (mkUploaded n etag size).

(** [upload_part] and [upload_part_file]: the same but for the bound and the way the bytes are stored. *)
Definition upload_part_with (bound : Z) (put : Place -> bytes -> RStmt) (checked : bool) (v : View) (b key id : string) (n : Z) (content : bytes) :
  ROp UploadedPart :=
  let! _ := check (validate_key key) in
  let! _ := check (validate_upload_id id) in
  let! _ := guard ((1 <=? n) && (n <=? MAX_MULTIPART_PARTS)) BadPartNumber in
  let! _ := guard (blen content <=? bound) PartTooLarge in
  let! _ := r2_ensure_schema in
  let! u := multipart_row b key id in
  let! now := now_ms in
  let! _ := guard (now <? u_expires_at_ms u) UploadExpired in
  let sha := digest_hex content in
  let! l := storage_check (resolve_storage v (u_storage u) (u_storage_policy u) (sha256 content)) in
  if negb (supports (v_rclone v) l) then forward (fun p => QPart p b key id n content) part_answer (storage_peers v)
  else
    let! _ := guard (negb checked || valid_location l) (StorageFailed BadLocation) in
    let! _ := exec (put (place (v_node v) l sha) content) in
    index_uploaded_part b key id n sha (md5_hex content) (blen content) l.
Definition upload_part := upload_part_with MAX_BUFFERED_PART_BYTES PutBlob false.
Definition upload_part_file := upload_part_with MAX_MULTIPART_PART_BYTES PutFile true.

(** [materialize_verified] of the object store: the bytes at a place, when their digest is right. *)
Definition materialize_verified (v : View) (l : StorageLocation) (sha : string) : ROp bytes :=
  let! _ := guard (valid_location l && supports (v_rclone v) l) BlobMissing in
  let! c := select (fun d => blobs d !! place (v_node v) l sha) in
  match c with
  | Some c => if bool_decide (digest_hex c = sha) then ret c else fail DigestMismatch
  | None => fail BlobMissing
  end.

(** The loop of [complete_multipart_upload]: what was assembled so far, the digests of the parts, the parts consumed. *)
Record Assembly : Type := mkAssembly {
  a_content : bytes;
  a_size : Z;
  a_digests : bytes;
  a_regular : option Z;
  a_consumed : list (string * Z * StorageLocation)
}.
Definition check_part_size (last : bool) (regular : option Z) (n size : Z) : result (option Z) R2Error :=
  if last then
    match regular with Some e => if e <? size then Err LastPartTooLarge else Ok regular | None => Ok regular end
  else if size <? MIN_MULTIPART_PART_BYTES then Err (PartTooSmall n)
  else match regular with Some e => if e =? size then Ok regular else Err UnevenParts | None => Ok (Some size) end.
Fixpoint assemble (v : View) (b id : string) (acc : Assembly) (l : list PublishedPart) : ROp Assembly :=
  match l with
  | [] => ret acc
  | pub :: l' =>
      let n := part_number pub in
      let! row := select (fun d => parts (bucket_tables d b) !! (id, n)) in
      match row with
      | None => fail (PartMissing n)
      | Some p =>
          let! _ := guard (constant_time_string_eq (p_etag p) (trim_byte "034" (pub_etag pub))) (EtagMismatch n) in
          let! regular := check (check_part_size (bool_decide (l' = [])) (a_regular acc) n (p_size p)) in
          let size := a_size acc + p_size p in
          let! _ := guard (size <=? MAX_MULTIPART_OBJECT_BYTES) MultipartTooLarge in
          let! content := materialize_verified v (p_storage p) (p_sha256 p) in
          let! _ := guard (blen content =? p_size p) (PartSize n) in
          let! _ := guard (negb (slen (p_etag p) =? 32) || constant_time_string_eq (p_etag p) (md5_hex content)) (PartDigest n) in
          assemble v b id (mkAssembly (a_content acc ++ content) size (a_digests acc ++ md5 content) regular
                             (a_consumed acc ++ [(p_sha256 p, p_size p, p_storage p)])) l'
      end
  end.
Definition multipart_requires_rclone (u : Upload) : bool :=
  bool_decide (is_Some (u_storage_policy u)) || negb (bool_decide (u_storage u = Local)).
Fixpoint each {A} (f : A -> ROp unit) (l : list A) : ROp unit :=
  match l with [] => ret tt | x :: l' => let! _ := f x in each f l' end.

(** [complete_multipart_upload], [abort_multipart_upload]. *)
Definition complete_multipart_upload (v : View) (b key id : string) (l : list PublishedPart) : ROp ObjectMeta :=
  let! _ := check (validate_key key) in
  let! _ := check (validate_upload_id id) in
  let! _ := check (validate_published_parts l) in
  let! _ := r2_ensure_schema in
  let! u := multipart_row b key id in
  let! now := now_ms in
  let! _ := guard (now <? u_expires_at_ms u) UploadExpired in
  if multipart_requires_rclone u && negb (v_rclone v) then forward (fun p => QComplete p b key id l) meta_answer (storage_peers v)
  else
    let! a := assemble v b id (mkAssembly [] 0 [] None []) l in
    let etag := (hex_encode (md5 (a_digests a)) ++ "-" ++ pretty (Z.of_nat (length l)))%string in
    let! meta := commit_object_file v b key (a_content a) etag (u_options u) in
    let! _ := exec (DeleteParts b id) in
    let! _ := exec (DeleteUpload b id key) in
    let! _ := each (fun x => schedule_orphan_parts b x.1.1 x.1.2 x.2) (a_consumed a) in
    ret meta.
Definition parts_of (d : Stores) (b id : string) : list Part :=
  map snd (filter (fun kp => kp.1.1 = id) (map_to_list (parts (bucket_tables d b)))).
Definition abort_multipart_upload (b key id : string) : ROp unit :=
  let! _ := check (validate_key key) in
  let! _ := check (validate_upload_id id) in
  let! _ := r2_ensure_schema in
  let! _ := multipart_row b key id in
  let! l := select (fun d => parts_of d b id) in
  let! n := exec (DeleteUpload b id key) in
  let! _ := guard (negb (n =? 0)) UploadMissing in
  let! _ := exec (DeleteParts b id) in
  each (fun p => schedule_orphan_parts b (p_sha256 p) (p_size p) (p_storage p)) l.

(** [borrow_file_from_candidates], [repair_local_file], [borrow_remote_file]. *)
Fixpoint borrow (b key : string) (o : ObjectMeta) (candidates : list string) : ROp bytes :=
  match candidates with
  | [] => fail BorrowFailed
  | p :: candidates' =>
      Ask (QStream p b key (o_sha256 o)) (fun a =>
        match a with
        | GotBytes c => if (blen c =? o_size o) && bool_decide (digest_hex c = o_sha256 o) then ret c else borrow b key o candidates'
        | _ => borrow b key o candidates'
        end)
  end.
Definition repair_local_file (v : View) (b key : string) (o : ObjectMeta) : ROp bytes :=
  let! c := borrow b key o (filter (fun m => m <> v_node v /\ api_of v m = true) (v_group v b)) in
  let! _ := exec (PutFile (OnNode (v_node v) (o_sha256 o)) c) in
  materialize_verified v Local (o_sha256 o).

(** [materialize_object] and [get_object]. *)
Definition materialize_object (v : View) (b key : string) : ROp (option (ObjectMeta * bytes)) :=
  let! o := head_object v b key in
  match o with
  | None => ret None
  | Some o =>
      let! r := catch (materialize_verified v (o_storage o) (o_sha256 o)) in
      let! c := match r with
                | Ok c => ret c
                | Err _ => if bool_decide (o_storage o = Local) then repair_local_file v b key o else borrow b key o (storage_peers v)
                end in
      let! _ := guard (blen c =? o_size o) SizeMismatch in
      ret (Some (o, c))
  end.
Definition get_object (v : View) (b key : string) : ROp (option (ObjectMeta * bytes)) :=
  let! r := materialize_object v b key in
  match r with
  | None => ret None
  | Some (o, c) =>
      let! _ := guard (blen c =? o_size o) SizeMismatch in
      let! _ := guard (bool_decide (digest_hex c = o_sha256 o)) DigestMismatch in
      ret (Some (o, c))
  end.

(** [list_objects]. *)
Definition by_key (a b : ObjectMeta) : Prop := le_of (o_key a) (o_key b).
#[export] Instance by_key_dec : RelDecision by_key.
Proof. intros a b. unfold by_key. apply _. Defined.
Definition matching (prefix cursor : string) (d : Stores) (b : string) : list ObjectMeta :=
  merge_sort by_key (map snd (filter (fun ko => like (escape_like prefix ++ "%") ko.1 && ltb cursor ko.1 = true) (map_to_list (objects (bucket_tables d b))))).
Record ObjectList : Type := mkObjectList {
  listed : list ObjectMeta;
  delimited_prefixes : list string;
  truncated : bool;
  next_cursor : option string
}.
Definition clamp_limit (limit : Z) : nat := Z.to_nat (Z.max 1 (Z.min limit MAX_LIST_LIMIT)).
Definition page_of (limit : nat) (rows : list ObjectMeta) : ObjectList :=
  let more := (limit <? length rows)%nat in
  let l := take limit rows in
  mkObjectList l [] more (if more then o_key <$> list.last l else None).
Definition list_objects (v : View) (b prefix : string) (cursor : option string) (limit : Z) : ROp ObjectList :=
  let! _ := known_bucket v b in
  let! _ := guard (negb ((MAX_OBJECT_KEY_BYTES <? slen prefix) || match cursor with Some c => 2048 <? slen c | None => false end)) ListArguments in
  let! _ := r2_ensure_schema in
  let n := clamp_limit limit in
  let! rows := select (fun d => take (S n) (matching prefix (default "" cursor) d b)) in
  ret (page_of n rows).

(** [list_objects_delimited]: objects and folders so far, and the last key they cover. *)
Record Folding : Type := mkFolding { f_objects : list ObjectMeta; f_prefixes : list string; f_last : option string }.
Definition folder_of (prefix delimiter key : string) : option string :=
  let remainder := default key (strip_prefix prefix key) in
  match find_sub delimiter remainder with
  | Some i => Some (prefix ++ stake (i + String.length delimiter) remainder)%string
  | None => None
  end.
Definition folding_full (limit : nat) (f : Folding) : bool := (limit <=? length (f_objects f) + length (f_prefixes f))%nat.
Fixpoint fold_page (limit : nat) (prefix delimiter : string) (f : Folding) (l : list ObjectMeta) : Folding * bool :=
  match l with
  | [] => (f, false)
  | o :: l' =>
      match folder_of prefix delimiter (o_key o) with
      | Some g =>
          if bool_decide (g ∈ f_prefixes f) then fold_page limit prefix delimiter (mkFolding (f_objects f) (f_prefixes f) (Some (o_key o))) l'
          else if folding_full limit f then (f, true)
          else fold_page limit prefix delimiter (mkFolding (f_objects f) (f_prefixes f ++ [g]) (Some (o_key o))) l'
      | None =>
          if folding_full limit f then (f, true)
          else fold_page limit prefix delimiter (mkFolding (f_objects f ++ [o]) (f_prefixes f) (Some (o_key o))) l'
      end
  end.
Fixpoint fold_pages (batches : nat) (v : View) (b prefix : string) (limit : nat) (delimiter : string) (after : option string) (f : Folding) (cut : bool) :
  ROp (Folding * bool) :=
  match batches with
  | O => ret (f, cut)
  | S batches' =>
      let! page := list_objects v b prefix after MAX_LIST_LIMIT in
      if bool_decide (length (listed page) = O) then ret (f, false)
      else
        let '(f', full) := fold_page limit prefix delimiter f (listed page) in
        if full then ret (f', true)
        else if negb (truncated page) then ret (f', false)
        else fold_pages batches' v b prefix limit delimiter (o_key <$> list.last (listed page)) f' true
  end.
Definition bad_delimiter (s : string) : bool :=
  (64 <? slen s) || contains_byte "000" s || contains_byte "013" s || contains_byte "010" s.
Definition list_objects_delimited (v : View) (b prefix : string) (cursor : option string) (limit : Z) (delimiter : string) : ROp ObjectList :=
  if is_empty delimiter then list_objects v b prefix cursor limit
  else if bad_delimiter delimiter then fail BadDelimiter
  else
    let! (f, cut) := fold_pages 20 v b prefix (clamp_limit limit) delimiter cursor (mkFolding [] [] cursor) false in
    ret (mkObjectList (f_objects f) (f_prefixes f) cut (if cut then f_last f else None)).

(** [list_multipart_uploads], [multipart_upload_detail], [abort_multipart_upload_by_id]. *)
Record UploadSummary : Type := mkSummary { s_id : string; s_upload : Upload; s_parts : Z; s_bytes : Z }.
Definition by_upload (a b : UploadSummary) : Prop := le_of (s_id a) (s_id b).
#[export] Instance by_upload_dec : RelDecision by_upload.
Proof. intros a b. unfold by_upload. apply _. Defined.
Definition summary (d : Stores) (b id : string) (u : Upload) : UploadSummary :=
  let l := parts_of d b id in
  mkSummary id u (Z.of_nat (length l)) (foldr (fun p acc => p_size p + acc) 0 l).
Definition list_multipart_uploads (v : View) (b prefix : string) (cursor : option string) (limit : Z) : ROp (list UploadSummary * bool * option string) :=
  let! _ := known_bucket v b in
  let! _ := guard (negb ((MAX_OBJECT_KEY_BYTES <? slen prefix) || match cursor with Some c => 64 <? slen c | None => false end)) ListArguments in
  let! _ := match cursor with Some c => if is_empty c then ret tt else check (validate_upload_id c) | None => ret tt end in
  let! _ := r2_ensure_schema in
  let n := clamp_limit limit in
  let! rows := select (fun d => take (S n) (merge_sort by_upload (map (fun iu => summary d b iu.1 iu.2)
                 (filter (fun iu => like (escape_like prefix ++ "%") (u_key iu.2) && ltb (default "" cursor) iu.1 = true) (map_to_list (uploads (bucket_tables d b))))))) in
  let more := (n <? length rows)%nat in
  let l := take n rows in
  ret (l, more, if more then s_id <$> list.last l else None).
Definition by_number (a b : Z * Part) : Prop := a.1 <= b.1.
#[export] Instance by_number_dec : RelDecision by_number.
Proof. intros a b. unfold by_number. apply _. Defined.
Definition multipart_upload_detail (v : View) (b id : string) : ROp (UploadSummary * list (Z * Part)) :=
  let! _ := check (validate_upload_id id) in
  let! _ := known_bucket v b in
  let! _ := r2_ensure_schema in
  let! s := select (fun d => option_map (summary d b id) (uploads (bucket_tables d b) !! id)) in
  match s with
  | None => fail UploadMissing
  | Some s =>
      let! l := select (fun d => merge_sort by_number (map (fun kp => (kp.1.2, kp.2)) (filter (fun kp => kp.1.1 = id) (map_to_list (parts (bucket_tables d b)))))) in
      ret (s, l)
  end.
Definition abort_multipart_upload_by_id (v : View) (b id : string) : ROp unit :=
  let! detail := multipart_upload_detail v b id in
  abort_multipart_upload b (u_key (s_upload detail.1)) id.

(** [storage_distribution], [shard_references]: what the live buckets keep where. *)
Definition count_at (l : list StorageLocation) (m : gmap StorageLocation Z) : gmap StorageLocation Z :=
  foldr (fun x acc => <[x := default 0 (acc !! x) + 1]> acc) m l.
Definition referenced_locations (t : Tables) : list StorageLocation :=
  map (fun ko => o_storage ko.2) (map_to_list (objects t)) ++ map (fun kp => p_storage kp.2) (map_to_list (parts t)).
Definition add_shards (m : gmap StorageLocation Z) (acc : gmap string Z) : gmap string Z :=
  map_fold (fun l n acc => match l with RcloneShard r _ => <[r := sat_add 64 (default 0 (acc !! r)) n]> acc | _ => acc end) acc m.
Fixpoint shard_references_in (l : list (string * BucketSpec)) (acc : gmap string Z) : ROp (gmap string Z) :=
  match l with
  | [] => ret acc
  | (b, _) :: l' =>
      let! _ := r2_ensure_schema in
      let! m := select (fun d => count_at (referenced_locations (bucket_tables d b)) ∅) in
      shard_references_in l' (add_shards m acc)
  end.
Definition shard_references (v : View) : ROp (gmap string Z) := shard_references_in (live_buckets v) ∅.

(** ** Lifecycle and collection *)

(** [blob_referenced_anywhere], [remove_orphan_candidate]. *)
Definition references (t : Tables) (sha : string) (l : StorageLocation) : bool :=
  existsb (fun ko => bool_decide (o_sha256 ko.2 = sha) && bool_decide (o_storage ko.2 = l)) (map_to_list (objects t))
  || existsb (fun kp => bool_decide (p_sha256 kp.2 = sha) && bool_decide (p_storage kp.2 = l)) (map_to_list (parts t)).
Fixpoint blob_referenced_anywhere (buckets : list (string * (bool * BucketSpec))) (sha : string) (l : StorageLocation) : ROp bool :=
  match buckets with
  | [] => ret false
  | (b, (gone, _)) :: buckets' =>
      if gone : bool then blob_referenced_anywhere buckets' sha l
      else
        let! r := select (fun d => references (bucket_tables d b) sha l) in
        if r : bool then ret true else blob_referenced_anywhere buckets' sha l
  end.
Definition remove_orphan_candidate (b sha : string) (l : StorageLocation) : ROp unit :=
  let! _ := exec (RemoveOrphan b sha l) in ret tt.

(** [ObjectStore::delete]. *)
Definition delete_blob (v : View) (l : StorageLocation) (sha : string) : ROp unit :=
  let! _ := guard (valid_location l) (StorageFailed BadLocation) in
  let! _ := guard (supports (v_rclone v) l) BlobMissing in
  let! _ := exec (DropBlob (place (v_node v) l sha)) in ret tt.

Record SweepResult : Type := mkSweep { expired_objects : Z; expired_uploads : Z; collected_blobs : Z; retained_blobs : Z }.

(** The objects of a bucket past its lifecycle, 500 at a time; the number of rounds is a bound. *)
Definition by_upload_time (a b : ObjectMeta) : Prop := o_uploaded_at_ms a <= o_uploaded_at_ms b.
#[export] Instance by_upload_time_dec : RelDecision by_upload_time.
Proof. intros a b. unfold by_upload_time. apply _. Defined.
Definition past_lifecycle (cutoff : Z) (d : Stores) (b : string) : list ObjectMeta :=
  take 500 (merge_sort by_upload_time (filter (fun o => o_uploaded_at_ms o <= cutoff) (map snd (map_to_list (objects (bucket_tables d b)))))).
Fixpoint expire_each (b : string) (l : list ObjectMeta) (n : Z) : ROp Z :=
  match l with
  | [] => ret n
  | o :: l' =>
      let! r := exec (DeleteVersion b (o_key o) (o_sha256 o) (o_uploaded_at_ms o)) in
      if r =? 1 then let! _ := schedule_orphan b o in expire_each b l' (n + 1) else expire_each b l' n
  end.
Fixpoint expire_objects (rounds : nat) (b : string) (cutoff : Z) (n : Z) : ROp Z :=
  match rounds with
  | O => ret n
  | S rounds' =>
      let! l := select (fun d => past_lifecycle cutoff d b) in
      if bool_decide (length l = O) then ret n
      else
        let! n := expire_each b l n in
        if (length l <? 500)%nat then ret n else expire_objects rounds' b cutoff n
  end.
Fixpoint expire_uploads (b : string) (l : list (string * Upload)) (n : Z) : ROp Z :=
  match l with
  | [] => ret n
  | (id, u) :: l' =>
      let! r := catch (abort_multipart_upload b (u_key u) id) in
      expire_uploads b l' (match r with Ok _ => n + 1 | Err _ => n end)
  end.
Definition DAY_MS : Z := 24 * 60 * 60 * 1000.
Definition lifecycle_cutoff (gone : bool) (s : BucketSpec) (now : Z) : option Z :=
  if gone then Some u64_max else (fun days => sat_sub now (days * DAY_MS)) <$> expire_objects_after_days s.
Fixpoint sweep_buckets (rounds : nat) (now : Z) (l : list (string * (bool * BucketSpec))) (w : SweepResult) : ROp SweepResult :=
  match l with
  | [] => ret w
  | (b, (gone, s)) :: l' =>
      let! _ := r2_ensure_schema in
      let! objs := match lifecycle_cutoff gone s now with
                   | Some cutoff => expire_objects rounds b cutoff (expired_objects w)
                   | None => ret (expired_objects w)
                   end in
      let! ups := select (fun d => take 500 (filter (fun iu => u_expires_at_ms iu.2 <= if gone : bool then u64_max else now)
                    (map_to_list (uploads (bucket_tables d b))))) in
      let! ups := expire_uploads b ups (expired_uploads w) in
      sweep_buckets rounds now l' (mkSweep objs ups (collected_blobs w) (retained_blobs w))
  end.
Fixpoint collect_each (v : View) (b : string) (l : list (string * StorageLocation)) (w : SweepResult) : ROp SweepResult :=
  match l with
  | [] => ret w
  | (sha, loc) :: l' =>
      let! used := blob_referenced_anywhere (v_buckets v) sha loc in
      if used : bool then
        let! _ := remove_orphan_candidate b sha loc in
        collect_each v b l' (mkSweep (expired_objects w) (expired_uploads w) (collected_blobs w) (retained_blobs w + 1))
      else
        let! _ := delete_blob v loc sha in
        let! _ := remove_orphan_candidate b sha loc in
        collect_each v b l' (mkSweep (expired_objects w) (expired_uploads w) (collected_blobs w + 1) (retained_blobs w))
  end.
Definition collectable (now : Z) (d : Stores) (b : string) : list (string * StorageLocation) :=
  take 500 (map fst (filter (fun kx => eligible_at_ms kx.2 <= now) (map_to_list (orphans (bucket_tables d b))))).
Fixpoint collect_buckets (v : View) (now : Z) (l : list (string * (bool * BucketSpec))) (w : SweepResult) : ROp SweepResult :=
  match l with
  | [] => ret w
  | (b, _) :: l' =>
      let! c := select (fun d => collectable now d b) in
      let! w := collect_each v b c w in
      collect_buckets v now l' w
  end.

(** [sweep_lifecycle], but for the temporary files of the node. *)
Definition sweep_lifecycle (rounds : nat) (v : View) : ROp SweepResult :=
  let! now := now_ms in
  let! w := sweep_buckets rounds now (v_buckets v) (mkSweep 0 0 0 0) in
  collect_buckets v now (v_buckets v) w.
End operations.

(** ** Requests on the wire *)

Definition u32_be (x : Z) : bytes := rev (u32_le x).
Definition be_value (b : bytes) : Z := foldl (fun acc x => acc * 256 + x) 0 b.

Section framing.
Context {serde : SerdeJson}.
(** [serde_json] on upload options. *)
Context (options_to_vec : PutOptions -> bytes) (options_from_slice : bytes -> option PutOptions).

(** [encode_put_options_prefix], [encode_put_request], [decode_put_request]. *)
Definition encode_put_options_prefix (o : PutOptions) : result bytes R2Error :=
  let? _ := validate_metadata o in
  let encoded := options_to_vec o in
  if MAX_PUT_OPTIONS_BYTES <? blen encoded then Err OptionsTooLarge else Ok (u32_be (blen encoded) ++ encoded).
Definition encode_put_request (o : PutOptions) (content : bytes) : result bytes R2Error :=
  if MAX_BUFFERED_OBJECT_BYTES <? blen content then Err ObjectTooLarge
  else let? p := encode_put_options_prefix o in Ok (p ++ content).
Definition decode_put_request (payload : bytes) : result (PutOptions * bytes) R2Error :=
  if blen payload <? 4 then Err Truncated
  else
    let n := be_value (take 4 payload) in
    if (MAX_PUT_OPTIONS_BYTES <? n) || (blen payload <? 4 + n) then Err BadLength
    else
      match options_from_slice (take (Z.to_nat n) (drop 4 payload)) with
      | None => Err BadOptions
      | Some o =>
          let? _ := validate_metadata o in
          let content := drop (Z.to_nat n) (drop 4 payload) in
          if MAX_BUFFERED_OBJECT_BYTES <? blen content then Err ObjectTooLarge else Ok (o, content)
      end.
End framing.
