(* ===== verification/R2Props.v ===== *)
(** * R2Props: what holds of buckets whatever runs at once

    The limits of a bucket hold in every reachable state, whatever operations of however many nodes
    interleave and fail; listings are exact; upload requests survive the wire. *)

From Stdlib Require Import ZArith Lia Ascii SpecFloat.
From stdpp Require Import prelude gmap sorting strings list pretty.
From S2P Require Import Prelude Text Json Script Hlc Identity Envelope Kv Cron Claim Manifest Quorum DataAudit Observability Store Node NodeFacts Resource Storage Quota R2.
Open Scope Z_scope.

(** ** What statements do to the tables *)

Section tables.
Context {crypto : Crypto}.

Lemma tables_set d b b' t : bucket_tables (set_tables d b' t) b = if decide (b' = b) then t else bucket_tables d b.
Proof. unfold bucket_tables, set_tables; cbn. destruct (decide (b' = b)) as [->|Hn]; [by rewrite lookup_insert_eq | by rewrite lookup_insert_ne]. Qed.

Lemma objects_after d s b key o : objects (bucket_tables (Script.apply rrun d s) b) !! key = Some o ->
  objects (bucket_tables d b) !! key = Some o \/ exists mb mo, s = IndexObject b o mb mo.
Proof.
  unfold Script.apply. destruct s; cbn; repeat break_match; simplify_eq; auto; rewrite tables_set; destruct (decide _) as [->|]; cbn; auto;
    rewrite ?lookup_delete_Some, ?lookup_insert_Some; naive_solver.
Qed.
Lemma parts_after d s b k p : parts (bucket_tables (Script.apply rrun d s) b) !! k = Some p ->
  parts (bucket_tables d b) !! k = Some p \/ exists id n key, s = IndexPart b id n p key.
Proof.
  unfold Script.apply. destruct s; cbn; repeat break_match; simplify_eq; auto; rewrite tables_set; destruct (decide _) as [->|]; cbn; auto;
    rewrite ?map_lookup_filter_Some, ?lookup_insert_Some; naive_solver.
Qed.
End tables.

(** ** The operations of nodes *)

Section requests.
Context {crypto : Crypto} {hex : Hex} {serde : SerdeJson} {md : Md5}.

Definition void {A} (m : ROp A) : ROp unit := Script.bind m (fun _ => ret tt).

(** The requests a node serves with what it knows; the sweep is apart. *)
Inductive request (v : View) : ROp unit -> Prop :=
| req_put b key c o : request v (void (put_object v b key c o))
| req_put_file b key c o : request v (void (put_object_file v b key c o))
| req_delete b key : request v (void (delete_object v b key))
| req_create b key o : request v (void (create_multipart_upload v b key o))
| req_part b key id n c : request v (void (upload_part v b key id n c))
| req_part_file b key id n c : request v (void (upload_part_file v b key id n c))
| req_complete b key id l : request v (void (complete_multipart_upload v b key id l))
| req_abort b id : request v (void (abort_multipart_upload_by_id v b id))
| req_get b key : request v (void (get_object v b key))
| req_list b prefix cursor limit delimiter : request v (void (list_objects_delimited v b prefix cursor limit delimiter))
| req_uploads b prefix cursor limit : request v (void (list_multipart_uploads v b prefix cursor limit)).
Inductive running (V : View -> Prop) : ROp unit -> Prop :=
| run_request v m : V v -> request v m -> running V m
| run_sweep v rounds : V v -> running V (void (sweep_lifecycle rounds v)).

(** ** The statements an operation issues *)

Section issuing.
Context (P : RStmt -> Prop).
Context (Horphan : forall b sha l z e, P (ScheduleOrphan b sha l z e)) (Hremove : forall b sha l, P (RemoveOrphan b sha l)).
Context (Hdelete : forall b key, P (DeleteObject b key)) (Hversion : forall b key sha t, P (DeleteVersion b key sha t)).
Context (Hupload : forall b id u, P (InsertUpload b id u)) (Hparts : forall b id, P (DeleteParts b id)) (Hup : forall b id key, P (DeleteUpload b id key)).
Context (Hpart : forall b id n p key, P (IndexPart b id n p key)).
Context (Hblob : forall p c, P (PutBlob p c)) (Hfile : forall p c, P (PutFile p c)) (Hdrop : forall p, P (DropBlob p)).
Context (v : View).
Context (Hindex : forall b s o, live_bucket v b = Some s -> 0 <= o_size o -> P (IndexObject b o (default 0 (max_bytes s)) (default 0 (max_objects s)))).

Lemma issues_void {A} (m : ROp A) : issues P m -> issues P (void m).
Proof. intros H. apply issues_bind; [done | intros a; exact I]. Qed.
Lemma issues_known b : issues P (known_bucket v b).
Proof. unfold known_bucket. auto with issues. Qed.
Lemma issues_storage {A} (r : result A StorageError) : issues P (storage_check r).
Proof. unfold storage_check. auto with issues. Qed.
Lemma issues_each {A} (f : A -> ROp unit) l : (forall x, issues P (f x)) -> issues P (each f l).
Proof. intros Hf. induction l as [|x l IH]; [done|]. apply issues_bind; [apply Hf | auto]. Qed.
Hint Resolve issues_void issues_known issues_storage issues_each : issues.

Lemma issues_orphan_parts b sha z l : issues P (schedule_orphan_parts b sha z l).
Proof. unfold schedule_orphan_parts. eauto 10 with issues. Qed.
Lemma issues_head b key : issues P (head_object v b key).
Proof. unfold head_object, r2_ensure_schema. eauto 10 with issues. Qed.
Hint Resolve issues_orphan_parts issues_head : issues.
Lemma issues_orphan b o : issues P (schedule_orphan b o).
Proof. apply issues_orphan_parts. Qed.
Lemma issues_usage l x y : issues P (r2_usage v l x y).
Proof.
  revert x y. induction l as [|[b s] l IH]; intros x y; [done|]. cbn [r2_usage]. unfold bucket_usage, r2_ensure_schema.
  apply issues_bind; [eauto 10 with issues|]. intros [z n]. apply IH.
Qed.
Hint Resolve issues_orphan issues_usage : issues.
Lemma issues_write b o z : issues P (validate_r2_write v b o z).
Proof. unfold validate_r2_write. apply issues_bind; [auto with issues|]. intros q. apply issues_bind; [auto with issues|]. intros [x y]. eauto 10 with issues. Qed.
Lemma issues_forward {A} ask (accept : RAnswer -> option A) peers : issues P (forward ask accept peers).
Proof. induction peers as [|p peers IH]; [done|]. cbn [forward]. intros a. destruct (accept a); [done | apply IH]. Qed.
Lemma issues_replicate put b sha c : (forall p, P (put p c)) -> issues P (replicate_blob v put b sha c).
Proof.
  intros Hput. unfold replicate_blob. apply issues_bind; [|auto with issues]. generalize (if bool_decide (v_node v ∈ v_group v b) then {[v_node v]} else ∅ : gset string).
  induction (v_group v b) as [|m l IH] at 2; intros st; cbn [replicate_to]; [done|].
  destruct (_ <=? _)%nat; [done|]. destruct (_ || _); [apply IH|]. apply issues_bind; [eauto with issues | intros r; apply IH].
Qed.
Lemma issues_index b key sha z etag l o s previous : live_bucket v b = Some s -> 0 <= z -> issues P (index_committed_object b key sha z etag l o s previous).
Proof. intros Hs Hz. unfold index_committed_object. eauto 10 with issues. Qed.
Hint Resolve issues_write issues_forward issues_replicate issues_index : issues.

Lemma issues_with_bucket {A} b (f : BucketSpec -> ROp A) :
  (forall s, live_bucket v b = Some s -> issues P (f s)) -> issues P (Script.bind (known_bucket v b) f).
Proof. intros Hf. unfold known_bucket. destruct (live_bucket v b) as [s|]; [by apply Hf | done]. Qed.
Lemma blen_nonneg (c : bytes) : 0 <= blen c.
Proof. unfold blen. lia. Qed.
Hint Resolve blen_nonneg issues_with_bucket : issues.

Lemma issues_commit b key c o : issues P (commit_object v b key c o).
Proof.
  apply issues_with_bucket. intros s Hs. apply issues_bind; [auto with issues|]. intros l. apply issues_if; [auto with issues|].
  unfold r2_ensure_schema. repeat (apply issues_bind; [eauto 10 with issues | intros ?]). eauto with issues.
Qed.
Lemma issues_commit_file b key c etag o : issues P (commit_object_file v b key c etag o).
Proof.
  apply issues_with_bucket. intros s Hs. apply issues_bind; [auto with issues|]. intros l. apply issues_if; [auto with issues|].
  unfold r2_ensure_schema. repeat (apply issues_bind; [eauto 10 with issues | intros ?]). eauto with issues.
Qed.
Hint Resolve issues_commit issues_commit_file : issues.
Lemma issues_materialize l sha : issues P (materialize_verified v l sha).
Proof. unfold materialize_verified. apply issues_bind; [auto with issues|]. intros _. apply issues_bind; [auto with issues|]. intros [c|]; [|done]. by destruct (bool_decide _). Qed.
Hint Resolve issues_materialize : issues.
Lemma issues_row b key id : issues P (multipart_row b key id).
Proof. unfold multipart_row. apply issues_bind; [auto with issues|]. intros [u|]; [|done]. by destruct (bool_decide _). Qed.
Hint Resolve issues_row : issues.
Lemma issues_assemble b id acc l : issues P (assemble v b id acc l).
Proof.
  revert acc. induction l as [|pub l IH]; intros acc; [done|]. cbn [assemble]. apply issues_bind; [auto with issues|].
  intros [p|]; [|done]. repeat (apply issues_bind; [eauto 10 with issues | intros ?]). apply IH.
Qed.
Lemma issues_complete b key id l : issues P (complete_multipart_upload v b key id l).
Proof.
  unfold complete_multipart_upload, r2_ensure_schema. repeat (apply issues_bind; [eauto 10 with issues | intros ?]).
  apply issues_if; [auto with issues|]. apply issues_bind; [apply issues_assemble|]. intros x.
  repeat (apply issues_bind; [eauto 10 with issues | intros ?]). apply issues_ret.
Qed.
Lemma issues_part bound put checked b key id n c : (forall p, P (put p c)) -> issues P (upload_part_with bound put checked v b key id n c).
Proof.
  intros Hput. unfold upload_part_with, r2_ensure_schema. repeat (apply issues_bind; [eauto 10 with issues | intros ?]).
  apply issues_if; [auto with issues|]. unfold index_uploaded_part. repeat (apply issues_bind; [eauto 10 with issues | intros ?]). apply issues_ret.
Qed.
Lemma issues_create_upload b key o : issues P (create_multipart_upload v b key o).
Proof.
  unfold create_multipart_upload, validate_write_backend, r2_ensure_schema. repeat (apply issues_bind; [first [by eauto 10 with issues | by intros i] | intros ?]).
  apply issues_ret.
Qed.
Lemma issues_delete b key : issues P (delete_object v b key).
Proof. unfold delete_object, r2_ensure_schema. repeat (apply issues_bind; [eauto 10 with issues | intros ?]). apply issues_ret. Qed.
Lemma issues_abort b key id : issues P (abort_multipart_upload b key id).
Proof. unfold abort_multipart_upload, r2_ensure_schema. repeat (apply issues_bind; [eauto 10 with issues | intros ?]). auto with issues. Qed.
Hint Resolve issues_abort : issues.
Lemma issues_abort_by_id b id : issues P (abort_multipart_upload_by_id v b id).
Proof.
  unfold abort_multipart_upload_by_id, multipart_upload_detail, r2_ensure_schema. apply issues_bind; [|auto with issues].
  repeat (apply issues_bind; [eauto 10 with issues | intros ?]). destruct a2; [|done]. eauto with issues.
Qed.
Lemma issues_borrow b key o l : issues P (borrow b key o l).
Proof. induction l as [|p l IH]; [done|]. cbn [borrow]. intros []; auto with issues. Qed.
Lemma issues_get b key : issues P (get_object v b key).
Proof.
  unfold get_object, materialize_object. apply issues_bind; [|intros [[o c]|]; eauto with issues].
  apply issues_bind; [auto with issues|]. intros [o|]; [|done]. apply issues_bind; [auto with issues|]. intros r.
  apply issues_bind; [|eauto with issues]. destruct r; [done|]. apply issues_if; [|apply issues_borrow].
  unfold repair_local_file. apply issues_bind; [apply issues_borrow|]. eauto with issues.
Qed.
Lemma issues_list b prefix cursor limit : issues P (list_objects v b prefix cursor limit).
Proof. unfold list_objects, r2_ensure_schema. repeat (apply issues_bind; [eauto 10 with issues | intros ?]). apply issues_ret. Qed.
Lemma issues_folds n b prefix limit delimiter after f cut : issues P (fold_pages n v b prefix limit delimiter after f cut).
Proof.
  revert after f cut. induction n as [|n IH]; intros after f cut; [done|]. cbn [fold_pages]. apply issues_bind; [apply issues_list|]. intros page.
  apply issues_if; [done|]. destruct (fold_page _ _ _ _ _) as [f' full]. by repeat apply issues_if.
Qed.
Lemma issues_delimited b prefix cursor limit delimiter : issues P (list_objects_delimited v b prefix cursor limit delimiter).
Proof.
  unfold list_objects_delimited. apply issues_if; [apply issues_list|]. apply issues_if; [done|]. apply issues_bind; [apply issues_folds|]. by intros [f cut].
Qed.
Lemma issues_uploads b prefix cursor limit : issues P (list_multipart_uploads v b prefix cursor limit).
Proof. unfold list_multipart_uploads, r2_ensure_schema. repeat (apply issues_bind; [eauto 10 with issues | intros ?]). apply issues_ret. Qed.

Lemma issues_request m : request v m -> issues P m.
Proof.
  intros []; apply issues_void; unfold put_object, put_object_file, upload_part, upload_part_file;
    [do 3 (apply issues_bind; [auto with issues | intros ?]); apply issues_commit
    |do 3 (apply issues_bind; [auto with issues | intros ?]); apply issues_commit_file
    |apply issues_delete | apply issues_create_upload | by apply issues_part | by apply issues_part
    |apply issues_complete | apply issues_abort_by_id | apply issues_get | apply issues_delimited | apply issues_uploads].
Qed.

Lemma issues_expire rounds b cutoff n : issues P (expire_objects rounds b cutoff n).
Proof.
  revert n. induction rounds as [|rounds IH]; intros n; [done|]. cbn [expire_objects]. apply issues_bind; [auto with issues|]. intros l.
  apply issues_if; [done|]. apply issues_bind; [|intros m; by apply issues_if].
  generalize n. induction l as [|o l IHl]; intros k; [done|]. cbn [expire_each]. apply issues_bind; [auto with issues|]. intros r.
  apply issues_if; [|apply IHl]. apply issues_bind; [auto with issues|]. intros _. apply IHl.
Qed.
Lemma issues_expire_uploads b l n : issues P (expire_uploads b l n).
Proof.
  revert n. induction l as [|[id u] l IH]; intros n; [done|]. cbn [expire_uploads]. apply issues_bind; [auto with issues|]. intros r. apply IH.
Qed.
Lemma issues_sweep_buckets rounds now l w : issues P (sweep_buckets rounds now l w).
Proof.
  revert w. induction l as [|[b [gone s]] l IH]; intros w; [done|]. cbn [sweep_buckets]. unfold r2_ensure_schema.
  apply issues_bind; [auto with issues|]. intros _. apply issues_bind; [destruct (lifecycle_cutoff _ _ _); [apply issues_expire | done]|]. intros n.
  apply issues_bind; [auto with issues|]. intros ups. apply issues_bind; [apply issues_expire_uploads|]. intros k. apply IH.
Qed.
Lemma issues_referenced l sha loc : issues P (blob_referenced_anywhere l sha loc).
Proof.
  induction l as [|[b [gone s]] l IH]; [done|]. cbn [blob_referenced_anywhere]. destruct gone; [apply IH|].
  apply issues_bind; [auto with issues|]. intros []; [done | apply IH].
Qed.
Lemma issues_collect now l w : issues P (collect_buckets v now l w).
Proof.
  revert w. induction l as [|[b x] l IH]; intros w; [done|]. cbn [collect_buckets]. apply issues_bind; [auto with issues|]. intros c.
  apply issues_bind; [|intros w'; apply IH]. revert w. induction c as [|[sha loc] c IHc]; intros w; [done|]. cbn [collect_each].
  apply issues_bind; [apply issues_referenced|]. intros used. unfold remove_orphan_candidate, delete_blob. apply issues_if.
  - apply issues_bind; [eauto with issues|]. intros _. apply IHc.
  - do 2 (apply issues_bind; [eauto 10 with issues|]; intros _). apply IHc.
Qed.
Lemma issues_sweep rounds : issues P (sweep_lifecycle rounds v).
Proof. unfold sweep_lifecycle. apply issues_bind; [auto with issues|]. intros now. apply issues_bind; [apply issues_sweep_buckets|]. intros w. apply issues_collect. Qed.
End issuing.

(** ** Bounds of a bucket *)

Definition limits (b : string) (mb mo : Z) (v : View) : Prop :=
  forall s, live_bucket v b = Some s -> default 0 (max_bytes s) = mb /\ default 0 (max_objects s) = mo.
Definition within_limits (mb mo : Z) (m : gmap string ObjectMeta) : Prop :=
  map_Forall (fun _ o => 0 <= o_size o) m /\ (mb = 0 \/ total_size m <= mb) /\ (mo = 0 \/ object_count m <= mo).

Lemma total_size_insert (m : gmap string ObjectMeta) key o :
  total_size (<[key := o]> m) = total_size m - match m !! key with Some x => o_size x | None => 0 end + o_size o.
Proof.
  unfold total_size. rewrite <- insert_delete_eq. rewrite map_fold_insert_L; [|intros; lia|apply lookup_delete_eq].
  destruct (m !! key) as [x|] eqn:E; [|rewrite delete_id by done; lia].
  rewrite <- (insert_delete_id m key x E) at 2. rewrite map_fold_insert_L; [lia|intros; lia|apply lookup_delete_eq].
Qed.
Lemma total_size_delete (m : gmap string ObjectMeta) key : map_Forall (fun _ o => 0 <= o_size o) m -> total_size (delete key m) <= total_size m.
Proof.
  intros Hm. destruct (m !! key) as [x|] eqn:E; [|by rewrite delete_id].
  rewrite <- (insert_delete_id m key x E) at 2. rewrite total_size_insert, lookup_delete_eq. specialize (Hm _ _ E). cbn in Hm. lia.
Qed.
Lemma within_insert mb mo m o : 0 <= o_size o -> fits m o mb mo = true -> within_limits mb mo m -> within_limits mb mo (<[o_key o := o]> m).
Proof.
  intros Ho [Hfb Hfo]%andb_true_iff (Hp & Hb & Hc). split; [by apply map_Forall_insert_2|]. split.
  - rewrite total_size_insert. apply orb_true_iff in Hfb as [Hfb|Hfb]; to_prop; auto.
  - unfold object_count in *. rewrite map_size_insert. destruct (m !! o_key o) as [x|]; [done|].
    rewrite bool_decide_false, orb_false_r in Hfo by (by intros [? [=]]). apply orb_true_iff in Hfo as [Hfo|Hfo]; to_prop; [by left|].
    right. lia.
Qed.
Lemma within_delete mb mo m key : within_limits mb mo m -> within_limits mb mo (delete key m).
Proof.
  intros (Hp & Hb & Hc). split; [by apply map_Forall_delete|]. assert (H := total_size_delete m key Hp). split; [destruct Hb; [by left | right; etransitivity; eassumption]|].
  unfold object_count in *. assert (Hs : (size (delete key m) <= size m)%nat); [|destruct Hc; [by left | right; lia]].
  apply map_subseteq_size, delete_subseteq.
Qed.

Definition respects (b : string) (mb mo : Z) (s : RStmt) : Prop :=
  match s with IndexObject b' o mb' mo' => 0 <= o_size o /\ (b' = b -> mb' = mb /\ mo' = mo) | _ => True end.

Lemma objects_set d b b' t : objects (bucket_tables (set_tables d b' t) b) = if decide (b' = b) then objects t else objects (bucket_tables d b).
Proof. rewrite tables_set. by destruct (decide _). Qed.

Lemma within_step b mb mo d s : respects b mb mo s -> within_limits mb mo (objects (bucket_tables d b)) ->
  within_limits mb mo (objects (bucket_tables (Script.apply rrun d s) b)).
Proof.
  intros Hs Hd. unfold Script.apply. destruct s; cbn in *; repeat break_match; simplify_eq; rewrite ?objects_set; auto;
    destruct (decide _) as [->|]; auto; cbn; auto using within_delete.
  destruct Hs as [Ho Hl]. destruct (Hl eq_refl) as [-> ->]. by apply within_insert.
Qed.

(** C17: whatever operations run at once on whatever nodes, with whatever failures, a bucket never holds more bytes or
    more objects than its limits, provided it starts within them and the nodes know the same limits. *)
Theorem bucket_limits_hold (b : string) (mb mo : Z) (faults : Prop) (d : Stores) (s : Script.Sys Stores RStmt RQuestion RAnswer R2Error) :
  within_limits mb mo (objects (bucket_tables d b)) ->
  Script.reachable rrun (running (limits b mb mo)) faults d s ->
  within_limits mb mo (objects (bucket_tables (Script.state s) b)).
Proof.
  intros Hd Hr. eapply (Script.reachable_keeps _ _ _ (fun d => within_limits mb mo (objects (bucket_tables d b))) (respects b mb mo)) in Hr;
    [exact (proj1 Hr)| |intros; by apply within_step|exact Hd].
  assert (Hx : forall v b' s0 o, limits b mb mo v -> live_bucket v b' = Some s0 -> 0 <= o_size o ->
    respects b mb mo (IndexObject b' o (default 0 (max_bytes s0)) (default 0 (max_objects s0)))).
  { intros v b' s0 o Hv Hs Ho. split; [done|]. intros ->. by destruct (Hv _ Hs) as [-> ->]. }
  intros t [v m Hv Hm|v rounds Hv].
  - eapply issues_request; eauto; done.
  - apply issues_void. eapply issues_sweep; eauto; done.
Qed.
End requests.

(** ** Listings *)

Lemma like_plain c p s : like_special c = false -> like (String c p) s = match s with String d s' => same_letter c d && like p s' | EmptyString => false end.
Proof. destruct c as [[] [] [] [] [] [] [] []]; intros Hc; first [by vm_compute in Hc | reflexivity]. Qed.
Lemma like_escaped c p s : like (String "\" (String c p)) s = match s with String d s' => same_letter c d && like p s' | EmptyString => false end.
Proof. reflexivity. Qed.
Lemma like_any s : like "%" s = true.
Proof. induction s as [|c s IH]; [reflexivity|]. cbn in *. done. Qed.

(** The pattern of a listing matches the keys that begin with the prefix, letters in either case. *)
Lemma like_prefix p s : like (escape_like p ++ "%") s = starts_with (to_ascii_lowercase p) (to_ascii_lowercase s).
Proof.
  revert s. induction p as [|c p IH]; intros s; [by destruct s; apply like_any|]. cbn [escape_like].
  assert (Hm : match s with String d s' => same_letter c d && like (escape_like p ++ "%") s' | EmptyString => false end
    = starts_with (to_ascii_lowercase (String c p)) (to_ascii_lowercase s)).
  { destruct s as [|d s]; [done|]. rewrite IH. unfold starts_with, same_letter. cbn [to_ascii_lowercase String.prefix].
    destruct (ascii_dec (lower c) (lower d)) as [He|He]; [by rewrite bool_decide_true | by rewrite bool_decide_false]. }
  destruct (like_special c) eqn:Ec; [|change (like (String c (escape_like p ++ "%")) s = starts_with (to_ascii_lowercase (String c p)) (to_ascii_lowercase s));
    by rewrite like_plain].
  change (like (String "\" (String c (escape_like p ++ "%"))) s = starts_with (to_ascii_lowercase (String c p)) (to_ascii_lowercase s)). by rewrite like_escaped.
Qed.

Definition key_lt (a b : ObjectMeta) : Prop := o_key a ≺ o_key b.
(** Rows are filed under their keys, and keys are valid. *)
Definition rows_ok (m : gmap string ObjectMeta) : Prop := map_Forall (fun k o => o_key o = k /\ validate_key k = Ok tt) m.

#[export] Instance by_key_trans : Transitive by_key.
Proof. intros x y z. unfold by_key. apply le_of_trans. Qed.
#[export] Instance by_key_total : Total by_key.
Proof. intros x y. unfold by_key. apply le_of_total. Qed.

Section listing.
Context {d : Stores} {b prefix : string}.
Notation rows := (objects (bucket_tables d b)).
Context (Hrows : rows_ok rows).

Lemma elem_matching cursor o : o ∈ matching prefix cursor d b <->
  rows !! o_key o = Some o /\ starts_with (to_ascii_lowercase prefix) (to_ascii_lowercase (o_key o)) = true /\ cursor ≺ o_key o.
Proof.
  unfold matching. rewrite merge_sort_Permutation, list_elem_of_fmap. split.
  - intros ([k o'] & -> & [Hf Hin%elem_of_map_to_list]%list_elem_of_filter). cbn in *. destruct (Hrows _ _ Hin) as [-> _].
    apply andb_true_iff in Hf as [Hl Hc]. rewrite like_prefix in Hl. to_prop. done.
  - intros (Hin & Hp & Hc). exists (o_key o, o). split; [done|]. apply list_elem_of_filter. split; [|by apply elem_of_map_to_list].
    cbn. rewrite like_prefix, Hp. by apply ltb_lt.
Qed.

Lemma matching_keys cursor : NoDup (o_key <$> matching prefix cursor d b).
Proof.
  unfold matching. rewrite merge_sort_Permutation.
  assert (Hk : forall l, (forall ko, ko ∈ l -> ko ∈ map_to_list rows) -> o_key <$> map snd l = l.*1).
  { intros l. induction l as [|[k o] l IH]; intros Hl; cbn; [done|]. rewrite (proj1 (Hrows k o ltac:(apply elem_of_map_to_list, Hl; set_solver))).
    f_equal. apply IH. intros ko Hko. apply Hl. set_solver. }
  rewrite Hk by (intros ko [_ H]%list_elem_of_filter; exact H). eapply sublist_NoDup; [apply (NoDup_fst_map_to_list rows)|]. apply fmap_sublist, sublist_filter.
Qed.

Lemma matching_strict cursor : StronglySorted key_lt (matching prefix cursor d b).
Proof.
  assert (Hs : StronglySorted by_key (matching prefix cursor d b)) by (apply Sorted_StronglySorted, Sorted_merge_sort; apply _).
  assert (Hn := matching_keys cursor). induction Hs as [|x l Hl IH Hf]; constructor; apply NoDup_cons in Hn as [Hx Hn]; [by apply IH|].
  rewrite Forall_forall in Hf |- *. intros y Hy. specialize (Hf y Hy). unfold by_key in Hf.
  apply le_of_lt_or_eq in Hf as [?|He]; [done|]. destruct Hx. rewrite He. by apply list_elem_of_fmap_2.
Qed.

Lemma key_lt_asym x y : key_lt x y -> key_lt y x -> False.
Proof. unfold key_lt. intros H1 H2. apply (lt_of_irrefl (o_key x)). by eapply lt_of_trans. Qed.

Lemma empty_least (k : string) : "" ⪯ k.
Proof. by destruct k. Qed.

(** A listing after a cursor is the rest of the whole listing. *)
Lemma matching_after cursor : matching prefix cursor d b = filter (fun o => cursor ≺ o_key o) (matching prefix "" d b).
Proof.
  apply (StronglySorted_unique_elems key_lt); [apply key_lt_asym | apply matching_strict | apply StronglySorted_filter, matching_strict|].
  intros o. rewrite list_elem_of_filter, !elem_matching. split; [|tauto]. intros (Hr & Hp & Hc). split_and!; try done.
  destruct (proj1 (le_of_lt_or_eq _ _) (empty_least cursor)) as [He| <-]; [by eapply lt_of_trans | done].
Qed.

Lemma filter_past l n o : StronglySorted key_lt l -> list.last (take (S n) l) = Some o -> (S n <= length l)%nat ->
  filter (fun x => o_key o ≺ o_key x) l = drop (S n) l.
Proof.
  revert n. induction l as [|x l IH]; intros n Hs Hl Hn; cbn in Hn; [lia|]. apply StronglySorted_inv in Hs as [Hs Hx]. rewrite Forall_forall in Hx.
  destruct n as [|n].
  - cbn in Hl. injection Hl as ->. rewrite filter_cons_False by apply lt_of_irrefl. cbn. rewrite drop_0.
    clear -Hx. induction l as [|y l IH]; [done|]. rewrite filter_cons_True by (apply Hx; set_solver). f_equal. apply IH. intros z Hz. apply Hx. set_solver.
  - destruct l as [|y l]; [cbn in Hn; lia|]. rewrite filter_cons_False; [apply (IH n); [done | exact Hl | cbn in *; lia]|].
    assert (Ho : o ∈ y :: l). { change (list.last (x :: take (S n) (y :: l)) = Some o) in Hl.
      rewrite last_cons in Hl. destruct (list.last (take (S n) (y :: l))) eqn:E; [|by apply last_None in E]. injection Hl as ->.
      apply last_Some_elem_of, elem_of_take in E as (i & Hi & _). by apply list_elem_of_lookup_2 in Hi. }
    intros H. apply (lt_of_irrefl (o_key o)). eapply lt_of_trans; [exact H | by apply Hx].
Qed.
End listing.

(** Following the cursors of [list_objects], each page from a healthy database. *)
Section walking.
Context {crypto : Crypto} (now_at : nat -> Z) (id_at : nat -> string) (answer : nat -> RQuestion -> RAnswer).

Definition list_page (v : View) (d : Stores) (b prefix : string) (limit : Z) (cursor : option string) : result ObjectList R2Error :=
  (play rrun now_at id_at (fun _ => Healthy) answer (list_objects v b prefix cursor limit) d 0).2.
Fixpoint walk_pages (fuel : nat) (v : View) (d : Stores) (b prefix : string) (limit : Z) (cursor : option string) : option (list (list ObjectMeta)) :=
  match fuel with
  | O => None
  | S fuel' =>
      match list_page v d b prefix limit cursor with
      | Err _ => None
      | Ok p => match next_cursor p with
                | None => Some [listed p]
                | Some c => cons (listed p) <$> walk_pages fuel' v d b prefix limit (Some c)
                end
      end
  end.

Context (v : View) (d : Stores) (b prefix : string) (limit : Z) (s : BucketSpec).
Context (Hs : live_bucket v b = Some s) (Hprefix : slen prefix <= MAX_OBJECT_KEY_BYTES) (Hrows : rows_ok (objects (bucket_tables d b))).
Notation n := (clamp_limit limit).

Lemma list_page_spec cursor : match cursor with Some c => slen c <= 2048 | None => True end ->
  list_page v d b prefix limit cursor = Ok (page_of n (take (S n) (matching prefix (default "" cursor) d b))).
Proof.
  intros Hc. unfold list_page, list_objects, known_bucket. rewrite Hs. cbn [Script.bind ret guard].
  replace (negb _) with true; [done|]. symmetry. apply negb_true_iff, orb_false_iff.
  split; [apply Z.ltb_ge; lia | destruct cursor; [apply Z.ltb_ge; lia | done]].
Qed.

Lemma clamp_pos : (1 <= n)%nat /\ Z.of_nat n <= MAX_LIST_LIMIT.
Proof. unfold clamp_limit, MAX_LIST_LIMIT. lia. Qed.

Lemma matching_length cursor o : o ∈ matching prefix cursor d b -> slen (o_key o) <= 2048.
Proof.
  intros (Hr & _ & _)%elem_matching; [|done]. destruct (Hrows _ _ Hr) as [_ Hk]. unfold validate_key in Hk.
  destruct (_ || _) eqn:E in Hk; [done|]. to_prop. unfold MAX_OBJECT_KEY_BYTES in *. lia.
Qed.

Lemma walk_from fuel cursor : match cursor with Some c => slen c <= 2048 | None => True end ->
  (length (matching prefix (default "" cursor) d b) < fuel)%nat ->
  exists ps, walk_pages fuel v d b prefix limit cursor = Some ps /\ Forall (fun p => (length p <= n)%nat) ps /\
    concat ps = matching prefix (default "" cursor) d b.
Proof.
  revert cursor. induction fuel as [|fuel IH]; intros cursor Hc Hf; [lia|]. cbn [walk_pages]. rewrite list_page_spec by done.
  set (l := matching prefix (default "" cursor) d b) in *. destruct clamp_pos as [Hn _]. unfold page_of. rewrite take_take, Nat.min_l by lia.
  rewrite length_take. cbn [next_cursor listed]. destruct (Nat.ltb_spec n (min (S n) (length l))) as [Hlt|Hge].
  - assert (Hl : is_Some (list.last (take n l))).
    { destruct (list.last (take n l)) eqn:E; [done|]. apply last_None in E. apply (f_equal length) in E. rewrite length_take in E. cbn in E. lia. }
    destruct Hl as [o Ho]. rewrite Ho. cbn [fmap option_fmap option_map].
    assert (Hin : o ∈ l) by (apply last_Some_elem_of, elem_of_take in Ho as (i & Hi & _); by apply list_elem_of_lookup_2 in Hi).
    assert (Hrest : matching prefix (o_key o) d b = drop n l).
    { destruct n as [|k] eqn:Ek; [lia|]. rewrite <- (filter_past l k o); [|by apply matching_strict|done|lia].
      subst l. rewrite !(matching_after Hrows (o_key o)), (matching_after Hrows (default "" cursor)).
      rewrite list_filter_filter. apply list_filter_iff. intros x. split; [|tauto]. intros Hx. split; [done|].
      apply elem_matching in Hin as (_ & _ & Hlow); [|done]. by eapply lt_of_trans. }
    destruct (IH (Some (o_key o))) as (ps & Hw & Hp & Hcat).
    { by eapply matching_length. }
    { cbn. rewrite Hrest, length_drop. lia. }
    rewrite Hw. cbn. exists (take n l :: ps). split_and!; [done | constructor; [rewrite length_take; lia | done] |].
    cbn [concat]. rewrite Hcat. cbn. rewrite Hrest. apply take_drop.
  - exists [take n l]. split_and!; [done | constructor; [rewrite length_take; lia | done] |]. cbn. rewrite app_nil_r. apply take_ge. lia.
Qed.
End walking.


(** ** Requests on the wire *)

Lemma be_value_u32 n : 0 <= n < 2 ^ 32 -> be_value (u32_be n) = n.
Proof.
  intros Hn. unfold be_value, u32_be, u32_le. cbn -[Z.div Z.modulo Z.mul Z.add].
  assert (H0 := Z.div_mod n 256 ltac:(lia)). assert (H1 := Z.div_mod (n / 256) 256 ltac:(lia)).
  assert (H2 := Z.div_mod (n / 256 / 256) 256 ltac:(lia)).
  assert (H3 : (n / 256 / 256 / 256) mod 256 = n / 256 / 256 / 256).
  { apply Z.mod_small. rewrite !Z.div_div by lia. split; [apply Z.div_pos; lia | apply Z.div_lt_upper_bound; lia]. }
  rewrite H3. lia.
Qed.

(** The request a node sends for a put is read back by the node that serves it as the same options and bytes. *)
Theorem put_request_roundtrip {serde : SerdeJson} (to_vec : PutOptions -> bytes) (from_slice : bytes -> option PutOptions)
  (o : PutOptions) (content payload : bytes) :
  from_slice (to_vec o) = Some o -> encode_put_request to_vec o content = Ok payload ->
  decode_put_request from_slice payload = Ok (o, content).
Proof.
  intros Ho He. unfold encode_put_request, encode_put_options_prefix in He. destruct (MAX_BUFFERED_OBJECT_BYTES <? blen content) eqn:Eb; [done|].
  destruct (validate_metadata o) as [[]|] eqn:Em; [|done]. cbv beta iota zeta in He. destruct (MAX_PUT_OPTIONS_BYTES <? blen (to_vec o)) eqn:Eo; [done|].
  assert (payload = u32_be (blen (to_vec o)) ++ to_vec o ++ content) as -> by (rewrite app_assoc; congruence). to_prop. assert (Hb : 0 <= blen (to_vec o) < 2 ^ 32) by (unfold blen, MAX_PUT_OPTIONS_BYTES in *; lia).
  assert (Hl : forall z, length (u32_be z) = 4%nat) by done. unfold decode_put_request.
  rewrite take_app_length' by done. rewrite drop_app_length' by done. rewrite be_value_u32 by done.
  assert (Hz : blen (u32_be (blen (to_vec o)) ++ to_vec o ++ content) = 4 + blen (to_vec o) + blen content) by (unfold blen; rewrite !length_app, Hl; lia).
  rewrite Hz, (proj2 (Z.ltb_ge _ _)) by (unfold blen; lia). rewrite (proj2 (Z.ltb_ge MAX_PUT_OPTIONS_BYTES _)) by done.
  rewrite (proj2 (Z.ltb_ge _ (4 + _))) by (unfold blen; lia). cbn [orb].
  rewrite take_app_length' by (unfold blen; lia). rewrite drop_app_length' by (unfold blen; lia). rewrite Ho, Em. cbv beta iota zeta.
  by rewrite (proj2 (Z.ltb_ge _ _)).
Qed.
