(* ===== verification/R2Bytes.v ===== *)
(** * R2Bytes: metadata and bytes agree

    Metadata refers to bytes by digest.  As long as no sweep runs, whatever requests interleave
    and fail, every object in the metadata has bytes with its digest: at its remote, or on a
    majority of the bucket's data group.  [R2Sweep] has the sweep. *)

From Stdlib Require Import ZArith Lia Ascii SpecFloat.
From stdpp Require Import prelude gmap sorting strings list pretty.
From S2P Require Import Prelude Text Json Script Hlc Identity Envelope Kv Cron Claim Manifest Quorum DataAudit Observability Store Node NodeFacts Resource Storage Quota R2 R2Props.
Open Scope Z_scope.

(** ** Places and digests *)

Definition separator (c : ascii) : Prop := c = "/"%char \/ c = ":"%char.
Definition no_separator (s : string) : Prop := forall c, separator c -> contains_byte c s = false.

Lemma contains_middle c s t : contains_byte c (s ++ String c t) = true.
Proof.
  induction s as [|a s IH].
  - change (bool_decide (c = c) || contains_byte c t = true). by rewrite bool_decide_true.
  - change (bool_decide (a = c) || contains_byte c (s ++ String c t) = true). rewrite IH. apply orb_true_r.
Qed.
Lemma tail_unique s1 s2 c1 c2 t1 t2 : separator c1 -> separator c2 -> no_separator t1 -> no_separator t2 ->
  (s1 ++ String c1 t1)%string = (s2 ++ String c2 t2)%string -> t1 = t2.
Proof.
  intros Hc1 Hc2 Ht1 Ht2. revert s2. induction s1 as [|a s1 IH]; intros [|a2 s2] He; cbv [String.append] in He; fold String.append in He; injection He as He0 He.
  - done.
  - specialize (Ht1 c2 Hc2). rewrite He, contains_middle in Ht1. done.
  - specialize (Ht2 c1 Hc1). rewrite <- He, contains_middle in Ht2. done.
  - by eapply IH.
Qed.
Lemma append_assoc (a b c : string) : (a ++ (b ++ c))%string = ((a ++ b) ++ c)%string.
Proof. induction a as [|x a IH]; [done|]. change (String x (a ++ (b ++ c)) = String x ((a ++ b) ++ c)). by rewrite IH. Qed.

(** The target of a remote ends with the digest. *)
Lemma target_ends l n sha : l <> Local -> exists x c, separator c /\ place n l sha = OnRemote (x ++ String c sha).
Proof.
  intros Hl. destruct l as [|r p|r p]; [done|..]; unfold place, rclone_target, rclone_shard_target; destruct (is_empty p).
  - exists (r ++ ":blobs/" ++ stake 2 sha)%string, "/"%char. split; [by left|]. f_equal. by rewrite <- !append_assoc.
  - exists (r ++ ":" ++ trim_byte "/" p ++ "/blobs/" ++ stake 2 sha)%string, "/"%char. split; [by left|]. f_equal. by rewrite <- !append_assoc.
  - exists r, ":"%char. split; [by right | done].
  - exists (r ++ ":" ++ trim_byte "/" p)%string, "/"%char. split; [by left|]. f_equal. by rewrite <- !append_assoc.
Qed.
Lemma place_digest n n' l l' sha sha' : no_separator sha -> no_separator sha' -> place n l sha = place n' l' sha' -> sha = sha'.
Proof.
  intros Hs Hs' He. destruct (decide (l = Local)) as [->|Hl], (decide (l' = Local)) as [->|Hl'].
  - by injection He.
  - destruct (target_ends l' n' sha' Hl') as (x & c & _ & Hx). by rewrite Hx in He.
  - destruct (target_ends l n sha Hl) as (x & c & _ & Hx). by rewrite Hx in He.
  - destruct (target_ends l n sha Hl) as (x & c & Hc & Hx), (target_ends l' n' sha' Hl') as (x' & c' & Hc' & Hx').
    rewrite Hx, Hx' in He. injection He as He. exact (tail_unique x x' c c' sha sha' Hc Hc' Hs Hs' He).
Qed.
Lemma remote_place l n n' sha : l <> Local -> place n l sha = place n' l sha.
Proof. by destruct l. Qed.
Lemma hex_no_separator s : all_bytes is_hex_digit s = true -> no_separator s.
Proof.
  intros Hs c Hc. induction s as [|a s IH]; [done|]. cbn in *. apply andb_true_iff in Hs as [Ha Hs]. rewrite IH by done. rewrite orb_false_r.
  apply bool_decide_false. intros ->. by destruct Hc as [->| ->].
Qed.

Section bytes.
Context {crypto : Crypto} {hex : Hex} {hex_ok : HexOk} {serde : SerdeJson} {md : Md5}.

Lemma digest_no_separator c : no_separator (digest_hex c).
Proof. apply hex_no_separator, hex_encode_digits. Qed.

(** Bytes with a digest are at a place; every place has bytes of the digest in its name. *)
Definition stored (d : Stores) (p : Place) (sha : string) : Prop := exists c, blobs d !! p = Some c /\ digest_hex c = sha.
Definition addressed (d : Stores) : Prop := forall p c, blobs d !! p = Some c -> exists n l, p = place n l (digest_hex c).
Definition well_placed (p : Place) (c : bytes) : Prop := exists n l, p = place n l (digest_hex c).

Lemma addressed_digest d p c0 c : addressed d -> blobs d !! p = Some c0 -> well_placed p c -> digest_hex c0 = digest_hex c.
Proof.
  intros Ha Hp (n & l & ->). destruct (Ha _ _ Hp) as (n' & l' & He). eapply place_digest; [apply digest_no_separator..|]. by symmetry.
Qed.

Section writes.
Context (d d' : Stores) (p : Place) (c : bytes).
Context (Hd : blobs d' = <[p := c]> (blobs d) \/ blobs d' = blobs d) (Hp : well_placed p c).

Lemma write_addressed : addressed d -> addressed d'.
Proof. intros Ha q x Hq. destruct Hd as [He|He]; rewrite He in Hq; [|by apply Ha]. apply lookup_insert_Some in Hq as [[<- <-]|[_ Hq]]; [done | by apply Ha]. Qed.
Lemma write_stored q sha : addressed d -> stored d q sha -> stored d' q sha.
Proof.
  intros Ha (x & Hq & Hx). destruct Hd as [He|He]; [|by exists x; rewrite He]. destruct (decide (q = p)) as [->|Hn].
  - exists c. rewrite He, lookup_insert_eq. split; [done|]. rewrite <- Hx. symmetry. by eapply addressed_digest.
  - exists x. by rewrite He, lookup_insert_ne.
Qed.
End writes.

Lemma put_blob_cases m p c : put_blob m p c = <[p := c]> m \/ put_blob m p c = m /\ is_Some (m !! p).
Proof. unfold put_blob. destruct p; [destruct (m !! _) eqn:E|]; eauto. Qed.
Lemma put_file_cases m p c : put_file m p c = <[p := c]> m \/ put_file m p c = m /\ is_Some (m !! p).
Proof. unfold put_file. destruct p; [destruct (m !! _) eqn:E; [destruct (_ && _)|]|]; eauto. Qed.

(** ** What requests do to the bytes *)

Context (group : string -> list string).

(** The copies of an object: at its remote, or on a majority of the data group. *)
Definition majority (g : list string) (d : Stores) (sha : string) : Prop :=
  exists M : gset string, (forall m, m ∈ M -> m ∈ g /\ stored d (OnNode m sha) sha) /\ (length g / 2 + 1 <= size M)%nat.
Definition covered (d : Stores) (b : string) (o : ObjectMeta) : Prop :=
  match o_storage o with
  | Local => majority (group b) d (o_sha256 o)
  | l => forall n, stored d (place n l (o_sha256 o)) (o_sha256 o)
  end.
Definition part_covered (d : Stores) (p : Part) : Prop := exists n, stored d (place n (p_storage p) (p_sha256 p)) (p_sha256 p).

Definition kept (d d' : Stores) : Prop := addressed d -> addressed d' /\ forall p sha, stored d p sha -> stored d' p sha.
#[local] Instance kept_pre : PreOrder kept.
Proof. split; [by intros d|]. intros x y z Hxy Hyz Hx. destruct (Hxy Hx) as [Hy H1]. destruct (Hyz Hy) as [Hz H2]. auto. Qed.

Definition covers (s : RStmt) (d : Stores) : Prop :=
  match s with
  | PutBlob p c | PutFile p c => well_placed p c
  | IndexObject b o _ _ => covered d b o
  | IndexPart _ _ _ p _ => part_covered d p
  | DropBlob _ => False
  | _ => True
  end.

Lemma covers_kept s d : covers s d -> kept d (Script.apply rrun d s).
Proof.
  intros Hs. assert (Hsame : forall d', blobs d' = blobs d -> kept d d').
  { intros d' He Ha. split; [intros p c; rewrite He; apply Ha | unfold stored; by rewrite He]. }
  assert (Hput : forall p c, well_placed p c -> forall m, m = <[p := c]> (blobs d) \/ m = blobs d /\ is_Some (blobs d !! p) -> kept d (set_blobs d m)).
  { intros p c Hp m Hm Ha. assert (Hm' : m = <[p := c]> (blobs d) \/ m = blobs d) by (destruct Hm as [?|[? _]]; auto).
    split; [by eapply write_addressed | intros q sha; by eapply write_stored]. }
  unfold Script.apply. destruct s; cbn in *; repeat break_match; simplify_eq; try (by apply Hsame); try done; eapply Hput; eauto using put_blob_cases, put_file_cases.
Qed.

Lemma covered_mono d d' b o : (forall p sha, stored d p sha -> stored d' p sha) -> covered d b o -> covered d' b o.
Proof.
  intros Hm. unfold covered. destruct (o_storage o); [|auto..]. intros (M & HM & Hz). exists M. split; [|done]. intros m Hin. destruct (HM m Hin). auto.
Qed.
Lemma part_covered_mono d d' p : (forall p sha, stored d p sha -> stored d' p sha) -> part_covered d p -> part_covered d' p.
Proof. intros Hm (n & Hn). exists n. auto. Qed.

(** Metadata never refers to bytes that are not there. *)
Definition backed (d : Stores) : Prop :=
  addressed d /\ (forall b key o, objects (bucket_tables d b) !! key = Some o -> covered d b o) /\
  (forall b k p, parts (bucket_tables d b) !! k = Some p -> part_covered d p).

Lemma backed_step s d : covers s d -> backed d -> backed (Script.apply rrun d s).
Proof.
  intros Hs (Ha & Ho & Hp). destruct (covers_kept s d Hs Ha) as [Ha' Hk]. split_and!; [done|..].
  - intros b key o [Hin|(mb & mo & ->)]%objects_after; [by eapply covered_mono, Ho|]. eapply covered_mono; [exact Hk | exact Hs].
  - intros b k p [Hin|(id & n & key & ->)]%parts_after; [by eapply part_covered_mono, Hp|]. eapply part_covered_mono; [exact Hk | exact Hs].
Qed.

(** ** Requests under interference *)

Notation wp := (Script.wp rrun kept (fun _ _ => True) covers).
Notation top := (fun _ _ => True).

Definition steady (F : Stores -> Prop) : Prop := forall d d', kept d d' -> F d -> F d'.
Definition calm (s : RStmt) : Prop :=
  match s with PutBlob _ _ | PutFile _ _ | DropBlob _ | IndexObject _ _ _ _ | IndexPart _ _ _ _ _ => False | _ => True end.
Lemma calm_covers s : calm s -> forall d, covers s d /\ kept d (Script.apply rrun d s).
Proof. intros Hs d. assert (covers s d) by by destruct s. auto using covers_kept. Qed.
Lemma steady_addressed : steady addressed.
Proof. intros d d' Hk Ha. by apply Hk. Qed.
Lemma steady_stored p sha : steady (fun d => addressed d /\ stored d p sha).
Proof. intros d d' Hk [Ha Hs]. destruct (Hk Ha). auto. Qed.

Lemma wp_calm {A} (m : ROp A) F d : issues calm m -> steady F -> F d -> wp m (fun _ => F) (fun _ _ => True) d.
Proof.
  intros Hm HF Hd. eapply Script.wp_mono; [| |apply (Script.wp_stable _ _ _ _ m F (fun _ => True)); [done| |exact HF|exact Hd]].
  - by intros a d' [_ H].
  - done.
  - apply goes_issues. eapply issues_impl; [|exact Hm]. apply calm_covers.
Qed.
Lemma wp_seq {A B} (m : ROp A) (f : A -> ROp B) F post d : issues calm m -> steady F -> F d ->
  (forall a d', F d' -> wp (f a) post top d') -> wp (Script.bind m f) post top d.
Proof. intros Hm HF Hd Hf. apply Script.wp_bind. eapply Script.wp_mono; [| |by eapply wp_calm]; cbn; auto. Qed.
Lemma wp_void {A} (m : ROp A) d : wp m top top d -> wp (void m) top top d.
Proof. intros Hm. apply Script.wp_bind. eapply Script.wp_mono; [| |exact Hm]; cbn; auto. Qed.

(** ** Writing bytes *)

Definition is_put (put : Place -> bytes -> RStmt) : Prop := put = PutBlob \/ put = PutFile.

Lemma put_stores put p c d : is_put put -> well_placed p c -> addressed d -> stored (Script.apply rrun d (put p c)) p (digest_hex c).
Proof.
  intros Hput Hp Ha. assert (Hm : forall m, m = <[p := c]> (blobs d) \/ m = blobs d /\ is_Some (blobs d !! p) -> stored (set_blobs d m) p (digest_hex c)).
  { intros m [->|[-> [x Hx]]]; [exists c; cbn; by rewrite lookup_insert_eq|]. exists x. split; [done|]. by eapply addressed_digest. }
  destruct Hput as [-> | ->]; apply Hm; [apply put_blob_cases | apply put_file_cases].
Qed.

Lemma wp_put put p c F d : is_put put -> well_placed p c -> steady F -> (forall d, F d -> addressed d) -> F d ->
  wp (exec (put p c) : ROp Z) (fun _ d' => F d' /\ stored d' p (digest_hex c)) (fun _ => F) d.
Proof.
  intros Hput Hp HF Haddr Hd d1 Hk. assert (Hd1 : F d1) by eauto. assert (Hc : covers (put p c) d1) by (by destruct Hput as [-> | ->]).
  assert (Hd2 : F (Script.apply rrun d1 (put p c))) by (eapply HF; [by apply covers_kept | done]).
  split_and!; [done| |exact Hd1|exact Hd2]. replace (Script.affected rrun d1 (put p c)) with (Some 1) by (by destruct Hput as [-> | ->]).
  split; [done|]. apply put_stores; auto.
Qed.

(** The members that answered have the bytes. *)
Definition copies (b sha : string) (st : gset string) (d : Stores) : Prop :=
  addressed d /\ forall m, m ∈ st -> m ∈ group b /\ stored d (OnNode m sha) sha.
Lemma steady_copies b sha st : steady (copies b sha st).
Proof. intros d d' Hk [Ha Hs]. destruct (Hk Ha) as [Ha' Hk']. split; [done|]. intros m Hm. destruct (Hs m Hm). auto. Qed.

Lemma wp_replicate_to v put b c required st members d : is_put put -> (forall m, m ∈ members -> m ∈ group b) -> copies b (digest_hex c) st d ->
  wp (replicate_to v put (digest_hex c) c required st members) (fun st' => copies b (digest_hex c) st') top d.
Proof.
  intros Hput. revert st d. induction members as [|m l IH]; intros st d Hg Hd; cbn [replicate_to]; [exact Hd|].
  assert (Hl : forall m, m ∈ l -> m ∈ group b) by (intros; apply Hg; set_solver).
  destruct (_ <=? _)%nat; [exact Hd|]. destruct (_ || _); [by apply IH|]. apply Script.wp_bind, Script.wp_catch.
  assert (Hw : well_placed (OnNode m (digest_hex c)) c) by (by exists m, Local).
  eapply Script.wp_mono; [| |apply (wp_put put _ c (copies b (digest_hex c) st)); [done|done|apply steady_copies|by intros ? []|done]]; cbn.
  - intros _ d' [[Ha Hs] Hm]. apply IH; [done|]. split; [done|]. intros x [->%elem_of_singleton|Hx]%elem_of_union; [|auto]. split; [apply Hg; set_solver | done].
  - intros _ d' Hc. by apply IH.
Qed.

Lemma wp_replicate v put b c d : is_put put -> v_group v b = group b -> addressed d -> stored d (OnNode (v_node v) (digest_hex c)) (digest_hex c) ->
  wp (replicate_blob v put b (digest_hex c) c) (fun _ d' => addressed d' /\ majority (group b) d' (digest_hex c)) top d.
Proof.
  intros Hput Hv Ha Hs. unfold replicate_blob. rewrite Hv. apply Script.wp_bind. eapply Script.wp_mono; [| |apply (wp_replicate_to v put b c)]; cbn beta.
  - intros st d' [Ha' Hst]. cbn [guard]. destruct (Nat.leb_spec (length (group b) / 2 + 1) (size st)) as [Hz|Hz]; cbn; [|done].
    split; [done|]. by exists st.
  - done.
  - done.
  - done.
  - split; [done|]. intros m Hm. case_bool_decide; [|set_solver]. apply elem_of_singleton in Hm as ->. done.
Qed.

(** ** The requests *)

Hint Resolve issues_head issues_write issues_known issues_storage issues_forward issues_row issues_assemble issues_each : issues.
Hint Resolve steady_addressed steady_stored steady_copies : core.

Lemma calm_orphan b sha z l : issues calm (schedule_orphan_parts b sha z l).
Proof. by apply issues_orphan_parts. Qed.
Hint Resolve calm_orphan : issues.
Hint Extern 0 (calm _) => exact I : issues.

Lemma wp_index b key sha z etag l o s previous F d : steady F -> F d ->
  (forall d meta, F d -> o_sha256 meta = sha -> o_storage meta = l -> covered d b meta) ->
  wp (index_committed_object b key sha z etag l o s previous) top top d.
Proof.
  intros HF Hd Hc. unfold index_committed_object. apply (wp_seq _ _ F); [auto with issues..|]. intros now d1 Hd1. apply Script.wp_bind.
  intros d2 Hk. assert (Hd2 : F d2) by eauto. set (meta := mkMeta _ _ _ _ _ _ _ _ _). assert (Hi : covered d2 b meta) by (by apply Hc).
  split_and!; [exact Hi| |done|done]. destruct (Script.affected _ _ _) as [n|]; [|done]. cbn [Script.wp].
  eapply Script.wp_mono; [| |apply (wp_calm _ (fun _ => True))]; [done|done| |done|done].
  apply issues_bind; [auto with issues|]. intros _. apply issues_bind; [|auto with issues]. destruct previous; [|done]. apply issues_if; [done | apply calm_orphan].
Qed.

Lemma wp_store_index v put b key c etag l o s previous d : is_put put -> v_group v b = group b -> addressed d ->
  wp (Script.bind (exec (put (place (v_node v) l (digest_hex c)) c)) (fun _ =>
      Script.bind (if bool_decide (l = Local) then replicate_blob v put b (digest_hex c) c else ret tt) (fun _ =>
      index_committed_object b key (digest_hex c) (blen c) etag l o s previous))) top top d.
Proof.
  intros Hput Hv Ha. assert (Hw : well_placed (place (v_node v) l (digest_hex c)) c) by (by exists (v_node v), l).
  apply Script.wp_bind. eapply Script.wp_mono; [| |apply (wp_put put _ c addressed); auto]; [|done]. cbn beta. intros _ d1 [Ha1 Hs1].
  apply Script.wp_bind. case_bool_decide as Hl.
  - subst l. eapply Script.wp_mono; [| |by apply wp_replicate]; [|done]. intros _ d2 [Ha2 Hm].
    apply (wp_index _ _ _ _ _ _ _ _ _ (fun d => addressed d /\ majority (group b) d (digest_hex c))); [|done|].
    + intros x y Hk [Hx (M & HM & Hz)]. destruct (Hk Hx) as [Hy Hk']. split; [done|]. exists M. split; [|done]. intros m Hin. destruct (HM m Hin). auto.
    + intros d3 meta [_ Hm3] Hsh Hst. unfold covered. by rewrite Hst, Hsh.
  - cbn. eapply (wp_index _ _ _ _ _ _ _ _ _ (fun d => addressed d /\ stored d (place (v_node v) l (digest_hex c)) (digest_hex c))); [auto|done|].
    intros d3 meta [_ Hs3] Hsh Hst. unfold covered. rewrite Hst, Hsh. destruct l; [done|exact (fun _ => Hs3)..].
Qed.

Lemma wp_commit v b key c o d : v_group v b = group b -> addressed d -> wp (commit_object v b key c o) top top d.
Proof.
  intros Hv Ha. unfold commit_object, r2_ensure_schema. do 2 (apply (wp_seq _ _ addressed); [auto with issues..|]; intros ? ? ?).
  destruct (negb _); [eapply Script.wp_mono; [| |apply (wp_calm _ addressed); auto with issues]; done|].
  do 3 (apply (wp_seq _ _ addressed); [auto with issues..|]; intros ? ? ?). apply wp_store_index; [by left | done..].
Qed.
Lemma wp_commit_file v b key c etag o d : v_group v b = group b -> addressed d -> wp (commit_object_file v b key c etag o) top top d.
Proof.
  intros Hv Ha. unfold commit_object_file, r2_ensure_schema. do 2 (apply (wp_seq _ _ addressed); [auto with issues..|]; intros ? ? ?).
  destruct (negb _); [eapply Script.wp_mono; [| |apply (wp_calm _ addressed); auto with issues]; done|].
  do 4 (apply (wp_seq _ _ addressed); [auto with issues..|]; intros ? ? ?). apply wp_store_index; [by right | done..].
Qed.

Lemma wp_tail {A} (m : ROp A) d : issues calm m -> wp m top top d.
Proof. intros Hm. eapply Script.wp_mono; [| |apply (wp_calm m (fun _ => True)); done]; done. Qed.

Lemma wp_part bound put checked v b key id n c d : is_put put -> addressed d -> wp (upload_part_with bound put checked v b key id n c) top top d.
Proof.
  intros Hput Ha. unfold upload_part_with, r2_ensure_schema. do 9 (apply (wp_seq _ _ addressed); [auto with issues..|]; intros ? ? ?). rename a7 into l.
  destruct (negb (supports _ _)); [apply wp_tail; auto with issues|]. apply (wp_seq _ _ addressed); [auto with issues..|]. intros _ d1 Ha1.
  apply Script.wp_bind. eapply Script.wp_mono; [| |apply (wp_put put _ c addressed); auto]; [|done|by eexists _, _]. cbn beta. intros _ d2 Hd2.
  unfold index_uploaded_part. apply (wp_seq _ _ (fun d => addressed d /\ stored d (place (v_node v) l (digest_hex c)) (digest_hex c))); [auto with issues..|]. intros now d3 [Ha3 Hs3].
  apply Script.wp_bind. intros d4 Hk. split_and!; [| |done|done].
  { eexists. cbn. exact (proj2 (steady_stored _ _ _ _ Hk (conj Ha3 Hs3))). }
  destruct (Script.affected _ _ _) as [r|]; [|done]. cbn [Script.wp]. apply wp_tail. auto with issues.
Qed.

Lemma wp_complete_upload v b key id l d : v_group v b = group b -> addressed d -> wp (complete_multipart_upload v b key id l) top top d.
Proof.
  intros Hv Ha. unfold complete_multipart_upload, r2_ensure_schema. do 7 (apply (wp_seq _ _ addressed); [auto with issues..|]; intros ? ? ?).
  destruct (_ && _); [apply wp_tail; auto with issues|]. apply (wp_seq _ _ addressed); [auto with issues..|]. intros x d1 Ha1.
  apply Script.wp_bind. eapply Script.wp_mono; [| |by apply wp_commit_file]; [|done]. intros meta d2 _. apply wp_tail.
  repeat (apply issues_bind; [auto with issues|]; intros ?). apply issues_ret.
Qed.

Lemma wp_borrow b key o l d : addressed d -> wp (borrow b key o l) (fun c d' => addressed d' /\ digest_hex c = o_sha256 o) top d.
Proof.
  revert d. induction l as [|p l IH]; intros d Ha; cbn [borrow]; [done|]. intros d1 Hk. assert (Ha1 := proj1 (Hk Ha)). split; [done|].
  intros [m|n e z|c| |]; try (by apply IH). destruct (_ && _) eqn:E; [|by apply IH]. to_prop. done.
Qed.
Lemma wp_repair v b key o d : addressed d -> wp (repair_local_file v b key o) top top d.
Proof.
  intros Ha. unfold repair_local_file. apply Script.wp_bind. eapply Script.wp_mono; [| |by apply wp_borrow]; [|done]. intros c d1 [Ha1 Hc].
  apply Script.wp_bind. rewrite <- Hc. eapply Script.wp_mono; [| |apply (wp_put PutFile _ c addressed); [by right|by exists (v_node v), Local|auto..]]; [|done].
  intros _ d2 _. apply wp_tail, issues_materialize.
Qed.
Lemma wp_get v b key d : addressed d -> wp (get_object v b key) top top d.
Proof.
  intros Ha. unfold get_object. apply Script.wp_bind. eapply (Script.wp_mono _ _ _ _ _ top _ top); [|done|].
  { intros [[o c]|] d' _; [|done]. apply wp_tail. auto with issues. }
  unfold materialize_object. apply (wp_seq _ _ addressed); [auto with issues..|]. intros [o|] d1 Ha1; [|done].
  apply (wp_seq _ _ addressed); [apply issues_catch, issues_materialize|auto..|]. intros r d2 Ha2. apply Script.wp_bind.
  eapply (Script.wp_mono _ _ _ _ _ top _ top); [|done|].
  - intros c d3 _. apply wp_tail. auto with issues.
  - destruct r; [done|]. destruct (bool_decide _); [by apply wp_repair | apply wp_tail, issues_borrow].
Qed.

Lemma wp_request v m d : (forall b, v_group v b = group b) -> addressed d -> request v m -> wp m top top d.
Proof.
  intros Hv Ha Hm. destruct Hm as [b key c o|b key c o|b key|b key o|b key id n c|b key id n c|b key id l|b id|b key|b p cu z dl|b p cu z]; apply wp_void.
  - unfold put_object. do 3 (apply (wp_seq _ _ addressed); [auto with issues..|]; intros ? ? ?). by apply wp_commit.
  - unfold put_object_file. do 3 (apply (wp_seq _ _ addressed); [auto with issues..|]; intros ? ? ?). by apply wp_commit_file.
  - apply wp_tail. by apply issues_delete.
  - apply wp_tail. by apply issues_create_upload.
  - apply wp_part; [by left | done].
  - apply wp_part; [by right | done].
  - by apply wp_complete_upload.
  - apply wp_tail. by apply issues_abort_by_id.
  - by apply wp_get.
  - apply wp_tail, issues_delimited.
  - apply wp_tail, issues_uploads.
Qed.

(** Requests of nodes that agree on the data groups; no sweep. *)
Inductive serving : ROp unit -> Prop :=
| serve v m : (forall b, v_group v b = group b) -> request v m -> serving m.

End bytes.
