(* ===== verification/R2Sweep.v ===== *)
(** * R2Sweep: the collection of bytes no longer referred to

    A sweep that runs alone keeps the bytes of every object of a live bucket, whatever is refused or lost on the
    way, provided that different locations are different places.  The traces show what goes wrong otherwise:
    a put that runs at the same time, two prefixes for one folder, copies on other nodes. *)

From Stdlib Require Import ZArith Lia Ascii SpecFloat.
From stdpp Require Import prelude gmap sorting strings list pretty.
From S2P Require Import Prelude Text Json Script Hlc Identity Envelope Kv Cron Claim Manifest Quorum DataAudit Observability Store Node NodeFacts Resource Storage Quota R2 R2Props R2Bytes.
Open Scope Z_scope.

Section sweep.
Context {crypto : Crypto} {hex : Hex}.
Context (v : View) (d0 : Stores).

(** What the tables mention. *)
Inductive mentioned (d : Stores) : string -> StorageLocation -> Prop :=
| in_object b key o : objects (bucket_tables d b) !! key = Some o -> mentioned d (o_sha256 o) (o_storage o)
| in_part b k p : parts (bucket_tables d b) !! k = Some p -> mentioned d (p_sha256 p) (p_storage p)
| in_orphan b sha l x : orphans (bucket_tables d b) !! (sha, l) = Some x -> mentioned d sha l.
Definition distinct_places : Prop := forall sha l sha' l' n n', mentioned d0 sha l -> mentioned d0 sha' l' ->
  place n l sha = place n' l' sha' -> sha = sha' /\ l = l'.
Definition live (b : string) : Prop := exists s, (b, (false, s)) ∈ v_buckets v.

(** Since [d0]: no object is new, nothing else is mentioned, live objects have their bytes. *)
Definition swept (d : Stores) : Prop :=
  (forall b key o, objects (bucket_tables d b) !! key = Some o -> objects (bucket_tables d0 b) !! key = Some o) /\
  (forall sha l, mentioned d sha l -> mentioned d0 sha l) /\
  (forall b key o n, live b -> objects (bucket_tables d b) !! key = Some o ->
     stored d0 (place n (o_storage o) (o_sha256 o)) (o_sha256 o) -> stored d (place n (o_storage o) (o_sha256 o)) (o_sha256 o)).

(** The statements of a sweep but for the deletion of bytes. *)
Definition sweeps (s : RStmt) : Prop :=
  match s with
  | ScheduleOrphan _ sha l _ _ => mentioned d0 sha l
  | DeleteObject _ _ | DeleteVersion _ _ _ _ | DeleteParts _ _ | DeleteUpload _ _ _ | RemoveOrphan _ _ _ => True
  | _ => False
  end.

Lemma sweeps_blobs s d : sweeps s -> blobs (Script.apply rrun d s) = blobs d.
Proof. unfold Script.apply. destruct s; cbn; repeat break_match; naive_solver. Qed.
Lemma sweeps_objects s d b key o : sweeps s -> objects (bucket_tables (Script.apply rrun d s) b) !! key = Some o ->
  objects (bucket_tables d b) !! key = Some o.
Proof. intros Hs [H|(mb & mo & ->)]%objects_after; [done | by destruct Hs]. Qed.
Lemma sweeps_orphans s d b sha l x : sweeps s -> orphans (bucket_tables (Script.apply rrun d s) b) !! (sha, l) = Some x ->
  (exists x', orphans (bucket_tables d b) !! (sha, l) = Some x') \/ mentioned d0 sha l.
Proof.
  intros Hs. unfold Script.apply. destruct s; cbn in *; try done; repeat break_match; simplify_eq; eauto; rewrite tables_set; destruct (decide _) as [->|]; cbn; eauto.
  - rewrite lookup_insert_Some. intros [[[= -> ->] _]|[_ ?]]; eauto.
  - rewrite lookup_delete_Some. intros [_ ?]. eauto.
Qed.

Lemma swept_step s d : sweeps s -> swept d -> swept (Script.apply rrun d s).
Proof.
  intros Hs (Ho & Hm & Hb). split_and!.
  - intros b key o H. eapply Ho, sweeps_objects; eauto.
  - intros sha l [b key o H|b k p H|b sha' l' x H].
    + eapply Hm, in_object, sweeps_objects; eauto.
    + apply parts_after in H as [H|(id & n & key & ->)]; [by eapply Hm, in_part | by destruct Hs].
    + apply sweeps_orphans in H as [[x' H]|H]; [by eapply Hm, in_orphan | done | done].
  - intros b key o n Hl H. unfold stored. rewrite sweeps_blobs by done. eapply Hb; [done|]. by eapply sweeps_objects.
Qed.

(** Deleting bytes no live bucket refers to. *)
Lemma swept_drop sha l d : distinct_places -> mentioned d0 sha l -> (forall b, live b -> references (bucket_tables d b) sha l = false) ->
  swept d -> swept (Script.apply rrun d (DropBlob (place (v_node v) l sha))).
Proof.
  intros Hd Hin Hr (Ho & Hm & Hb). split_and!; [exact Ho | intros x y []; by first [eapply Hm, in_object | eapply Hm, in_part | eapply Hm, in_orphan]|].
  intros b key o n Hl H Hs. change (objects (bucket_tables d b) !! key = Some o) in H. destruct (Hb b key o n Hl H Hs) as (c & Hc & He). exists c. split; [|done].
  cbn. rewrite lookup_delete_ne; [done|]. intros Hp. destruct (Hd _ _ _ _ _ _ Hin (Hm _ _ (in_object _ _ _ _ H)) Hp) as [-> ->].
  specialize (Hr b Hl). unfold references in Hr. apply orb_false_iff in Hr as [Hr _]. rewrite <- not_true_iff_false in Hr. apply Hr, existsb_exists.
  exists (key, o). split; [by apply list_elem_of_In, elem_of_map_to_list|]. cbn. by rewrite !bool_decide_true.
Qed.

(** ** The sweep alone *)

Section alone.
Context (now_at : nat -> Z) (id_at : nat -> string) (fault_at : nat -> Fault) (answer : nat -> RQuestion -> RAnswer).
Notation playing := (play rrun now_at id_at fault_at answer).
Notation wp := (Script.wp rrun eq (fun _ _ => True) (fun _ _ => True)).

Lemma wp_sweeps {A} (m : ROp A) d : issues sweeps m -> swept d -> wp m (fun _ => swept) (fun _ => swept) d.
Proof.
  revert d. induction m as [a|e|s k IH|X q k IH|k IH|k IH|q k IH]; intros d Hm Hd; cbn in *; auto.
  - intros d1 <-. destruct Hm. split_and!; auto using swept_step.
  - intros d1 <-. auto.
  - intros d1 <-. auto.
Qed.
Lemma wp_sweeps_seq {A B} (m : ROp A) (f : A -> ROp B) d : issues sweeps m -> swept d ->
  (forall a d', swept d' -> wp (f a) (fun _ => swept) (fun _ => swept) d') -> wp (Script.bind m f) (fun _ => swept) (fun _ => swept) d.
Proof. intros Hm Hd Hf. apply Script.wp_bind. eapply Script.wp_mono; [| |by apply wp_sweeps]; auto. Qed.
Lemma wp_reads {X B} (q : Stores -> X) (f : X -> ROp B) d : swept d -> wp (f (q d)) (fun _ => swept) (fun _ => swept) d ->
  wp (Script.bind (select q) f) (fun _ => swept) (fun _ => swept) d.
Proof. intros Hd Hf d1 <-. cbn. auto. Qed.

Lemma mentioned_objects d b cutoff o : swept d -> o ∈ past_lifecycle cutoff d b -> mentioned d0 (o_sha256 o) (o_storage o).
Proof.
  intros (_ & Hm & _) (i & Hi & _)%elem_of_take. apply list_elem_of_lookup_2 in Hi. rewrite merge_sort_Permutation in Hi.
  apply list_elem_of_filter in Hi as [_ ([k o'] & -> & Hin%elem_of_map_to_list)%list_elem_of_fmap]. by eapply Hm, in_object.
Qed.
Lemma mentioned_parts d b id p : swept d -> p ∈ parts_of d b id -> mentioned d0 (p_sha256 p) (p_storage p).
Proof. intros (_ & Hm & _) ([k p'] & -> & [_ Hin%elem_of_map_to_list]%list_elem_of_filter)%list_elem_of_fmap. by eapply Hm, in_part. Qed.
Lemma mentioned_orphans d b now sha l : swept d -> (sha, l) ∈ collectable now d b -> mentioned d0 sha l.
Proof.
  intros (_ & Hm & _) (i & Hi & _)%elem_of_take. apply list_elem_of_lookup_2, list_elem_of_fmap in Hi as ([k x] & Hk & [_ Hin%elem_of_map_to_list]%list_elem_of_filter).
  cbn in Hk. subst k. by eapply Hm, in_orphan.
Qed.

Lemma sweeps_schedule b sha z l : mentioned d0 sha l -> issues sweeps (schedule_orphan_parts b sha z l).
Proof. intros Hm. unfold schedule_orphan_parts. apply issues_bind; [auto with issues|]. intros now. apply issues_bind; [by apply issues_exec | auto with issues]. Qed.

Lemma sweeps_expire b l n : (forall o, o ∈ l -> mentioned d0 (o_sha256 o) (o_storage o)) -> issues sweeps (expire_each b l n).
Proof.
  revert n. induction l as [|o l IH]; intros n Hl; [done|]. cbn [expire_each]. apply issues_bind; [by apply issues_exec|]. intros r.
  apply issues_if; [|apply IH; set_solver]. apply issues_bind; [apply sweeps_schedule, Hl; set_solver|]. intros _. apply IH. set_solver.
Qed.
Lemma wp_expire rounds b cutoff n d : swept d -> wp (expire_objects rounds b cutoff n) (fun _ => swept) (fun _ => swept) d.
Proof.
  revert n d. induction rounds as [|rounds IH]; intros n d Hd; [done|]. cbn [expire_objects]. apply wp_reads; [done|].
  destruct (bool_decide _); [done|]. apply wp_sweeps_seq; [|done|].
  - apply sweeps_expire. intros o Ho. by eapply mentioned_objects.
  - intros k d' Hd'. destruct (_ <? _)%nat; [done | by apply IH].
Qed.

Lemma sweeps_row b key id : issues sweeps (multipart_row b key id).
Proof. apply issues_row. Qed.
Lemma wp_abort b key id d : swept d -> wp (abort_multipart_upload b key id) (fun _ => swept) (fun _ => swept) d.
Proof.
  intros Hd. unfold abort_multipart_upload, r2_ensure_schema. do 4 (apply wp_sweeps_seq; [auto using sweeps_row with issues|done|]; clear d Hd; intros ? d Hd).
  apply wp_reads; [done|]. apply wp_sweeps; [|done]. repeat (apply issues_bind; [first [by apply issues_exec | auto with issues]|]; intros ?).
  assert (Hp : forall p, p ∈ parts_of d b id -> mentioned d0 (p_sha256 p) (p_storage p)) by (intros p; by apply mentioned_parts).
  induction (parts_of d b id) as [|p l IH]; [done|]. cbn [each]. apply issues_bind; [apply sweeps_schedule, Hp; set_solver|]. intros _. apply IH. set_solver.
Qed.
Lemma wp_expire_uploads b l n d : swept d -> wp (expire_uploads b l n) (fun _ => swept) (fun _ => swept) d.
Proof.
  revert n d. induction l as [|[id u] l IH]; intros n d Hd; [done|]. cbn [expire_uploads]. apply Script.wp_bind, Script.wp_catch.
  eapply Script.wp_mono; [| |by apply wp_abort]; cbn beta; auto.
Qed.
Lemma wp_sweep_buckets rounds now l w d : swept d -> wp (sweep_buckets rounds now l w) (fun _ => swept) (fun _ => swept) d.
Proof.
  revert w d. induction l as [|[b [gone s]] l IH]; intros w d Hd; [done|]. cbn [sweep_buckets]. unfold r2_ensure_schema.
  apply wp_sweeps_seq; [auto with issues|done|]. intros _ d1 Hd1. apply Script.wp_bind. eapply (Script.wp_mono _ _ _ _ _ (fun _ => swept) _ (fun _ => swept)); [|done|].
  - intros n d2 Hd2. apply wp_reads; [done|]. apply Script.wp_bind. eapply Script.wp_mono; [| |by apply wp_expire_uploads]; cbn beta; auto.
  - destruct (lifecycle_cutoff _ _ _); [by apply wp_expire | done].
Qed.

Lemma wp_referenced l sha loc d :
  wp (blob_referenced_anywhere l sha loc)
    (fun r d' => d' = d /\ (r = false -> forall b s, (b, (false, s)) ∈ l -> references (bucket_tables d b) sha loc = false)) (fun _ d' => d' = d) d.
Proof.
  induction l as [|[b [[] s]] l IH]; cbn [blob_referenced_anywhere].
  - split; [done|]. intros _ b s Hin. by apply not_elem_of_nil in Hin.
  - eapply Script.wp_mono; [| |exact IH]; [|done]. intros r d' [-> Hr]. split; [done|]. intros Hf b' s' [[=]|Hin]%elem_of_cons. by eapply Hr.
  - intros d1 <-. cbn [Script.wp Script.bind]. split; [|done]. destruct (references (bucket_tables d b) sha loc) eqn:Er; [by split|].
    eapply Script.wp_mono; [| |exact IH]; [|done]. intros r d' [-> Hr]. split; [done|]. intros Hf b' s' [[= -> ->]|Hin]%elem_of_cons; [done | by eapply Hr].
Qed.

Context (Hplaces : distinct_places).

Lemma wp_collect_each b l w d : swept d -> (forall sha loc, (sha, loc) ∈ l -> mentioned d0 sha loc) ->
  wp (collect_each v b l w) (fun _ => swept) (fun _ => swept) d.
Proof.
  revert w d. induction l as [|[sha loc] l IH]; intros w d Hd Hl; [done|]. cbn [collect_each]. unfold remove_orphan_candidate, delete_blob.
  assert (Hl' : forall sha loc, (sha, loc) ∈ l -> mentioned d0 sha loc) by (intros; apply Hl; set_solver).
  apply Script.wp_bind. eapply Script.wp_mono; [| |apply wp_referenced]; [|by intros e d' ->]. intros [] d' [-> Hr].
  - apply wp_sweeps_seq; [apply issues_bind; [by apply issues_exec | auto with issues]|done|]. intros _ d1 Hd1. by apply IH.
  - apply Script.wp_bind. eapply (Script.wp_mono _ _ _ _ _ (fun _ => swept) _ (fun _ => swept)); [|done|].
    + intros _ d1 Hd1. apply wp_sweeps_seq; [apply issues_bind; [by apply issues_exec | auto with issues]|done|]. intros _ d2 Hd2. by apply IH.
    + cbn [guard]. destruct (valid_location loc); [|done]. destruct (supports _ _); [|done]. cbn [Script.bind ret]. intros d1 <-.
      assert (Hx : swept (Script.apply rrun d (DropBlob (place (v_node v) loc sha)))).
      { apply swept_drop; [done|apply Hl; set_solver| |done]. intros b' [s Hs]. by eapply Hr. }
      split_and!; done.
Qed.
Lemma wp_collect now l w d : swept d -> wp (collect_buckets v now l w) (fun _ => swept) (fun _ => swept) d.
Proof.
  revert w d. induction l as [|[b x] l IH]; intros w d Hd; [done|]. cbn [collect_buckets]. apply wp_reads; [done|]. apply Script.wp_bind.
  eapply Script.wp_mono; [| |apply wp_collect_each; [done|]]; cbn beta; [auto|auto|]. intros sha loc. by apply mentioned_orphans.
Qed.
Lemma wp_sweep rounds d : swept d -> wp (sweep_lifecycle rounds v) (fun _ => swept) (fun _ => swept) d.
Proof.
  intros Hd. unfold sweep_lifecycle. apply wp_sweeps_seq; [auto with issues|done|]. intros now d1 Hd1. apply Script.wp_bind.
  eapply Script.wp_mono; [| |by apply wp_sweep_buckets]; cbn beta; [|auto]. intros w d2 Hd2. by apply wp_collect.
Qed.
End alone.
End sweep.

