(* ===== verification/R2Trace.v ===== *)
(** * R2Trace: runs in which bytes and metadata part

    Sample runs, every one without a fault: a put that runs while a sweep does, two spellings of one folder, the copies of an object on
    other nodes, and parts uploaded through another node; and the witnesses of the theorems on buckets. *)

From Stdlib Require Import ZArith Lia Ascii SpecFloat.
From stdpp Require Import prelude gmap sorting strings list pretty.
From S2P Require Import Prelude Text Json Script Hlc Identity Envelope Kv Cron Claim Manifest Quorum DataAudit Observability Store Node NodeFacts Resource Storage Quota R2 R2Props R2Bytes R2Sweep.
Open Scope Z_scope.

Module R2Sample.
#[export] Instance crypto : Crypto := Sample.crypto.
#[export] Instance hex : Hex := Sample.hex.
#[export] Instance hex_ok : HexOk := Sample.hex_ok.
#[export] Instance serde : SerdeJson := {| to_text := fun _ => ""; from_text := fun _ => None |}.
#[export] Instance md : Md5 := fun b => b.

(** A day passes between interactions. *)
Definition now_at (n : nat) : Z := DAY_MS * Z.of_nat n.
Definition id_at (n : nat) : string := (stake 38 "00000000000000000000000000000000000000" ++ pretty n)%string.
Definition healthy (_ : nat) : Fault := Healthy.
Definition answer (_ : nat) (_ : RQuestion) : RAnswer := GotError.

Definition bucket (l : StorageLocation) (limit : option Z) : bool * BucketSpec := (false, mkBucketSpec "" false l None limit None None [] []).
Definition local_buckets : list (string * (bool * BucketSpec)) := [("b", bucket Local (Some 100))].
Definition remote_buckets : list (string * (bool * BucketSpec)) := [("b", bucket (Rclone "r" "x") None); ("c", bucket (Rclone "r" "x/") None)].
Definition node_of (name : string) (buckets : list (string * (bool * BucketSpec))) (group : list string) : View :=
  mkNodeView name true buckets (Ok default_storage_policy) (Ok default_quota) (fun _ => group) (map (fun m => mkPeer m true true) group).
Definition no_stores : Stores := mkStores ∅ ∅.
Definition no_options : PutOptions := mkOptions None [] [].

Definition after (ops : list (ROp unit)) : Stores := (play_all rrun now_at id_at healthy answer ops no_stores 0).1.

(** One node, a group of its own. *)
Definition a1 : View := node_of "a" local_buckets ["a"].
Definition put_one (key : string) : ROp unit := void (put_object a1 "b" key [1] no_options).
Definition delete_one : ROp unit := void (delete_object a1 "b" "k").
Definition sweep_one : ROp unit := void (sweep_lifecycle 10 a1).

(** Two nodes in one group. *)
Definition a2 : View := node_of "a" local_buckets ["a"; "n"].
Definition n2 : View := node_of "n" local_buckets ["a"; "n"].

(** Two buckets in one folder of a remote. *)
Definition r1 : View := node_of "a" remote_buckets ["a"].

Lemma r2_id_inj n m : id_at n = id_at m -> n = m.
Proof. intros H. apply (inj pretty). unfold id_at in H. by apply (inj (String.append _)) in H. Qed.
End R2Sample.
Import R2Sample.

(** ** What a sweep can take away *)

(** Operations one after the other, then several at once by a schedule. *)
Lemma r2_reached (V : View -> Prop) (ops more : list (ROp unit)) (now : Z) (l : list nat) :
  Forall (running V) ops -> Forall (running V) more -> finished (Script.follow rrun now l (after ops) more).2 ->
  exists s, reachable rrun (running V) False no_stores s /\ finished (pool s) /\ state s = (Script.follow rrun now l (after ops) more).1.
Proof.
  intros Ho Hm Hf. destruct (play_all_runs rrun (running V) False now_at id_at healthy answer r2_id_inj (fun n H => H eq_refl) ops [] ∅ no_stores 0 Ho)
    as (p & u & Hr & _ & Hp); [intros n _; set_solver | constructor|].
  eexists. split_and!; [unfold reachable; etransitivity; [exact Hr | by apply follow_after] | by apply Forall_app | done].
Qed.

Lemma run_put v b key c o (V : View -> Prop) : V v -> running V (void (put_object v b key c o)).
Proof. intros Hv. eapply run_request; [done | constructor]. Qed.
Lemma run_delete v b key (V : View -> Prop) : V v -> running V (void (delete_object v b key)).
Proof. intros Hv. eapply run_request; [done | constructor]. Qed.
#[local] Hint Resolve run_put run_delete run_sweep : r2.
#[local] Hint Constructors Forall : r2.

(** C21: a sweep can delete the bytes of an object that a put is storing at the same time. There is a run without faults on one node,
    at whose end every operation has ended, an object is in the metadata, and its bytes are nowhere. *)
Theorem sweep_races_with_put : exists s o,
  reachable rrun (running (fun v => v = a1)) False no_stores s /\ finished (pool s) /\
  objects (bucket_tables (state s) "b") !! "j" = Some o /\ blobs (state s) = ∅.
Proof.
  destruct (r2_reached (fun v => v = a1) [put_one "k"; delete_one] [sweep_one; put_one "j"] (100 * DAY_MS)
    (replicate 5 0%nat ++ replicate 60 1%nat ++ replicate 10 0%nat)) as (s & Hr & Hf & Hs); [by unfold put_one, delete_one, sweep_one; auto 10 with r2..| |].
  { vm_compute. constructor; [left; by eexists|]. constructor; [left; by eexists | constructor]. }
  exists s, (mkMeta "j" "01" 1 "01" None [] [] Local (100 * DAY_MS)). split_and!; [done|done|..]; rewrite Hs; vm_compute; reflexivity.
Qed.

(** With two spellings of one folder, a sweep deletes bytes that are needed. There is a run without faults on one node, one operation at a
    time, at whose end an object of a bucket with prefix "x/" is in the metadata and its bytes are nowhere: a bucket with prefix "x"
    had the same bytes. *)
Theorem prefix_spellings_share_bytes : exists s o,
  reachable rrun (running (fun v => v = r1)) False no_stores s /\ finished (pool s) /\
  objects (bucket_tables (state s) "c") !! "k" = Some o /\ o_storage o = Rclone "r" "x/" /\ blobs (state s) = ∅.
Proof.
  destruct (r2_reached (fun v => v = r1) [void (put_object r1 "b" "k" [1] no_options); void (put_object r1 "c" "k" [1] no_options);
    void (delete_object r1 "b" "k"); void (sweep_lifecycle 10 r1)] [] 0 []) as (s & Hr & Hf & Hs); [by auto 10 with r2..|constructor|].
  exists s, (mkMeta "k" "01" 1 "01" None [] [] (Rclone "r" "x/") (18 * DAY_MS)). split_and!; [done|done|..|done|]; rewrite Hs; vm_compute; reflexivity.
Qed.

(** The copies of a deleted object on the other nodes of its group stay: the sweep of one node removes the only record of them. *)
Lemma copies_outlive_objects : exists s,
  reachable rrun (running (fun v => v = a2 \/ v = n2)) False no_stores s /\ finished (pool s) /\
  bucket_tables (state s) "b" = no_tables /\ blobs (state s) !! OnNode "n" "01" = Some [1].
Proof.
  destruct (r2_reached (fun v => v = a2 \/ v = n2) [void (put_object a2 "b" "k" [1] no_options); void (delete_object a2 "b" "k");
    void (sweep_lifecycle 10 a2); void (sweep_lifecycle 10 n2)] [] 0 []) as (s & Hr & Hf & Hs); [by auto 10 with r2..|constructor|].
  exists s. split_and!; [done|done|..]; rewrite Hs; vm_compute; reflexivity.
Qed.

(** An upload whose part went through another node cannot be completed here: parts in local storage stay where they were uploaded. *)
Lemma parts_stay_on_their_node :
  let id := "0000000000000000000000000000000000000017" in
  let '(d, t) := play_all rrun (fun _ => 5) id_at healthy answer
    [put_one "k"; put_one "j"; void (create_multipart_upload a2 "b" "m" no_options); void (upload_part a2 "b" "m" id 1 [7])] no_stores 0 in
  is_ok (play rrun (fun _ => 5) id_at healthy answer (complete_multipart_upload a2 "b" "m" id [mkPublished 1 "07"]) d t).2 = true /\
  (play rrun (fun _ => 5) id_at healthy answer (complete_multipart_upload n2 "b" "m" id [mkPublished 1 "07"]) d t).2 = Err BlobMissing.
Proof. vm_compute. split; reflexivity. Qed.

(** ** Witnesses *)

(** One object of one byte. *)
Definition one_object : ObjectMeta := mkMeta "k" "01" 1 "01" None [] [] Local (6 * DAY_MS).
Definition one_stored : Stores := after [put_one "k"].
Lemma one_stored_tables : one_stored = mkStores {["b" := mkTables {["k" := one_object]} ∅ ∅ ∅]} {[OnNode "a" "01" := [1]]}.
Proof. vm_compute. reflexivity. Qed.

Lemma one_tables : bucket_tables one_stored "b" = mkTables {["k" := one_object]} ∅ ∅ ∅.
Proof. vm_compute. reflexivity. Qed.

Lemma bucket_limits_hold_witness : exists s,
  reachable rrun (running (limits "b" 100 0)) False no_stores s /\ objects (bucket_tables (state s) "b") !! "k" = Some one_object /\
  within_limits 100 0 (objects (bucket_tables (state s) "b")).
Proof.
  assert (Hv : limits "b" 100 0 a1) by (intros s Hs; injection Hs as <-; done).
  destruct (r2_reached (limits "b" 100 0) [put_one "k"] [] 0 []) as (s & Hr & _ & Hs);
    [constructor; [exact (run_put _ _ _ _ _ _ Hv) | constructor] | constructor | constructor |].
  exists s. split; [exact Hr|]. split; [rewrite Hs; vm_compute; reflexivity|]. refine (bucket_limits_hold "b" 100 0 False no_stores s _ Hr).
  split; [intros k o Ho; discriminate Ho|]. split; right; vm_compute; discriminate.
Defined.

Lemma one_rows : rows_ok (objects (bucket_tables one_stored "b")).
Proof.
  rewrite one_tables. cbn [objects]. intros k o Ho. apply lookup_singleton_Some in Ho as [<- <-]. split; reflexivity.
Qed.

Lemma put_request_roundtrip_witness : exists payload,
  encode_put_request (fun _ => [9; 9]) no_options [1; 2; 3] = Ok payload /\
  decode_put_request (fun _ => Some no_options) payload = Ok (no_options, [1; 2; 3]).
Proof.
  exists [0; 0; 0; 2; 9; 9; 1; 2; 3]. split; [vm_compute; reflexivity|].
  refine (put_request_roundtrip (fun _ => [9; 9]) (fun _ => Some no_options) no_options [1; 2; 3] _ eq_refl _). vm_compute. reflexivity.
Defined.


Lemma one_mentioned sha l : mentioned one_stored sha l -> sha = "01" /\ l = Local.
Proof.
  assert (Hb : forall b, b <> "b" -> bucket_tables one_stored b = no_tables) by (intros b Hn; rewrite one_stored_tables; unfold bucket_tables; cbn; by rewrite lookup_singleton_ne).
  assert (Ht := one_tables).
  intros [b key o H|b k p H|b sha' l' x H]; destruct (decide (b = "b")) as [->|Hn]; rewrite ?Ht in H; try (rewrite Hb in H by done); cbn in H; try done.
  by apply lookup_singleton_Some in H as [_ <-].
Qed.
