(* ===== verification/Pipeline.v ===== *)
(** * Pipeline: event pipelines (crates/rf/src/pipeline.rs)

    Accepted events go into the pipeline's database and from there, in batches, into objects of a
    bucket.  [PStmt] has the statements of the module beside those of [R2],
    [prun] their meaning; [ingest], [flush_once] and the driver are scripts, which run the
    operations of [R2] with [lift].  The formats of requests, the
    optional SQL transformation and the names of objects are functions.

    SQLite for transformations, gzip, JSON Schema, base64 and calendar dates are
    third-party code. *)

From Stdlib Require Import ZArith Lia Ascii SpecFloat.
From stdpp Require Import prelude gmap sorting strings list pretty.
From S2P Require Import Prelude Text Json Script Hlc Identity Envelope Kv Cron Claim Manifest Quorum DataAudit Observability Store Node NodeFacts Resource Workflow Storage Quota R2.
Open Scope Z_scope.

Definition PIPELINE_KIND : string := "pipeline".
Definition MAX_INGEST_BYTES : Z := 32 * 1024 * 1024.
Definition MAX_EVENTS_PER_REQUEST : Z := 10000.
Definition MAX_TRANSFORM_SQL_BYTES : Z := 64 * 1024.
Definition MAX_BATCH_BYTES : Z := 512 * 1024 * 1024.
Definition PL_LEASE_MS : Z := 5 * 60 * 1000.
Definition MAX_BATCH_EVENTS : nat := 10000.

Inductive PipeError : Type :=
| PlDescriptionTooLong | PlBadBucket | PlBadBatchBytes | PlBadBatchSeconds | PlBadTemplate | PlTooManyHostnames | PlBadHostname
| PlTooManyTokens | PlBadToken | PlBadSchema | NotAPipeline | PlUnreadable | PlResource (e : ResourceError)
| BadBody | BadJson | EventsNotArray | NotUtf8 | BadLine (n : Z) | BadEventCount
| BadSql | SqlWithoutInto | SqlWithoutSink | SqlBadSink | SqlNotSelect | BadFieldName | TooManyFields | SqlFailed (e : string)
| SqlNotReadOnly | SqlBadColumns | SqlTooManyRows | SqlTooLarge
| PlMissing | PlSuspended (reason : string) | SchemaMismatch (n : Z) | TooLarge | BucketMissing | NoRclone | BadTimestamp | UnknownPlaceholder
| PlStorage (e : R2Error) | BatchMissing | PlUnavailable.
#[export] Instance pl_unavailable : Script.Unavailable PipeError := PlUnavailable.

(** ** Formats of requests *)

Section formats.
Context {serde : SerdeJson}.

(** [validate_event_count], [expand_json]. *)
Definition validate_event_count (events : list J) : result (list J) PipeError :=
  if bool_decide (events = []) || (MAX_EVENTS_PER_REQUEST <? Z.of_nat (length events)) then Err BadEventCount else Ok events.
Definition expand_json (v : J) : result (list J) PipeError :=
  let? events := match v with
                 | JArr l => Ok l
                 | JObj [(k, x)] => if bool_decide (k = "events") then match as_array x with Some l => Ok l | None => Err EventsNotArray end else Ok [v]
                 | _ => Ok [v]
                 end in
  validate_event_count events.

(** The lines of a body, as [read_line] gives them; the last piece is a line when it has bytes. *)
Definition body_lines (body : string) : list string :=
  let l := split "010" body in
  match list.last l with Some EmptyString => removelast l | _ => l end.
Fixpoint parse_lines_go (plain : bool) (index : Z) (events : list J) (l : list string) : result (list J) PipeError :=
  match l with
  | [] => Ok events
  | line :: l' =>
      if negb (is_utf8 line) then Err NotUtf8
      else
        let line := trim line in
        if is_empty line then parse_lines_go plain (index + 1) events l'
        else
          let? v := match from_text line with
                    | Some v => Ok v
                    | None => if plain then Ok (JStr line) else Err (BadLine index)
                    end in
          if MAX_EVENTS_PER_REQUEST <? Z.of_nat (length events) + 1 then Err BadEventCount
          else parse_lines_go plain (index + 1) (events ++ [v]) l'
  end.
Definition parse_lines_reader (plain : bool) (body : string) : result (list J) PipeError :=
  let? events := parse_lines_go plain 1 [] (body_lines body) in
  validate_event_count events.

(** [parse_payload_reader] and [parse_payload]; [parse_staged_payload] reads the same bytes from a file. *)
Definition payload_type (content_type : string) : string :=
  to_ascii_lowercase (trim (match split ";" content_type with t :: _ => t | [] => EmptyString end)).
Definition parse_payload_reader (content_type body : string) : result (list J) PipeError :=
  let ty := payload_type content_type in
  if bool_decide (ty = "application/json") || ends_with "+json" ty then
    match from_text body with Some v => expand_json v | None => Err BadJson end
  else if bool_decide (ty ∈ ["application/x-ndjson"; "application/ndjson"; "application/jsonl"]) then parse_lines_reader false body
  else if bool_decide (ty = "text/plain") then parse_lines_reader true body
  else match from_text body with Some v => expand_json v | None => parse_lines_reader false body end.
Definition parse_payload (content_type body : string) : result (list J) PipeError :=
  if is_empty body || (MAX_INGEST_BYTES <? slen body) then Err BadBody else parse_payload_reader content_type body.
End formats.

(** ** The transformation *)

(** [strip_keyword], [take_sql_identifier], [normalize_transform_sql]. *)
Definition strip_keyword (value keyword : string) : option string :=
  let value := trim_start value in
  let n := String.length keyword in
  if negb (Nat.leb n (String.length value)) || negb (is_char_boundary value n) then None
  else if negb (eq_ignore_ascii_case (stake n value) keyword) then None
  else
    match sdrop n value with
    | String c rest => if is_ascii_whitespace c then Some (trim_start (String c rest)) else None
    | EmptyString => Some EmptyString
    end.
Fixpoint until_whitespace (s : string) : nat :=
  match s with EmptyString => O | String c s' => if is_ascii_whitespace c then O else S (until_whitespace s') end.
Definition take_sql_identifier (value : string) : option (string * string) :=
  let value := trim_start value in
  let n := until_whitespace value in
  if bool_decide (n = O) then None else Some (stake n value, sdrop n value).
Definition sink_char (c : ascii) : bool := bool_decide (c = "_"%char) || is_ascii_alphanumeric c.
Definition valid_sink (s : string) : bool :=
  match s with EmptyString => true | String c s' => (bool_decide (c = "_"%char) || (is_ascii_alphanumeric c && negb (is_ascii_digit c))) && all_bytes sink_char s' end.
Definition strip_semicolon (s : string) : string := if ends_with_byte ";" s then stake (String.length s - 1) s else s.
Definition normalize_transform_sql (sql : string) : result (option string) PipeError :=
  if (MAX_TRANSFORM_SQL_BYTES <? slen sql) || contains_byte "000" sql then Err BadSql
  else
    let sql := trim sql in
    if is_empty sql then Ok None
    else
      let sql := trim_end (strip_semicolon sql) in
      let? query := match strip_keyword sql "INSERT" with
                    | Some rest =>
                        match strip_keyword rest "INTO" with
                        | None => Err SqlWithoutInto
                        | Some rest =>
                            match take_sql_identifier rest with
                            | None => Err SqlWithoutSink
                            | Some (sink, rest) => if negb (valid_sink sink) then Err SqlBadSink else Ok (trim_start rest)
                            end
                        end
                    | None => Ok sql
                    end in
      if bool_decide (strip_keyword query "SELECT" = None) && bool_decide (strip_keyword query "WITH" = None) then Err SqlNotSelect
      else Ok (Some query).

(** Values of SQLite. *)
Inductive SqlValue : Type := SNull | SInt (z : Z) | SReal (f : F64) | SText (s : string) | SBlob (b : string).

(** A compiled query: whether it is read-only, its parameters, its column names, and its rows, or an error
    after some of them. *)
Record Compiled : Type := mkCompiled {
  q_readonly : bool;
  q_parameters : Z;
  q_columns : list string;
  q_rows : list (list SqlValue);
  q_error : option string
}.

(** [quoted_identifier]. *)
Definition QUOTE34 : ascii := ascii_of_nat 34.
Fixpoint double_quotes (s : string) : string :=
  match s with
  | EmptyString => EmptyString
  | String c s' => if bool_decide (c = QUOTE34) then String QUOTE34 (String QUOTE34 (double_quotes s')) else String c (double_quotes s')
  end.
Definition quoted_identifier (s : string) : string := String QUOTE34 (double_quotes s ++ String QUOTE34 EmptyString).

Section transform.
Context {serde : SerdeJson}.
(** [base64] and an in-memory database: the table, its rows, and the query on it. *)
Context (base64 : string -> string) (sqlite : string -> list (list SqlValue) -> string -> result Compiled string).

(** [json_to_sql_value], [sql_to_json]. *)
Definition i64_max : Z := 2 ^ 63 - 1.
Definition json_to_sql_value (v : J) : SqlValue :=
  match v with
  | JNull => SNull
  | JBool b => SInt (if b then 1 else 0)
  | JNum (PosInt n) => if n <=? i64_max then SInt n else SReal (f64_of_Z n)
  | JNum (NegInt n) => SInt n
  | JNum (Float f) => SReal f
  | JStr s => SText s
  | JArr _ | JObj _ => SText (to_text v)
  end.
Definition sql_to_json (v : SqlValue) : result J PipeError :=
  match v with
  | SNull => Ok JNull
  | SInt z => Ok (JNum (if 0 <=? z then PosInt z else NegInt z))
  | SReal f => Ok (if f64_is_finite f then JNum (Float f) else JNull)
  | SText s => if is_utf8 s then Ok (JStr s) else Err NotUtf8
  | SBlob b => Ok (JStr (base64 b))
  end.

(** [transform_events]: the columns, the table, the rows of the query. *)
Definition event_keys (v : J) : list string := match v with JObj m => filter (fun k => k <> "__rf_event") (map fst m) | _ => [] end.
Definition bad_field (k : string) : bool := (256 <? slen k) || contains_byte "000" k.
Definition event_columns (events : list J) : list string := merge_sort le_of (remove_dups (concat (map event_keys events))).
Definition create_events (columns : list string) : string :=
  ("CREATE TABLE events (__rf_event TEXT NOT NULL" ++ String.concat "" (map (fun c => ", " ++ quoted_identifier c) columns) ++ ")")%string.
Definition event_row (columns : list string) (v : J) : list SqlValue :=
  SText (to_text v) :: map (fun c => match jget c v with Some x => json_to_sql_value x | None => SNull end) columns.
Fixpoint row_object (names : list string) (row : list SqlValue) : result (list (string * J)) PipeError :=
  match names, row with
  | name :: names', v :: row' =>
      let? x := sql_to_json v in
      let? m := row_object names' row' in
      Ok ((name, x) :: m)
  | _, _ => Ok []
  end.
Fixpoint collect_rows (names : list string) (encoded : Z) (output : list J) (rows : list (list SqlValue)) : result (list J) PipeError :=
  match rows with
  | [] => Ok output
  | row :: rows' =>
      if MAX_EVENTS_PER_REQUEST <=? Z.of_nat (length output) then Err SqlTooManyRows
      else
        let? m := row_object names row in
        let event := jobject m in
        let encoded := sat_add 64 encoded (slen (to_text event) + 1) in
        if MAX_INGEST_BYTES <? encoded then Err SqlTooLarge else collect_rows names encoded (output ++ [event]) rows'
  end.
Definition transform_events (events : list J) (sql : option string) : result (list J) PipeError :=
  let? query := match sql with None => Ok None | Some s => normalize_transform_sql s end in
  match query with
  | None => Ok events
  | Some query =>
      if existsb bad_field (concat (map event_keys events)) then Err BadFieldName
      else
        let columns := event_columns events in
        if 256 <? Z.of_nat (length columns) then Err TooManyFields
        else
          match sqlite (create_events columns) (map (event_row columns) events) query with
          | Err e => Err (SqlFailed e)
          | Ok q =>
              let n := Z.of_nat (length (q_columns q)) in
              if negb (q_readonly q) || negb (q_parameters q =? 0) then Err SqlNotReadOnly
              else if (n =? 0) || (256 <? n) then Err SqlBadColumns
              else if negb (bool_decide (NoDup (q_columns q))) || existsb is_empty (q_columns q) then Err SqlBadColumns
              else
                let? output := collect_rows (q_columns q) 0 [] (q_rows q) in
                match q_error q with Some e => Err (SqlFailed e) | None => Ok output end
          end
  end.
End transform.

(** ** Definitions of pipelines *)

Record PipelineSpec : Type := mkPipelineSpec {
  pl_description : string;
  output_bucket : string;
  output_key_template : string;
  batch_max_bytes : Z;
  batch_max_seconds : Z;
  pl_schema : option J;
  transform_sql : option string;
  pl_suspended : bool;
  pl_suspend_reason : string;
  pl_hostnames : list string;
  pl_tokens : list WorkflowToken
}.

Section specs.
(** [jsonschema]: whether a schema compiles. *)
Context (schema_compiles : J -> bool).

Definition unsafe_part (p : string) : bool := bool_decide (p ∈ [""; "."; ".."]).
Definition bad_template (t : string) : bool :=
  is_empty t || (MAX_OBJECT_KEY_BYTES <? slen t) || negb (contains "{batchId}" t)
  || contains_byte "013" t || contains_byte "010" t || contains_byte "\" t || existsb unsafe_part (split "/" t).

(** [PipelineSpec::validate]. *)
Definition validate_pipeline (s : PipelineSpec) : result unit PipeError :=
  if (2000 <? slen (pl_description s)) || (2000 <? slen (pl_suspend_reason s)) then Err PlDescriptionTooLong
  else if negb (valid_name (output_bucket s)) then Err PlBadBucket
  else if negb ((1024 <=? batch_max_bytes s) && (batch_max_bytes s <=? MAX_BATCH_BYTES)) then Err PlBadBatchBytes
  else if negb ((1 <=? batch_max_seconds s) && (batch_max_seconds s <=? 3600)) then Err PlBadBatchSeconds
  else if bad_template (output_key_template s) then Err PlBadTemplate
  else if 64 <? Z.of_nat (length (pl_hostnames s)) then Err PlTooManyHostnames
  else if negb (forallb valid_hostname (pl_hostnames s)) then Err PlBadHostname
  else if 64 <? Z.of_nat (length (pl_tokens s)) then Err PlTooManyTokens
  else
    let? _ := match check_tokens [] (pl_tokens s) with Ok _ => Ok tt | Err _ => Err PlBadToken end in
    let? _ := match pl_schema s with Some x => if schema_compiles x then Ok tt else Err PlBadSchema | None => Ok tt end in
    match transform_sql s with Some q => let? _ := normalize_transform_sql q in Ok tt | None => Ok tt end.

Class PipelineJson {json : Json} := {
  pipeline_to_value : PipelineSpec -> Value;
  pipeline_from_value : Value -> option PipelineSpec
}.

Context {redb : Redb} {crypto : Crypto} {hex : Hex} {json : Json} {pl_json : PipelineJson}.
Context {pc_env : Postcard Envelope} {pc_resource : Postcard ResourceRecord}.

(** [pipeline_spec], [pipeline_record], [pipeline_records], [prepare_pipeline_after]. *)
Definition pipeline_spec (r : ResourceRecord) : result PipelineSpec PipeError :=
  if negb (bool_decide (r_kind r = PIPELINE_KIND)) then Err NotAPipeline
  else
    match json_from_str (spec_json r) ≫= pipeline_from_value with
    | None => Err PlUnreadable
    | Some spec => let? _ := validate_pipeline spec in Ok spec
    end.
Definition pipeline_record (n : Node) (name : string) (now_at : string -> Z) : option (ResourceView * PipelineSpec) :=
  view ← head n PIPELINE_KIND name now_at;
  if r_deleted (resource view) then None
  else match pipeline_spec (resource view) with Ok spec => Some (view, spec) | Err _ => None end.
Definition pipeline_records (n : Node) (now_at : string -> Z) : list (ResourceView * PipelineSpec) :=
  omap (fun view => match pipeline_spec (resource view) with Ok spec => Some (view, spec) | Err _ => None end)
    (filter (fun view => r_deleted (resource view) = false) (heads n (Some PIPELINE_KIND) now_at)).
Definition prepare_pipeline_after (name : string) (spec : PipelineSpec) (deleted : bool) (h : option ResourceView) :
  result ResourceRecord PipeError :=
  let? _ := validate_pipeline spec in
  match prepare_after PIPELINE_KIND name (pipeline_to_value spec) deleted h with Ok r => Ok r | Err e => Err (PlResource e) end.

(** [database_name], [mint_token], [token_matches]. *)
Definition pipeline_database_name (pipeline : string) : string :=
  ("pipeline-" ++ stake 32 (hex_encode (sha256 (as_bytes ("pipeline/" ++ pipeline)))))%string.
Definition mint_pipeline_token (text secret : string) (now : Z) : result (WorkflowToken * string) PipeError :=
  if 128 <? slen text then Err PlBadToken
  else
    let plaintext := ("rfp_" ++ secret)%string in
    let digest := hex_encode (sha256 (as_bytes plaintext)) in
    Ok (mkToken (stake 16 digest) text digest (sdrop (String.length plaintext - 4) plaintext) now, plaintext).
Definition pipeline_token_matches (spec : PipelineSpec) (plaintext : string) : bool :=
  existsb (fun t => match hex_decode (sha256_hex t) with
                    | Ok expected => constant_time_eq (sha256 (as_bytes plaintext)) expected
                    | Err _ => false
                    end) (pl_tokens spec).
End specs.

(** ** The tables *)

Record PEvent : Type := mkPEvent {
  pe_payload : string;
  pe_bytes : Z;
  pe_received : Z;
  pe_leased : bool;
  pe_token : option string;
  pe_until : option Z
}.
Inductive BatchState : Type := BatchCompleted | BatchFailed.
#[export] Instance BatchState_eq_dec : EqDecision BatchState.
Proof. solve_decision. Defined.
Record PBatch : Type := mkPBatch {
  bt_id : string;
  bt_key : option string;
  event_count : Z;
  uncompressed_bytes : Z;
  compressed_bytes : Z;
  bt_sha256 : option string;
  bt_state : BatchState;
  bt_error : option string;
  bt_created : Z;
  bt_completed : option Z
}.
Record PDb : Type := mkPDb { p_events : gmap string PEvent; p_batches : gmap string PBatch }.

Inductive PStmt : Type :=
| InsertEvents (rows : list (string * string)) (received : Z)
| RecoverEvents (now : Z)
| ClaimEvents (token : string) (until : Z) (ids : list string)
| ReleaseToken (token : string)
| PutBatch (row : PBatch)
| DeleteLeased (token : string)
| OnStores (s : RStmt).

(** The pipeline's database, the stores, and the statements applied so far, which no operation reads. *)
Record Whole : Type := mkWhole { p_db : PDb; p_stores : Stores; history : list (PStmt * Z) }.

Definition new_event (payload : string) (received : Z) : PEvent := mkPEvent payload (slen payload + 1) received false None None.
Definition queued (e : PEvent) : PEvent := mkPEvent (pe_payload e) (pe_bytes e) (pe_received e) false None None.
Definition leased (token : string) (until : Z) (e : PEvent) : PEvent :=
  mkPEvent (pe_payload e) (pe_bytes e) (pe_received e) true (Some token) (Some until).
Definition lease_over (now : Z) (e : PEvent) : bool := pe_leased e && match pe_until e with Some u => u <=? now | None => false end.
Definition has_token (token : string) (e : PEvent) : bool := bool_decide (pe_token e = Some token).

(** [INSERT] of several rows: all or none. *)
Fixpoint insert_events (rows : list (string * string)) (received : Z) (m : gmap string PEvent) : option (gmap string PEvent) :=
  match rows with
  | [] => Some m
  | (id, payload) :: rows' =>
      match m !! id with Some _ => None | None => insert_events rows' received (<[id := new_event payload received]> m) end
  end.
(** [UPDATE .. WHERE]. *)
Definition update_events (p : string -> PEvent -> bool) (f : PEvent -> PEvent) (m : gmap string PEvent) : gmap string PEvent * Z :=
  (map_imap (fun id e => Some (if p id e then f e else e)) m, Z.of_nat (size (filter (fun ie => p ie.1 ie.2 = true) m))).

Section statements.
Context {crypto : Crypto}.
Definition db_run (d : PDb) (s : PStmt) : option (PDb * Z) :=
  let update p f := let '(m, n) := update_events p f (p_events d) in Some (mkPDb m (p_batches d), n) in
  match s with
  | InsertEvents rows received => m ← insert_events rows received (p_events d); Some (mkPDb m (p_batches d), Z.of_nat (length rows))
  | RecoverEvents now => update (fun _ e => lease_over now e) queued
  | ClaimEvents token until ids => update (fun id e => negb (pe_leased e) && bool_decide (id ∈ ids)) (leased token until)
  | ReleaseToken token => update (fun _ e => has_token token e) queued
  | PutBatch row => Some (mkPDb (p_events d) (<[bt_id row := row]> (p_batches d)), 1)
  | DeleteLeased token =>
      let kept := filter (fun ie => pe_leased ie.2 && has_token token ie.2 = false) (p_events d) in
      Some (mkPDb kept (p_batches d), Z.of_nat (size (p_events d)) - Z.of_nat (size kept))
  | OnStores _ => None
  end.
Definition prun (w : Whole) (s : PStmt) : option (Whole * Z) :=
  match s with
  | OnStores r => match rrun (p_stores w) r with Some (d, n) => Some (mkWhole (p_db w) d (history w ++ [(s, n)]), n) | None => None end
  | _ => match db_run (p_db w) s with Some (d, n) => Some (mkWhole d (p_stores w) (history w ++ [(s, n)]), n) | None => None end
  end.
End statements.

Notation POp A := (Script Whole PStmt RQuestion RAnswer PipeError A).
#[local] Notation "'let!' x := m 'in' k" := (Script.bind m (fun x => k)) (at level 200, x pattern, m at level 100, k at level 200).

(** An operation of the object store. *)
Definition on_stores {A} (m : ROp A) : POp A := lift p_stores OnStores PlStorage m.
(** [ensure_schema]: the tables exist; creating them again changes nothing but may fail. *)
Definition pl_ensure_schema : POp unit := select (fun _ => tt).

Record PendingEvent : Type := mkPending { ev_id : string; ev_payload : string; ev_bytes : Z; ev_received : Z }.
Definition pending_le (a b : PendingEvent) : Prop := le_of (ev_received a, ev_id a) (ev_received b, ev_id b).
#[export] Instance pending_le_dec : RelDecision pending_le.
Proof. intros a b. unfold pending_le. apply _. Defined.
(** [SELECT .. WHERE state='queued' ORDER BY received_at_ms, id]. *)
Definition queue_of (m : gmap string PEvent) : list PendingEvent :=
  merge_sort pending_le (map (fun ie => mkPending ie.1 (pe_payload ie.2) (pe_bytes ie.2) (pe_received ie.2))
    (filter (fun ie => pe_leased ie.2 = false) (map_to_list m))).

(** The events of a batch, from the head of the queue. *)
Fixpoint select_batch (max : Z) (selected : list PendingEvent) (bytes : Z) (l : list PendingEvent) : list PendingEvent * Z :=
  match l with
  | [] => (selected, bytes)
  | e :: l' =>
      let more := sat_add 64 bytes (ev_bytes e) in
      if negb (bool_decide (length selected = O)) && (max <? more) then (selected, bytes)
      else select_batch max (selected ++ [e]) more l'
  end.

(** ** The operations *)

Section operations.
Context {crypto : Crypto} {hex : Hex} {serde : SerdeJson} {md : Md5}.
(** [flate2], [jsonschema], [base64], SQLite, and the year, month, day and hour of a time. *)
Context (gzip : bytes -> bytes) (schema_accepts : J -> J -> bool) (base64 : string -> string).
Context (sqlite : string -> list (list SqlValue) -> string -> result Compiled string) (date_of : Z -> option (Z * Z * Z * Z)).

(** [batch_id], [render_key], [batch_put_options]. *)
Definition batch_id (ids : list string) : string := stake 32 (hex_encode (sha256 (concat (map (fun id => as_bytes id ++ [0]) ids)))).
Definition render_key (pipeline template batch : string) (timestamp_ms : Z) : result string PipeError :=
  match date_of timestamp_ms with
  | None => Err BadTimestamp
  | Some (year, month, day, hour) =>
      let key := replace "{batchId}" batch (replace "{agent}" (stake 12 batch) (replace "{hh}" (dec 2 hour) (replace "{dd}" (dec 2 day)
                   (replace "{mm}" (dec 2 month) (replace "{yyyy}" (dec 4 year) (replace "{pipeline}" pipeline template)))))) in
      if contains_byte "{" key || contains_byte "}" key then Err UnknownPlaceholder else Ok key
  end.
Definition batch_put_options (pipeline batch : string) (count uncompressed : Z) : PutOptions :=
  mkOptions (Some "application/x-ndjson")
    (obj_of [("pipeline", JStr pipeline); ("batchId", JStr batch); ("eventCount", JNum (PosInt count)); ("uncompressedBytes", JNum (PosInt uncompressed))])
    [("contentEncoding", JStr "gzip")].
Definition jsonl (l : list PendingEvent) : bytes := concat (map (fun e => as_bytes (ev_payload e) ++ [10]) l).

(** [ingest]. *)
Fixpoint check_schema (schema : J) (index : Z) (events : list J) : result unit PipeError :=
  match events with
  | [] => Ok tt
  | e :: events' => if schema_accepts schema e then check_schema schema (index + 1) events' else Err (SchemaMismatch index)
  end.
Fixpoint encode_events (ingest_id : string) (index total : Z) (events : list J) : result (list (string * string)) PipeError :=
  match events with
  | [] => Ok []
  | e :: events' =>
      let payload := to_text e in
      let total := sat_add 64 (sat_add 64 total (slen payload)) 1 in
      if MAX_INGEST_BYTES <? total then Err TooLarge
      else
        let? rest := encode_events ingest_id (index + 1) total events' in
        Ok ((ingest_id ++ "-" ++ dec 5 index, payload)%string :: rest)
  end.
Fixpoint chunks {A} (fuel n : nat) (l : list A) : list (list A) :=
  match fuel, l with
  | S fuel', _ :: _ => take n l :: chunks fuel' n (drop n l)
  | _, _ => []
  end.
Fixpoint insert_chunks (received : Z) (l : list (list (string * string))) : POp unit :=
  match l with [] => ret tt | c :: l' => let! _ := exec (InsertEvents c received) in insert_chunks received l' end.
Definition ingest (definition : option PipelineSpec) (events : list J) : POp Z :=
  match definition with
  | None => fail PlMissing
  | Some spec =>
      if pl_suspended spec then fail (PlSuspended (pl_suspend_reason spec))
      else
        let! events := check (validate_event_count events) in
        let! _ := match pl_schema spec with Some schema => check (check_schema schema 1 events) | None => ret tt end in
        let! events := check (transform_events base64 sqlite events (transform_sql spec)) in
        if bool_decide (length events = O) then ret 0
        else
          let! received := now_ms in
          let! ingest_id := Draw (fun i => ret i) in
          let! encoded := check (encode_events ingest_id 0 0 events) in
          let! _ := pl_ensure_schema in
          let! _ := insert_chunks received (chunks (length encoded) 100 encoded) in
          ret (Z.of_nat (length encoded))
  end.

(** [upload_batch]. *)
Fixpoint upload_parts (v : View) (b key id : string) (n : Z) (published : list PublishedPart) (l : list bytes) : POp (list PublishedPart) :=
  match l with
  | [] => ret published
  | c :: l' =>
      let! r := catch (on_stores (upload_part v b key id n c)) in
      match r with
      | Ok p => upload_parts v b key id (n + 1) (published ++ [mkPublished (up_number p) (up_etag p)]) l'
      | Err e => let! _ := catch (on_stores (abort_multipart_upload b key id)) in fail e
      end
  end.
Definition upload_batch (v : View) (b key : string) (content : bytes) (o : PutOptions) : POp unit :=
  if blen content <=? MAX_BUFFERED_OBJECT_BYTES then let! _ := on_stores (put_object v b key content o) in ret tt
  else
    let! id := on_stores (create_multipart_upload v b key o) in
    let! published := upload_parts v b key id 1 [] (chunks (length content) (Z.to_nat MAX_BUFFERED_PART_BYTES) content) in
    let! _ := on_stores (complete_multipart_upload v b key id published) in
    ret tt.

(** [batch_by_id], [delete_leased]. *)
Definition batch_by_id (id : string) : POp (option PBatch) := select (fun w => p_batches (p_db w) !! id).
Definition delete_leased (token : string) : POp unit := let! _ := exec (DeleteLeased token) in ret tt.

(** [flush_once] in three parts: storing a claimed batch, a claimed batch, and the choice of a batch. *)
Definition store_batch (error_text : PipeError -> string) (v : View) (pipeline : string) (spec : PipelineSpec) (selected : list PendingEvent)
  (oldest : Z) : POp (option PBatch) :=
  let batch := batch_id (map ev_id selected) in
  let! created := now_ms in
  let lines := jsonl selected in
  let compressed := gzip lines in
  let! key := check (render_key pipeline (output_key_template spec) batch oldest) in
  let count := Z.of_nat (length selected) in
  let! r := catch (upload_batch v (output_bucket spec) key compressed (batch_put_options pipeline batch count (blen lines))) in
  match r with
  | Ok _ =>
      let! completed := now_ms in
      let! _ := exec (PutBatch (mkPBatch batch (Some key) count (blen lines) (blen compressed) (Some (digest_hex compressed))
                        BatchCompleted None created (Some completed))) in
      let! _ := delete_leased batch in
      let! row := batch_by_id batch in
      match row with Some row => ret (Some row) | None => fail BatchMissing end
  | Err e =>
      let! _ := exec (PutBatch (mkPBatch batch (Some key) count (blen lines) (blen compressed) None BatchFailed (Some (error_text e)) created None)) in
      let! _ := exec (ReleaseToken batch) in
      fail e
  end.
Definition flush_claimed (error_text : PipeError -> string) (v : View) (pipeline : string) (spec : PipelineSpec) (selected : list PendingEvent)
  (oldest : Z) : POp (option PBatch) :=
  let batch := batch_id (map ev_id selected) in
  let! existing := batch_by_id batch in
  match existing with
  | Some row =>
      if bool_decide (bt_state row = BatchCompleted) then let! _ := delete_leased batch in ret (Some row)
      else store_batch error_text v pipeline spec selected oldest
  | None => store_batch error_text v pipeline spec selected oldest
  end.
Definition flush_once (error_text : PipeError -> string) (v : View) (pipeline : string) (definition : option PipelineSpec) (force : bool) :
  POp (option PBatch) :=
  match definition with
  | None => fail PlMissing
  | Some spec =>
      if pl_suspended spec && negb force then ret None
      else
        match live_bucket v (output_bucket spec) with
        | None => fail BucketMissing
        | Some bucket =>
            if negb (uses_local_storage bucket) && negb (v_rclone v) then if force then fail NoRclone else ret None
            else
              let! _ := pl_ensure_schema in
              let! now := now_ms in
              let! _ := exec (RecoverEvents now) in
              let! candidates := select (fun w => take MAX_BATCH_EVENTS (queue_of (p_events (p_db w)))) in
              let '(selected, bytes) := select_batch (batch_max_bytes spec) [] 0 candidates in
              match selected with
              | [] => ret None
              | first :: _ =>
                  let oldest := ev_received first in
                  if negb (force || (batch_max_bytes spec <=? bytes) || (batch_max_seconds spec * 1000 <=? sat_sub now oldest)) then ret None
                  else
                    let ids := map ev_id selected in
                    let! claimed := exec (ClaimEvents (batch_id ids) (sat_add 64 now PL_LEASE_MS) ids) in
                    if negb (claimed =? Z.of_nat (length selected)) then let! _ := exec (ReleaseToken (batch_id ids)) in ret None
                    else flush_claimed error_text v pipeline spec selected oldest
              end
        end
  end.

(** What a round of [spawn_driver] does for this pipeline. *)
Definition drive_pipeline (error_text : PipeError -> string) (v : View) (name : string) (spec : PipelineSpec) : POp unit :=
  if pl_suspended spec then ret tt else ignore (flush_once error_text v name (Some spec) false).

(** [status] and [batches]. *)
Record PipelineStatus : Type := mkPStatus {
  queued_events : Z;
  queued_bytes : Z;
  oldest_event_ms : option Z;
  completed_batches : Z;
  failed_batches : Z;
  last_completed_ms : option Z;
  last_batch_error : option string
}.
Definition list_min (l : list Z) : option Z := match l with [] => None | x :: l' => Some (foldr Z.min x l') end.
Definition list_max (l : list Z) : option Z := match l with [] => None | x :: l' => Some (foldr Z.max x l') end.
Definition newer_batch (a b : PBatch) : Prop := bt_created b <= bt_created a.
#[export] Instance newer_batch_dec : RelDecision newer_batch.
Proof. intros a b. unfold newer_batch. apply _. Defined.
Definition rows_in (st : BatchState) (m : gmap string PBatch) : list PBatch := filter (fun r => bt_state r = st) (map_to_list m).*2.
Definition status : POp PipelineStatus :=
  let! _ := pl_ensure_schema in
  let! pending := select (fun w => (map_to_list (p_events (p_db w))).*2) in
  let! rows := select (fun w => p_batches (p_db w)) in
  let! failed := select (fun w => merge_sort newer_batch (rows_in BatchFailed (p_batches (p_db w)))) in
  ret (mkPStatus (Z.of_nat (length pending)) (foldr (fun e acc => pe_bytes e + acc) 0 pending) (list_min (map pe_received pending))
         (Z.of_nat (length (rows_in BatchCompleted rows))) (Z.of_nat (length (rows_in BatchFailed rows)))
         (list_max (omap bt_completed (map_to_list rows).*2)) (match failed with r :: _ => bt_error r | [] => None end)).
Definition list_batches (limit : Z) : POp (list PBatch) :=
  let! _ := pl_ensure_schema in
  select (fun w => take (Z.to_nat (Z.max 1 (Z.min limit 1000))) (merge_sort newer_batch (map_to_list (p_batches (p_db w))).*2)).
End operations.
