(* ===== verification/PipelineProps.v ===== *)
(** * PipelineProps: what holds of pipelines whatever runs at once

    Nodes ingest and flush at once, statements are refused or their answers lost, nodes crash.  Every accepted
    event is in the table or in a batch that was stored; batches stay within their bounds; what is claimed comes back. *)

From Stdlib Require Import ZArith Lia Ascii SpecFloat.
From stdpp Require Import prelude gmap sorting strings list pretty.
From S2P Require Import Prelude Text Json Script Hlc Identity Envelope Kv Cron Claim Manifest Quorum DataAudit Observability Store Node NodeFacts Resource Workflow Storage Quota R2 R2Props Pipeline.
Open Scope Z_scope.

Section pipeline.
Context {crypto : Crypto} {hex : Hex} {serde : SerdeJson} {md : Md5}.
Context (gzip : bytes -> bytes) (schema_accepts : J -> J -> bool) (base64 : string -> string).
Context (sqlite : string -> list (list SqlValue) -> string -> result Compiled string) (date_of : Z -> option (Z * Z * Z * Z)).
Context (error_text : PipeError -> string).

Definition pvoid {A} (m : POp A) : POp unit := Script.bind m (fun _ => ret tt).
(** What nodes do with a pipeline. *)
Inductive poperation : POp unit -> Prop :=
| pop_ingest definition events : poperation (pvoid (ingest schema_accepts base64 sqlite definition events))
| pop_flush v name definition force : poperation (pvoid (flush_once gzip date_of error_text v name definition force))
| pop_drive v name spec : poperation (drive_pipeline gzip date_of error_text v name spec)
| pop_status : poperation (pvoid status)
| pop_batches limit : poperation (pvoid (list_batches limit)).

(** ** The history *)

Definition happened (w : Whole) (s : PStmt) : Prop := exists n, (s, n) ∈ history w.
Definition accepted (w : Whole) (id payload : string) : Prop := exists rows received, happened w (InsertEvents rows received) /\ (id, payload) ∈ rows.
Definition claimed (w : Whole) (token : string) (ids : list string) : Prop := token = batch_id ids /\ exists until, happened w (ClaimEvents token until ids).
Definition completed (w : Whole) (row : PBatch) : Prop := bt_state row = BatchCompleted /\ happened w (PutBatch row).

(** A batch with these events, stored under its key. *)
Definition holds_events (w : Whole) (row : PBatch) (l : list PendingEvent) : Prop :=
  claimed w (bt_id row) (map ev_id l) /\ event_count row = Z.of_nat (length l) /\ uncompressed_bytes row = blen (jsonl l) /\
  Forall (fun e => accepted w (ev_id e) (ev_payload e)) l /\ bt_sha256 row = Some (digest_hex (gzip (jsonl l))) /\
  (blen (gzip (jsonl l)) <= MAX_BUFFERED_OBJECT_BYTES ->
   exists b o mb mo, (OnStores (IndexObject b o mb mo), 1) ∈ history w /\ bt_key row = Some (o_key o) /\ bt_sha256 row = Some (o_sha256 o)).

Definition older (w w' : Whole) : Prop := exists ext, history w' = history w ++ ext.
#[local] Instance older_pre : PreOrder older.
Proof. split; [intros w; exists []; by rewrite app_nil_r|]. intros x y z [e He] [f Hf]. exists (e ++ f). by rewrite Hf, He, app_assoc. Qed.
Lemma happened_mono w w' s : older w w' -> happened w s -> happened w' s.
Proof. intros [e He] [n Hn]. exists n. rewrite He. set_solver. Qed.
Lemma accepted_mono w w' id p : older w w' -> accepted w id p -> accepted w' id p.
Proof. intros Ho (rows & r & Hh & Hin). exists rows, r. eauto using happened_mono. Qed.
Lemma claimed_mono w w' b ids : older w w' -> claimed w b ids -> claimed w' b ids.
Proof. intros Ho [Hb [u Hu]]. split; [done|]. exists u. eauto using happened_mono. Qed.
Lemma completed_mono w w' row : older w w' -> completed w row -> completed w' row.
Proof. intros Ho [Hs Hh]. split; [done|]. eauto using happened_mono. Qed.
Lemma holds_mono w w' row l : older w w' -> holds_events w row l -> holds_events w' row l.
Proof.
  intros Ho (Hc & Hn & Hu & Ha & Hs & Hi). split_and!; [by eapply claimed_mono|done|done| |done|].
  - eapply Forall_impl; [exact Ha|]. intros e. by apply accepted_mono.
  - intros Hl. destruct (Hi Hl) as (b & o & mb & mo & Hin & Hk). exists b, o, mb, mo. split; [|done]. destruct Ho as [e ->]. set_solver.
Qed.
Hint Resolve happened_mono accepted_mono claimed_mono completed_mono holds_mono : pipe.

(** ** The invariant *)

(** The event was in a completed batch. *)
Definition gone (w : Whole) (id : string) : Prop := exists row ids, completed w row /\ claimed w (bt_id row) ids /\ id ∈ ids.

Record sound (w : Whole) : Prop := mkSound {
  sound_event id e : p_events (p_db w) !! id = Some e ->
    accepted w id (pe_payload e) /\ pe_bytes e = slen (pe_payload e) + 1 /\
    (forall b, pe_token e = Some b -> exists ids, claimed w b ids /\ id ∈ ids) /\
    (pe_leased e = true -> exists u, pe_until e = Some u);
  sound_kept id payload : accepted w id payload -> is_Some (p_events (p_db w) !! id) \/ gone w id;
  sound_batch b row : p_batches (p_db w) !! b = Some row -> bt_id row = b /\ happened w (PutBatch row);
  sound_stored row : completed w row -> exists l, holds_events w row l
}.

Definition allowed (s : PStmt) (w : Whole) : Prop :=
  match s with
  | PutBatch row => bt_state row = BatchCompleted -> exists l, holds_events w row l
  | DeleteLeased token => exists row, completed w row /\ bt_id row = token
  | ClaimEvents token _ ids => token = batch_id ids
  | _ => True
  end.

Lemma prun_history w s w' n : prun w s = Some (w', n) -> history w' = history w ++ [(s, n)].
Proof. destruct s; cbn; repeat break_match; naive_solver. Qed.
Lemma apply_older w s : older w (Script.apply prun w s).
Proof. unfold Script.apply. destruct (prun w s) as [[w' n]|] eqn:E; [|reflexivity]. apply prun_history in E. by exists [(s, n)]. Qed.
Lemma happened_after w s w' n s' : prun w s = Some (w', n) -> happened w' s' -> happened w s' \/ s' = s.
Proof. intros H%prun_history [k Hk]. rewrite H in Hk. apply elem_of_app in Hk as [Hk|Hk]; [left; by exists k | set_solver]. Qed.
Lemma happened_now w s w' n : prun w s = Some (w', n) -> happened w' s.
Proof. intros H%prun_history. exists n. rewrite H. set_solver. Qed.
Lemma accepted_after w s w' n id p : prun w s = Some (w', n) -> accepted w' id p -> accepted w id p \/ exists rows r, s = InsertEvents rows r /\ (id, p) ∈ rows.
Proof. intros H (rows & r & Hh & Hin). destruct (happened_after _ _ _ _ _ H Hh) as [Hw| <-]; [left; by exists rows, r | right; by exists rows, r]. Qed.

(** Rows of [INSERT]. *)
Lemma insert_events_spec rows r m m' : insert_events rows r m = Some m' ->
  (forall id e, m' !! id = Some e -> m !! id = Some e \/ exists p, (id, p) ∈ rows /\ e = new_event p r) /\
  (forall id, is_Some (m !! id) -> is_Some (m' !! id)) /\ (forall id p, (id, p) ∈ rows -> is_Some (m' !! id)).
Proof.
  revert m. induction rows as [|[i p] rows IH]; intros m H; cbn in H.
  - injection H as <-. split_and!; [by left|done|]. intros id p Hin. by apply not_elem_of_nil in Hin.
  - destruct (m !! i) eqn:Ei; [done|]. destruct (IH _ H) as (H1 & H2 & H3). split_and!.
    + intros id e He. destruct (H1 id e He) as [Hl|(q & Hin & ->)]; [|right; exists q; set_solver].
      apply lookup_insert_Some in Hl as [[<- <-]|[_ Hl]]; [right; exists p; set_solver | by left].
    + intros id Hid. apply H2. destruct (decide (i = id)) as [->|Hn]; [by rewrite lookup_insert_eq | by rewrite lookup_insert_ne].
    + intros id q [[= -> ->]|Hin]%elem_of_cons; [|by eapply H3]. apply H2. by rewrite lookup_insert_eq.
Qed.
Lemma update_events_spec p f m id e : (update_events p f m).1 !! id = Some e <-> exists e0, m !! id = Some e0 /\ e = if p id e0 then f e0 else e0.
Proof. cbn. rewrite map_lookup_imap. destruct (m !! id) as [e0|]; cbn; naive_solver. Qed.

(** Events after a statement are those before, perhaps with another lease, and those inserted. *)
Definition same_event (e e' : PEvent) : Prop := pe_payload e' = pe_payload e /\ pe_bytes e' = pe_bytes e /\ pe_received e' = pe_received e.
Lemma events_after w s w' n id e : prun w s = Some (w', n) -> p_events (p_db w') !! id = Some e ->
  (exists e0, p_events (p_db w) !! id = Some e0 /\ same_event e0 e /\
     (e = e0 \/ e = queued e0 \/ exists token until ids, s = ClaimEvents token until ids /\ id ∈ ids /\ e = leased token until e0)) \/
  (exists rows r p, s = InsertEvents rows r /\ (id, p) ∈ rows /\ e = new_event p r).
Proof.
  intros H He. assert (Hsame : p_events (p_db w) = p_events (p_db w') -> exists e0, p_events (p_db w) !! id = Some e0 /\ same_event e0 e /\
     (e = e0 \/ e = queued e0 \/ exists token until ids, s = ClaimEvents token until ids /\ id ∈ ids /\ e = leased token until e0)).
  { intros Heq. exists e. rewrite Heq. unfold same_event. auto. }
  destruct s as [rows r|now|token until ids|token|row|token|st]; unfold prun in H; cbn [db_run] in H.
  - destruct (insert_events rows r _) as [m|] eqn:Ei; cbn in H; [|done]. injection H as <- <-.
    destruct (insert_events_spec _ _ _ _ Ei) as (H1 & _). destruct (H1 id e He) as [Hl|(p & Hin & ->)]; [left; exists e; unfold same_event; auto | right; by exists rows, r, p].
  - destruct (update_events _ _ _) as [m k] eqn:Em. injection H as <- <-. left. cbn in He. change m with (m, k).1 in He. rewrite <- Em in He.
    apply update_events_spec in He as (e0 & He0 & ->). exists e0. split; [done|]. by destruct (lease_over _ _); unfold same_event; auto.
  - destruct (update_events _ _ _) as [m k] eqn:Em. injection H as <- <-. left. cbn in He. change m with (m, k).1 in He. rewrite <- Em in He.
    apply update_events_spec in He as (e0 & He0 & ->). exists e0. split; [done|]. destruct (negb _ && _) eqn:Ec; unfold same_event; [|by auto].
    to_prop. split; [done|]. right; right. by exists token, until, ids.
  - destruct (update_events _ _ _) as [m k] eqn:Em. injection H as <- <-. left. cbn in He. change m with (m, k).1 in He. rewrite <- Em in He.
    apply update_events_spec in He as (e0 & He0 & ->). exists e0. split; [done|]. by destruct (has_token _ _); unfold same_event; auto.
  - injection H as <- <-. left. by apply Hsame.
  - injection H as <- <-. left. cbn in He. apply map_lookup_filter_Some in He as [He _]. exists e. unfold same_event. auto.
  - destruct (rrun _ _) as [[d k]|]; [|done]. injection H as <- <-. left. by apply Hsame.
Qed.
Lemma events_stay w s w' n id : prun w s = Some (w', n) -> is_Some (p_events (p_db w) !! id) ->
  is_Some (p_events (p_db w') !! id) \/ exists token e, s = DeleteLeased token /\ p_events (p_db w) !! id = Some e /\ pe_token e = Some token.
Proof.
  intros H [e He]. destruct s as [rows r|now|token until ids|token|row|token|st]; unfold prun in H; cbn [db_run] in H.
  - destruct (insert_events rows r _) as [m|] eqn:Ei; cbn in H; [|done]. injection H as <- <-. left.
    destruct (insert_events_spec _ _ _ _ Ei) as (_ & H2 & _). by apply H2.
  - injection H as <- <-. left. cbn. rewrite map_lookup_imap, He. by eexists.
  - injection H as <- <-. left. cbn. rewrite map_lookup_imap, He. by eexists.
  - injection H as <- <-. left. cbn. rewrite map_lookup_imap, He. by eexists.
  - injection H as <- <-. left. by eexists.
  - injection H as <- <-. cbn. destruct (pe_leased e && has_token token e) eqn:Et.
    + right. exists token, e. apply andb_true_iff in Et as [_ Et]. unfold has_token in Et. to_prop. done.
    + left. exists e. apply map_lookup_filter_Some. done.
  - destruct (rrun _ _) as [[d k]|]; [|done]. injection H as <- <-. left. by eexists.
Qed.
Lemma batches_after w s w' n b row : prun w s = Some (w', n) -> p_batches (p_db w') !! b = Some row ->
  p_batches (p_db w) !! b = Some row \/ s = PutBatch row /\ bt_id row = b.
Proof.
  intros H Hb. destruct s as [rows r|now|token until ids|token|row'|token|st]; unfold prun in H; cbn [db_run] in H.
  - destruct (insert_events rows r _) as [m|]; cbn in H; [|done]. injection H as <- <-. by left.
  - injection H as <- <-. by left.
  - injection H as <- <-. by left.
  - injection H as <- <-. by left.
  - injection H as <- <-. cbn in Hb. apply lookup_insert_Some in Hb as [[<- <-]|[_ Hb]]; [by right | by left].
  - injection H as <- <-. by left.
  - destruct (rrun _ _) as [[d k]|]; [|done]. injection H as <- <-. by left.
Qed.

Lemma sound_step s w : allowed s w -> sound w -> sound (Script.apply prun w s).
Proof.
  intros Hs Hw. assert (Ho := apply_older w s). unfold Script.apply in *. destruct (prun w s) as [[w' n]|] eqn:E; [|done]. split.
  - intros id e He. destruct (events_after _ _ _ _ _ _ E He) as [(e0 & He0 & (Hp & Hb & _) & Hcase)|(rows & r & p & -> & Hin & ->)].
    + destruct (sound_event _ Hw _ _ He0) as (Ha & Hy & Ht & Hl). rewrite Hp, Hb. split_and!; [by eapply accepted_mono|done|..].
      * intros b Hb'. destruct Hcase as [->|[->|(token & until & ids & -> & Hin & ->)]]; [destruct (Ht b Hb') as (ids & Hc & Hin); eauto with pipe | done|].
        cbn in Hb'. injection Hb' as <-. exists ids. split; [|done]. split; [exact Hs|]. exists until. by eapply happened_now.
      * destruct Hcase as [->|[->|(token & until & ids & -> & Hin & ->)]]; [done | done | by eexists].
    + split_and!; [|done|done|done]. exists rows, r. split; [by eapply happened_now | done].
  - intros id payload Ha. destruct (accepted_after _ _ _ _ _ _ E Ha) as [Ha'|(rows & r & -> & Hin)].
    + destruct (sound_kept _ Hw _ _ Ha') as [Hk|(row & ids & Hc & Hcl & Hin)]; [|right; exists row, ids; eauto with pipe].
      destruct (events_stay _ _ _ _ _ E Hk) as [|(token & e & -> & He & Ht)]; [by left|]. right. destruct Hs as (row & Hc & <-).
      destruct (sound_event _ Hw _ _ He) as (_ & _ & H & _). destruct (H _ Ht) as (ids & Hcl & Hin). exists row, ids. eauto with pipe.
    + left. unfold prun in E; cbn [db_run] in E. destruct (insert_events rows r _) as [m|] eqn:Ei; cbn in E; [|done]. injection E as <- <-.
      destruct (insert_events_spec _ _ _ _ Ei) as (_ & _ & H3). by eapply H3.
  - intros b row Hb. destruct (batches_after _ _ _ _ _ _ E Hb) as [Hb'|[-> <-]]; [|split; [done | by eapply happened_now]].
    destruct (sound_batch _ Hw _ _ Hb'). eauto with pipe.
  - intros row [Hst Hh]. destruct (happened_after _ _ _ _ _ E Hh) as [Hh'| <-].
    + destruct (sound_stored _ Hw row (conj Hst Hh')) as [l Hl]. eauto with pipe.
    + destruct (Hs Hst) as [l Hl]. eauto with pipe.
Qed.

(** ** Operations under interference *)

Definition keeps (w w' : Whole) : Prop := older w w' /\ (sound w -> sound w').
#[local] Instance keeps_pre : PreOrder keeps.
Proof. split; [by split; [reflexivity|]|]. intros x y z [Ho Hs] [Ho' Hs']. split; [by etransitivity | auto]. Qed.
Lemma pl_allowed_keeps s w : allowed s w -> keeps w (Script.apply prun w s).
Proof. intros Hs. split; [apply apply_older | by apply sound_step]. Qed.

Notation wp := (Script.wp prun keeps (fun _ _ => True) allowed).
Notation top := (fun _ _ => True).
Definition lasting (F : Whole -> Prop) : Prop := forall w w', keeps w w' -> F w -> F w'.
Definition tame (s : PStmt) : Prop := match s with PutBatch _ | DeleteLeased _ | ClaimEvents _ _ _ => False | _ => True end.
Hint Extern 0 (tame _) => exact I : issues.
Lemma tame_allowed s : tame s -> forall w, allowed s w /\ keeps w (Script.apply prun w s).
Proof. intros Hs w. assert (allowed s w) by by destruct s. auto using pl_allowed_keeps. Qed.

Lemma wp_tame {A} (m : POp A) F w : issues tame m -> lasting F -> F w -> wp m (fun _ => F) (fun _ => F) w.
Proof.
  intros Hm HF Hw. eapply Script.wp_mono; [| |apply (Script.wp_stable _ _ _ _ m F (fun _ => True)); [done| |exact HF|exact Hw]].
  - by intros a w' [_ H].
  - done.
  - apply goes_issues. eapply issues_impl; [|exact Hm]. apply tame_allowed.
Qed.
Lemma wp_then {A B} (m : POp A) (f : A -> POp B) F post epost w : issues tame m -> lasting F -> F w -> (forall e w', F w' -> epost e w') ->
  (forall a w', F w' -> wp (f a) post epost w') -> wp (Script.bind m f) post epost w.
Proof. intros Hm HF Hw He Hf. apply Script.wp_bind. eapply Script.wp_mono; [| |by eapply wp_tame]; cbn; auto. Qed.
Lemma wp_stores_then {A B} (m : ROp A) (f : A -> ROp B) F post epost w : lasting F -> F w -> (forall e w', F w' -> epost e w') ->
  (forall a w', F w' -> wp (on_stores (f a)) post epost w') -> wp (on_stores (Script.bind m f)) post epost w.
Proof.
  intros HF Hw He Hf. apply wp_lift_bind. eapply Script.wp_mono; [| |eapply (wp_tame _ F); [|done|exact Hw]]; cbn; [auto|auto|].
  apply issues_lift. induction m; cbn; auto.
Qed.

Lemma lasting_sound : lasting sound.
Proof. intros w w' [_ Hs]. exact Hs. Qed.
Lemma lasting_older (F : Whole -> Prop) : (forall w w', older w w' -> F w -> F w') -> lasting F.
Proof. intros HF w w' [Ho _]. by apply HF. Qed.
Lemma lasting_and F G : lasting F -> lasting G -> lasting (fun w => F w /\ G w).
Proof. intros HF HG w w' Hk [Hf Hg]. split; [by eapply HF | by eapply HG]. Qed.

(** ** Storing *)

Definition indexed (w : Whole) (b key sha : string) : Prop := exists o mb mo, (OnStores (IndexObject b o mb mo), 1) ∈ history w /\ o_key o = key /\ o_sha256 o = sha.
Lemma lasting_indexed b key sha : lasting (fun w => indexed w b key sha).
Proof. apply lasting_older. intros w w' [e He] (o & mb & mo & Hin & H). exists o, mb, mo. rewrite He. set_solver. Qed.

Lemma tame_stores {A} (m : ROp A) : issues tame (on_stores m).
Proof. apply issues_lift. induction m; cbn; auto. Qed.

Lemma wp_index_committed b key sha z etag l o s previous F w : lasting F -> F w ->
  wp (on_stores (index_committed_object b key sha z etag l o s previous)) (fun _ w' => F w' /\ indexed w' b key sha) (fun _ => F) w.
Proof.
  intros HF Hw. unfold index_committed_object. eapply (wp_stores_then _ _ F); [done|done|done|]. intros now w1 Hw1.
  set (meta := mkMeta _ _ _ _ _ _ _ _ _). apply wp_lift_bind. intros w2 Hk. assert (Hw2 : F w2) by eauto. set (st := OnStores _).
  assert (Hw3 : F (Script.apply prun w2 st)) by (eapply HF; [by apply pl_allowed_keeps | done]).
  split_and!; [done| |exact Hw2|exact Hw3].
  assert (He : exists n, Script.affected prun w2 st = Some n /\ (st, n) ∈ history (Script.apply prun w2 st)).
  { unfold Script.affected, Script.apply. destruct (prun w2 st) as [[w' n]|] eqn:E; cbn.
    - exists n. split; [done|]. apply prun_history in E. rewrite E. set_solver.
    - subst st. unfold prun in E. cbn in E. destruct (fits _ _ _ _); done. }
  destruct He as (n & -> & Hin). cbn [lift Script.wp]. apply wp_lift_bind. cbn [guard]. destruct (Z.eqb_spec n 1) as [->|]; [|exact Hw3]. cbn [lift Script.wp].
  assert (Hi : indexed (Script.apply prun w2 st) b key sha) by (by exists meta, (default 0 (max_bytes s)), (default 0 (max_objects s))).
  eapply (wp_stores_then _ _ (fun w => F w /\ indexed w b key sha)); [by apply lasting_and, lasting_indexed|done|by intros ? ? []|]. intros _ w4 Hw4. exact Hw4.
Qed.

Lemma wp_put_object v b s key c o F w : live_bucket v b = Some s -> uses_local_storage s || v_rclone v = true -> lasting F -> F w ->
  wp (on_stores (put_object v b key c o)) (fun _ w' => F w' /\ indexed w' b key (digest_hex c)) (fun _ => F) w.
Proof.
  intros Hs Hr HF Hw. unfold put_object. do 3 (eapply (wp_stores_then _ _ F); [done|done|done|]; intros ? ? ?).
  unfold commit_object, known_bucket. rewrite Hs. cbn [Script.bind ret]. destruct (resolve_storage v (storage s) (storage_policy s) (sha256 c)) as [l|e] eqn:El;
    cbn [storage_check Script.bind ret fail]; [|done].
  assert (Hl : supports (v_rclone v) l = true).
  { apply orb_true_iff in Hr as [Hr| ->]; [|by destruct l]. unfold uses_local_storage in Hr. to_prop. unfold resolve_storage in El.
    destruct (storage_policy s); [done|]. injection El as <-. by destruct (storage s). }
  rewrite Hl. cbn [negb]. unfold r2_ensure_schema. do 5 (eapply (wp_stores_then _ _ F); [done|done|done|]; intros ? ? ?). by apply wp_index_committed.
Qed.

Lemma wp_upload_batch v b s key c o F w : live_bucket v b = Some s -> uses_local_storage s || v_rclone v = true -> lasting F -> F w ->
  wp (upload_batch v b key c o) (fun _ w' => F w' /\ (blen c <= MAX_BUFFERED_OBJECT_BYTES -> indexed w' b key (digest_hex c))) (fun _ => F) w.
Proof.
  intros Hs Hr HF Hw. unfold upload_batch. destruct (Z.leb_spec (blen c) MAX_BUFFERED_OBJECT_BYTES) as [Hle|Hgt].
  - apply Script.wp_bind. eapply Script.wp_mono; [| |by eapply wp_put_object]; cbn; [|auto]. intros _ w' [Hw' Hi]. auto.
  - eapply Script.wp_mono; [| |apply (wp_tame _ F); [|done|exact Hw]]; cbn beta; [|auto|].
    + intros _ w' Hw'. split; [done|]. lia.
    + apply issues_bind; [apply tame_stores|]. intros id. apply issues_bind; [|intros pub; apply issues_bind; [apply tame_stores | done]].
      generalize (@nil PublishedPart), 1. induction (chunks _ _ _) as [|x l IH]; intros pub n; [done|]. cbn [upload_parts].
      apply issues_bind; [apply issues_catch, tame_stores|]. intros [p|e]; [apply IH|]. apply issues_bind; [apply issues_catch, tame_stores | done].
Qed.

(** ** Flushing *)

Lemma wp_delete_leased b F w : lasting F -> (forall w, F w -> exists row, completed w row /\ bt_id row = b) -> F w ->
  wp (delete_leased b) (fun _ => F) top w.
Proof.
  intros HF Hc Hw. apply Script.wp_bind. intros w1 Hk. assert (Hw1 : F w1) by eauto. assert (Ha : allowed (DeleteLeased b) w1) by (by apply Hc).
  split_and!; [done| |done|done]. destruct (Script.affected _ _ _); [|done]. cbn [Script.wp ret]. eapply HF; [by apply pl_allowed_keeps | done].
Qed.

(** The events a flush has claimed. *)
Definition in_hand (l : list PendingEvent) (w : Whole) : Prop :=
  sound w /\ claimed w (batch_id (map ev_id l)) (map ev_id l) /\ Forall (fun e => accepted w (ev_id e) (ev_payload e)) l.
Lemma lasting_in_hand l : lasting (in_hand l).
Proof.
  apply lasting_and; [apply lasting_sound|]. apply lasting_older. intros w w' Ho [Hc Ha]. split; [by eapply claimed_mono|].
  eapply Forall_impl; [exact Ha|]. intros e. by apply accepted_mono.
Qed.

Lemma wp_store_batch v name spec s l oldest w : live_bucket v (output_bucket spec) = Some s -> uses_local_storage s || v_rclone v = true -> in_hand l w ->
  wp (store_batch gzip date_of error_text v name spec l oldest) top top w.
Proof.
  intros Hs Hr Hw. assert (HF := lasting_in_hand l). unfold store_batch. eapply (wp_then _ _ (in_hand l)); [auto with issues|done|done|done|]. intros created w1 Hw1.
  destruct (render_key _ _ _ _ _) as [key|e]; cbn [check Script.bind]; [|done]. apply Script.wp_bind, Script.wp_catch.
  eapply Script.wp_mono; [| |by eapply wp_upload_batch]; cbn beta.
  - intros _ w2 [Hw2 Hi]. eapply (wp_then _ _ (fun w => in_hand l w /\ (blen (gzip (jsonl l)) <= MAX_BUFFERED_OBJECT_BYTES ->
      indexed w (output_bucket spec) key (digest_hex (gzip (jsonl l)))))); [auto with issues| |done|done|].
    { apply lasting_and; [done|]. intros x y Hk H Hl. eapply lasting_indexed; eauto. }
    intros now w3 [Hw3 Hi3]. set (row := mkPBatch _ _ _ _ _ _ _ _ _ _). apply Script.wp_bind. intros w4 Hk.
    assert (Hh : in_hand l w4) by (by eapply HF). assert (Hrow : holds_events w4 row l).
    { destruct Hh as (_ & Hc & Ha). split_and!; [done|done|done|done|done|]. intros Hl. eapply (lasting_indexed (output_bucket spec)) in Hi3; [|exact Hk|exact Hl].
      destruct Hi3 as (ob & mb & mo & Hin & <- & Hsha). exists (output_bucket spec), ob, mb, mo. split_and!; [done|done|]. cbn. by rewrite Hsha. }
    assert (Ha : allowed (PutBatch row) w4) by (by eexists). split_and!; [done| |done|done].
    destruct (Script.affected prun w4 (PutBatch row)) as [n|]; [|done]. cbn [Script.wp].
    assert (Hdone : completed (Script.apply prun w4 (PutBatch row)) row) by (split; [done | by eapply happened_now]).
    eapply Script.wp_bind, Script.wp_mono; [| |apply (wp_delete_leased _ (fun w => completed w row))].
    + intros _ w5 _. eapply (wp_then _ _ (fun _ => True)); [unfold batch_by_id; auto with issues|done|done|done|]. intros r w6 _. by destruct r.
    + done.
    + apply lasting_older. intros x y. apply completed_mono.
    + intros x Hx. by exists row.
    + done.
  - intros e w2 Hw2. eapply Script.wp_bind. intros w3 Hk. split_and!; [by intros [=]| |done|done]. destruct (Script.affected _ _ _); [|done]. cbn [Script.wp].
    eapply (wp_then _ _ (fun _ => True)); [auto with issues|done|done|done|]. done.
Qed.

Lemma wp_flush_claimed v name spec s l oldest w : live_bucket v (output_bucket spec) = Some s -> uses_local_storage s || v_rclone v = true -> in_hand l w ->
  wp (flush_claimed gzip date_of error_text v name spec l oldest) top top w.
Proof.
  intros Hs Hr Hw. unfold flush_claimed. apply Script.wp_bind. intros w1 Hk. assert (Hw1 : in_hand l w1) by (by eapply lasting_in_hand). split; [|done].
  cbn [Script.wp]. destruct (p_batches (p_db w1) !! batch_id (map ev_id l)) as [row|] eqn:Er; [|by eapply wp_store_batch].
  case_bool_decide as Hst; [|by eapply wp_store_batch]. destruct Hw1 as [Hsound _]. destruct (sound_batch _ Hsound _ _ Er) as [Hid Hh].
  eapply Script.wp_bind, Script.wp_mono; [| |apply (wp_delete_leased _ (fun w => completed w row))]; [done|done|..].
  - apply lasting_older. intros x y. apply completed_mono.
  - intros x Hx. by exists row.
  - done.
Qed.

Lemma select_batch_prefix max sel bytes l : exists k, (select_batch max sel bytes l).1 = sel ++ take k l.
Proof.
  revert sel bytes. induction l as [|e l IH]; intros sel bytes; cbn [select_batch]; [exists O; by rewrite app_nil_r|].
  destruct (_ && _); [exists O; by rewrite app_nil_r|]. destruct (IH (sel ++ [e]) (sat_add 64 bytes (ev_bytes e))) as [k Hk]. exists (S k). rewrite Hk. by rewrite <- app_assoc.
Qed.
Lemma queue_elem m e : e ∈ queue_of m <-> exists x, m !! ev_id e = Some x /\ pe_leased x = false /\ ev_payload e = pe_payload x /\ ev_bytes e = pe_bytes x /\ ev_received e = pe_received x.
Proof.
  unfold queue_of. rewrite merge_sort_Permutation, list_elem_of_fmap. split.
  - intros ([id x] & -> & [Hl Hin%elem_of_map_to_list]%list_elem_of_filter). by exists x.
  - intros (x & Hx & Hl & H1 & H2 & H3). exists (ev_id e, x). destruct e; cbn in *. subst. split; [done|]. apply list_elem_of_filter. split; [done|].
    by apply elem_of_map_to_list.
Qed.

Lemma wp_flush v name definition force w : sound w -> wp (flush_once gzip date_of error_text v name definition force) top top w.
Proof.
  intros Hw. assert (HF := lasting_sound). unfold flush_once. destruct definition as [spec|]; [|done]. destruct (_ && _); [done|].
  destruct (live_bucket v (output_bucket spec)) as [s|] eqn:Hs; [|done]. destruct (negb (uses_local_storage s) && negb (v_rclone v)) eqn:Hr; [by destruct force|].
  assert (Hr' : uses_local_storage s || v_rclone v = true) by (by destruct (uses_local_storage s), (v_rclone v)). clear Hr.
  unfold pl_ensure_schema. do 3 (eapply (wp_then _ _ sound); [auto with issues|done|done|done|]; clear w Hw; intros ? w Hw).
  apply Script.wp_bind. intros w1 Hk. assert (Hw1 : sound w1) by eauto. split; [|done]. cbn [Script.wp].
  destruct (select_batch_prefix (batch_max_bytes spec) [] 0 (take MAX_BATCH_EVENTS (queue_of (p_events (p_db w1))))) as [k Hsel].
  destruct (select_batch _ _ _ _) as [selected bytes]. cbn [fst] in Hsel. destruct selected as [|first rest]; [done|]. set (l := first :: rest) in *.
  destruct (negb (_ || _ || _)); [done|].
  assert (Hacc : Forall (fun e => accepted w1 (ev_id e) (ev_payload e)) l).
  { rewrite Hsel, Forall_forall. intros e He. apply elem_of_app in He as [He|He]; [by apply not_elem_of_nil in He|].
    apply elem_of_take in He as (i & Hi & _). apply list_elem_of_lookup_2, elem_of_take in Hi as (j & Hj & _). apply list_elem_of_lookup_2, queue_elem in Hj as (x & Hx & _ & -> & _).
    by destruct (sound_event _ Hw1 _ _ Hx). }
  clearbody l. clear Hsel. apply Script.wp_bind. intros w2 Hk2. assert (Ha : allowed (ClaimEvents (batch_id (map ev_id l)) (sat_add 64 a0 PL_LEASE_MS) (map ev_id l)) w2) by done.
  split_and!; [done| |done|done]. destruct (Script.affected _ _ _) as [n|] eqn:En; [|done]. cbn [Script.wp].
  destruct (negb _); [eapply (wp_then _ _ (fun _ => True)); [auto with issues|done|done|done|done]|]. eapply wp_flush_claimed; [done|done|].
  set (st := ClaimEvents _ _ _) in *. assert (Hk3 := pl_allowed_keeps st w2 Ha). split_and!.
  - apply Hk3, Hk2, Hw1.
  - split; [done|]. eexists. unfold Script.affected in En. unfold Script.apply. destruct (prun w2 st) as [[w' z]|] eqn:E; [|done]. by eapply happened_now.
  - eapply Forall_impl; [exact Hacc|]. intros e. apply accepted_mono. etransitivity; [apply Hk2 | apply Hk3].
Qed.

Lemma tame_ingest definition events : issues tame (ingest schema_accepts base64 sqlite definition events).
Proof.
  unfold ingest. destruct definition as [spec|]; [|done]. apply issues_if; [done|]. apply issues_bind; [auto with issues|]. intros es.
  apply issues_bind; [auto with issues|]. intros _. apply issues_bind; [auto with issues|]. intros es'. apply issues_if; [done|].
  apply issues_bind; [auto with issues|]. intros received. apply issues_bind; [by intros i|]. intros ingest_id. apply issues_bind; [auto with issues|]. intros rows. unfold pl_ensure_schema.
  apply issues_bind; [auto with issues|]. intros _. apply issues_bind; [|auto with issues].
  induction (chunks _ _ _) as [|c l IH]; [done|]. cbn [insert_chunks]. apply issues_bind; [auto with issues|]. intros _. exact IH.
Qed.

Lemma pl_wp_operation t w : poperation t -> sound w -> wp t top top w.
Proof.
  intros Ht Hw. assert (Hany : forall A (m : POp A), wp m top top w -> wp (pvoid m) top top w).
  { intros A m Hm. apply Script.wp_bind. eapply Script.wp_mono; [| |exact Hm]; done. }
  assert (Htame : forall A (m : POp A), issues tame m -> wp m top top w).
  { intros A m Hm. eapply Script.wp_mono; [| |apply (wp_tame m (fun _ => True)); done]; done. }
  destruct Ht as [definition events|v name definition force|v name spec| |limit].
  - apply Hany, Htame, tame_ingest.
  - by apply Hany, wp_flush.
  - unfold drive_pipeline. destruct (pl_suspended spec); [done|]. unfold ignore. apply Script.wp_bind, Script.wp_catch. by eapply Script.wp_mono, wp_flush.
  - apply Hany, Htame. unfold status, pl_ensure_schema. auto 10 with issues.
  - apply Hany, Htame. unfold list_batches, pl_ensure_schema. auto 10 with issues.
Qed.

Definition empty_whole : Whole := mkWhole (mkPDb ∅ ∅) (mkStores ∅ ∅) [].
Lemma sound_empty : sound empty_whole.
Proof.
  split; [done| |done|].
  - intros id p (rows & r & [n Hn] & _). by apply not_elem_of_nil in Hn.
  - intros row [_ [n Hn]]. by apply not_elem_of_nil in Hn.
Qed.

Lemma pipeline_sound faults (s : Script.Sys Whole PStmt RQuestion RAnswer PipeError) : Script.reachable prun poperation faults empty_whole s -> sound (Script.state s).
Proof.
  intros Hr. eapply (Script.guarded_run _ _ _ keeps (fun _ _ => True) allowed sound) in Hr; [exact (proj1 Hr)|..].
  - intros x y. apply pl_allowed_keeps.
  - intros x y. apply sound_step.
  - intros t d Ht Hd. by apply pl_wp_operation.
  - constructor.
  - apply sound_empty.
Qed.

(** Different sets of events were claimed under different names. *)
Definition no_collision (w : Whole) : Prop := forall token ids ids', claimed w token ids -> claimed w token ids' -> ids = ids'.


(** An event in the table is queued, or leased until a known time: a recovery at that time or later, which every flush begins with, queues it again. *)
Theorem no_event_is_stranded (faults : Prop) (s : Script.Sys Whole PStmt RQuestion RAnswer PipeError) (id : string) (e : PEvent) :
  Script.reachable prun poperation faults empty_whole s -> p_events (p_db (Script.state s)) !! id = Some e ->
  pe_leased e = false \/ exists u, pe_until e = Some u /\ forall now, u <= now ->
    p_events (p_db (Script.apply prun (Script.state s) (RecoverEvents now))) !! id = Some (queued e).
Proof.
  intros Hr He. destruct (sound_event _ (pipeline_sound _ _ Hr) _ _ He) as (_ & _ & _ & Hl). destruct (pe_leased e) eqn:El; [right|by left].
  destruct (Hl eq_refl) as [u Hu]. exists u. split; [done|]. intros now Hn. cbn. rewrite map_lookup_imap, He. cbn. unfold lease_over. rewrite El, Hu.
  by rewrite (proj2 (Z.leb_le u now)).
Qed.

(** ** Bounds of a batch *)

Definition bytes_of (l : list PendingEvent) : Z := foldr (fun e acc => ev_bytes e + acc) 0 l.
Lemma bytes_of_app l l' : bytes_of (l ++ l') = bytes_of l + bytes_of l'.
Proof. unfold bytes_of. induction l as [|e l IH]; cbn -[Z.add]; [done|]. rewrite IH. lia. Qed.

Lemma select_batch_spec max sel l : 0 <= max < 2 ^ 64 - 1 -> Forall (fun e => 0 <= ev_bytes e < 2 ^ 64) (sel ++ l) ->
  (length sel <= 1)%nat \/ bytes_of sel <= max ->
  let '(out, bytes) := select_batch max sel (Z.min (bytes_of sel) u64_max) l in
  exists k, out = sel ++ take k l /\ bytes = Z.min (bytes_of out) u64_max /\ ((length out <= 1)%nat \/ bytes_of out <= max) /\
    (k <= length l)%nat /\ (forall e, l !! k = Some e -> out <> [] /\ max < bytes_of out + ev_bytes e) /\ (sel ++ l <> [] -> out <> []).
Proof.
  intros Hmax. revert sel. induction l as [|e l IH]; intros sel Hl Hsel; cbn [select_batch].
  - exists O. cbn [take]. rewrite !app_nil_r. split_and!; [done|done|done|cbn; lia|done|done].
  - assert (He : 0 <= ev_bytes e < 2 ^ 64) by (apply Forall_app in Hl as [_ Hl]; by apply Forall_cons in Hl as [He _]).
    assert (Hs : 0 <= bytes_of sel). { apply Forall_app in Hl as [Hl _]. clear -Hl. induction Hl as [|x l Hx _ IHl]; cbn; [lia|]. unfold bytes_of in *. lia. }
    assert (Hadd : sat_add 64 (Z.min (bytes_of sel) u64_max) (ev_bytes e) = Z.min (bytes_of (sel ++ [e])) u64_max).
    { rewrite bytes_of_app. unfold sat_add, u64_max, umax in *. cbn. lia. }
    rewrite Hadd. destruct (negb _ && _) eqn:Eb.
    + to_prop. exists O. cbn [take]. rewrite !app_nil_r. assert (Hne : sel <> []) by (by intros ->). split_and!; [done|done|done|lia| |done]. intros e' He'. injection He' as <-. split; [done|].
      rewrite bytes_of_app in *. unfold u64_max, umax in *. cbn in *. lia.
    + specialize (IH (sel ++ [e])). rewrite <- app_assoc in IH. destruct (select_batch max (sel ++ [e]) _ l) as [out bytes].
      destruct IH as (k & Ho & Hb & Hm & Hk & Hn & Hne); [done| |exists (S k); rewrite <- app_assoc in Ho; cbn; split_and!; auto; lia].
      apply andb_false_iff in Eb as [Eb|Eb]; to_prop; [left; rewrite length_app; cbn; lia|right]. rewrite ?bytes_of_app in *. unfold u64_max, umax in *. cbn in *. lia.
Qed.

(** A batch is a prefix of the queue with at least one event; it has at most the pipeline's bytes, unless it is one event; and it is the longest such
    prefix: the next event would take it over the limit. *)
Theorem batch_is_bounded (max : Z) (l : list PendingEvent) : 0 <= max <= MAX_BATCH_BYTES -> Forall (fun e => 0 <= ev_bytes e < 2 ^ 64) l -> l <> [] ->
  let out := (select_batch max [] 0 l).1 in
  exists k, out = take k l /\ out <> [] /\ ((length out = 1)%nat \/ bytes_of out <= max) /\
    forall e, l !! k = Some e -> max < bytes_of out + ev_bytes e.
Proof.
  intros Hmax Hl Hne. assert (H := select_batch_spec max [] l ltac:(unfold MAX_BATCH_BYTES in *; lia) Hl ltac:(by left; cbn; lia)).
  cbn [bytes_of foldr] in H. change (Z.min 0 u64_max) with 0 in H. destruct (select_batch max [] 0 l) as [out bytes].
  destruct H as (k & -> & _ & Hb & _ & Hk & Ho). exists k. cbn [fst app] in *. specialize (Ho Hne). split_and!; [done|done| |].
  - destruct Hb as [Hb|Hb]; [left | by right]. destruct (take k l) as [|x [|y m]]; cbn in *; [done|done|lia].
  - intros e He. by apply Hk.
Qed.
End pipeline.
