(* ===== verification/PipelineText.v ===== *)
(** * PipelineText: field names in SQL, lines of JSON, object keys

    Field names of events become columns of a table: a reader of SQL identifiers finds exactly the columns, whatever the
    names are.  Events written a line each are read back.  A template that passes validation may never
    give a key. *)

From Stdlib Require Import ZArith Lia Ascii SpecFloat.
From stdpp Require Import prelude gmap sorting strings list pretty.
From S2P Require Import Prelude Text Json Script Hlc Identity Envelope Kv Cron Claim Manifest Quorum DataAudit Observability Store Node NodeFacts Resource Workflow Storage Quota R2 R2Props Pipeline PipelineProps.
Open Scope Z_scope.

Lemma sappend_cons c (a b : string) : (String c a ++ b)%string = String c (a ++ b).
Proof. reflexivity. Qed.
Lemma sappend_assoc (a b c : string) : ((a ++ b) ++ c)%string = (a ++ (b ++ c))%string.
Proof. induction a as [|x a IH]; [done|]. by rewrite !sappend_cons, IH. Qed.
Lemma sappend_nil (a : string) : (a ++ "")%string = a.
Proof. induction a as [|x a IH]; [done|]. by rewrite sappend_cons, IH. Qed.

(** ** Identifiers of SQL *)

(** The rest of a quoted identifier: a doubled quote is a quote, a single one ends it. *)
Fixpoint lex_quoted (acc s : string) : option (string * string) :=
  match s with
  | EmptyString => None
  | String c s' =>
      if bool_decide (c = QUOTE34) then
        match s' with
        | String c' s'' => if bool_decide (c' = QUOTE34) then lex_quoted (acc ++ String c EmptyString) s'' else Some (acc, s')
        | EmptyString => Some (acc, s')
        end
      else lex_quoted (acc ++ String c EmptyString) s'
  end.
(** The columns after the first: a comma, a space and a quoted identifier each, up to the bracket that ends the statement. *)
Fixpoint lex_columns (fuel : nat) (s : string) : option (list string) :=
  match fuel with
  | O => None
  | S fuel' =>
      if bool_decide (s = ")") then Some []
      else
        match s with
        | String "," (String " " (String c s')) =>
            if bool_decide (c = QUOTE34) then
              match lex_quoted EmptyString s' with Some (column, rest) => cons column <$> lex_columns fuel' rest | None => None end
            else None
        | _ => None
        end
  end.
Definition lex_create (s : string) : option (list string) :=
  match strip_prefix "CREATE TABLE events (__rf_event TEXT NOT NULL" s with Some rest => lex_columns (S (String.length rest)) rest | None => None end.

Definition unquoted_start (s : string) : Prop := match s with String c _ => c <> QUOTE34 | EmptyString => True end.
Lemma lex_quoted_doubled acc s rest : unquoted_start rest -> lex_quoted acc (double_quotes s ++ String QUOTE34 rest) = Some ((acc ++ s)%string, rest).
Proof.
  intros Hr. revert acc. induction s as [|c s IH]; intros acc.
  - cbn [double_quotes]. change ((EmptyString ++ String QUOTE34 rest)%string) with (String QUOTE34 rest). cbn [lex_quoted]. rewrite bool_decide_true by done.
    rewrite sappend_nil. destruct rest as [|c r]; [done|]. by rewrite bool_decide_false.
  - cbn [double_quotes]. destruct (bool_decide (c = QUOTE34)) eqn:Ec.
    + apply bool_decide_eq_true in Ec as ->. rewrite !sappend_cons. cbn [lex_quoted]. rewrite !bool_decide_true by done. rewrite IH. by rewrite sappend_assoc.
    + rewrite sappend_cons. cbn [lex_quoted]. rewrite Ec, IH. by rewrite sappend_assoc.
Qed.

Definition column_text (columns : list string) : string := (String.concat "" (map (fun c => ", " ++ quoted_identifier c) columns) ++ ")")%string.
Lemma concat_empty_cons (x : string) l : String.concat "" (x :: l) = (x ++ String.concat "" l)%string.
Proof. destruct l as [|y l]; cbn [String.concat]; [by rewrite sappend_nil | done]. Qed.
Lemma column_text_cons c columns : column_text (c :: columns) = String "," (String " " (String QUOTE34 (double_quotes c ++ String QUOTE34 (column_text columns)))).
Proof.
  unfold column_text. cbn [map]. rewrite concat_empty_cons. unfold quoted_identifier. change (", " ++ ?x)%string with (String "," (String " " x)).
  rewrite !sappend_cons, !sappend_assoc. done.
Qed.
Lemma column_text_start columns : unquoted_start (column_text columns).
Proof. destruct columns as [|c l]; [done|]. by rewrite column_text_cons. Qed.
Lemma column_text_length columns : (length columns < String.length (column_text columns))%nat.
Proof.
  induction columns as [|c l IH]; [change (0 < 1)%nat; lia|]. rewrite column_text_cons. cbn [String.length length].
  assert (H : forall a b, String.length (a ++ b) = (String.length a + String.length b)%nat) by (induction a as [|x a IHa]; intros b; [done|]; rewrite sappend_cons; cbn; by rewrite IHa).
  rewrite H. cbn [String.length]. lia.
Qed.
Lemma lex_column_text fuel columns : (length columns < fuel)%nat -> lex_columns fuel (column_text columns) = Some columns.
Proof.
  revert columns. induction fuel as [|fuel IH]; intros columns Hf; [lia|]. destruct columns as [|c l]; [done|]. rewrite column_text_cons. cbn [lex_columns].
  rewrite bool_decide_false by done. rewrite bool_decide_true by done. rewrite lex_quoted_doubled by apply column_text_start.
  rewrite IH by (cbn in Hf; lia). done.
Qed.

(** C20: field names of events cannot change the statement that makes their table: read as SQL, the statement declares exactly the columns, whatever bytes
    are in their names. *)
Theorem field_names_are_only_names (columns : list string) : lex_create (create_events columns) = Some columns.
Proof.
  unfold lex_create, create_events. set (p := "CREATE TABLE events (__rf_event TEXT NOT NULL"%string).
  assert (Hp : forall x, strip_prefix p (p ++ x) = Some x).
  { intros x. generalize p. intros q. induction q as [|c q IH]; [done|]. rewrite sappend_cons. cbn [strip_prefix]. rewrite bool_decide_true by done. exact IH. }
  rewrite Hp. apply lex_column_text. assert (H := column_text_length columns). unfold column_text in *. lia.
Qed.

(** ** Lines *)

(** [serde_json] writes one line of UTF-8 with no space around it, and reads back what it wrote. *)
Record line_value {serde : SerdeJson} (v : J) : Prop := {
  line_read : from_text (to_text v) = Some v;
  line_single : contains_byte "010" (to_text v) = false;
  line_utf8 : is_utf8 (to_text v) = true;
  line_trim : trim (to_text v) = to_text v;
  line_some : is_empty (to_text v) = false
}.

Section lines.
Context {serde : SerdeJson}.

Definition lines_of (events : list J) : string := foldr (fun v acc => to_text v ++ String "010" acc)%string "" events.
Lemma split_line a s : contains_byte "010" a = false -> split "010" (a ++ String "010" s) = a :: split "010" s.
Proof.
  induction a as [|c a IH]; intros Ha.
  - change ((EmptyString ++ String "010" s)%string) with (String "010" s). cbn [split]. by rewrite bool_decide_true.
  - cbn [contains_byte] in Ha. apply orb_false_iff in Ha as [Hc Ha]. rewrite sappend_cons. cbn [split]. by rewrite Hc, IH.
Qed.
Lemma split_lines events : Forall line_value events -> split "010" (lines_of events) = map to_text events ++ [EmptyString].
Proof. induction 1 as [|v l Hv _ IH]; [done|]. cbn [lines_of foldr map]. rewrite split_line by by apply line_single. cbn [app]. by rewrite <- IH. Qed.
Lemma parse_lines events index got : Forall line_value events -> Z.of_nat (length got) + Z.of_nat (length events) <= MAX_EVENTS_PER_REQUEST -> parse_lines_go false index got (map to_text events) = Ok (got ++ events).
Proof.
  intros Hv. revert index got. induction Hv as [|v l Hv _ IH]; intros index got Hl; cbn [map parse_lines_go]; [by rewrite app_nil_r|].
  rewrite (line_utf8 v), (line_trim v), (line_some v), (line_read v) by done. cbn [negb]. cbn [length] in Hl.
  rewrite (proj2 (Z.ltb_ge _ _)) by lia. rewrite IH by (rewrite length_app; cbn [length]; lia). by rewrite <- app_assoc.
Qed.
Lemma jsonl_lines l events : map ev_payload l = map to_text events -> jsonl l = as_bytes (lines_of events).
Proof.
  revert events. induction l as [|e l IH]; intros [|v events] H; try done. injection H as He Hl. cbn [lines_of foldr]. rewrite as_bytes_app. cbn [as_bytes].
  rewrite <- He. unfold jsonl in *. cbn [map concat]. rewrite (IH events Hl), <- app_assoc. done.
Qed.
End lines.


(** ** Keys that are never given *)

Section keys.
Context {crypto : Crypto} {hex : Hex} {serde : SerdeJson} {md : Md5}.
Context (gzip : bytes -> bytes) (date_of : Z -> option (Z * Z * Z * Z)) (error_text : PipeError -> string) (schema_compiles : J -> bool).

Definition stray_template : string := "{x}{batchId}".
Definition no_key (template : string) : Prop := forall pipeline batch t, exists e, render_key date_of pipeline template batch t = Err e.
Lemma stray_no_key : no_key stray_template.
Proof.
  intros pipeline batch t. unfold render_key. destruct (date_of t) as [[[[y m] d] h]|]; [|by eexists]. exists UnknownPlaceholder.
  replace (contains_byte "{" _) with true; [done|]. reflexivity.
Qed.
Definition not_batch (s : PStmt) : Prop := match s with PutBatch _ | OnStores _ => False | _ => True end.
Lemma not_batch_issues v name spec force : no_key (output_key_template spec) -> issues not_batch (flush_once gzip date_of error_text v name (Some spec) force).
Proof.
  intros Hk. unfold flush_once, pl_ensure_schema. apply issues_if; [done|]. destruct (live_bucket _ _); [|done]. apply issues_if; [by destruct force|].
  do 4 (apply issues_bind; [first [by apply issues_exec | auto with issues]|]; intros ?). destruct (select_batch _ _ _ _) as [[|first l] bytes]; [done|].
  apply issues_if; [done|]. apply issues_bind; [by apply issues_exec|]. intros n. apply issues_if; [apply issues_bind; [by apply issues_exec | done]|].
  assert (Hs : forall l oldest, issues not_batch (store_batch gzip date_of error_text v name spec l oldest)).
  { intros l' oldest. unfold store_batch. apply issues_bind; [auto with issues|]. intros created.
    destruct (Hk name (batch_id (map ev_id l')) oldest) as [e He]. by rewrite He. }
  unfold flush_claimed, batch_by_id, delete_leased. apply issues_bind; [auto with issues|]. intros [row|]; [|apply Hs]. apply issues_if; [|apply Hs].
  apply issues_bind; [|done]. apply issues_bind; [by apply issues_exec | done].
Qed.
End keys.

(** A template with an unknown placeholder passes validation, and no flush of such a pipeline ever stores a batch or records a failure. *)
Theorem stray_placeholder_stops_the_pipeline {crypto : Crypto} {hex : Hex} {serde : SerdeJson} {md : Md5} gzip date_of error_text schema_compiles :
  exists spec, validate_pipeline schema_compiles spec = Ok tt /\
    forall v name force, issues not_batch (flush_once gzip date_of error_text v name (Some spec) force).
Proof.
  exists (mkPipelineSpec "" "out" stray_template 1024 60 None None false "" [] []). split; [by vm_compute|].
  intros v name force. apply not_batch_issues, stray_no_key.
Qed.
