(* ===== verification/PipelineTrace.v ===== *)
(** * PipelineTrace: runs of pipelines

    A flush that loses the race for a batch takes the lease of the one that won: there is a run without faults after which one event
    is in two completed batches.  Then the witnesses of the theorems on pipelines. *)

From Stdlib Require Import ZArith Lia Ascii SpecFloat.
From stdpp Require Import prelude gmap sorting strings list pretty.
From S2P Require Import Prelude Text Json Script Hlc Identity Envelope Kv Cron Claim Manifest Quorum DataAudit Observability Store Node NodeFacts Resource Workflow Storage Quota R2 R2Props Pipeline PipelineProps PipelineText.
Open Scope Z_scope.

Module PipeSample.
#[export] Instance crypto : Crypto := Sample.crypto.
#[export] Instance hex : Hex := Sample.hex.
#[export] Instance md : Md5 := fun b => b.
(** The text of a string is the string. *)
#[export] Instance serde : SerdeJson := {| to_text := fun v => match v with JStr s => s | _ => "-" end; from_text := fun s => Some (JStr s) |}.

Definition now_at (n : nat) : Z := Z.of_nat n.
Definition id_at (n : nat) : string := pretty n.
Definition healthy (_ : nat) : Fault := Healthy.
Definition answer (_ : nat) (_ : RQuestion) : RAnswer := GotError.
Definition gzip (b : bytes) : bytes := b.
Definition accepts (_ _ : J) : bool := true.
Definition base64 (s : string) : string := s.
Definition sqlite (_ : string) (_ : list (list SqlValue)) (_ : string) : result Compiled string := Err "none".
Definition date_of (_ : Z) : option (Z * Z * Z * Z) := Some (2026, 1, 2, 3).
Definition error_text (_ : PipeError) : string := "error".

Definition spec : PipelineSpec := mkPipelineSpec "" "out" "{batchId}" 1024 60 None None false "" [] [].
Definition view (name : string) : View :=
  mkNodeView name false [("out", (false, mkBucketSpec "" false Local None None None None [] []))] (Ok default_storage_policy) (Ok default_quota)
    (fun _ => [name]) [].
Definition add (s : string) : POp unit := pvoid (ingest accepts base64 sqlite (Some spec) [JStr s]).
Definition flush (name : string) : POp unit := pvoid (flush_once gzip date_of error_text (view name) "p" (Some spec) true).
Notation poperation := (poperation gzip accepts base64 sqlite date_of error_text).

Lemma pl_id_inj n m : id_at n = id_at m -> n = m.
Proof. apply (inj pretty). Qed.
End PipeSample.
Import PipeSample.

(** ** Delivered twice *)

Definition first_event : Whole * nat := play_all prun now_at id_at healthy answer [add "x"] empty_whole 0.
(** The second flush reads the queue, the first claims it; the second releases what the first claimed. *)
Definition race : Whole := (Script.follow prun 4 (replicate 4 1%nat ++ replicate 5 0%nat ++ replicate 10 1%nat ++ replicate 60 0%nat) first_event.1 [flush "a"; flush "n"]).1.
Definition second_event : Whole * nat := play_all prun now_at id_at healthy answer [add "y"; flush "a"] race first_event.2.

Lemma add_started s : poperation (add s).
Proof. constructor. Qed.
Lemma flush_started n : poperation (flush n).
Proof. constructor. Qed.
#[local] Hint Resolve add_started flush_started : pipe.
#[local] Hint Constructors Forall : pipe.

Lemma first_reached : exists p u, rtc (Script.step prun poperation False) (mkSys empty_whole [] ∅) (mkSys first_event.1 p u) /\
  Script.fresh_from id_at first_event.2 u /\ Script.finished p.
Proof.
  apply (play_all_runs prun poperation False now_at id_at healthy answer pl_id_inj (fun n H => H eq_refl)); [by auto with pipe | intros n _; set_solver | constructor].
Qed.
Lemma second_reached : exists s, Script.reachable prun poperation False empty_whole s /\ Script.finished (pool s) /\ state s = second_event.1.
Proof.
  destruct first_reached as (p & u & Hr & Hu & Hp).
  assert (Hf := follow_after prun poperation False 4 first_event.1 p u [flush "a"; flush "n"] (replicate 4 1%nat ++ replicate 5 0%nat ++ replicate 10 1%nat ++ replicate 60 0%nat) ltac:(by auto with pipe)).
  assert (Hend : Script.finished (Script.follow prun 4 (replicate 4 1%nat ++ replicate 5 0%nat ++ replicate 10 1%nat ++ replicate 60 0%nat) first_event.1 [flush "a"; flush "n"]).2).
  { vm_compute. constructor; [left; by eexists|]. constructor; [left; by eexists | constructor]. }
  destruct (play_all_runs prun poperation False now_at id_at healthy answer pl_id_inj (fun n H => H eq_refl) [add "y"; flush "a"] _ u race first_event.2
    ltac:(by auto with pipe) Hu ltac:(apply Forall_app; exact (conj Hp Hend))) as (p' & u' & Hr' & _ & Hp').
  eexists (mkSys _ _ _). split_and!; [unfold Script.reachable; etransitivity; [exact Hr|]; etransitivity; [exact Hf | exact Hr'] | exact Hp' | reflexivity].
Qed.

Definition stored_alone : PBatch := mkPBatch "312d303030303000" (Some "312d303030303000") 1 2 2 (Some "780a") BatchCompleted None 4 (Some 4).
Definition stored_again : PBatch :=
  mkPBatch "312d303030303000352d303030303000" (Some "312d303030303000352d303030303000") 2 4 4 (Some "780a790a") BatchCompleted None 14 (Some 23).

Definition event_x : PendingEvent := mkPending "1-00000" "x" 2 0.
Definition event_y : PendingEvent := mkPending "5-00000" "y" 2 4.

Lemma happened_at w n s k : history w !! n = Some (s, k) -> happened w s.
Proof. intros H. exists k. by eapply list_elem_of_lookup_2. Qed.
Lemma accepted_x : accepted second_event.1 "1-00000" "x".
Proof. exists [("1-00000", "x")], 0. split; [apply (happened_at _ 0 _ 1); vm_compute; reflexivity | set_solver]. Qed.
Lemma accepted_y : accepted second_event.1 "5-00000" "y".
Proof. exists [("5-00000", "y")], 4. split; [apply (happened_at _ 10 _ 1); vm_compute; reflexivity | set_solver]. Qed.

(** The [n]th statement indexed an object under this key with this digest. *)
Definition indexed_at (w : Whole) (n : nat) (key sha : string) : bool :=
  match history w !! n with
  | Some (OnStores (IndexObject _ o _ _), 1) => bool_decide (o_key o = key) && bool_decide (o_sha256 o = sha)
  | _ => false
  end.
Lemma indexed_at_spec w n key sha : indexed_at w n key sha = true ->
  exists b o mb mo, (OnStores (IndexObject b o mb mo), 1) ∈ history w /\ Some key = Some (o_key o) /\ Some sha = Some (o_sha256 o).
Proof.
  unfold indexed_at. destruct (history w !! n) as [[st k]|] eqn:E; [|done]. destruct st as [| | | | | |[]]; try done. destruct k as [|[]|]; try done.
  intros Hk. to_prop. do 4 eexists. split; [by eapply list_elem_of_lookup_2 | by subst].
Qed.

Lemma alone_holds : holds_events gzip second_event.1 stored_alone [event_x].
Proof.
  split_and!; [split; [vm_compute; reflexivity | exists 300004; apply (happened_at _ 3 _ 1); vm_compute; reflexivity]|done..| |vm_compute; reflexivity|].
  - constructor; [exact accepted_x | constructor].
  - intros _. apply (indexed_at_spec _ 7). vm_compute. reflexivity.
Qed.
Lemma again_holds : holds_events gzip second_event.1 stored_again [event_x; event_y].
Proof.
  split_and!; [split; [vm_compute; reflexivity | exists 300009; apply (happened_at _ 12 _ 2); vm_compute; reflexivity]|done..| |vm_compute; reflexivity|].
  - constructor; [exact accepted_x | constructor; [exact accepted_y | constructor]].
  - intros _. apply (indexed_at_spec _ 14). vm_compute. reflexivity.
Qed.


(** ** Witnesses *)

Definition claims_of (w : Whole) : list (string * list string) := omap (fun sn => match sn.1 with ClaimEvents t _ ids => Some (t, ids) | _ => None end) (history w).
Lemma claimed_in w token ids : claimed w token ids -> (token, ids) ∈ claims_of w.
Proof. intros [_ (u & n & Hn)]. apply list_elem_of_omap. by exists (ClaimEvents token u ids, n). Qed.
Lemma second_claims : claims_of second_event.1 =
  [("312d303030303000", ["1-00000"]); ("312d303030303000", ["1-00000"]); ("312d303030303000352d303030303000", ["1-00000"; "5-00000"])].
Proof. vm_compute. reflexivity. Qed.
Lemma second_no_collision : no_collision second_event.1.
Proof.
  intros token ids ids' H%claimed_in H'%claimed_in. rewrite second_claims in H, H'. repeat setoid_rewrite elem_of_cons in H. repeat setoid_rewrite elem_of_cons in H'.
  rewrite elem_of_nil in H, H'. naive_solver.
Qed.


Lemma no_event_is_stranded_witness : exists (s : Script.Sys Whole PStmt RQuestion RAnswer PipeError) e,
  Script.reachable prun poperation False empty_whole s /\ p_events (p_db (state s)) !! "1-00000" = Some e /\
  (pe_leased e = false \/ exists u, pe_until e = Some u).
Proof.
  destruct first_reached as (p & u & Hr & _ & _). exists (mkSys first_event.1 p u), (new_event "x" 0). split; [exact Hr|]. split; [vm_compute; reflexivity|].
  destruct (no_event_is_stranded gzip accepts base64 sqlite date_of error_text False (mkSys first_event.1 p u) "1-00000" (new_event "x" 0) Hr ltac:(vm_compute; reflexivity))
    as [H|(v & H & _)]; [left; exact H | right; exists v; exact H].
Defined.

Lemma batch_is_bounded_witness : let out := (select_batch 5 [] 0 [event_x; event_y; event_x]).1 in
  length out = 2%nat /\ ((length out = 1)%nat \/ bytes_of out <= 5).
Proof.
  split; [vm_compute; reflexivity|].
  destruct (batch_is_bounded 5 [event_x; event_y; event_x] ltac:(unfold MAX_BATCH_BYTES; lia)) as (k & _ & _ & H & _);
    [repeat (constructor; [vm_compute; split; [discriminate | reflexivity]|]); constructor | discriminate | exact H].
Defined.

